(* ===== verification/_CoqProject ===== *)
-Q . S2P
Prelude.v
Position.v
Merkle.v
InMemoryAccumulator.v
Collections.v
BitVec.v
ValidatorVerifier.v
LedgerInfo.v
TrustedState.v
AccumulatorProofs.v
MerkleAccumulator.v
QuorumCert.v
Timeout2Chain.v
ConsensusBlock.v
ConsensusMessages.v
SafetyRules.v
SafetyHistory.v
ConsensusSafety.v
ExecutedBlock.v
BlockTree.v
Recovery.v
BlockStore.v
Restart.v
SyncManager.v
BlockStoreExample.v
RoundState.v
Aggregator.v
ChangeSet.v
MVHashMap.v
BlockExecutor.v
SequentialState.v
ParallelInvariant.v
BlockSTM.v
Schedules.v
Scheduler.v
ReadStability.v
ScheduledExecution.v
SchedulerSafety.v
ScheduledSTM.v
SchedulerProgress.v
Subnet.v
SubnetExample.v
SubnetChain.v
SubnetPool.v
