(* ===== verification/Prelude.v ===== *)
(** * Verification of the Movement subnet node: root file

    The repository is a blockchain node derived from Aptos core.  Validators
    order blocks of transactions with a BFT consensus protocol, execute them and
    sign ledger infos that commit to the result; storage keeps the transactions
    in Merkle accumulators; light clients follow the chain by verifying ledger
    infos, epoch changes and Merkle proofs.  The development models the parts on
    which the correctness of this depends and that compute, as opposed to the
    asynchronous tasks, databases and network services around them.

    ** Parts and files

    All paths are under [src/].  A Rust method [T::f] is the definition [T.f] of
    the Module [T]; a struct is a Record [T.t], an enum an Inductive type.

    - [Prelude] (this file): outcomes of Rust code ([Ok], [Err], [Panic]), the
      monad of stateful methods ([action]), machine integers, lists.
    - [Collections]: [BTreeMap] as the ordered list of its entries.
    - [Position], [Merkle], [InMemoryAccumulator], [AccumulatorProofs],
      [MerkleAccumulator]: positions in a binary Merkle tree
      ([types/src/proof/position]), the accumulator that keeps only its frozen
      subtrees ([types/src/proof/accumulator]), the proofs about accumulators
      ([types/src/proof/definition.rs]) and the accumulator over storage
      ([storage/accumulator]).  [Merkle.merkle_root] is their specification.
    - [BitVec], [ValidatorVerifier], [LedgerInfo], [TrustedState]: bit masks of
      signers ([crates/aptos-bitvec]), validator sets and the verification of
      aggregated signatures ([types/src/validator_verifier.rs],
      [aggregate_signature.rs]), block and ledger infos, and the trusted state of
      a light client with epoch changes and waypoints ([types/src]).
    - [QuorumCert], [Timeout2Chain], [ConsensusBlock], [ConsensusMessages]: the
      types of the consensus protocol ([consensus/consensus-types]): quorum and
      timeout certificates, blocks, payloads, votes, messages.
    - [SafetyRules]: the component that holds the consensus key and decides what
      is signed ([consensus/safety-rules]), over persistent storage with a cache.
    - [SafetyHistory]: the histories of one validator, requests served in any
      order with restarts between them, and the invariant they keep.
    - [ConsensusSafety]: executions of a network of validators.
    - [ExecutedBlock], [BlockTree], [Recovery], [BlockStore], [SyncManager]: the
      blocks a validator holds ([consensus/src/block_storage],
      [consensus-types/src/executed_block.rs]), the database they are recovered
      from ([consensus/src/consensusdb], [persistent_liveness_storage.rs]) and
      their retrieval from other validators.  [Restart] proves that a restart
      succeeds, [BlockStoreExample] has the runs at which the theorems are
      exercised.
    - [RoundState]: counting votes and moving through rounds
      ([consensus/src/pending_votes.rs], [liveness/round_state.rs]).
    - [Aggregator], [ChangeSet]: the bounded counters that transactions update
      without reading them ([aptos-move/aptos-aggregator], the natives of
      [aptos-move/framework]), and the changes of a transaction
      ([types/src/write_set.rs], [aptos-move/aptos-vm-types]).
    - [MVHashMap], [BlockExecutor]: the map of versions under parallel execution
      ([aptos-move/mvhashmap]), parallel and sequential execution of a block
      ([aptos-move/block-executor]).  [SequentialState] relates the map of
      versions to that of sequential execution, [ParallelInvariant] has the
      invariant of the steps of parallel execution, [BlockSTM] the theorem that
      the two executions agree, [Schedules] the steps as functions.
    - [Scheduler], [ScheduledExecution]: the scheduler of parallel execution
      ([aptos-move/block-executor/src/scheduler.rs]) with its statuses, waves and
      indices, and the workers that take their tasks from it, in steps between two
      accesses to shared data.  [ReadStability] says which changes of the map of
      versions can make a valid read invalid, [SchedulerSafety] has the invariant
      of statuses and waves, [ScheduledSTM] the theorems about results,
      [SchedulerProgress] those about waiting for dependencies.
    - [Subnet]: the virtual machine of the subnet ([subnet/src]) with its blocks,
      their stores and the mempool.  [SubnetChain] is about chains of blocks,
      [SubnetPool] about submissions, [SubnetExample] has the instance at which
      the theorems are exercised.

    ** How code is modelled

    A pure function is a function into [outcome E A], where [E] is the error type:
    the texts of [anyhow] errors are strings without their formatted arguments.  A
    method with [&mut self] is an [action], a function from a state to a state and
    an outcome; the state after an error is part of the result.  Integers are [Z];
    [in_u64] is their range, [u64_add] and the like panic on overflow because the
    release profiles set [overflow-checks], and [checked_], [saturating_] and
    wrapping operations are written out.  A [HashMap] is a [gmap], or the list of
    its entries where its order shows; a [BTreeMap] is an ordered list, or a
    [gmap] with [entries] for its iteration; a [Vec] is a list.  Loops that are not structural have fuel; each
    fuel is computed from the input and the theorems show that it is enough
    ([AccumulatorRangeProof.levels_loop] by the number of siblings left, the
    iterators of [Position] by the 64 bits of a position, at most 128 steps; the
    loops over the block tree by the number of its blocks, those of block
    retrieval by the number of answers that are left).

    Code outside the repository is a parameter: hash functions ([MerkleHasher],
    [CryptoHash], [WaypointHasher]), BLS signatures ([CryptoTypes],
    [BlsAggregate], [Bls], [BlsSign], [PrivateKeys]), user transactions
    ([Transactions]), stores ([HashReader], [SafetyStore]), the serialization of
    integers ([Bcs128]) and the virtual machine ([BlockExecutor.prog]).  Interfaces
    inside the repository are classes with the instances of the code:
    [StateComputer], [LivenessStorage], [TransactionWrite].  What is relied on
    is stated by name: [multi_signatures_correct] and
    [aggregate_signatures_correct] (correctly made signatures aggregate to one
    that verifies), [SafetyStoreLaws] (what was written is read), [serves] (a
    store holds the frozen nodes), [StateComputerLaws] and [sound_call] (blocks agree
    with the parents and rounds of their identifiers), in [ConsensusSafety] that
    signatures are not forged and hashes of votes do not collide, and in the subnet
    that SHA-256 is injective ([AvalancheLaws]).  In the theorems on accumulators that
    depend on collisions, one is an alternative conclusion.  The instances
    [free_crypto], [free_bls] and [digest] (hashes that remember what was hashed)
    are those at which the theorems are exercised.

    ** What the theorems show

    - Agreement ([committed_blocks_agree]): in every execution in which validators
      that do not follow the safety rules hold at most a third of the voting
      power, the blocks that verified ledger infos commit in an epoch are on one
      chain.  It is proved from the safety rules as they are coded: a validator
      votes once per round ([never_votes_twice]), its timeouts report what it
      voted for ([timeouts_respect_votes]), and the stored safety data never moves
      back ([safety_data_advances]), whatever is asked, fails or is restarted.
    - Certificates: any two quorums share more than a third of the voting power;
      what a verified multi-signature or timeout certificate says; signatures of a
      quorum aggregate to certificates that verify.
    - Light clients: a ratcheted trusted state is justified by a chain of signed
      epoch changes, exactly such chains are accepted, and honest proofs are.  The
      version of the state does not go back, except that a partial proof taken from
      a state in an epoch is bounded by the epoch only.
    - Blocks: exactly the blocks of a specification are well formed; retrieved
      chains of blocks are determined by the requested block.
    - The block store ([Recovery], [Restart], [SyncManager]): whatever arrives, the
      tree stays well formed and the blocks handed to execution form one chain
      from the root, one for each time fast forward synchronization rebuilds the
      store; commits and the pruning that follows do what they promise; a restart
      recovers the blocks below the last committed one and succeeds; requests for
      blocks are answered with chains that the requester accepts if it accepts each
      of the blocks.
    - Rounds ([RoundState]): rounds only increase; every vote counts once and a
      quorum of them makes a certificate that verifies.
    - Counters and changes ([Aggregator], [ChangeSet]): working on a delta is the
      same as working on the value, merging deltas and squashing change sets is
      composition, and what is written to storage is what the changes mean.
    - Parallel execution ([MVHashMap], [BlockSTM]): a read of the map of versions that
      meets no estimate gives what the transactions before the reader do in order, and
      a finished
      parallel execution gives the results of sequential execution, however the
      steps of the workers interleave ([parallel_is_sequential]).  That theorem
      takes it for granted that a transaction is committed only when its reads are
      valid; the scheduler keeps this promise ([scheduled_reachable]), so the
      results are sequential under the scheduler as it is coded
      ([scheduled_is_sequential]).  It meets none of the statuses that it takes to
      be unreachable ([statuses_as_expected]), and workers that wait for each
      other neither deadlock nor miss their wakeup ([waiting_is_attended]).  The side
      conditions are those of [SequentialState]: keys are resources, modules or
      counters and outputs keep to that, and every counter is in storage before the
      block.  Without the last one parallel execution can have other results than
      sequential execution ([ScheduledSTM.CreatedCounter]).
    - Accumulators: the in-memory and the stored accumulator implement the Merkle
      tree over the list of leaves; proofs are accepted for what they prove and,
      up to a hash collision, for nothing else; position arithmetic, post-order
      numbers and the subtree iterators are what they mean on coordinates.
    - The subnet ([SubnetChain], [SubnetPool]): known blocks are linked and their
      heights and times increase, accepted blocks are executed, blocks that are
      built execute what they were built from, submissions are announced, and large
      ones are executed past the engine.
    - Errors: inputs on which the code panics or fails although it should not.

    ** Not modelled

    Formatting, logging, metrics, serialization, and test-only code of the modelled
    files.  The event loops of consensus (round manager, epoch manager, quorum
    store, DAG), state sync, the network, mempool, storage engine, the executor
    around storage, the Move virtual machine, APIs and tools: asynchronous code
    around services and databases, or other programs of their own size.  The
    conditions under which the safety rules are called
    ([ConsensusSafety.admissible]) stand for the checks of the event loops.  Atomic
    accesses of the scheduler are sequentially consistent; a commit with what the
    coordinator does for it is one step, and so are the loads with which
    [next_task] chooses a task; [fetch_update] does not fail spuriously, the
    execution index does not reach 2^32, and a worker that would begin wave 2^32
    stops.  That workers make steps at all is not modelled: progress is that
    somebody can, not that all transactions are committed in the end.
    [Block::new_for_dag] signs with a key generator that is not modelled. *)

From stdpp Require Export base tactics option list sets numbers strings.
From Stdlib Require Export ZArith Lia.

#[global] Open Scope Z_scope.

(** ** Outcomes of Rust code *)

(** A Rust computation returns, returns an error, or panics.  [E] is the error
    type: a [string] (the fixed text of the message) for [anyhow::Error], an
    inductive type for an error [enum]. *)
Inductive outcome (E A : Type) : Type :=
| Ok (a : A)
| Err (e : E)
| Panic.
Arguments Ok {E A} a.
Arguments Err {E A} e.
Arguments Panic {E A}.

Abbreviation result A := (outcome string A).

#[export] Instance outcome_ret {E} : MRet (outcome E) := fun A a => Ok a.
#[export] Instance outcome_bind {E} : MBind (outcome E) := fun A B f o =>
  match o with
  | Ok a => f a
  | Err e => Err e
  | Panic => Panic
  end.
#[export] Instance outcome_fmap {E} : FMap (outcome E) := fun A B f o =>
  match o with
  | Ok a => Ok (f a)
  | Err e => Err e
  | Panic => Panic
  end.

#[export] Instance outcome_eq_dec {E A} `{EqDecision E, EqDecision A} :
  EqDecision (outcome E A).
Proof. solve_decision. Defined.

(** [anyhow::ensure!], [assert!], [Option::expect] and [Option::ok_or_else]. *)
Definition ensure {E} (b : bool) (e : E) : outcome E unit :=
  if b then Ok tt else Err e.
Definition assert {E} (b : bool) : outcome E unit :=
  if b then Ok tt else Panic.
Definition expect {E A} (o : option A) : outcome E A :=
  match o with Some a => Ok a | None => Panic end.
Definition ok_or {E A} (o : option A) (e : E) : outcome E A :=
  match o with Some a => Ok a | None => Err e end.
(** [Result::map_err]. *)
Definition map_err {E F A} (f : E -> F) (o : outcome E A) : outcome F A :=
  match o with Ok a => Ok a | Err e => Err (f e) | Panic => Panic end.

(** [Result::expect]. *)
Definition unwrap {E A} (o : outcome E A) : outcome E A :=
  match o with Err _ => Panic | o => o end.

Definition is_ok {E A} (o : outcome E A) : bool :=
  match o with Ok _ => true | _ => false end.

(** [iter.map(f).collect::<Result<Vec<_>>>()]. *)
Fixpoint collect {E A B} (f : A -> outcome E B) (l : list A) : outcome E (list B) :=
  match l with
  | [] => Ok []
  | x :: l => y ← f x; ys ← collect f l; Ok (y :: ys)
  end.

(** ** Methods that change their object

    A method with [&mut self] takes the state and returns the new one with its
    outcome: what an error or a panic leaves behind is the state at that point. *)
Definition action (S E A : Type) : Type := S -> S * outcome E A.

#[export] Instance action_ret {S E} : MRet (action S E) := fun A a s => (s, Ok a).
#[export] Instance action_bind {S E} : MBind (action S E) := fun A B f m s =>
  match m s with
  | (s, Ok a) => f a s
  | (s, Err e) => (s, Err e)
  | (s, Panic) => (s, Panic)
  end.

(** A computation that does not change the state, reading and writing it. *)
Definition lift {S E A} (o : outcome E A) : action S E A := fun s => (s, o).
Definition gets {S E A} (f : S -> A) : action S E A := fun s => (s, Ok (f s)).
Definition modify {S E} (f : S -> S) : action S E unit := fun s => (f s, Ok tt).
(** A method of a component of the state, and one that handles an error. *)
Definition zoom {S T E A} (get : S -> T) (put : S -> T -> S) (m : action T E A) : action S E A :=
  fun s => let '(t, o) := m (get s) in (put s t, o).
Definition catch {S E F A B} (m : action S E A) (h : outcome E A -> action S F B) : action S F B :=
  fun s => let '(s, o) := m s in h o s.

(** ** Machine integers

    The release profiles of the workspace set [overflow-checks = true], so an
    overflowing [+], [-] or [*] panics; [<<] drops the bits shifted out and
    panics only when the shift amount is not below the width. *)
Definition u64_max : Z := 2 ^ 64 - 1.
Definition in_u64 (z : Z) : Prop := 0 <= z < 2 ^ 64.

Definition u64_not (x : Z) : Z := Z.land (Z.lnot x) u64_max.
Definition u64_wrapping_add (a b : Z) : Z := (a + b) `mod` 2 ^ 64.
Definition u64_add {E} (a b : Z) : outcome E Z :=
  if a + b <? 2 ^ 64 then Ok (a + b) else Panic.
Definition u64_mul {E} (a b : Z) : outcome E Z :=
  if a * b <? 2 ^ 64 then Ok (a * b) else Panic.
Definition u64_sub {E} (a b : Z) : outcome E Z :=
  if b <=? a then Ok (a - b) else Panic.
Definition u64_shl {E} (x n : Z) : outcome E Z :=
  if n <? 64 then Ok (Z.land (Z.shiftl x n) u64_max) else Panic.
Definition u64_shr {E} (x n : Z) : outcome E Z :=
  if n <? 64 then Ok (Z.shiftr x n) else Panic.
Definition u64_checked_add (a b : Z) : option Z :=
  if a + b <? 2 ^ 64 then Some (a + b) else None.
Definition u64_saturating_add (a b : Z) : Z := Z.min (a + b) u64_max.

Definition u128_add {E} (a b : Z) : outcome E Z :=
  if a + b <? 2 ^ 128 then Ok (a + b) else Panic.
Definition u128_sub {E} (a b : Z) : outcome E Z :=
  if b <=? a then Ok (a - b) else Panic.
Definition u128_mul {E} (a b : Z) : outcome E Z :=
  if a * b <? 2 ^ 128 then Ok (a * b) else Panic.

Fixpoint pos_trailing_zeros (p : positive) : nat :=
  match p with
  | xO q => S (pos_trailing_zeros q)
  | _ => O
  end.
Definition trailing_zeros (x : Z) : Z :=
  match x with
  | Zpos p => Z.of_nat (pos_trailing_zeros p)
  | _ => 64
  end.
Definition leading_zeros (x : Z) : Z :=
  if x =? 0 then 64 else 63 - Z.log2 x.
Fixpoint pos_count_ones (p : positive) : nat :=
  match p with
  | xH => 1%nat
  | xO q => pos_count_ones q
  | xI q => S (pos_count_ones q)
  end.
Definition count_ones (x : Z) : Z :=
  match x with
  | Zpos p => Z.of_nat (pos_count_ones p)
  | _ => 0
  end.

#[global] Arguments u64_max : simpl never.
#[global] Arguments u64_not : simpl never.
#[global] Arguments u64_add : simpl never.
#[global] Arguments u64_mul : simpl never.
#[global] Arguments u64_sub : simpl never.
#[global] Arguments u64_shl : simpl never.
#[global] Arguments u64_shr : simpl never.
#[global] Arguments trailing_zeros : simpl never.
#[global] Arguments leading_zeros : simpl never.
#[global] Arguments count_ones : simpl never.

(** ** Vectors: [Vec::push] and [Vec::pop] work at the end of the list *)
Definition vec_push {A} (v : list A) (x : A) : list A := v ++ [x].
Definition vec_pop {A} (v : list A) : option (A * list A) :=
  match rev v with
  | [] => None
  | x :: r => Some (x, rev r)
  end.

Lemma vec_pop_snoc {A} (v : list A) (x : A) : vec_pop (v ++ [x]) = Some (x, v).
Proof. unfold vec_pop. by rewrite rev_app_distr, ?rev_involutive; simpl; rewrite rev_involutive. Qed.

Lemma rev_reverse {A} (l : list A) : rev l = reverse l.
Proof. apply rev_alt. Qed.

(** ** Automation *)

(** Reduces a bind whose first computation has returned, and nothing else. *)
Ltac mstep := cbn [mbind outcome_bind mret outcome_ret].

(** Case analysis on the boolean tests of [if]s and on nested matches. *)
Ltac case_ifs :=
  repeat match goal with
  | |- context [if ?b then _ else _] => destruct b eqn:?
  | H : context [if ?b then _ else _] |- _ => destruct b eqn:?
  end.

(** Turns boolean comparisons on [Z] into propositions. *)
Ltac zbool :=
  repeat match goal with
  | H : (_ <? _) = true |- _ => apply Z.ltb_lt in H
  | H : (_ <? _) = false |- _ => apply Z.ltb_ge in H
  | H : (_ <=? _) = true |- _ => apply Z.leb_le in H
  | H : (_ <=? _) = false |- _ => apply Z.leb_gt in H
  | H : (_ =? _) = true |- _ => apply Z.eqb_eq in H
  | H : (_ =? _) = false |- _ => apply Z.eqb_neq in H
  end.

(** Inverts one successful bind after another in the hypothesis [H]. *)
Ltac inv_ok H :=
  repeat match type of H with
  | (?o ≫= _) = Ok _ => let E := fresh "Hb" in destruct o eqn:E; simpl in H; try discriminate H
  | mbind _ ?o = Ok _ => let E := fresh "Hb" in destruct o eqn:E; simpl in H; try discriminate H
  end.

Create HintDb outcome.

Lemma bind_Ok {E A B} (f : A -> outcome E B) (o : outcome E A) (b : B) :
  (o ≫= f) = Ok b <-> exists a, o = Ok a /\ f a = Ok b.
Proof. destruct o; simpl; split; try done; eauto; by intros (? & [= ->] & ?). Qed.

Lemma bind_ret {E A B} (f : A -> outcome E B) (a : A) : (Ok a ≫= f) = f a.
Proof. done. Qed.

Lemma ensure_Ok {E} (b : bool) (e : E) : ensure b e = Ok tt <-> b = true.
Proof. unfold ensure. destruct b; naive_solver. Qed.

Lemma assert_Ok {E} (b : bool) : @assert E b = Ok tt <-> b = true.
Proof. unfold assert. destruct b; naive_solver. Qed.

Lemma assert_true {E} (b : bool) : b = true -> @assert E b = Ok tt.
Proof. by intros ->. Qed.

Lemma ensure_true {E} (b : bool) (e : E) : b = true -> ensure b e = Ok tt.
Proof. by intros ->. Qed.

Lemma u64_add_Ok {E} a b : a + b < 2 ^ 64 -> @u64_add E a b = Ok (a + b).
Proof. intros ?. unfold u64_add. by rewrite (proj2 (Z.ltb_lt _ _)). Qed.

Lemma u64_sub_Ok {E} a b : b <= a -> @u64_sub E a b = Ok (a - b).
Proof. intros ?. unfold u64_sub. by rewrite (proj2 (Z.leb_le _ _)). Qed.

Lemma collect_Ok {E A B} (f : A -> outcome E B) (g : A -> B) (l : list A) :
  (forall x, x ∈ l -> f x = Ok (g x)) -> collect f l = Ok (g <$> l).
Proof.
  induction l as [|x l IH]; intros Hf; [done|].
  simpl. rewrite Hf by set_solver. simpl. rewrite IH by set_solver. done.
Qed.

(** ** Bits of integers *)

Lemma testbit_above n i : 0 <= n < 2 ^ i -> forall j, i <= j -> Z.testbit n j = false.
Proof.
  intros Hn j Hj. destruct (Z.lt_ge_cases i 0) as [Hi|Hi].
  { rewrite Z.pow_neg_r in Hn by lia. lia. }
  rewrite <-(Z.mod_small n (2 ^ i)) by lia. by apply Z.mod_pow2_bits_high.
Qed.

Lemma testbit_u64_max i : 0 <= i -> Z.testbit u64_max i = (i <? 64).
Proof.
  intros. replace u64_max with (Z.ones 64) by reflexivity.
  by apply Z.testbit_ones_nonneg.
Qed.

Lemma testbit_u64_not x i : 0 <= i -> Z.testbit (u64_not x) i = negb (Z.testbit x i) && (i <? 64).
Proof. intros. unfold u64_not. by rewrite Z.land_spec, Z.lnot_spec, testbit_u64_max. Qed.

Lemma land_u64_max x : Z.land x u64_max = x `mod` 2 ^ 64.
Proof. replace u64_max with (Z.ones 64) by reflexivity. by apply Z.land_ones. Qed.

Lemma u64_not_eq x : in_u64 x -> u64_not x = u64_max - x.
Proof.
  intros Hx. unfold u64_not, in_u64 in *. rewrite land_u64_max. unfold Z.lnot, u64_max.
  rewrite <-Z.sub_1_r. replace (- x - 1) with ((2 ^ 64 - 1 - x) + (-1) * 2 ^ 64) by lia.
  rewrite Z_mod_plus_full. apply Z.mod_small. lia.
Qed.

Lemma testbit_1 i : 0 <= i -> Z.testbit 1 i = (i =? 0).
Proof.
  intros. destruct (i =? 0) eqn:E; zbool; subst; [done|].
  apply (testbit_above 1 1); lia.
Qed.

Lemma testbit_pow2 n i : 0 <= n -> Z.testbit (2 ^ n) i = (i =? n).
Proof.
  intros. destruct (i =? n) eqn:E; zbool; subst.
  - by apply Z.pow2_bits_true.
  - by apply Z.pow2_bits_false.
Qed.

(** Rewrites the bits of a compound term down to bits of its atoms. *)
Create Rewrite HintDb bits.
#[export] Hint Rewrite Z.land_spec Z.lor_spec Z.lxor_spec Z.testbit_0_l : bits.
#[export] Hint Rewrite testbit_u64_not testbit_u64_max Z.shiftl_spec Z.shiftr_spec
  testbit_pow2 Z.testbit_ones_nonneg Z.lnot_spec using lia : bits.

Lemma pow2_pos n : 0 <= n -> 0 < 2 ^ n.
Proof. intros. by apply Z.pow_pos_nonneg. Qed.
#[export] Hint Resolve pow2_pos : core.

Lemma pow2_succ n : 0 <= n -> 2 ^ (n + 1) = 2 * 2 ^ n.
Proof. intros. by rewrite Z.add_1_r, Z.pow_succ_r. Qed.

Lemma pow2_le_mono a b : 0 <= a <= b -> 2 ^ a <= 2 ^ b.
Proof. intros. apply Z.pow_le_mono_r; lia. Qed.

Lemma pow2_lt_mono a b : 0 <= a < b -> 2 ^ a < 2 ^ b.
Proof. intros. apply Z.pow_lt_mono_r; lia. Qed.

Lemma trailing_zeros_spec x n k :
  0 <= n -> 0 <= k -> x = (2 * k + 1) * 2 ^ n -> trailing_zeros x = n.
Proof.
  intros Hn. revert x k. pattern n. apply natlike_ind; [| |done]; clear n Hn.
  - intros x k Hk ->. rewrite Z.pow_0_r, Z.mul_1_r.
    destruct k as [|k|k]; [done|done|lia].
  - intros n Hn IH x k Hk ->. rewrite Z.pow_succ_r by done.
    specialize (IH _ k Hk eq_refl).
    replace ((2 * k + 1) * (2 * 2 ^ n)) with (2 * ((2 * k + 1) * 2 ^ n)) by ring.
    assert (0 < (2 * k + 1) * 2 ^ n) by (apply Z.mul_pos_pos; auto with lia).
    destruct ((2 * k + 1) * 2 ^ n) as [|p|p] eqn:E; try lia.
    change (2 * Z.pos p) with (Z.pos p~0). unfold trailing_zeros in *.
    cbn [pos_trailing_zeros]. lia.
Qed.

(** Every positive integer is an odd multiple of a power of two. *)
Lemma odd_decomposition x : 0 < x -> exists n k, 0 <= n /\ 0 <= k /\ x = (2 * k + 1) * 2 ^ n.
Proof.
  intros Hx. destruct x as [|p|p]; try lia. clear Hx.
  induction p as [p IH|p IH|].
  - exists 0, (Zpos p). rewrite Z.pow_0_r. lia.
  - destruct IH as (n & k & Hn & Hk & E). exists (n + 1), k.
    split_and!; [lia|lia|]. rewrite pow2_succ by lia. lia.
  - exists 0, 0. done.
Qed.

(** ** Closure of the [u64] range and equality of [u64]s bit by bit *)

Lemma in_u64_bits x : 0 <= x -> (forall i, 64 <= i -> Z.testbit x i = false) -> in_u64 x.
Proof.
  intros Hx Hb. unfold in_u64. destruct (Z.eq_dec x 0) as [->|]; [lia|].
  split; [done|]. apply Z.log2_lt_pow2; [lia|].
  destruct (Z.lt_ge_cases (Z.log2 x) 64); [done|].
  specialize (Hb _ H). rewrite Z.bit_log2 in Hb by lia. done.
Qed.

Lemma in_u64_high x i : in_u64 x -> 64 <= i -> Z.testbit x i = false.
Proof. intros. by apply (testbit_above x 64). Qed.

Lemma in_u64_land_r a b : in_u64 b -> in_u64 (Z.land a b).
Proof.
  intros Hb. apply in_u64_bits; [apply Z.land_nonneg; right; apply Hb|].
  intros. rewrite Z.land_spec, (in_u64_high b) by done. apply andb_false_r.
Qed.

Lemma in_u64_land_l a b : in_u64 a -> in_u64 (Z.land a b).
Proof. rewrite Z.land_comm. apply in_u64_land_r. Qed.

Lemma in_u64_lor a b : in_u64 a -> in_u64 b -> in_u64 (Z.lor a b).
Proof.
  intros Ha Hb. apply in_u64_bits; [apply Z.lor_nonneg; unfold in_u64 in *; lia|].
  intros. by rewrite Z.lor_spec, !in_u64_high.
Qed.

Lemma in_u64_lxor a b : in_u64 a -> in_u64 b -> in_u64 (Z.lxor a b).
Proof.
  intros Ha Hb. apply in_u64_bits; [apply Z.lxor_nonneg; unfold in_u64 in *; lia|].
  intros. by rewrite Z.lxor_spec, !in_u64_high.
Qed.

Lemma in_u64_not a : in_u64 (u64_not a).
Proof. apply in_u64_land_r. done. Qed.

Lemma in_u64_pow2 n : 0 <= n < 64 -> in_u64 (2 ^ n).
Proof. intros. split; [apply Z.pow_nonneg; lia|]. apply pow2_lt_mono; lia. Qed.

Create HintDb u64.
#[export] Hint Resolve in_u64_land_r in_u64_lor in_u64_lxor in_u64_not : u64.
#[export] Hint Resolve in_u64_land_l | 2 : u64.
#[export] Hint Extern 1 (in_u64 (2 ^ _)) => apply in_u64_pow2; lia : u64.
#[export] Hint Extern 1 (in_u64 u64_max) => done : u64.
#[export] Hint Extern 1 (in_u64 0) => done : u64.
#[export] Hint Extern 2 (in_u64 (if ?b then _ else _)) => destruct b : u64.

Lemma u64_bits_inj a b :
  in_u64 a -> in_u64 b ->
  (forall i, 0 <= i < 64 -> Z.testbit a i = Z.testbit b i) -> a = b.
Proof.
  intros Ha Hb H. apply Z.bits_inj'. intros i Hi.
  destruct (Z.lt_ge_cases i 64); [by apply H|]. by rewrite !in_u64_high.
Qed.

(** Proves an equality of [u64]s bit by bit: [i] is the bit looked at. *)
Ltac bitwise i Hi :=
  apply u64_bits_inj;
  [try solve [eauto with u64]..|intros i Hi; autorewrite with bits].

(** Splits on every comparison of integers left in a goal between booleans. *)
Ltac zcases :=
  repeat match goal with
  | |- context [?a <? ?b] => destruct (Z.ltb_spec a b); simpl; try lia
  | |- context [?a =? ?b] => destruct (Z.eqb_spec a b); simpl; try lia
  | |- context [?a <=? ?b] => destruct (Z.leb_spec a b); simpl; try lia
  end;
  rewrite ?orb_false_r, ?orb_true_r, ?andb_false_r, ?andb_true_r, ?xorb_false_r;
  try done.

Lemma u64_shl_pow2 {E} k n : 0 <= k -> 0 <= n -> k + n < 64 -> @u64_shl E (2 ^ k) n = Ok (2 ^ (k + n)).
Proof.
  intros. unfold u64_shl. rewrite (proj2 (Z.ltb_lt n 64)) by lia. f_equal.
  rewrite Z.shiftl_mul_pow2, <-Z.pow_add_r, land_u64_max by lia.
  apply Z.mod_small. apply in_u64_pow2. lia.
Qed.

Lemma u64_shl_Ok {E} x n : 0 <= x -> 0 <= n < 64 -> x * 2 ^ n < 2 ^ 64 ->
  @u64_shl E x n = Ok (x * 2 ^ n).
Proof.
  intros. unfold u64_shl. rewrite (proj2 (Z.ltb_lt n 64)) by lia. f_equal.
  rewrite Z.shiftl_mul_pow2, land_u64_max by lia. apply Z.mod_small.
  split; [|done]. apply Z.mul_nonneg_nonneg; [done|]. apply Z.pow_nonneg; lia.
Qed.

Lemma u64_shr_Ok {E} x n : 0 <= n < 64 -> @u64_shr E x n = Ok (x / 2 ^ n).
Proof.
  intros. unfold u64_shr. rewrite (proj2 (Z.ltb_lt n 64)) by lia.
  by rewrite Z.shiftr_div_pow2 by lia.
Qed.

(** ** Population count *)

Lemma count_ones_double x : 0 <= x -> count_ones (2 * x) = count_ones x.
Proof. intros. destruct x; [done|done|lia]. Qed.

Lemma count_ones_double_succ x : 0 <= x -> count_ones (2 * x + 1) = count_ones x + 1.
Proof.
  intros. destruct x as [|p|]; [done| |lia].
  change (2 * Z.pos p + 1) with (Z.pos p~1). unfold count_ones. cbn [pos_count_ones]. lia.
Qed.

Lemma count_ones_shift x n : 0 <= x -> 0 <= n -> count_ones (x * 2 ^ n) = count_ones x.
Proof.
  intros Hx Hn. pattern n. apply natlike_ind; [by rewrite Z.pow_0_r, Z.mul_1_r| |done].
  intros m Hm IH. rewrite Z.pow_succ_r by done.
  replace (x * (2 * 2 ^ m)) with (2 * (x * 2 ^ m)) by ring.
  rewrite count_ones_double; [done|]. apply Z.mul_nonneg_nonneg; [done|]. by apply Z.pow_nonneg.
Qed.

Lemma count_ones_top n r : 0 <= n -> 0 <= r < 2 ^ n -> count_ones (2 ^ n + r) = count_ones r + 1.
Proof.
  intros Hn. revert r. pattern n. apply natlike_ind; [| |done]; clear n Hn.
  - intros r Hr. rewrite Z.pow_0_r in *. by replace r with 0 by lia.
  - intros m Hm IH r Hr. rewrite Z.pow_succ_r in * by done.
    pose proof (Z.div_mod r 2 ltac:(lia)). pose proof (Z.mod_pos_bound r 2 ltac:(lia)).
    assert (0 <= r / 2 < 2 ^ m) by lia.
    assert (r `mod` 2 = 0 \/ r `mod` 2 = 1) as [E|E] by lia; rewrite E in *.
    + replace (2 * 2 ^ m + r) with (2 * (2 ^ m + r / 2)) by lia.
      rewrite count_ones_double, IH by lia. replace r with (2 * (r / 2)) at 2 by lia.
      by rewrite count_ones_double by lia.
    + replace (2 * 2 ^ m + r) with (2 * (2 ^ m + r / 2) + 1) by lia.
      rewrite count_ones_double_succ, IH by lia. replace r with (2 * (r / 2) + 1) at 2 by lia.
      rewrite count_ones_double_succ by lia. lia.
Qed.

Lemma pos_count_ones_le p : Z.of_nat (pos_count_ones p) <= Z.pos p.
Proof. induction p; cbn [pos_count_ones]; lia. Qed.

Lemma count_ones_bounds x : 0 <= x -> 0 <= count_ones x <= x.
Proof.
  intros. destruct x as [|p|]; [done| |lia]. unfold count_ones.
  pose proof (pos_count_ones_le p). lia.
Qed.

(** ** The set bits of an integer, from the lowest *)
Definition set_bits (k m : Z) : list Z := filter (fun i => Z.testbit m i = true) (seqZ 0 k).

Lemma set_bits_0 k : set_bits k 0 = [].
Proof.
  unfold set_bits. induction (seqZ 0 k) as [|x l IH]; [done|].
  rewrite filter_cons_False; [done|]. by rewrite Z.testbit_0_l.
Qed.

Lemma filter_none {A} (P : A -> Prop) `{!forall x, Decision (P x)} (l : list A) :
  (forall x, x ∈ l -> ~ P x) -> filter P l = [].
Proof.
  induction l as [|x l IH]; intros Hl; [done|].
  rewrite filter_cons_False by (apply Hl; set_solver). apply IH. set_solver.
Qed.

Lemma filter_ext_in {A} (P Q : A -> Prop) `{!forall x, Decision (P x), !forall x, Decision (Q x)}
    (l : list A) :
  (forall x, x ∈ l -> P x <-> Q x) -> filter P l = filter Q l.
Proof.
  induction l as [|x l IH]; intros Hl; [done|].
  rewrite !filter_cons, IH by set_solver.
  destruct (Hl x ltac:(set_solver)). repeat case_decide; tauto || done.
Qed.

Lemma set_bits_top k m : 0 < m < 2 ^ k -> 0 <= k ->
  set_bits k m = set_bits k (m - 2 ^ Z.log2 m) ++ [Z.log2 m].
Proof.
  intros Hm Hk. pose proof (Z.log2_spec m ltac:(lia)) as Hlog.
  pose proof (Z.log2_nonneg m) as H0.
  assert (Z.log2 m < k) as Hlk by (apply Z.log2_lt_pow2; lia).
  assert (0 <= m - 2 ^ Z.log2 m < 2 ^ Z.log2 m) as Hr.
  { rewrite Z.pow_succ_r in Hlog by done. lia. }
  assert (Hbits : forall i, 0 <= i -> Z.testbit m i = (i =? Z.log2 m) || Z.testbit (m - 2 ^ Z.log2 m) i).
  { intros i Hi. replace m with (Z.lor (2 ^ Z.log2 m) (m - 2 ^ Z.log2 m)) at 1.
    - by rewrite Z.lor_spec, testbit_pow2.
    - rewrite <-Z.add_nocarry_lor; [lia|]. apply Z.bits_inj'. intros j Hj.
      rewrite Z.land_spec, Z.testbit_0_l, testbit_pow2 by done. zcases. subst.
      by apply (testbit_above _ (Z.log2 m)). }
  unfold set_bits. replace k with (Z.log2 m + (k - Z.log2 m)) by lia.
  rewrite !seqZ_app, !filter_app by lia. rewrite Z.add_0_l.
  rewrite (seqZ_cons (Z.log2 m)) by lia.
  rewrite filter_cons_True, filter_cons_False.
  2: { by rewrite (testbit_above _ (Z.log2 m)). }
  2: { rewrite Hbits by done. by rewrite Z.eqb_refl. }
  rewrite !(filter_none _ (seqZ (Z.succ _) _)).
  2,3: intros i Hi; apply elem_of_seqZ in Hi; rewrite (testbit_above _ (Z.succ (Z.log2 m))); [done|..]; try lia.
  rewrite app_nil_r. f_equal. apply filter_ext_in. intros i Hi. apply elem_of_seqZ in Hi.
  rewrite Hbits by lia. by rewrite (proj2 (Z.eqb_neq i _)) by lia.
Qed.

Lemma div2_odd m q : m = 2 * q + 1 -> m / 2 = q.
Proof. intros. symmetry. apply (Z.div_unique _ _ _ 1); lia. Qed.

Lemma div2_even m q : m = 2 * q -> m / 2 = q.
Proof. intros ->. by rewrite Z.mul_comm, Z.div_mul. Qed.

Lemma count_ones_pos m : 0 < m -> 0 < count_ones m.
Proof.
  intros. destruct m as [|p|]; [lia| |lia]. unfold count_ones.
  assert (0 < pos_count_ones p)%nat; [|lia]. induction p; simpl; lia.
Qed.

(** An equation of closed terms, compared by evaluation without reading them back. *)
Ltac vm_refl := match goal with |- _ = ?b => vm_cast_no_check (eq_refl b) end.

(** ** Inverting a run of a method *)
Lemma action_bind_inv {S E A B} (f : A -> action S E B) (m : action S E A) s s' (o : outcome E B) :
  (m ≫= f) s = (s', o) ->
  (exists s1 a, m s = (s1, Ok a) /\ f a s1 = (s', o)) \/
  (exists e, m s = (s', Err e) /\ o = Err e) \/ (m s = (s', Panic) /\ o = Panic).
Proof.
  unfold mbind, action_bind. destruct (m s) as [s1 [a|e|]] eqn:Em; intros H.
  - left. by exists s1, a.
  - right. left. injection H as -> <-. by exists e.
  - right. right. by injection H as -> <-.
Qed.

Lemma map_err_Ok {E F A} (f : E -> F) (o : outcome E A) a : map_err f o = Ok a -> o = Ok a.
Proof. destruct o; cbn; congruence. Qed.

Lemma action_bind_Ok {S E A B} (f : A -> action S E B) (m : action S E A) s s' b :
  (m ≫= f) s = (s', Ok b) <-> exists s1 a, m s = (s1, Ok a) /\ f a s1 = (s', Ok b).
Proof.
  unfold mbind, action_bind. destruct (m s) as [s1 [a|e|]]; naive_solver.
Qed.

Lemma action_bind_step {S E A B} (f : A -> action S E B) (m : action S E A) s s' a :
  m s = (s', Ok a) -> (m ≫= f) s = f a s'.
Proof. intros Hm. unfold mbind, action_bind. by rewrite Hm. Qed.

(** Reasoning about actions: from a state with [P], an action gives a result with
    [Q], or an error in a state with [I].  A panic ends the program. *)
Definition hoare {S E A} (I P : S -> Prop) (m : action S E A) (Q : A -> S -> Prop) : Prop :=
  forall s s' o, P s -> m s = (s', o) -> match o with Ok a => Q a s' | Err _ => I s' | Panic => True end.

Lemma hoare_bind {S E A B} (I P : S -> Prop) (m : action S E A) (f : A -> action S E B) Q R :
  hoare I P m Q -> (forall a, hoare I (Q a) (f a) R) -> hoare I P (m ≫= f) R.
Proof.
  intros Hm Hf s s' o HP Hr. apply action_bind_inv in Hr as [(s1 & a & H1 & H2)|[(e & H1 & ->)|[H1 ->]]]; [|..|done].
  - apply (Hf a s1 s' o); [|done]. apply (Hm _ _ _ HP H1).
  - apply (Hm _ _ _ HP H1).
Qed.

Lemma hoare_weaken {S E A} (I P P' : S -> Prop) (m : action S E A) (Q Q' : A -> S -> Prop) :
  hoare I P m Q -> (forall s, P' s -> P s) -> (forall a s, Q a s -> Q' a s) -> hoare I P' m Q'.
Proof. intros Hm HP HQ s s' o Hs Hr. specialize (Hm _ _ _ (HP _ Hs) Hr). destruct o; auto. Qed.

Lemma hoare_ret {S E A} (I P : S -> Prop) (a : A) (Q : A -> S -> Prop) :
  (forall s, P s -> Q a s) -> hoare I P (mret a : action S E A) Q.
Proof. intros HQ s s' o Hs [= <- <-]. auto. Qed.

Lemma hoare_gets {S E A} (I P : S -> Prop) (f : S -> A) : hoare I P (@gets S E A f) (fun a s => P s /\ a = f s).
Proof. intros s s' o Hs [= <- <-]. auto. Qed.

Lemma hoare_lift {S E A} (I P : S -> Prop) (o : outcome E A) :
  (forall s, P s -> I s) -> hoare I P (lift o) (fun a s => P s /\ o = Ok a).
Proof. intros HI s s' o' Hs [= <- <-]. destruct o; auto. Qed.

Lemma hoare_modify {S E} (I P : S -> Prop) (f : S -> S) (Q : unit -> S -> Prop) :
  (forall s, P s -> Q tt (f s)) -> hoare I P (@modify S E f) Q.
Proof. intros HQ s s' o Hs [= <- <-]. auto. Qed.

(** A computation that gives the value [v], or fails with an error, but does not
    panic, when [v] is [None]. *)
Definition gives {E A} (o : outcome E A) (v : option A) : Prop :=
  match o, v with
  | Ok a, Some b => a = b
  | Err _, None => True
  | _, _ => False
  end.

Lemma gives_bind {E A B} (o : outcome E A) v (f : A -> outcome E B) g : gives o v ->
  (forall a, v = Some a -> gives (f a) (g a)) -> gives (o ≫= f) (v ≫= g).
Proof. destruct o, v; simpl; intros Ho Hf; try done. subst. by apply Hf. Qed.

Lemma gives_map_err {E F A} (h : E -> F) (o : outcome E A) v : gives o v -> gives (map_err h o) v.
Proof. by destruct o, v. Qed.

Lemma gives_Ok {E A} (o : outcome E A) v a : gives o v -> v = Some a -> o = Ok a.
Proof. intros Ho ->. destruct o; simpl in Ho; try done. by subst. Qed.

Lemma gives_None {E A} (o : outcome E A) v : gives o v -> v = None -> exists e, o = Err e.
Proof. intros Ho ->. destruct o; simpl in Ho; try done. eauto. Qed.

Lemma gives_inv {E A} (o : outcome E A) v a : gives o v -> o = Ok a -> v = Some a.
Proof. intros Ho ->. destruct v; simpl in Ho; [by subst|done]. Qed.

(** ** Lists *)
Lemma all_or_some {A} (P Q : A -> Prop) (l : list A) : (forall x, x ∈ l -> P x \/ Q x) ->
  (forall x, x ∈ l -> P x) \/ exists x, x ∈ l /\ Q x.
Proof.
  induction l as [|x l IH]; intros Hl; [left; by intros ? ?%elem_of_nil|].
  destruct (Hl x ltac:(set_solver)) as [HP|HQ]; [|right; exists x; set_solver].
  destruct IH as [HA|(y & ? & ?)]; [set_solver| |right; exists y; set_solver].
  left. intros y [->|?]%elem_of_cons; auto.
Qed.

Lemma NoDup_filter_bool {A} (f : A -> bool) l : NoDup l -> NoDup (List.filter f l).
Proof. rewrite !NoDup_ListNoDup. apply List.NoDup_filter. Qed.

Lemma Forall2_impl_elem {A B} (P Q : A -> B -> Prop) l k : Forall2 P l k ->
  (forall x y, x ∈ l -> y ∈ k -> P x y -> Q x y) -> Forall2 Q l k.
Proof. induction 1; intros HPQ; constructor; [apply HPQ; set_solver|set_solver]. Qed.

Lemma collect_length {E A B} (f : A -> outcome E B) l k : collect f l = Ok k -> length k = length l.
Proof.
  revert k. induction l as [|x l IH]; intros k Hk; cbn [collect] in Hk; [by injection Hk as <-|].
  apply bind_Ok in Hk as (y & _ & Hk). apply bind_Ok in Hk as (ys & Hys & Hk). injection Hk as <-.
  cbn [length]. by rewrite (IH ys).
Qed.
