(* ===== verification/Position.v ===== *)
(** * Positions of nodes in a binary Merkle tree

    Model of [types/src/proof/position/mod.rs].  A [Position(u64)] is the
    in-order number of a node and is modelled by the integer it wraps.  The
    second half of the file gives every operation its meaning on coordinates:
    [node l p] is the in-order number of the [p]-th node of level [l]. *)

From S2P Require Import Prelude.

(** ** Definitions *)

Definition MAX_ACCUMULATOR_PROOF_DEPTH : Z := 63.
Definition MAX_ACCUMULATOR_LEAVES : Z := 2 ^ MAX_ACCUMULATOR_PROOF_DEPTH.

Inductive NodeDirection := Left | Right.

Definition smear_ones_for_u64 (v : Z) : Z :=
  let n := v in
  let n := Z.lor n (Z.shiftr n 1) in
  let n := Z.lor n (Z.shiftr n 2) in
  let n := Z.lor n (Z.shiftr n 4) in
  let n := Z.lor n (Z.shiftr n 8) in
  let n := Z.lor n (Z.shiftr n 16) in
  let n := Z.lor n (Z.shiftr n 32) in
  n.

Definition turn_off_right_most_n_bits (v n : Z) : result Z :=
  w ← u64_shr v n; u64_shl w n.

Definition isolate_rightmost_zero_bit (v : Z) : Z :=
  Z.land (u64_not v) (u64_wrapping_add v 1).

Module Position.

Definition level (self : Z) : Z := trailing_zeros (u64_not self).

Definition is_leaf (self : Z) : bool := Z.land self 1 =? 0.

Definition from_level_and_pos (level pos : Z) : result Z :=
  assert (level <? 64);;
  one ← u64_shl 1 level;
  assert (0 <? one);;
  level_one_bits ← u64_sub one 1;
  shifted_pos ← (if level =? 63 then Ok 0 else u64_shl pos (level + 1));
  Ok (Z.lor shifted_pos level_one_bits).

Definition from_inorder_index (index : Z) : Z := index.
Definition to_inorder_index (self : Z) : Z := self.

(** The check [self.0 < u64::max_value() - 1] that guards most operations. *)
Definition assert_invariant (self : Z) : result unit := assert (self <? u64_max - 1).

Definition parent (self : Z) : result Z :=
  assert_invariant self;;
  b ← u64_shl (isolate_rightmost_zero_bit self) 1;
  Ok (Z.land (Z.lor self (isolate_rightmost_zero_bit self)) (u64_not b)).

Definition child (self : Z) (dir : NodeDirection) : result Z :=
  assert (negb (is_leaf self));;
  assert_invariant self;;
  let direction_bit :=
    match dir with
    | Left => 0
    | Right => isolate_rightmost_zero_bit self
    end in
  b ← u64_shr (isolate_rightmost_zero_bit self) 1;
  Ok (Z.land (Z.lor self direction_bit) (u64_not b)).

Definition left_child (self : Z) : result Z :=
  assert (negb (is_leaf self));; child self Left.

Definition right_child (self : Z) : result Z :=
  assert (negb (is_leaf self));; child self Right.

Definition is_left_child (self : Z) : result bool :=
  assert_invariant self;;
  b ← u64_shl (isolate_rightmost_zero_bit self) 1;
  Ok (Z.land self b =? 0).

Definition is_right_child (self : Z) : result bool :=
  b ← is_left_child self; Ok (negb b).

Definition from_leaf_index (leaf_index : Z) : result Z :=
  from_level_and_pos 0 leaf_index.

Definition sibling (self : Z) : result Z :=
  assert_invariant self;;
  b ← u64_shl (isolate_rightmost_zero_bit self) 1;
  Ok (Z.lxor self b).

Definition root_from_leaf_index (leaf_index : Z) : result Z :=
  leaf ← from_leaf_index leaf_index;
  Ok (Z.shiftr (smear_ones_for_u64 leaf) 1).

Definition root_from_leaf_count (leaf_count : Z) : result Z :=
  assert (0 <? leaf_count);;
  i ← u64_sub leaf_count 1;
  root_from_leaf_index i.

Definition root_level_from_leaf_count (leaf_count : Z) : result Z :=
  assert (0 <? leaf_count);;
  index ← u64_sub leaf_count 1;
  u64_sub (MAX_ACCUMULATOR_PROOF_DEPTH + 1) (leading_zeros index).

Definition right_most_child (self : Z) : result Z :=
  one ← u64_shl 1 (level self);
  s ← u64_add self one;
  u64_sub s 1.

Definition left_most_child (self : Z) : result Z :=
  turn_off_right_most_n_bits self (level self).

Definition is_freezable (self leaf_index : Z) : result bool :=
  leaf ← from_leaf_index leaf_index;
  right_most ← right_most_child self;
  Ok (right_most <=? leaf).

Definition is_placeholder (self leaf_index : Z) : result bool :=
  leaf ← from_leaf_index leaf_index;
  if self <=? leaf then Ok false
  else
    left_most ← left_most_child self;
    if left_most <=? leaf then Ok false else Ok true.

(** *** Post-order numbering *)

Definition children_of_node (node : Z) : result Z :=
  b ← u64_shl (isolate_rightmost_zero_bit node) 1; u64_sub b 2.

Definition nodes_to_left_of (node : Z) : result Z :=
  ones_up_to_level ← u64_sub (isolate_rightmost_zero_bit node) 1;
  let unset_level_zeros := Z.lxor node ones_up_to_level in
  u64_sub unset_level_zeros (count_ones unset_level_zeros).

Definition inorder_to_postorder (node : Z) : result Z :=
  children ← children_of_node node;
  left_nodes ← nodes_to_left_of node;
  u64_add children left_nodes.

(** The loop [for i in (0..64).rev()]; [fuel] is the number of iterations left,
    so that the loop variable is [fuel - 1]. *)
Fixpoint postorder_loop (fuel : nat) (node full_binary_size bitmap : Z) : Z * Z :=
  match fuel with
  | O => (node, bitmap)
  | S i =>
      if full_binary_size <=? node then
        postorder_loop i (node - full_binary_size) (Z.shiftr full_binary_size 1)
          (Z.lor bitmap (Z.shiftl 1 (Z.of_nat i)))
      else postorder_loop i node (Z.shiftr full_binary_size 1) bitmap
  end.

Definition postorder_to_inorder (node : Z) : result Z :=
  let '(node, bitmap) := postorder_loop 64 node u64_max 0 in
  let level := node `mod` 2 ^ 32 in
  pos ← u64_shr bitmap level;
  p ← from_level_and_pos level pos;
  Ok (to_inorder_index p).

Definition from_postorder_index (index : Z) : result Z :=
  ensure (index <? u64_max) "node index is invalid (equal to 2^64 - 1)";;
  postorder_to_inorder index.

Definition to_postorder_index (self : Z) : result Z :=
  inorder_to_postorder (to_inorder_index self).

(** *** Iterators.  [take n] runs [n] steps of an infinite iterator. *)

(** [AncestorSiblingIterator::next]: the item and the new position. *)
Definition ancestor_sibling_next (position : Z) : result (Z * Z) :=
  current_sibling_position ← sibling position;
  position ← parent position;
  Ok (current_sibling_position, position).

Fixpoint iter_ancestor_sibling_take (n : nat) (position : Z) : result (list Z) :=
  match n with
  | O => Ok []
  | S n =>
      '(item, position) ← ancestor_sibling_next position;
      items ← iter_ancestor_sibling_take n position;
      Ok (item :: items)
  end.

(** [AncestorIterator::next]. *)
Definition ancestor_next (position : Z) : result (Z * Z) :=
  let current_position := position in
  position ← parent position;
  Ok (current_position, position).

Fixpoint iter_ancestor_take (n : nat) (position : Z) : result (list Z) :=
  match n with
  | O => Ok []
  | S n =>
      '(item, position) ← ancestor_next position;
      items ← iter_ancestor_take n position;
      Ok (item :: items)
  end.

End Position.

Module FrozenSubTreeIterator.

Record t := mk { bitmap : Z; seen_leaves : Z }.

Definition new (num_leaves : Z) : t := mk num_leaves 0.

Definition next (self : t) : result (option Z * t) :=
  room ← u64_sub u64_max (bitmap self);
  assert (seen_leaves self <? room);;
  if bitmap self =? 0 then Ok (None, self)
  else
    let root_offset := Z.shiftr (smear_ones_for_u64 (bitmap self)) 1 in
    assert (root_offset <? bitmap self);;
    num_leaves ← u64_add root_offset 1;
    leftmost_leaf ← Position.from_leaf_index (seen_leaves self);
    root ← u64_add (Position.to_inorder_index leftmost_leaf) root_offset;
    seen ← u64_add (seen_leaves self) num_leaves;
    Ok (Some (Position.from_inorder_index root),
        mk (Z.land (bitmap self) (u64_not num_leaves)) seen).

(** Runs the iterator to its end; [None] if [fuel] items were not enough. *)
Fixpoint collect_items (fuel : nat) (self : t) : result (option (list Z)) :=
  match fuel with
  | O => Ok None
  | S fuel =>
      '(item, self) ← next self;
      match item with
      | None => Ok (Some [])
      | Some root =>
          items ← collect_items fuel self;
          Ok (option_map (cons root) items)
      end
  end.

End FrozenSubTreeIterator.

Module FrozenSubtreeSiblingIterator.

Record t := mk { current_num_leaves : Z; remaining_new_leaves : Z }.

Definition new (current_num_leaves new_num_leaves : Z) : result t :=
  assert (new_num_leaves <=? MAX_ACCUMULATOR_LEAVES);;
  assert (current_num_leaves <=? new_num_leaves);;
  remaining ← u64_sub new_num_leaves current_num_leaves;
  Ok (mk current_num_leaves remaining).

Definition next_new_leaf_batch (self : t) : result Z :=
  let zeros := leading_zeros (remaining_new_leaves self) in
  n ← u64_sub MAX_ACCUMULATOR_PROOF_DEPTH zeros;
  u64_shl 1 n.

Definition next (self : t) : result (option Z * t) :=
  if remaining_new_leaves self =? 0 then Ok (None, self)
  else
    next_subtree_leaves ←
      (if 0 <? current_num_leaves self then
         rightmost_frozen_subtree_leaves ←
           u64_shl 1 (trailing_zeros (current_num_leaves self));
         if rightmost_frozen_subtree_leaves <=? remaining_new_leaves self
         then Ok rightmost_frozen_subtree_leaves
         else next_new_leaf_batch self
       else next_new_leaf_batch self);
    let first_leaf_index := current_num_leaves self in
    e ← u64_add first_leaf_index next_subtree_leaves;
    last_leaf_index ← u64_sub e 1;
    current ← u64_add (current_num_leaves self) next_subtree_leaves;
    remaining ← u64_sub (remaining_new_leaves self) next_subtree_leaves;
    root ← u64_add first_leaf_index last_leaf_index;
    Ok (Some (Position.from_inorder_index root), mk current remaining).

(** Runs the iterator to its end; [None] if [fuel] items were not enough. *)
Fixpoint collect_items (fuel : nat) (self : t) : result (option (list Z)) :=
  match fuel with
  | O => Ok None
  | S fuel =>
      '(item, self) ← next self;
      match item with
      | None => Ok (Some [])
      | Some root =>
          items ← collect_items fuel self;
          Ok (option_map (cons root) items)
      end
  end.

End FrozenSubtreeSiblingIterator.

(** ** Coordinates *)

(** The in-order number of the [p]-th node, from the left, of level [l]. *)
Definition node (l p : Z) : Z := p * 2 ^ (l + 1) + 2 ^ l - 1.

(** The node is below the bound the source calls its invariant. *)
Definition pos_ok (l p : Z) : Prop := 0 <= l /\ 0 <= p /\ node l p < u64_max - 1.

Lemma node_succ l p : 0 <= l -> node l p + 1 = (2 * p + 1) * 2 ^ l.
Proof. intros. unfold node. rewrite pow2_succ by done. ring. Qed.

Lemma testbit_node l p i : 0 <= l -> 0 <= i ->
  Z.testbit (node l p) i = (i <? l) || ((l <? i) && Z.testbit p (i - l - 1)).
Proof.
  intros Hl Hi.
  assert (node l p = Z.lor (Z.shiftl p (l + 1)) (Z.ones l)) as ->.
  { unfold node. rewrite <-Z.add_nocarry_lor.
    - rewrite Z.shiftl_mul_pow2, Z.ones_equiv by lia. lia.
    - apply Z.bits_inj'. intros j Hj. autorewrite with bits. zcases.
      by rewrite Z.testbit_neg_r by lia. }
  autorewrite with bits. zcases.
  - f_equal. lia.
  - by rewrite Z.testbit_neg_r by lia.
Qed.

Lemma node_bounds l p : pos_ok l p -> l <= 63 /\ in_u64 (node l p) /\ p < 2 ^ (63 - l).
Proof.
  intros (Hl & Hp & Hn). unfold u64_max in Hn.
  assert (0 < 2 ^ l) by auto. assert (0 <= p * 2 ^ (l + 1)) by
    (apply Z.mul_nonneg_nonneg; [done|apply Z.pow_nonneg; lia]).
  assert (l <= 63).
  { destruct (Z.le_gt_cases l 63); [done|].
    pose proof (pow2_le_mono 64 l ltac:(lia)). unfold node in Hn. lia. }
  split_and!; [done|unfold in_u64, node in *; lia|].
  destruct (Z.lt_ge_cases p (2 ^ (63 - l))) as [|Hge]; [done|].
  assert (2 ^ (63 - l) * 2 ^ (l + 1) = 2 ^ 64) by (rewrite <-Z.pow_add_r by lia; f_equal; lia).
  pose proof (Z.mul_le_mono_nonneg_r _ _ (2 ^ (l + 1)) ltac:(apply Z.pow_nonneg; lia) Hge).
  unfold node in Hn. lia.
Qed.

Lemma isolate_node l p : pos_ok l p -> isolate_rightmost_zero_bit (node l p) = 2 ^ l.
Proof.
  intros Hok. destruct (node_bounds l p Hok) as (Hl & Hn & Hp). destruct Hok as (? & ? & ?).
  unfold isolate_rightmost_zero_bit, u64_wrapping_add.
  rewrite node_succ by done. rewrite Z.mod_small.
  2: { rewrite <-node_succ by done. unfold in_u64, u64_max in *. lia. }
  assert (Hs : forall i, 0 <= i -> Z.testbit ((2 * p + 1) * 2 ^ l) i =
    (i =? l) || ((l <? i) && Z.testbit p (i - l - 1))).
  { intros i Hi. rewrite <-Z.shiftl_mul_pow2, Z.shiftl_spec by done. zcases.
    - rewrite <-(Z.testbit_odd_succ p (i - l - 1)) by lia. f_equal. lia.
    - subst. rewrite Z.sub_diag. apply Z.testbit_odd_0.
    - by rewrite Z.testbit_neg_r by lia. }
  bitwise i Hi. rewrite testbit_node, Hs by lia. zcases.
  by destruct (Z.testbit p _).
Qed.

Lemma assert_invariant_node l p : pos_ok l p -> Position.assert_invariant (node l p) = Ok tt.
Proof. intros (? & ? & ?). by apply assert_true, Z.ltb_lt. Qed.

Lemma level_node l p : pos_ok l p -> Position.level (node l p) = l.
Proof.
  intros Hok. destruct (node_bounds l p Hok) as (Hl & Hn & Hp). destruct Hok as (? & ? & ?).
  unfold Position.level. rewrite u64_not_eq by done.
  apply (trailing_zeros_spec _ _ (2 ^ (63 - l) - 1 - p)); [done|lia|].
  unfold u64_max, node. rewrite pow2_succ by done.
  transitivity (2 * 2 ^ (63 - l) * 2 ^ l - 2 * p * 2 ^ l - 2 ^ l); [|ring].
  rewrite <-Z.mul_assoc, <-Z.pow_add_r by lia. replace (63 - l + l) with 63 by lia.
  change (2 ^ 64) with (2 * 2 ^ 63). ring.
Qed.

(** Rewriting with the coordinates of a node. *)
Create Rewrite HintDb node.
#[export] Hint Rewrite isolate_node assert_invariant_node level_node using eauto : node.

Lemma pos_ok_intro l p : 0 <= l -> 0 <= p < 2 ^ (63 - l) -> 0 < l \/ p + 1 < 2 ^ 63 -> pos_ok l p.
Proof.
  intros Hl Hp Hlast. split_and!; [done|lia|].
  assert (l <= 63).
  { destruct (Z.le_gt_cases l 63); [done|]. rewrite Z.pow_neg_r in Hp by lia. lia. }
  assert (2 ^ (63 - l) * 2 ^ (l + 1) = 2 ^ 64) by (rewrite <-Z.pow_add_r by lia; f_equal; lia).
  pose proof (Z.mul_le_mono_nonneg_r (p + 1) (2 ^ (63 - l)) (2 ^ (l + 1))
    ltac:(apply Z.pow_nonneg; lia) ltac:(lia)).
  unfold node, u64_max. rewrite pow2_succ in * by done.
  destruct Hlast as [Hlast|Hlast].
  - pose proof (pow2_le_mono 1 l ltac:(lia)). lia.
  - destruct (Z.eq_dec l 0) as [->|]; [lia|]. pose proof (pow2_le_mono 1 l ltac:(lia)). lia.
Qed.

Lemma div2_lt p n : 0 <= n -> 0 <= p < 2 ^ (n + 1) -> 0 <= p / 2 < 2 ^ n.
Proof.
  intros Hn Hp. rewrite pow2_succ in Hp by done. split; [apply Z.div_pos; lia|].
  apply Z.div_lt_upper_bound; lia.
Qed.

Lemma pos_ok_parent l p : l < 63 -> pos_ok l p -> pos_ok (l + 1) (p / 2).
Proof.
  intros Hl Hok. destruct (node_bounds l p Hok) as (? & ? & ?). destruct Hok as (? & ? & ?).
  apply pos_ok_intro; [lia| |lia]. replace (63 - (l + 1)) with (62 - l) by lia.
  apply div2_lt; [lia|]. replace (62 - l + 1) with (63 - l) by lia. lia.
Qed.

Lemma testbit_div2 p i : 0 <= i -> Z.testbit (p / 2) i = Z.testbit p (i + 1).
Proof. intros. change 2 with (2 ^ 1). by rewrite Z.div_pow2_bits. Qed.

Lemma in_u64_node l p : pos_ok l p -> in_u64 (node l p).
Proof. intros Hok. apply (node_bounds l p Hok). Qed.
#[export] Hint Resolve in_u64_node pos_ok_parent : u64.

Lemma parent_node l p : l < 63 -> pos_ok l p ->
  Position.parent (node l p) = Ok (node (l + 1) (p / 2)).
Proof.
  intros Hl Hok. pose proof (pos_ok_parent l p Hl Hok) as Hok'.
  destruct (node_bounds l p Hok) as (? & ? & ?). pose proof Hok as (? & ? & ?).
  unfold Position.parent. autorewrite with node. mstep.
  rewrite u64_shl_pow2 by lia. mstep. f_equal.
  bitwise i Hi. rewrite !testbit_node by lia. zcases.
  rewrite testbit_div2 by lia. f_equal. lia.
Qed.

Lemma is_left_child_node l p : pos_ok l p -> Position.is_left_child (node l p) = Ok (Z.even p).
Proof.
  intros Hok. destruct (node_bounds l p Hok) as (? & ? & ?). pose proof Hok as (? & ? & ?).
  unfold Position.is_left_child. autorewrite with node. mstep.
  destruct (Z.eq_dec l 63) as [->|].
  { assert (p = 0) as -> by (simpl in *; lia). done. }
  rewrite u64_shl_pow2 by lia. mstep. f_equal.
  assert (Z.land (node l p) (2 ^ (l + 1)) = if Z.odd p then 2 ^ (l + 1) else 0) as ->.
  { bitwise i Hi. rewrite testbit_node by lia. rewrite <-Z.bit0_odd.
    destruct (Z.testbit p 0) eqn:E; autorewrite with bits; zcases; subst;
      by replace (l + 1 - l - 1) with 0 by lia; rewrite E. }
  rewrite <-Z.negb_odd. destruct (Z.odd p); [|done].
  apply Z.eqb_neq. pose proof (pow2_pos (l + 1) ltac:(lia)). lia.
Qed.

Lemma is_right_child_node l p : pos_ok l p -> Position.is_right_child (node l p) = Ok (Z.odd p).
Proof.
  intros. unfold Position.is_right_child. rewrite is_left_child_node by done. mstep.
  by rewrite Z.negb_even.
Qed.

Lemma lxor_1_double q : Z.lxor (2 * q) 1 = 2 * q + 1.
Proof.
  rewrite <-Z.add_nocarry_lxor; [done|].
  apply Z.bits_inj'. intros i ?. rewrite Z.land_spec, testbit_1, Z.testbit_0_l by done.
  zcases; subst. by rewrite Z.testbit_even_0.
Qed.

Lemma lxor_1 p : Z.lxor p 1 = if Z.even p then p + 1 else p - 1.
Proof.
  destruct (Z.even p) eqn:E.
  - apply Z.even_spec in E as [q ->]. apply lxor_1_double.
  - rewrite <-Z.negb_odd in E. apply negb_false_iff, Z.odd_spec in E as [q ->].
    rewrite <-lxor_1_double, Z.lxor_assoc, Z.lxor_nilpotent, Z.lxor_0_r, lxor_1_double. lia.
Qed.

Lemma sibling_node l p : l < 63 -> pos_ok l p ->
  Position.sibling (node l p) = Ok (node l (if Z.even p then p + 1 else p - 1)).
Proof.
  intros Hl Hok. destruct (node_bounds l p Hok) as (? & ? & ?). pose proof Hok as (? & ? & ?).
  unfold Position.sibling. autorewrite with node. mstep. rewrite u64_shl_pow2 by lia. mstep. f_equal.
  rewrite <-lxor_1.
  apply Z.bits_inj'. intros i Hi. autorewrite with bits. rewrite !testbit_node by lia.
  rewrite Z.lxor_spec. zcases; rewrite ?testbit_1 by lia; zcases.
Qed.

Lemma is_leaf_node l p : 0 <= l -> Position.is_leaf (node l p) = (l =? 0).
Proof.
  intros Hl. unfold Position.is_leaf.
  assert (Z.land (node l p) 1 = if l =? 0 then 0 else 1) as ->.
  { change 1 with (Z.ones 1) at 1. rewrite Z.land_ones by lia. change (2 ^ 1) with 2.
    rewrite <-Z.bit0_mod, testbit_node by lia.
    zcases. }
  by destruct (l =? 0).
Qed.

Lemma pos_ok_children l p : 0 < l -> pos_ok l p ->
  pos_ok (l - 1) (2 * p) /\ node (l - 1) (2 * p + 1) < u64_max.
Proof.
  intros Hl Hok. destruct (node_bounds l p Hok) as (? & ? & ?). pose proof Hok as (? & ? & ?).
  assert (2 ^ (63 - (l - 1)) = 2 * 2 ^ (63 - l)) as E.
  { rewrite <-pow2_succ by lia. f_equal. lia. }
  split.
  - apply pos_ok_intro; lia || (destruct (Z.eq_dec l 1) as [->|]; simpl in *; lia).
  - unfold node, u64_max in *. replace (l - 1 + 1) with l by lia.
    assert (2 ^ l = 2 * 2 ^ (l - 1)) by (rewrite <-pow2_succ by lia; f_equal; lia).
    assert (2 ^ (63 - l) * 2 ^ (l + 1) = 2 ^ 64) by (rewrite <-Z.pow_add_r by lia; f_equal; lia).
    pose proof (Z.mul_le_mono_nonneg_r (p + 1) (2 ^ (63 - l)) (2 ^ (l + 1))
      ltac:(apply Z.pow_nonneg; lia) ltac:(lia)).
    rewrite pow2_succ in * by lia. pose proof (pow2_pos (l - 1) ltac:(lia)). lia.
Qed.

Lemma child_node l p d : 0 < l -> pos_ok l p ->
  Position.child (node l p) d = Ok (node (l - 1) (match d with Left => 2 * p | Right => 2 * p + 1 end)).
Proof.
  intros Hl Hok. destruct (node_bounds l p Hok) as (? & ? & ?). pose proof Hok as (? & ? & ?).
  destruct (pos_ok_children l p Hl Hok) as [Hc1 Hc2].
  assert (in_u64 (node (l - 1) (2 * p + 1))).
  { pose proof (node_succ (l - 1) (2 * p + 1) ltac:(lia)).
    pose proof (Z.mul_pos_pos (2 * (2 * p + 1) + 1) (2 ^ (l - 1)) ltac:(lia) ltac:(auto with lia)).
    unfold in_u64, u64_max in *. lia. }
  unfold Position.child. rewrite is_leaf_node, (proj2 (Z.eqb_neq l 0)), assert_true by done || lia. mstep.
  autorewrite with node. mstep. rewrite u64_shr_Ok by lia. mstep. f_equal.
  replace (2 ^ l / 2 ^ 1) with (2 ^ (l - 1)).
  2: { rewrite <-Z.pow_sub_r by lia. done. }
  assert (Hb : forall c i, 0 <= i -> Z.testbit (2 * p + Z.b2z c) i =
    if i =? 0 then c else Z.testbit p (i - 1)).
  { intros c i Hi. zcases.
    - subst. destruct c; cbn [Z.b2z]; rewrite ?Z.add_0_r;
        [apply Z.testbit_odd_0|apply Z.testbit_even_0].
    - replace i with (Z.succ (i - 1)) at 1 by lia. destruct c; cbn [Z.b2z]; rewrite ?Z.add_0_r;
        [apply Z.testbit_odd_succ|apply Z.testbit_even_succ]; lia. }
  pose proof (Hb false) as Hb0. pose proof (Hb true) as Hb1. cbn [Z.b2z] in Hb0, Hb1.
  setoid_rewrite Z.add_0_r in Hb0.
  destruct d; bitwise i Hi; rewrite !testbit_node by lia;
    destruct (Z.lt_ge_cases i (l - 1)) as [|]; zcases;
    rewrite ?Hb0, ?Hb1 by lia; zcases; f_equal; lia.
Qed.

Lemma left_child_node l p : 0 < l -> pos_ok l p ->
  Position.left_child (node l p) = Ok (node (l - 1) (2 * p)).
Proof.
  intros Hl Hok. unfold Position.left_child.
  rewrite is_leaf_node, (proj2 (Z.eqb_neq l 0)), assert_true by done || (destruct Hok; lia). mstep.
  by rewrite child_node.
Qed.

Lemma right_child_node l p : 0 < l -> pos_ok l p ->
  Position.right_child (node l p) = Ok (node (l - 1) (2 * p + 1)).
Proof.
  intros Hl Hok. unfold Position.right_child.
  rewrite is_leaf_node, (proj2 (Z.eqb_neq l 0)), assert_true by done || (destruct Hok; lia). mstep.
  by rewrite child_node.
Qed.

Lemma from_level_and_pos_node l p : 0 <= l <= 63 -> 0 <= p < 2 ^ (63 - l) ->
  Position.from_level_and_pos l p = Ok (node l p).
Proof.
  intros Hl Hp. unfold Position.from_level_and_pos.
  rewrite (assert_true (l <? 64)) by (apply Z.ltb_lt; lia). mstep.
  rewrite <-(Z.pow_0_r 2) at 1. rewrite u64_shl_pow2, Z.add_0_l by lia. mstep.
  pose proof (pow2_pos l ltac:(lia)).
  rewrite assert_true by (apply Z.ltb_lt; lia). mstep. rewrite u64_sub_Ok by lia. mstep.
  assert ((if l =? 63 then Ok 0 else u64_shl p (l + 1)) = @Ok string _ (Z.shiftl p (l + 1))) as ->.
  { zcases.
    - subst. assert (p = 0) as -> by (simpl in Hp; lia). done.
    - rewrite Z.shiftl_mul_pow2 by lia. apply u64_shl_Ok; [lia|lia|].
      assert (2 ^ (63 - l) * 2 ^ (l + 1) = 2 ^ 64) as <- by (rewrite <-Z.pow_add_r by lia; f_equal; lia).
      apply Z.mul_lt_mono_pos_r; auto with lia. }
  mstep. f_equal.
  replace (2 ^ l - 1) with (Z.ones l) by (rewrite Z.ones_equiv; lia).
  apply Z.bits_inj'. intros i Hi. autorewrite with bits. rewrite testbit_node by lia. zcases.
  - f_equal. lia.
  - by rewrite Z.testbit_neg_r by lia.
Qed.

Lemma node_0 i : node 0 i = 2 * i.
Proof. unfold node. rewrite Z.add_0_l, Z.pow_1_r, Z.pow_0_r. lia. Qed.

Lemma from_leaf_index_node i : 0 <= i < 2 ^ 63 -> Position.from_leaf_index i = Ok (node 0 i).
Proof. intros. apply from_level_and_pos_node; simpl; lia. Qed.

(** ** Leaves below a node *)

Lemma right_most_child_node l p : pos_ok l p ->
  Position.right_most_child (node l p) = Ok (node 0 ((p + 1) * 2 ^ l - 1)).
Proof.
  intros Hok. destruct (node_bounds l p Hok) as (? & ? & ?). pose proof Hok as (? & ? & ?).
  unfold Position.right_most_child. autorewrite with node.
  rewrite <-(Z.pow_0_r 2) at 1. rewrite u64_shl_pow2, Z.add_0_l by lia. mstep.
  assert (2 ^ (63 - l) * 2 ^ (l + 1) = 2 ^ 64) by (rewrite <-Z.pow_add_r by lia; f_equal; lia).
  pose proof (Z.mul_le_mono_nonneg_r (p + 1) (2 ^ (63 - l)) (2 ^ (l + 1))
    ltac:(apply Z.pow_nonneg; lia) ltac:(lia)).
  pose proof (pow2_pos l ltac:(lia)). unfold in_u64 in *.
  rewrite u64_add_Ok by (unfold node; rewrite pow2_succ in * by lia; lia). mstep.
  rewrite u64_sub_Ok by lia. f_equal. rewrite node_0. unfold node. rewrite pow2_succ by lia. lia.
Qed.

Lemma left_most_child_node l p : pos_ok l p ->
  Position.left_most_child (node l p) = Ok (node 0 (p * 2 ^ l)).
Proof.
  intros Hok. destruct (node_bounds l p Hok) as (? & ? & ?). pose proof Hok as (? & ? & ?).
  unfold Position.left_most_child, turn_off_right_most_n_bits. autorewrite with node.
  rewrite u64_shr_Ok by lia. mstep. pose proof (pow2_pos l ltac:(lia)).
  assert (node l p / 2 ^ l = 2 * p) as ->.
  { unfold node. rewrite pow2_succ by lia.
    replace (p * (2 * 2 ^ l) + 2 ^ l - 1) with (2 ^ l - 1 + 2 * p * 2 ^ l) by ring.
    rewrite Z.div_add by lia. rewrite Z.div_small by lia. lia. }
  rewrite u64_shl_Ok; [f_equal; rewrite node_0; ring|lia|lia|].
  unfold in_u64, node in *. rewrite pow2_succ in * by lia. lia.
Qed.

(** A node is freezable when its last leaf exists, a placeholder when its
    first leaf does not. *)
Lemma is_freezable_node l p i : pos_ok l p -> 0 <= i < 2 ^ 63 ->
  Position.is_freezable (node l p) i = Ok ((p + 1) * 2 ^ l <=? i + 1).
Proof.
  intros Hok Hi. unfold Position.is_freezable.
  rewrite from_leaf_index_node by done. mstep. rewrite right_most_child_node by done. mstep.
  f_equal. rewrite !node_0. zcases.
Qed.

Lemma is_placeholder_node l p i : pos_ok l p -> 0 <= i < 2 ^ 63 ->
  Position.is_placeholder (node l p) i = Ok (i <? p * 2 ^ l).
Proof.
  intros Hok Hi. unfold Position.is_placeholder.
  rewrite from_leaf_index_node by done. mstep. rewrite left_most_child_node by done. mstep.
  rewrite !node_0. pose proof Hok as (? & ? & ?). pose proof (pow2_pos l ltac:(lia)).
  unfold node. rewrite pow2_succ by lia. zcases; f_equal; zcases.
Qed.

(** ** The root of an accumulator *)

Definition smeared (m v x : Z) : Prop :=
  forall i, 0 <= i -> Z.testbit x i = true <-> exists j, i <= j < i + m /\ Z.testbit v j = true.

Lemma smeared_step m v x : 0 < m -> smeared m v x -> smeared (m + m) v (Z.lor x (Z.shiftr x m)).
Proof.
  intros Hm Hx i Hi. rewrite Z.lor_spec, Z.shiftr_spec, orb_true_iff by lia.
  unfold smeared in Hx. rewrite !Hx by lia. split.
  - intros [(j & ? & ?)|(j & ? & ?)]; exists j; split; (lia || done).
  - intros (j & ? & ?). destruct (Z.lt_ge_cases j (i + m)); [left|right]; exists j; split; (lia || done).
Qed.

Lemma smear_ones v : 0 < v < 2 ^ 64 -> smear_ones_for_u64 v = Z.ones (Z.log2 v + 1).
Proof.
  intros Hv. pose proof (Z.log2_nonneg v).
  assert (Z.log2 v < 64) by (apply Z.log2_lt_pow2; lia).
  assert (smeared 64 v (smear_ones_for_u64 v)) as Hs.
  { change 64 with (1 + 1 + (1 + 1) + (1 + 1 + (1 + 1)) + (1 + 1 + (1 + 1) + (1 + 1 + (1 + 1)))
      + (1 + 1 + (1 + 1) + (1 + 1 + (1 + 1)) + (1 + 1 + (1 + 1) + (1 + 1 + (1 + 1))))
      + (1 + 1 + (1 + 1) + (1 + 1 + (1 + 1)) + (1 + 1 + (1 + 1) + (1 + 1 + (1 + 1)))
      + (1 + 1 + (1 + 1) + (1 + 1 + (1 + 1)) + (1 + 1 + (1 + 1) + (1 + 1 + (1 + 1)))))).
    unfold smear_ones_for_u64. do 6 (apply smeared_step; [lia|]).
    intros i Hi. split; [intros; exists i; split; [lia|done]|].
    intros (j & ? & ?). by replace i with j by lia. }
  apply Z.bits_inj'. intros i Hi. rewrite Z.testbit_ones_nonneg by lia.
  destruct (Z.ltb_spec i (Z.log2 v + 1)).
  - apply Hs; [done|]. exists (Z.log2 v). split; [lia|]. apply Z.bit_log2. lia.
  - apply not_true_iff_false. rewrite (Hs i Hi). intros (j & ? & Hj).
    rewrite Z.bits_above_log2 in Hj by lia. done.
Qed.

Lemma log2_up_pred n : 1 < n -> Z.log2_up n = Z.log2 (n - 1) + 1.
Proof. intros. rewrite Z.log2_up_eqn by lia. rewrite <-Z.sub_1_r. lia. Qed.

Lemma root_from_leaf_count_node n : 0 < n <= 2 ^ 63 ->
  Position.root_from_leaf_count n = Ok (node (Z.log2_up n) 0).
Proof.
  intros Hn. unfold Position.root_from_leaf_count.
  rewrite assert_true by (apply Z.ltb_lt; lia). mstep. rewrite u64_sub_Ok by lia. mstep.
  unfold Position.root_from_leaf_index. rewrite from_leaf_index_node by lia. mstep. f_equal.
  rewrite node_0. destruct (Z.eq_dec n 1) as [->|]; [done|].
  rewrite smear_ones by lia. rewrite Z.log2_double, log2_up_pred by lia.
  rewrite Z.ones_equiv, Z.shiftr_div_pow2, Z.pow_1_r by lia.
  pose proof (Z.log2_nonneg (n - 1)).
  unfold node. rewrite !Z.add_1_r, !Z.pow_succ_r by lia.
  pose proof (pow2_pos (Z.log2 (n - 1)) ltac:(lia)).
  symmetry. apply (Z.div_unique _ _ _ 1); lia.
Qed.

Lemma root_level_from_leaf_count_eq n : 0 < n < 2 ^ 64 ->
  Position.root_level_from_leaf_count n = Ok (Z.log2_up n).
Proof.
  intros Hn. unfold Position.root_level_from_leaf_count.
  rewrite assert_true by (apply Z.ltb_lt; lia). mstep. rewrite u64_sub_Ok by lia. mstep.
  unfold leading_zeros, MAX_ACCUMULATOR_PROOF_DEPTH. destruct (Z.eqb_spec (n - 1) 0).
  - by replace n with 1 by lia.
  - pose proof (Z.log2_nonneg (n - 1)).
    rewrite u64_sub_Ok by lia. rewrite log2_up_pred by lia. f_equal. lia.
Qed.

Lemma log2_up_bounds n k : 0 < n <= 2 ^ k -> 0 <= k -> 0 <= Z.log2_up n <= k.
Proof.
  intros. split; [apply Z.log2_up_nonneg|]. rewrite <-(Z.log2_up_pow2 k) by done.
  apply Z.log2_up_le_mono. lia.
Qed.

Lemma le_pow2_log2_up n : 0 < n -> n <= 2 ^ Z.log2_up n.
Proof.
  intros. destruct (Z.eq_dec n 1) as [->|]; [done|].
  apply Z.log2_up_spec. lia.
Qed.

(** ** Frozen subtrees *)

(** The full subtrees of an accumulator of [n] leaves, from left to right: one
    per set bit of [n], at the level of that bit. *)
Definition frozen_coords (n : Z) : list (Z * Z) :=
  (fun l => (l, n / 2 ^ l - 1)) <$> reverse (set_bits 63 n).

(** Every frozen subtree lies within the leaves. *)
Lemma frozen_coords_full n l p : 0 <= n -> (l, p) ∈ frozen_coords n ->
  0 <= l < 63 /\ 0 <= p /\ (p + 1) * 2 ^ l <= n.
Proof.
  intros Hn Hin. unfold frozen_coords in Hin.
  apply list_elem_of_fmap in Hin as (l' & [= -> ->] & Hl). rewrite elem_of_reverse in Hl.
  unfold set_bits in Hl. apply list_elem_of_filter in Hl as [Hb Hl]. apply elem_of_seqZ in Hl.
  pose proof (Z.mul_div_le n (2 ^ l') ltac:(auto with lia)).
  pose proof (Z.div_pos n (2 ^ l') ltac:(lia) ltac:(auto with lia)).
  destruct (Z.eq_dec (n / 2 ^ l') 0) as [E|]; [|lia].
  rewrite Z.testbit_odd, Z.shiftr_div_pow2, E in Hb by lia. done.
Qed.

Module FrozenSubTreeIteratorFacts.
Import FrozenSubTreeIterator.

(** The iterator after the subtrees above [bitmap self] were handed out. *)
Lemma next_top n m s : 0 < m -> s + m = n -> n < 2 ^ 63 -> 0 <= s ->
  (2 ^ (Z.log2 m + 1) | s) ->
  next (mk m s) =
    Ok (Some (node (Z.log2 m) (n / 2 ^ Z.log2 m - 1)), mk (m - 2 ^ Z.log2 m) (s + 2 ^ Z.log2 m)).
Proof.
  intros Hm Hsm Hn Hs [q ->]. pose proof (Z.log2_spec m Hm) as Hlog. pose proof (Z.log2_nonneg m).
  rewrite Z.pow_succ_r in Hlog by done. rewrite pow2_succ in * by done.
  assert (Z.log2 m < 64) by (apply Z.log2_lt_pow2; lia). assert (in_u64 m) by (unfold in_u64; lia).
  set (k := Z.log2 m) in *. pose proof (pow2_pos k ltac:(done)).
  unfold next. cbn [bitmap seen_leaves]. rewrite u64_sub_Ok by (unfold u64_max; lia). mstep.
  rewrite (assert_true (_ <? u64_max - m)) by (apply Z.ltb_lt; unfold u64_max; lia). mstep.
  rewrite (proj2 (Z.eqb_neq m 0)) by lia.
  rewrite smear_ones by lia. fold k. rewrite Z.ones_equiv, pow2_succ by lia.
  assert (Z.pred (2 * 2 ^ k) ≫ 1 = 2 ^ k - 1) as ->.
  { rewrite Z.shiftr_div_pow2, Z.pow_1_r by lia. symmetry. apply (Z.div_unique _ _ _ 1); lia. }
  rewrite assert_true by (apply Z.ltb_lt; lia). mstep.
  rewrite u64_add_Ok by lia. mstep. rewrite from_leaf_index_node by lia. mstep.
  unfold Position.to_inorder_index, Position.from_inorder_index.
  rewrite node_0, u64_add_Ok by lia. mstep. rewrite u64_add_Ok by lia. mstep.
  assert (n / 2 ^ k - 1 = 2 * q) as ->.
  { replace n with (m - 2 ^ k + (2 * q + 1) * 2 ^ k) by lia.
    rewrite Z.div_add, Z.div_small by lia. lia. }
  f_equal. f_equal.
  - f_equal. unfold node. rewrite pow2_succ by lia. lia.
  - replace (2 ^ k - 1 + 1) with (2 ^ k) by lia. f_equal.
    replace (2 ^ k) with (Z.land m (2 ^ k)) at 2.
    + rewrite Z.sub_land_same_l. bitwise i Hi. zcases.
    + bitwise i Hi. zcases. subst. apply Z.bit_log2. lia.
Qed.

Lemma next_done s : s < u64_max -> next (mk 0 s) = Ok (None, mk 0 s).
Proof.
  intros. unfold next. cbn [bitmap seen_leaves]. rewrite u64_sub_Ok by done. mstep.
  by rewrite (assert_true (s <? _)) by (apply Z.ltb_lt; lia).
Qed.

Lemma collect_bits (fuel : nat) n m s :
  0 <= m < 2 ^ (Z.of_nat fuel - 1) -> s + m = n -> n < 2 ^ 63 -> 0 <= s ->
  (0 < m -> forall k, 0 <= k <= Z.log2 m + 1 -> (2 ^ k | s)) ->
  collect_items fuel (mk m s) =
    Ok (Some ((fun l => node l (n / 2 ^ l - 1)) <$> reverse (set_bits 63 m))).
Proof.
  revert m s. induction fuel as [|fuel IH]; intros m s Hm Hsm Hn Hs Hdiv.
  { rewrite Z.pow_neg_r in Hm by lia. lia. }
  cbn [collect_items]. destruct (Z.eq_dec m 0) as [->|].
  { rewrite next_done by (unfold u64_max; lia). mstep. by rewrite set_bits_0. }
  pose proof (Z.log2_spec m ltac:(lia)) as Hlog. pose proof (Z.log2_nonneg m).
  rewrite (next_top n) by (lia || (apply Hdiv; lia)). mstep.
  rewrite Z.pow_succ_r in Hlog by done.
  rewrite (IH (m - 2 ^ Z.log2 m)); [| |lia|lia|lia|].
  - mstep. cbn [option_map]. rewrite (set_bits_top 63 m) by lia. by rewrite reverse_snoc.
  - assert (Z.log2 m < Z.of_nat fuel).
    { apply Z.log2_lt_pow2; [lia|]. replace (Z.of_nat (S fuel) - 1) with (Z.of_nat fuel) in Hm; lia. }
    pose proof (pow2_le_mono (Z.log2 m) (Z.of_nat fuel - 1) ltac:(lia)). lia.
  - intros Hr k Hk. assert (Z.log2 (m - 2 ^ Z.log2 m) < Z.log2 m) by (apply Z.log2_lt_pow2; lia).
    apply Z.divide_add_r.
    + apply Hdiv; lia.
    + exists (2 ^ (Z.log2 m - k)). rewrite <-Z.pow_add_r by lia. f_equal. lia.
Qed.

Lemma collect_new n : 0 <= n < 2 ^ 63 ->
  collect_items 65 (new n) = Ok (Some (uncurry node <$> frozen_coords n)).
Proof.
  intros Hn. unfold new. rewrite (collect_bits _ n); [|lia|lia|lia|lia|].
  - unfold frozen_coords. by rewrite <-list_fmap_compose.
  - intros. apply Z.divide_0_r.
Qed.
End FrozenSubTreeIteratorFacts.

(** ** Post-order numbers *)

(** The nodes visited before node [l, p] in a post-order traversal. *)
Definition postorder (l p : Z) : Z := p * 2 ^ (l + 1) - count_ones p + 2 ^ (l + 1) - 2.

Lemma inorder_to_postorder_node l p : l < 63 -> pos_ok l p ->
  Position.inorder_to_postorder (node l p) = Ok (postorder l p).
Proof.
  intros Hl Hok. destruct (node_bounds l p Hok) as (? & ? & ?). pose proof Hok as (? & ? & ?).
  pose proof (count_ones_bounds p ltac:(lia)). pose proof (pow2_pos l ltac:(lia)).
  pose proof (pow2_succ l ltac:(lia)) as E.
  assert (p <= p * 2 ^ l) by nia.
  unfold Position.inorder_to_postorder, Position.children_of_node, Position.nodes_to_left_of.
  autorewrite with node. rewrite u64_shl_pow2 by lia. mstep.
  rewrite (u64_sub_Ok (2 ^ (l + 1)) 2), (u64_sub_Ok (2 ^ l) 1) by lia. mstep.
  assert (Z.lxor (node l p) (2 ^ l - 1) = p * 2 ^ (l + 1)) as ->.
  { replace (2 ^ l - 1) with (Z.ones l) by (rewrite Z.ones_equiv; lia).
    rewrite <-Z.shiftl_mul_pow2 by lia.
    apply Z.bits_inj'. intros i Hi. autorewrite with bits. rewrite testbit_node by lia. zcases.
    - by rewrite Z.testbit_neg_r by lia.
    - f_equal. lia.
    - by rewrite Z.testbit_neg_r by lia. }
  rewrite count_ones_shift, u64_sub_Ok by lia. mstep.
  unfold in_u64, u64_max, node in *.
  assert (2 ^ (63 - l) * 2 ^ (l + 1) = 2 ^ 64) by (rewrite <-Z.pow_add_r by lia; f_equal; lia).
  pose proof (Z.mul_le_mono_nonneg_r (p + 1) (2 ^ (63 - l)) (2 ^ (l + 1))
    ltac:(apply Z.pow_nonneg; lia) ltac:(lia)).
  rewrite u64_add_Ok by lia. f_equal. unfold postorder. lia.
Qed.

Lemma half_ones n : 0 <= n -> Z.shiftr (2 ^ (n + 1) - 1) 1 = 2 ^ n - 1.
Proof.
  intros. rewrite Z.shiftr_div_pow2, Z.pow_1_r, pow2_succ by lia.
  symmetry. apply (Z.div_unique _ _ _ 1); lia.
Qed.

Lemma lor_pow2 n r : 0 <= n -> 0 <= r < 2 ^ n -> Z.lor (2 ^ n) r = 2 ^ n + r.
Proof.
  intros Hn Hr. symmetry. apply Z.add_nocarry_lor. apply Z.bits_inj'. intros j Hj.
  rewrite Z.land_spec, Z.testbit_0_l, testbit_pow2 by done. zcases. subst.
  by apply (testbit_above _ n).
Qed.

(** The iterations that look for the bits of the position within its level. *)
Lemma postorder_loop_high (L m : nat) r b :
  0 <= r < 2 ^ Z.of_nat m ->
  Position.postorder_loop (m + L) (postorder (Z.of_nat L) r) (2 ^ Z.of_nat (m + L) - 1) b =
  Position.postorder_loop L (2 ^ (Z.of_nat L + 1) - 2) (2 ^ Z.of_nat L - 1)
    (Z.lor b (Z.shiftl r (Z.of_nat L))).
Proof.
  revert r b. induction m as [|m IH]; intros r b Hr.
  { assert (r = 0) as -> by (simpl in Hr; lia). unfold postorder.
    rewrite Z.shiftl_0_l, Z.lor_0_r. simpl. done. }
  cbn [Nat.add Position.postorder_loop]. set (l := Z.of_nat L) in *.
  replace (Z.of_nat (S (m + L))) with (Z.of_nat (m + L) + 1) by lia.
  replace (Z.of_nat (S m)) with (Z.of_nat m + 1) in Hr by lia.
  rewrite half_ones by lia. rewrite pow2_succ in Hr by lia.
  assert (2 ^ Z.of_nat m * 2 ^ (l + 1) = 2 ^ (Z.of_nat (m + L) + 1)) as E
    by (rewrite <-Z.pow_add_r by lia; f_equal; lia).
  assert (0 <= 2 ^ (l + 1)) by (apply Z.pow_nonneg; lia).
  destruct (Z.lt_ge_cases r (2 ^ Z.of_nat m)) as [Hlt|Hge].
  - rewrite (proj2 (Z.leb_gt _ _)); [apply IH; lia|].
    pose proof (count_ones_bounds r ltac:(lia)).
    pose proof (Z.mul_le_mono_nonneg_r (r + 1) (2 ^ Z.of_nat m) (2 ^ (l + 1))
      ltac:(lia) ltac:(lia)). unfold postorder. lia.
  - assert (exists q, r = 2 ^ Z.of_nat m + q) as [q ->] by (exists (r - 2 ^ Z.of_nat m); lia).
    assert (postorder l (2 ^ Z.of_nat m + q) =
      2 ^ (Z.of_nat (m + L) + 1) - 1 + postorder l q) as ->.
    { unfold postorder. rewrite count_ones_top by lia. lia. }
    pose proof (count_ones_bounds q ltac:(lia)).
    assert (q <= q * 2 ^ (l + 1)) by (pose proof (pow2_pos (l + 1) ltac:(lia)); nia).
    rewrite (proj2 (Z.leb_le _ _)).
    2: { unfold postorder. pose proof (pow2_le_mono 1 (l + 1) ltac:(lia)). lia. }
    replace (2 ^ (Z.of_nat (m + L) + 1) - 1 + postorder l q - (2 ^ (Z.of_nat (m + L) + 1) - 1))
      with (postorder l q) by lia.
    rewrite IH by lia. f_equal. rewrite <-Z.lor_assoc. f_equal.
    rewrite <-(lor_pow2 (Z.of_nat m) q), Z.shiftl_lor, !Z.shiftl_mul_pow2 by lia.
    rewrite Z.mul_1_l, <-Z.pow_add_r by lia. do 2 f_equal. lia.
Qed.

(** The iterations that count the level down. *)
Lemma postorder_loop_low (L f : nat) b : (f <= L)%nat ->
  Position.postorder_loop f (2 ^ (Z.of_nat f + 1) + Z.of_nat L - 2 - Z.of_nat f) (2 ^ Z.of_nat f - 1) b =
  (Z.of_nat L, Z.lor b (Z.ones (Z.of_nat f))).
Proof.
  revert b. induction f as [|f IH]; intros b Hf.
  { simpl. rewrite Z.lor_0_r. f_equal. lia. }
  cbn [Position.postorder_loop]. replace (Z.of_nat (S f)) with (Z.of_nat f + 1) by lia.
  rewrite half_ones by lia. rewrite !(pow2_succ (Z.of_nat f + 1)), !(pow2_succ (Z.of_nat f)) by lia.
  pose proof (pow2_pos (Z.of_nat f) ltac:(lia)).
  rewrite (proj2 (Z.leb_le _ _)) by lia.
  replace (2 * (2 * 2 ^ Z.of_nat f) + Z.of_nat L - 2 - (Z.of_nat f + 1) - (2 * 2 ^ Z.of_nat f - 1))
    with (2 ^ (Z.of_nat f + 1) + Z.of_nat L - 2 - Z.of_nat f) by (rewrite pow2_succ by lia; lia).
  rewrite IH by lia. f_equal. rewrite <-Z.lor_assoc. f_equal.
  apply Z.bits_inj'. intros i Hi. autorewrite with bits. zcases.
  all: rewrite testbit_1 by lia; zcases.
Qed.

Lemma postorder_to_inorder_eq l p : 0 <= l < 63 -> 0 <= p < 2 ^ (63 - l) ->
  Position.postorder_to_inorder (postorder l p) = Ok (node l p).
Proof.
  intros Hl Hp. unfold Position.postorder_to_inorder.
  set (L := Z.to_nat l). assert (l = Z.of_nat L) as El by lia.
  assert (64%nat = (64 - L) + L)%nat as E64 by lia.
  rewrite E64 at 1. change u64_max with (2 ^ 64 - 1).
  replace (2 ^ 64) with (2 ^ Z.of_nat (64 - L + L)) by (f_equal; lia).
  rewrite El, postorder_loop_high.
  2: { rewrite El in Hp. pose proof (pow2_le_mono (63 - Z.of_nat L) (Z.of_nat (64 - L)) ltac:(lia)). lia. }
  replace (2 ^ (Z.of_nat L + 1) - 2) with (2 ^ (Z.of_nat L + 1) + Z.of_nat L - 2 - Z.of_nat L) by lia.
  rewrite postorder_loop_low by lia. rewrite <-El.
  rewrite Z.mod_small by lia. rewrite Z.lor_0_l.
  assert (Z.shiftr (Z.lor (Z.shiftl p l) (Z.ones l)) l = p) as Hsh.
  { apply Z.bits_inj'. intros i Hi. autorewrite with bits. zcases. f_equal. lia. }
  unfold u64_shr. rewrite (proj2 (Z.ltb_lt l 64)), Hsh by lia. mstep.
  by rewrite from_level_and_pos_node by lia.
Qed.

(** ** Extending an accumulator *)

Lemma divide_pow2_trailing_zeros c j : 0 < c -> 0 <= j -> (2 ^ j | c) -> j <= trailing_zeros c.
Proof.
  intros Hc Hj [e ->]. pose proof (pow2_pos j Hj).
  destruct (odd_decomposition e ltac:(nia)) as (n & k & ? & ? & ->).
  rewrite (trailing_zeros_spec _ (n + j) k); [lia|lia|lia|]. rewrite Z.pow_add_r by lia. ring.
Qed.

(** The subtrees that extend an accumulator of [c] leaves by [r] leaves. *)
Fixpoint sibling_coords (fuel : nat) (c r : Z) : list (Z * Z) :=
  match fuel with
  | O => []
  | S fuel =>
      if r =? 0 then []
      else
        let k := if (0 <? c) && (2 ^ trailing_zeros c <=? r) then trailing_zeros c else Z.log2 r in
        (k, c / 2 ^ k) :: sibling_coords fuel (c + 2 ^ k) (r - 2 ^ k)
  end.

(** [tiles a b cs]: the subtrees [cs] cover the leaves from [a] up to [b],
    each once and from left to right. *)
Fixpoint tiles (a b : Z) (cs : list (Z * Z)) : Prop :=
  match cs with
  | [] => a = b
  | (l, p) :: cs => 0 <= l /\ p * 2 ^ l = a /\ tiles (a + 2 ^ l) b cs
  end.

Module FrozenSubtreeSiblingIteratorFacts.
Import FrozenSubtreeSiblingIterator.

(** The level of the next subtree. *)
Definition next_level (c r : Z) : Z :=
  if (0 <? c) && (2 ^ trailing_zeros c <=? r) then trailing_zeros c else Z.log2 r.

(** A bound on the number of steps from [c], [r] on. *)
Definition steps (c r : Z) : Z :=
  if (0 <? c) && (2 ^ trailing_zeros c <=? r) then 128 - trailing_zeros c
  else if r =? 0 then 1 else Z.log2 r + 2.

Lemma sibling_coords_step (fuel : nat) c r : r <> 0 ->
  sibling_coords (S fuel) c r =
    (next_level c r, c / 2 ^ next_level c r)
      :: sibling_coords fuel (c + 2 ^ next_level c r) (r - 2 ^ next_level c r).
Proof. intros. cbn [sibling_coords]. by rewrite (proj2 (Z.eqb_neq r 0)). Qed.

Lemma next_level_spec c r : 0 <= c -> 0 < r -> c + r < 2 ^ 63 ->
  0 <= next_level c r < 63 /\ 2 ^ next_level c r <= r /\ (2 ^ next_level c r | c).
Proof.
  intros Hc Hr Hn. pose proof (Z.log2_nonneg r). pose proof (Z.log2_spec r ltac:(lia)) as Hlog.
  assert (Z.log2 r < 63) by (apply Z.log2_lt_pow2; lia). unfold next_level.
  destruct (Z.ltb_spec 0 c); cbn [andb].
  2: { replace c with 0 by lia. split_and!; [lia..|apply Z.divide_0_r]. }
  destruct (odd_decomposition c ltac:(lia)) as (t & q & Ht & Hq & E).
  rewrite (trailing_zeros_spec c t q) by done. pose proof (pow2_pos t Ht).
  assert (t < 63) by (apply (Z.pow_lt_mono_r_iff 2); [lia..|]; nia).
  destruct (Z.leb_spec (2 ^ t) r).
  - split_and!; [lia..|]. by exists (2 * q + 1).
  - assert (Z.log2 r < t) by (apply Z.log2_lt_pow2; lia). split_and!; [lia..|].
    exists ((2 * q + 1) * 2 ^ (t - Z.log2 r)). rewrite <-Z.mul_assoc, <-Z.pow_add_r by lia.
    rewrite E. do 2 f_equal. lia.
Qed.

Lemma steps_pos c r : 0 <= c -> 0 <= r -> c + r < 2 ^ 63 -> 1 <= steps c r.
Proof.
  intros. unfold steps. destruct (_ && _) eqn:Hb.
  - apply andb_true_iff in Hb as [? Hle]. zbool.
    pose proof (next_level_spec c r) as Hk. unfold next_level in Hk.
    rewrite (proj2 (Z.ltb_lt 0 c)), (proj2 (Z.leb_le _ _)) in Hk by done. cbn [andb] in Hk.
    destruct (odd_decomposition c ltac:(lia)) as (t & q & Ht & Hq & E).
    rewrite (trailing_zeros_spec c t q) in * by done. pose proof (pow2_pos t Ht).
    specialize (Hk ltac:(lia) ltac:(lia) ltac:(lia)). lia.
  - pose proof (Z.log2_nonneg r). destruct (r =? 0); lia.
Qed.

Lemma next_Some c r : 0 <= c -> 0 < r -> c + r < 2 ^ 63 ->
  next (mk c r) =
    Ok (Some (node (next_level c r) (c / 2 ^ next_level c r)),
        mk (c + 2 ^ next_level c r) (r - 2 ^ next_level c r)).
Proof.
  intros Hc Hr Hn. destruct (next_level_spec c r) as (Hk & Hle & [e He]); [done..|].
  set (k := next_level c r) in *. pose proof (pow2_pos k ltac:(lia)).
  unfold next. cbn [current_num_leaves remaining_new_leaves].
  rewrite (proj2 (Z.eqb_neq r 0)) by lia.
  assert (Hbatch : next_new_leaf_batch (mk c r) = Ok (2 ^ Z.log2 r)).
  { unfold next_new_leaf_batch, leading_zeros. cbn [remaining_new_leaves].
    rewrite (proj2 (Z.eqb_neq r 0)) by lia. pose proof (Z.log2_nonneg r).
    assert (Z.log2 r < 63) by (apply Z.log2_lt_pow2; lia). unfold MAX_ACCUMULATOR_PROOF_DEPTH.
    rewrite u64_sub_Ok by lia. mstep. rewrite <-(Z.pow_0_r 2) at 1.
    rewrite u64_shl_pow2 by lia. do 2 f_equal. lia. }
  match goal with |- (?o ≫= _) = _ => assert (o = Ok (2 ^ k)) as -> end.
  { unfold k, next_level in *. destruct (Z.ltb_spec 0 c); [|done]. cbn [andb] in *.
    destruct (odd_decomposition c ltac:(lia)) as (t & q & Ht & Hq & E).
    rewrite (trailing_zeros_spec c t q) in * by done. pose proof (pow2_pos t Ht).
    assert (t < 63) by (apply (Z.pow_lt_mono_r_iff 2); [lia..|]; nia).
    rewrite <-(Z.pow_0_r 2) at 1. rewrite u64_shl_pow2, Z.add_0_l by lia. mstep.
    by destruct (2 ^ t <=? r). }
  mstep. rewrite u64_add_Ok by lia. mstep. rewrite u64_sub_Ok by lia. mstep.
  rewrite u64_sub_Ok by lia. mstep. rewrite u64_add_Ok by lia. mstep.
  do 3 f_equal. unfold Position.from_inorder_index, node.
  assert (c / 2 ^ k = e) as -> by (rewrite He; apply Z.div_mul; lia).
  rewrite pow2_succ by lia. lia.
Qed.

Lemma steps_decrease c r : 0 <= c -> 0 < r -> c + r < 2 ^ 63 ->
  steps (c + 2 ^ next_level c r) (r - 2 ^ next_level c r) < steps c r.
Proof.
  intros Hc Hr Hn. destruct (next_level_spec c r) as (Hk & Hle & Hdiv); [done..|].
  pose proof (pow2_pos (next_level c r) ltac:(lia)).
  pose proof (Z.log2_nonneg r). pose proof (Z.log2_spec r ltac:(lia)) as Hlog.
  assert (Z.log2 r < 63) by (apply Z.log2_lt_pow2; lia).
  assert (Hlow : forall r', 0 <= r' < 2 ^ 63 -> (if r' =? 0 then 1 else Z.log2 r' + 2) < 65).
  { intros r' Hr'. destruct (Z.eqb_spec r' 0); [lia|].
    assert (Z.log2 r' < 63) by (apply Z.log2_lt_pow2; lia). lia. }
  unfold steps at 2. unfold next_level in *. destruct (_ && _) eqn:Hb.
  - (* merging: the next smallest subtree is larger *)
    apply andb_true_iff in Hb as [Hpos _]. zbool. set (t := trailing_zeros c) in *.
    assert (t + 1 <= trailing_zeros (c + 2 ^ t)).
    { apply divide_pow2_trailing_zeros; [lia|lia|].
      destruct (odd_decomposition c ltac:(lia)) as (t' & q & Ht' & Hq & E).
      assert (t' = t) as <- by (symmetry; by apply (trailing_zeros_spec c t' q)).
      exists (q + 1). rewrite pow2_succ by done. rewrite E. ring. }
    unfold steps. destruct (_ && _); [lia|].
    specialize (Hlow (r - 2 ^ t) ltac:(lia)). lia.
  - (* appending: the leaves left are fewer than the last subtree *)
    rewrite (proj2 (Z.eqb_neq r 0)) by lia. set (k := Z.log2 r) in *. rewrite <-Z.add_1_r in Hlog.
    rewrite pow2_succ in Hlog by done.
    assert (steps (c + 2 ^ k) (r - 2 ^ k) = if r - 2 ^ k =? 0 then 1 else Z.log2 (r - 2 ^ k) + 2) as ->.
    { unfold steps. rewrite (proj2 (Z.ltb_lt 0 _)) by lia. cbn [andb].
      rewrite (proj2 (Z.leb_gt _ _)); [done|].
      pose proof (divide_pow2_trailing_zeros (c + 2 ^ k) k ltac:(lia) ltac:(lia)
        ltac:(apply Z.divide_add_r; [done|apply Z.divide_refl])).
      pose proof (pow2_le_mono k (trailing_zeros (c + 2 ^ k)) ltac:(lia)). lia. }
    destruct (Z.eqb_spec (r - 2 ^ k) 0); [lia|].
    assert (Z.log2 (r - 2 ^ k) < k) by (apply Z.log2_lt_pow2; lia). lia.
Qed.

Lemma collect_from (fuel : nat) c r : 0 <= c -> 0 <= r -> c + r < 2 ^ 63 ->
  steps c r <= Z.of_nat fuel ->
  collect_items fuel (mk c r) = Ok (Some (uncurry node <$> sibling_coords fuel c r)) /\
  tiles c (c + r) (sibling_coords fuel c r).
Proof.
  revert c r. induction fuel as [|fuel IH]; intros c r Hc Hr Hn Hs.
  { pose proof (steps_pos c r Hc Hr Hn). lia. }
  destruct (Z.eq_dec r 0) as [->|].
  { cbn. split; [done|lia]. }
  rewrite sibling_coords_step by done. cbn [collect_items]. rewrite next_Some by lia. mstep.
  destruct (next_level_spec c r) as (Hk & Hle & [e He]); [lia..|].
  pose proof (pow2_pos (next_level c r) ltac:(lia)).
  pose proof (steps_decrease c r Hc ltac:(lia) Hn).
  destruct (IH (c + 2 ^ next_level c r) (r - 2 ^ next_level c r)) as [-> Ht]; [lia..|].
  split; [done|]. cbn [tiles]. split_and!; [lia| |].
  - rewrite He at 1. rewrite Z.div_mul by lia. done.
  - by replace (c + r) with (c + 2 ^ next_level c r + (r - 2 ^ next_level c r)) by lia.
Qed.

Lemma steps_128 c r : 0 <= c -> 0 <= r -> c + r < 2 ^ 63 -> steps c r <= 128.
Proof.
  intros. unfold steps. destruct (_ && _) eqn:Hb.
  - apply andb_true_iff in Hb as [? _]. zbool.
    pose proof (divide_pow2_trailing_zeros c 0 ltac:(lia) ltac:(lia) ltac:(apply Z.divide_1_l)). lia.
  - destruct (Z.eqb_spec r 0); [lia|].
    assert (Z.log2 r < 63) by (apply Z.log2_lt_pow2; lia). lia.
Qed.

End FrozenSubtreeSiblingIteratorFacts.

(** ** Frozen subtrees, lowest level first *)

Fixpoint frozen_up (k : nat) (l m : Z) : list (Z * Z) :=
  match k with
  | O => []
  | S k => (if Z.odd m then [(l, m - 1)] else []) ++ frozen_up k (l + 1) (m / 2)
  end.

Lemma frozen_up_odd (k : nat) l q :
  frozen_up (S k) l (2 * q + 1) = (l, 2 * q) :: frozen_up k (l + 1) q.
Proof.
  cbn [frozen_up]. rewrite Z.odd_add, Z.odd_mul. cbn [Z.odd xorb andb app].
  by rewrite (div2_odd _ q), Z.add_simpl_r.
Qed.

Lemma frozen_up_even (k : nat) l q : frozen_up (S k) l (2 * q) = frozen_up k (l + 1) q.
Proof. cbn [frozen_up]. rewrite Z.odd_mul. cbn [Z.odd andb app]. by rewrite (div2_even _ q). Qed.

Lemma div_pow2_succ n l : 0 <= l -> n / 2 ^ (l + 1) = n / 2 ^ l / 2.
Proof.
  intros. rewrite Z.add_comm, Z.pow_add_r, Z.pow_1_r, Z.mul_comm by lia.
  rewrite Z.div_div by (auto with lia || apply Z.pow_nonzero; lia). done.
Qed.

Lemma frozen_up_set_bits (k : nat) n l : 0 <= l ->
  (fun i => (i, n / 2 ^ i - 1)) <$> filter (fun i => Z.testbit n i = true) (seqZ l (Z.of_nat k)) =
  frozen_up k l (n / 2 ^ l).
Proof.
  revert l. induction k as [|k IH]; intros l Hl; [done|].
  rewrite seqZ_cons by lia. replace (Z.pred (Z.of_nat (S k))) with (Z.of_nat k) by lia.
  cbn [frozen_up]. rewrite <-div_pow2_succ, <-IH, Z.add_1_r by lia.
  rewrite filter_cons. rewrite Z.testbit_odd, Z.shiftr_div_pow2 by lia.
  destruct (Z.odd (n / 2 ^ l)); by case_decide.
Qed.

Lemma frozen_coords_up n : reverse (frozen_coords n) = frozen_up 63 0 n.
Proof.
  unfold frozen_coords. rewrite <-fmap_reverse, reverse_involutive.
  unfold set_bits. change 63 with (Z.of_nat 63) at 1.
  rewrite frozen_up_set_bits by done. by rewrite Z.pow_0_r, Z.div_1_r.
Qed.

Lemma length_frozen_up (k : nat) l m : 0 <= m < 2 ^ Z.of_nat k ->
  Z.of_nat (length (frozen_up k l m)) = count_ones m.
Proof.
  revert l m. induction k as [|k IH]; intros l m Hm.
  - by replace m with 0 by (simpl in Hm; lia).
  - replace (Z.of_nat (S k)) with (Z.of_nat k + 1) in Hm by lia.
    rewrite pow2_succ in Hm by lia.
    cbn [frozen_up]. rewrite length_app, Nat2Z.inj_add, IH.
    2: { split; [apply Z.div_pos; lia|]. apply Z.div_lt_upper_bound; lia. }
    destruct (Z.odd m) eqn:E.
    + apply Z.odd_spec in E as [q ->]. rewrite count_ones_double_succ by lia.
      replace ((2 * q + 1) / 2) with q; [simpl; lia|]. apply (Z.div_unique _ _ _ 1); lia.
    + rewrite <-Z.negb_even in E. apply negb_false_iff, Z.even_spec in E as [q ->].
      rewrite count_ones_double by lia. rewrite (Z.mul_comm 2), Z.div_mul by lia. simpl. lia.
Qed.

Lemma length_frozen_coords n : 0 <= n < 2 ^ 63 -> Z.of_nat (length (frozen_coords n)) = count_ones n.
Proof.
  intros. rewrite <-length_reverse, frozen_coords_up. by apply length_frozen_up.
Qed.

Lemma frozen_up_shift (T k : nat) l m : 0 <= m ->
  frozen_up (T + k) l (m * 2 ^ Z.of_nat T) = frozen_up k (l + Z.of_nat T) m.
Proof.
  intros Hm. revert l. induction T as [|T IH]; intros l.
  - rewrite Z.pow_0_r, Z.mul_1_r, Z.add_0_r. done.
  - cbn [Nat.add]. replace (Z.of_nat (S T)) with (Z.of_nat T + 1) by lia.
    rewrite pow2_succ by lia. replace (m * (2 * 2 ^ Z.of_nat T)) with (2 * (m * 2 ^ Z.of_nat T)) by lia.
    rewrite frozen_up_even.
    rewrite IH. f_equal. lia.
Qed.

Lemma frozen_coords_snoc c k : 0 <= c -> 0 <= k < 63 -> (2 ^ (k + 1) | c) ->
  frozen_coords (c + 2 ^ k) = frozen_coords c ++ [(k, c / 2 ^ k)].
Proof.
  intros Hc Hk [e ->]. pose proof (pow2_pos k ltac:(lia)). rewrite pow2_succ in * by lia.
  assert (0 <= e) by nia. set (K := Z.to_nat k). assert (k = Z.of_nat K) as EK by lia.
  apply (inj reverse). rewrite reverse_app, reverse_singleton, !frozen_coords_up. cbn [app].
  assert (e * (2 * 2 ^ k) / 2 ^ k = 2 * e) as ->.
  { replace (e * (2 * 2 ^ k)) with (2 * e * 2 ^ k) by ring. apply Z.div_mul. lia. }
  replace 63%nat with (K + S (62 - K))%nat at 1 by lia.
  replace (e * (2 * 2 ^ k) + 2 ^ k) with ((2 * e + 1) * 2 ^ k) by ring.
  rewrite EK at 1. rewrite frozen_up_shift, frozen_up_odd, Z.add_0_l, <-EK by lia. f_equal.
  replace 63%nat with (S K + (62 - K))%nat by lia.
  replace (2 * 2 ^ k) with (2 ^ Z.of_nat (S K)) by (rewrite <-pow2_succ by lia; f_equal; lia).
  rewrite frozen_up_shift by lia. f_equal. lia.
Qed.

(** When the new leaves are fewer than the smallest subtree, they are appended
    as the full subtrees of their own number. *)
Lemma frozen_coords_tail (fuel : nat) c r :
  0 <= c -> 0 <= r < 2 ^ (Z.of_nat fuel - 1) -> c + r < 2 ^ 63 ->
  (0 < r -> (2 ^ (Z.log2 r + 1) | c)) ->
  frozen_coords c ++ sibling_coords fuel c r = frozen_coords (c + r).
Proof.
  revert c r. induction fuel as [|fuel IH]; intros c r Hc Hr Hn Hdiv.
  { rewrite Z.pow_neg_r in Hr by lia. lia. }
  cbn [sibling_coords]. destruct (Z.eqb_spec r 0) as [->|]; [by rewrite app_nil_r, Z.add_0_r|].
  specialize (Hdiv ltac:(lia)). pose proof (Z.log2_nonneg r).
  pose proof (Z.log2_spec r ltac:(lia)) as Hlog. rewrite <-Z.add_1_r in Hlog.
  assert ((if (0 <? c) && (2 ^ trailing_zeros c <=? r) then trailing_zeros c else Z.log2 r)
    = Z.log2 r) as ->.
  { destruct (Z.ltb_spec 0 c); [|done]. rewrite (proj2 (Z.leb_gt _ _)); [done|].
    pose proof (divide_pow2_trailing_zeros c (Z.log2 r + 1) ltac:(done) ltac:(lia) Hdiv).
    pose proof (pow2_le_mono (Z.log2 r + 1) (trailing_zeros c) ltac:(lia)). lia. }
  rewrite pow2_succ in Hlog by done.
  assert (Z.log2 r < Z.of_nat fuel).
  { apply Z.log2_lt_pow2; [lia|]. replace (Z.of_nat (S fuel) - 1) with (Z.of_nat fuel) in Hr; lia. }
  assert (Z.log2 r < 63) by (apply Z.log2_lt_pow2; lia).
  rewrite cons_middle, app_assoc, <-frozen_coords_snoc by (done || lia).
  rewrite IH; [f_equal; lia|lia| |lia|].
  - pose proof (pow2_le_mono (Z.log2 r) (Z.of_nat fuel - 1) ltac:(lia)). lia.
  - intros Hr'. assert (Z.log2 (r - 2 ^ Z.log2 r) < Z.log2 r) by (apply Z.log2_lt_pow2; lia).
    pose proof (Z.log2_nonneg (r - 2 ^ Z.log2 r)).
    apply Z.divide_add_r.
    + etrans; [|apply Hdiv]. exists (2 ^ (Z.log2 r - Z.log2 (r - 2 ^ Z.log2 r))).
      rewrite <-Z.pow_add_r by lia. f_equal. lia.
    + exists (2 ^ (Z.log2 r - (Z.log2 (r - 2 ^ Z.log2 r) + 1))).
      rewrite <-Z.pow_add_r by lia. f_equal. lia.
Qed.

(** ** Properties of positions *)

#[local] Opaque sibling_coords FrozenSubtreeSiblingIterator.collect_items
  FrozenSubTreeIterator.collect_items.

(** Every number below [2^64 - 2] is a node. *)
Lemma as_node m : 0 <= m < u64_max - 1 ->
  exists l p, pos_ok l p /\ m = node l p.
Proof.
  intros Hm. destruct (odd_decomposition (m + 1) ltac:(lia)) as (l & p & Hl & Hp & E).
  exists l, p. assert (m = node l p) as -> by (pose proof (node_succ l p Hl); lia).
  split; [|done]. split_and!; lia.
Qed.

(** every internal position has two children, one on each side of it; both
    have it as their parent, they are each other's sibling, and the side tests
    tell them apart.  No operation panics. *)
Theorem children_and_parent (i : Z) : 0 <= i < u64_max - 2 -> Position.is_leaf i = false ->
  exists l r,
    Position.left_child i = Ok l /\ Position.right_child i = Ok r /\ l < i < r /\
    Position.parent l = Ok i /\ Position.parent r = Ok i /\
    Position.sibling l = Ok r /\ Position.sibling r = Ok l /\
    Position.is_left_child l = Ok true /\ Position.is_right_child r = Ok true /\
    Position.level l = Position.level i - 1 /\ Position.level r = Position.level i - 1.
Proof.
  intros Hi Hleaf. destruct (as_node i) as (l & p & Hok & ->); [lia|].
  pose proof Hok as (Hl & Hp & _). rewrite is_leaf_node in Hleaf by done. zbool.
  destruct (node_bounds l p Hok) as (Hl63 & _ & ?).
  destruct (pos_ok_children l p ltac:(lia) Hok) as [Hc1 Hc2].
  assert (pos_ok (l - 1) (2 * p + 1)) as Hc2'.
  { assert (2 ^ (63 - (l - 1)) = 2 * 2 ^ (63 - l)) by (rewrite <-pow2_succ by lia; f_equal; lia).
    apply pos_ok_intro; [lia..|]. destruct (Z.eq_dec l 1) as [->|]; [right|left; lia].
    unfold node, u64_max in Hi. simpl in Hi. lia. }
  exists (node (l - 1) (2 * p)), (node (l - 1) (2 * p + 1)).
  assert (Z.even (2 * p) = true) as He by (rewrite Z.even_mul; done).
  assert (Z.even (2 * p + 1) = false) as Ho by (rewrite Z.even_add, Z.even_mul; done).
  rewrite left_child_node, right_child_node, !parent_node, !sibling_node, is_left_child_node,
    is_right_child_node, !level_node by (done || lia).
  rewrite (div2_even _ p), (div2_odd _ p) by done. replace (l - 1 + 1) with l by lia.
  rewrite He, Ho, Z.odd_add, Z.odd_mul, Z.add_simpl_r.
  split_and!; try done; unfold node; replace (l - 1 + 1) with l by lia; rewrite pow2_succ by lia;
    pose proof (pow2_lt_mono (l - 1) l ltac:(lia)); pose proof (pow2_pos (l - 1) ltac:(lia)); lia.
Qed.

Lemma children_and_parent_witness :
  exists l r, Position.left_child 5 = Ok l /\ Position.right_child 5 = Ok r /\ l < 5 < r.
Proof.
  destruct (children_and_parent 5) as (l & r & H); [done|done|]. exists l, r. tauto.
Defined.

(** the leaves below a position are the [2^level] leaves from its
    left-most to its right-most child; it is freezable exactly when the last of
    them exists, and a placeholder exactly when the first of them does not. *)
Theorem leaves_below (i leaf_index : Z) : 0 <= i < u64_max - 1 -> 0 <= leaf_index < 2 ^ 63 ->
  exists first last,
    last - first + 1 = 2 ^ Position.level i /\
    (Position.left_most_child i = Position.from_leaf_index first) /\
    (Position.right_most_child i = Position.from_leaf_index last) /\
    Position.is_freezable i leaf_index = Ok (last <=? leaf_index) /\
    Position.is_placeholder i leaf_index = Ok (leaf_index <? first).
Proof.
  intros Hi Hx. destruct (as_node i Hi) as (l & p & Hok & ->).
  destruct (node_bounds l p Hok) as (? & ? & Hp). pose proof Hok as (? & ? & ?).
  pose proof (pow2_pos l ltac:(lia)).
  assert (2 ^ (63 - l) * 2 ^ l = 2 ^ 63) by (rewrite <-Z.pow_add_r by lia; f_equal; lia).
  exists (p * 2 ^ l), ((p + 1) * 2 ^ l - 1).
  rewrite left_most_child_node, right_most_child_node, is_freezable_node, is_placeholder_node,
    level_node by done.
  rewrite !from_leaf_index_node by nia. split_and!; [lia|done|done| |done].
  f_equal. zcases.
Qed.

Lemma leaves_below_witness :
  exists first last, last - first + 1 = 2 ^ Position.level 11 /\
    Position.is_freezable 11 6 = Ok (last <=? 6) /\ Position.is_placeholder 11 6 = Ok (6 <? first).
Proof.
  destruct (leaves_below 11 6) as (f & l & H); [done|done|]. exists f, l. tauto.
Defined.

(** The root for [n] leaves is the smallest position on the left edge whose
    subtree has room for them, and its level is the one computed from the
    leading zeros of the last leaf index. *)
Theorem root_covers_leaves (n : Z) : 0 < n < 2 ^ 63 ->
  exists root level,
    Position.root_from_leaf_count n = Ok root /\
    Position.root_level_from_leaf_count n = Ok level /\
    Position.level root = level /\ Position.left_most_child root = Ok 0 /\
    n <= 2 ^ level /\ (1 < n -> 2 ^ (level - 1) < n).
Proof.
  intros Hn. pose proof (log2_up_bounds n 63 ltac:(lia) ltac:(lia)).
  assert (pos_ok (Z.log2_up n) 0) as Hok by (apply pos_ok_intro; [lia| |lia]; auto with lia).
  exists (node (Z.log2_up n) 0), (Z.log2_up n).
  rewrite root_from_leaf_count_node, root_level_from_leaf_count_eq, level_node,
    left_most_child_node by (done || lia).
  split_and!; [done..| |].
  - apply le_pow2_log2_up. lia.
  - intros. rewrite Z.sub_1_r. apply Z.log2_up_spec. lia.
Qed.

Lemma root_covers_leaves_witness :
  exists root level, Position.root_from_leaf_count 5 = Ok root /\ Position.level root = level /\
    5 <= 2 ^ level.
Proof.
  destruct (root_covers_leaves 5) as (r & l & H); [done|]. exists r, l. tauto.
Defined.

(** Numbering a position in post-order and back gives the position, for
    every position but the root of the largest tree. *)
Theorem postorder_roundtrip (i : Z) : 0 <= i < u64_max - 1 -> i <> 2 ^ 63 - 1 ->
  exists k, Position.to_postorder_index i = Ok k /\ Position.from_postorder_index k = Ok i.
Proof.
  intros Hi Hroot. destruct (as_node i Hi) as (l & p & Hok & ->).
  destruct (node_bounds l p Hok) as (? & ? & Hp). pose proof Hok as (? & ? & ?).
  assert (l < 63).
  { destruct (Z.eq_dec l 63) as [->|]; [|lia]. assert (p = 0) as -> by (simpl in *; lia). done. }
  exists (postorder l p). unfold Position.to_postorder_index, Position.to_inorder_index.
  rewrite inorder_to_postorder_node by done. split; [done|].
  unfold Position.from_postorder_index. rewrite ensure_true.
  - mstep. apply postorder_to_inorder_eq; lia.
  - apply Z.ltb_lt. unfold postorder, u64_max. pose proof (count_ones_bounds p ltac:(lia)).
    assert (2 ^ (63 - l) * 2 ^ (l + 1) = 2 ^ 64) by (rewrite <-Z.pow_add_r by lia; f_equal; lia).
    pose proof (Z.mul_le_mono_nonneg_r (p + 1) (2 ^ (63 - l)) (2 ^ (l + 1))
      ltac:(apply Z.pow_nonneg; lia) ltac:(lia)). lia.
Qed.

Lemma postorder_roundtrip_witness :
  exists k, Position.to_postorder_index 5 = Ok k /\ Position.from_postorder_index k = Ok 5.
Proof. apply (postorder_roundtrip 5); done. Defined.

(** the root of the largest tree is the position of the last post-order
    number, but numbering it in post-order underflows. *)
Theorem postorder_of_max_root_panics :
  Position.from_postorder_index (2 ^ 64 - 2) = Ok (2 ^ 63 - 1) /\
  Position.to_postorder_index (2 ^ 63 - 1) = Panic.
Proof. by vm_compute. Qed.

Lemma frozen_coords_tiles n : 0 <= n < 2 ^ 63 -> tiles 0 n (frozen_coords n).
Proof.
  intros Hn. pose proof (frozen_coords_tail 128 0 n ltac:(lia)
    ltac:(pose proof (pow2_le_mono 63 (Z.of_nat 128 - 1) ltac:(lia)); lia) ltac:(lia)
    ltac:(intros; apply Z.divide_0_r)) as E.
  change (frozen_coords 0) with (@nil (Z * Z)) in E. rewrite Z.add_0_l in E. cbn [app] in E.
  rewrite <-E. pose proof (FrozenSubtreeSiblingIteratorFacts.steps_128 0 n ltac:(lia) ltac:(lia) ltac:(lia)).
  destruct (FrozenSubtreeSiblingIteratorFacts.collect_from 128 0 n) as [_ Ht]; [lia..|done].
Qed.

Lemma tiles_le a b cs : tiles a b cs -> a <= b.
Proof.
  revert a. induction cs as [|[l p] cs IH]; intros a Ht; simpl in Ht; [lia|].
  destruct Ht as (? & ? & Ht). apply IH in Ht. pose proof (pow2_pos l ltac:(done)). lia.
Qed.

(** The frozen-subtree iterator of [n] leaves yields, and stops after, the
    roots of full subtrees that cover the leaves from left to right; one for
    every set bit of [n]. *)
Theorem frozen_subtrees_tile (n : Z) : 0 <= n < 2 ^ 63 ->
  exists cs,
    FrozenSubTreeIterator.collect_items 65 (FrozenSubTreeIterator.new n) =
      Ok (Some (uncurry node <$> cs)) /\
    tiles 0 n cs /\ Z.of_nat (length cs) = count_ones n.
Proof.
  intros Hn. exists (frozen_coords n).
  rewrite FrozenSubTreeIteratorFacts.collect_new, length_frozen_coords by done.
  split_and!; [done|by apply frozen_coords_tiles|done].
Qed.

Lemma frozen_subtrees_tile_witness :
  exists cs, FrozenSubTreeIterator.collect_items 65 (FrozenSubTreeIterator.new 13) =
    Ok (Some (uncurry node <$> cs)) /\ tiles 0 13 cs.
Proof. destruct (frozen_subtrees_tile 13) as (cs & H); [done|]. exists cs. tauto. Defined.

(** The sibling iterator from [c] to [n] leaves ends, and its subtrees cover
    exactly the new leaves, from left to right. *)
Theorem sibling_subtrees_tile (c n : Z) : 0 <= c <= n -> n < 2 ^ 63 ->
  exists it cs,
    FrozenSubtreeSiblingIterator.new c n = Ok it /\
    FrozenSubtreeSiblingIterator.collect_items 128 it = Ok (Some (uncurry node <$> cs)) /\
    tiles c n cs.
Proof.
  intros Hc Hn. exists (FrozenSubtreeSiblingIterator.mk c (n - c)), (sibling_coords 128 c (n - c)).
  unfold FrozenSubtreeSiblingIterator.new. change MAX_ACCUMULATOR_LEAVES with (2 ^ 63).
  rewrite !assert_true, u64_sub_Ok by (try apply Z.leb_le; lia). split; [done|].
  pose proof (FrozenSubtreeSiblingIteratorFacts.steps_128 c (n - c) ltac:(lia) ltac:(lia) ltac:(lia)).
  destruct (FrozenSubtreeSiblingIteratorFacts.collect_from 128 c (n - c)) as [-> Ht]; [lia..|].
  split; [done|]. by replace (c + (n - c)) with n in Ht by lia.
Qed.

Lemma sibling_subtrees_tile_witness :
  exists it cs, FrozenSubtreeSiblingIterator.new 10 21 = Ok it /\
    FrozenSubtreeSiblingIterator.collect_items 128 it = Ok (Some (uncurry node <$> cs)) /\
    tiles 10 21 cs.
Proof. apply (sibling_subtrees_tile 10 21); done. Defined.
