(* ===== verification/Merkle.v ===== *)
(** * The Merkle tree an accumulator stands for

    [MerkleHasher] is what the accumulator code needs of a [CryptoHasher]: the
    hash of an internal node ([MerkleTreeInternalNode::hash] of
    [types/src/proof/mod.rs], a SHA-3 digest of the two children) and the
    placeholder hash.  [subtree] and [merkle_root] are the specification: the
    hash of every node of the tree over a list of leaves, a subtree without
    leaves being the placeholder. *)

From S2P Require Import Prelude Position.

Class MerkleHasher (HashValue : Type) := {
  hash_internal : HashValue -> HashValue -> HashValue;
  ACCUMULATOR_PLACEHOLDER_HASH : HashValue;
}.

(** The free hasher, in which every digest remembers what was hashed: the
    instance at which the theorems are exercised. *)
Inductive digest :=
  | Placeholder
  | Leaf (n : Z)
  | Node (l r : digest).

#[export] Instance digest_eq_dec : EqDecision digest.
Proof. solve_decision. Defined.

#[export] Instance digest_hasher : MerkleHasher digest :=
  {| hash_internal := Node; ACCUMULATOR_PLACEHOLDER_HASH := Placeholder |}.

Section merkle.
Context {HashValue : Type} `{!MerkleHasher HashValue}.
Implicit Types (ls : list HashValue) (p : Z).

Definition num (ls : list HashValue) : Z := Z.of_nat (length ls).

(** The hash of the [p]-th node of level [l]. *)
Fixpoint subtree ls (l : nat) p : HashValue :=
  if num ls <=? p * 2 ^ Z.of_nat l then ACCUMULATOR_PLACEHOLDER_HASH
  else
    match l with
    | O => nth (Z.to_nat p) ls ACCUMULATOR_PLACEHOLDER_HASH
    | S l => hash_internal (subtree ls l (2 * p)) (subtree ls l (2 * p + 1))
    end.

Definition merkle_root ls : HashValue := subtree ls (Z.to_nat (Z.log2_up (num ls))) 0.

(** A pair of different inputs of the internal-node hash with the same digest. *)
Definition collision : Prop :=
  exists a b c d : HashValue, (a, b) <> (c, d) /\ hash_internal a b = hash_internal c d.

Lemma subtree_placeholder ls (l : nat) p :
  num ls <= p * 2 ^ Z.of_nat l -> subtree ls l p = ACCUMULATOR_PLACEHOLDER_HASH.
Proof. intros. destruct l; cbn [subtree]; by rewrite (proj2 (Z.leb_le _ _)). Qed.

Lemma subtree_succ ls (l : nat) p : p * 2 ^ (Z.of_nat l + 1) < num ls ->
  subtree ls (S l) p = hash_internal (subtree ls l (2 * p)) (subtree ls l (2 * p + 1)).
Proof.
  intros. cbn [subtree]. rewrite (proj2 (Z.leb_gt _ _)); [done|].
  by replace (Z.of_nat (S l)) with (Z.of_nat l + 1) by lia.
Qed.

Lemma subtree_leaf ls p : 0 <= p < num ls ->
  subtree ls 0 p = nth (Z.to_nat p) ls ACCUMULATOR_PLACEHOLDER_HASH.
Proof. intros. cbn [subtree]. rewrite (proj2 (Z.leb_gt _ _)); [done|]. simpl. lia. Qed.

(** Full subtrees never change when leaves are appended. *)
Lemma subtree_app ls new (l : nat) p : 0 <= p -> (p + 1) * 2 ^ Z.of_nat l <= num ls ->
  subtree (ls ++ new) l p = subtree ls l p.
Proof.
  revert p. induction l as [|l IH]; intros p Hp Hfull.
  - simpl in Hfull. assert (num ls <= num (ls ++ new)) by (unfold num; rewrite length_app; lia).
    rewrite !subtree_leaf by lia. apply app_nth1. unfold num in *. lia.
  - replace (Z.of_nat (S l)) with (Z.of_nat l + 1) in Hfull by lia.
    pose proof (pow2_succ (Z.of_nat l) ltac:(lia)) as E. rewrite E in Hfull.
    pose proof (pow2_pos (Z.of_nat l) ltac:(lia)).
    assert (num ls <= num (ls ++ new)) by (unfold num; rewrite length_app; lia).
    rewrite !subtree_succ by (rewrite E; lia). by rewrite !IH by lia.
Qed.

(** The hashes of the full subtrees, from left to right. *)
Definition hash_at ls (c : Z * Z) : HashValue := subtree ls (Z.to_nat c.1) c.2.
Definition frozen_roots ls : list HashValue := hash_at ls <$> frozen_coords (num ls).

Lemma hash_at_succ ls l p : 0 <= l -> p * 2 ^ (l + 1) < num ls ->
  hash_at ls (l + 1, p) = hash_internal (hash_at ls (l, 2 * p)) (hash_at ls (l, 2 * p + 1)).
Proof.
  intros. unfold hash_at. cbn [fst snd]. rewrite Z.add_1_r, Z2Nat.inj_succ by done.
  apply subtree_succ. by rewrite Z2Nat.id.
Qed.

Lemma hash_at_placeholder ls l p : 0 <= l -> num ls <= p * 2 ^ l ->
  hash_at ls (l, p) = ACCUMULATOR_PLACEHOLDER_HASH.
Proof. intros. apply subtree_placeholder. cbn. by rewrite Z2Nat.id. Qed.

(** ** Equal hashes come from equal inputs, up to a collision *)
Section injectivity.
Context `{!EqDecision HashValue}.

Lemma hash_internal_inj (a b c d : HashValue) :
  hash_internal a b = hash_internal c d -> (a = c /\ b = d) \/ collision.
Proof.
  intros E. destruct (decide ((a, b) = (c, d))) as [[= -> ->]|Hne]; [by left|].
  right. by exists a, b, c, d.
Qed.

(** The hash of a full subtree fixes its leaves. *)
Lemma subtree_inj ls ls' (l : nat) p : 0 <= p ->
  (p + 1) * 2 ^ Z.of_nat l <= num ls -> (p + 1) * 2 ^ Z.of_nat l <= num ls' ->
  subtree ls l p = subtree ls' l p ->
  (forall i, p * 2 ^ Z.of_nat l <= Z.of_nat i < (p + 1) * 2 ^ Z.of_nat l -> ls !! i = ls' !! i) \/
  collision.
Proof.
  revert p. induction l as [|l IH]; intros p Hp H1 H2 E.
  - change (2 ^ Z.of_nat 0) with 1 in *. rewrite !subtree_leaf in E by lia. left. intros i Hi.
    assert (Z.to_nat p = i) as Hpi by lia. rewrite Hpi in E. unfold num in *.
    destruct (lookup_lt_is_Some_2 ls i) as [x Hx]; [lia|].
    destruct (lookup_lt_is_Some_2 ls' i) as [y Hy]; [lia|].
    rewrite !nth_lookup, Hx, Hy in E. simpl in E. by rewrite Hx, Hy, E.
  - replace (Z.of_nat (S l)) with (Z.of_nat l + 1) in * by lia.
    pose proof (pow2_succ (Z.of_nat l) ltac:(lia)) as E2. rewrite E2 in *.
    pose proof (pow2_pos (Z.of_nat l) ltac:(lia)).
    rewrite !subtree_succ in E by (rewrite E2; lia).
    apply hash_internal_inj in E as [[El Er]|]; [|by right].
    apply IH in El as [Hl|]; [|by right|lia..]. apply IH in Er as [Hr|]; [|by right|lia..].
    left. intros i Hi. destruct (Z.lt_ge_cases (Z.of_nat i) ((2 * p + 1) * 2 ^ Z.of_nat l)).
    + apply Hl. lia.
    + apply Hr. lia.
Qed.

Lemma tiles_inj ls ls' a b cs : tiles a b cs -> 0 <= a -> b <= num ls -> b <= num ls' ->
  hash_at ls <$> cs = hash_at ls' <$> cs ->
  (forall i, a <= Z.of_nat i < b -> ls !! i = ls' !! i) \/ collision.
Proof.
  revert a. induction cs as [|[l p] cs IH]; intros a Ht Ha H1 H2 E.
  { simpl in Ht. subst. left. intros. lia. }
  destruct Ht as (Hl & Hp & Ht). rewrite !fmap_cons in E. injection E as E1 E2.
  pose proof (pow2_pos l Hl). assert (0 <= p) by nia.
  assert (a + 2 ^ l <= b) by (eapply tiles_le; done).
  destruct (IH _ Ht ltac:(lia) H1 H2 E2) as [Hr|]; [|by right].
  apply subtree_inj in E1 as [Hh|]; cbn [fst snd]; rewrite ?Z2Nat.id by done; [|by right|lia..].
  cbn [fst snd] in Hh. rewrite Z2Nat.id in Hh by done.
  left. intros i Hi. destruct (Z.lt_ge_cases (Z.of_nat i) (a + 2 ^ l)); [apply Hh|apply Hr]; lia.
Qed.

Lemma frozen_roots_inj ls ls' : num ls = num ls' -> num ls < 2 ^ 63 ->
  frozen_roots ls = frozen_roots ls' -> ls = ls' \/ collision.
Proof.
  intros Hn Hlt E. unfold frozen_roots in E. rewrite <-Hn in E.
  eapply tiles_inj in E as [Hi|]; [|by right|apply frozen_coords_tiles; unfold num in *; lia|lia..].
  left. apply list_eq. intros i. destruct (Z.lt_ge_cases (Z.of_nat i) (num ls)); [apply Hi; lia|].
  unfold num in *. by rewrite !lookup_ge_None_2 by lia.
Qed.
End injectivity.

End merkle.

(** The free hasher has no collision, so there the theorems "up to a collision"
    give their first alternative. *)
Lemma digest_collision_free : ~ collision (HashValue := digest).
Proof. intros (a & b & c & d & Hne & E). injection E as -> ->. done. Qed.
