(* ===== verification/InMemoryAccumulator.v ===== *)
(** * The in-memory Merkle accumulator

    Model of [types/src/proof/accumulator/mod.rs]: the accumulator that keeps
    only the roots of the full subtrees.  [represents] is its abstraction to a
    list of leaves; the theorems show that the constructors and [append] keep
    it and that the root hash is that of the Merkle tree over the leaves. *)

From S2P Require Import Prelude Position Merkle.

Module InMemoryAccumulator.

Record t (HashValue : Type) := mk {
  frozen_subtree_roots : list HashValue;
  num_leaves : Z;
  root_hash : HashValue;
}.
Arguments mk {HashValue} _ _ _.
Arguments frozen_subtree_roots {HashValue} _.
Arguments num_leaves {HashValue} _.
Arguments root_hash {HashValue} _.

Section definitions.
Context {HashValue : Type} `{!MerkleHasher HashValue}.

(** The loop [while bitmap > 0] of [compute_root_hash]. *)
Fixpoint root_loop (fuel : nat) (bitmap : Z) (current_hash : HashValue)
    (frozen_subtree_iter : list HashValue) : result HashValue :=
  match fuel with
  | O => Panic
  | S fuel =>
      if 0 <? bitmap then
        if negb (Z.land bitmap 1 =? 0) then
          match frozen_subtree_iter with
          | [] => Panic
          | root :: iter =>
              root_loop fuel (Z.shiftr bitmap 1) (hash_internal root current_hash) iter
          end
        else
          root_loop fuel (Z.shiftr bitmap 1)
            (hash_internal current_hash ACCUMULATOR_PLACEHOLDER_HASH) frozen_subtree_iter
      else Ok current_hash
  end.

Definition compute_root_hash (frozen_subtree_roots : list HashValue) (num_leaves : Z) :
    result HashValue :=
  match frozen_subtree_roots with
  | [] => Ok ACCUMULATOR_PLACEHOLDER_HASH
  | [root] => Ok root
  | _ =>
      bitmap ← u64_shr num_leaves (trailing_zeros num_leaves);
      root_loop 65 bitmap ACCUMULATOR_PLACEHOLDER_HASH (rev frozen_subtree_roots)
  end.

Definition new (frozen_subtree_roots : list HashValue) (num_leaves : Z) : result (t HashValue) :=
  ensure (Z.of_nat (length frozen_subtree_roots) =? count_ones num_leaves)
    "The number of frozen subtrees does not match the number of leaves.";;
  root_hash ← compute_root_hash frozen_subtree_roots num_leaves;
  Ok (mk frozen_subtree_roots num_leaves root_hash).

Definition new_empty : t HashValue := mk [] 0 ACCUMULATOR_PLACEHOLDER_HASH.

Definition default : result (t HashValue) := unwrap (new [] 0).

(** The loop [for _i in 0..num_trailing_ones] of [append_one]. *)
Fixpoint carry_loop (n : nat) (frozen_subtree_roots : list HashValue) :
    result (list HashValue) :=
  match n with
  | O => Ok frozen_subtree_roots
  | S n =>
      '(right_hash, roots) ← expect (vec_pop frozen_subtree_roots);
      '(left_hash, roots) ← expect (vec_pop roots);
      carry_loop n (vec_push roots (hash_internal left_hash right_hash))
  end.

Definition append_one (frozen_subtree_roots : list HashValue) (num_existing_leaves : Z)
    (leaf : HashValue) : result (list HashValue) :=
  let roots := vec_push frozen_subtree_roots leaf in
  let num_trailing_ones := trailing_zeros (u64_not num_existing_leaves) in
  carry_loop (Z.to_nat num_trailing_ones) roots.

(** The loop over [leaves] of [append]. *)
Fixpoint append_loop (frozen_subtree_roots : list HashValue) (num_leaves : Z)
    (leaves : list HashValue) : result (list HashValue * Z) :=
  match leaves with
  | [] => Ok (frozen_subtree_roots, num_leaves)
  | leaf :: leaves =>
      roots ← append_one frozen_subtree_roots num_leaves leaf;
      n ← u64_add num_leaves 1;
      append_loop roots n leaves
  end.

Definition append (self : t HashValue) (leaves : list HashValue) : result (t HashValue) :=
  '(roots, n) ← append_loop (frozen_subtree_roots self) (num_leaves self) leaves;
  unwrap (new roots n).

Definition from_leaves (leaves : list HashValue) : result (t HashValue) :=
  acc ← default; append acc leaves.

(** The loop [while current_num_leaves & mask != 0] of [append_subtrees]. *)
Fixpoint combine_loop (fuel : nat) (current_num_leaves mask : Z) (current_hash : HashValue)
    (current_subtree_roots : list HashValue) : result (list HashValue * HashValue * Z) :=
  match fuel with
  | O => Panic
  | S fuel =>
      if negb (Z.land current_num_leaves mask =? 0) then
        '(left_hash, roots) ← expect (vec_pop current_subtree_roots);
        mask ← u64_shl mask 1;
        combine_loop fuel current_num_leaves mask (hash_internal left_hash current_hash) roots
      else Ok (current_subtree_roots, current_hash, mask)
  end.

(** The loop [while remaining_new_leaves >= rightmost_frozen_subtree_size]. *)
Fixpoint subtrees_loop (fuel : nat) (current_subtree_roots : list HashValue)
    (current_num_leaves remaining_new_leaves rightmost_frozen_subtree_size : Z)
    (subtree_iter : list HashValue) :
    result (list HashValue * Z * Z * list HashValue) :=
  match fuel with
  | O => Panic
  | S fuel =>
      if rightmost_frozen_subtree_size <=? remaining_new_leaves then
        '(current_hash, subtree_iter) ←
          match subtree_iter with
          | [] => Err "Too few subtrees."
          | h :: iter => Ok (h, iter)
          end;
        '(roots, current_hash, mask) ←
          combine_loop 65 current_num_leaves rightmost_frozen_subtree_size current_hash
            current_subtree_roots;
        let roots := vec_push roots current_hash in
        current ← u64_add current_num_leaves rightmost_frozen_subtree_size;
        remaining ← u64_sub remaining_new_leaves rightmost_frozen_subtree_size;
        subtrees_loop fuel roots current remaining mask subtree_iter
      else Ok (current_subtree_roots, current_num_leaves, remaining_new_leaves, subtree_iter)
  end.

Definition append_subtrees (self : t HashValue) (subtrees : list HashValue)
    (num_new_leaves : Z) : result (t HashValue) :=
  room ← u64_sub MAX_ACCUMULATOR_LEAVES (num_leaves self);
  ensure (num_new_leaves <=? room) "Too many new leaves.";;
  if num_leaves self =? 0 then new subtrees num_new_leaves
  else
    rightmost ← u64_shl 1 (trailing_zeros (num_leaves self));
    '(roots, current, remaining, iter) ←
      subtrees_loop 65 (frozen_subtree_roots self) (num_leaves self) num_new_leaves
        rightmost subtrees;
    current ← u64_add current remaining;
    new (roots ++ iter) current.

Definition version (self : t HashValue) : Z :=
  if num_leaves self =? 0 then 0 else num_leaves self - 1.

Definition is_empty (self : t HashValue) : bool := num_leaves self =? 0.

End definitions.

(** ** The list of leaves an accumulator stands for *)
Section facts.
Context {HashValue : Type} `{!MerkleHasher HashValue}.
Implicit Types (ls new : list HashValue) (acc : t HashValue).

Definition represents acc ls : Prop :=
  num_leaves acc = num ls /\ frozen_subtree_roots acc = frozen_roots ls /\
  root_hash acc = merkle_root ls.

(** The roots as a stack: the smallest subtree on top. *)
Definition stack ls (k : nat) (l m : Z) : list HashValue := hash_at ls <$> frozen_up k l m.

Lemma frozen_roots_stack ls : frozen_roots ls = reverse (stack ls 63 0 (num ls)).
Proof.
  unfold frozen_roots, stack. by rewrite <-fmap_reverse, <-frozen_coords_up, reverse_involutive.
Qed.

Lemma node_succ_level T q : 0 <= T -> node (T + 1) q = 2 * node T q + 1.
Proof. intros. unfold node. rewrite !pow2_succ by lia. lia. Qed.

(** ** Appending a leaf is adding one to a binary counter *)
Lemma carry_stack ls (T k : nat) l q :
  0 <= l -> 0 <= q -> node (Z.of_nat T) q + 1 < 2 ^ Z.of_nat k ->
  (node (Z.of_nat T) q + 1) * 2 ^ l <= num ls ->
  carry_loop T (reverse (hash_at ls (l, node (Z.of_nat T) q) :: stack ls k l (node (Z.of_nat T) q))) =
  Ok (reverse (stack ls k l (node (Z.of_nat T) q + 1))).
Proof.
  revert k l. induction T as [|T IH]; intros k l Hl Hq Hk Hn.
  - rewrite node_0 in *. destruct k as [|k]; [simpl in Hk; lia|].
    cbn [carry_loop]. unfold stack. by rewrite frozen_up_odd, frozen_up_even.
  - replace (Z.of_nat (S T)) with (Z.of_nat T + 1) in * by lia.
    rewrite node_succ_level in * by lia. set (m := node (Z.of_nat T) q) in *.
    assert (0 <= m).
    { subst m. pose proof (node_succ (Z.of_nat T) q ltac:(lia)).
      pose proof (Z.mul_pos_pos (2 * q + 1) (2 ^ Z.of_nat T) ltac:(lia) ltac:(auto with lia)). lia. }
    destruct k as [|k]; [simpl in Hk; lia|].
    replace (Z.of_nat (S k)) with (Z.of_nat k + 1) in Hk by lia. rewrite pow2_succ in Hk by lia.
    unfold stack. replace (2 * m + 1 + 1) with (2 * (m + 1)) by lia.
    rewrite frozen_up_odd, frozen_up_even, !fmap_cons.
    cbn [carry_loop]. rewrite reverse_cons, vec_pop_snoc. cbn [expect]. mstep.
    rewrite reverse_cons, vec_pop_snoc. cbn [expect]. mstep.
    unfold vec_push. rewrite <-hash_at_succ, <-reverse_cons.
    + apply IH; lia || (rewrite pow2_succ; lia).
    + done.
    + rewrite pow2_succ by done. pose proof (pow2_pos l Hl). nia.
Qed.

Lemma stack_app ls new : num ls < 2 ^ 63 ->
  stack ls 63 0 (num ls) = stack (ls ++ new) 63 0 (num ls).
Proof.
  intros Hn. unfold stack. rewrite <-frozen_coords_up. apply list_fmap_ext. intros i [l p] Hi.
  apply list_elem_of_lookup_2 in Hi. rewrite elem_of_reverse in Hi.
  apply frozen_coords_full in Hi as (? & ? & ?); [|unfold num; lia].
  symmetry. apply subtree_app; cbn [fst snd]; rewrite ?Z2Nat.id by lia; lia.
Qed.

Lemma append_one_frozen ls (leaf : HashValue) : num ls + 1 < 2 ^ 63 ->
  append_one (frozen_roots ls) (num ls) leaf = Ok (frozen_roots (ls ++ [leaf])).
Proof.
  intros Hn. set (ls' := ls ++ [leaf]).
  assert (num ls' = num ls + 1) as Hn' by (unfold num, ls'; rewrite length_app; simpl; lia).
  assert (0 <= num ls) by (unfold num; lia).
  pose proof (stack_app ls [leaf] ltac:(lia)) as Hstack. fold ls' in Hstack.
  destruct (as_node (num ls)) as (l & p & Hok & E); [unfold u64_max; lia|].
  unfold append_one. change (trailing_zeros (u64_not (num ls))) with (Position.level (num ls)).
  rewrite E. rewrite level_node by done. destruct (node_bounds _ _ Hok) as (? & ? & ?).
  destruct Hok as (? & ? & ?).
  rewrite !frozen_roots_stack. unfold vec_push. rewrite <-reverse_cons.
  assert (leaf = hash_at ls' (0, num ls)) as Hleaf.
  { unfold hash_at. cbn [fst snd]. rewrite Z2Nat.inj_0, subtree_leaf by lia.
    unfold num, ls'. rewrite Nat2Z.id. by rewrite app_nth2, Nat.sub_diag by lia. }
  rewrite Hleaf, Hstack, Hn', E. rewrite <-(Z2Nat.id l) by done. rewrite Nat2Z.id.
  apply carry_stack; rewrite ?Z2Nat.id by done; rewrite <-?E; lia.
Qed.

(** ** The root hash *)

(** The number of bits of [m]. *)
Definition bit_length (m : Z) : Z := if m =? 0 then 0 else Z.log2 m + 1.

Lemma bit_length_half m : 0 < m -> bit_length m = bit_length (m / 2) + 1.
Proof.
  intros. unfold bit_length. rewrite (proj2 (Z.eqb_neq m 0)) by lia.
  assert (m = 1 \/ 1 < m) as [->|] by lia; [done|].
  assert (0 < m / 2) by (apply Z.div_str_pos; lia).
  rewrite (proj2 (Z.eqb_neq _ 0)) by lia.
  rewrite <-Z.div2_div.
  rewrite Z.div2_spec, Z.log2_shiftr by lia.
  pose proof (Z.log2_pos m ltac:(lia)). lia.
Qed.

Lemma bit0_odd m : negb (Z.land m 1 =? 0) = Z.odd m.
Proof.
  change 1 with (Z.ones 1). rewrite Z.land_ones by done. change (2 ^ 1) with 2.
  rewrite <-Z.bit0_mod, Z.bit0_odd. by destruct (Z.odd m).
Qed.

Lemma root_loop_stack ls (fuel k : nat) l m :
  (k < fuel)%nat -> 0 <= l -> 0 <= m < 2 ^ Z.of_nat k ->
  m * 2 ^ l <= num ls <= (m + 1) * 2 ^ l ->
  (Z.odd m = true \/ m * 2 ^ l < num ls) ->
  root_loop fuel m (hash_at ls (l, m)) (stack ls k l m) = Ok (hash_at ls (l + bit_length m, 0)).
Proof.
  revert k l m. induction fuel as [|fuel IH]; intros k l m Hfuel Hl Hm Hn Hpart; [lia|].
  cbn [root_loop]. destruct (Z.ltb_spec 0 m) as [Hpos|].
  2: { assert (m = 0) as -> by lia. by rewrite Z.add_0_r. }
  destruct k as [|k]; [simpl in Hm; lia|].
  replace (Z.of_nat (S k)) with (Z.of_nat k + 1) in Hm by lia. rewrite pow2_succ in Hm by lia.
  pose proof (pow2_pos l Hl). pose proof (pow2_succ l Hl) as E.
  rewrite bit0_odd, Z.shiftr_div_pow2, Z.pow_1_r by lia.
  rewrite (bit_length_half m), Z.add_comm, <-Z.add_assoc, Z.add_comm by lia.
  rewrite (Z.add_comm 1 l). unfold stack.
  destruct (Z.odd m) eqn:Hodd.
  - apply Z.odd_spec in Hodd as [q ->]. rewrite (div2_odd _ q) by done.
    rewrite frozen_up_odd, fmap_cons, <-hash_at_succ by (rewrite ?E; lia).
    apply IH; rewrite ?E; lia.
  - rewrite <-Z.negb_even in Hodd. apply negb_false_iff, Z.even_spec in Hodd as [q ->].
    rewrite (div2_even _ q), frozen_up_even by done. destruct Hpart as [Hpart|Hpart].
    { done. }
    rewrite <-(hash_at_placeholder ls l (2 * q + 1)), <-hash_at_succ by (rewrite ?E; lia).
    apply IH; rewrite ?E; lia.
Qed.

Lemma compute_root_hash_long (roots : list HashValue) n : (2 <= length roots)%nat ->
  compute_root_hash roots n =
    (bitmap ← u64_shr n (trailing_zeros n);
     root_loop 65 bitmap ACCUMULATOR_PLACEHOLDER_HASH (rev roots)).
Proof. intros Hlen. destruct roots as [|? [|? ?]]; cbn [length] in Hlen; [lia|lia|reflexivity]. Qed.

Lemma compute_root_hash_frozen ls : num ls < 2 ^ 63 ->
  compute_root_hash (frozen_roots ls) (num ls) = Ok (merkle_root ls).
Proof.
  intros Hn. assert (0 <= num ls) by (unfold num; lia).
  destruct (Z.eq_dec (num ls) 0) as [E|].
  { apply (f_equal Z.to_nat) in E. unfold num in E. rewrite Nat2Z.id in E.
    by destruct ls. }
  destruct (odd_decomposition (num ls) ltac:(lia)) as (T & q & HT & Hq & E).
  assert (T < 63).
  { apply (Z.pow_lt_mono_r_iff 2); [lia..|]. nia. }
  assert (q < 2 ^ (63 - T - 1)).
  { assert (2 ^ (63 - T - 1) * (2 * 2 ^ T) = 2 ^ 63).
    { rewrite <-pow2_succ, <-Z.pow_add_r by lia. f_equal. lia. }
    pose proof (pow2_pos T HT). nia. }
  set (T' := Z.to_nat T). assert (T = Z.of_nat T') as ET by lia.
  assert (stack ls 63 0 (num ls) = hash_at ls (T, 2 * q) :: stack ls (62 - T') (T + 1) q) as Hst.
  { unfold stack. replace 63%nat with (T' + S (62 - T'))%nat by lia.
    by rewrite E, ET, frozen_up_shift, frozen_up_odd, Z.add_0_l, <-ET by lia. }
  pose proof (pow2_pos T HT).
  rewrite frozen_roots_stack. destruct (Z.eq_dec q 0) as [->|].
  - rewrite Hst. assert (stack ls (62 - T') (T + 1) 0 = []) as ->.
    { apply length_zero_iff_nil. unfold stack. rewrite length_fmap.
      pose proof (length_frozen_up (62 - T') (T + 1) 0 ltac:(auto with lia)) as Hlen.
      change (count_ones 0) with 0 in Hlen. lia. }
    cbn [compute_root_hash reverse rev_append]. f_equal. unfold merkle_root.
    by rewrite E, Z.mul_0_r, Z.mul_1_l, Z.log2_up_pow2 by done.
  - rewrite compute_root_hash_long.
    2: { rewrite length_reverse, Hst. cbn [length]. unfold stack. rewrite length_fmap.
         pose proof (length_frozen_up (62 - T') (T + 1) q
           ltac:(replace (Z.of_nat (62 - T')) with (63 - T - 1) by lia; lia)).
         pose proof (count_ones_pos q ltac:(lia)). lia. }
    rewrite (trailing_zeros_spec _ T q) by done. rewrite u64_shr_Ok by lia. mstep.
    assert (num ls / 2 ^ T = 2 * q + 1) as -> by (rewrite E; apply Z.div_mul; lia).
    rewrite rev_reverse, reverse_involutive.
    assert (stack ls 63 0 (num ls) = stack ls (63 - T') T (2 * q + 1)) as ->.
    { rewrite Hst. replace (63 - T')%nat with (S (62 - T')) by lia. unfold stack.
      by rewrite frozen_up_odd. }
    rewrite <-(hash_at_placeholder ls T (2 * q + 1)) by lia.
    rewrite (root_loop_stack ls 65 (63 - T')); [| |done| | |].
    + f_equal. unfold merkle_root, hash_at. cbn [fst snd]. do 2 f_equal.
      rewrite E, Z.log2_up_mul_pow2, Z.log2_up_succ_double by lia.
      unfold bit_length. rewrite (proj2 (Z.eqb_neq _ 0)), Z.log2_succ_double by lia. lia.
    + lia.
    + replace (Z.of_nat (63 - T')) with (63 - T - 1 + 1) by lia. rewrite pow2_succ by lia. lia.
    + lia.
    + left. by rewrite Z.odd_add, Z.odd_mul.
Qed.

Lemma new_frozen ls : num ls < 2 ^ 63 ->
  new (frozen_roots ls) (num ls) = Ok (mk (frozen_roots ls) (num ls) (merkle_root ls)).
Proof.
  intros Hn. unfold new.
  rewrite ensure_true, compute_root_hash_frozen by
    (done || (apply Z.eqb_eq; unfold frozen_roots; rewrite length_fmap;
              apply length_frozen_coords; unfold num in *; lia)).
  done.
Qed.

Lemma append_loop_frozen ls new : num ls + num new < 2 ^ 63 ->
  append_loop (frozen_roots ls) (num ls) new = Ok (frozen_roots (ls ++ new), num (ls ++ new)).
Proof.
  revert ls. induction new as [|x new IH]; intros ls Hn; [by rewrite app_nil_r|].
  unfold num in Hn. cbn [length] in Hn. cbn [append_loop].
  rewrite append_one_frozen by (unfold num; lia). mstep.
  rewrite u64_add_Ok by (unfold num; lia). mstep.
  replace (num ls + 1) with (num (ls ++ [x])) by (unfold num; rewrite length_app; simpl; lia).
  rewrite IH by (unfold num; rewrite length_app; simpl; lia). by rewrite <-app_assoc.
Qed.

(** ** Appending whole subtrees *)

(** Combining a subtree with those of its size and above carries like adding one. *)
Lemma combine_stack ls c (fuel k : nat) l m :
  (k < fuel)%nat -> 0 <= l -> l + Z.of_nat k = 63 -> 0 <= m -> m + 1 < 2 ^ Z.of_nat k ->
  c / 2 ^ l = m -> (m + 1) * 2 ^ l <= num ls ->
  exists roots h T q,
    combine_loop fuel c (2 ^ l) (hash_at ls (l, m)) (reverse (stack ls k l m)) =
      Ok (roots, h, 2 ^ (l + T)) /\
    roots ++ [h] = reverse (stack ls k l (m + 1)) /\
    0 <= T /\ 0 <= q /\ m + 1 = (2 * q + 1) * 2 ^ T.
Proof.
  revert k l m. induction fuel as [|fuel IH]; intros k l m Hfuel Hl Hk Hm Hmk Hc Hn; [lia|].
  destruct k as [|k]; [simpl in Hmk; lia|].
  replace (Z.of_nat (S k)) with (Z.of_nat k + 1) in * by lia. rewrite pow2_succ in Hmk by lia.
  cbn [combine_loop].
  assert (negb (Z.land c (2 ^ l) =? 0) = Z.odd m) as ->.
  { rewrite <-Hc, <-Z.shiftr_div_pow2, <-Z.testbit_odd by done.
    assert (Z.land c (2 ^ l) = if Z.testbit c l then 2 ^ l else 0) as ->.
    { apply Z.bits_inj'. intros i Hi. rewrite Z.land_spec, testbit_pow2 by done.
      destruct (Z.testbit c l) eqn:E; rewrite ?testbit_pow2, ?Z.testbit_0_l by done; zcases; congruence. }
    destruct (Z.testbit c l); [|done]. apply negb_true_iff, Z.eqb_neq.
    pose proof (pow2_pos l Hl). lia. }
  destruct (Z.odd m) eqn:Hodd.
  - apply Z.odd_spec in Hodd as [q ->]. unfold stack at 1. rewrite frozen_up_odd, fmap_cons, reverse_cons.
    rewrite vec_pop_snoc. cbn [expect]. mstep. rewrite u64_shl_pow2 by lia. mstep.
    fold (stack ls k (l + 1) q).
    rewrite <-hash_at_succ by (rewrite ?pow2_succ by done; pose proof (pow2_pos l Hl); nia).
    destruct (IH k (l + 1) q) as (roots & h & T & q' & -> & Hr & HT & Hq & E);
      [lia..| | |].
    + by rewrite div_pow2_succ, Hc, (div2_odd _ q).
    + rewrite pow2_succ by done. lia.
    + exists roots, h, (T + 1), q'. split_and!; [do 2 f_equal; f_equal; lia| |lia|done|].
      * rewrite Hr. unfold stack. replace (2 * q + 1 + 1) with (2 * (q + 1)) by lia.
        by rewrite frozen_up_even.
      * rewrite pow2_succ by done. lia.
  - rewrite <-Z.negb_even in Hodd. apply negb_false_iff, Z.even_spec in Hodd as [q ->].
    exists (reverse (stack ls (S k) l (2 * q))), (hash_at ls (l, 2 * q)), 0, q.
    rewrite Z.add_0_r. split_and!; [done| |done|lia|lia].
    unfold stack. rewrite frozen_up_odd, frozen_up_even, fmap_cons, reverse_cons. done.
Qed.

Lemma stack_shift ls c t m : 0 <= t < 63 -> 0 <= m -> c = m * 2 ^ t ->
  stack ls 63 0 c = stack ls (63 - Z.to_nat t) t m.
Proof.
  intros Ht Hm ->. unfold stack. replace 63%nat with (Z.to_nat t + (63 - Z.to_nat t))%nat at 1 by lia.
  pose proof (frozen_up_shift (Z.to_nat t) (63 - Z.to_nat t) 0 m Hm) as E.
  rewrite Z2Nat.id, Z.add_0_l in E by lia. by rewrite E.
Qed.

(** The phase in which new subtrees are merged into existing ones. *)
Lemma subtrees_loop_stack ls (fuel sfuel : nat) c r t q :
  0 <= t -> 0 <= q -> c = (2 * q + 1) * 2 ^ t -> 0 <= r -> c + r = num ls -> num ls < 2 ^ 63 ->
  63 - t < Z.of_nat fuel -> (64 + (64 - Z.to_nat t) <= sfuel)%nat ->
  exists c' r' (sfuel' : nat),
    subtrees_loop fuel (reverse (stack ls 63 0 c)) c r (2 ^ t) (hash_at ls <$> sibling_coords sfuel c r) =
      Ok (reverse (stack ls 63 0 c'), c', r', hash_at ls <$> sibling_coords sfuel' c' r') /\
    0 < c' /\ 0 <= r' /\ c' + r' = num ls /\ (0 < r' -> (2 ^ (Z.log2 r' + 1) | c')) /\ (64 <= sfuel')%nat.
Proof.
  revert c r t q sfuel. induction fuel as [|fuel IH];
    intros c r t q sfuel Ht Hq Hc Hr Hcr Hn Hfuel Hsfuel.
  { pose proof (pow2_pos t Ht). assert (t < 63); [|lia]. apply (Z.pow_lt_mono_r_iff 2); [lia..|]. nia. }
  pose proof (pow2_pos t Ht). assert (t < 63) by (apply (Z.pow_lt_mono_r_iff 2); [lia..|]; nia).
  cbn [subtrees_loop]. destruct (Z.leb_spec (2 ^ t) r) as [Hle|Hlt].
  - destruct sfuel as [|sfuel]; [lia|]. cbn [sibling_coords].
    rewrite (proj2 (Z.eqb_neq r 0)), (trailing_zeros_spec c t q) by (done || lia).
    rewrite (proj2 (Z.ltb_lt 0 c)), (proj2 (Z.leb_le _ _)) by nia. cbn [andb].
    rewrite fmap_cons. mstep.
    assert (c / 2 ^ t = 2 * q + 1) as Em by (rewrite Hc; apply Z.div_mul; lia). rewrite Em.
    rewrite (stack_shift ls c t (2 * q + 1)) by lia.
    assert (2 ^ Z.of_nat (63 - Z.to_nat t) * 2 ^ t = 2 ^ 63)
      by (rewrite <-Z.pow_add_r by lia; f_equal; lia).
    destruct (combine_stack ls c 65 (63 - Z.to_nat t) t (2 * q + 1))
      as (roots & h & T & q' & -> & Hroots & HT & Hq' & E'); [lia|lia|lia|lia|nia|done|lia|].
    mstep. rewrite u64_add_Ok, u64_sub_Ok by lia. mstep. unfold vec_push. rewrite Hroots.
    rewrite <-(stack_shift ls (c + 2 ^ t) t (2 * q + 1 + 1)) by lia.
    assert (0 < T).
    { destruct (Z.eq_dec T 0) as [->|]; [|lia]. rewrite Z.pow_0_r in E'. lia. }
    destruct (IH (c + 2 ^ t) (r - 2 ^ t) (t + T) q' sfuel) as (c' & r' & sf & -> & ?);
      [lia|lia| |lia|lia|lia|lia|lia|by exists c', r', sf].
    rewrite Z.pow_add_r by lia. rewrite Hc. transitivity ((2 * q + 1 + 1) * 2 ^ t); [lia|].
    rewrite E'. ring.
  - exists c, r, sfuel. split_and!; [done|nia|done|done| |lia].
    intros Hr0. assert (Z.log2 r < t) by (apply Z.log2_lt_pow2; lia). pose proof (Z.log2_nonneg r).
    exists ((2 * q + 1) * 2 ^ (t - (Z.log2 r + 1))).
    rewrite <-Z.mul_assoc, <-Z.pow_add_r by lia. rewrite Hc. do 2 f_equal. lia.
Qed.

#[local] Opaque subtrees_loop combine_loop root_loop sibling_coords.

Lemma append_subtrees_frozen ls new acc : represents acc ls -> num ls + num new < 2 ^ 63 ->
  append_subtrees acc (hash_at (ls ++ new) <$> sibling_coords 128 (num ls) (num new)) (num new) =
  Ok (mk (frozen_roots (ls ++ new)) (num (ls ++ new)) (merkle_root (ls ++ new))).
Proof.
  intros (Hn & Hroots & _) Hlt. set (ls' := ls ++ new).
  assert (num ls' = num ls + num new) as Hn' by (unfold num, ls'; rewrite length_app; lia).
  assert (0 <= num ls) by (unfold num; lia). assert (0 <= num new) by (unfold num; lia).
  unfold append_subtrees. rewrite Hn. change MAX_ACCUMULATOR_LEAVES with (2 ^ 63).
  rewrite u64_sub_Ok by lia. mstep. rewrite ensure_true by (apply Z.leb_le; lia). mstep.
  destruct (Z.eqb_spec (num ls) 0) as [E|].
  - rewrite E in *. pose proof (frozen_coords_tail 128 0 (num new)) as Ht.
    cbn [app] in Ht. change (frozen_coords 0) with (@nil (Z * Z)) in Ht. cbn [app] in Ht.
    rewrite Ht, Z.add_0_l; [|done| |lia|intros; apply Z.divide_0_r].
    + rewrite Z.add_0_l in Hn'. rewrite <-Hn'. apply new_frozen. lia.
    + pose proof (pow2_le_mono 63 (Z.of_nat 128 - 1) ltac:(lia)). lia.
  - destruct (odd_decomposition (num ls) ltac:(lia)) as (t & q & Ht & Hq & E).
    pose proof (pow2_pos t Ht). assert (t < 63) by (apply (Z.pow_lt_mono_r_iff 2); [lia..|]; nia).
    rewrite (trailing_zeros_spec _ t q) by done.
    rewrite <-(Z.pow_0_r 2) at 1. rewrite u64_shl_pow2, Z.add_0_l by lia. mstep.
    rewrite Hroots, frozen_roots_stack.
    replace (stack ls 63 0 (num ls)) with (stack ls' 63 0 (num ls)).
    2: { symmetry. apply stack_app. lia. }
    destruct (subtrees_loop_stack ls' 65 128 (num ls) (num new) t q)
      as (c & r & sf & -> & Hc & Hr & Hcr & Hdiv & Hsf); [done..|lia|lia|lia|lia|].
    mstep. rewrite u64_add_Ok by lia. mstep.
    assert (reverse (stack ls' 63 0 c) ++ (hash_at ls' <$> sibling_coords sf c r) = frozen_roots ls')
      as ->.
    { unfold stack, frozen_roots.
      rewrite <-fmap_reverse, <-frozen_coords_up, reverse_involutive, <-fmap_app.
      rewrite frozen_coords_tail; [by rewrite Hcr|lia| |lia|done].
      pose proof (pow2_le_mono 63 (Z.of_nat sf - 1) ltac:(lia)). lia. }
    rewrite Hcr. apply new_frozen. lia.
Qed.

(** ** Equal results come from equal inputs, up to a collision *)
Lemma append_of_represented acc ls new : represents acc ls -> num ls + num new < 2 ^ 63 ->
  exists acc', append acc new = Ok acc' /\ represents acc' (ls ++ new).
Proof.
  intros (Hn & Hr & _) Hlt. unfold append. rewrite Hn, Hr, append_loop_frozen by done. mstep.
  rewrite new_frozen by (unfold num in *; rewrite length_app; lia).
  eexists. split; [reflexivity|]. done.
Qed.

Section injectivity.
Context `{!EqDecision HashValue}.
#[local] Transparent subtrees_loop combine_loop root_loop.

Lemma vec_pop_Some {A} (v : list A) x r : vec_pop v = Some (x, r) -> v = r ++ [x].
Proof.
  unfold vec_pop. intros E. destruct (rev v) as [|y w] eqn:Ev; [done|]. injection E as -> <-.
  rewrite <-(rev_involutive v), Ev. done.
Qed.

Lemma root_loop_inj (fuel : nat) m (c c' h : HashValue) s s' :
  length s = length s' -> Z.of_nat (length s) = count_ones m -> 0 <= m ->
  root_loop fuel m c s = Ok h -> root_loop fuel m c' s' = Ok h ->
  (c = c' /\ s = s') \/ collision (HashValue:=HashValue).
Proof.
  revert m c c' s s'. induction fuel as [|fuel IH]; intros m c c' s s' Hlen Hones Hm H1 H2; [done|].
  cbn [root_loop] in H1, H2. rewrite bit0_odd, Z.shiftr_div_pow2, Z.pow_1_r in H1, H2 by done.
  destruct (Z.ltb_spec 0 m) as [Hpos|].
  2: { assert (m = 0) as -> by lia. change (count_ones 0) with 0 in Hones.
       destruct s, s'; simpl in *; try lia. left. split; [congruence|done]. }
  destruct (Z.odd m) eqn:Hodd.
  - apply Z.odd_spec in Hodd as [q ->]. rewrite (div2_odd _ q) in H1, H2 by done.
    rewrite count_ones_double_succ in Hones by lia.
    destruct s as [|x s], s' as [|x' s']; [done..|]. cbn [length] in *.
    destruct (IH q _ _ s s' ltac:(lia) ltac:(lia) ltac:(lia) H1 H2) as [[E ->]|]; [|by right].
    apply hash_internal_inj in E as [[-> ->]|]; [by left|by right].
  - rewrite <-Z.negb_even in Hodd. apply negb_false_iff, Z.even_spec in Hodd as [q ->].
    rewrite (div2_even _ q) in H1, H2 by done. rewrite count_ones_double in Hones by lia.
    destruct (IH q _ _ s s' ltac:(lia) ltac:(lia) ltac:(lia) H1 H2) as [[E ->]|]; [|by right].
    apply hash_internal_inj in E as [[-> _]|]; [by left|by right].
Qed.

#[local] Opaque root_loop.

Lemma new_inj roots roots' n acc acc' : 0 <= n ->
  new roots n = Ok acc -> new roots' n = Ok acc' -> root_hash acc = root_hash acc' ->
  roots = roots' \/ collision (HashValue:=HashValue).
Proof.
  unfold new, compute_root_hash. intros Hn H1 H2 Hroot.
  apply bind_Ok in H1 as ([] & Hc1 & H1). apply bind_Ok in H2 as ([] & Hc2 & H2).
  apply ensure_Ok in Hc1, Hc2. zbool.
  apply bind_Ok in H1 as (h1 & H1 & [= <-]). apply bind_Ok in H2 as (h2 & H2 & [= <-]).
  cbn [root_hash] in Hroot. subst h2.
  destruct roots as [|x [|y r]], roots' as [|x' [|y' r']]; simpl in Hc1, Hc2; try lia.
  - by left.
  - left. congruence.
  - apply bind_Ok in H1 as (m & Hm & H1). rewrite Hm in H2. cbn [mbind outcome_bind] in H2.
    unfold u64_shr in Hm. case_ifs; [|done]. injection Hm as <-. rewrite !rev_reverse in H1, H2.
    destruct (odd_decomposition n) as (T & q & HT & Hq & E).
    { destruct (Z.eq_dec n 0) as [->|]; [|lia]. change (count_ones 0) with 0 in *. lia. }
    rewrite (trailing_zeros_spec n T q), Z.shiftr_div_pow2 in H1, H2 by done.
    assert (n / 2 ^ T = 2 * q + 1) as En by (rewrite E; apply Z.div_mul, Z.pow_nonzero; lia).
    rewrite En in H1, H2. rewrite E, count_ones_shift in Hc1, Hc2 by lia.
    edestruct root_loop_inj as [[_ Es]|]; [| | |exact H1|exact H2| |by right].
    + rewrite !length_reverse. simpl. lia.
    + rewrite length_reverse. simpl. lia.
    + lia.
    + left. by apply (inj reverse).
Qed.

Lemma combine_loop_inj (fuel : nat) c m (h h' k : HashValue) s s' r mask :
  combine_loop fuel c m h s = Ok (r, k, mask) -> combine_loop fuel c m h' s' = Ok (r, k, mask) ->
  (h = h' /\ s = s') \/ collision (HashValue:=HashValue).
Proof.
  revert m h h' s s'. induction fuel as [|fuel IH]; intros m h h' s s' H1 H2; [done|].
  cbn [combine_loop] in H1, H2. destruct (negb _).
  - destruct (vec_pop s) as [[x v]|] eqn:Ex; [|done].
    destruct (vec_pop s') as [[x' v']|] eqn:Ex'; [|done]. cbn [expect mbind outcome_bind] in H1, H2.
    apply vec_pop_Some in Ex, Ex'. destruct (u64_shl m 1); [|done..].
    cbn [mbind outcome_bind] in H1, H2.
    destruct (IH _ _ _ _ _ H1 H2) as [[E ->]|]; [|by right].
    apply hash_internal_inj in E as [[-> ->]|]; [|by right]. left. by subst.
  - injection H1 as -> -> ->. injection H2 as -> ->. by left.
Qed.

Lemma combine_loop_mask (fuel : nat) c m (h h' : HashValue) s s' o o' :
  combine_loop fuel c m h s = Ok o -> combine_loop fuel c m h' s' = Ok o' ->
  o.2 = o'.2 /\ (length s = length s' -> length o.1.1 = length o'.1.1).
Proof.
  revert m h h' s s'. induction fuel as [|fuel IH]; intros m h h' s s' H1 H2; [done|].
  cbn [combine_loop] in H1, H2. destruct (negb _); [|by simplify_eq].
  destruct (vec_pop s) as [[x v]|] eqn:Ex; [|done].
  destruct (vec_pop s') as [[x' v']|] eqn:Ex'; [|done].
  apply vec_pop_Some in Ex, Ex'. subst s s'.
  cbn [expect mbind outcome_bind] in H1, H2. destruct (u64_shl m 1); [|done..].
  destruct (IH _ _ _ _ _ H1 H2) as [Hm Hl]. split; [done|].
  rewrite !length_app. cbn [length]. intros. apply Hl. lia.
Qed.

#[local] Opaque combine_loop.

Lemma subtrees_loop_inj (fuel : nat) c r t s s' it it' o o' :
  subtrees_loop fuel s c r t it = Ok o -> subtrees_loop fuel s' c r t it' = Ok o' ->
  o.1.1.2 + o.1.2 = c + r /\ o.1.1.2 = o'.1.1.2 /\ o.1.2 = o'.1.2 /\
  (length s = length s' -> length o.1.1.1 = length o'.1.1.1) /\
  (o.1.1.1 = o'.1.1.1 -> o.2 = o'.2 -> (s = s' /\ it = it') \/ collision (HashValue:=HashValue)).
Proof.
  revert c r t s s' it it'. induction fuel as [|fuel IH]; intros c r t s s' it it' H1 H2; [done|].
  cbn [subtrees_loop] in H1, H2. destruct (t <=? r).
  2: { injection H1 as <-. injection H2 as <-. split_and!; [done..|]. intros. by left. }
  destruct it as [|h it]; [done|]. destruct it' as [|h' it']; [done|].
  cbn [mbind outcome_bind] in H1, H2.
  destruct (combine_loop 65 c t h s) as [[[ro k] mask]|e|] eqn:E1; [|done..].
  destruct (combine_loop 65 c t h' s') as [[[ro' k'] mask']|e'|] eqn:E2; [|done..].
  pose proof (combine_loop_mask _ _ _ _ _ _ _ _ _ E1 E2) as [Em Hl].
  cbn [fst snd] in Em, Hl. subst mask'.
  cbn [mbind outcome_bind] in H1, H2. destruct (u64_add c t) as [c2| |] eqn:Ec; [|done..].
  cbn [mbind outcome_bind] in H1, H2. destruct (u64_sub r t) as [r2| |] eqn:Er; [|done..].
  cbn [mbind outcome_bind] in H1, H2. unfold u64_add, u64_sub in Ec, Er. case_ifs; simplify_eq.
  destruct (IH _ _ _ _ _ _ _ H1 H2) as (Hsum & Ha & Hb & Hlen & Hc). split_and!; [lia|done..| |].
  { intros. apply Hlen. unfold vec_push. rewrite !length_app. simpl. rewrite Hl; done. }
  intros Hd He.
  destruct (Hc Hd He) as [[Hs ->]|]; [|by right].
  unfold vec_push in Hs. apply app_inj_tail in Hs as [-> ->].
  destruct (combine_loop_inj _ _ _ _ _ _ _ _ _ _ E1 E2) as [[-> ->]|]; [by left|by right].
Qed.

#[local] Opaque subtrees_loop.

Lemma append_subtrees_inj acc acc' s s' k a a' :
  num_leaves acc = num_leaves acc' -> 0 <= num_leaves acc -> 0 <= k ->
  length (frozen_subtree_roots acc) = length (frozen_subtree_roots acc') ->
  (num_leaves acc = 0 -> frozen_subtree_roots acc = []) ->
  append_subtrees acc s k = Ok a -> append_subtrees acc' s' k = Ok a' -> root_hash a = root_hash a' ->
  (frozen_subtree_roots acc = frozen_subtree_roots acc' /\ s = s') \/ collision (HashValue:=HashValue).
Proof.
  unfold append_subtrees. intros Hn Hn0 Hk Hlen Hempty H1 H2 Hroot. rewrite <-Hn in H2.
  destruct (u64_sub _ _); [|done..]. cbn [mbind outcome_bind] in H1, H2.
  destruct (ensure _ _); [|done..]. cbn [mbind outcome_bind] in H1, H2.
  destruct (Z.eqb_spec (num_leaves acc) 0) as [E0|].
  { rewrite Hempty in * by done. destruct (frozen_subtree_roots acc'); [|done].
    destruct (new_inj _ _ _ _ _ Hk H1 H2 Hroot) as [->|]; [by left|by right]. }
  destruct (u64_shl _ _) as [t| |]; [|done..]. cbn [mbind outcome_bind] in H1, H2.
  destruct (subtrees_loop _ _ _ _ _ s) as [[[[ro c] r] it]| |] eqn:E1; [|done..].
  destruct (subtrees_loop _ _ _ _ _ s') as [[[[ro' c'] r'] it']| |] eqn:E2; [|done..].
  destruct (subtrees_loop_inj _ _ _ _ _ _ _ _ _ _ E1 E2) as (Hsum & Hc & Hr & Hl & Hinj).
  cbn [fst snd] in Hsum, Hc, Hr, Hl, Hinj. subst c' r'. cbn [mbind outcome_bind] in H1, H2.
  unfold u64_add in *. destruct (_ <? _); [|done]. cbn [mbind outcome_bind] in H1, H2.
  assert (0 <= c + r) as Hcr by lia.
  destruct (new_inj _ _ _ _ _ Hcr H1 H2 Hroot) as [E|]; [|by right].
  apply app_inj_1 in E as [-> ->]; [|by apply Hl]. by apply Hinj.
Qed.
Lemma append_subtrees_ext acc acc' s k : num_leaves acc = num_leaves acc' ->
  frozen_subtree_roots acc = frozen_subtree_roots acc' ->
  append_subtrees acc s k = append_subtrees acc' s k.
Proof. unfold append_subtrees. by intros -> ->. Qed.

Lemma append_subtrees_extends acc acc' ls ls' s k :
  represents acc ls -> 0 <= k -> num ls' = num ls + k -> num ls' < 2 ^ 63 ->
  append_subtrees acc s k = Ok acc' -> root_hash acc' = merkle_root ls' ->
  (exists new, ls' = ls ++ new /\ represents acc' ls') \/ collision (HashValue:=HashValue).
Proof.
  intros Hacc Hk Hn Hlt Hok Hroot.
  set (pre := take (length ls) ls'). set (suf := drop (length ls) ls').
  assert (ls' = pre ++ suf) as Hls by (symmetry; apply take_drop).
  assert (num pre = num ls) as Hpre by (unfold num, pre in *; rewrite length_take; lia).
  assert (num suf = k) as Hsuf by (unfold num, suf in *; rewrite length_drop; lia).
  assert (represents (mk (frozen_roots pre) (num pre) (merkle_root pre)) pre) as Hp by done.
  pose proof (append_subtrees_frozen pre suf _ Hp ltac:(lia)) as Hf.
  rewrite <-Hls, Hsuf in Hf. destruct Hacc as (En & Er & _).
  assert (0 <= num ls) by (unfold num; lia).
  edestruct append_subtrees_inj as [[E Es]|];
    [| |exact Hk| | |exact Hok|exact Hf|exact Hroot| |by right]; [|lia|..].
  { cbn [num_leaves]. congruence. }
  { rewrite Er. cbn [frozen_subtree_roots]. unfold frozen_roots. by rewrite !length_fmap, Hpre. }
  { intros E0. rewrite Er. unfold frozen_roots. by rewrite <-En, E0. }
  rewrite (append_subtrees_ext acc (mk (frozen_roots pre) (num pre) (merkle_root pre))), Es, Hf in Hok
    by (exact E || cbn [num_leaves]; congruence). injection Hok as <-.
  rewrite Er in E. cbn in E.
  destruct (frozen_roots_inj _ _ (eq_sym Hpre) ltac:(lia) E) as [E2|]; [|by right].
  left. exists suf. split; [congruence|done].
Qed.
Lemma carry_loop_inj (n : nat) roots roots' r :
  carry_loop n roots = Ok r -> carry_loop n roots' = Ok r ->
  roots = roots' \/ collision (HashValue:=HashValue).
Proof.
  revert roots roots'. induction n as [|n IH]; intros roots roots' H1 H2; cbn [carry_loop] in H1, H2.
  { left. congruence. }
  destruct (vec_pop roots) as [[a s]|] eqn:E1; [|done]. cbn [expect mbind outcome_bind] in H1.
  destruct (vec_pop s) as [[b s1]|] eqn:E2; [|done]. cbn [expect mbind outcome_bind] in H1.
  destruct (vec_pop roots') as [[a' s']|] eqn:E1'; [|done]. cbn [expect mbind outcome_bind] in H2.
  destruct (vec_pop s') as [[b' s1']|] eqn:E2'; [|done]. cbn [expect mbind outcome_bind] in H2.
  apply vec_pop_Some in E1, E2, E1', E2'. subst.
  destruct (IH _ _ H1 H2) as [E|]; [|by right]. unfold vec_push in E.
  apply app_inj_tail in E as [-> E]. apply hash_internal_inj in E as [[-> ->]|]; by (left + right).
Qed.

Lemma append_loop_inj roots roots' n leaves leaves' r :
  length leaves = length leaves' ->
  append_loop roots n leaves = Ok r -> append_loop roots' n leaves' = Ok r ->
  (roots = roots' /\ leaves = leaves') \/ collision (HashValue:=HashValue).
Proof.
  revert roots roots' n leaves'. induction leaves as [|x leaves IH];
    intros roots roots' n [|x' leaves'] Hl H1 H2; try done; cbn [append_loop length] in *.
  { left. split; congruence. }
  apply bind_Ok in H1 as (r1 & C1 & H1). apply bind_Ok in H2 as (r1' & C2 & H2).
  destruct (u64_add n 1) as [m| |]; [|done..]. cbn [mbind outcome_bind] in H1, H2.
  injection Hl as Hl. destruct (IH _ _ _ _ Hl H1 H2) as [[-> ->]|]; [|by right].
  destruct (carry_loop_inj _ _ _ _ C1 C2) as [E|]; [|by right].
  unfold vec_push in E. apply app_inj_tail in E as [-> ->]. by left.
Qed.

Lemma append_loop_num roots n leaves r :
  append_loop roots n leaves = Ok r -> r.2 = n + num leaves.
Proof.
  revert roots n. induction leaves as [|x leaves IH]; intros roots n H; cbn [append_loop] in H.
  { injection H as <-. unfold num. cbn. lia. }
  apply bind_Ok in H as (r1 & _ & H). apply bind_Ok in H as (m & Hm & H).
  unfold u64_add in Hm. case_ifs; [|done]. injection Hm as <-. apply IH in H. unfold num in *.
  cbn [length]. lia.
Qed.

(** Appending to an accumulator that was built from unknown roots: when the
    result has the root of a tree, the roots are those of a prefix of it. *)
Lemma append_extracts acc acc' ls (leaves : list HashValue) roots n :
  new roots n = Ok acc -> 0 <= n -> append acc leaves = Ok acc' ->
  num ls = n + num leaves -> num ls < 2 ^ 63 -> root_hash acc' = merkle_root ls ->
  (roots = frozen_roots (take (Z.to_nat n) ls) /\ leaves = drop (Z.to_nat n) ls) \/
  collision (HashValue:=HashValue).
Proof.
  intros Hnew Hn Happ Hnum Hlt Hroot. set (pre := take (Z.to_nat n) ls). set (suf := drop (Z.to_nat n) ls).
  assert (ls = pre ++ suf) as Hls by (symmetry; apply take_drop).
  assert (0 <= num leaves) by (unfold num; lia).
  assert (num pre = n) as Hpre by (unfold num, pre in *; rewrite length_take; lia).
  assert (num suf = num leaves) as Hsuf by (unfold num, suf in *; rewrite length_drop; lia).
  unfold new in Hnew. apply bind_Ok in Hnew as ([] & _ & Hnew). apply bind_Ok in Hnew as (h & _ & Hnew).
  injection Hnew as <-. unfold append in Happ. cbn [frozen_subtree_roots num_leaves] in Happ.
  apply bind_Ok in Happ as ([r m] & Hloop & Happ).
  pose proof (append_loop_num _ _ _ _ Hloop) as Hm. cbn in Hm. subst m.
  assert (new r (n + num leaves) = Ok acc') as Hr by (destruct (new r _); done).
  pose proof (new_frozen ls Hlt) as Hf. rewrite Hnum in Hf.
  assert (0 <= n + num leaves) as Hnn by lia.
  destruct (new_inj _ _ _ _ _ Hnn Hr Hf Hroot) as [->|]; [|by right].
  pose proof (append_loop_frozen pre suf ltac:(lia)) as Hl2. rewrite <-Hls, Hpre, Hnum in Hl2.
  assert (length leaves = length suf) as Hlen by (unfold num in Hsuf; lia).
  destruct (append_loop_inj _ _ _ _ _ _ Hlen Hloop Hl2) as [[-> ->]|];
    by (left + right).
Qed.
End injectivity.
End facts.

(** ** The accumulator implements a list of leaves *)

(** Appending to an accumulator that stands for a list of leaves gives, without
    a panic, the accumulator of the longer list: its frozen roots, its count and
    the root of the Merkle tree over the leaves. *)
Theorem append_represents {HashValue} `{!MerkleHasher HashValue} (acc : t HashValue)
    (ls new : list HashValue) :
  represents acc ls -> num ls + num new < 2 ^ 63 ->
  exists acc', append acc new = Ok acc' /\ represents acc' (ls ++ new).
Proof. apply append_of_represented. Qed.

Lemma append_represents_witness :
  exists acc', append (mk [Node (Leaf 0) (Leaf 1); Leaf 2] 3
      (Node (Node (Leaf 0) (Leaf 1)) (Node (Leaf 2) Placeholder))) [Leaf 3; Leaf 4] = Ok acc' /\
    represents acc' [Leaf 0; Leaf 1; Leaf 2; Leaf 3; Leaf 4].
Proof. by apply (append_represents _ [Leaf 0; Leaf 1; Leaf 2]). Defined.

(** Building an accumulator from leaves gives the accumulator of these leaves,
    whose [version] is the index of the last one. *)
Theorem from_leaves_represents {HashValue} `{!MerkleHasher HashValue} (ls : list HashValue) :
  num ls < 2 ^ 63 ->
  exists acc, from_leaves ls = Ok acc /\ represents acc ls /\
    (is_empty acc = true <-> ls = []) /\ (ls <> [] -> version acc = num ls - 1).
Proof.
  intros Hlt. unfold from_leaves, default, append.
  pose proof (new_frozen (HashValue:=HashValue) [] ltac:(done)) as E.
  change (frozen_roots []) with (@nil HashValue) in E. change (num []) with 0 in E.
  rewrite E. mstep.
  pose proof (append_loop_frozen (HashValue:=HashValue) [] ls ltac:(done)) as E'.
  change (frozen_roots []) with (@nil HashValue) in E'. change (num []) with 0 in E'.
  cbn [app unwrap mbind outcome_bind frozen_subtree_roots num_leaves] in E' |- *. rewrite E'. mstep.
  rewrite new_frozen by done. eexists. split_and!; [reflexivity|done|..].
  - unfold is_empty, num. cbn [num_leaves]. destruct ls; cbn [length]; [done|].
    split; [intros; zbool; lia|done].
  - unfold version, num. cbn [num_leaves]. destruct ls; cbn [length]; [done|].
    intros _. by destruct (Z.eqb_spec (Z.of_nat (S (length ls))) 0); [lia|].
Qed.

Lemma from_leaves_represents_witness :
  exists acc, from_leaves [Leaf 0; Leaf 1; Leaf 2] = Ok acc /\
    represents acc [Leaf 0; Leaf 1; Leaf 2].
Proof.
  destruct (from_leaves_represents [Leaf 0; Leaf 1; Leaf 2]) as (acc & ? & ? & _); [done|].
  exists acc. tauto.
Defined.

(** A consistency proof is sound.  If [append_subtrees] succeeds on any list of
    subtree hashes and the root it computes is that of a tree over [ls'], whose
    size is the claimed one, then [ls'] extends the leaves of the accumulator and
    the result is the accumulator of [ls']; or two different nodes have the same
    hash. *)
Theorem append_subtrees_sound {HashValue} `{!MerkleHasher HashValue} `{!EqDecision HashValue}
    (acc acc' : t HashValue) (ls ls' subtrees : list HashValue) (k : Z) :
  represents acc ls -> 0 <= k -> num ls' = num ls + k -> num ls' < 2 ^ 63 ->
  append_subtrees acc subtrees k = Ok acc' -> root_hash acc' = merkle_root ls' ->
  (exists new, ls' = ls ++ new /\ represents acc' ls') \/ collision (HashValue:=HashValue).
Proof. apply append_subtrees_extends. Qed.

Lemma append_subtrees_sound_witness :
  (exists new, [Leaf 0; Leaf 1; Leaf 2; Leaf 3] = [Leaf 0; Leaf 1; Leaf 2] ++ new /\
    represents (mk [Node (Node (Leaf 0) (Leaf 1)) (Node (Leaf 2) (Leaf 3))] 4
      (Node (Node (Leaf 0) (Leaf 1)) (Node (Leaf 2) (Leaf 3)))) [Leaf 0; Leaf 1; Leaf 2; Leaf 3]) \/
  collision (HashValue:=digest).
Proof.
  by apply (append_subtrees_sound (mk [Node (Leaf 0) (Leaf 1); Leaf 2] 3
      (Node (Node (Leaf 0) (Leaf 1)) (Node (Leaf 2) Placeholder)))
    (mk [Node (Node (Leaf 0) (Leaf 1)) (Node (Leaf 2) (Leaf 3))] 4
      (Node (Node (Leaf 0) (Leaf 1)) (Node (Leaf 2) (Leaf 3))))
    [Leaf 0; Leaf 1; Leaf 2] [Leaf 0; Leaf 1; Leaf 2; Leaf 3] [Leaf 3] 1).
Defined.
End InMemoryAccumulator.
