(* ===== verification/Collections.v ===== *)
(** * Maps

    [BTreeMap] with an integer key (an address, a round, a version) as the list
    of its entries in ascending order of the key: the order in which the code
    iterates over it.  [HashMap] with any key as the list of its entries, each key
    once; the order, which the code leaves open, is that of insertion.  Sorting of
    vectors by a key. *)

From stdpp Require Export gmap sorting.
From S2P Require Import Prelude.

#[global] Open Scope Z_scope.

Module BTreeMap.

Section definitions.
Context {V : Type}.

Fixpoint get (m : list (Z * V)) (k : Z) : option V :=
  match m with
  | [] => None
  | (k', v) :: m => if k =? k' then Some v else get m k
  end.

Fixpoint insert (m : list (Z * V)) (k : Z) (v : V) : list (Z * V) :=
  match m with
  | [] => [(k, v)]
  | (k', v') :: m =>
      if k <? k' then (k, v) :: (k', v') :: m
      else if k =? k' then (k, v) :: m
      else (k', v') :: insert m k v
  end.

(** [entry(k).or_insert(v)]. *)
Definition or_insert (m : list (Z * V)) (k : Z) (v : V) : list (Z * V) :=
  match get m k with
  | Some _ => m
  | None => insert m k v
  end.

Definition remove (m : list (Z * V)) (k : Z) : list (Z * V) :=
  List.filter (fun e => negb (e.1 =? k)) m.

Definition from_list (l : list (Z * V)) : list (Z * V) :=
  foldl (fun m '(k, v) => insert m k v) [] l.

(** The keys are strictly ascending. *)
Definition ordered (m : list (Z * V)) : Prop := StronglySorted Z.lt m.*1.

Lemma ordered_cons_inv k v m : ordered ((k, v) :: m) ->
  ordered m /\ forall k' v', (k', v') ∈ m -> k < k'.
Proof.
  unfold ordered. rewrite fmap_cons. intros H. apply StronglySorted_inv in H as [Hs Hf].
  split; [done|]. intros k' v' Hin. rewrite Forall_forall in Hf. apply Hf.
  apply list_elem_of_fmap. by exists (k', v').
Qed.

Lemma get_elem_of m k v : ordered m -> get m k = Some v <-> (k, v) ∈ m.
Proof.
  induction m as [|[k' v'] m IH]; intros Ho; cbn [get]; [split; [done|by intros ?%elem_of_nil]|].
  apply ordered_cons_inv in Ho as [Hm Hlt]. rewrite elem_of_cons, <-IH by done.
  destruct (Z.eqb_spec k k') as [->|Hne].
  - split; [intros [= ->]; by left|]. intros [[= ->]|Hin]; [done|].
    apply IH in Hin; [|done]. apply Hlt in Hin. lia.
  - split; [by right|]. by intros [[= -> ->]|].
Qed.

Lemma get_in m k v : get m k = Some v -> (k, v) ∈ m.
Proof.
  induction m as [|[k' v'] m IH]; cbn [get]; [done|]. destruct (Z.eqb_spec k k') as [->|]; [intros [= ->]; by left|].
  intros ?. right. auto.
Qed.

Lemma get_insert m k v k' :
  get (insert m k v) k' = if k' =? k then Some v else get m k'.
Proof.
  induction m as [|[k0 v0] m IH]; cbn [insert get]; [done|].
  destruct (Z.ltb_spec k k0); cbn [get]; [done|].
  destruct (Z.eqb_spec k k0) as [->|]; cbn [get]; [by destruct (k' =? k0)|].
  rewrite IH. destruct (Z.eqb_spec k' k0), (Z.eqb_spec k' k); subst; lia || done.
Qed.

Lemma elem_of_insert_key m k v k' : k' ∈ (insert m k v).*1 -> k' = k \/ k' ∈ m.*1.
Proof.
  induction m as [|[k0 v0] m IH]; cbn [insert]; [set_solver|].
  destruct (k <? k0), (k =? k0); set_solver.
Qed.

Lemma insert_ordered m k v : ordered m -> ordered (insert m k v).
Proof.
  unfold ordered. induction m as [|[k0 v0] m IH]; intros Ho; cbn [insert]; [repeat constructor|].
  pose proof Ho as Ho'. rewrite fmap_cons in Ho'. apply StronglySorted_inv in Ho' as [Hs Hf].
  cbn [fst] in Hf. destruct (Z.ltb_spec k k0); [|destruct (Z.eqb_spec k k0) as [->|]].
  - rewrite fmap_cons. constructor; [done|]. cbn [fst]. rewrite fmap_cons. constructor; [done|].
    eapply Forall_impl; [exact Hf|]. cbn. lia.
  - rewrite fmap_cons. by constructor.
  - rewrite fmap_cons. constructor; [by apply IH|]. rewrite Forall_forall in *. intros k' Hk'.
    apply elem_of_insert_key in Hk' as [->|Hk']; [cbn; lia|by apply Hf].
Qed.

Lemma get_or_insert m k v k' :
  get (or_insert m k v) k' =
    match get m k' with Some w => Some w | None => if k' =? k then Some v else None end.
Proof.
  unfold or_insert. destruct (get m k) eqn:E.
  - destruct (Z.eqb_spec k' k) as [->|]; [by rewrite E|]. by destruct (get m k').
  - rewrite get_insert. destruct (Z.eqb_spec k' k) as [->|]; [by rewrite E|by destruct (get m k')].
Qed.

Lemma or_insert_ordered m k v : ordered m -> ordered (or_insert m k v).
Proof. intros. unfold or_insert. destruct (get m k); [done|by apply insert_ordered]. Qed.

Lemma get_remove m k k' : get (remove m k) k' = if k' =? k then None else get m k'.
Proof.
  induction m as [|[k0 v0] m IH]; cbn [remove get List.filter fst]; [by case_match|].
  fold (remove m k). destruct (Z.eqb_spec k0 k) as [->|]; cbn [negb get].
  - rewrite IH. by destruct (k' =? k).
  - rewrite IH. destruct (Z.eqb_spec k' k0), (Z.eqb_spec k' k); subst; lia || done.
Qed.

Lemma remove_ordered m k : ordered m -> ordered (remove m k).
Proof.
  unfold ordered. induction m as [|[k0 v0] m IH]; intros Ho; [done|].
  rewrite fmap_cons in Ho. apply StronglySorted_inv in Ho as [Hs Hf].
  cbn [remove List.filter fst]. fold (remove m k). destruct (negb _); [|by apply IH].
  rewrite fmap_cons. constructor; [by apply IH|]. rewrite Forall_forall in *. intros k' Hk'.
  apply Hf. apply list_elem_of_fmap in Hk' as ([k1 v1] & -> & Hin).
  apply list_elem_of_fmap. exists (k1, v1). split; [done|].
  apply list_elem_of_In in Hin. apply filter_In in Hin as [Hin _]. by apply list_elem_of_In.
Qed.

Lemma ordered_NoDup m : ordered m -> NoDup m.*1.
Proof.
  unfold ordered. generalize (m.*1). intros l Hl.
  induction Hl as [|x l Hs IH Hf]; constructor; [|done].
  intros Hin. rewrite Forall_forall in Hf. apply Hf in Hin. lia.
Qed.

(** Inserting above all keys appends. *)
Lemma insert_last m k v : (forall k', k' ∈ m.*1 -> k' < k) -> insert m k v = m ++ [(k, v)].
Proof.
  induction m as [|[k0 v0] m IH]; intros Hlt; cbn [insert app]; [done|].
  rewrite fmap_cons in Hlt. assert (k0 < k) by (apply Hlt; set_solver).
  rewrite (proj2 (Z.ltb_ge _ _)), (proj2 (Z.eqb_neq _ _)), IH by (lia || set_solver). done.
Qed.

Lemma get_None m k : k ∉ m.*1 -> get m k = None.
Proof.
  induction m as [|[k0 v0] m IH]; cbn [get]; [done|]. rewrite fmap_cons, not_elem_of_cons.
  intros [Hne Hm]. by rewrite (proj2 (Z.eqb_neq _ _)), IH.
Qed.

Lemma insert_elem m k v e : e ∈ insert m k v -> e = (k, v) \/ e ∈ m.
Proof.
  induction m as [|[k0 v0] m IH]; cbn [insert]; [rewrite list_elem_of_singleton; auto|].
  destruct (k <? k0); [by rewrite elem_of_cons|]. destruct (k =? k0); rewrite !elem_of_cons; [naive_solver|].
  intros [->|[->|?]%IH]; auto.
Qed.

Lemma or_insert_elem m k v e : e ∈ or_insert m k v -> e = (k, v) \/ e ∈ m.
Proof. unfold or_insert. destruct (get m k); [by right|apply insert_elem]. Qed.

Lemma or_insert_keys m k v k' : ordered m -> k' ∈ (or_insert m k v).*1 <-> k' = k \/ k' ∈ m.*1.
Proof.
  intros Ho. assert (forall (m' : list (Z * V)) j, ordered m' -> j ∈ m'.*1 <-> is_Some (get m' j)) as Hk.
  { intros m' j Ho'. split; [|intros [x Hx%get_elem_of]; [|done]; by apply list_elem_of_fmap; exists (j, x)].
    intros ([j' x] & -> & Hx)%list_elem_of_fmap. exists x. by apply get_elem_of. }
  rewrite !Hk, get_or_insert by auto using or_insert_ordered. destruct (get m k') as [x|] eqn:E.
  - split; [right; by eexists|by eexists].
  - destruct (Z.eqb_spec k' k) as [->|Hne].
    + split; [by left|by eexists].
    + split; [by intros [? ?]|by intros [?|[? ?]]].
Qed.

Lemma or_insert_last m k v : (forall k', k' ∈ m.*1 -> k' < k) -> or_insert m k v = m ++ [(k, v)].
Proof.
  intros Hlt. unfold or_insert. rewrite get_None; [by apply insert_last|]. intros Hin.
  apply Hlt in Hin. lia.
Qed.
End definitions.
End BTreeMap.

#[export] Hint Resolve BTreeMap.insert_ordered BTreeMap.or_insert_ordered
  BTreeMap.remove_ordered : core.

Module HashMap.

Section definitions.
Context {K V : Type} `{!EqDecision K}.

Fixpoint get (m : list (K * V)) (k : K) : option V :=
  match m with
  | [] => None
  | (k', v) :: m => if bool_decide (k = k') then Some v else get m k
  end.

Fixpoint insert (m : list (K * V)) (k : K) (v : V) : list (K * V) :=
  match m with
  | [] => [(k, v)]
  | (k', v') :: m => if bool_decide (k = k') then (k, v) :: m else (k', v') :: insert m k v
  end.

Fixpoint remove (m : list (K * V)) (k : K) : list (K * V) :=
  match m with
  | [] => []
  | (k', v) :: m => if bool_decide (k = k') then remove m k else (k', v) :: remove m k
  end.

Definition contains_key (m : list (K * V)) (k : K) : bool :=
  match get m k with Some _ => true | None => false end.

(** [entry(k).or_insert(v)]. *)
Definition or_insert (m : list (K * V)) (k : K) (v : V) : list (K * V) :=
  match get m k with
  | Some _ => m
  | None => insert m k v
  end.

Lemma hash_get_insert m k v k' : get (insert m k v) k' = if bool_decide (k' = k) then Some v else get m k'.
Proof.
  induction m as [|[k0 v0] m IH]; cbn [insert get]; [done|].
  destruct (bool_decide_reflect (k = k0)) as [->|]; cbn [get]; [by destruct (bool_decide (k' = k0))|].
  rewrite IH. repeat case_bool_decide; congruence.
Qed.

Lemma get_insert_eq m k v : get (insert m k v) k = Some v.
Proof. rewrite hash_get_insert. by rewrite bool_decide_eq_true_2. Qed.

Lemma get_insert_ne m k v k' : k' <> k -> get (insert m k v) k' = get m k'.
Proof. intros. rewrite hash_get_insert. by rewrite bool_decide_eq_false_2. Qed.

Lemma hash_get_remove m k k' : get (remove m k) k' = if bool_decide (k' = k) then None else get m k'.
Proof.
  induction m as [|[k0 v0] m IH]; cbn [remove get]; [by case_bool_decide|].
  destruct (bool_decide_reflect (k = k0)) as [->|]; cbn [get]; rewrite IH; repeat case_bool_decide; congruence.
Qed.

Lemma get_remove_ne m k k' : k' <> k -> get (remove m k) k' = get m k'.
Proof. intros. rewrite hash_get_remove. by rewrite bool_decide_eq_false_2. Qed.

Lemma hash_get_or_insert m k v k' : get (or_insert m k v) k' =
  match get m k' with Some x => Some x | None => if bool_decide (k' = k) then Some v else None end.
Proof.
  unfold or_insert. destruct (get m k) eqn:E.
  - case_bool_decide; [subst; by rewrite E|]. by destruct (get m k').
  - rewrite hash_get_insert. case_bool_decide; [subst; by rewrite E|]. by destruct (get m k').
Qed.

Lemma hash_get_elem_of m k v : get m k = Some v -> (k, v) ∈ m.
Proof.
  induction m as [|[k0 v0] m IH]; cbn [get]; [done|]. case_bool_decide as E.
  - intros [= ->]. subst. by left.
  - intros. right. auto.
Qed.

Lemma get_key m k v : get m k = Some v -> k ∈ m.*1.
Proof. intros H%hash_get_elem_of. apply list_elem_of_fmap. by exists (k, v). Qed.

Lemma insert_keys m k v x : x ∈ (insert m k v).*1 <-> x = k \/ x ∈ m.*1.
Proof.
  induction m as [|[k0 v0] m IH]; cbn [insert]; [set_solver|]. case_bool_decide; subst; rewrite !fmap_cons; set_solver.
Qed.

Lemma insert_NoDup m k v : NoDup m.*1 -> NoDup (insert m k v).*1.
Proof.
  induction m as [|[k0 v0] m IH]; cbn [insert]; intros Hm; [apply NoDup_singleton|].
  rewrite fmap_cons in Hm. apply NoDup_cons in Hm as [Hn Hm]. case_bool_decide; subst; rewrite fmap_cons; constructor; auto.
  rewrite insert_keys. set_solver.
Qed.

Lemma remove_keys m k x : x ∈ (remove m k).*1 -> x ∈ m.*1.
Proof.
  induction m as [|[k0 v0] m IH]; [done|]. cbn [remove]. case_bool_decide; rewrite !fmap_cons; set_solver.
Qed.

Lemma remove_NoDup m k : NoDup m.*1 -> NoDup (remove m k).*1.
Proof.
  induction m as [|[k0 v0] m IH]; [done|]. cbn [remove]. rewrite fmap_cons, NoDup_cons. intros [Hn Hm].
  case_bool_decide; [by apply IH|]. rewrite fmap_cons, NoDup_cons. split; [|by apply IH]. by intros ?%remove_keys.
Qed.

Lemma elem_of_get m k v : NoDup m.*1 -> (k, v) ∈ m -> get m k = Some v.
Proof.
  induction m as [|[k0 v0] m IH]; intros Hm Hin; [by apply elem_of_nil in Hin|].
  rewrite fmap_cons in Hm. apply NoDup_cons in Hm as [Hn Hm]. cbn [get].
  apply elem_of_cons in Hin as [[= <- <-]|Hin]; [by rewrite bool_decide_eq_true_2|].
  rewrite bool_decide_eq_false_2; [by apply IH|]. intros ->. apply Hn. apply list_elem_of_fmap. by exists (k0, v).
Qed.

(** The values come from insertions. *)
Lemma remove_values m k v : v ∈ (remove m k).*2 -> v ∈ m.*2.
Proof.
  induction m as [|[k0 v0] m IH]; cbn; [done|]. case_bool_decide; cbn; rewrite !elem_of_cons; [auto|]. intros [->|?]; auto.
Qed.

Lemma or_insert_values m k v v' : v' ∈ (or_insert m k v).*2 -> v' = v \/ v' ∈ m.*2.
Proof.
  unfold or_insert. destruct (get m k); [by right|]. induction m as [|[k0 v0] m IH]; cbn.
  - rewrite list_elem_of_singleton. auto.
  - case_bool_decide; cbn; rewrite !elem_of_cons; [intros [->|?]; auto|]. intros [->|[->|?]%IH]; auto.
Qed.
End definitions.
End HashMap.

(** ** Sorting

    [sort_by_key], which is stable, as insertion from the right. *)
Section sorting.
Context {A : Type} (le : A -> A -> bool).

Fixpoint insert_sorted (x : A) (l : list A) : list A :=
  match l with
  | [] => [x]
  | y :: l => if le x y then x :: y :: l else y :: insert_sorted x l
  end.
Definition sort_by (l : list A) : list A := foldr insert_sorted [] l.

Lemma insert_sorted_perm x l : insert_sorted x l ≡ₚ x :: l.
Proof using Type.
  induction l as [|y l IH]; cbn [insert_sorted]; [done|]. destruct (le x y); [done|]. rewrite IH. apply perm_swap.
Qed.

Lemma sort_by_perm l : sort_by l ≡ₚ l.
Proof using Type. induction l as [|x l IH]; cbn; [done|]. by rewrite insert_sorted_perm, IH. Qed.

Lemma sort_by_sorted l : (forall x y, le x y = false -> le y x = true) ->
  (forall x y z, le x y = true -> le y z = true -> le x z = true) -> StronglySorted (fun x y => le x y = true) (sort_by l).
Proof using Type.
  intros Htot Htr. induction l as [|x l IH]; cbn; [constructor|]. fold (sort_by l).
  induction IH as [|y m Hm IHm Hy]; cbn [insert_sorted]; [by repeat constructor|].
  destruct (le x y) eqn:E.
  - constructor; [by constructor|]. constructor; [done|]. eapply Forall_impl; [done|]. intros z ?. by eapply Htr.
  - constructor; [done|]. rewrite insert_sorted_perm. constructor; [by apply Htot|done].
Qed.
End sorting.

(** ** Ordered maps on other keys

    A [BTreeMap] whose key is not an integer is a [gmap] together with the order of
    its keys, in which the code iterates over it. *)
Section entries.
Context `{Countable K} {V : Type} (le : K -> K -> bool).

Definition entries (m : gmap K V) : list (K * V) := sort_by (fun x y => le x.1 y.1) (map_to_list m).

Lemma elem_of_entries m k v : (k, v) ∈ entries m <-> m !! k = Some v.
Proof using Type. unfold entries. by rewrite sort_by_perm, elem_of_map_to_list. Qed.

Lemma entries_keys_NoDup m : NoDup (entries m).*1.
Proof using Type. unfold entries. rewrite sort_by_perm. apply NoDup_fst_map_to_list. Qed.

Lemma elem_of_entries_keys m k : k ∈ (entries m).*1 <-> is_Some (m !! k).
Proof using Type.
  rewrite list_elem_of_fmap. split.
  - intros ([k' v] & -> & Hin). apply elem_of_entries in Hin. by exists v.
  - intros [v Hv]. exists (k, v). by rewrite elem_of_entries.
Qed.
End entries.

(** ** Loops over a map

    A loop that updates the cell of each key it meets.  When no key repeats, the
    cells are independent of each other. *)
Section loops.
Context {K X S C E : Type} (cell : S -> K -> C) (put : S -> K -> C -> S) (step : C -> X -> outcome E C).

Fixpoint for_cells (l : list (K * X)) (s : S) : outcome E S :=
  match l with
  | [] => Ok s
  | (k, x) :: l => c ← step (cell s k) x; for_cells l (put s k c)
  end.

Context (cell_put : forall s k c, cell (put s k c) k = c)
  (cell_put_ne : forall s k c k', k' <> k -> cell (put s k c) k' = cell s k').

Lemma for_cells_ok l s : NoDup l.*1 -> (forall k x, (k, x) ∈ l -> exists c, step (cell s k) x = Ok c) ->
  exists s', for_cells l s = Ok s' /\
    (forall k x, (k, x) ∈ l -> step (cell s k) x = Ok (cell s' k)) /\
    (forall k, k ∉ l.*1 -> cell s' k = cell s k).
Proof using All.
  revert s. induction l as [|[k x] l IH]; intros s Hnd Hstep; simpl.
  { exists s. split_and!; [done|by intros ? ? ?%elem_of_nil|done]. }
  apply NoDup_cons in Hnd as [Hk Hnd]. destruct (Hstep k x) as [c Hc]; [by left|]. rewrite Hc. simpl.
  assert (forall k' x', (k', x') ∈ l -> k' <> k) as Hne.
  { intros k' x' Hin ->. apply Hk. apply list_elem_of_fmap. by exists (k, x'). }
  destruct (IH (put s k c)) as (s' & -> & Hin & Hout); [done| |].
  { intros k' x' Hin. rewrite cell_put_ne by by eapply Hne. apply Hstep. by right. }
  exists s'. split_and!; [done| |].
  - intros k' x' [[= -> ->]|Hx]%elem_of_cons; [by rewrite Hout, cell_put|].
    rewrite <-(Hin _ _ Hx). by rewrite cell_put_ne by by eapply Hne.
  - intros k' [? ?]%not_elem_of_cons. rewrite Hout by done. by apply cell_put_ne.
Qed.
End loops.

Lemma StronglySorted_middle {A} (R : A -> A -> Prop) l1 x l2 :
  StronglySorted R (l1 ++ x :: l2) -> StronglySorted R (l1 ++ l2).
Proof.
  induction l1 as [|y l1 IH]; cbn; intros Hs; apply StronglySorted_inv in Hs as [Hs Hf]; [done|].
  constructor; [auto|]. rewrite Forall_app, Forall_cons in *. tauto.
Qed.
