(* ===== verification/BitVec.v ===== *)
(** * Bit vectors

    Model of [crates/aptos-bitvec/src/lib.rs]: a vector of bytes in which bit
    [pos] is bit [7 - pos mod 8] of byte [pos / 8].  [well_formed] is the Rust
    type: bytes, and no more of them than positions of type [u16] can address. *)

From S2P Require Import Prelude.

Module BitVec.

Definition BUCKET_SIZE : Z := 8.
Definition MAX_BUCKETS : Z := 8192.

Record t := mk { inner : list Z }.

#[global] Instance t_eq_dec : EqDecision t.
Proof. solve_decision. Defined.

Definition len (v : list Z) : Z := Z.of_nat (length v).

Definition required_buckets (num_bits : Z) : Z :=
  if num_bits <? 1 then 0 else (num_bits - 1) / BUCKET_SIZE + 1.

Definition with_num_bits (num_bits : Z) : t :=
  mk (replicate (Z.to_nat (required_buckets num_bits)) 0).

Definition default : t := mk [].

(** [0b1000_0000 >> bucket_pos]. *)
Definition mask (bucket_pos : Z) : Z := Z.shiftr 128 bucket_pos.

Definition set (self : t) (pos : Z) : t :=
  let bucket := pos / BUCKET_SIZE in
  let inner :=
    if len (inner self) <=? bucket
    then inner self ++ replicate (Z.to_nat (bucket + 1 - len (inner self))) 0
    else inner self in
  let bucket_pos := pos - bucket * BUCKET_SIZE in
  mk (alter (fun byte => Z.lor byte (mask bucket_pos)) (Z.to_nat bucket) inner).

Definition is_set (self : t) (pos : Z) : bool :=
  let bucket := pos / BUCKET_SIZE in
  if len (inner self) <=? bucket then false
  else
    let bucket_pos := pos - bucket * BUCKET_SIZE in
    negb (Z.land (nth (Z.to_nat bucket) (inner self) 0) (mask bucket_pos) =? 0).

Definition all_zeros (self : t) : bool := forallb (fun byte => byte =? 0) (inner self).

Definition count_ones (self : t) : Z :=
  foldr Z.add 0 (Prelude.count_ones <$> inner self).

(** [.iter().rev().enumerate().find(|(_, byte)| byte != 0)]. *)
Fixpoint find_nonzero (i : Z) (bytes : list Z) : option (Z * Z) :=
  match bytes with
  | [] => None
  | byte :: bytes => if byte =? 0 then find_nonzero (i + 1) bytes else Some (i, byte)
  end.

Definition last_set_bit (self : t) : option Z :=
  '(i, byte) ← find_nonzero 0 (rev (inner self));
  Some ((8 * (len (inner self) - i) - trailing_zeros byte - 1) `mod` 2 ^ 16).

Definition iter_ones (self : t) : list Z :=
  List.filter (fun idx => is_set self (idx `mod` 2 ^ 16)) (seqZ 0 (len (inner self) * BUCKET_SIZE)).

Definition num_buckets (self : t) : Z := len (inner self).

Definition bitand (self other : t) : t := mk (zip_with Z.land (inner self) (inner other)).

(** The loop over the longer of the two vectors. *)
Definition bitor (self other : t) : t :=
  mk ((fun i => Z.lor (nth i (inner self) 0) (nth i (inner other) 0)) <$>
      seq 0 (Nat.max (length (inner self)) (length (inner other)))).

Definition from_iter (bits : list Z) : t := foldl set default bits.

Definition from_vec_u8 (raw_bytes : list Z) : result t :=
  assert (len raw_bytes <=? MAX_BUCKETS);; Ok (mk raw_bytes).

(** The loop of [From<Vec<bool>>] from position [index] on. *)
Fixpoint set_bools (index : Z) (bits : list bool) (bitvec : t) : t :=
  match bits with
  | [] => bitvec
  | b :: bits => set_bools (index + 1) bits (if b then set bitvec (index `mod` 2 ^ 16) else bitvec)
  end.

Definition from_vec_bool (bits : list bool) : result t :=
  assert (Z.of_nat (length bits) <=? MAX_BUCKETS * BUCKET_SIZE);;
  Ok (set_bools 0 bits (with_num_bits (Z.of_nat (length bits) `mod` 2 ^ 16))).

(** [deserialize], after the bytes are read. *)
Definition deserialize (v : list Z) : outcome string t :=
  if MAX_BUCKETS <? len v then Err "BitVec too long" else Ok (mk v).

(** ** The bits *)

Definition is_byte (b : Z) : Prop := 0 <= b < 256.

Definition well_formed (bv : t) : Prop :=
  Forall is_byte (inner bv) /\ len (inner bv) <= MAX_BUCKETS.

(** Bit [j], from the left, of a byte. *)
Definition bit (b j : Z) : bool := Z.testbit b (7 - j).

Definition byte_ones (b : Z) : list Z := List.filter (bit b) (seqZ 0 8).

Lemma byte_cases (P : Z -> bool) b :
  is_byte b -> forallb P (seqZ 0 256) = true -> P b = true.
Proof.
  intros Hb HP. apply (proj1 (forallb_forall _ _) HP).
  apply list_elem_of_In, elem_of_seqZ. unfold is_byte in Hb. lia.
Qed.

Lemma land_pow2_eqb b k : 0 <= k -> negb (Z.land b (2 ^ k) =? 0) = Z.testbit b k.
Proof.
  intros Hk. destruct (Z.testbit b k) eqn:E.
  - apply negb_true_iff, Z.eqb_neq. intros H. apply (f_equal (fun z => Z.testbit z k)) in H.
    rewrite Z.land_spec, E, Z.pow2_bits_true, Z.testbit_0_l in H by done. done.
  - apply negb_false_iff, Z.eqb_eq, Z.bits_inj'. intros i Hi.
    rewrite Z.land_spec, Z.testbit_0_l, Z.pow2_bits_eqb by done.
    destruct (Z.eqb_spec k i) as [<-|]; [by rewrite E|apply andb_false_r].
Qed.

Lemma mask_pow2 j : 0 <= j < 8 -> mask j = 2 ^ (7 - j).
Proof.
  intros Hj. unfold mask. rewrite Z.shiftr_div_pow2 by lia. change 128 with (2 ^ 7).
  rewrite <-Z.pow_sub_r by lia. done.
Qed.

Lemma div_mod_8 pos : pos - pos / 8 * 8 = pos `mod` 8.
Proof. rewrite Z.mod_eq by lia. lia. Qed.

Lemma is_set_bit bv pos : 0 <= pos ->
  is_set bv pos = bit (nth (Z.to_nat (pos / 8)) (inner bv) 0) (pos `mod` 8).
Proof.
  intros Hp. unfold is_set, BUCKET_SIZE. rewrite div_mod_8.
  pose proof (Z.mod_pos_bound pos 8 ltac:(lia)). assert (0 <= pos / 8) by (apply Z.div_pos; lia).
  destruct (Z.leb_spec (len (inner bv)) (pos / 8)) as [Hl|].
  - unfold len in Hl. rewrite nth_overflow by lia. unfold bit. by rewrite Z.testbit_0_l.
  - rewrite mask_pow2, land_pow2_eqb by lia. done.
Qed.

Lemma nth_alter (f : Z -> Z) (l : list Z) i j :
  nth j (alter f i l) 0 = if decide (i = j /\ (i < length l)%nat) then f (nth j l 0) else nth j l 0.
Proof.
  rewrite !nth_lookup. case_decide as H; [destruct H as [-> Hl]|].
  - rewrite list_lookup_alter_eq. apply lookup_lt_is_Some_2 in Hl as [x Hx]. by rewrite Hx.
  - destruct (decide (i = j)) as [->|]; [|by rewrite list_lookup_alter_ne].
    rewrite list_lookup_alter_eq, lookup_ge_None_2 by lia. done.
Qed.

Lemma nth_grow (l : list Z) n i : nth i (l ++ replicate n 0) 0 = nth i l 0.
Proof.
  destruct (decide (i < length l)%nat); [by rewrite app_nth1|].
  rewrite app_nth2, (nth_overflow l) by lia. rewrite nth_lookup.
  destruct (replicate n 0 !! _) eqn:E; [|done]. by apply lookup_replicate in E as [-> _].
Qed.

Lemma bit_lor_mask b i j : 0 <= i < 8 -> 0 <= j < 8 ->
  bit (Z.lor b (mask i)) j = (i =? j) || bit b j.
Proof.
  intros Hi Hj. unfold bit. rewrite mask_pow2, Z.lor_spec, Z.pow2_bits_eqb, orb_comm by lia.
  f_equal. destruct (Z.eqb_spec i j), (Z.eqb_spec (7 - i) (7 - j)); lia || done.
Qed.

Lemma is_set_set bv p q : 0 <= p -> 0 <= q -> is_set (set bv p) q = (p =? q) || is_set bv q.
Proof.
  intros Hp Hq. rewrite !is_set_bit by done. unfold set, BUCKET_SIZE. cbn [inner].
  rewrite div_mod_8, nth_alter.
  pose proof (Z.mod_pos_bound p 8 ltac:(lia)). pose proof (Z.mod_pos_bound q 8 ltac:(lia)).
  pose proof (Z.div_mod p 8 ltac:(lia)). pose proof (Z.div_mod q 8 ltac:(lia)).
  assert (0 <= p / 8) by (apply Z.div_pos; lia). assert (0 <= q / 8) by (apply Z.div_pos; lia).
  assert (forall n, nth n (if len (inner bv) <=? p / 8
    then inner bv ++ replicate (Z.to_nat (p / 8 + 1 - len (inner bv))) 0 else inner bv) 0 =
    nth n (inner bv) 0) as -> by (intros; case_match; by rewrite ?nth_grow).
  case_decide as Hc.
  - rewrite bit_lor_mask by done. f_equal.
    destruct (Z.eqb_spec p q), (Z.eqb_spec (p `mod` 8) (q `mod` 8)); lia || done.
  - destruct (Z.eqb_spec p q) as [->|]; [|done]. exfalso. apply Hc. split; [done|].
    unfold len in *. case_match; zbool; rewrite ?length_app, ?length_replicate; lia.
Qed.

Lemma bitvec_set_well_formed bv p : 0 <= p < 2 ^ 16 -> well_formed bv -> well_formed (set bv p).
Proof.
  intros Hp [Hb Hl]. unfold well_formed, set, MAX_BUCKETS, BUCKET_SIZE, len in *. cbn [inner].
  assert (0 <= p / 8 < 8192) by
    (split; [apply Z.div_pos; lia|apply Z.div_lt_upper_bound; lia]).
  pose proof (Z.mod_pos_bound p 8 ltac:(lia)). rewrite div_mod_8, length_alter. split.
  - apply Forall_alter.
    + case_match; [|done]. apply Forall_app. split; [done|]. apply Forall_replicate.
      unfold is_byte. lia.
    + intros b _ Hby. unfold is_byte in *. split; [apply Z.lor_nonneg; unfold mask; split;
        [lia|apply Z.shiftr_nonneg; lia]|].
      rewrite mask_pow2 by lia. destruct (Z.eq_dec (Z.lor b (2 ^ (7 - p `mod` 8))) 0) as [->|]; [lia|].
      apply (Z.log2_lt_pow2 _ 8).
      * assert (0 <= Z.lor b (2 ^ (7 - p `mod` 8))); [|lia].
        apply Z.lor_nonneg. split; [lia|]. apply Z.pow_nonneg. lia.
      * rewrite Z.log2_lor by (lia || apply Z.pow_nonneg; lia). rewrite Z.log2_pow2 by lia.
        destruct (Z.eq_dec b 0) as [->|]; [cbn; lia|].
        pose proof (proj1 (Z.log2_lt_pow2 b 8 ltac:(lia)) ltac:(lia)). lia.
  - case_match; zbool; rewrite ?length_app, ?length_replicate; lia.
Qed.

(** ** The positions of the set bits, byte by byte *)

Lemma filter_ext_seqZ (f g : Z -> bool) a n :
  (forall i, a <= i < a + n -> f i = g i) -> List.filter f (seqZ a n) = List.filter g (seqZ a n).
Proof.
  intros H. apply List.filter_ext_in. intros i Hi. apply H.
  apply list_elem_of_In, elem_of_seqZ in Hi. done.
Qed.

Lemma filter_shift (f : Z -> bool) a n :
  List.filter f (seqZ a n) = Z.add a <$> List.filter (fun i => f (a + i)) (seqZ 0 n).
Proof.
  rewrite <-(Z.add_0_r a) at 1. rewrite <-fmap_add_seqZ. generalize (seqZ 0 n). intros l.
  induction l as [|x l IH]; [done|]. rewrite fmap_cons. cbn [List.filter].
  rewrite IH. by destruct (f (a + x)).
Qed.

Definition all_ones (bytes : list Z) : list Z :=
  List.filter (is_set (mk bytes)) (seqZ 0 (len bytes * 8)).

Lemma iter_ones_all bv : well_formed bv -> iter_ones bv = all_ones (inner bv).
Proof.
  intros [_ Hl]. unfold iter_ones, all_ones, BUCKET_SIZE, MAX_BUCKETS in *. destruct bv. cbn in *.
  apply filter_ext_seqZ. intros i Hi. by rewrite Z.mod_small by lia.
Qed.

Lemma all_ones_snoc bytes b :
  all_ones (bytes ++ [b]) = all_ones bytes ++ (Z.add (len bytes * 8) <$> byte_ones b).
Proof.
  unfold all_ones, len. rewrite length_app. cbn [length].
  replace (Z.of_nat (length bytes + 1) * 8) with (Z.of_nat (length bytes) * 8 + 8) by lia.
  rewrite seqZ_app, List.filter_app by lia. f_equal.
  - apply filter_ext_seqZ. intros i Hi. rewrite !is_set_bit by lia. cbn [inner].
    assert (i / 8 < Z.of_nat (length bytes)) by (apply Z.div_lt_upper_bound; lia).
    assert (0 <= i / 8) by (apply Z.div_pos; lia). rewrite app_nth1 by lia. done.
  - rewrite Z.add_0_l, filter_shift. unfold byte_ones. f_equal. apply filter_ext_seqZ. intros i Hi.
    rewrite is_set_bit by lia. cbn [inner].
    rewrite (Z.add_comm _ i), Z.div_add, Z.mod_add, Z.div_small, Z.mod_small, Z.add_0_l, Nat2Z.id by lia.
    rewrite app_nth2, Nat.sub_diag by lia. done.
Qed.

Lemma byte_ones_count b : is_byte b -> Z.of_nat (length (byte_ones b)) = Prelude.count_ones b.
Proof.
  intros Hb. apply Z.eqb_eq.
  apply (byte_cases (fun b => Z.of_nat (length (byte_ones b)) =? Prelude.count_ones b) b Hb).
  by vm_compute.
Qed.

Lemma byte_ones_last b : is_byte b ->
  last (byte_ones b) = if b =? 0 then None else Some (7 - trailing_zeros b).
Proof.
  intros Hb. apply (bool_decide_unpack _). apply Is_true_eq_left.
  apply (byte_cases (fun b => bool_decide (last (byte_ones b) =
    if b =? 0 then None else Some (7 - trailing_zeros b))) b Hb).
  by vm_compute.
Qed.

Lemma count_ones_snoc bytes b :
  count_ones (mk (bytes ++ [b])) = count_ones (mk bytes) + Prelude.count_ones b.
Proof.
  unfold count_ones. cbn [inner]. rewrite fmap_app. cbn [fmap list_fmap].
  induction (Prelude.count_ones <$> bytes) as [|x l IH]; cbn [app foldr]; [lia|]. rewrite IH. lia.
Qed.

Lemma count_ones_all bytes : Forall is_byte bytes ->
  count_ones (mk bytes) = Z.of_nat (length (all_ones bytes)).
Proof.
  induction bytes as [|b bytes IH] using rev_ind; intros Hb; [done|].
  apply Forall_app in Hb as [Hbs Hb]. inversion Hb; subst.
  rewrite count_ones_snoc, all_ones_snoc, length_app, length_fmap, IH, Nat2Z.inj_add by done.
  by rewrite byte_ones_count.
Qed.

Lemma find_nonzero_shift i k bytes :
  find_nonzero (i + k) bytes = (fun '(j, b) => (j + k, b)) <$> find_nonzero i bytes.
Proof.
  revert i. induction bytes as [|b bytes IH]; intros i; cbn [find_nonzero]; [done|].
  destruct (b =? 0); [|done]. by replace (i + k + 1) with (i + 1 + k) by lia.
Qed.

Lemma last_set_bit_all bytes : Forall is_byte bytes -> len bytes <= MAX_BUCKETS ->
  last_set_bit (mk bytes) = last (all_ones bytes).
Proof.
  unfold last_set_bit, MAX_BUCKETS. cbn [inner].
  induction bytes as [|b bytes IH] using rev_ind; intros Hb Hl; [done|].
  apply Forall_app in Hb as [Hbs Hb]. inversion Hb as [|? ? Hbyte]; subst.
  unfold len in *. rewrite length_app, Nat2Z.inj_add in *. cbn [length] in *.
  specialize (IH Hbs ltac:(lia)).
  rewrite rev_app_distr, all_ones_snoc, last_app, fmap_last, byte_ones_last by done.
  cbn [rev app find_nonzero]. destruct (Z.eqb_spec b 0) as [->|]; cbn [fmap option_fmap option_map].
  - rewrite find_nonzero_shift, <-IH.
    destruct (find_nonzero 0 (rev bytes)) as [[i byte]|]; [|done]. cbn. do 2 f_equal. lia.
  - cbn. f_equal. unfold len. assert (0 <= trailing_zeros b <= 7).
    { pose proof (byte_cases (fun b => (b =? 0) || ((0 <=? trailing_zeros b) && (trailing_zeros b <=? 7)))
        b Hbyte ltac:(by vm_compute)) as Htz.
      cbv beta in Htz. zbool. lia. }
    rewrite Z.mod_small; lia.
Qed.

Lemma elem_of_all_ones bytes q : q ∈ all_ones bytes <-> 0 <= q /\ is_set (mk bytes) q = true.
Proof.
  unfold all_ones. rewrite list_elem_of_In, filter_In, <-list_elem_of_In, elem_of_seqZ.
  split; [intros [? ?]; split; [lia|done]|]. intros [Hq Hs]. split; [|done].
  split; [done|]. unfold is_set, BUCKET_SIZE in Hs. cbn [inner] in Hs.
  destruct (Z.leb_spec (len bytes) (q / 8)); [done|].
  pose proof (Z.div_mod q 8 ltac:(lia)). pose proof (Z.mod_pos_bound q 8 ltac:(lia)). lia.
Qed.

Lemma all_ones_NoDup bytes : NoDup (all_ones bytes).
Proof. unfold all_ones. apply NoDup_ListNoDup, List.NoDup_filter, NoDup_ListNoDup, NoDup_seqZ. Qed.

Lemma filter_seqZ_last (f : Z -> bool) a n q : q ∈ List.filter f (seqZ a n) ->
  exists m, last (List.filter f (seqZ a n)) = Some m /\ q <= m.
Proof.
  destruct (Z.lt_ge_cases n 0); [rewrite seqZ_nil by lia; set_solver|].
  rewrite <-(Z2Nat.id n) by done. generalize (Z.to_nat n). clear. intros n.
  induction n as [|n IH]; [by intros ?%elem_of_nil|].
  replace (Z.of_nat (S n)) with (Z.of_nat n + 1) by lia.
  rewrite seqZ_app, List.filter_app by lia. rewrite (seqZ_cons _ 1) by lia.
  change (Z.pred 1) with 0. rewrite (seqZ_nil _ 0) by lia. cbn [List.filter]. destruct (f (a + Z.of_nat n)).
  - intros Hq. exists (a + Z.of_nat n). rewrite last_snoc. split; [done|].
    apply elem_of_app in Hq as [Hq|Hq%list_elem_of_singleton]; [|lia].
    apply list_elem_of_In, filter_In in Hq as [Hq _].
    apply list_elem_of_In, elem_of_seqZ in Hq. lia.
  - rewrite app_nil_r. apply IH.
Qed.

Lemma last_set_bit_max bv q : well_formed bv -> 0 <= q -> is_set bv q = true ->
  exists m, last_set_bit bv = Some m /\ q <= m.
Proof.
  destruct bv as [bytes]. intros [Hb Hl] Hq Hs. cbn [inner] in *. rewrite last_set_bit_all by done.
  apply filter_seqZ_last. by apply elem_of_all_ones.
Qed.

Lemma last_set_bit_is_set bv m : well_formed bv -> last_set_bit bv = Some m -> is_set bv m = true.
Proof.
  destruct bv as [bytes]. intros [Hb Hl]. cbn [inner] in *. rewrite last_set_bit_all by done.
  intros Hm%last_Some_elem_of. by apply elem_of_all_ones in Hm as [_ ?].
Qed.

Lemma num_buckets_set bv p : 0 <= p -> p / 8 < num_buckets bv ->
  num_buckets (set bv p) = num_buckets bv.
Proof.
  intros Hp Hl. unfold num_buckets, set, len, BUCKET_SIZE in *. cbn [inner].
  rewrite (proj2 (Z.leb_gt _ _)), length_alter by done. done.
Qed.

Lemma with_num_bits_well_formed n : 0 <= n < 2 ^ 16 -> well_formed (with_num_bits n).
Proof.
  intros Hn. unfold well_formed, with_num_bits, required_buckets, len, BUCKET_SIZE, MAX_BUCKETS.
  cbn [inner]. rewrite length_replicate. split; [apply Forall_replicate; unfold is_byte; lia|].
  case_match; [lia|]. assert ((n - 1) / 8 < 8192) by (apply Z.div_lt_upper_bound; lia).
  assert (0 <= (n - 1) / 8) by (apply Z.div_pos; zbool; lia). lia.
Qed.

Lemma is_set_set_bools i bits bv q : 0 <= i -> i + Z.of_nat (length bits) <= 2 ^ 16 -> 0 <= q ->
  is_set (set_bools i bits bv) q =
    (if decide (i <= q) then nth (Z.to_nat (q - i)) bits false else false) || is_set bv q.
Proof.
  revert i bv. induction bits as [|b bits IH]; intros i bv Hi Hl Hq; cbn [set_bools length] in *.
  { rewrite nth_overflow by (simpl; lia). by case_decide. }
  rewrite IH, Z.mod_small by lia.
  assert (is_set (if b then set bv i else bv) q = (b && (i =? q)) || is_set bv q) as ->
    by (destruct b; [by rewrite is_set_set|done]).
  rewrite orb_assoc. f_equal. destruct (Z.eqb_spec i q) as [->|Hne].
  - rewrite decide_False, decide_True, Z.sub_diag, andb_true_r by lia. done.
  - rewrite andb_false_r, orb_false_r. repeat case_decide; try (lia || done).
    by replace (Z.to_nat (q - i)) with (S (Z.to_nat (q - (i + 1)))) by lia.
Qed.

Lemma is_set_zeros n q : 0 <= q -> is_set (mk (replicate n 0)) q = false.
Proof.
  intros Hq. rewrite is_set_bit by done. cbn [inner]. rewrite <-(app_nil_l (replicate n 0)), nth_grow.
  rewrite nth_overflow by (simpl; lia). unfold bit. apply Z.testbit_0_l.
Qed.

Lemma is_set_bitand a b q : 0 <= q -> is_set (bitand a b) q = is_set a q && is_set b q.
Proof.
  intros Hq. rewrite !is_set_bit by done. unfold bit. rewrite <-Z.land_spec. f_equal.
  unfold bitand. cbn [inner]. generalize (Z.to_nat (q / 8)) (inner a) (inner b). clear.
  intros n l. revert n. induction l as [|x l IH]; intros [|n] [|y l'];
    cbn [zip_with nth]; rewrite ?Z.land_0_r; done || apply IH.
Qed.

Lemma is_set_bitor a b q : 0 <= q -> is_set (bitor a b) q = is_set a q || is_set b q.
Proof.
  intros Hq. rewrite !is_set_bit by done. unfold bit. rewrite <-Z.lor_spec. f_equal.
  unfold bitor. cbn [inner]. generalize (Z.to_nat (q / 8)). intros n.
  rewrite nth_lookup, list_lookup_fmap.
  destruct (decide (n < Nat.max (length (inner a)) (length (inner b)))%nat).
  - rewrite lookup_seq_lt by lia. done.
  - rewrite lookup_seq_ge, !nth_overflow by lia. done.
Qed.

(** ** Properties *)

(** setting a position sets exactly that position, the vector growing as
    needed, and keeps the vector within the bound of its type. *)
Theorem bitvec_set_spec (bv : t) (p q : Z) : 0 <= p < 2 ^ 16 -> 0 <= q -> well_formed bv ->
  is_set (set bv p) q = (p =? q) || is_set bv q /\ well_formed (set bv p).
Proof. intros. split; [apply is_set_set; lia|by apply bitvec_set_well_formed]. Qed.

Lemma bitvec_set_spec_witness :
  is_set (set (mk [128]) 13) 13 = true /\ well_formed (set (mk [128]) 13).
Proof.
  destruct (bitvec_set_spec (mk [128]) 13 13) as [H1 H2]; [lia|lia| |].
  - split; [repeat constructor; unfold is_byte; lia|by vm_compute].
  - split; [exact H1|exact H2].
Defined.

(** [iter_ones] lists every set position once, [count_ones] is how many
    there are and [last_set_bit] is the last of them. *)
Theorem bitvec_ones (bv : t) : well_formed bv ->
  (forall q, q ∈ iter_ones bv <-> 0 <= q /\ is_set bv q = true) /\ NoDup (iter_ones bv) /\
  count_ones bv = Z.of_nat (length (iter_ones bv)) /\ last_set_bit bv = last (iter_ones bv).
Proof.
  intros Hwf. rewrite (iter_ones_all bv Hwf). destruct bv as [bytes], Hwf as [Hb Hl]. cbn [inner] in *.
  split_and!; [apply elem_of_all_ones|apply all_ones_NoDup|by apply count_ones_all|].
  by apply last_set_bit_all.
Qed.

Lemma bitvec_ones_witness :
  count_ones (mk [5; 0; 192]) = Z.of_nat (length (iter_ones (mk [5; 0; 192]))) /\
  last_set_bit (mk [5; 0; 192]) = last (iter_ones (mk [5; 0; 192])).
Proof.
  apply (bitvec_ones (mk [5; 0; 192])).
  split; [repeat constructor; unfold is_byte; lia|by vm_compute].
Defined.

(** a vector built from booleans has exactly the true positions set; a
    conjunction or disjunction of vectors is that of their bits. *)
Theorem bitvec_from_bools (bits : list bool) (other : t) (q : Z) :
  Z.of_nat (length bits) <= MAX_BUCKETS * BUCKET_SIZE -> 0 <= q ->
  exists bv, from_vec_bool bits = Ok bv /\ is_set bv q = nth (Z.to_nat q) bits false /\
    is_set (bitand bv other) q = is_set bv q && is_set other q /\
    is_set (bitor bv other) q = is_set bv q || is_set other q.
Proof.
  intros Hl Hq. unfold from_vec_bool. rewrite assert_true by (by apply Z.leb_le). mstep.
  eexists. split; [reflexivity|]. rewrite is_set_bitand, is_set_bitor by done. split; [|done].
  unfold MAX_BUCKETS, BUCKET_SIZE in Hl. rewrite is_set_set_bools by lia. unfold with_num_bits.
  by rewrite is_set_zeros, decide_True, orb_false_r, Z.sub_0_r by lia.
Qed.

Lemma bitvec_from_bools_witness :
  exists bv, from_vec_bool [true; false; true] = Ok bv /\ is_set bv 2 = true.
Proof.
  destruct (bitvec_from_bools [true; false; true] default 2) as (bv & H1 & H2 & _);
    [by vm_compute|lia|]. exists bv. split; [exact H1|exact H2].
Defined.
End BitVec.
