(* ===== verification/ValidatorVerifier.v ===== *)
(** * Validators, quorums and aggregate signatures

    Model of [types/src/aggregate_signature.rs] and
    [types/src/validator_verifier.rs].  The BLS signature scheme of
    [aptos_crypto] is a parameter ([CryptoTypes], [Bls]); the theorems show that
    the voters of an accepted signature hold a quorum of the voting power, that
    quorums intersect in more than a third of it and that the signatures of a
    quorum are accepted. *)

From S2P Require Import Prelude Collections Merkle BitVec.

(** Hashes, keys and signatures: what the code uses of their types. *)
Class CryptoTypes := {
  HashValue : Type;
  HashValue_eq_dec :: EqDecision HashValue;
  HashValue_zero : HashValue;
  PublicKey : Type;
  PublicKey_eq_dec :: EqDecision PublicKey;
  Signature : Type;
  Signature_eq_dec :: EqDecision Signature;
}.

(** The operations of [bls12381] that do not depend on the signed message. *)
Class BlsAggregate `{CryptoTypes} := {
  aggregate_sigs : list Signature -> option Signature;
  aggregate_keys : list PublicKey -> option PublicKey;
}.

(** The verification of signatures on messages of type [M]: of one signer, of
    several signers of one message, and of several signers of a message each. *)
Class Bls `{CryptoTypes} (M : Type) := {
  verify_struct_signature : PublicKey -> M -> Signature -> bool;
  verify_multi : Signature -> M -> PublicKey -> bool;
  verify_aggregate : Signature -> list M -> list PublicKey -> bool;
}.

(** What BLS multi-signatures promise: individual signatures on one message, and
    the keys they verify under in any order, aggregate to a signature that
    verifies under the aggregated key. *)
Definition multi_signatures_correct `{CryptoTypes} `{!BlsAggregate} (M : Type) `{!Bls M} : Prop :=
  forall (message : M) keys keys' sigs, keys <> [] ->
    Forall2 (fun key sig => verify_struct_signature key message sig = true) keys sigs ->
    keys' ≡ₚ keys ->
    exists key sig, aggregate_keys keys' = Some key /\ aggregate_sigs sigs = Some sig /\
      verify_multi sig message key = true.

(** And for signatures on a message each: they aggregate to a signature that
    verifies for the keys and messages, in any order of the signers. *)
Definition aggregate_signatures_correct `{CryptoTypes} `{!BlsAggregate} (M : Type) `{!Bls M} : Prop :=
  forall (signed signed' : list (PublicKey * M)) sigs, signed <> [] ->
    Forall2 (fun km sig => verify_struct_signature km.1 km.2 sig = true) signed sigs ->
    signed' ≡ₚ signed ->
    exists sig, aggregate_sigs sigs = Some sig /\ verify_aggregate sig signed'.*2 signed'.*1 = true.

(** An instance at which the theorems are exercised: free hashes, and keys and
    signatures as bit masks of signers. *)
#[export] Instance free_crypto : CryptoTypes := {|
  HashValue := digest;
  HashValue_zero := Leaf 0;
  PublicKey := Z;
  Signature := Z;
|}.
#[export] Instance free_aggregate : @BlsAggregate free_crypto := {|
  aggregate_sigs := fun sigs => Some (foldr Z.lor 0 (sigs : list Z));
  aggregate_keys := fun keys => Some (foldr Z.lor 0 (keys : list Z));
|}.
#[export] Instance free_bls (M : Type) : @Bls free_crypto M := {|
  verify_struct_signature := fun key _ sig => (key : Z) =? sig;
  verify_multi := fun sig _ key => (key : Z) =? sig;
  verify_aggregate := fun sig _ keys => foldr Z.lor 0 (keys : list Z) =? sig;
|}.

(** An account address, as the number its 32 bytes spell. *)
Abbreviation AccountAddress := Z.

Module AggregateSignature.

Section definitions.
Context `{CryptoTypes}.

Record t := new {
  validator_bitmask : BitVec.t;
  sig : option Signature;
}.

#[global] Instance t_eq_dec : EqDecision t.
Proof. solve_decision. Defined.

Definition empty : t := new BitVec.default None.

(** The [filter_map] over the enumerated addresses, from [index] on. *)
Fixpoint signers_from (bitmask : BitVec.t) (index : Z) (addresses : list AccountAddress) :
    list AccountAddress :=
  match addresses with
  | [] => []
  | addr :: addresses =>
      let rest := signers_from bitmask (index + 1) addresses in
      if BitVec.is_set bitmask (index `mod` 2 ^ 16) then addr :: rest else rest
  end.

Definition get_signers_addresses (self : t) (validator_addresses : list AccountAddress) :
    list AccountAddress :=
  signers_from (validator_bitmask self) 0 validator_addresses.

Definition get_num_voters (self : t) : Z := BitVec.count_ones (validator_bitmask self).

End definitions.
End AggregateSignature.

Module PartialSignatures.

Section definitions.
Context `{CryptoTypes}.

Record t := new { signatures : list (AccountAddress * Signature) }.

Definition empty : t := new [].

Definition is_empty (self : t) : bool :=
  match signatures self with [] => true | _ => false end.

Definition remove_signature (self : t) (validator : AccountAddress) : t :=
  new (BTreeMap.remove (signatures self) validator).

Definition add_signature (self : t) (validator : AccountAddress) (signature : Signature) : t :=
  new (BTreeMap.or_insert (signatures self) validator signature).

End definitions.
End PartialSignatures.

Inductive VerifyError :=
  | UnknownAuthor
  | TooLittleVotingPower (voting_power expected_voting_power : Z)
  | EmptySignature
  | InvalidMultiSignature
  | InvalidAggregatedSignature
  | InconsistentBlockInfo
  | FailedToAggregatePubKey
  | FailedToAggregateSignature
  | FailedToVerifyMultiSignature
  | InvalidBitVec
  | FailedToVerifyAggregatedSignature.

Module ValidatorConsensusInfo.

Section definitions.
Context `{CryptoTypes}.

Record t := new {
  address : AccountAddress;
  public_key : PublicKey;
  voting_power : Z;
}.

#[global] Instance t_eq_dec : EqDecision t.
Proof. solve_decision. Defined.
End definitions.

End ValidatorConsensusInfo.

Module ValidatorVerifier.
Import ValidatorConsensusInfo.

Section definitions.
Context `{CryptoTypes}.

Record t := mk {
  validator_infos : list ValidatorConsensusInfo.t;
  quorum_voting_power : Z;
  total_voting_power : Z;
  address_to_validator_index : gmap AccountAddress Z;
}.

#[global] Instance t_eq_dec : EqDecision t.
Proof. solve_decision. Defined.

(** [.iter().enumerate().map(..).collect()] into a [HashMap], from [index] on:
    a later entry replaces an earlier one with the same address. *)
Fixpoint index_from (index : Z) (infos : list ValidatorConsensusInfo.t)
    (m : gmap AccountAddress Z) : gmap AccountAddress Z :=
  match infos with
  | [] => m
  | info :: infos => index_from (index + 1) infos (<[address info := index]> m)
  end.

Definition build_index (validator_infos : list ValidatorConsensusInfo.t)
    (quorum_voting_power total_voting_power : Z) : t :=
  mk validator_infos quorum_voting_power total_voting_power (index_from 0 validator_infos ∅).

(** The [fold] of [sum_voting_power] with its [checked_add(..).expect(..)]. *)
Fixpoint sum_from {E} (sum : Z) (infos : list ValidatorConsensusInfo.t) : outcome E Z :=
  match infos with
  | [] => Ok sum
  | info :: infos => sum ← u128_add sum (voting_power info); sum_from sum infos
  end.

Definition sum_voting_power {E} (infos : list ValidatorConsensusInfo.t) : outcome E Z :=
  sum_from 0 infos.

Definition new {E} (validator_infos : list ValidatorConsensusInfo.t) : outcome E t :=
  total_voting_power ← (sum_voting_power validator_infos : outcome E Z);
  quorum_voting_power ←
    (match validator_infos with
     | [] => Ok 0
     | _ => twice ← u128_mul total_voting_power 2; u128_add (twice / 3) 1
     end : outcome E Z);
  Ok (build_index validator_infos quorum_voting_power total_voting_power).

Definition new_with_quorum_voting_power (validator_infos : list ValidatorConsensusInfo.t)
    (quorum_voting_power : Z) : result t :=
  total_voting_power ← sum_voting_power validator_infos;
  ensure (quorum_voting_power <=? total_voting_power)
    "Quorum voting power is greater than the sum of all voting power of authors";;
  Ok (build_index validator_infos quorum_voting_power total_voting_power).

Definition new_single {E} (author : AccountAddress) (public_key : PublicKey) : outcome E t :=
  new [ValidatorConsensusInfo.new author public_key 1].

(** [self.address_to_validator_index.get(author).map(|index|
    self.validator_infos[*index])]: indexing out of bounds panics. *)
Definition get_info {E} (self : t) (author : AccountAddress) :
    outcome E (option ValidatorConsensusInfo.t) :=
  match address_to_validator_index self !! author with
  | None => Ok None
  | Some index => info ← expect (validator_infos self !! Z.to_nat index); Ok (Some info)
  end.

Definition get_public_key {E} (self : t) (author : AccountAddress) : outcome E (option PublicKey) :=
  info ← (get_info self author : outcome E _); Ok (option_map public_key info).

Definition get_voting_power {E} (self : t) (author : AccountAddress) : outcome E (option Z) :=
  info ← (get_info self author : outcome E _); Ok (option_map voting_power info).

Definition get_ordered_account_addresses (self : t) : list AccountAddress :=
  address <$> validator_infos self.

Definition len (self : t) : Z := Z.of_nat (length (validator_infos self)).

Definition is_empty (self : t) : bool := len self =? 0.

(** The loop of [check_voting_power] over the authors. *)
Fixpoint add_voting_power (self : t) (aggregated_voting_power : Z)
    (authors : list AccountAddress) : outcome VerifyError Z :=
  match authors with
  | [] => Ok aggregated_voting_power
  | account_address :: authors =>
      power ← get_voting_power self account_address;
      match power with
      | Some voting_power =>
          sum ← u128_add aggregated_voting_power voting_power;
          add_voting_power self sum authors
      | None => Err UnknownAuthor
      end
  end.

Definition check_voting_power (self : t) (authors : list AccountAddress)
    (check_super_majority : bool) : outcome VerifyError unit :=
  aggregated_voting_power ← add_voting_power self 0 authors;
  target ←
    (if check_super_majority then Ok (quorum_voting_power self)
     else rest ← u128_sub (total_voting_power self) (quorum_voting_power self); u128_add rest 1);
  if aggregated_voting_power <? target
  then Err (TooLittleVotingPower aggregated_voting_power target)
  else Ok tt.

Definition check_num_of_voters (num_validators : Z) (bitvec : BitVec.t) :
    outcome VerifyError unit :=
  if negb (BitVec.num_buckets bitvec =? BitVec.required_buckets num_validators)
  then Err InvalidBitVec
  else
    match BitVec.last_set_bit bitvec with
    | Some last_bit => if num_validators <=? last_bit then Err InvalidBitVec else Ok tt
    | None => Ok tt
    end.

(** The loop over [iter_ones]: the validators of the set bits. *)
Definition signers (self : t) (bitvec : BitVec.t) :
    outcome VerifyError (list ValidatorConsensusInfo.t) :=
  collect (fun index => ok_or (validator_infos self !! Z.to_nat index) UnknownAuthor)
    (BitVec.iter_ones bitvec).
End definitions.

Section signatures.
Context `{CryptoTypes} `{!BlsAggregate}.

(** The loop of [aggregate_signatures] over the partial signatures. *)
Fixpoint mark_signers (self : t) (masks : BitVec.t)
    (signatures : list (AccountAddress * Signature)) : outcome VerifyError BitVec.t :=
  match signatures with
  | [] => Ok masks
  | (addr, _) :: signatures =>
      index ← ok_or (address_to_validator_index self !! addr) UnknownAuthor;
      mark_signers self (BitVec.set masks (index `mod` 2 ^ 16)) signatures
  end.

Definition aggregate_signatures (self : t) (partial_signatures : PartialSignatures.t) :
    outcome VerifyError AggregateSignature.t :=
  let signatures := PartialSignatures.signatures partial_signatures in
  masks ← mark_signers self (BitVec.with_num_bits (len self `mod` 2 ^ 16)) signatures;
  aggregated_sig ← ok_or (aggregate_sigs signatures.*2) FailedToAggregateSignature;
  Ok (AggregateSignature.new masks (Some aggregated_sig)).

Context {M : Type} `{!Bls M}.

Definition verify (self : t) (author : AccountAddress) (message : M) (signature : Signature) :
    outcome VerifyError unit :=
  key ← get_public_key self author;
  match key with
  | Some public_key =>
      ensure (verify_struct_signature public_key message signature) InvalidMultiSignature
  | None => Err UnknownAuthor
  end.

Definition verify_multi_signatures (self : t) (message : M)
    (multi_signature : AggregateSignature.t) : outcome VerifyError unit :=
  let bitvec := AggregateSignature.validator_bitmask multi_signature in
  check_num_of_voters (len self `mod` 2 ^ 16) bitvec;;
  voters ← signers self bitvec;
  check_voting_power self (address <$> voters) true;;
  multi_sig ← ok_or (AggregateSignature.sig multi_signature) EmptySignature;
  aggregated_key ← ok_or (aggregate_keys (public_key <$> voters)) FailedToAggregatePubKey;
  ensure (verify_multi multi_sig message aggregated_key) InvalidMultiSignature.

Definition verify_aggregate_signatures (self : t) (messages : list M)
    (aggregated_signature : AggregateSignature.t) : outcome VerifyError unit :=
  let bitvec := AggregateSignature.validator_bitmask aggregated_signature in
  check_num_of_voters (len self `mod` 2 ^ 16) bitvec;;
  voters ← signers self bitvec;
  check_voting_power self (address <$> voters) true;;
  aggregated_sig ← ok_or (AggregateSignature.sig aggregated_signature) EmptySignature;
  ensure (verify_aggregate aggregated_sig messages (public_key <$> voters))
    InvalidAggregatedSignature.
End signatures.

(** ** Voting power *)
Section power.
Context `{CryptoTypes}.
Implicit Types (infos : list ValidatorConsensusInfo.t) (v : t) (authors : list AccountAddress).

(** The voting power of the validators whose address satisfies [P]. *)
Fixpoint weight (P : AccountAddress -> bool) infos : Z :=
  match infos with
  | [] => 0
  | info :: infos => (if P (address info) then voting_power info else 0) + weight P infos
  end.

Definition total infos : Z := weight (fun _ => true) infos.
Definition power infos (a : AccountAddress) : Z := weight (Z.eqb a) infos.
Definition power_of infos authors : Z := foldr Z.add 0 (power infos <$> authors).
Definition mem (authors : list AccountAddress) (a : AccountAddress) : bool :=
  bool_decide (a ∈ authors).

Definition powers_u64 infos : Prop := Forall (fun info => in_u64 (voting_power info)) infos.

Record well_formed v : Prop := {
  wf_addresses : NoDup (get_ordered_account_addresses v);
  wf_powers : powers_u64 (validator_infos v);
  wf_len : len v < 2 ^ 16;
  wf_total : total_voting_power v = total (validator_infos v);
  wf_index a i : address_to_validator_index v !! a = Some i <->
    0 <= i /\ address <$> validator_infos v !! Z.to_nat i = Some a;
}.

Lemma weight_ext P Q infos : (forall a, P a = Q a) -> weight P infos = weight Q infos.
Proof. intros HPQ. induction infos as [|x infos IH]; cbn [weight]; [done|]. by rewrite HPQ, IH. Qed.

Lemma weight_nonneg P infos : powers_u64 infos -> 0 <= weight P infos.
Proof. unfold in_u64. induction 1; cbn [weight]; [lia|]. unfold in_u64 in *. case_match; lia. Qed.

Lemma weight_mono P Q infos : powers_u64 infos -> (forall a, P a = true -> Q a = true) ->
  weight P infos <= weight Q infos.
Proof.
  intros Hp HPQ. induction Hp as [|x infos Hx _ IH]; cbn [weight]; [lia|]. unfold in_u64 in Hx.
  destruct (P (address x)) eqn:E; [rewrite HPQ by done|case_match]; lia.
Qed.

Lemma weight_or P Q infos :
  weight P infos + weight Q infos =
  weight (fun a => P a || Q a) infos + weight (fun a => P a && Q a) infos.
Proof.
  induction infos as [|x infos IH]; cbn [weight]; [done|].
  destruct (P (address x)), (Q (address x)); cbn [andb orb]; lia.
Qed.

Lemma weight_not_in P infos : (forall a, a ∈ address <$> infos -> P a = false) -> weight P infos = 0.
Proof.
  induction infos as [|x infos IH]; intros HP; cbn [weight]; [done|].
  rewrite HP, IH by (intros; set_solver). done.
Qed.

Lemma power_lookup infos i info : NoDup (address <$> infos) ->
  infos !! i = Some info -> power infos (address info) = voting_power info.
Proof.
  revert i. induction infos as [|x infos IH]; intros i Hnd Hi; [done|].
  rewrite fmap_cons in Hnd. apply NoDup_cons in Hnd as [Hx Hnd]. unfold power. cbn [weight].
  destruct i as [|i]; cbn in Hi.
  - injection Hi as ->. rewrite Z.eqb_refl, weight_not_in; [lia|].
    intros a Ha. apply Z.eqb_neq. by intros <-.
  - pose proof (list_elem_of_fmap_2 address _ _ (list_elem_of_lookup_2 _ _ _ Hi)) as Hin.
    destruct (Z.eqb_spec (address info) (address x)) as [E|]; [by rewrite E in Hin|].
    by apply (IH i).
Qed.

(** The powers of distinct authors add up to the weight of their set. *)
Lemma power_of_weight infos authors : NoDup authors ->
  power_of infos authors = weight (mem authors) infos.
Proof.
  induction 1 as [|a authors Ha _ IH]; unfold power_of in *; cbn [fmap list_fmap foldr].
  - symmetry. by apply weight_not_in.
  - rewrite IH. unfold power. rewrite weight_or, (weight_not_in (fun b => _ && _)), Z.add_0_r.
    + apply weight_ext. intros b. unfold mem.
      destruct (Z.eqb_spec a b) as [->|]; cbn [orb]; symmetry;
        [by apply bool_decide_eq_true_2; set_solver|apply bool_decide_ext; set_solver].
    + intros b _. unfold mem. destruct (Z.eqb_spec a b) as [->|]; [|done].
      by apply bool_decide_eq_false_2.
Qed.

Lemma total_bound infos : powers_u64 infos -> total infos <= Z.of_nat (length infos) * 2 ^ 64.
Proof.
  unfold total. induction 1 as [|x infos Hx _ IH]; cbn [weight length]; [lia|].
  unfold in_u64 in Hx. lia.
Qed.

Lemma power_of_total infos authors : powers_u64 infos -> NoDup authors ->
  0 <= power_of infos authors <= total infos.
Proof.
  intros Hp Hnd. rewrite power_of_weight by done.
  split; [by apply weight_nonneg|by apply weight_mono].
Qed.

(** ** The index of addresses *)
Lemma index_from_notin k infos m a : a ∉ address <$> infos -> index_from k infos m !! a = m !! a.
Proof.
  revert k m. induction infos as [|x infos IH]; intros k m Ha; cbn [index_from]; [done|].
  rewrite fmap_cons in Ha. rewrite IH by set_solver. rewrite lookup_insert_ne; [done|set_solver].
Qed.

Lemma index_from_lookup k infos m i info : NoDup (address <$> infos) -> infos !! i = Some info ->
  index_from k infos m !! address info = Some (k + Z.of_nat i).
Proof.
  revert k m i. induction infos as [|x infos IH]; intros k m i Hnd Hi; [done|].
  rewrite fmap_cons in Hnd. apply NoDup_cons in Hnd as [Hx Hnd]. cbn [index_from].
  destruct i as [|i]; cbn in Hi.
  - injection Hi as ->. rewrite index_from_notin, lookup_insert_eq by done. f_equal. lia.
  - rewrite (IH _ _ i) by done. f_equal. lia.
Qed.

Lemma index_from_spec infos a i : NoDup (address <$> infos) ->
  index_from 0 infos ∅ !! a = Some i <-> 0 <= i /\ address <$> infos !! Z.to_nat i = Some a.
Proof.
  intros Hnd. split.
  - intros Hi. destruct (decide (a ∈ address <$> infos)) as [Hin|Hin].
    2: { by rewrite index_from_notin, lookup_empty in Hi. }
    apply list_elem_of_fmap in Hin as (info & -> & Hin).
    apply list_elem_of_lookup_1 in Hin as [j Hj].
    rewrite (index_from_lookup _ _ _ j) in Hi by done. injection Hi as <-.
    split; [lia|]. by rewrite Z.add_0_l, Nat2Z.id, Hj.
  - intros [H0 Hi]. apply fmap_Some in Hi as (info & Hi & ->).
    rewrite (index_from_lookup _ _ _ (Z.to_nat i)) by done. f_equal. lia.
Qed.

Lemma build_index_well_formed infos q :
  NoDup (address <$> infos) -> powers_u64 infos -> Z.of_nat (length infos) < 2 ^ 16 ->
  well_formed (build_index infos q (total infos)).
Proof. intros. split; try done. intros. by apply index_from_spec. Qed.

Lemma sum_from_Ok {E} s infos : powers_u64 infos -> 0 <= s ->
  s + Z.of_nat (length infos) * 2 ^ 64 < 2 ^ 128 -> sum_from (E:=E) s infos = Ok (s + total infos).
Proof.
  intros Hp. revert s. unfold total. induction Hp as [|x infos Hx _ IH]; intros s Hs Hb;
    cbn [sum_from weight length] in *; [by rewrite Z.add_0_r|].
  unfold in_u64 in Hx. unfold u128_add. rewrite (proj2 (Z.ltb_lt _ _)) by lia. mstep.
  rewrite IH by lia. f_equal. lia.
Qed.

Definition quorum infos : Z :=
  match infos with [] => 0 | _ => total infos * 2 / 3 + 1 end.

Lemma new_Ok {E} infos : powers_u64 infos -> Z.of_nat (length infos) < 2 ^ 16 ->
  new (E:=E) infos = Ok (build_index infos (quorum infos) (total infos)).
Proof.
  intros Hp Hl. unfold new, sum_voting_power. rewrite sum_from_Ok by (done || lia). mstep.
  rewrite Z.add_0_l. pose proof (total_bound _ Hp). pose proof (weight_nonneg (fun _ => true) _ Hp).
  fold (total infos) in *. unfold quorum, u128_mul, u128_add. destruct infos as [|x infos]; [done|].
  rewrite (proj2 (Z.ltb_lt _ _)) by lia. mstep.
  pose proof (Z.div_le_upper_bound (total (x :: infos) * 2) 3 (total (x :: infos)) ltac:(lia) ltac:(lia)).
  rewrite (proj2 (Z.ltb_lt _ _)) by lia. done.
Qed.

(** ** [check_voting_power] compares the power of the authors *)
Lemma get_voting_power_known {E} v a : well_formed v -> a ∈ get_ordered_account_addresses v ->
  get_voting_power (E:=E) v a = Ok (Some (power (validator_infos v) a)).
Proof.
  intros Hwf Ha. apply list_elem_of_fmap in Ha as (info & -> & Hin).
  apply list_elem_of_lookup_1 in Hin as [j Hj]. unfold get_voting_power, get_info.
  rewrite (proj2 (wf_index v Hwf _ (Z.of_nat j))).
  - rewrite Nat2Z.id, Hj. cbn. do 2 f_equal. symmetry. eapply power_lookup; [apply Hwf|done].
  - rewrite Nat2Z.id, Hj. split; [lia|done].
Qed.

Lemma get_voting_power_unknown {E} v a : well_formed v -> a ∉ get_ordered_account_addresses v ->
  get_voting_power (E:=E) v a = Ok None.
Proof.
  intros Hwf Ha. unfold get_voting_power, get_info.
  destruct (address_to_validator_index v !! a) as [i|] eqn:E1; [|done].
  apply (wf_index v Hwf) in E1 as [_ Hi]. apply fmap_Some in Hi as (info & Hi & ->).
  exfalso. apply Ha. apply list_elem_of_fmap. exists info. split; [done|].
  by eapply list_elem_of_lookup_2.
Qed.

Lemma add_voting_power_spec v s authors : well_formed v ->
  (forall a, a ∈ authors -> a ∈ get_ordered_account_addresses v) -> 0 <= s ->
  s + power_of (validator_infos v) authors < 2 ^ 128 ->
  add_voting_power v s authors = Ok (s + power_of (validator_infos v) authors).
Proof.
  intros Hwf. revert s. induction authors as [|a authors IH]; intros s Hk Hs Hb;
    unfold power_of in *; cbn [add_voting_power fmap list_fmap foldr] in *; [by rewrite Z.add_0_r|].
  rewrite get_voting_power_known by set_solver. mstep.
  pose proof (weight_nonneg (Z.eqb a) _ (wf_powers v Hwf)) as Ha. fold (power (validator_infos v) a) in Ha.
  assert (0 <= foldr Z.add 0 (power (validator_infos v) <$> authors)).
  { clear -Hwf. induction authors as [|b authors IH]; cbn; [lia|].
    pose proof (weight_nonneg (Z.eqb b) _ (wf_powers v Hwf)). unfold power at 1. lia. }
  unfold u128_add. rewrite (proj2 (Z.ltb_lt _ _)) by lia. mstep.
  rewrite IH by (set_solver || lia). f_equal. lia.
Qed.

Lemma add_voting_power_unknown v s authors r : well_formed v ->
  add_voting_power v s authors = Ok r ->
  forall a, a ∈ authors -> a ∈ get_ordered_account_addresses v.
Proof.
  intros Hwf. revert s. induction authors as [|b authors IH]; intros s Hr a Ha; [set_solver|].
  cbn [add_voting_power] in Hr.
  destruct (decide (b ∈ get_ordered_account_addresses v)) as [Hb|Hb].
  - rewrite get_voting_power_known in Hr by done. cbn [mbind outcome_bind] in Hr.
    apply bind_Ok in Hr as (s' & _ & Hr). apply elem_of_cons in Ha as [->|]; eauto.
  - by rewrite get_voting_power_unknown in Hr.
Qed.

Lemma check_voting_power_iff v authors : well_formed v -> NoDup authors ->
  check_voting_power v authors true = Ok tt <->
  (forall a, a ∈ authors -> a ∈ get_ordered_account_addresses v) /\
  quorum_voting_power v <= power_of (validator_infos v) authors.
Proof.
  intros Hwf Hnd.
  pose proof (power_of_total _ authors (wf_powers v Hwf) Hnd).
  pose proof (total_bound _ (wf_powers v Hwf)). pose proof (wf_len v Hwf) as Hl. unfold len in Hl.
  unfold check_voting_power. split.
  - intros Hc. apply bind_Ok in Hc as (r & Hr & Hc).
    pose proof (add_voting_power_unknown _ _ _ _ Hwf Hr) as Hk. split; [done|].
    rewrite add_voting_power_spec in Hr by (done || lia). injection Hr as <-.
    cbn [mbind outcome_bind] in Hc. destruct (Z.ltb_spec (0 + power_of (validator_infos v) authors)
      (quorum_voting_power v)); [done|lia].
  - intros [Hk Hq]. rewrite add_voting_power_spec by (done || lia). mstep.
    by rewrite (proj2 (Z.ltb_ge _ _)) by lia.
Qed.

(** Known authors have enough voting power, or too little. *)
Lemma check_voting_power_known v authors : well_formed v -> NoDup authors ->
  (forall a, a ∈ authors -> a ∈ get_ordered_account_addresses v) ->
  let power := power_of (validator_infos v) authors in
  check_voting_power v authors true =
    if power <? quorum_voting_power v then Err (TooLittleVotingPower power (quorum_voting_power v)) else Ok tt.
Proof.
  intros Hwf Hnd Hk power. pose proof (power_of_total _ authors (wf_powers v Hwf) Hnd).
  pose proof (total_bound _ (wf_powers v Hwf)). pose proof (wf_len v Hwf) as Hl. unfold len in Hl.
  unfold check_voting_power. rewrite add_voting_power_spec by (done || lia). mstep. by rewrite Z.add_0_l.
Qed.

(** ** Quorums intersect *)
Lemma quorums_intersect infos a b : powers_u64 infos -> NoDup a -> NoDup b ->
  power_of infos a + power_of infos b <=
  total infos + power_of infos (List.filter (mem b) a).
Proof.
  intros Hp Ha Hb.
  assert (NoDup (List.filter (mem b) a)) by (apply NoDup_ListNoDup, List.NoDup_filter, NoDup_ListNoDup, Ha).
  rewrite !power_of_weight, weight_or by done.
  assert (weight (fun x => mem a x && mem b x) infos = weight (mem (List.filter (mem b) a)) infos) as ->.
  { apply weight_ext. intros x. unfold mem at 3. destruct (mem a x && mem b x) eqn:E; symmetry.
    - apply andb_prop in E as [E1 E2]. apply bool_decide_eq_true_2, list_elem_of_In, filter_In.
      split; [|done]. apply bool_decide_eq_true_1 in E1. by apply list_elem_of_In.
    - apply bool_decide_eq_false_2. rewrite list_elem_of_In, filter_In, <-list_elem_of_In.
      intros [E1 E2]. unfold mem at 1 in E. rewrite bool_decide_eq_true_2, E2 in E; done. }
  pose proof (weight_mono (fun x => mem a x || mem b x) (fun _ => true) infos Hp ltac:(done)).
  unfold total. lia.
Qed.

(** ** The signers of a bit mask *)

(** The validators from position [index] on whose bit is set. *)
Fixpoint selected (bitvec : BitVec.t) (index : Z) infos : list ValidatorConsensusInfo.t :=
  match infos with
  | [] => []
  | info :: infos =>
      if BitVec.is_set bitvec index then info :: selected bitvec (index + 1) infos
      else selected bitvec (index + 1) infos
  end.

Lemma signers_from_selected bv k infos : 0 <= k -> k + Z.of_nat (length infos) <= 2 ^ 16 ->
  AggregateSignature.signers_from bv k (address <$> infos) = address <$> selected bv k infos.
Proof.
  revert k. induction infos as [|x infos IH]; intros k Hk Hl; [done|]. cbn [length] in Hl.
  rewrite fmap_cons. cbn [AggregateSignature.signers_from selected]. rewrite IH, Z.mod_small by lia.
  by destruct (BitVec.is_set bv k).
Qed.

Lemma collect_ext {E A B} (f g : A -> outcome E B) l :
  (forall x, x ∈ l -> f x = g x) -> collect f l = collect g l.
Proof.
  induction l as [|x l IH]; intros Hfg; cbn [collect]; [done|].
  rewrite Hfg, IH by set_solver. done.
Qed.

Lemma selected_none bv k infos : 0 <= k -> (forall q, k <= q -> BitVec.is_set bv q = false) ->
  selected bv k infos = [].
Proof.
  revert k. induction infos as [|x infos IH]; intros k Hk Hn; cbn [selected]; [done|].
  rewrite Hn by lia. apply IH; [lia|]. intros. apply Hn. lia.
Qed.

Lemma collect_selected bv k n infos : 0 <= k -> 0 <= n ->
  (forall q, k + n <= q -> BitVec.is_set bv q = false) ->
  (forall q, k + Z.of_nat (length infos) <= q -> BitVec.is_set bv q = false) ->
  collect (fun i => ok_or (infos !! Z.to_nat (i - k)) UnknownAuthor)
    (List.filter (BitVec.is_set bv) (seqZ k n)) = Ok (selected bv k infos).
Proof.
  revert k n. induction infos as [|x infos IH]; intros k n Hk Hn Hend Hlen.
  - cbn [selected]. replace (List.filter _ _) with (@nil Z); [done|].
    symmetry. rewrite (BitVec.filter_ext_seqZ _ (fun _ => false)).
    + clear. induction (seqZ k n); done.
    + intros i Hi. apply Hlen. cbn [length]. lia.
  - destruct (Z.eq_dec n 0) as [->|].
    { rewrite selected_none by (done || intros; apply Hend; lia). done. }
    rewrite seqZ_cons by lia. cbn [List.filter selected]. rewrite <-Z.add_1_r.
    assert (collect (fun i => ok_or ((x :: infos) !! Z.to_nat (i - k)) UnknownAuthor)
      (List.filter (BitVec.is_set bv) (seqZ (k + 1) (Z.pred n))) = Ok (selected bv (k + 1) infos)) as E.
    { rewrite <-(IH (k + 1) (Z.pred n)).
      - apply collect_ext. intros i Hi. apply list_elem_of_In, filter_In in Hi as [Hi _].
        apply list_elem_of_In, elem_of_seqZ in Hi.
        by replace (Z.to_nat (i - k)) with (S (Z.to_nat (i - (k + 1)))) by lia.
      - lia.
      - lia.
      - intros. apply Hend. lia.
      - intros. apply Hlen. cbn [length]. lia. }
    destruct (BitVec.is_set bv k); [|done].
    cbn [collect]. rewrite Z.sub_diag. cbn [lookup list_lookup ok_or Z.to_nat]. mstep. by rewrite E.
Qed.

Lemma is_set_out bv q : BitVec.len (BitVec.inner bv) * 8 <= q -> BitVec.is_set bv q = false.
Proof.
  intros Hq. unfold BitVec.is_set. rewrite (proj2 (Z.leb_le _ _)); [done|].
  apply Z.div_le_lower_bound; [done|]. unfold BitVec.BUCKET_SIZE. lia.
Qed.

Lemma signers_selected v bv : BitVec.well_formed bv ->
  (forall q, len v <= q -> BitVec.is_set bv q = false) ->
  signers v bv = Ok (selected bv 0 (validator_infos v)).
Proof.
  intros Hbv Hq. unfold signers. rewrite BitVec.iter_ones_all by done. unfold BitVec.all_ones.
  destruct bv as [bytes]. cbn [BitVec.inner]. rewrite <-(collect_selected _ 0 (BitVec.len bytes * 8)).
  - apply collect_ext. intros i _. by rewrite Z.sub_0_r.
  - done.
  - unfold BitVec.len. lia.
  - intros q ?. apply is_set_out. cbn [BitVec.inner]. lia.
  - intros q ?. apply Hq. unfold len. lia.
Qed.

Lemma check_num_of_voters_iff n bv : BitVec.well_formed bv -> 0 <= n ->
  check_num_of_voters n bv = Ok tt ->
  forall q, n <= q -> BitVec.is_set bv q = false.
Proof.
  intros Hbv Hn Hc q Hq. unfold check_num_of_voters in Hc. destruct (negb _); [done|].
  destruct (BitVec.is_set bv q) eqn:E; [|done].
  destruct (BitVec.last_set_bit_max bv q Hbv ltac:(lia) E) as (m & Hm & ?). rewrite Hm in Hc.
  destruct (Z.leb_spec n m); [done|lia].
Qed.

Lemma selected_sublist bv k infos : selected bv k infos `sublist_of` infos.
Proof.
  revert k. induction infos as [|x infos IH]; intros k; cbn [selected]; [done|].
  case_match; by constructor.
Qed.

Lemma elem_of_selected bv k infos info : NoDup (address <$> infos) -> 0 <= k ->
  info ∈ selected bv k infos <->
  exists i, infos !! i = Some info /\ BitVec.is_set bv (k + Z.of_nat i) = true.
Proof.
  revert k. induction infos as [|x infos IH]; intros k Hnd Hk; cbn [selected].
  { split; [by intros ?%elem_of_nil|]. by intros (? & ? & _). }
  rewrite fmap_cons in Hnd. apply NoDup_cons in Hnd as [Hx Hnd].
  assert ((exists i, infos !! i = Some info /\ BitVec.is_set bv (k + 1 + Z.of_nat i) = true) <->
    exists i, (x :: infos) !! S i = Some info /\ BitVec.is_set bv (k + Z.of_nat (S i)) = true) as E.
  { split; intros (i & Hi & Hs); exists i; (split; [done|]);
      replace (k + Z.of_nat (S i)) with (k + 1 + Z.of_nat i) in * by lia; done. }
  destruct (BitVec.is_set bv k) eqn:Ek; rewrite ?elem_of_cons, (IH (k + 1) Hnd ltac:(lia)), E.
  - split.
    + intros [->|(i & Hi)]; [exists 0%nat; by rewrite Z.add_0_r|by exists (S i)].
    + intros ([|i] & Hi & Hs); [left; by injection Hi|right; by exists i].
  - split; [intros (i & Hi); by exists (S i)|].
    intros ([|i] & Hi & Hs); [by rewrite Z.add_0_r, Ek in Hs|by exists i].
Qed.

Lemma selected_NoDup bv k infos : NoDup (address <$> infos) -> NoDup (address <$> selected bv k infos).
Proof.
  intros Hnd. eapply sublist_NoDup; [exact Hnd|]. apply fmap_sublist, selected_sublist.
Qed.
End power.

(** ** Aggregating partial signatures *)
Section aggregation.
Context `{CryptoTypes} `{!BlsAggregate}.
Implicit Types (v : t) (sigs : list (AccountAddress * Signature)).

Lemma mark_signers_spec v masks sigs : well_formed v -> BitVec.well_formed masks ->
  BitVec.num_buckets masks = BitVec.required_buckets (len v) ->
  (forall a, a ∈ sigs.*1 -> a ∈ get_ordered_account_addresses v) ->
  exists masks', mark_signers v masks sigs = Ok masks' /\ BitVec.well_formed masks' /\
    BitVec.num_buckets masks' = BitVec.required_buckets (len v) /\
    forall q, 0 <= q -> BitVec.is_set masks' q = true <->
      BitVec.is_set masks q = true \/ exists a, a ∈ sigs.*1 /\
        address_to_validator_index v !! a = Some q.
Proof.
  intros Hwf. revert masks. induction sigs as [|[a s] sigs IH]; intros masks Hm Hb Hk.
  { exists masks. split_and!; [done..|]. intros q Hq. split; [by left|]. by intros [|(? & ?%elem_of_nil & _)]. }
  cbn [mark_signers]. rewrite fmap_cons in Hk. cbn [fst] in Hk.
  assert (a ∈ get_ordered_account_addresses v) as Ha by (apply Hk; set_solver).
  apply list_elem_of_fmap in Ha as (info & -> & Hin). apply list_elem_of_lookup_1 in Hin as [j Hj].
  assert (address_to_validator_index v !! address info = Some (Z.of_nat j)) as Hidx.
  { apply (wf_index v Hwf). rewrite Nat2Z.id, Hj. split; [lia|done]. }
  pose proof (lookup_lt_Some _ _ _ Hj). pose proof (wf_len v Hwf). unfold len in *.
  rewrite Hidx. cbn [ok_or]. mstep. rewrite Z.mod_small by lia.
  destruct (IH (BitVec.set masks (Z.of_nat j))) as (masks' & E & Hm' & Hb' & Hs).
  - apply BitVec.bitvec_set_well_formed; [lia|done].
  - rewrite BitVec.num_buckets_set by (lia || rewrite Hb; unfold BitVec.required_buckets;
      rewrite (proj2 (Z.ltb_ge _ _)) by lia;
      assert (Z.of_nat j / 8 <= (Z.of_nat (length (validator_infos v)) - 1) / 8)
        by (apply Z.div_le_mono; lia); unfold BitVec.BUCKET_SIZE; lia). done.
  - intros b Hb2. apply Hk. set_solver.
  - exists masks'. split_and!; [done..|]. intros q Hq. rewrite Hs, BitVec.is_set_set, fmap_cons by lia.
    rewrite orb_true_iff, Z.eqb_eq. cbn [fst]. split.
    + intros [[<-|]|(b & ? & ?)]; [|by left|]; right; [exists (address info)|exists b]; set_solver.
    + intros [|(b & [->|?]%elem_of_cons & Hbq)]; [by left; right| |right; by exists b].
      left. left. rewrite Hidx in Hbq. by injection Hbq.
Qed.

Lemma aggregate_marks v sigs : well_formed v ->
  (forall a, a ∈ sigs.*1 -> a ∈ get_ordered_account_addresses v) ->
  exists masks, mark_signers v (BitVec.with_num_bits (len v `mod` 2 ^ 16)) sigs = Ok masks /\
    BitVec.well_formed masks /\ check_num_of_voters (len v `mod` 2 ^ 16) masks = Ok tt /\
    signers v masks = Ok (selected masks 0 (validator_infos v)) /\
    forall info, info ∈ selected masks 0 (validator_infos v) <->
      info ∈ validator_infos v /\ address info ∈ sigs.*1.
Proof.
  intros Hwf Hk. pose proof (wf_len v Hwf) as Hl. assert (0 <= len v) by (unfold len; lia).
  rewrite Z.mod_small by lia.
  destruct (mark_signers_spec v (BitVec.with_num_bits (len v)) sigs Hwf) as (masks & E & Hm & Hb & Hs);
    [apply BitVec.with_num_bits_well_formed; lia| |done|].
  { unfold BitVec.num_buckets, BitVec.with_num_bits, BitVec.len. cbn [BitVec.inner].
    rewrite length_replicate, Z2Nat.id; [done|]. unfold BitVec.required_buckets. case_match; [done|].
    zbool. assert (0 <= (len v - 1) / BitVec.BUCKET_SIZE) by (apply Z.div_pos; unfold BitVec.BUCKET_SIZE; lia).
    lia. }
  assert (forall q, 0 <= q -> BitVec.is_set masks q = true <->
    exists a, a ∈ sigs.*1 /\ address_to_validator_index v !! a = Some q) as Hset.
  { intros q Hq. rewrite Hs by done. unfold BitVec.with_num_bits. rewrite BitVec.is_set_zeros by done.
    split; [by intros [|]|by right]. }
  assert (forall q, len v <= q -> BitVec.is_set masks q = false) as Hout.
  { intros q Hq. apply not_true_is_false. intros Hq2. apply Hset in Hq2 as (a & _ & Hi); [|lia].
    apply (wf_index v Hwf) in Hi as [_ Hi]. apply fmap_Some in Hi as (info & Hi & _).
    apply lookup_lt_Some in Hi. unfold len in Hq. lia. }
  exists masks. split_and!; [done|done| |by apply signers_selected|].
  - unfold check_num_of_voters. rewrite Hb, Z.eqb_refl. cbn [negb].
    destruct (BitVec.last_set_bit masks) as [m|] eqn:Em; [|done].
    apply BitVec.last_set_bit_is_set in Em; [|done].
    destruct (Z.leb_spec (len v) m) as [Hle|]; [|done]. by rewrite Hout in Em.
  - intros info. rewrite elem_of_selected by (apply Hwf || done). setoid_rewrite Z.add_0_l. split.
    + intros (i & Hi & Hsi). split; [by eapply list_elem_of_lookup_2|].
      apply Hset in Hsi as (a & Ha & Hai); [|lia]. apply (wf_index v Hwf) in Hai as [_ Hai].
      rewrite Nat2Z.id, Hi in Hai. by injection Hai as <-.
    + intros [Hin Ha]. apply list_elem_of_lookup_1 in Hin as [i Hi]. exists i. split; [done|].
      apply Hset; [lia|]. exists (address info). split; [done|]. apply (wf_index v Hwf).
      rewrite Nat2Z.id, Hi. split; [lia|done].
Qed.

Lemma power_of_mem infos a b : NoDup a -> NoDup b -> (forall x, x ∈ a <-> x ∈ b) ->
  power_of infos a = power_of infos b.
Proof.
  intros Ha Hb Hab. rewrite !power_of_weight by done. apply weight_ext. intros x.
  unfold mem. by apply bool_decide_ext.
Qed.

Lemma check_voting_power_ext v a b : well_formed v -> NoDup a -> NoDup b ->
  (forall x, x ∈ a <-> x ∈ b) -> check_voting_power v b true = Ok tt ->
  check_voting_power v a true = Ok tt.
Proof.
  intros Hwf Ha Hb Hab Hp. apply check_voting_power_iff in Hp as [Hk Hp]; [|done..].
  apply check_voting_power_iff; [done..|]. split; [intros x Hx; by apply Hk, Hab|].
  by rewrite (power_of_mem _ a b).
Qed.

(** The validators selected for a quorum of authors are a quorum. *)
Lemma selected_quorum v authors voters : well_formed v -> NoDup authors -> NoDup (address <$> voters) ->
  (forall info, info ∈ voters <-> info ∈ validator_infos v /\ address info ∈ authors) ->
  check_voting_power v authors true = Ok tt ->
  check_voting_power v (address <$> voters) true = Ok tt.
Proof.
  intros Hwf Hnd Hnv Hsel Hpow. pose proof Hpow as [Hk _]%check_voting_power_iff; [|done..].
  apply (check_voting_power_ext v _ authors); [done..| |done]. intros a. rewrite list_elem_of_fmap. setoid_rewrite Hsel. split; [by intros (info & -> & _ & ?)|].
  intros Ha. pose proof (Hk a Ha) as Hi. apply list_elem_of_fmap in Hi as (info & -> & Hi). by exists info.
Qed.

Lemma verify_known {M} `{!Bls M} v a (message : M) s : well_formed v -> verify v a message s = Ok tt ->
  a ∈ get_ordered_account_addresses v.
Proof.
  intros Hwf Ha. unfold verify, get_public_key, get_info in Ha.
  destruct (address_to_validator_index v !! a) as [i|] eqn:Ei; [|done].
  apply (wf_index v Hwf) in Ei as [_ Ei]. apply fmap_Some in Ei as (info & Hi & ->).
  apply list_elem_of_fmap. exists info. split; [done|]. by eapply list_elem_of_lookup_2.
Qed.

(** The validators of a list of signers whose signatures are all valid. *)
Lemma valid_signers {M} `{!Bls M} v (message : M) sigs : well_formed v ->
  Forall (fun '(a, s) => verify v a message s = Ok tt) sigs ->
  exists infos, Forall (fun info => info ∈ validator_infos v) infos /\ address <$> infos = sigs.*1 /\
    Forall2 (fun key sig => verify_struct_signature key message sig = true)
      (public_key <$> infos) sigs.*2.
Proof.
  intros Hwf. induction 1 as [|[a s] sigs Ha _ (infos & Hin & Hadd & Hv)].
  { exists []. rewrite !fmap_nil. split_and!; done || constructor. }
  unfold verify, get_public_key, get_info in Ha.
  destruct (address_to_validator_index v !! a) as [i|] eqn:Ei; [|done].
  apply (wf_index v Hwf) in Ei as [_ Ei]. apply fmap_Some in Ei as (info & Hi & ->).
  rewrite Hi in Ha. cbn in Ha. apply ensure_Ok in Ha.
  exists (info :: infos). rewrite !fmap_cons. split_and!.
  - constructor; [by eapply list_elem_of_lookup_2|done].
  - by rewrite Hadd.
  - by constructor.
Qed.
End aggregation.

(** ** Accepted signatures *)
Section accepted.
Context `{CryptoTypes} `{!BlsAggregate} {M : Type} `{!Bls M}.

(** The checks that both kinds of verification start with. *)
Lemma accepted_quorum v bv voters : well_formed v -> BitVec.well_formed bv ->
  check_num_of_voters (len v `mod` 2 ^ 16) bv = Ok tt -> signers v bv = Ok voters ->
  check_voting_power v (address <$> voters) true = Ok tt ->
  voters = selected bv 0 (validator_infos v) /\ voters `sublist_of` validator_infos v /\
  NoDup (address <$> voters) /\
  address <$> voters = AggregateSignature.signers_from bv 0 (get_ordered_account_addresses v) /\
  quorum_voting_power v <= power_of (validator_infos v) (address <$> voters).
Proof using Type.
  intros Hwf Hbv Hnum Hs Hpow. pose proof (wf_len v Hwf) as Hl. assert (0 <= len v) by (unfold len; lia).
  rewrite Z.mod_small in Hnum by lia.
  pose proof (check_num_of_voters_iff (len v) _ Hbv ltac:(lia) Hnum) as Hout.
  rewrite signers_selected in Hs by done. injection Hs as <-.
  assert (NoDup (address <$> selected bv 0 (validator_infos v))) by (apply selected_NoDup, Hwf).
  apply check_voting_power_iff in Hpow as [_ Hpow]; [|done..].
  split_and!; [done|apply selected_sublist|done| |done].
  unfold get_ordered_account_addresses. rewrite signers_from_selected by (unfold len in *; lia). done.
Qed.

Lemma multi_signature_voters (v : t) (message : M) (agg : AggregateSignature.t) :
  well_formed v -> BitVec.well_formed (AggregateSignature.validator_bitmask agg) ->
  verify_multi_signatures v message agg = Ok tt ->
  exists voters key sig,
    voters `sublist_of` validator_infos v /\ NoDup (address <$> voters) /\
    address <$> voters =
      AggregateSignature.get_signers_addresses agg (get_ordered_account_addresses v) /\
    quorum_voting_power v <= power_of (validator_infos v) (address <$> voters) /\
    AggregateSignature.sig agg = Some sig /\
    aggregate_keys (public_key <$> voters) = Some key /\ verify_multi sig message key = true.
Proof.
  intros Hwf Hbv Hok. unfold verify_multi_signatures in Hok.
  apply bind_Ok in Hok as ([] & Hnum & Hok). apply bind_Ok in Hok as (voters & Hs & Hok).
  apply bind_Ok in Hok as ([] & Hpow & Hok).
  destruct (accepted_quorum v _ voters Hwf Hbv Hnum Hs Hpow) as (_ & ? & ? & ? & ?).
  destruct (AggregateSignature.sig agg) as [sig|]; [|done]. cbn [ok_or mbind outcome_bind] in Hok.
  destruct (aggregate_keys _) as [key|] eqn:Ek; [|done]. cbn [ok_or mbind outcome_bind] in Hok.
  apply ensure_Ok in Hok. by exists voters, key, sig.
Qed.

(** The same for signatures on a message each. *)
Lemma aggregate_signature_voters (v : t) (messages : list M) (agg : AggregateSignature.t) :
  well_formed v -> BitVec.well_formed (AggregateSignature.validator_bitmask agg) ->
  verify_aggregate_signatures v messages agg = Ok tt ->
  exists voters sig,
    voters `sublist_of` validator_infos v /\ NoDup (address <$> voters) /\
    address <$> voters =
      AggregateSignature.get_signers_addresses agg (get_ordered_account_addresses v) /\
    quorum_voting_power v <= power_of (validator_infos v) (address <$> voters) /\
    AggregateSignature.sig agg = Some sig /\
    verify_aggregate sig messages (public_key <$> voters) = true.
Proof.
  intros Hwf Hbv Hok. unfold verify_aggregate_signatures in Hok.
  apply bind_Ok in Hok as ([] & Hnum & Hok). apply bind_Ok in Hok as (voters & Hs & Hok).
  apply bind_Ok in Hok as ([] & Hpow & Hok).
  destruct (accepted_quorum v _ voters Hwf Hbv Hnum Hs Hpow) as (_ & ? & ? & ? & ?).
  destruct (AggregateSignature.sig agg) as [sig|]; [|done]. cbn [ok_or mbind outcome_bind] in Hok.
  apply ensure_Ok in Hok. by exists voters, sig.
Qed.
End accepted.

(** ** Properties *)

(** C15: any two sets of authors that [check_voting_power] accepts as quorums share
    validators with more than a third of the total voting power. *)
Theorem quorums_share_a_third `{CryptoTypes} (infos : list ValidatorConsensusInfo.t) (v : t)
    (a b : list AccountAddress) :
  infos <> [] -> NoDup (address <$> infos) -> powers_u64 infos ->
  Z.of_nat (length infos) < 2 ^ 16 -> new (E:=VerifyError) infos = Ok v ->
  NoDup a -> NoDup b ->
  check_voting_power v a true = Ok tt -> check_voting_power v b true = Ok tt ->
  total_voting_power v < 3 * power_of infos (List.filter (mem b) a).
Proof.
  intros Hne Hnd Hp Hl Hv Ha Hb Hqa Hqb. rewrite new_Ok in Hv by done. injection Hv as <-.
  pose proof (build_index_well_formed infos (quorum infos) Hnd Hp Hl) as Hwf.
  apply check_voting_power_iff in Hqa as [_ Hqa]; [|done..].
  apply check_voting_power_iff in Hqb as [_ Hqb]; [|done..]. cbn in Hqa, Hqb |- *.
  pose proof (quorums_intersect infos a b Hp Ha Hb).
  unfold quorum in Hqa, Hqb. destruct infos as [|x infos]; [done|].
  pose proof (Z.mul_succ_div_gt (total (x :: infos) * 2) 3 ltac:(lia)). lia.
Qed.

Definition four_validators : list ValidatorConsensusInfo.t :=
  [ValidatorConsensusInfo.new 7 1 10; ValidatorConsensusInfo.new 3 2 10;
   ValidatorConsensusInfo.new 5 4 10; ValidatorConsensusInfo.new 9 8 10].

Lemma quorums_share_a_third_witness :
  40 < 3 * power_of four_validators (List.filter (mem [5; 9; 3]) [7; 3; 5]).
Proof.
  apply (quorums_share_a_third four_validators
    (build_index four_validators (quorum four_validators) (total four_validators)));
    try done; try (by apply (bool_decide_unpack _)); by vm_compute.
Defined.

(** C16: a multi-signature is accepted only if its bit mask marks known validators,
    each once, that hold a quorum of the voting power, and the aggregated signature
    verifies for the message under the key aggregated of exactly these validators'
    keys; they are the voters [get_signers_addresses] reports.  That each of them has
    signed is what the signature scheme makes of a signature that verifies under the
    aggregated key, and is not part of the statement. *)
Theorem accepted_multi_signature `{CryptoTypes} `{!BlsAggregate} {M : Type} `{!Bls M}
    (v : t) (message : M) (agg : AggregateSignature.t) :
  well_formed v -> BitVec.well_formed (AggregateSignature.validator_bitmask agg) ->
  verify_multi_signatures v message agg = Ok tt ->
  exists voters key sig,
    voters `sublist_of` validator_infos v /\ NoDup (address <$> voters) /\
    address <$> voters =
      AggregateSignature.get_signers_addresses agg (get_ordered_account_addresses v) /\
    quorum_voting_power v <= power_of (validator_infos v) (address <$> voters) /\
    AggregateSignature.sig agg = Some sig /\
    aggregate_keys (public_key <$> voters) = Some key /\ verify_multi sig message key = true.
Proof. apply multi_signature_voters. Qed.

Lemma accepted_multi_signature_witness :
  exists voters key sig,
    voters `sublist_of` four_validators /\ NoDup (address <$> voters) /\
    address <$> voters = [7; 3; 9] /\
    27 <= power_of four_validators (address <$> voters) /\
    Some 11 = Some sig /\
    aggregate_keys (public_key <$> voters) = Some key /\
    verify_multi (M:=unit) sig tt key = true.
Proof.
  apply (accepted_multi_signature (M:=unit)
    (build_index four_validators (quorum four_validators) (total four_validators)) tt
    (@AggregateSignature.new free_crypto (BitVec.mk [208]) (Some 11))).
  - apply build_index_well_formed; [by apply (bool_decide_unpack _)| |done].
    repeat constructor; unfold in_u64; cbn; lia.
  - split; [repeat constructor; unfold BitVec.is_byte; lia|by vm_compute].
  - by vm_compute.
Defined.

Lemma aggregate_verifies `{CryptoTypes} `{!BlsAggregate} {M : Type} `{!Bls M}
    (v : t) (message : M) (partial : PartialSignatures.t) :
  multi_signatures_correct M ->
  well_formed v -> 0 < quorum_voting_power v ->
  BTreeMap.ordered (PartialSignatures.signatures partial) ->
  Forall (fun '(a, s) => verify v a message s = Ok tt) (PartialSignatures.signatures partial) ->
  check_voting_power v (PartialSignatures.signatures partial).*1 true = Ok tt ->
  exists agg, aggregate_signatures v partial = Ok agg /\
    verify_multi_signatures v message agg = Ok tt /\
    AggregateSignature.get_signers_addresses agg (get_ordered_account_addresses v) ≡ₚ
      (PartialSignatures.signatures partial).*1.
Proof.
  intros Hbls Hwf Hq Hord Hall Hpow. set (sigs := PartialSignatures.signatures partial) in *.
  pose proof (BTreeMap.ordered_NoDup _ Hord) as Hnd.
  pose proof Hpow as Hquorum. apply check_voting_power_iff in Hpow as [Hk Hpow]; [|done..].
  destruct (valid_signers v message sigs Hwf Hall) as (infos & Hin & Hadd & Hv).
  destruct (aggregate_marks v sigs Hwf Hk) as (masks & Em & Hm & Hnum & Hsig & Hsel).
  set (voters := selected masks 0 (validator_infos v)) in *.
  assert (NoDup (address <$> voters)) as Hnv by (apply selected_NoDup, Hwf).
  assert (voters ≡ₚ infos) as Hperm.
  { apply NoDup_Permutation; [by eapply NoDup_fmap_1|by eapply (NoDup_fmap_1 address); rewrite Hadd|].
    intros info. rewrite Hsel, <-Hadd. rewrite Forall_forall in Hin. split; [|set_solver].
    intros [Hi1 Hi2]. apply list_elem_of_fmap in Hi2 as (info' & E & Hi2).
    replace info with info'; [done|]. pose proof (Hin _ Hi2) as Hi3.
    apply list_elem_of_lookup_1 in Hi1 as [i Hi1]. apply list_elem_of_lookup_1 in Hi3 as [j Hi3].
    assert (i = j) as ->; [|congruence].
    apply (NoDup_lookup (address <$> validator_infos v) i j (address info)); [apply Hwf|..];
      rewrite list_lookup_fmap, ?Hi1, ?Hi3; cbn; congruence. }
  destruct (Hbls message (public_key <$> infos) (public_key <$> voters) sigs.*2) as (key & sig & Ek & Es & Hver).
  { intros E. apply fmap_nil_inv in E. subst infos. rewrite <-Hadd in Hpow. unfold power_of in Hpow.
    cbn in Hpow. lia. }
  { done. }
  { by rewrite Hperm. }
  exists (AggregateSignature.new masks (Some sig)).
  unfold aggregate_signatures, verify_multi_signatures. fold sigs.
  cbn [AggregateSignature.validator_bitmask AggregateSignature.sig].
  rewrite Em. mstep. rewrite Es. cbn [ok_or]. mstep. split; [done|].
  rewrite Hnum. mstep. rewrite Hsig. mstep.
  rewrite (selected_quorum v sigs.*1 voters Hwf Hnd Hnv Hsel Hquorum). mstep. rewrite Ek. cbn [ok_or]. mstep.
  rewrite Hver. split; [done|].
  unfold AggregateSignature.get_signers_addresses, get_ordered_account_addresses. cbn.
  pose proof (wf_len v Hwf). unfold len in *.
  rewrite signers_from_selected by lia. fold voters. by rewrite Hperm, Hadd.
Qed.

(** C29: the signatures of a quorum of validators, each of them valid, are
    aggregated to a multi-signature that the same verifier accepts and whose
    signers are exactly these validators. *)
Theorem aggregate_then_verify `{CryptoTypes} `{!BlsAggregate} {M : Type} `{!Bls M}
    (v : t) (message : M) (partial : PartialSignatures.t) :
  multi_signatures_correct M ->
  well_formed v -> 0 < quorum_voting_power v ->
  BTreeMap.ordered (PartialSignatures.signatures partial) ->
  Forall (fun '(a, s) => verify v a message s = Ok tt) (PartialSignatures.signatures partial) ->
  check_voting_power v (PartialSignatures.signatures partial).*1 true = Ok tt ->
  exists agg, aggregate_signatures v partial = Ok agg /\
    verify_multi_signatures v message agg = Ok tt /\
    AggregateSignature.get_signers_addresses agg (get_ordered_account_addresses v) ≡ₚ
      (PartialSignatures.signatures partial).*1.
Proof. apply aggregate_verifies. Qed.

Lemma free_multi_signatures (M : Type) : multi_signatures_correct M.
Proof.
  intros message keys keys' sigs _ Hv Hp. exists (foldr Z.lor 0 keys'), (foldr Z.lor 0 sigs).
  split_and!; [done..|]. apply Z.eqb_eq.
  assert (foldr Z.lor 0 keys' = foldr Z.lor 0 keys) as ->.
  { clear Hv. induction Hp; cbn [foldr]; [done|congruence| |congruence].
    rewrite !Z.lor_assoc. f_equal. apply Z.lor_comm. }
  clear Hp. induction Hv as [|k s keys sigs Hks _ IH]; [done|]. cbn [foldr].
  apply Z.eqb_eq in Hks. by rewrite Hks, IH.
Qed.

Lemma free_aggregate_signatures (M : Type) : aggregate_signatures_correct M.
Proof.
  intros signed signed' sigs _ Hv Hp. exists (foldr Z.lor 0 sigs). split; [done|]. apply Z.eqb_eq.
  assert (foldr Z.lor 0 signed'.*1 = foldr Z.lor 0 signed.*1) as ->.
  { clear Hv. induction Hp as [|x l l' _ IH|x y l|? ? ? _ IH1 _ IH2]; rewrite ?fmap_cons; cbn [foldr];
      [done|congruence| |congruence]. rewrite !Z.lor_assoc. f_equal. apply Z.lor_comm. }
  clear Hp. induction Hv as [|k s keys sigs Hks _ IH]; [done|]. rewrite fmap_cons. cbn [foldr].
  apply Z.eqb_eq in Hks. by rewrite Hks, IH.
Qed.

Lemma aggregate_then_verify_witness :
  exists agg, aggregate_signatures
      (build_index four_validators (quorum four_validators) (total four_validators))
      (@PartialSignatures.new free_crypto [(3, 2); (7, 1); (9, 8)]) = Ok agg /\
    AggregateSignature.get_signers_addresses agg [7; 3; 5; 9] ≡ₚ [3; 7; 9].
Proof.
  destruct (aggregate_then_verify (M:=unit)
    (build_index four_validators (quorum four_validators) (total four_validators)) tt
    (@PartialSignatures.new free_crypto [(3, 2); (7, 1); (9, 8)])) as (agg & E1 & _ & E2).
  - apply free_multi_signatures.
  - apply build_index_well_formed; [by apply (bool_decide_unpack _)| |done].
    repeat constructor; unfold in_u64; cbn; lia.
  - by vm_compute.
  - repeat constructor.
  - repeat constructor; by vm_compute.
  - by vm_compute.
  - exists agg. split; [exact E1|exact E2].
Defined.
End ValidatorVerifier.
