(* ===== verification/LedgerInfo.v ===== *)
(** * Ledger infos

    Model of [types/src/block_info.rs], [ledger_info.rs] and the data of
    [epoch_state.rs]: what a block commits to, the ledger info validators sign
    and the certificates and partial certificates made of their signatures. *)

From S2P Require Import Prelude Collections Merkle BitVec ValidatorVerifier.

Module EpochState.
Section definitions.
Context `{CryptoTypes}.

Record t := mk {
  epoch : Z;
  verifier : ValidatorVerifier.t;
}.

#[global] Instance t_eq_dec : EqDecision t.
Proof. solve_decision. Defined.

Definition empty {E} : outcome E t :=
  verifier ← (ValidatorVerifier.new [] : outcome E _); Ok (mk 0 verifier).
End definitions.
End EpochState.

Module BlockInfo.
Section definitions.
Context `{CryptoTypes}.

Definition GENESIS_EPOCH : Z := 0.
Definition GENESIS_ROUND : Z := 0.
Definition GENESIS_VERSION : Z := 0.
Definition GENESIS_TIMESTAMP_USECS : Z := 0.

Record t := new {
  epoch : Z;
  round : Z;
  id : HashValue;
  executed_state_id : HashValue;
  version : Z;
  timestamp_usecs : Z;
  next_epoch_state : option EpochState.t;
}.

#[global] Instance t_eq_dec : EqDecision t.
Proof. solve_decision. Defined.

Definition empty : t := new 0 0 HashValue_zero HashValue_zero 0 0 None.

(** [genesis], given the verifier the validator set is converted to. *)
Definition genesis (genesis_state_root_hash : HashValue) (verifier : ValidatorVerifier.t) : t :=
  new GENESIS_EPOCH GENESIS_ROUND HashValue_zero genesis_state_root_hash GENESIS_VERSION
    GENESIS_TIMESTAMP_USECS (Some (EpochState.mk 1 verifier)).

Definition next_block_epoch (self : t) : Z :=
  match next_epoch_state self with
  | Some e => EpochState.epoch e
  | None => epoch self
  end.

Definition has_reconfiguration (self : t) : bool :=
  match next_epoch_state self with Some _ => true | None => false end.

Definition allow_timestamp_change (self : t) (timestamp : Z) : bool :=
  has_reconfiguration self && (timestamp <=? timestamp_usecs self).

Definition change_timestamp {E} (self : t) (timestamp : Z) : outcome E t :=
  assert (allow_timestamp_change self timestamp);;
  Ok (new (epoch self) (round self) (id self) (executed_state_id self) (version self)
    timestamp (next_epoch_state self)).

Definition match_ordered_only (self executed_block_info : t) : bool :=
  (epoch self =? epoch executed_block_info)
  && (round self =? round executed_block_info)
  && bool_decide (id self = id executed_block_info)
  && ((timestamp_usecs self =? timestamp_usecs executed_block_info)
      || ((timestamp_usecs executed_block_info <? timestamp_usecs self)
          && has_reconfiguration executed_block_info)).

Definition is_ordered_only `{!MerkleHasher HashValue} (self : t) : bool :=
  negb (bool_decide (self = empty))
  && negb (has_reconfiguration self)
  && bool_decide (executed_state_id self = ACCUMULATOR_PLACEHOLDER_HASH)
  && (version self =? 0).
End definitions.
End BlockInfo.

Module LedgerInfo.
Section definitions.
Context `{CryptoTypes}.

Record t := new {
  commit_info : BlockInfo.t;
  consensus_data_hash : HashValue;
}.

#[global] Instance t_eq_dec : EqDecision t.
Proof. solve_decision. Defined.

Definition genesis (genesis_state_root_hash : HashValue) (verifier : ValidatorVerifier.t) : t :=
  new (BlockInfo.genesis genesis_state_root_hash verifier) HashValue_zero.

Definition epoch (self : t) : Z := BlockInfo.epoch (commit_info self).
Definition next_block_epoch (self : t) : Z := BlockInfo.next_block_epoch (commit_info self).
Definition round (self : t) : Z := BlockInfo.round (commit_info self).
Definition consensus_block_id (self : t) : HashValue := BlockInfo.id (commit_info self).
Definition transaction_accumulator_hash (self : t) : HashValue :=
  BlockInfo.executed_state_id (commit_info self).
Definition version (self : t) : Z := BlockInfo.version (commit_info self).
Definition timestamp_usecs (self : t) : Z := BlockInfo.timestamp_usecs (commit_info self).
Definition next_epoch_state (self : t) : option EpochState.t :=
  BlockInfo.next_epoch_state (commit_info self).
Definition ends_epoch (self : t) : bool :=
  match next_epoch_state self with Some _ => true | None => false end.
Definition set_consensus_data_hash (self : t) (hash : HashValue) : t :=
  new (commit_info self) hash.
End definitions.
End LedgerInfo.

Module LedgerInfoWithSignatures.
Section definitions.
Context `{CryptoTypes}.

(** [LedgerInfoWithV0], the one variant of the enum. *)
Record t := new {
  ledger_info : LedgerInfo.t;
  signatures : AggregateSignature.t;
}.

#[global] Instance t_eq_dec : EqDecision t.
Proof. solve_decision. Defined.

Definition genesis (genesis_state_root_hash : HashValue) (verifier : ValidatorVerifier.t) : t :=
  new (LedgerInfo.genesis genesis_state_root_hash verifier) AggregateSignature.empty.

Definition commit_info (self : t) : BlockInfo.t := LedgerInfo.commit_info (ledger_info self).

Definition get_voters (self : t) (validator_addresses : list AccountAddress) :
    list AccountAddress :=
  AggregateSignature.get_signers_addresses (signatures self) validator_addresses.

Definition get_num_voters (self : t) : Z := AggregateSignature.get_num_voters (signatures self).

Definition verify_signatures `{!BlsAggregate} `{!Bls LedgerInfo.t} (self : t)
    (validator : ValidatorVerifier.t) : outcome VerifyError unit :=
  ValidatorVerifier.verify_multi_signatures validator (ledger_info self) (signatures self).

Definition check_voting_power (self : t) (validator : ValidatorVerifier.t) :
    outcome VerifyError unit :=
  ValidatorVerifier.check_voting_power validator
    (get_voters self (ValidatorVerifier.get_ordered_account_addresses validator)) true.
End definitions.
End LedgerInfoWithSignatures.

Module LedgerInfoWithPartialSignatures.
Section definitions.
Context `{CryptoTypes}.

Record t := new {
  ledger_info : LedgerInfo.t;
  partial_sigs : PartialSignatures.t;
}.

Definition remove_signature (self : t) (validator : AccountAddress) : t :=
  new (ledger_info self) (PartialSignatures.remove_signature (partial_sigs self) validator).

Definition add_signature (self : t) (validator : AccountAddress) (signature : Signature) : t :=
  new (ledger_info self) (PartialSignatures.add_signature (partial_sigs self) validator signature).

Definition aggregate_signatures `{!BlsAggregate} (self : t) (verifier : ValidatorVerifier.t) :
    outcome VerifyError LedgerInfoWithSignatures.t :=
  aggregated_sig ← ValidatorVerifier.aggregate_signatures verifier (partial_sigs self);
  Ok (LedgerInfoWithSignatures.new (ledger_info self) aggregated_sig).
End definitions.
End LedgerInfoWithPartialSignatures.

(** The fixed text of an error, as the conversion to [anyhow::Error] keeps it. *)
Definition VerifyError_text (e : VerifyError) : string :=
  match e with
  | UnknownAuthor => "Author is unknown"
  | TooLittleVotingPower _ _ => "The voting power is less than expected voting power"
  | EmptySignature => "Signature is empty"
  | InvalidMultiSignature => "Multi signature is invalid"
  | InvalidAggregatedSignature => "Aggregated signature is invalid"
  | InconsistentBlockInfo => "Inconsistent Block Info"
  | FailedToAggregatePubKey => "Failed to aggregate public keys"
  | FailedToAggregateSignature => "Failed to aggregate signatures"
  | FailedToVerifyMultiSignature => "Failed to verify multi-signature"
  | InvalidBitVec => "Invalid bitvec from the multi-signature"
  | FailedToVerifyAggregatedSignature => "Failed to verify aggreagated signature"
  end.
