(* ===== verification/TrustedState.v ===== *)
(** * Epoch changes and the trusted state of a light client

    Model of [types/src/epoch_change.rs], [epoch_state.rs], [waypoint.rs],
    [state_proof.rs] and [trusted_state.rs].  The hash of a waypoint's preimage
    is a parameter ([WaypointHasher]).  The theorems show what an accepted
    epoch-change proof establishes, a chain of ledger infos each signed under
    the validator set the one before it announces, and when and how the trusted
    state moves. *)

From S2P Require Import Prelude Collections Merkle BitVec ValidatorVerifier LedgerInfo.

(** The trait [Verifier]; a value is a trait object. *)
Module Verifier.
Record t `{CryptoTypes} := mk {
  verify : LedgerInfoWithSignatures.t -> result unit;
  epoch_change_verification_required : Z -> bool;
  is_ledger_info_stale : LedgerInfo.t -> bool;
}.
Arguments mk {_} _ _ _.
Arguments verify {_} _ _.
Arguments epoch_change_verification_required {_} _ _.
Arguments is_ledger_info_stale {_} _ _.
End Verifier.

Module EpochStateVerifier.
Section definitions.
Context `{CryptoTypes} `{!BlsAggregate} `{!Bls LedgerInfo.t}.

Definition verify (self : EpochState.t) (ledger_info : LedgerInfoWithSignatures.t) : result unit :=
  ensure (EpochState.epoch self =? LedgerInfo.epoch (LedgerInfoWithSignatures.ledger_info ledger_info))
    "LedgerInfo has unexpected epoch";;
  map_err VerifyError_text
    (LedgerInfoWithSignatures.verify_signatures ledger_info (EpochState.verifier self)).

Definition epoch_change_verification_required (self : EpochState.t) (epoch : Z) : bool :=
  EpochState.epoch self <? epoch.

Definition is_ledger_info_stale (self : EpochState.t) (ledger_info : LedgerInfo.t) : bool :=
  LedgerInfo.epoch ledger_info <? EpochState.epoch self.

Definition as_verifier (self : EpochState.t) : Verifier.t :=
  Verifier.mk (verify self) (epoch_change_verification_required self) (is_ledger_info_stale self).
End definitions.
End EpochStateVerifier.

Module Ledger2WaypointConverter.
Section definitions.
Context `{CryptoTypes}.

Record t := mk {
  epoch : Z;
  root_hash : HashValue;
  version : Z;
  timestamp_usecs : Z;
  next_epoch_state : option EpochState.t;
}.

Definition new (ledger_info : LedgerInfo.t) : t :=
  mk (LedgerInfo.epoch ledger_info) (LedgerInfo.transaction_accumulator_hash ledger_info)
    (LedgerInfo.version ledger_info) (LedgerInfo.timestamp_usecs ledger_info)
    (LedgerInfo.next_epoch_state ledger_info).
End definitions.
End Ledger2WaypointConverter.

(** The derived hash of the converter. *)
Class WaypointHasher `{CryptoTypes} := hash_waypoint : Ledger2WaypointConverter.t -> HashValue.

Module Waypoint.
Section definitions.
Context `{CryptoTypes} `{!WaypointHasher}.

Record t := mk {
  version : Z;
  value : HashValue;
}.

#[global] Instance t_eq_dec : EqDecision t.
Proof using Type. solve_decision. Defined.

Definition new_any (ledger_info : LedgerInfo.t) : t :=
  mk (LedgerInfo.version ledger_info) (hash_waypoint (Ledger2WaypointConverter.new ledger_info)).

Definition new_epoch_boundary (ledger_info : LedgerInfo.t) : result t :=
  ensure (LedgerInfo.ends_epoch ledger_info) "No validator set";;
  Ok (new_any ledger_info).

Definition verify (self : t) (ledger_info : LedgerInfo.t) : result unit :=
  ensure (LedgerInfo.version ledger_info =? version self) "Waypoint version mismatch";;
  ensure (bool_decide (hash_waypoint (Ledger2WaypointConverter.new ledger_info) = value self))
    "Waypoint value mismatch".

Definition is_ledger_info_stale (self : t) (ledger_info : LedgerInfo.t) : bool :=
  LedgerInfo.version ledger_info <? version self.

Definition as_verifier (self : t) : Verifier.t :=
  Verifier.mk (fun li => verify self (LedgerInfoWithSignatures.ledger_info li)) (fun _ => true)
    (is_ledger_info_stale self).
End definitions.
End Waypoint.

Module EpochChangeProof.
Section definitions.
Context `{CryptoTypes} `{!BlsAggregate} `{!Bls LedgerInfo.t}.

Record t := new {
  ledger_info_with_sigs : list LedgerInfoWithSignatures.t;
  more : bool;
}.

Definition epoch (self : t) : result Z :=
  match ledger_info_with_sigs self with
  | [] => Err "Empty EpochChangeProof"
  | li :: _ => Ok (LedgerInfo.epoch (LedgerInfoWithSignatures.ledger_info li))
  end.

(** [skip_while]. *)
Fixpoint skip_while {A} (p : A -> bool) (l : list A) : list A :=
  match l with
  | [] => []
  | x :: l' => if p x then skip_while p l' else l
  end.

(** The loop, [verifier_ref] being the verifier the next ledger info is checked with. *)
Fixpoint verify_loop (verifier_ref : Verifier.t) (lis : list LedgerInfoWithSignatures.t) :
    result unit :=
  match lis with
  | [] => Ok tt
  | li :: lis =>
      Verifier.verify verifier_ref li;;
      next ← ok_or (LedgerInfo.next_epoch_state (LedgerInfoWithSignatures.ledger_info li))
        "LedgerInfo doesn't carry a ValidatorSet";
      verify_loop (EpochStateVerifier.as_verifier next) lis
  end.

Definition verify (self : t) (verifier : Verifier.t) : result LedgerInfoWithSignatures.t :=
  match last (ledger_info_with_sigs self) with
  | None => Err "The EpochChangeProof is empty"
  | Some last_li =>
      ensure (negb (Verifier.is_ledger_info_stale verifier
                      (LedgerInfoWithSignatures.ledger_info last_li)))
        "The EpochChangeProof is stale as our verifier is already ahead of the entire EpochChangeProof";;
      verify_loop verifier
        (skip_while
           (fun li => Verifier.is_ledger_info_stale verifier (LedgerInfoWithSignatures.ledger_info li))
           (ledger_info_with_sigs self));;
      Ok last_li
  end.
End definitions.
End EpochChangeProof.

Module StateProof.
Section definitions.
Context `{CryptoTypes}.

Record t := new {
  latest_li_w_sigs : LedgerInfoWithSignatures.t;
  epoch_changes : EpochChangeProof.t;
}.
End definitions.
End StateProof.

Module TrustedState.
Section definitions.
Context `{CryptoTypes} `{!BlsAggregate} `{!Bls LedgerInfo.t} `{!WaypointHasher}.

Inductive t :=
  | EpochWaypoint (waypoint : Waypoint.t)
  | InEpoch (waypoint : Waypoint.t) (epoch_state : EpochState.t).

Inductive change :=
  | Version (new_state : t)
  | Epoch (new_state : t) (latest_epoch_change_li : LedgerInfoWithSignatures.t)
  | NoChange.

Definition from_epoch_waypoint (epoch_waypoint : Waypoint.t) : t := EpochWaypoint epoch_waypoint.

Definition is_epoch_waypoint (self : t) : bool :=
  match self with EpochWaypoint _ => true | _ => false end.

Definition waypoint (self : t) : Waypoint.t :=
  match self with EpochWaypoint w => w | InEpoch w _ => w end.

Definition version (self : t) : Z := Waypoint.version (waypoint self).

Definition verify (self : t) (ledger_info : LedgerInfoWithSignatures.t) : result unit :=
  match self with
  | EpochWaypoint w => Verifier.verify (Waypoint.as_verifier w) ledger_info
  | InEpoch _ e => Verifier.verify (EpochStateVerifier.as_verifier e) ledger_info
  end.

Definition epoch_change_verification_required (self : t) (epoch : Z) : bool :=
  match self with
  | EpochWaypoint w => Verifier.epoch_change_verification_required (Waypoint.as_verifier w) epoch
  | InEpoch _ e =>
      Verifier.epoch_change_verification_required (EpochStateVerifier.as_verifier e) epoch
  end.

Definition is_ledger_info_stale (self : t) (ledger_info : LedgerInfo.t) : bool :=
  match self with
  | EpochWaypoint w => Verifier.is_ledger_info_stale (Waypoint.as_verifier w) ledger_info
  | InEpoch _ e => Verifier.is_ledger_info_stale (EpochStateVerifier.as_verifier e) ledger_info
  end.

Definition as_verifier (self : t) : Verifier.t :=
  Verifier.mk (verify self) (epoch_change_verification_required self) (is_ledger_info_stale self).

(** The choice of the ledger info the new trusted state is at. *)
Definition select_ledger_info (latest_li epoch_change_li : LedgerInfoWithSignatures.t)
    (new_epoch_state : EpochState.t) (more : bool) : result LedgerInfoWithSignatures.t :=
  let new_epoch := EpochState.epoch new_epoch_state in
  let latest_epoch := LedgerInfo.epoch (LedgerInfoWithSignatures.ledger_info latest_li) in
  if bool_decide (epoch_change_li = latest_li) then Ok latest_li
  else if latest_epoch =? new_epoch then
    EpochStateVerifier.verify new_epoch_state latest_li;; Ok latest_li
  else if (new_epoch <? latest_epoch) && more then Ok epoch_change_li
  else Err "Inconsistent epoch change proof and latest ledger info".

Definition verify_and_ratchet_inner (self : t) (latest_li : LedgerInfoWithSignatures.t)
    (epoch_change_proof : EpochChangeProof.t) : result change :=
  let latest := LedgerInfoWithSignatures.ledger_info latest_li in
  let curr_version := version self in
  let target_version := LedgerInfo.version latest in
  ensure (curr_version <=? target_version)
    "The target latest ledger info version is stale and behind our current trusted version";;
  if epoch_change_verification_required self (LedgerInfo.next_block_epoch latest) then
    epoch_change_li ← EpochChangeProof.verify epoch_change_proof (as_verifier self);
    new_epoch_state ←
      ok_or (LedgerInfo.next_epoch_state (LedgerInfoWithSignatures.ledger_info epoch_change_li))
        "A valid EpochChangeProof will never return a non-epoch change ledger info";
    verified_ledger_info ←
      select_ledger_info latest_li epoch_change_li new_epoch_state
        (EpochChangeProof.more epoch_change_proof);
    let new_waypoint :=
      Waypoint.new_any (LedgerInfoWithSignatures.ledger_info verified_ledger_info) in
    Ok (Epoch (InEpoch new_waypoint new_epoch_state) epoch_change_li)
  else
    match self with
    | EpochWaypoint _ => Err "EpochWaypoint can only verify an epoch change ledger info"
    | InEpoch curr_waypoint curr_epoch_state =>
        let new_waypoint := Waypoint.new_any latest in
        if Waypoint.version new_waypoint =? Waypoint.version curr_waypoint then
          ensure (bool_decide (new_waypoint = curr_waypoint)) "LedgerInfo doesn't match verified state";;
          Ok NoChange
        else
          EpochStateVerifier.verify curr_epoch_state latest_li;;
          Ok (Version (InEpoch new_waypoint curr_epoch_state))
    end.

Definition verify_and_ratchet (self : t) (state_proof : StateProof.t) : result change :=
  verify_and_ratchet_inner self (StateProof.latest_li_w_sigs state_proof)
    (StateProof.epoch_changes state_proof).

Definition new_state (self : change) : option t :=
  match self with
  | Version new_state | Epoch new_state _ => Some new_state
  | NoChange => None
  end.

Definition is_epoch_change (self : change) : bool :=
  match self with Epoch _ _ => true | _ => false end.

Definition is_no_change (self : change) : bool :=
  match self with NoChange => true | _ => false end.
End definitions.

(** ** What an epoch-change proof establishes *)
Section facts.
Context `{CryptoTypes} `{!BlsAggregate} `{!Bls LedgerInfo.t} `{!WaypointHasher}.

Definition next_epoch (li : LedgerInfoWithSignatures.t) : option EpochState.t :=
  LedgerInfo.next_epoch_state (LedgerInfoWithSignatures.ledger_info li).

(** [epoch_chain vf lis e]: the verifier [vf] accepts the first of [lis], every
    other one is accepted by the validator set the one before it announces, and
    the last one announces [e]. *)
Inductive epoch_chain : Verifier.t -> list LedgerInfoWithSignatures.t -> EpochState.t -> Prop :=
  | chain_last vf li e :
      Verifier.verify vf li = Ok tt -> next_epoch li = Some e -> epoch_chain vf [li] e
  | chain_step vf li e lis e' :
      Verifier.verify vf li = Ok tt -> next_epoch li = Some e ->
      epoch_chain (EpochStateVerifier.as_verifier e) lis e' -> epoch_chain vf (li :: lis) e'.

Lemma verify_loop_chain vf lis : lis <> [] ->
  EpochChangeProof.verify_loop vf lis = Ok tt <-> exists e, epoch_chain vf lis e.
Proof.
  revert vf. induction lis as [|li lis IH]; intros vf Hne; [done|]. cbn [EpochChangeProof.verify_loop].
  rewrite bind_Ok. split.
  - intros ([] & Hv & Hrest). apply bind_Ok in Hrest as (e & He & Hrest).
    assert (next_epoch li = Some e) as Hnext.
    { unfold next_epoch, ok_or in *. destruct (LedgerInfo.next_epoch_state _); congruence. }
    destruct lis as [|li' lis]; [exists e; by apply chain_last|].
    apply IH in Hrest as [e' Hc]; [|done]. exists e'. by eapply chain_step.
  - intros [e' Hc]. exists tt. inversion Hc as [? ? e Hv He|? ? e ? ? Hv He Hc']; subst; (split; [done|]);
      unfold next_epoch in He; rewrite He; cbn [ok_or]; mstep; [done|].
    apply IH; [by destruct Hc'|by exists e'].
Qed.

Lemma chain_next vf lis e : epoch_chain vf lis e -> exists li, last lis = Some li /\ next_epoch li = Some e.
Proof.
  induction 1 as [vf li e Hv He|vf li e lis e' Hv He Hc IH]; [by exists li|].
  destruct IH as (li' & Hl & Hn). exists li'. split; [|done]. by destruct lis.
Qed.

Lemma skip_while_split {A} (p : A -> bool) l : exists pre,
  l = pre ++ EpochChangeProof.skip_while p l /\ Forall (fun x => p x = true) pre /\
  (forall x, head (EpochChangeProof.skip_while p l) = Some x -> p x = false).
Proof.
  induction l as [|x l (pre & E & Hpre & Hh)]; [exists []; done|]. cbn [EpochChangeProof.skip_while].
  destruct (p x) eqn:Ex.
  - exists (x :: pre). split; [by cbn; rewrite <-E|]. split; [by constructor|done].
  - exists []. split; [done|]. split; [done|]. by intros ? [= <-].
Qed.

Lemma skip_while_app {A} (p : A -> bool) pre x l :
  Forall (fun y => p y = true) pre -> p x = false ->
  EpochChangeProof.skip_while p (pre ++ x :: l) = x :: l.
Proof. induction 1 as [|y pre Hy _ IH]; intros Hx; cbn; [by rewrite Hx|]. rewrite Hy. by apply IH. Qed.

Definition stale (vf : Verifier.t) (li : LedgerInfoWithSignatures.t) : bool :=
  Verifier.is_ledger_info_stale vf (LedgerInfoWithSignatures.ledger_info li).

Lemma epoch_change_verify_chain p vf li :
  EpochChangeProof.verify p vf = Ok li <->
  exists pre lis e, EpochChangeProof.ledger_info_with_sigs p = pre ++ lis /\
    Forall (fun x => stale vf x = true) pre /\ (forall x, head lis = Some x -> stale vf x = false) /\
    epoch_chain vf lis e /\ last lis = Some li /\ stale vf li = false.
Proof.
  unfold EpochChangeProof.verify. split.
  - destruct (last (EpochChangeProof.ledger_info_with_sigs p)) as [l|] eqn:Hlast; [|done].
    intros Hv. apply bind_Ok in Hv as ([] & Hst & Hv). apply bind_Ok in Hv as ([] & Hloop & Hv).
    injection Hv as ->. apply ensure_Ok, negb_true_iff in Hst.
    destruct (skip_while_split (stale vf) (EpochChangeProof.ledger_info_with_sigs p))
      as (pre & E & Hpre & Hhead).
    change (fun x => Verifier.is_ledger_info_stale vf (LedgerInfoWithSignatures.ledger_info x))
      with (stale vf) in Hloop. fold (stale vf li) in Hst.
    set (lis := EpochChangeProof.skip_while _ _) in *.
    assert (lis <> []) as Hne.
    { intros Hn. rewrite Hn, app_nil_r in E. rewrite E in Hlast. rewrite Forall_forall in Hpre.
      apply last_Some_elem_of, Hpre in Hlast. congruence. }
    apply verify_loop_chain in Hloop as [e Hc]; [|done].
    exists pre, lis, e. split_and!; try done. rewrite E, last_app in Hlast.
    by destruct (chain_next _ _ _ Hc) as (l & Hl & _); rewrite Hl in Hlast |- *.
  - intros (pre & lis & e & E & Hpre & Hhead & Hc & Hlast & Hst).
    rewrite E, last_app, Hlast. fold (stale vf li). rewrite Hst. cbn [negb ensure]. mstep.
    change (fun x => Verifier.is_ledger_info_stale vf (LedgerInfoWithSignatures.ledger_info x))
      with (stale vf). destruct lis as [|x lis]; [done|].
    rewrite skip_while_app by (done || by apply Hhead).
    rewrite (proj2 (verify_loop_chain vf (x :: lis) ltac:(done))) by (by exists e). done.
Qed.

Lemma ensure_bool_true {E} (P : Prop) `{!Decision P} (e : E) :
  ensure (bool_decide P) e = Ok tt <-> P.
Proof. rewrite ensure_Ok. apply bool_decide_eq_true. Qed.

Lemma select_Ok latest li e more r :
  select_ledger_info latest li e more = Ok r ->
  (r = latest /\ (li = latest \/ EpochStateVerifier.verify e latest = Ok tt)) \/
  (r = li /\ more = true /\
   EpochState.epoch e < LedgerInfo.epoch (LedgerInfoWithSignatures.ledger_info latest)).
Proof.
  unfold select_ledger_info. intros Hr. case_bool_decide; [left; simplify_eq; tauto|].
  destruct (Z.eqb_spec (LedgerInfo.epoch (LedgerInfoWithSignatures.ledger_info latest))
    (EpochState.epoch e)).
  - apply bind_Ok in Hr as ([] & Hv & Hr). left. injection Hr as <-. split; [done|by right].
  - destruct (Z.ltb_spec (EpochState.epoch e)
      (LedgerInfo.epoch (LedgerInfoWithSignatures.ledger_info latest))); [|done].
    destruct more; [|done]. cbn in Hr. injection Hr as <-. by right.
Qed.
End facts.

(** ** Properties *)

(** C26: [EpochChangeProof::verify] accepts a proof exactly when, after the stale
    ledger infos at its front, it is a chain that starts at the given verifier:
    each ledger info is accepted under the validator set announced by the one
    before it.  The result is the last ledger info of the chain. *)
Theorem epoch_change_proof_accepts_chains `{CryptoTypes} `{!BlsAggregate} `{!Bls LedgerInfo.t}
    (proof : EpochChangeProof.t) (vf : Verifier.t) (li : LedgerInfoWithSignatures.t) :
  EpochChangeProof.verify proof vf = Ok li <->
  exists pre lis e, EpochChangeProof.ledger_info_with_sigs proof = pre ++ lis /\
    Forall (fun x => stale vf x = true) pre /\ (forall x, head lis = Some x -> stale vf x = false) /\
    epoch_chain vf lis e /\ last lis = Some li /\ stale vf li = false.
Proof. apply epoch_change_verify_chain. Qed.

(** C13: a trusted state only moves on evidence.  In the same epoch the new ledger
    info is signed by the current validators and is of a strictly later version.
    Across epochs there is a chain of epoch changes from the current state, and the
    new state is either at the latest ledger info, which is of no earlier version and
    is the end of the chain or verified with the new validators, or, when the proof is
    partial and the latest ledger info is of a later epoch, at the end of the chain.  The version of a partial
    step is bounded by the trusted one only if the state is an epoch waypoint; from a
    state in an epoch the bound is on the epoch of the chain's end.  Without a change
    the ledger info is the trusted one. *)
Theorem ratchet_is_justified `{CryptoTypes} `{!BlsAggregate} `{!Bls LedgerInfo.t} `{!WaypointHasher}
    (self : t) (latest : LedgerInfoWithSignatures.t) (proof : EpochChangeProof.t) (c : change) :
  verify_and_ratchet_inner self latest proof = Ok c ->
  let w := Waypoint.new_any (LedgerInfoWithSignatures.ledger_info latest) in
  match c with
  | NoChange => exists e, self = InEpoch w e
  | Version s' => exists w0 e, self = InEpoch w0 e /\ s' = InEpoch w e /\
      version self < version s' /\ EpochStateVerifier.verify e latest = Ok tt
  | Epoch s' li => exists pre lis e,
      EpochChangeProof.ledger_info_with_sigs proof = pre ++ lis /\
      epoch_chain (as_verifier self) lis e /\ last lis = Some li /\
      (s' = InEpoch w e /\ version self <= version s' /\
         (li = latest \/ EpochStateVerifier.verify e latest = Ok tt) \/
       s' = InEpoch (Waypoint.new_any (LedgerInfoWithSignatures.ledger_info li)) e /\
         EpochChangeProof.more proof = true /\
         EpochState.epoch e < LedgerInfo.epoch (LedgerInfoWithSignatures.ledger_info latest) /\
         match self with
         | EpochWaypoint _ => version self <= version s'
         | InEpoch _ e0 => EpochState.epoch e0 <= LedgerInfo.epoch (LedgerInfoWithSignatures.ledger_info li)
         end)
  end.
Proof.
  unfold verify_and_ratchet_inner. intros Hok. apply bind_Ok in Hok as ([] & Hver & Hok).
  apply ensure_Ok in Hver. zbool. cbn [mbind outcome_bind] in Hok.
  destruct (epoch_change_verification_required self _).
  - apply bind_Ok in Hok as (li & Hli & Hok). apply bind_Ok in Hok as (e & He & Hok).
    apply bind_Ok in Hok as (r & Hr & Hok). injection Hok as <-.
    apply epoch_change_verify_chain in Hli as (pre & lis & e' & E & _ & _ & Hc & Hlast & Hst).
    assert (e' = e) as ->.
    { destruct (chain_next _ _ _ Hc) as (l & Hl & Hn). unfold next_epoch, ok_or in *.
      assert (l = li) as -> by congruence. rewrite Hn in He. congruence. }
    exists pre, lis, e. split_and!; [done..|].
    apply select_Ok in Hr as [[-> Hj]|(-> & Hm & Hlt)]; [by left|right]. split_and!; [done..|].
    unfold stale in Hst. destruct self; cbn in Hst;
      unfold Waypoint.is_ledger_info_stale, EpochStateVerifier.is_ledger_info_stale in Hst; zbool; exact Hst.
  - destruct self as [|w0 e]; [done|]. cbn [waypoint] in *.
    destruct (Z.eqb_spec (Waypoint.version (Waypoint.new_any (LedgerInfoWithSignatures.ledger_info latest)))
      (Waypoint.version w0)) as [Ev|Hne].
    + apply bind_Ok in Hok as ([] & Hw & Hok). injection Hok as <-.
      apply ensure_bool_true in Hw. exists e. by rewrite Hw.
    + apply bind_Ok in Hok as ([] & Hw & Hok). injection Hok as <-. exists w0, e.
      split_and!; [done..| |done]. unfold version in *. cbn in *. lia.
Qed.

(** An honest state proof is accepted.  Given a chain of epoch changes from the
    current state, possibly after stale ones, and a latest ledger info that the
    chain's last validator set has signed and that is not older than the trusted
    version, the state moves to it. *)
Theorem honest_state_proof_accepted `{CryptoTypes} `{!BlsAggregate} `{!Bls LedgerInfo.t}
    `{!WaypointHasher} (self : t) (latest li : LedgerInfoWithSignatures.t) (more : bool)
    (pre lis : list LedgerInfoWithSignatures.t) (e : EpochState.t) :
  version self <= LedgerInfo.version (LedgerInfoWithSignatures.ledger_info latest) ->
  epoch_change_verification_required self
    (LedgerInfo.next_block_epoch (LedgerInfoWithSignatures.ledger_info latest)) = true ->
  Forall (fun x => stale (as_verifier self) x = true) pre ->
  (forall x, head lis = Some x -> stale (as_verifier self) x = false) ->
  epoch_chain (as_verifier self) lis e -> last lis = Some li -> stale (as_verifier self) li = false ->
  EpochStateVerifier.verify e latest = Ok tt ->
  verify_and_ratchet self (StateProof.new latest (EpochChangeProof.new (pre ++ lis) more)) =
  Ok (Epoch (InEpoch (Waypoint.new_any (LedgerInfoWithSignatures.ledger_info latest)) e) li).
Proof.
  intros Hver Hreq Hpre Hhead Hc Hlast Hst Hsig.
  unfold verify_and_ratchet, verify_and_ratchet_inner. cbn [StateProof.latest_li_w_sigs StateProof.epoch_changes].
  rewrite (proj2 (Z.leb_le _ _)) by done. cbn [ensure]. mstep. rewrite Hreq.
  rewrite (proj2 (epoch_change_verify_chain _ _ li)) by (by exists pre, lis, e). mstep.
  destruct (chain_next _ _ _ Hc) as (l & Hl & Hn). assert (l = li) as -> by congruence.
  unfold next_epoch in Hn. rewrite Hn. cbn [ok_or]. mstep.
  assert (select_ledger_info latest li e more = Ok latest) as Hsel.
  { unfold select_ledger_info. case_bool_decide; [done|]. unfold EpochStateVerifier.verify in Hsig.
    pose proof Hsig as Hsig'. apply bind_Ok in Hsig' as ([] & He & _). apply ensure_Ok in He. zbool.
    rewrite (proj2 (Z.eqb_eq _ _)) by done. unfold EpochStateVerifier.verify. by rewrite Hsig. }
  cbn [EpochChangeProof.more]. by rewrite Hsel.
Qed.

(** A ledger with two epochs: the concrete case of the witnesses. *)
Section example.
#[local] Instance example_waypoint_hasher : @WaypointHasher free_crypto :=
  fun c => Node (Leaf (Ledger2WaypointConverter.version c)) (Ledger2WaypointConverter.root_hash c).

Definition example_verifier : ValidatorVerifier.t :=
  ValidatorVerifier.build_index ValidatorVerifier.four_validators
    (ValidatorVerifier.quorum ValidatorVerifier.four_validators)
    (ValidatorVerifier.total ValidatorVerifier.four_validators).

Definition signed_li (epoch version : Z) (next : option EpochState.t) : LedgerInfoWithSignatures.t :=
  LedgerInfoWithSignatures.new
    (LedgerInfo.new (BlockInfo.new epoch 1 (Leaf version) (Leaf version) version version next) (Leaf 0))
    (@AggregateSignature.new free_crypto (BitVec.mk [208]) (Some 11)).

Definition example_state : t :=
  InEpoch (Waypoint.new_any (LedgerInfoWithSignatures.ledger_info (signed_li 4 10 None)))
    (EpochState.mk 4 example_verifier).

Lemma ratchet_is_justified_witness :
  exists w0 e, example_state = InEpoch w0 e /\ version example_state < 12.
Proof.
  destruct (ratchet_is_justified example_state (signed_li 4 12 None) (EpochChangeProof.new [] false)
    (Version (InEpoch (Waypoint.new_any (LedgerInfoWithSignatures.ledger_info (signed_li 4 12 None)))
      (EpochState.mk 4 example_verifier)))) as (w0 & e & H1 & _ & H2 & _).
  - by vm_compute.
  - exists w0, e. split; [exact H1|exact H2].
Defined.

Lemma honest_state_proof_accepted_witness :
  verify_and_ratchet example_state
    (StateProof.new (signed_li 5 30 None)
      (EpochChangeProof.new ([signed_li 3 5 None] ++ [signed_li 4 20 (Some (EpochState.mk 5 example_verifier))])
        false)) =
  Ok (Epoch (InEpoch (Waypoint.new_any (LedgerInfoWithSignatures.ledger_info (signed_li 5 30 None)))
    (EpochState.mk 5 example_verifier)) (signed_li 4 20 (Some (EpochState.mk 5 example_verifier)))).
Proof.
  apply (honest_state_proof_accepted example_state).
  - by vm_compute.
  - by vm_compute.
  - by repeat constructor.
  - by intros x [= <-].
  - apply chain_last; by vm_compute.
  - done.
  - by vm_compute.
  - by vm_compute.
Defined.
End example.
End TrustedState.
