(* ===== verification/AccumulatorProofs.v ===== *)
(** * Proofs about accumulators

    Model of the accumulator part of [types/src/proof/definition.rs]: inclusion
    proofs ([AccumulatorProof]), proofs for a range of leaves
    ([AccumulatorRangeProof]), consistency proofs with the summaries they extend
    ([AccumulatorConsistencyProof], [TransactionAccumulatorSummary]),
    [AccumulatorExtensionProof] and the lists of transaction infos. *)

From S2P Require Import Prelude Position Merkle InMemoryAccumulator ValidatorVerifier LedgerInfo.

Module AccumulatorProof.

Record t (HashValue : Type) := new { siblings : list HashValue }.
Arguments new {HashValue} _.
Arguments siblings {HashValue} _.

Section definitions.
Context {HashValue : Type} `{!MerkleHasher HashValue} `{!EqDecision HashValue}.

(** The closure of the fold: [index] is the ancestor's index at its level. *)
Definition fold_step (state : HashValue * Z) (sibling_hash : HashValue) : HashValue * Z :=
  let '(hash, index) := state in
  (if index `mod` 2 =? 0 then hash_internal hash sibling_hash else hash_internal sibling_hash hash,
   index / 2).

Definition verify (self : t HashValue) (expected_root_hash element_hash : HashValue)
    (element_index : Z) : result unit :=
  ensure (Z.of_nat (length (siblings self)) <=? MAX_ACCUMULATOR_PROOF_DEPTH)
    "Accumulator proof has more than 63 siblings.";;
  let actual_root_hash := (foldl fold_step (element_hash, element_index) (siblings self)).1 in
  ensure (bool_decide (actual_root_hash = expected_root_hash)) "Root hashes do not match.".

End definitions.
End AccumulatorProof.

Module AccumulatorRangeProof.

Record t (HashValue : Type) := new {
  left_siblings : list HashValue;
  right_siblings : list HashValue;
}.
Arguments new {HashValue} _ _.
Arguments left_siblings {HashValue} _.
Arguments right_siblings {HashValue} _.

Section definitions.
Context {HashValue : Type} `{!MerkleHasher HashValue} `{!EqDecision HashValue}.

Definition new_empty : t HashValue := new [] [].

(** [chunks_exact(2)]: the parents of the pairs, and the remainder. *)
Fixpoint pair_up (children : list HashValue) : list HashValue * list HashValue :=
  match children with
  | left_hash :: right_hash :: rest =>
      let '(parents, remainder) := pair_up rest in
      (hash_internal left_hash right_hash :: parents, remainder)
  | _ => ([], children)
  end.

(** One iteration of the loop over the levels: the parents' hashes, the
    remaining siblings on both sides and the parent of [first_pos]. *)
Definition level_step (first_pos : Z) (current left_iter right_iter : list HashValue) :
    result (list HashValue * list HashValue * list HashValue * Z) :=
  b ← Position.is_right_child first_pos;
  '(first_parent, children, left_iter) ←
    (if b : bool then
       match left_iter with
       | [] => Err "First child is a right child, but missing sibling on the left."
       | left_hash :: left_iter =>
           match current with
           | [] => Panic
           | right_hash :: children =>
               Ok ([hash_internal left_hash right_hash], children, left_iter)
           end
       end
     else Ok ([], current, left_iter));
  let '(parents, remainder) := pair_up children in
  assert (Z.of_nat (length remainder) <=? 1);;
  '(last_parent, right_iter) ←
    match remainder with
    | [] => Ok ([], right_iter)
    | left_hash :: _ =>
        match right_iter with
        | [] => Err "Last child is a left child, but missing sibling on the right."
        | right_hash :: right_iter => Ok ([hash_internal left_hash right_hash], right_iter)
        end
    end;
  first_pos ← Position.parent first_pos;
  Ok (first_parent ++ parents ++ last_parent, left_iter, right_iter, first_pos).

(** The condition of the loop. *)
Definition continues (current left_iter right_iter : list HashValue) : bool :=
  (1 <? Z.of_nat (length current)) || negb (bool_decide (left_iter = []))
  || negb (bool_decide (right_iter = [])).

(** The loop; [None] is a loop that has not ended after [fuel] iterations. *)
Fixpoint levels_loop (fuel : nat) (first_pos : Z) (current left_iter right_iter : list HashValue) :
    result (option (list HashValue)) :=
  if continues current left_iter right_iter then
    match fuel with
    | O => Ok None
    | S fuel =>
        '(current, left_iter, right_iter, first_pos) ←
          level_step first_pos current left_iter right_iter;
        levels_loop fuel first_pos current left_iter right_iter
    end
  else Ok (Some current).

Definition verify (self : t HashValue) (expected_root_hash : HashValue)
    (first_leaf_index : option Z) (leaf_hashes : list HashValue) : result unit :=
  match first_leaf_index with
  | None =>
      ensure (bool_decide (leaf_hashes = []))
        "first_leaf_index indicated empty list while leaf_hashes is not empty.";;
      ensure (bool_decide (left_siblings self = []) && bool_decide (right_siblings self = []))
        "No siblings are needed."
  | Some first_leaf_index =>
      ensure (Z.of_nat (length (left_siblings self)) <=? MAX_ACCUMULATOR_PROOF_DEPTH)
        "Proof has more than 63 left siblings.";;
      ensure (Z.of_nat (length (right_siblings self)) <=? MAX_ACCUMULATOR_PROOF_DEPTH)
        "Proof has more than 63 right siblings.";;
      ensure (negb (bool_decide (leaf_hashes = [])))
        "leaf_hashes is empty while first_leaf_index indicated non-empty list.";;
      first_pos ← Position.from_leaf_index first_leaf_index;
      hashes ← levels_loop
        (length leaf_hashes + length (left_siblings self) + length (right_siblings self))
        first_pos leaf_hashes (left_siblings self) (right_siblings self);
      current_hashes ← expect hashes;
      actual_root_hash ← expect (head current_hashes);
      ensure (bool_decide (actual_root_hash = expected_root_hash)) "Root hashes do not match."
  end.

End definitions.
End AccumulatorRangeProof.

Module AccumulatorConsistencyProof.

Record t (HashValue : Type) := new { subtrees : list HashValue }.
Arguments new {HashValue} _.
Arguments subtrees {HashValue} _.

Definition is_empty {HashValue} (self : t HashValue) : bool :=
  match subtrees self with [] => true | _ => false end.

End AccumulatorConsistencyProof.

Module TransactionAccumulatorSummary.
Section definitions.
Context `{CryptoTypes} `{!MerkleHasher HashValue}.

Record t := mk { accumulator : InMemoryAccumulator.t HashValue }.

Definition new (accumulator : InMemoryAccumulator.t HashValue) : result t :=
  ensure (negb (InMemoryAccumulator.is_empty accumulator))
    "empty accumulator: we can't verify consistency proofs from an empty accumulator";;
  Ok (mk accumulator).

Definition version (self : t) : Z := InMemoryAccumulator.version (accumulator self).

Definition root_hash (self : t) : HashValue := InMemoryAccumulator.root_hash (accumulator self).

Definition verify_consistency (self : t) (ledger_info : LedgerInfo.t) : result unit :=
  ensure (LedgerInfo.version ledger_info =? version self)
    "ledger info and accumulator must be at the same version";;
  ensure (bool_decide (LedgerInfo.transaction_accumulator_hash ledger_info = root_hash self))
    "ledger info root hash and accumulator root hash must match".

Definition try_from_genesis_proof (genesis_proof : AccumulatorConsistencyProof.t HashValue)
    (target_version : Z) : result t :=
  let num_txns := u64_saturating_add target_version 1 in
  acc ← InMemoryAccumulator.new (AccumulatorConsistencyProof.subtrees genesis_proof) num_txns;
  Ok (mk acc).

Definition try_extend_with_proof (self : t)
    (consistency_proof : AccumulatorConsistencyProof.t HashValue) (target_li : LedgerInfo.t) :
    result t :=
  ensure (version self <=? LedgerInfo.version target_li)
    "target ledger info version must be newer than our current accumulator summary version";;
  num_new_txns ← u64_sub (LedgerInfo.version target_li) (version self);
  acc ← InMemoryAccumulator.append_subtrees (accumulator self)
    (AccumulatorConsistencyProof.subtrees consistency_proof) num_new_txns;
  map_err (fun _ => "accumulator is not consistent with the target ledger info after applying consistency proof")
    (verify_consistency (mk acc) target_li);;
  Ok (mk acc).
End definitions.
End TransactionAccumulatorSummary.

Module AccumulatorExtensionProof.

Record t (HashValue : Type) := new {
  frozen_subtree_roots : list HashValue;
  num_leaves : Z;
  leaves : list HashValue;
}.
Arguments new {HashValue} _ _ _.
Arguments frozen_subtree_roots {HashValue} _.
Arguments num_leaves {HashValue} _.
Arguments leaves {HashValue} _.

Section definitions.
Context {HashValue : Type} `{!MerkleHasher HashValue} `{!EqDecision HashValue}.

Definition verify (self : t HashValue) (original_root : HashValue) :
    result (InMemoryAccumulator.t HashValue) :=
  original_tree ← InMemoryAccumulator.new (frozen_subtree_roots self) (num_leaves self);
  ensure (bool_decide (InMemoryAccumulator.root_hash original_tree = original_root))
    "Root hashes do not match.";;
  InMemoryAccumulator.append original_tree (leaves self).
End definitions.
End AccumulatorExtensionProof.

(** The derived hash of a transaction info. *)
Class TransactionInfoHasher (TransactionInfo HashValue : Type) :=
  hash_transaction_info : TransactionInfo -> HashValue.

Module TransactionInfoWithProof.
Section definitions.
Context `{CryptoTypes} `{!MerkleHasher HashValue} {TransactionInfo : Type}
  `{!TransactionInfoHasher TransactionInfo HashValue}.

Record t := new {
  ledger_info_to_transaction_info_proof : AccumulatorProof.t HashValue;
  transaction_info : TransactionInfo;
}.

Definition verify_transaction_info (ledger_info : LedgerInfo.t) (transaction_version : Z)
    (transaction_info : TransactionInfo)
    (ledger_info_to_transaction_info_proof : AccumulatorProof.t HashValue) : result unit :=
  ensure (transaction_version <=? LedgerInfo.version ledger_info)
    "Transaction version is newer than LedgerInfo version.";;
  AccumulatorProof.verify ledger_info_to_transaction_info_proof
    (LedgerInfo.transaction_accumulator_hash ledger_info)
    (hash_transaction_info transaction_info) transaction_version.

Definition verify (self : t) (ledger_info : LedgerInfo.t) (transaction_version : Z) : result unit :=
  verify_transaction_info ledger_info transaction_version (transaction_info self)
    (ledger_info_to_transaction_info_proof self).
End definitions.
End TransactionInfoWithProof.

Module TransactionInfoListWithProof.
Section definitions.
Context `{CryptoTypes} `{!MerkleHasher HashValue} {TransactionInfo : Type}
  `{!TransactionInfoHasher TransactionInfo HashValue}.

Record t := new {
  ledger_info_to_transaction_infos_proof : AccumulatorRangeProof.t HashValue;
  transaction_infos : list TransactionInfo;
}.

Definition new_empty : t := new AccumulatorRangeProof.new_empty [].

Definition verify (self : t) (ledger_info : LedgerInfo.t)
    (first_transaction_info_version : option Z) : result unit :=
  let txn_info_hashes := hash_transaction_info <$> transaction_infos self in
  AccumulatorRangeProof.verify (ledger_info_to_transaction_infos_proof self)
    (LedgerInfo.transaction_accumulator_hash ledger_info) first_transaction_info_version
    txn_info_hashes.

Definition verify_extends_ledger (self : t) (num_txns_in_ledger : Z) (root_hash : HashValue)
    (first_transaction_info_version : option Z) : result Z :=
  match first_transaction_info_version with
  | Some first_version =>
      ensure (first_version <=? num_txns_in_ledger) "Transaction list too new.";;
      num_overlap_txns ← u64_sub num_txns_in_ledger first_version;
      if Z.of_nat (length (transaction_infos self)) <? num_overlap_txns then
        Ok (Z.of_nat (length (transaction_infos self)))
      else
        let overlap_txn_infos := take (Z.to_nat num_overlap_txns) (transaction_infos self) in
        let frozen_subtree_roots_from_proof :=
          rev (AccumulatorRangeProof.left_siblings (ledger_info_to_transaction_infos_proof self)) in
        acc ← InMemoryAccumulator.new frozen_subtree_roots_from_proof first_version;
        accu_from_proof ←
          InMemoryAccumulator.append acc (hash_transaction_info <$> overlap_txn_infos);
        ensure (bool_decide (InMemoryAccumulator.root_hash accu_from_proof = root_hash))
          "Fork happens because the current synced_trees doesn't match the txn list provided.";;
        Ok num_overlap_txns
  | None =>
      ensure (bool_decide (length (transaction_infos self) = 0%nat))
        "Condition failed: `self.transaction_infos.is_empty()`";;
      Ok 0
  end.
End definitions.
End TransactionInfoListWithProof.

(** * Facts *)

Section inclusion.
Context {HashValue : Type} `{!MerkleHasher HashValue} `{!EqDecision HashValue}.
Implicit Types (ls : list HashValue) (p : Z).

(** The levels of the tree over [ls]. *)
Definition levels ls : nat := Z.to_nat (Z.log2_up (num ls)).

(** The sibling hashes on the path from node [p] of level [l] up [n] levels. *)
Fixpoint path ls (n l : nat) p : list HashValue :=
  match n with
  | O => []
  | S n => subtree ls l (if Z.even p then p + 1 else p - 1) :: path ls n (S l) (p / 2)
  end.

Definition honest_proof ls index : AccumulatorProof.t HashValue :=
  AccumulatorProof.new (path ls (levels ls) 0 index).

Lemma length_path ls n l p : length (path ls n l p) = n.
Proof. revert l p. induction n as [|n IH]; intros l p; cbn; [done|]. by rewrite IH. Qed.

Lemma parent_index_lt ls (l : nat) p : p * 2 ^ Z.of_nat l < num ls ->
  p / 2 * 2 ^ Z.of_nat (S l) < num ls.
Proof.
  intros Hp. replace (Z.of_nat (S l)) with (Z.of_nat l + 1) by lia. rewrite pow2_succ by lia.
  pose proof (Z.mul_div_le p 2 ltac:(lia)). pose proof (pow2_pos (Z.of_nat l) ltac:(lia)). nia.
Qed.

Lemma mod2_even p : (p `mod` 2 =? 0) = Z.even p.
Proof. by rewrite Zmod_even; destruct (Z.even p). Qed.

(** A parent's hash from those of a child and its sibling. *)
Lemma subtree_parent ls (l : nat) p : p * 2 ^ Z.of_nat l < num ls ->
  subtree ls (S l) (p / 2) =
  if Z.even p then hash_internal (subtree ls l p) (subtree ls l (p + 1))
  else hash_internal (subtree ls l (p - 1)) (subtree ls l p).
Proof.
  intros Hp. apply parent_index_lt in Hp. replace (Z.of_nat (S l)) with (Z.of_nat l + 1) in Hp by lia.
  rewrite subtree_succ by done. destruct (Z.even p) eqn:E.
  - apply Z.even_spec in E as [q ->]. by rewrite (div2_even _ q).
  - rewrite <-Z.negb_odd in E. apply negb_false_iff, Z.odd_spec in E as [q ->].
    by rewrite (div2_odd _ q), Z.add_simpl_r.
Qed.

Lemma fold_path ls (n l : nat) p : p * 2 ^ Z.of_nat l < num ls ->
  foldl AccumulatorProof.fold_step (subtree ls l p, p) (path ls n l p) =
  (subtree ls (l + n) (p / 2 ^ Z.of_nat n), p / 2 ^ Z.of_nat n).
Proof.
  revert l p. induction n as [|n IH]; intros l p Hp; cbn [path foldl].
  { by rewrite Nat.add_0_r, Z.pow_0_r, Z.div_1_r. }
  unfold AccumulatorProof.fold_step at 2. rewrite mod2_even.
  assert ((if Z.even p then hash_internal (subtree ls l p) (subtree ls l (if Z.even p then p + 1 else p - 1))
    else hash_internal (subtree ls l (if Z.even p then p + 1 else p - 1)) (subtree ls l p)) =
    subtree ls (S l) (p / 2)) as -> by (rewrite subtree_parent by done; by destruct (Z.even p)).
  rewrite IH by (by apply parent_index_lt).
  replace (Z.of_nat (S n)) with (Z.of_nat n + 1) by lia.
  rewrite pow2_succ, Z.div_div by (try apply pow2_pos; lia). by rewrite Nat.add_succ_r.
Qed.

(** The fold is injective in the element, up to a collision. *)
Lemma fold_sound ls (siblings : list HashValue) (l : nat) h p :
  0 <= p -> p * 2 ^ Z.of_nat l < num ls ->
  (foldl AccumulatorProof.fold_step (h, p) siblings).1 =
    subtree ls (l + length siblings) (p / 2 ^ Z.of_nat (length siblings)) ->
  h = subtree ls l p \/ collision (HashValue:=HashValue).
Proof.
  revert l h p. induction siblings as [|s siblings IH]; intros l h p Hp Hlt; cbn [foldl length].
  { rewrite Nat.add_0_r, Z.pow_0_r, Z.div_1_r. by left. }
  replace (Z.of_nat (S (length siblings))) with (Z.of_nat (length siblings) + 1) by lia.
  rewrite pow2_succ, <-Z.div_div, Nat.add_succ_r by (try apply pow2_pos; lia).
  unfold AccumulatorProof.fold_step at 2. rewrite mod2_even. intros E.
  apply (IH (S l)) in E as [E|]; [|by right|apply Z.div_pos; lia|by apply parent_index_lt].
  rewrite subtree_parent in E by done.
  destruct (Z.even p); apply hash_internal_inj in E as [[? ?]|]; by (left + right).
Qed.

Lemma levels_cover ls : num ls <= 2 ^ Z.of_nat (levels ls).
Proof.
  unfold levels. rewrite Z2Nat.id by apply Z.log2_up_nonneg.
  destruct (Z.lt_ge_cases 0 (num ls)); [by apply le_pow2_log2_up|].
  pose proof (pow2_pos (Z.log2_up (num ls)) (Z.log2_up_nonneg _)). lia.
Qed.

Lemma levels_le ls : num ls <= 2 ^ 63 -> (levels ls <= 63)%nat.
Proof.
  intros Hn. unfold levels. pose proof (Z.log2_up_le_mono _ _ Hn) as Hl.
  rewrite Z.log2_up_pow2 in Hl by lia. lia.
Qed.

Lemma div_levels ls p : 0 <= p < num ls -> p / 2 ^ Z.of_nat (levels ls) = 0.
Proof. intros Hp. apply Z.div_small. pose proof (levels_cover ls). lia. Qed.

Lemma honest_proof_verifies ls index h : num ls <= 2 ^ 63 -> ls !! Z.to_nat index = Some h ->
  0 <= index -> AccumulatorProof.verify (honest_proof ls index) (merkle_root ls) h index = Ok tt.
Proof.
  intros Hn Hh Hi. pose proof (lookup_lt_Some _ _ _ Hh) as Hlt. unfold AccumulatorProof.verify.
  cbn [honest_proof AccumulatorProof.siblings]. rewrite length_path. pose proof (levels_le ls Hn).
  rewrite (ensure_true (_ <=? _)) by (apply Z.leb_le; unfold MAX_ACCUMULATOR_PROOF_DEPTH; lia). mstep.
  assert (h = subtree ls 0 index) as ->.
  { rewrite subtree_leaf by (unfold num; lia). symmetry. by apply nth_lookup_Some. }
  rewrite fold_path by (unfold num; cbn; lia). rewrite div_levels by (unfold num; lia).
  apply ensure_true. by apply bool_decide_eq_true_2.
Qed.

Lemma accumulator_proof_extracts ls proof index h :
  0 <= index < num ls -> length (AccumulatorProof.siblings proof) = levels ls ->
  AccumulatorProof.verify proof (merkle_root ls) h index = Ok tt ->
  ls !! Z.to_nat index = Some h \/ collision (HashValue:=HashValue).
Proof.
  intros Hi Hlen Hok. unfold AccumulatorProof.verify in Hok. apply bind_Ok in Hok as ([] & _ & Hok).
  apply ensure_Ok, bool_decide_eq_true_1 in Hok. destruct (fold_sound ls (AccumulatorProof.siblings proof) 0 h index) as [->|].
  - lia.
  - cbn. lia.
  - rewrite Hok, Hlen, div_levels by lia. done.
  - left. rewrite subtree_leaf by lia.
    destruct (ls !! Z.to_nat index) as [x|] eqn:E; [by erewrite nth_lookup_Some|].
    apply lookup_ge_None_1 in E. unfold num in Hi. lia.
  - by right.
Qed.
End inclusion.

Section range.
Context {HashValue : Type} `{!MerkleHasher HashValue} `{!EqDecision HashValue}.
Implicit Types (ls cur : list HashValue) (p q : Z).
Import AccumulatorRangeProof.

(** The siblings to the left of the path from node [p], to the right of that
    from node [q], going up [n] levels from level [l]. *)
Fixpoint lefts ls (n l : nat) p : list HashValue :=
  match n with
  | O => []
  | S n => (if Z.odd p then [subtree ls l (p - 1)] else []) ++ lefts ls n (S l) (p / 2)
  end.

Fixpoint rights ls (n l : nat) q : list HashValue :=
  match n with
  | O => []
  | S n => (if Z.even q then [subtree ls l (q + 1)] else []) ++ rights ls n (S l) (q / 2)
  end.

(** The nodes [p], ..., [q] of level [l]. *)
Definition nodes ls (l : nat) p q : list HashValue := subtree ls l <$> seqZ p (q - p + 1).

Definition honest_range_proof ls first last : t HashValue :=
  new (lefts ls (levels ls) 0 first) (rights ls (levels ls) 0 last).

Lemma nodes_cons ls l p q : p <= q -> nodes ls l p q = subtree ls l p :: nodes ls l (p + 1) q.
Proof.
  intros. unfold nodes. rewrite seqZ_cons, fmap_cons by lia. do 2 f_equal. f_equal; lia.
Qed.

Lemma nodes_nil ls l p : nodes ls l p (p - 1) = [].
Proof. unfold nodes. by rewrite seqZ_nil by lia. Qed.

Lemma length_nodes ls l p q : p <= q + 1 -> Z.of_nat (length (nodes ls l p q)) = q - p + 1.
Proof. intros. unfold nodes. rewrite length_fmap, length_seqZ. lia. Qed.

Lemma pair_up_nodes ls (l : nat) a (n : nat) rem : (length rem <= 1)%nat ->
  (2 * (a + Z.of_nat n) - 2) * 2 ^ Z.of_nat l < num ls ->
  pair_up (nodes ls l (2 * a) (2 * (a + Z.of_nat n) - 1) ++ rem) =
  (nodes ls (S l) a (a + Z.of_nat n - 1), rem).
Proof.
  intros Hrem. revert a. induction n as [|n IH]; intros a Hlt.
  - rewrite Z.add_0_r, !nodes_nil. cbn [app]. destruct rem as [|? [|? ?]]; [done..|].
    cbn [length] in Hrem. lia.
  - rewrite (nodes_cons _ _ (2 * a)), (nodes_cons _ _ (2 * a + 1)) by lia. cbn [app pair_up].
    replace (2 * (a + Z.of_nat (S n)) - 1) with (2 * (a + 1 + Z.of_nat n) - 1) by lia.
    replace (2 * a + 1 + 1) with (2 * (a + 1)) by lia. rewrite IH.
    + rewrite (nodes_cons _ (S l) a) by lia.
      rewrite subtree_succ.
      * do 3 f_equal. lia.
      * replace (2 * (a + Z.of_nat (S n)) - 2) with (2 * (a + Z.of_nat n)) in Hlt by lia.
        rewrite pow2_succ by lia. pose proof (pow2_pos (Z.of_nat l) ltac:(lia)). nia.
    + replace (2 * (a + 1 + Z.of_nat n) - 2) with (2 * (a + Z.of_nat (S n)) - 2) by lia. done.
Qed.

(** The children from an even position on: their parents, but for a last one
    that is a left child. *)
Lemma pair_up_even ls (l : nat) a q : 2 * a <= q + 1 -> q * 2 ^ Z.of_nat l < num ls ->
  pair_up (nodes ls l (2 * a) q) =
  (nodes ls (S l) a (if Z.even q then q / 2 - 1 else q / 2), if Z.even q then [subtree ls l q] else []).
Proof.
  intros Ha Hlt. pose proof (pow2_pos (Z.of_nat l) ltac:(lia)). destruct (Z.even q) eqn:E.
  - apply Z.even_spec in E as [b ->]. rewrite (div2_even _ b) by done.
    pose proof (pair_up_nodes ls l a (Z.to_nat (b - a)) [subtree ls l (2 * b)] ltac:(done)) as Hp.
    rewrite Z2Nat.id in Hp by lia. replace (a + (b - a)) with b in Hp by lia.
    rewrite <-Hp by nia. f_equal. unfold nodes.
    replace (2 * b - 2 * a + 1) with (2 * b - 1 - 2 * a + 1 + 1) by lia.
    rewrite seqZ_app, fmap_app by lia. f_equal.
    replace (2 * a + (2 * b - 1 - 2 * a + 1)) with (2 * b) by lia.
    rewrite (seqZ_cons (2 * b)) by lia. change (Z.pred 1) with 0. by rewrite (seqZ_nil _ 0) by lia.
  - rewrite <-Z.negb_odd in E. apply negb_false_iff, Z.odd_spec in E as [b ->].
    rewrite (div2_odd _ b) by done.
    pose proof (pair_up_nodes ls l a (Z.to_nat (b + 1 - a)) [] ltac:(simpl; lia)) as Hp.
    rewrite Z2Nat.id, app_nil_r in Hp by lia. replace (a + (b + 1 - a)) with (b + 1) in Hp by lia.
    replace (2 * (b + 1) - 1) with (2 * b + 1) in Hp by lia. rewrite Hp by nia.
    f_equal. f_equal. lia.
Qed.

Lemma nodes_snoc ls l p q : p <= q -> nodes ls l p q = nodes ls l p (q - 1) ++ [subtree ls l q].
Proof.
  intros. unfold nodes. replace (q - p + 1) with (q - 1 - p + 1 + 1) by lia.
  rewrite seqZ_app, fmap_app by lia. f_equal. replace (p + (q - 1 - p + 1)) with q by lia.
  rewrite (seqZ_cons q) by lia. change (Z.pred 1) with 0. by rewrite (seqZ_nil _ 0) by lia.
Qed.

Lemma level_step_honest ls (n l : nat) p q : (l < 63)%nat -> pos_ok (Z.of_nat l) p ->
  p <= q -> q * 2 ^ Z.of_nat l < num ls ->
  level_step (node (Z.of_nat l) p) (nodes ls l p q) (lefts ls (S n) l p) (rights ls (S n) l q) =
  Ok (nodes ls (S l) (p / 2) (q / 2), lefts ls n (S l) (p / 2), rights ls n (S l) (q / 2),
      node (Z.of_nat (S l)) (p / 2)).
Proof.
  intros Hl Hok Hpq Hlt. unfold level_step. rewrite is_right_child_node, parent_node by (done || lia). mstep.
  replace (Z.of_nat (S l)) with (Z.of_nat l + 1) by lia. pose proof Hok as (_ & Hp & _).
  pose proof (pow2_pos (Z.of_nat l) ltac:(lia)). cbn [lefts rights].
  pose proof (subtree_parent ls l q Hlt) as Hq.
  destruct (Z.odd p) eqn:Ep.
  - rewrite (nodes_cons _ _ p) by done. cbn [app]. mstep.
    apply Z.odd_spec in Ep as [a ->]. rewrite (div2_odd _ a), Z.add_simpl_r by done.
    replace (2 * a + 1 + 1) with (2 * (a + 1)) by lia. rewrite pair_up_even by (done || lia).
    pose proof (subtree_parent ls l (2 * a + 1) ltac:(nia)) as Hpar.
    rewrite (div2_odd _ a), Z.add_simpl_r in Hpar by done.
    replace (Z.even (2 * a + 1)) with false in Hpar by (by rewrite Z.even_add, Z.even_mul).
    rewrite <-Hpar. assert (a <= q / 2) by (apply Z.div_le_lower_bound; lia).
    destruct (Z.even q) eqn:Eq; rewrite assert_true by done; mstep; cbn [app]; mstep.
    + rewrite <-Hq. destruct (Z.eq_dec a (q / 2)) as [Ea|].
      * (* the one node of this level is a right child, the next even one is not in it *)
        apply Z.even_spec in Eq as [b ->]. rewrite (div2_even _ b) in Ea by done. lia.
      * rewrite (nodes_cons _ _ a), (nodes_snoc _ _ (a + 1) (q / 2)) by lia. done.
    + rewrite app_nil_r, (nodes_cons _ _ a) by lia. done.
  - rewrite <-Z.negb_even in Ep. apply negb_false_iff, Z.even_spec in Ep as [a ->].
    rewrite (div2_even _ a) by done. mstep. rewrite pair_up_even by (done || lia).
    assert (a <= q / 2) by (apply Z.div_le_lower_bound; lia).
    destruct (Z.even q) eqn:Eq; rewrite assert_true by done; mstep; cbn [app]; mstep.
    + by rewrite <-Hq, (nodes_snoc _ _ a (q / 2)) by lia.
    + by rewrite app_nil_r.
Qed.

(** ** The loop ends *)
Lemma length_pair_up cur parents rem : pair_up cur = (parents, rem) ->
  (length cur = 2 * length parents + length rem /\ length rem <= 1)%nat.
Proof.
  revert parents rem. induction cur as [cur IH] using (induction_ltof1 _ (@length _)).
  unfold ltof in IH. intros parents rem. destruct cur as [|x [|y cur]]; cbn [pair_up].
  - intros [= <- <-]. cbn. lia.
  - intros [= <- <-]. cbn. lia.
  - destruct (pair_up cur) as [ps r] eqn:E. intros [= <- <-].
    apply IH in E; cbn [length] in *; lia.
Qed.

Lemma level_step_shape pos cur lt rt cur' lt' rt' pos' :
  level_step pos cur lt rt = Ok (cur', lt', rt', pos') -> cur <> [] ->
  exists b parents rem,
    Position.is_right_child pos = Ok b /\ Position.parent pos = Ok pos' /\
    (if b : bool then exists x y c, cur = y :: c /\ lt = x :: lt' /\ pair_up c = (parents, rem)
     else lt = lt' /\ pair_up cur = (parents, rem)) /\
    (match rem with
     | [] => rt = rt'
     | z :: _ => exists w, rt = w :: rt'
     end) /\
    (length cur' = (if b then 1 else 0) + length parents + length rem)%nat.
Proof.
  intros Hs Hne. unfold level_step in Hs.
  apply bind_Ok in Hs as (b & Hb & Hs). apply bind_Ok in Hs as ([[fp children] lt2] & Hfp & Hs).
  destruct (pair_up children) as [parents rem] eqn:Ep. apply bind_Ok in Hs as ([] & _ & Hs).
  apply bind_Ok in Hs as ([lp rt2] & Hlp & Hs). apply bind_Ok in Hs as (pos2 & Hpos & Hs).
  injection Hs as <- <- <- <-. exists b, parents, rem.
  pose proof (length_pair_up _ _ _ Ep) as [_ Hrem].
  assert (length lp = length rem /\
    match rem with [] => rt = rt2 | z :: _ => exists w, rt = w :: rt2 end) as [Hl Hr].
  { destruct rem as [|z rem]; [by injection Hlp as <- <-|].
    destruct rt as [|w rt]; [done|]. injection Hlp as <- <-.
    destruct rem; [split; [done|by exists w]|cbn in Hrem; lia]. }
  destruct b.
  - destruct lt as [|x lt]; [done|]. destruct cur as [|y c]; [done|]. injection Hfp as <- <- <-.
    split_and!; try done; [by exists x, y, c|]. rewrite !length_app, Hl. done.
  - injection Hfp as <- <- <-. split_and!; try done. rewrite !length_app, Hl. done.
Qed.

Definition measure cur (lt rt : list HashValue) : nat := length cur + length lt + length rt.

Lemma level_step_decreases pos cur lt rt cur' lt' rt' pos' :
  level_step pos cur lt rt = Ok (cur', lt', rt', pos') -> cur <> [] ->
  (measure cur' lt' rt' < measure cur lt rt)%nat /\ cur' <> [].
Proof.
  intros Hs Hne. apply level_step_shape in Hs as (b & parents & rem & _ & _ & Hb & Hr & Hl); [|done].
  unfold measure. assert (length rt = length rem + length rt')%nat as Hrt.
  { destruct rem as [|z rem]; [by subst|]. destruct Hr as [w ->]. destruct b.
    - destruct Hb as (x & y & c & _ & _ & Hp). apply length_pair_up in Hp. cbn in *. lia.
    - destruct Hb as [_ Hp]. apply length_pair_up in Hp. cbn in *. lia. }
  destruct b.
  - destruct Hb as (x & y & c & -> & -> & Hp). apply length_pair_up in Hp. cbn [length] in *.
    split; [lia|]. intros ->. cbn in Hl. lia.
  - destruct Hb as [-> Hp]. apply length_pair_up in Hp. destruct cur as [|y c]; [done|].
    cbn [length] in *. split; [lia|]. intros ->. cbn in Hl. lia.
Qed.

Lemma levels_loop_ends fuel pos cur lt rt : cur <> [] -> (measure cur lt rt <= fuel)%nat ->
  levels_loop fuel pos cur lt rt <> Ok None.
Proof.
  revert pos cur lt rt. induction fuel as [|fuel IH]; intros pos cur lt rt Hne Hm Hn;
    cbn [levels_loop] in Hn.
  - unfold measure in Hm. destruct cur; [done|]. cbn in Hm. lia.
  - destruct (continues cur lt rt); [|done].
    apply bind_Ok in Hn as ([[[cur' lt'] rt'] pos'] & Hs & Hn).
    apply level_step_decreases in Hs as [Hd Hne']; [|done]. eapply IH; [| |exact Hn]; [done|lia].
Qed.

(** A loop that ends gives the same result with any other sufficient fuel. *)
Lemma levels_loop_fuel fuel fuel' pos cur lt rt r :
  levels_loop fuel pos cur lt rt = Ok (Some r) -> levels_loop fuel' pos cur lt rt <> Ok None ->
  levels_loop fuel' pos cur lt rt = Ok (Some r).
Proof.
  revert fuel' pos cur lt rt. induction fuel as [|fuel IH]; intros fuel' pos cur lt rt Hr Hn.
  - cbn in Hr. destruct (continues cur lt rt) eqn:E; [done|]. destruct fuel'; cbn; by rewrite E.
  - cbn [levels_loop] in Hr. destruct (continues cur lt rt) eqn:E.
    + apply bind_Ok in Hr as ([[[cur' lt'] rt'] pos'] & Hs & Hr).
      destruct fuel' as [|fuel']; cbn [levels_loop] in *; rewrite E in *; [done|].
      rewrite Hs in *. cbn [mbind outcome_bind] in *. by apply IH.
    + destruct fuel'; cbn; by rewrite E.
Qed.

(** ** An honest range proof is accepted *)
Lemma continues_honest ls (n l : nat) p q : p <= q -> continues (nodes ls l p q) (lefts ls (S n) l p)
  (rights ls (S n) l q) = true.
Proof.
  intros Hpq. unfold continues. destruct (Z.eq_dec p q) as [<-|].
  - cbn [lefts rights]. rewrite <-Z.negb_even. destruct (Z.even p); cbn [app negb].
    + rewrite orb_true_iff. right. by case_bool_decide.
    + rewrite !orb_true_iff. left. right. by case_bool_decide.
  - rewrite length_nodes by lia. rewrite !orb_true_iff. left. left. apply Z.ltb_lt. lia.
Qed.

Lemma levels_loop_honest ls (n l : nat) p q : (l + n <= 63)%nat -> pos_ok (Z.of_nat l) p ->
  p <= q -> q * 2 ^ Z.of_nat l < num ls -> q < 2 ^ Z.of_nat n ->
  levels_loop n (node (Z.of_nat l) p) (nodes ls l p q) (lefts ls n l p) (rights ls n l q) =
  Ok (Some [subtree ls (l + n) 0]).
Proof.
  revert l p q. induction n as [|n IH]; intros l p q Hl Hok Hpq Hlt Hq.
  - pose proof Hok as (_ & Hp & _). change (2 ^ Z.of_nat 0) with 1 in Hq.
    assert (p = 0) as -> by lia. assert (q = 0) as -> by lia. by rewrite Nat.add_0_r.
  - cbn [levels_loop]. rewrite continues_honest, level_step_honest by (done || lia). mstep.
    pose proof Hok as (_ & Hp & _).
    rewrite IH.
    + by rewrite Nat.add_succ_r.
    + lia.
    + replace (Z.of_nat (S l)) with (Z.of_nat l + 1) by lia. apply pos_ok_parent; [lia|done].
    + apply Z.div_le_mono; lia.
    + by apply parent_index_lt.
    + replace (Z.of_nat (S n)) with (Z.of_nat n + 1) in Hq by lia. rewrite pow2_succ in Hq by lia.
      apply Z.div_lt_upper_bound; lia.
Qed.

(** ** Equal results come from equal inputs, up to a collision *)
Lemma pair_up_inj cur cur' parents rem :
  pair_up cur = (parents, rem) -> pair_up cur' = (parents, rem) ->
  cur = cur' \/ collision (HashValue:=HashValue).
Proof.
  revert cur' parents. induction cur as [cur IH] using (induction_ltof1 _ (@length _)).
  unfold ltof in IH. intros cur' parents H1 H2.
  pose proof (length_pair_up _ _ _ H1) as [L1 _]. pose proof (length_pair_up _ _ _ H2) as [L2 _].
  destruct cur as [|x [|y cur]], cur' as [|x' [|y' cur']]; cbn [length] in *; try lia;
    cbn [pair_up] in H1, H2; [by left|left; congruence|].
  destruct (pair_up cur) as [ps r] eqn:E1. destruct (pair_up cur') as [ps' r'] eqn:E2.
  injection H1 as <- ->. injection H2 as Eh -> ->.
  apply IH with (cur' := cur') in E1 as [->|]; [|by right|lia|done].
  apply hash_internal_inj in Eh as [[-> ->]|]; by (left + right).
Qed.

Lemma last_parent_inj (e : string) (rem rem' rt rt' lp lp' rt2 rt2' : list HashValue) :
  length rem = length rem' -> (length rem <= 1)%nat ->
  match rem with
  | [] => Ok ([], rt)
  | l :: _ => match rt with [] => Err e | r :: rt => Ok ([hash_internal l r], rt) end
  end = Ok (lp, rt2) ->
  match rem' with
  | [] => Ok ([], rt')
  | l :: _ => match rt' with [] => Err e | r :: rt => Ok ([hash_internal l r], rt) end
  end = (Ok (lp', rt2') : result _) ->
  length lp = length rem /\ length lp' = length rem' /\
  (lp = lp' -> rt2 = rt2' -> (rem = rem' /\ rt = rt') \/ collision (HashValue:=HashValue)).
Proof.
  intros Hl H1 E1 E2. destruct rem as [|x [|? ?]], rem' as [|x' [|? ?]]; cbn [length] in *; try lia.
  - injection E1 as <- <-. injection E2 as <- <-. split_and!; [done..|]. intros. by left.
  - destruct rt as [|w rt]; [done|]. destruct rt' as [|w' rt']; [done|].
    injection E1 as <- <-. injection E2 as <- <-. split_and!; [done..|]. intros [= E] ->.
    apply hash_internal_inj in E as [[-> ->]|]; by (left + right).
Qed.

Lemma level_step_inj pos cur lt rt cur1 lt1 rt1 cur' lt' rt' cur1' lt1' rt1' pos1 pos1' :
  length cur = length cur' ->
  level_step pos cur lt rt = Ok (cur1, lt1, rt1, pos1) ->
  level_step pos cur' lt' rt' = Ok (cur1', lt1', rt1', pos1') ->
  pos1 = pos1' /\ length cur1 = length cur1' /\
  (cur1 = cur1' -> lt1 = lt1' -> rt1 = rt1' ->
   (cur = cur' /\ lt = lt' /\ rt = rt') \/ collision (HashValue:=HashValue)).
Proof.
  intros Hlen H1 H2. unfold level_step in H1, H2.
  apply bind_Ok in H1 as (b & Hb & H1). rewrite Hb in H2. cbn [mbind outcome_bind] in H2.
  apply bind_Ok in H1 as ([[fp children] ltx] & Hfp & H1).
  apply bind_Ok in H2 as ([[fp' children'] ltx'] & Hfp' & H2).
  destruct (pair_up children) as [ps rem] eqn:Ep. destruct (pair_up children') as [ps' rem'] eqn:Ep'.
  apply bind_Ok in H1 as ([] & _ & H1). apply bind_Ok in H2 as ([] & _ & H2).
  apply bind_Ok in H1 as ([lp rtx] & Hlp & H1). apply bind_Ok in H2 as ([lp' rtx'] & Hlp' & H2).
  apply bind_Ok in H1 as (posx & Hpos & H1). rewrite Hpos in H2. cbn [mbind outcome_bind] in H2.
  injection H1 as <- <- <- <-. injection H2 as <- <- <- <-.
  pose proof (length_pair_up _ _ _ Ep) as [L1 R1]. pose proof (length_pair_up _ _ _ Ep') as [L2 R2].
  assert (length children = length children' /\ length fp = length fp' /\
    (fp = fp' -> children = children' -> ltx = ltx' ->
     (cur = cur' /\ lt = lt') \/ collision (HashValue:=HashValue))) as (Hch & Hfpl & Hfirst).
  { destruct b.
    - destruct lt as [|x lt]; [done|]. destruct cur as [|y cur]; [done|]. injection Hfp as <- <- <-.
      destruct lt' as [|x' lt']; [done|]. destruct cur' as [|y' cur']; [done|]. injection Hfp' as <- <- <-.
      cbn in Hlen. split_and!; [lia|done|]. intros [= E] -> ->.
      apply hash_internal_inj in E as [[-> ->]|]; by (left + right).
    - injection Hfp as <- <- <-. injection Hfp' as <- <- <-. split_and!; [done..|]. intros _ -> ->. by left. }
  destruct (last_parent_inj _ rem rem' rt rt' lp lp' rtx rtx' ltac:(lia) R1 Hlp Hlp') as (Hl1 & Hl2 & Hlast).
  split; [done|]. split; [rewrite !length_app; lia|]. intros Ecur -> ->.
  apply app_inj_1 in Ecur as [Efp Erest]; [|done]. apply app_inj_1 in Erest as [Eps Elp]; [|lia].
  destruct (Hlast Elp eq_refl) as [[-> ->]|]; [|by right]. subst ps'.
  destruct (pair_up_inj _ _ _ _ Ep Ep') as [Ec|]; [|by right].
  destruct (Hfirst Efp Ec eq_refl) as [[-> ->]|]; [by left|by right].
Qed.

Lemma level_step_lengths pos cur lt rt cur1 lt1 rt1 cur' lt' rt' cur1' lt1' rt1' pos1 pos1' :
  cur <> [] -> length cur = length cur' -> length lt = length lt' -> length rt = length rt' ->
  level_step pos cur lt rt = Ok (cur1, lt1, rt1, pos1) ->
  level_step pos cur' lt' rt' = Ok (cur1', lt1', rt1', pos1') ->
  length lt1 = length lt1' /\ length rt1 = length rt1'.
Proof.
  intros Hne Hc Hl Hr H1 H2. assert (cur' <> []) as Hne' by (destruct cur, cur'; done).
  apply level_step_shape in H1 as (b & ps & rem & Hb & _ & Hcur & Hrt & _); [|done].
  apply level_step_shape in H2 as (b' & ps' & rem' & Hb' & _ & Hcur' & Hrt' & _); [|done].
  assert (b' = b) as -> by congruence.
  assert (length rem = length rem' /\ length lt1 = length lt1') as [Hrem Hlt].
  { destruct b.
    - destruct Hcur as (? & ? & c & -> & -> & Hp). destruct Hcur' as (? & ? & c' & -> & -> & Hp').
      apply length_pair_up in Hp, Hp'. cbn [length] in *. lia.
    - destruct Hcur as [-> Hp], Hcur' as [-> Hp']. apply length_pair_up in Hp, Hp'. lia. }
  split; [done|]. destruct rem, rem'; try done; [by subst|].
  destruct Hrt as [? ->], Hrt' as [? ->]. by injection Hr.
Qed.

Lemma continues_lengths (cur cur' lt lt' rt rt' : list HashValue) :
  length cur = length cur' -> length lt = length lt' -> length rt = length rt' ->
  continues cur lt rt = continues cur' lt' rt'.
Proof.
  intros Hc Hl Hr. unfold continues. rewrite Hc. f_equal; [f_equal|];
    f_equal; apply bool_decide_ext; destruct lt, lt', rt, rt'; done.
Qed.

Lemma continues_false (cur lt rt : list HashValue) : continues cur lt rt = false ->
  (length cur <= 1)%nat /\ lt = [] /\ rt = [].
Proof.
  unfold continues. rewrite !orb_false_iff, !negb_false_iff, !bool_decide_eq_true.
  intros [[E ->] ->]. zbool. split_and!; [lia|done..].
Qed.

Lemma levels_loop_inj fuel pos cur lt rt cur' lt' rt' r : cur <> [] ->
  length cur = length cur' -> length lt = length lt' -> length rt = length rt' ->
  levels_loop fuel pos cur lt rt = Ok (Some r) -> levels_loop fuel pos cur' lt' rt' = Ok (Some r) ->
  cur = cur' \/ collision (HashValue:=HashValue).
Proof.
  enough (cur <> [] -> length cur = length cur' -> length lt = length lt' -> length rt = length rt' ->
    levels_loop fuel pos cur lt rt = Ok (Some r) -> levels_loop fuel pos cur' lt' rt' = Ok (Some r) ->
    (cur = cur' /\ lt = lt' /\ rt = rt') \/ collision (HashValue:=HashValue)) by tauto.
  revert pos cur lt rt cur' lt' rt'.
  induction fuel as [|fuel IH]; intros pos cur lt rt cur' lt' rt' Hne Hc Hl Hr H1 H2;
    cbn [levels_loop] in H1, H2; rewrite (continues_lengths cur cur' lt lt' rt rt') in H1 by done;
    destruct (continues cur' lt' rt') eqn:Econt.
  - done.
  - left. apply continues_false in Econt as (_ & -> & ->). destruct lt, rt; try done.
    split_and!; congruence.
  - apply bind_Ok in H1 as ([[[cur1 lt1] rt1] pos1] & S1 & H1).
    apply bind_Ok in H2 as ([[[cur1' lt1'] rt1'] pos1'] & S2 & H2).
    pose proof (level_step_lengths _ _ _ _ _ _ _ _ _ _ _ _ _ _ _ Hne Hc Hl Hr S1 S2) as [Hl1 Hr1].
    pose proof (level_step_decreases _ _ _ _ _ _ _ _ S1 Hne) as [_ Hne1].
    destruct (level_step_inj _ _ _ _ _ _ _ _ _ _ _ _ _ _ _ Hc S1 S2) as (-> & Hc1 & Hinj).
    destruct (IH _ _ _ _ _ _ _ Hne1 Hc1 Hl1 Hr1 H1 H2) as [(-> & -> & ->)|]; [by apply Hinj|by right].
  - left. apply continues_false in Econt as (_ & -> & ->). destruct lt, rt; try done.
    split_and!; congruence.
Qed.

(** The number of iterations depends only on the numbers of hashes. *)
Lemma levels_loop_same_steps fuel pos cur lt rt cur' lt' rt' r : cur <> [] ->
  length cur = length cur' -> length lt = length lt' -> length rt = length rt' ->
  levels_loop fuel pos cur lt rt = Ok (Some r) -> levels_loop fuel pos cur' lt' rt' <> Ok None.
Proof.
  revert pos cur lt rt cur' lt' rt'.
  induction fuel as [|fuel IH]; intros pos cur lt rt cur' lt' rt' Hne Hc Hl Hr H1 H2;
    cbn [levels_loop] in H1, H2; rewrite (continues_lengths cur cur' lt lt' rt rt') in H1 by done;
    destruct (continues cur' lt' rt'); [done|done| |done].
  apply bind_Ok in H1 as ([[[c1 l1] r1] p1] & S1 & H1).
  apply bind_Ok in H2 as ([[[c2 l2] r2] p2] & S2 & H2).
  pose proof (level_step_lengths _ _ _ _ _ _ _ _ _ _ _ _ _ _ _ Hne Hc Hl Hr S1 S2) as [? ?].
  pose proof (level_step_inj _ _ _ _ _ _ _ _ _ _ _ _ _ _ _ Hc S1 S2) as (-> & ? & _).
  pose proof (level_step_decreases _ _ _ _ _ _ _ _ S1 Hne) as [_ ?].
  eapply IH; [| | | |exact H1|exact H2]; done.
Qed.

Lemma levels_loop_single fuel pos cur lt rt r : cur <> [] ->
  levels_loop fuel pos cur lt rt = Ok (Some r) -> exists h, r = [h].
Proof.
  revert pos cur lt rt. induction fuel as [|fuel IH]; intros pos cur lt rt Hne Hr;
    cbn [levels_loop] in Hr; destruct (continues cur lt rt) eqn:E.
  - done.
  - injection Hr as <-. apply continues_false in E as (E & _ & _).
    destruct cur as [|h [|? ?]]; [done|by exists h|cbn in E; lia].
  - apply bind_Ok in Hr as ([[[cur1 lt1] rt1] pos1] & S1 & Hr).
    apply level_step_decreases in S1 as [_ Hne1]; [|done]. by eapply IH.
  - injection Hr as <-. apply continues_false in E as (E & _ & _).
    destruct cur as [|h [|? ?]]; [done|by exists h|cbn in E; lia].
Qed.

Lemma nodes_leaves ls p q : 0 <= p -> q < num ls ->
  nodes ls 0 p q = take (Z.to_nat (q - p + 1)) (drop (Z.to_nat p) ls).
Proof.
  intros Hp Hq. unfold num in Hq. apply list_eq. intros i. unfold nodes.
  rewrite list_lookup_fmap. destruct (Z.lt_ge_cases (Z.of_nat i) (q - p + 1)) as [Hi|Hi].
  - rewrite lookup_seqZ_lt, lookup_take, decide_True, lookup_drop by lia. cbn [fmap option_fmap option_map].
    rewrite subtree_leaf by (unfold num; lia).
    replace (Z.to_nat p + i)%nat with (Z.to_nat (p + Z.of_nat i)) by lia.
    destruct (ls !! Z.to_nat (p + Z.of_nat i)) as [x|] eqn:E; [by erewrite nth_lookup_Some|].
    apply lookup_ge_None_1 in E. lia.
  - rewrite lookup_seqZ_ge, lookup_take, decide_False by lia. done.
Qed.

Lemma length_lefts ls n l p : (length (lefts ls n l p) <= n)%nat.
Proof.
  revert l p. induction n as [|n IH]; intros l p; cbn [lefts]; [done|]. rewrite length_app.
  specialize (IH (S l) (p / 2)). destruct (Z.odd p); cbn [length]; lia.
Qed.

Lemma length_rights ls n l q : (length (rights ls n l q) <= n)%nat.
Proof.
  revert l q. induction n as [|n IH]; intros l q; cbn [rights]; [done|]. rewrite length_app.
  specialize (IH (S l) (q / 2)). destruct (Z.even q); cbn [length]; lia.
Qed.

Lemma verify_loop_Ok (proof : t HashValue) root first hashes :
  verify proof root (Some first) hashes = Ok tt ->
  hashes <> [] /\ exists pos fuel, Position.from_leaf_index first = Ok pos /\
    levels_loop fuel pos hashes (left_siblings proof) (right_siblings proof) = Ok (Some [root]).
Proof.
  unfold verify. intros Hok. apply bind_Ok in Hok as ([] & _ & Hok). apply bind_Ok in Hok as ([] & _ & Hok).
  apply bind_Ok in Hok as ([] & Hne & Hok). apply ensure_Ok, negb_true_iff, bool_decide_eq_false_1 in Hne.
  apply bind_Ok in Hok as (pos & Hpos & Hok). apply bind_Ok in Hok as (r & Hr & Hok).
  destruct r as [r|]; [|done]. cbn [expect mbind outcome_bind] in Hok.
  pose proof (levels_loop_single _ _ _ _ _ _ Hne Hr) as [h ->]. cbn in Hok.
  apply ensure_Ok, bool_decide_eq_true_1 in Hok as ->. split; [done|]. by eexists _, _.
Qed.

Lemma pos_ok_leaf p : 0 <= p -> p + 1 < 2 ^ 63 -> pos_ok 0 p.
Proof. intros. apply pos_ok_intro; [done| |by right]. replace (63 - 0) with 63 by lia. lia. Qed.

Lemma honest_loop ls first last : num ls < 2 ^ 63 -> 0 <= first <= last -> last < num ls ->
  levels_loop (levels ls) (node 0 first) (nodes ls 0 first last) (lefts ls (levels ls) 0 first)
    (rights ls (levels ls) 0 last) = Ok (Some [merkle_root ls]).
Proof.
  intros Hn Hf Hl. pose proof (levels_le ls ltac:(lia)). pose proof (levels_cover ls).
  apply (levels_loop_honest ls (levels ls) 0); [lia|apply pos_ok_leaf; lia|lia| |lia].
  cbn. lia.
Qed.

Lemma honest_range_proof_verifies ls first last :
  num ls < 2 ^ 63 -> 0 <= first <= last -> last < num ls ->
  verify (honest_range_proof ls first last) (merkle_root ls) (Some first)
    (take (Z.to_nat (last - first + 1)) (drop (Z.to_nat first) ls)) = Ok tt.
Proof.
  intros Hn Hf Hl. rewrite <-nodes_leaves by lia. pose proof (honest_loop ls first last Hn Hf Hl) as Hloop.
  assert (nodes ls 0 first last <> []) as Hne.
  { intros E. apply (f_equal (Z.of_nat ∘ length)) in E. cbn in E. rewrite length_nodes in E by lia. lia. }
  pose proof (levels_le ls ltac:(lia)). unfold verify. cbn [honest_range_proof left_siblings right_siblings].
  pose proof (length_lefts ls (levels ls) 0 first). pose proof (length_rights ls (levels ls) 0 last).
  rewrite !(ensure_true (_ <=? _)) by (apply Z.leb_le; unfold MAX_ACCUMULATOR_PROOF_DEPTH; lia). mstep.
  rewrite ensure_true by (apply negb_true_iff, bool_decide_eq_false_2, Hne). mstep.
  rewrite from_leaf_index_node by lia. mstep.
  rewrite (levels_loop_fuel (levels ls) _ _ _ _ _ _ Hloop) by
    (apply levels_loop_ends; [done|unfold measure; lia]). cbn [expect head]. mstep.
  apply ensure_true. by apply bool_decide_eq_true_2.
Qed.
End range.

(** * Properties *)

(** An accepted inclusion proof of the tree's height shows the leaf at that
    index, or exhibits a collision; and the path of siblings of a leaf is
    accepted. *)
Theorem accumulator_proof_correct {HashValue} `{!MerkleHasher HashValue} `{!EqDecision HashValue}
    (ls : list HashValue) (index : Z) (h : HashValue) :
  num ls <= 2 ^ 63 -> 0 <= index < num ls ->
  (forall proof, length (AccumulatorProof.siblings proof) = levels ls ->
     AccumulatorProof.verify proof (merkle_root ls) h index = Ok tt ->
     ls !! Z.to_nat index = Some h \/ collision (HashValue:=HashValue)) /\
  (ls !! Z.to_nat index = Some h ->
   AccumulatorProof.verify (honest_proof ls index) (merkle_root ls) h index = Ok tt).
Proof.
  intros Hn Hi. split.
  - intros proof Hl Hv. by eapply accumulator_proof_extracts.
  - intros Hh. apply honest_proof_verifies; [done|done|lia].
Qed.

Lemma accumulator_proof_correct_witness :
  AccumulatorProof.verify (honest_proof [Leaf 0; Leaf 1; Leaf 2] 2) (merkle_root [Leaf 0; Leaf 1; Leaf 2])
    (Leaf 2) 2 = Ok tt.
Proof.
  apply (accumulator_proof_correct [Leaf 0; Leaf 1; Leaf 2] 2 (Leaf 2)); [by vm_compute|by vm_compute|done].
Defined.

(** C35: the range proof made of the siblings of a range of leaves is accepted; and
    whatever siblings are given, as many as that proof has, an accepted list of
    leaves is the range of the tree, or there is a collision. *)
Theorem range_proof_correct {HashValue} `{!MerkleHasher HashValue} `{!EqDecision HashValue}
    (ls : list HashValue) (first last : Z) :
  num ls < 2 ^ 63 -> 0 <= first <= last -> last < num ls ->
  let leaves := take (Z.to_nat (last - first + 1)) (drop (Z.to_nat first) ls) in
  let honest := honest_range_proof ls first last in
  AccumulatorRangeProof.verify honest (merkle_root ls) (Some first) leaves = Ok tt /\
  forall proof hashes,
    length (AccumulatorRangeProof.left_siblings proof) =
      length (AccumulatorRangeProof.left_siblings honest) ->
    length (AccumulatorRangeProof.right_siblings proof) =
      length (AccumulatorRangeProof.right_siblings honest) ->
    length hashes = length leaves ->
    AccumulatorRangeProof.verify proof (merkle_root ls) (Some first) hashes = Ok tt ->
    hashes = leaves \/ collision (HashValue:=HashValue).
Proof.
  intros Hn Hf Hl leaves honest. assert (leaves = nodes ls 0 first last) as Hleaves
    by (symmetry; apply nodes_leaves; lia).
  pose proof (honest_loop ls first last Hn Hf Hl) as Hloop. rewrite <-Hleaves in Hloop.
  assert (leaves <> []) as Hne.
  { rewrite Hleaves. intros E. apply (f_equal (Z.of_nat ∘ length)) in E. cbn in E.
    rewrite length_nodes in E by lia. lia. }
  split; [by apply honest_range_proof_verifies|].
  intros proof hashes Hll Hrl Hhl Hv. apply verify_loop_Ok in Hv as (_ & pos & fuel & Hpos & Hv).
  rewrite from_leaf_index_node in Hpos by lia. injection Hpos as <-.
  assert (hashes <> []) as Hhne by (destruct hashes, leaves; done).
  assert (AccumulatorRangeProof.levels_loop fuel (node 0 first) leaves (lefts ls (levels ls) 0 first)
    (rights ls (levels ls) 0 last) <> Ok None) as Hnn
    by (by eapply levels_loop_same_steps; [| | | |exact Hv]).
  pose proof (levels_loop_fuel _ fuel _ _ _ _ _ Hloop Hnn) as Hloop'.
  eapply levels_loop_inj; [| | | |exact Hv|exact Hloop']; done.
Qed.

Lemma range_proof_correct_witness :
  AccumulatorRangeProof.verify
    (honest_range_proof [Leaf 0; Leaf 1; Leaf 2; Leaf 3; Leaf 4] 1 2)
    (merkle_root [Leaf 0; Leaf 1; Leaf 2; Leaf 3; Leaf 4]) (Some 1) [Leaf 1; Leaf 2] = Ok tt.
Proof.
  apply (range_proof_correct [Leaf 0; Leaf 1; Leaf 2; Leaf 3; Leaf 4] 1 2); by vm_compute.
Defined.

(** The loop of [AccumulatorRangeProof::verify] ends on every proof: the number
    of hashes and siblings left decreases with every level. *)
Theorem range_proof_loop_ends {HashValue} `{!MerkleHasher HashValue} `{!EqDecision HashValue}
    (pos : Z) (hashes lefts rights : list HashValue) :
  hashes <> [] ->
  AccumulatorRangeProof.levels_loop (length hashes + length lefts + length rights) pos hashes lefts rights
    <> Ok None.
Proof. intros. by apply levels_loop_ends. Qed.

Lemma range_proof_loop_ends_witness :
  AccumulatorRangeProof.levels_loop 3 0 [Leaf 0] [Leaf 1] [Leaf 2] <> Ok None.
Proof. by apply (range_proof_loop_ends 0 [Leaf 0] [Leaf 1] [Leaf 2]). Defined.

(** A range proof with too many siblings for the position of the first leaf,
    each list within the accepted length, makes [verify] panic instead of
    returning an error. *)
Theorem range_proof_verify_panics :
  AccumulatorRangeProof.verify
    (AccumulatorRangeProof.new [Leaf 0; Leaf 1] (replicate 63 (Leaf 2))) (Leaf 3) (Some 3) [Leaf 4] = Panic.
Proof. by vm_compute. Qed.

(** C36: extending a light client's summary.  A summary of the transactions [txns]
    that is extended by any consistency proof to the ledger info of [txns'] ends
    up summarising [txns'], and [txns'] extends [txns], or there is a collision;
    and the subtrees of the new transactions are such a proof. *)
Theorem summary_extension_correct `{CryptoTypes} `{!MerkleHasher HashValue}
    (self : TransactionAccumulatorSummary.t) (txns txns' : list HashValue) (li : LedgerInfo.t) :
  InMemoryAccumulator.represents (TransactionAccumulatorSummary.accumulator self) txns ->
  txns <> [] -> num txns' < 2 ^ 63 -> num txns <= num txns' ->
  LedgerInfo.version li = num txns' - 1 ->
  LedgerInfo.transaction_accumulator_hash li = merkle_root txns' ->
  (forall proof self',
     TransactionAccumulatorSummary.try_extend_with_proof self proof li = Ok self' ->
     (exists new, txns' = txns ++ new /\
        InMemoryAccumulator.represents (TransactionAccumulatorSummary.accumulator self') txns') \/
     collision (HashValue:=HashValue)) /\
  (forall new, txns' = txns ++ new -> is_ok (TransactionAccumulatorSummary.try_extend_with_proof self
     (AccumulatorConsistencyProof.new
        (hash_at txns' <$> sibling_coords 128 (num txns) (num new))) li) = true).
Proof.
  intros Hrep Hne Hlt Hle Hver Hhash.
  assert (0 < num txns) by (unfold num; destruct txns; [done|cbn; lia]).
  assert (TransactionAccumulatorSummary.version self = num txns - 1) as Hv.
  { unfold TransactionAccumulatorSummary.version, InMemoryAccumulator.version.
    destruct Hrep as (-> & _). by rewrite (proj2 (Z.eqb_neq _ _)) by lia. }
  unfold TransactionAccumulatorSummary.try_extend_with_proof.
  rewrite Hv, Hver. rewrite (ensure_true (_ <=? _)) by (apply Z.leb_le; lia). mstep.
  rewrite u64_sub_Ok by lia. mstep. replace (num txns' - 1 - (num txns - 1)) with (num txns' - num txns) by lia.
  split.
  - intros proof self' Hok. apply bind_Ok in Hok as (acc & Hacc & Hok).
    apply bind_Ok in Hok as ([] & Hcons & Hok). injection Hok as <-.
    unfold map_err in Hcons. destruct (TransactionAccumulatorSummary.verify_consistency _ _) as [[]| |] eqn:Ec;
      [|done..]. unfold TransactionAccumulatorSummary.verify_consistency in Ec.
    apply bind_Ok in Ec as ([] & _ & Ec). apply ensure_Ok, bool_decide_eq_true_1 in Ec.
    rewrite Hhash in Ec.
    apply (InMemoryAccumulator.append_subtrees_extends _ acc _ txns' _ _ Hrep) in Hacc;
      [done|lia|lia|done|done].
  - intros new ->. replace (num (txns ++ new) - num txns) with (num new)
      by (unfold num; rewrite length_app; lia).
    cbn [AccumulatorConsistencyProof.subtrees].
    assert (num (txns ++ new) = num txns + num new) as Ha by (unfold num; rewrite length_app; lia).
    rewrite InMemoryAccumulator.append_subtrees_frozen by (done || lia). mstep.
    unfold TransactionAccumulatorSummary.verify_consistency, TransactionAccumulatorSummary.version,
      InMemoryAccumulator.version, TransactionAccumulatorSummary.root_hash.
    cbn [TransactionAccumulatorSummary.accumulator InMemoryAccumulator.num_leaves
      InMemoryAccumulator.root_hash].
    rewrite (proj2 (Z.eqb_neq (num (txns ++ new)) 0)), Hver, Hhash, Z.eqb_refl, bool_decide_eq_true_2 by (done || lia). done.
Qed.

Definition ledger_info_at (version : Z) (root : digest) : @LedgerInfo.t free_crypto :=
  LedgerInfo.new (BlockInfo.new 1 1 (Leaf 0) root version 0 None) (Leaf 0).

Definition summary_of (ls : list digest) : @TransactionAccumulatorSummary.t free_crypto :=
  @TransactionAccumulatorSummary.mk free_crypto
    (InMemoryAccumulator.mk (frozen_roots ls) (num ls) (merkle_root ls)).

Lemma summary_extension_correct_witness :
  is_ok (TransactionAccumulatorSummary.try_extend_with_proof (summary_of [Leaf 0; Leaf 1; Leaf 2])
    (AccumulatorConsistencyProof.new
      (hash_at [Leaf 0; Leaf 1; Leaf 2; Leaf 3; Leaf 4] <$> sibling_coords 128 3 2))
    (ledger_info_at 4 (merkle_root [Leaf 0; Leaf 1; Leaf 2; Leaf 3; Leaf 4]))) = true.
Proof.
  apply (summary_extension_correct (summary_of [Leaf 0; Leaf 1; Leaf 2])
    [Leaf 0; Leaf 1; Leaf 2] [Leaf 0; Leaf 1; Leaf 2; Leaf 3; Leaf 4]
    (ledger_info_at 4 (merkle_root [Leaf 0; Leaf 1; Leaf 2; Leaf 3; Leaf 4]))) with (new := [Leaf 3; Leaf 4]);
    done.
Defined.

(** An accepted extension proof appends its leaves to the tree whose root was
    given, or there is a collision; and it is accepted for the frozen roots of
    that tree. *)
Theorem extension_proof_correct {HashValue} `{!MerkleHasher HashValue} `{!EqDecision HashValue}
    (ls leaves : list HashValue) :
  num ls + num leaves < 2 ^ 63 ->
  (forall roots acc,
     AccumulatorExtensionProof.verify (AccumulatorExtensionProof.new roots (num ls) leaves)
       (merkle_root ls) = Ok acc ->
     InMemoryAccumulator.represents acc (ls ++ leaves) \/ collision (HashValue:=HashValue)) /\
  is_ok (AccumulatorExtensionProof.verify
    (AccumulatorExtensionProof.new (frozen_roots ls) (num ls) leaves) (merkle_root ls)) = true.
Proof.
  intros Hlt. assert (0 <= num ls) as Hn by (unfold num; lia). assert (0 <= num leaves) by (unfold num; lia).
  pose proof (InMemoryAccumulator.new_frozen ls ltac:(lia)) as Hf.
  destruct (InMemoryAccumulator.append_of_represented
    (InMemoryAccumulator.mk (frozen_roots ls) (num ls) (merkle_root ls)) ls leaves) as (acc' & Happ & Hrep);
    [done|lia|].
  unfold AccumulatorExtensionProof.verify. cbn [AccumulatorExtensionProof.frozen_subtree_roots
    AccumulatorExtensionProof.num_leaves AccumulatorExtensionProof.leaves]. split.
  - intros roots acc Hok. apply bind_Ok in Hok as (tree & Htree & Hok).
    apply bind_Ok in Hok as ([] & Hroot & Hok). apply ensure_Ok, bool_decide_eq_true_1 in Hroot.
    destruct (InMemoryAccumulator.new_inj _ _ _ _ _ Hn Htree Hf Hroot) as [->|]; [left|by right].
    rewrite Hf in Htree. injection Htree as <-. rewrite Happ in Hok. by injection Hok as <-.
  - rewrite Hf. mstep. cbn [InMemoryAccumulator.root_hash]. rewrite bool_decide_eq_true_2 by done.
    cbn [ensure]. mstep. by rewrite Happ.
Qed.

Lemma extension_proof_correct_witness :
  is_ok (AccumulatorExtensionProof.verify
    (AccumulatorExtensionProof.new (frozen_roots [Leaf 0; Leaf 1; Leaf 2]) 3 [Leaf 3])
    (merkle_root [Leaf 0; Leaf 1; Leaf 2])) = true.
Proof. by apply (extension_proof_correct [Leaf 0; Leaf 1; Leaf 2] [Leaf 3]). Defined.

(** A chunk of transaction infos that [verify_extends_ledger] accepts, and that
    is not entirely in the past, agrees with the ledger on the overlap, or there
    is a collision: there is no fork. *)
Theorem extends_ledger_no_fork `{CryptoTypes} `{!MerkleHasher HashValue} {TransactionInfo : Type}
    `{!TransactionInfoHasher TransactionInfo HashValue}
    (self : TransactionInfoListWithProof.t) (ledger : list HashValue) (first k : Z) :
  num ledger < 2 ^ 63 -> 0 <= first ->
  num ledger - first <= Z.of_nat (length (TransactionInfoListWithProof.transaction_infos self)) ->
  TransactionInfoListWithProof.verify_extends_ledger self (num ledger) (merkle_root ledger) (Some first)
    = Ok k ->
  k = num ledger - first /\
  (hash_transaction_info <$> take (Z.to_nat k) (TransactionInfoListWithProof.transaction_infos self) =
     drop (Z.to_nat first) ledger \/ collision (HashValue:=HashValue)).
Proof.
  intros Hlt Hf Hlen Hok. unfold TransactionInfoListWithProof.verify_extends_ledger in Hok.
  apply bind_Ok in Hok as ([] & Hle & Hok). apply ensure_Ok in Hle. zbool.
  rewrite u64_sub_Ok in Hok by lia. cbn [mbind outcome_bind] in Hok.
  rewrite (proj2 (Z.ltb_ge _ _)) in Hok by lia.
  apply bind_Ok in Hok as (acc & Hacc & Hok). apply bind_Ok in Hok as (acc' & Happ & Hok).
  apply bind_Ok in Hok as ([] & Hroot & Hok). apply ensure_Ok, bool_decide_eq_true_1 in Hroot.
  injection Hok as <-. split; [done|].
  set (overlap := hash_transaction_info <$> _) in Happ |- *.
  assert (num overlap = num ledger - first) as Hov.
  { unfold num at 1, overlap. rewrite length_fmap, length_take. unfold num in *. lia. }
  destruct (InMemoryAccumulator.append_extracts acc acc' ledger overlap _ _ Hacc Hf Happ) as [[_ E]|];
    [lia|lia|done|by left|by right].
Qed.

#[local] Instance leaf_hasher : TransactionInfoHasher Z (@HashValue free_crypto) := Leaf.

Lemma extends_ledger_no_fork_witness :
  Leaf <$> take 2 [1; 2; 5] = drop 1 [Leaf 0; Leaf 1; Leaf 2] \/ collision (HashValue:=digest).
Proof.
  apply (extends_ledger_no_fork
    (@TransactionInfoListWithProof.new free_crypto Z (AccumulatorRangeProof.new [Leaf 0] [Leaf 9]) [1; 2; 5])
    [Leaf 0; Leaf 1; Leaf 2] 1 2); by vm_compute.
Defined.
