(* ===== verification/MerkleAccumulator.v ===== *)
(** * The Merkle accumulator over storage

    Model of [storage/accumulator/src/lib.rs]: the algorithms that append leaves
    to an accumulator whose frozen nodes are kept in storage and that make
    inclusion, consistency and range proofs from them.  The storage is a
    parameter, the trait [HashReader]; [serves] is its contract.  The theorems
    show that appending computes the root and exactly the nodes to be frozen, in
    post-order, so that storing them keeps the contract, and that the proofs are
    those the verifier accepts. *)

From S2P Require Import Prelude Position Merkle InMemoryAccumulator ValidatorVerifier LedgerInfo AccumulatorProofs.

(** The trait [HashReader]. *)
Class HashReader (HashValue : Type) := read : Z -> result HashValue.

Module MerkleAccumulator.
Section definitions.
Context {HashValue : Type} `{!MerkleHasher HashValue} (reader : HashReader HashValue).

Definition max_to_freeze (num_new_leaves root_level : Z) : result Z :=
  assert (root_level <=? MAX_ACCUMULATOR_PROOF_DEPTH);;
  assert (num_new_leaves <? u64_max / 2);;
  assert (num_new_leaves * 2 <=? u64_max - root_level);;
  Ok (num_new_leaves * 2 + root_level).

(** [left_siblings.pop()], checked against the sibling's position; when there is
    none, the sibling is read from storage.  Returns the hash of the parent. *)
Definition combine_left (sibling : Z) (hash : HashValue) (left_siblings : list (Z * HashValue)) :
    result (HashValue * list (Z * HashValue)) :=
  match vec_pop left_siblings with
  | Some ((x, left_hash), left_siblings) =>
      assert (x =? sibling);; Ok (hash_internal left_hash hash, left_siblings)
  | None => left_hash ← read sibling; Ok (hash_internal left_hash hash, left_siblings)
  end.

(** The loop [while pos.is_right_child()]. *)
Fixpoint freeze_loop (fuel : nat) (pos : Z) (hash : HashValue)
    (left_siblings to_freeze : list (Z * HashValue)) :
    result (Z * HashValue * list (Z * HashValue) * list (Z * HashValue)) :=
  match fuel with
  | O => Panic
  | S fuel =>
      is_right ← Position.is_right_child pos;
      if is_right : bool then
        sibling ← Position.sibling pos;
        '(hash, left_siblings) ← combine_left sibling hash left_siblings;
        pos ← Position.parent pos;
        freeze_loop fuel pos hash left_siblings (vec_push to_freeze (pos, hash))
      else Ok (pos, hash, left_siblings, to_freeze)
  end.

(** The loop over the new leaves; [index] is [num_leaves + leaf_offset]. *)
Fixpoint leaves_loop (index : Z) (new_leaves : list HashValue)
    (left_siblings to_freeze : list (Z * HashValue)) :
    result (list (Z * HashValue) * list (Z * HashValue)) :=
  match new_leaves with
  | [] => Ok (left_siblings, to_freeze)
  | leaf :: new_leaves =>
      leaf_pos ← Position.from_leaf_index index;
      '(pos, hash, left_siblings, to_freeze) ←
        freeze_loop 65 leaf_pos leaf left_siblings (vec_push to_freeze (leaf_pos, leaf));
      next ← u64_add index 1;
      leaves_loop next new_leaves (vec_push left_siblings (pos, hash)) to_freeze
  end.

(** The loop [for _ in pos.level()..root_level], run [n] times. *)
Fixpoint root_loop (n : nat) (pos : Z) (hash : HashValue) (left_siblings : list (Z * HashValue)) :
    result (HashValue * list (Z * HashValue)) :=
  match n with
  | O => Ok (hash, left_siblings)
  | S n =>
      is_left ← Position.is_left_child pos;
      '(hash, left_siblings) ←
        (if is_left : bool then Ok (hash_internal hash ACCUMULATOR_PLACEHOLDER_HASH, left_siblings)
         else sibling ← Position.sibling pos; combine_left sibling hash left_siblings);
      pos ← Position.parent pos;
      root_loop n pos hash left_siblings
  end.

Definition rightmost_leaf_index (num_leaves : Z) : result Z := u64_sub num_leaves 1.

(** The recursion goes one level down at a time. *)
Fixpoint get_hash (fuel : nat) (num_leaves position : Z) : result HashValue :=
  match fuel with
  | O => Panic
  | S fuel =>
      idx ← rightmost_leaf_index num_leaves;
      placeholder ← Position.is_placeholder position idx;
      if placeholder : bool then Ok ACCUMULATOR_PLACEHOLDER_HASH
      else
        freezable ← Position.is_freezable position idx;
        if freezable : bool then read position
        else
          left_pos ← Position.left_child position;
          left_hash ← get_hash fuel num_leaves left_pos;
          right_pos ← Position.right_child position;
          right_hash ← get_hash fuel num_leaves right_pos;
          Ok (hash_internal left_hash right_hash)
  end.

Definition get_hashes (num_leaves : Z) (positions : list Z) : result (list HashValue) :=
  collect (get_hash 65 num_leaves) positions.

Definition get_root_hash (num_leaves : Z) : result HashValue :=
  root ← Position.root_from_leaf_count num_leaves; get_hash 65 num_leaves root.

Definition append (num_leaves : Z) (new_leaves : list HashValue) :
    result (HashValue * list (Z * HashValue)) :=
  match new_leaves with
  | [] =>
      if num_leaves =? 0 then Ok (ACCUMULATOR_PLACEHOLDER_HASH, [])
      else root_hash ← get_root_hash num_leaves; Ok (root_hash, [])
  | _ =>
      let num_new_leaves := Z.of_nat (length new_leaves) in
      last_new_leaf_count ← u64_add num_leaves num_new_leaves;
      root_level ← Position.root_level_from_leaf_count last_new_leaf_count;
      max_to_freeze num_new_leaves root_level;;
      '(left_siblings, to_freeze) ← leaves_loop num_leaves new_leaves [] [];
      '((pos, hash), left_siblings) ← expect (vec_pop left_siblings);
      '(hash, left_siblings) ←
        root_loop (Z.to_nat (root_level - Position.level pos)) pos hash left_siblings;
      assert (match left_siblings with [] => true | _ => false end);;
      Ok (hash, to_freeze)
  end.

(** [.filter(|p| filter( *p))] with a predicate that may panic. *)
Fixpoint filter_positions (keep : Z -> result bool) (positions : list Z) : result (list Z) :=
  match positions with
  | [] => Ok []
  | p :: positions =>
      b ← keep p;
      rest ← filter_positions keep positions;
      Ok (if b : bool then p :: rest else rest)
  end.

Definition get_sibling_positions (num_leaves leaf_index : Z) (keep : Z -> result bool) :
    result (list Z) :=
  root_pos ← Position.root_from_leaf_count num_leaves;
  leaf_pos ← Position.from_leaf_index leaf_index;
  positions ← Position.iter_ancestor_sibling_take (Z.to_nat (Position.level root_pos)) leaf_pos;
  filter_positions keep positions.

Definition get_siblings (num_leaves leaf_index : Z) (keep : Z -> result bool) :
    result (list HashValue) :=
  positions ← get_sibling_positions num_leaves leaf_index keep;
  get_hashes num_leaves positions.

Definition get_proof (num_leaves leaf_index : Z) : result (AccumulatorProof.t HashValue) :=
  ensure (leaf_index <? num_leaves) "invalid leaf_index";;
  siblings ← get_siblings num_leaves leaf_index (fun _ => Ok true);
  Ok (AccumulatorProof.new siblings).

Definition get_consistency_proof (num_leaves sub_acc_leaves : Z) :
    result (AccumulatorConsistencyProof.t HashValue) :=
  ensure (sub_acc_leaves <=? num_leaves)
    "Can't get accumulator consistency proof for a version newer than the local version.";;
  it ← FrozenSubtreeSiblingIterator.new sub_acc_leaves num_leaves;
  positions ← FrozenSubtreeSiblingIterator.collect_items 128 it;
  positions ← expect positions;
  subtrees ← collect read positions;
  Ok (AccumulatorConsistencyProof.new subtrees).

Definition get_range_proof_positions (full_acc_leaves : Z) (first_leaf_index : option Z)
    (num_leaves : Z) : result (list Z * list Z) :=
  match first_leaf_index with
  | None =>
      ensure (num_leaves =? 0) "num_leaves is not zero while first_leaf_index is None.";;
      Ok ([], [])
  | Some first_leaf_index =>
      ensure (0 <? num_leaves) "num_leaves is zero while first_leaf_index is not None.";;
      n ← u64_sub num_leaves 1;
      last_leaf_index ← ok_or (u64_checked_add first_leaf_index n) "Requesting too many leaves.";
      ensure (last_leaf_index <? full_acc_leaves) "Invalid last_leaf_index";;
      left_siblings ← get_sibling_positions full_acc_leaves first_leaf_index Position.is_left_child;
      right_siblings ← get_sibling_positions full_acc_leaves last_leaf_index Position.is_right_child;
      Ok (left_siblings, right_siblings)
  end.

Definition get_range_proof (full_acc_leaves : Z) (first_leaf_index : option Z) (num_leaves : Z) :
    result (AccumulatorRangeProof.t HashValue) :=
  '(left_siblings, right_siblings) ←
    get_range_proof_positions full_acc_leaves first_leaf_index num_leaves;
  left_hashes ← get_hashes full_acc_leaves left_siblings;
  right_hashes ← get_hashes full_acc_leaves right_siblings;
  Ok (AccumulatorRangeProof.new left_hashes right_hashes).

Definition get_frozen_subtree_hashes (num_leaves : Z) : result (list HashValue) :=
  positions ← FrozenSubTreeIterator.collect_items 65 (FrozenSubTreeIterator.new num_leaves);
  positions ← expect positions;
  collect read positions.
End definitions.

(** ** What the storage promises *)
Section facts.
Context {HashValue : Type} `{!MerkleHasher HashValue}.
Implicit Types (ls new : list HashValue) (reader : HashReader HashValue).

(** Every frozen node of the tree over [ls] can be read. *)
Definition serves reader ls : Prop :=
  forall l p, pos_ok l p -> (p + 1) * 2 ^ l <= num ls -> read (node l p) = Ok (hash_at ls (l, p)).

(** ** Hashes of nodes *)
Lemma get_hash_spec reader ls (fuel : nat) l p : serves reader ls -> 0 < num ls < 2 ^ 63 - 1 ->
  pos_ok l p -> l < Z.of_nat fuel -> get_hash reader fuel (num ls) (node l p) = Ok (hash_at ls (l, p)).
Proof.
  intros Hserves Hn. revert l p. induction fuel as [|fuel IH]; intros l p Hok Hf.
  { destruct Hok. lia. }
  cbn [get_hash]. unfold rightmost_leaf_index. rewrite u64_sub_Ok by lia. mstep.
  rewrite is_placeholder_node by (done || lia). mstep. pose proof Hok as (Hl & Hp & _).
  destruct (Z.ltb_spec (num ls - 1) (p * 2 ^ l)).
  { rewrite hash_at_placeholder by lia. done. }
  rewrite is_freezable_node by (done || lia). mstep.
  destruct (Z.leb_spec ((p + 1) * 2 ^ l) (num ls - 1 + 1)).
  { rewrite Hserves by (done || lia). done. }
  destruct (Z.eq_dec l 0) as [->|]; [rewrite Z.pow_0_r in *; lia|].
  pose proof (pos_ok_children l p ltac:(lia) Hok) as [Hc1 Hc2].
  assert (2 ^ l = 2 * 2 ^ (l - 1)) as El by (rewrite <-pow2_succ by lia; f_equal; lia).
  assert (pos_ok (l - 1) (2 * p + 1)) as Hc3.
  { apply pos_ok_intro; [lia| |].
    - destruct (node_bounds _ _ Hok) as (? & _ & ?). replace (63 - (l - 1)) with (63 - l + 1) by lia.
      rewrite pow2_succ by lia. lia.
    - destruct (Z.eq_dec l 1) as [->|]; [right|left; lia]. change (2 ^ 1) with 2 in *. lia. }
  rewrite left_child_node, right_child_node by (done || lia). mstep.
  rewrite (IH (l - 1) (2 * p)) by (done || lia). mstep. rewrite (IH (l - 1) (2 * p + 1)) by (done || lia). mstep.
  replace l with (l - 1 + 1) at 3 by lia. rewrite hash_at_succ; [done|lia|].
  replace (l - 1 + 1) with l by lia. lia.
Qed.

Lemma get_hashes_spec reader ls cs : serves reader ls -> 0 < num ls < 2 ^ 63 - 1 ->
  Forall (fun c => pos_ok c.1 c.2) cs ->
  get_hashes reader (num ls) ((fun c => node c.1 c.2) <$> cs) = Ok (hash_at ls <$> cs).
Proof.
  intros Hs Hn. unfold get_hashes. induction 1 as [|[l p] cs Hc _ IH]; [done|].
  rewrite !fmap_cons. cbn [collect fst snd] in *. destruct (node_bounds _ _ Hc) as (? & _ & _).
  rewrite get_hash_spec by (done || lia). mstep. by rewrite IH.
Qed.

Lemma get_root_hash_spec reader ls : serves reader ls -> 0 < num ls < 2 ^ 63 - 1 ->
  get_root_hash reader (num ls) = Ok (merkle_root ls).
Proof.
  intros Hs Hn. unfold get_root_hash. rewrite root_from_leaf_count_node by lia. mstep.
  assert (pos_ok (Z.log2_up (num ls)) 0) as Hok.
  { destruct (log2_up_bounds (num ls) 63); [lia|lia|]. apply pos_ok_intro; [done| |].
    - split; [lia|]. apply Z.pow_pos_nonneg; lia.
    - right. lia. }
  destruct (node_bounds _ _ Hok) as (? & _ & _).
  rewrite get_hash_spec by (done || lia). done.
Qed.

(** ** The stack of left siblings

    While leaves are appended, the full subtrees to the left of the current
    position are the set bits of its index; those that end after the first new
    leaf are on the stack, the others in storage. *)
Definition entry ls (c : Z * Z) : Z * HashValue := (node c.1 c.2, hash_at ls c).

Definition is_new (n0 : Z) (c : Z * Z) : bool := n0 <? (c.2 + 1) * 2 ^ c.1.

Definition pending ls (n0 : Z) (cs : list (Z * Z)) : list (Z * HashValue) :=
  reverse (entry ls <$> List.filter (is_new n0) cs).

Lemma pending_cons ls n0 c cs : is_new n0 c = true ->
  pending ls n0 (c :: cs) = vec_push (pending ls n0 cs) (entry ls c).
Proof.
  intros Hc. unfold pending. cbn [List.filter]. rewrite Hc, fmap_cons, reverse_cons. done.
Qed.

Lemma frozen_up_bounds (k : nat) l m c : 0 <= l -> 0 <= m -> c ∈ frozen_up k l m ->
  0 <= c.1 /\ 0 <= c.2 /\ (c.2 + 1) * 2 ^ c.1 <= m * 2 ^ l.
Proof.
  revert l m. induction k as [|k IH]; intros l m Hl Hm; cbn [frozen_up]; [by intros ?%elem_of_nil|].
  rewrite elem_of_app. pose proof (Z.mul_div_le m 2 ltac:(lia)). pose proof (pow2_pos l Hl).
  intros [Hc|Hc].
  - destruct (Z.odd m) eqn:E; [|by apply elem_of_nil in Hc]. apply list_elem_of_singleton in Hc as ->.
    cbn [fst snd]. split_and!; [done| |lia]. destruct m; [done|lia|lia].
  - apply IH in Hc as (? & ? & ?); [|lia|apply Z.div_pos; lia]. split_and!; [done..|].
    rewrite pow2_succ in * by done. nia.
Qed.

Lemma pending_old ls n0 cs : (forall c, c ∈ cs -> is_new n0 c = false) -> pending ls n0 cs = [].
Proof.
  intros Hcs. unfold pending. replace (List.filter (is_new n0) cs) with (@nil (Z * Z)); [done|].
  induction cs as [|c cs IH]; [done|]. cbn [List.filter]. rewrite Hcs by set_solver. apply IH. set_solver.
Qed.

(** Popping the stack, or reading the storage, gives the left sibling. *)
Lemma combine_left_spec reader ls new (k : nat) l q h :
  serves reader ls -> 0 <= q -> pos_ok l (2 * q) -> (2 * q + 1) * 2 ^ l <= num (ls ++ new) ->
  combine_left reader (node l (2 * q)) h
    (pending (ls ++ new) (num ls) (frozen_up (S k) l (2 * q + 1))) =
  Ok (hash_internal (hash_at (ls ++ new) (l, 2 * q)) h,
      pending (ls ++ new) (num ls) (frozen_up k (l + 1) q)).
Proof.
  intros Hs Hq Hok Hend. pose proof Hok as (Hl & _ & _). rewrite frozen_up_odd. unfold combine_left.
  destruct (is_new (num ls) (l, 2 * q)) eqn:Enew.
  - rewrite pending_cons by done. unfold vec_push. rewrite vec_pop_snoc. unfold entry. cbn [fst snd].
    by rewrite Z.eqb_refl.
  - assert (forall c, c ∈ frozen_up k (l + 1) q -> is_new (num ls) c = false) as Hold.
    { intros c Hc. apply frozen_up_bounds in Hc as (? & ? & ?); [|lia..]. unfold is_new in *.
      cbn [fst snd] in *. zbool. apply Z.ltb_ge. rewrite pow2_succ in * by done.
      pose proof (pow2_pos l Hl). lia. }
    rewrite (pending_old _ _ (frozen_up k (l + 1) q)) by done. rewrite pending_old.
    + cbn. unfold is_new in Enew. cbn [fst snd] in Enew. zbool. rewrite Hs by done. mstep.
      do 3 f_equal. symmetry. apply subtree_app; cbn [fst snd]; rewrite ?Z2Nat.id; lia.
    + intros c [->|Hc]%elem_of_cons; [done|by apply Hold].
Qed.

(** ** Freezing the parents of a new leaf *)
Fixpoint carry_coords (k : nat) l p : list (Z * Z) :=
  match k with
  | O => []
  | S k => if Z.odd p then (l + 1, p / 2) :: carry_coords k (l + 1) (p / 2) else []
  end.

Lemma freeze_loop_spec reader ls new (k fuel : nat) l p tf :
  serves reader ls -> (k < fuel)%nat -> 0 <= l -> 0 <= p -> l + Z.of_nat k <= 63 -> p + 1 < 2 ^ Z.of_nat k ->
  (p + 1) * 2 ^ l <= num (ls ++ new) < 2 ^ 63 -> num ls < (p + 1) * 2 ^ l ->
  exists pos h left_siblings,
    freeze_loop reader fuel (node l p) (hash_at (ls ++ new) (l, p))
      (pending (ls ++ new) (num ls) (frozen_up k l p)) tf =
    Ok (pos, h, left_siblings, tf ++ (entry (ls ++ new) <$> carry_coords k l p)) /\
    vec_push left_siblings (pos, h) = pending (ls ++ new) (num ls) (frozen_up k l (p + 1)).
Proof.
  intros Hs. revert fuel l p tf. induction k as [|k IH]; intros fuel l p tf Hf Hl Hp Hlk Hk Hend Hnew.
  { cbn in Hk. lia. }
  destruct fuel as [|fuel]; [lia|]. cbn [freeze_loop carry_coords].
  replace (Z.of_nat (S k)) with (Z.of_nat k + 1) in * by lia. rewrite pow2_succ in Hk by lia.
  pose proof (pow2_pos l Hl) as Hpow.
  assert (pos_ok l p) as Hok.
  { apply pos_ok_intro; [done| |right; nia].
    assert (2 ^ 63 = 2 ^ (63 - l) * 2 ^ l) as E63 by (rewrite <-Z.pow_add_r by lia; f_equal; lia).
    split; [done|]. apply (Zmult_lt_reg_r _ _ (2 ^ l)); [done|]. lia. }
  rewrite is_right_child_node by done. mstep. destruct (Z.odd p) eqn:Ep.
  - apply Z.odd_spec in Ep as [q ->]. rewrite sibling_node, parent_node by (done || lia).
    replace (Z.even (2 * q + 1)) with false by (by rewrite Z.even_add, Z.even_mul). mstep.
    rewrite Z.add_simpl_r. rewrite combine_left_spec; [|done|lia| |nia].
    2: { apply pos_ok_intro; [done| |right; nia]. destruct (node_bounds _ _ Hok) as (_ & _ & ?). lia. }
    mstep. rewrite (div2_odd _ q) by done.
    rewrite <-hash_at_succ by (done || (rewrite pow2_succ by done; nia)).
    destruct (IH fuel (l + 1) q (vec_push tf (node (l + 1) q, hash_at (ls ++ new) (l + 1, q))))
      as (pos & h & sib & E & Epush); try lia; [rewrite pow2_succ by done; nia..|].
    exists pos, h, sib. rewrite E. split; [|by replace (2 * q + 1 + 1) with (2 * (q + 1)) by lia;
      rewrite frozen_up_even].
    do 2 f_equal. unfold vec_push. rewrite <-app_assoc, fmap_cons. done.
  - exists (node l p), (hash_at (ls ++ new) (l, p)). eexists. split; [by rewrite app_nil_r|].
    rewrite <-Z.negb_even in Ep. apply negb_false_iff, Z.even_spec in Ep as [q ->].
    rewrite frozen_up_odd, frozen_up_even, pending_cons; [done|]. unfold is_new. cbn [fst snd]. by apply Z.ltb_lt.
Qed.

(** The nodes that the leaf [i] completes, itself included. *)
Definition leaf_coords (i : Z) : list (Z * Z) := (0, i) :: carry_coords 63 0 i.

Lemma leaves_loop_spec reader ls new (i : Z) rest tf : serves reader ls -> num ls <= i ->
  i + num rest = num (ls ++ new) -> num (ls ++ new) < 2 ^ 63 ->
  (forall j, rest !! j = (ls ++ new) !! (Z.to_nat i + j)%nat) ->
  leaves_loop reader i rest (pending (ls ++ new) (num ls) (frozen_up 63 0 i)) tf =
  Ok (pending (ls ++ new) (num ls) (frozen_up 63 0 (num (ls ++ new))),
      tf ++ (entry (ls ++ new) <$> mjoin (leaf_coords <$> seqZ i (num rest)))).
Proof.
  intros Hs. revert i tf. induction rest as [|x rest IH]; intros i tf Hi Hn Hlt Hrest.
  { change (num []) with 0 in *. rewrite Z.add_0_r in Hn. subst i.
    rewrite seqZ_nil by lia. rewrite fmap_nil. cbn [mjoin list_join leaves_loop].
    rewrite fmap_nil, app_nil_r. reflexivity. }
  assert (0 <= num ls) by (unfold num; lia).
  assert (num (x :: rest) = num rest + 1) as En by (unfold num; cbn [length]; lia).
  rewrite En in *. assert (0 <= num rest) by (unfold num; lia).
  cbn [leaves_loop]. rewrite from_leaf_index_node by lia. mstep.
  assert (x = hash_at (ls ++ new) (0, i)) as Hx.
  { unfold hash_at. cbn [fst snd]. rewrite Z2Nat.inj_0, subtree_leaf by lia. symmetry.
    apply nth_lookup_Some. rewrite <-(Nat.add_0_r (Z.to_nat i)), <-Hrest. done. }
  destruct (freeze_loop_spec reader ls new 63 65 0 i (vec_push tf (node 0 i, x))) as (pos & h & sib & E & Epush);
    try (done || lia).
  rewrite <-Hx in E. rewrite E. mstep. rewrite u64_add_Ok by lia. mstep. rewrite Epush.
  rewrite IH; [|lia|lia|done|].
  - do 2 f_equal. rewrite (seqZ_cons i) by lia. rewrite fmap_cons. cbn [mjoin list_join].
    unfold leaf_coords at 2. rewrite fmap_app, fmap_cons. unfold vec_push.
    assert (entry (ls ++ new) (0, i) = (node 0 i, x)) as -> by (rewrite Hx; done).
    rewrite <-!app_assoc. cbn [app]. by replace (Z.pred (num rest + 1)) with (num rest) by lia.
  - intros j. specialize (Hrest (S j)).
    change ((x :: rest) !! S j) with (rest !! j) in Hrest. rewrite Hrest. f_equal. lia.
Qed.

(** ** The root *)
Lemma root_loop_spec reader ls new (n k : nat) l p : serves reader ls -> (n <= k)%nat ->
  0 <= l -> 0 <= p -> l + Z.of_nat n <= 63 -> num (ls ++ new) < 2 ^ 63 - 1 ->
  p * 2 ^ l < num (ls ++ new) <= (p + 1) * 2 ^ l ->
  root_loop reader n (node l p) (hash_at (ls ++ new) (l, p))
    (pending (ls ++ new) (num ls) (frozen_up k l p)) =
  Ok (hash_at (ls ++ new) (l + Z.of_nat n, p / 2 ^ Z.of_nat n),
      pending (ls ++ new) (num ls) (frozen_up (k - n) (l + Z.of_nat n) (p / 2 ^ Z.of_nat n))).
Proof.
  intros Hs. revert k l p. induction n as [|n IH]; intros k l p Hk Hl Hp Hln Hlt Hn.
  { change (2 ^ Z.of_nat 0) with 1. by rewrite Z.add_0_r, Z.div_1_r, Nat.sub_0_r. }
  destruct k as [|k]; [lia|]. cbn [root_loop Nat.sub]. pose proof (pow2_pos l Hl).
  assert (pos_ok l p) as Hok.
  { apply pos_ok_intro; [done| |right; nia].
    assert (2 ^ 63 = 2 ^ (63 - l) * 2 ^ l) as E63 by (rewrite <-Z.pow_add_r by lia; f_equal; lia).
    split; [done|]. apply (Zmult_lt_reg_r _ _ (2 ^ l)); [done|]. lia. }
  rewrite is_left_child_node, parent_node by (done || lia). mstep.
  assert (p / 2 * 2 ^ (l + 1) < num (ls ++ new) <= (p / 2 + 1) * 2 ^ (l + 1)) as Hn'.
  { rewrite pow2_succ by done. pose proof (Z.mul_div_le p 2 ltac:(lia)).
    pose proof (Z.mul_succ_div_gt p 2 ltac:(lia)). nia. }
  specialize (IH k (l + 1) (p / 2) ltac:(lia) ltac:(lia) ltac:(apply Z.div_pos; lia) ltac:(lia) Hlt Hn').
  replace (l + Z.of_nat (S n)) with (l + 1 + Z.of_nat n) by lia.
  replace (Z.of_nat (S n)) with (1 + Z.of_nat n) by lia.
  rewrite Z.pow_add_r, Z.pow_1_r, <-Z.div_div by (try apply pow2_pos; lia). rewrite <-IH.
  destruct (Z.even p) eqn:Ep.
  - apply Z.even_spec in Ep as [q ->]. mstep. rewrite (div2_even _ q), frozen_up_even by done.
    rewrite <-(hash_at_placeholder (ls ++ new) l (2 * q + 1)) by lia. rewrite <-hash_at_succ; [done|done|].
    rewrite (div2_even _ q) in Hn' by done. lia.
  - rewrite <-Z.negb_odd in Ep. apply negb_false_iff, Z.odd_spec in Ep as [q ->].
    rewrite sibling_node by (done || lia).
    replace (Z.even (2 * q + 1)) with false by (by rewrite Z.even_add, Z.even_mul). mstep.
    rewrite Z.add_simpl_r, (div2_odd _ q) in * by done. rewrite combine_left_spec; [|done|lia| |lia].
    2: { apply pos_ok_intro; [done| |right; nia]. destruct (node_bounds _ _ Hok) as (_ & _ & ?). lia. }
    mstep. rewrite <-hash_at_succ by (done || lia). done.
Qed.

Lemma append_spec reader ls new : serves reader ls -> num (ls ++ new) < 2 ^ 63 - 64 -> new <> [] ->
  append reader (num ls) new =
  Ok (merkle_root (ls ++ new),
      entry (ls ++ new) <$> mjoin (leaf_coords <$> seqZ (num ls) (num new))).
Proof.
  intros Hs Hlt Hne. unfold append. destruct new as [|x new]; [done|]. set (new' := x :: new) in *.
  assert (num (ls ++ new') = num ls + num new') as En by (unfold num; rewrite length_app; lia).
  assert (0 < num new') by (unfold num, new'; cbn [length]; lia). assert (0 <= num ls) by (unfold num; lia).
  fold (num new'). rewrite u64_add_Ok by lia. mstep. rewrite root_level_from_leaf_count_eq by lia. mstep.
  rewrite <-En. set (L := Z.log2_up (num (ls ++ new'))).
  destruct (log2_up_bounds (num (ls ++ new')) 63) as [HL1 HL2]; [lia|lia|]. fold L in HL1, HL2.
  unfold max_to_freeze. change (u64_max / 2) with (2 ^ 63 - 1). unfold MAX_ACCUMULATOR_PROOF_DEPTH, u64_max.
  rewrite !assert_true by (apply Z.leb_le || apply Z.ltb_lt; lia). mstep.
  assert (pending (ls ++ new') (num ls) (frozen_up 63 0 (num ls)) = []) as Hpend.
  { apply pending_old. intros c Hc. apply frozen_up_bounds in Hc as (? & ? & ?); [|lia..].
    unfold is_new. apply Z.ltb_ge. rewrite Z.pow_0_r in *. lia. }
  rewrite <-Hpend at 1. rewrite leaves_loop_spec; [|done|lia|lia|lia|].
  2: { intros j. unfold num. rewrite Nat2Z.id, lookup_app_r by lia. f_equal. lia. }
  mstep. set (n := num (ls ++ new')) in *.
  destruct (odd_decomposition n) as (T & q & HT & Hq & E); [lia|].
  assert (T < 63) as HT63.
  { apply (Z.pow_lt_mono_r_iff 2); [lia|lia|]. pose proof (pow2_pos T HT). nia. }
  set (T' := Z.to_nat T). assert (T = Z.of_nat T') as ET by lia.
  assert (frozen_up 63 0 n = (T, 2 * q) :: frozen_up (62 - T') (T + 1) q) as Hup.
  { replace 63%nat with (T' + S (62 - T'))%nat by lia. rewrite E, ET, frozen_up_shift, frozen_up_odd by lia.
    by rewrite Z.add_0_l. }
  rewrite Hup, pending_cons; unfold vec_push.
  2: { unfold is_new. cbn [fst snd]. apply Z.ltb_lt. lia. }
  rewrite vec_pop_snoc. cbn [expect]. mstep. unfold entry at 1. cbn [fst snd].
  pose proof (pow2_pos T HT).
  rewrite level_node.
  2: { apply pos_ok_intro; [done| |right; nia]. split; [lia|].
       assert (2 ^ 63 = 2 ^ (63 - T) * 2 ^ T) as E63 by (rewrite <-Z.pow_add_r by lia; f_equal; lia).
       apply (Zmult_lt_reg_r _ _ (2 ^ T)); [done|]. lia. }
  assert (n <= 2 ^ L) as HnL by (apply le_pow2_log2_up; lia).
  assert (T <= L) as HTL.
  { apply (Z.pow_le_mono_r_iff 2); [lia|lia|]. nia. }
  replace (frozen_up (62 - T') (T + 1) q) with (frozen_up (63 - T') T (2 * q)).
  2: { replace (63 - T')%nat with (S (62 - T')) by lia. by rewrite frozen_up_even. }
  rewrite root_loop_spec; [|done|lia|lia|lia|lia|lia|fold n; lia]. mstep.
  assert (2 * q / 2 ^ Z.of_nat (Z.to_nat (L - T)) = 0) as Hz.
  { apply Z.div_small. rewrite Z2Nat.id by lia. split; [lia|].
    assert (2 ^ L = 2 ^ (L - T) * 2 ^ T) as EL by (rewrite <-Z.pow_add_r by lia; f_equal; lia).
    apply (Zmult_lt_reg_r _ _ (2 ^ T)); [done|]. lia. }
  rewrite Hz. rewrite Z2Nat.id by lia. replace (T + (L - T)) with L by lia.
  rewrite pending_old.
  - mstep. by do 2 f_equal.
  - intros c Hc. apply frozen_up_bounds in Hc as (? & ? & ?); [|lia..]. unfold is_new. apply Z.ltb_ge. lia.
Qed.

(** ** The nodes that are frozen by the new leaves *)
Lemma elem_of_carry (k : nat) l p l' p' : 0 <= p -> p + 1 < 2 ^ Z.of_nat k ->
  (l', p') ∈ carry_coords k l p <-> l < l' /\ (p' + 1) * 2 ^ (l' - l) = p + 1.
Proof.
  revert l p. induction k as [|k IH]; intros l p Hp Hk; [cbn in Hk; lia|].
  replace (Z.of_nat (S k)) with (Z.of_nat k + 1) in Hk by lia. rewrite pow2_succ in Hk by lia.
  cbn [carry_coords]. destruct (Z.odd p) eqn:Ep.
  - apply Z.odd_spec in Ep as [q ->]. rewrite (div2_odd _ q), elem_of_cons, IH by lia. split.
    + intros [[= -> ->]|[Hl E]]; [split; [lia|]; replace (l + 1 - l) with 1 by lia; lia|].
      split; [lia|]. replace (l' - l) with (l' - (l + 1) + 1) by lia. rewrite pow2_succ by lia. lia.
    + intros [Hl E]. replace (l' - l) with (l' - (l + 1) + 1) in E by lia. rewrite pow2_succ in E by lia.
      destruct (Z.eq_dec l' (l + 1)) as [->|]; [left|right; lia].
      rewrite Z.sub_diag, Z.pow_0_r in E. f_equal. lia.
  - rewrite <-Z.negb_even in Ep. apply negb_false_iff, Z.even_spec in Ep as [q ->].
    split; [by intros ?%elem_of_nil|]. intros [Hl E].
    replace (l' - l) with (l' - l - 1 + 1) in E by lia. rewrite pow2_succ in E by lia. lia.
Qed.

Lemma elem_of_leaf_coords i l p : 0 <= i < 2 ^ 63 - 1 ->
  (l, p) ∈ leaf_coords i <-> 0 <= l /\ (p + 1) * 2 ^ l = i + 1.
Proof.
  intros Hi. unfold leaf_coords. rewrite elem_of_cons, elem_of_carry by lia. rewrite Z.sub_0_r. split.
  - intros [[= -> ->]|[? ?]]; [split; [done|rewrite Z.pow_0_r; lia]|split; [lia|done]].
  - intros [Hl E]. destruct (Z.eq_dec l 0) as [->|]; [left|right; split; [lia|done]].
    rewrite Z.pow_0_r in E. f_equal. lia.
Qed.

Lemma elem_of_new_coords n k l p : 0 <= n -> n + k < 2 ^ 63 ->
  (l, p) ∈ mjoin (leaf_coords <$> seqZ n k) <-> 0 <= l /\ n < (p + 1) * 2 ^ l <= n + k.
Proof.
  intros Hn Hk. rewrite list_elem_of_join. setoid_rewrite list_elem_of_fmap. split.
  - intros (cs & Hc & i & -> & Hi). apply elem_of_seqZ in Hi. apply elem_of_leaf_coords in Hc; lia.
  - intros [Hl Hb]. exists (leaf_coords ((p + 1) * 2 ^ l - 1)). split; [apply elem_of_leaf_coords; lia|].
    exists ((p + 1) * 2 ^ l - 1). split; [done|]. apply elem_of_seqZ. lia.
Qed.

(** *** in post-order, without a gap *)
Lemma postorder_carry (k : nat) l p : 0 <= l -> 0 <= p -> p + 1 < 2 ^ Z.of_nat k ->
  uncurry postorder <$> carry_coords k l p =
    seqZ (postorder l p + 1) (Z.of_nat (length (carry_coords k l p))) /\
  count_ones (p + 1) = count_ones p + 1 - Z.of_nat (length (carry_coords k l p)).
Proof.
  revert l p. induction k as [|k IH]; intros l p Hl Hp Hk; [cbn in Hk; lia|].
  replace (Z.of_nat (S k)) with (Z.of_nat k + 1) in Hk by lia. rewrite pow2_succ in Hk by lia.
  cbn [carry_coords]. destruct (Z.odd p) eqn:Ep.
  - apply Z.odd_spec in Ep as [q ->]. rewrite (div2_odd _ q) by done.
    destruct (IH (l + 1) q) as [E1 E2]; [lia..|]. rewrite fmap_cons, E1. cbn [length uncurry].
    assert (postorder (l + 1) q = postorder l (2 * q + 1) + 1) as Epost.
    { unfold postorder. rewrite count_ones_double_succ, !pow2_succ by lia. lia. }
    split.
    + rewrite (seqZ_cons (postorder l (2 * q + 1) + 1)) by lia. rewrite Epost. f_equal. f_equal; lia.
    + replace (2 * q + 1 + 1) with (2 * (q + 1)) by lia.
      rewrite count_ones_double, count_ones_double_succ by lia. lia.
  - rewrite <-Z.negb_even in Ep. apply negb_false_iff, Z.even_spec in Ep as [q ->].
    cbn [length fmap list_fmap]. rewrite seqZ_nil by lia. split; [done|].
    rewrite count_ones_double, count_ones_double_succ by lia. lia.
Qed.

Lemma postorder_leaf_coords i : 0 <= i < 2 ^ 63 - 1 ->
  uncurry postorder <$> leaf_coords i =
    seqZ (postorder 0 i) (postorder 0 (i + 1) - postorder 0 i).
Proof.
  intros Hi. unfold leaf_coords. rewrite fmap_cons. cbn [uncurry].
  destruct (postorder_carry 63 0 i) as [-> E2]; [lia..|].
  set (n := Z.of_nat (length (carry_coords 63 0 i))) in *.
  assert (0 <= n) by (unfold n; lia).
  assert (postorder 0 (i + 1) - postorder 0 i = n + 1) as -> by (unfold postorder; lia).
  rewrite (seqZ_cons _ (n + 1)) by lia. f_equal. f_equal; lia.
Qed.

Lemma postorder_mono i : 0 <= i < 2 ^ 63 - 1 -> postorder 0 i < postorder 0 (i + 1).
Proof.
  intros Hi. destruct (postorder_carry 63 0 i) as [_ E2]; [lia..|]. unfold postorder. lia.
Qed.

Lemma postorder_new_coords n (k : nat) : 0 <= n -> n + Z.of_nat k < 2 ^ 63 ->
  postorder 0 n <= postorder 0 (n + Z.of_nat k) /\
  uncurry postorder <$> mjoin (leaf_coords <$> seqZ n (Z.of_nat k)) =
    seqZ (postorder 0 n) (postorder 0 (n + Z.of_nat k) - postorder 0 n).
Proof.
  revert n. induction k as [|k IH]; intros n Hn Hk.
  { rewrite Z.add_0_r, Z.sub_diag, !seqZ_nil by lia. split; [lia|done]. }
  rewrite seqZ_cons by lia. replace (Z.pred (Z.of_nat (S k))) with (Z.of_nat k) by lia.
  rewrite fmap_cons.
  change (mjoin (leaf_coords n :: ?rest)) with (leaf_coords n ++ mjoin rest).
  rewrite fmap_app, postorder_leaf_coords by lia.
  destruct (IH (n + 1)) as [Hle E]; [lia..|]. rewrite <-Z.add_1_r, E.
  replace (n + 1 + Z.of_nat k) with (n + Z.of_nat (S k)) in * by lia.
  pose proof (postorder_mono n ltac:(lia)). split; [lia|].
  replace (postorder 0 (n + Z.of_nat (S k)) - postorder 0 n) with
    (postorder 0 (n + 1) - postorder 0 n + (postorder 0 (n + Z.of_nat (S k)) - postorder 0 (n + 1))) by lia.
  rewrite seqZ_app by lia. do 2 f_equal. lia.
Qed.

Lemma pos_ok_frozen l p n : 0 <= l -> 0 < (p + 1) * 2 ^ l <= n -> n < 2 ^ 63 -> pos_ok l p.
Proof.
  intros Hl Hb Hn. pose proof (pow2_pos l Hl). assert (0 <= p) by nia.
  assert (l < 63) by (apply (Z.pow_lt_mono_r_iff 2); [lia|lia|nia]).
  apply pos_ok_intro; [done| |right; nia].
  assert (2 ^ 63 = 2 ^ (63 - l) * 2 ^ l) as E63 by (rewrite <-Z.pow_add_r by lia; f_equal; lia).
  split; [done|]. apply (Zmult_lt_reg_r _ _ (2 ^ l)); [done|]. lia.
Qed.

Lemma node_inj l p l' p' : pos_ok l p -> pos_ok l' p' -> node l p = node l' p' -> (l, p) = (l', p').
Proof.
  intros H1 H2 E. pose proof (level_node _ _ H1) as E1. rewrite E, level_node in E1 by done. subst l'.
  f_equal. unfold node in E. destruct H1 as (Hl & _ & _). pose proof (pow2_pos (l + 1) ltac:(lia)). nia.
Qed.

(** ** Storing the frozen nodes *)

(** The storage after the nodes of [to_freeze] are written. *)
Definition store reader (to_freeze : list (Z * HashValue)) : HashReader HashValue :=
  fun pos =>
    match list_find (fun e => e.1 = pos) to_freeze with
    | Some (_, (_, h)) => Ok h
    | None => reader pos
    end.

Lemma store_serves reader ls new : serves reader ls -> num (ls ++ new) < 2 ^ 63 ->
  serves (store reader (entry (ls ++ new) <$> mjoin (leaf_coords <$> seqZ (num ls) (num new)))) (ls ++ new).
Proof.
  intros Hs Hlt l p Hok Hend. unfold read, store.
  assert (0 <= num ls) by (unfold num; lia).
  assert (num (ls ++ new) = num ls + num new) as En by (unfold num; rewrite length_app; lia).
  set (cs := mjoin _). pose proof Hok as (Hl & Hp & _).
  destruct (list_find _ _) as [[i [pos h]]|] eqn:Ef.
  - apply list_find_Some in Ef as (Hi & Hpos & _). rewrite list_lookup_fmap in Hi.
    apply fmap_Some in Hi as ([l' p'] & Hi & E). injection E as -> ->. cbn [fst] in Hpos.
    apply list_elem_of_lookup_2, elem_of_new_coords in Hi as [Hl' Hb]; [|lia..].
    apply node_inj in Hpos; [by rewrite Hpos| |done]. eapply pos_ok_frozen; [done|split; [lia|apply Hb]|lia].
  - apply list_find_None in Ef. destruct (Z.lt_ge_cases (num ls) ((p + 1) * 2 ^ l)) as [Hnew|Hold].
    + assert ((l, p) ∈ cs) as Hin by (apply elem_of_new_coords; lia).
      rewrite Forall_fmap, Forall_forall in Ef. apply Ef in Hin. by cbn in Hin.
    + change (reader (node l p)) with (read (HashReader:=reader) (node l p)). rewrite Hs by (done || lia).
      f_equal. symmetry. apply subtree_app; cbn [fst snd]; rewrite ?Z2Nat.id; lia.
Qed.

(** ** Proofs made from storage *)
#[local] Opaque sibling_coords FrozenSubtreeSiblingIterator.collect_items frozen_coords
  FrozenSubTreeIterator.collect_items get_hash.

Definition sib (p : Z) : Z := if Z.even p then p + 1 else p - 1.

(** The siblings on the path from node [p] of level [l], going up [n] levels. *)
Fixpoint path_coords (n : nat) l p : list (Z * Z) :=
  match n with
  | O => []
  | S n => (l, sib p) :: path_coords n (l + 1) (p / 2)
  end.

Lemma path_coords_ok (n : nat) l p : 0 <= l -> 0 <= p -> l + Z.of_nat n <= 63 ->
  p * 2 ^ l < 2 ^ 63 - 2 -> Forall (fun c => pos_ok c.1 c.2) (path_coords n l p).
Proof.
  revert l p. induction n as [|n IH]; intros l p Hl Hp Hln Hlt; cbn [path_coords]; constructor.
  - cbn [fst snd]. pose proof (pow2_pos l Hl).
    assert (2 ^ 63 = 2 * 2 ^ (62 - l) * 2 ^ l) as E63.
    { rewrite <-Z.mul_assoc, <-Z.pow_add_r, <-pow2_succ by lia. f_equal. lia. }
    assert (2 ^ (63 - l) = 2 * 2 ^ (62 - l)) as El by (rewrite <-pow2_succ by lia; f_equal; lia).
    assert (p < 2 * 2 ^ (62 - l)) by (apply (Zmult_lt_reg_r _ _ (2 ^ l)); [done|lia]).
    unfold sib. destruct (Z.even p) eqn:E.
    + apply Z.even_spec in E as [q ->]. apply pos_ok_intro; [done|lia|].
      destruct (Z.eq_dec l 0) as [->|]; [right; rewrite Z.pow_0_r in *; lia|left; lia].
    + rewrite <-Z.negb_odd in E. apply negb_false_iff, Z.odd_spec in E as [q ->].
      apply pos_ok_intro; [done|lia|]. destruct (Z.eq_dec l 0) as [->|]; [right|left; lia].
      rewrite Z.pow_0_r in *. lia.
  - apply IH; [lia|apply Z.div_pos; lia|lia|]. rewrite pow2_succ by done.
    pose proof (Z.mul_div_le p 2 ltac:(lia)). pose proof (pow2_pos l Hl). nia.
Qed.

Lemma iter_ancestor_sibling_path (n : nat) l p : pos_ok l p -> l + Z.of_nat n <= 63 ->
  Position.iter_ancestor_sibling_take n (node l p) =
  Ok ((fun c => node c.1 c.2) <$> path_coords n l p).
Proof.
  revert l p. induction n as [|n IH]; intros l p Hok Hln; [done|].
  cbn [Position.iter_ancestor_sibling_take path_coords]. unfold Position.ancestor_sibling_next.
  rewrite sibling_node, parent_node by (done || lia). mstep.
  rewrite IH; [done|apply pos_ok_parent; [lia|done]|lia].
Qed.

Lemma path_hashes ls (n l : nat) p : hash_at ls <$> path_coords n (Z.of_nat l) p = path ls n l p.
Proof.
  revert l p. induction n as [|n IH]; intros l p; [done|]. cbn [path_coords path]. rewrite fmap_cons.
  replace (Z.of_nat l + 1) with (Z.of_nat (S l)) by lia. rewrite IH. unfold hash_at at 1. cbn [fst snd].
  by rewrite Nat2Z.id.
Qed.

Lemma filter_left_path ls (n l : nat) p :
  Forall (fun c => pos_ok c.1 c.2) (path_coords n (Z.of_nat l) p) ->
  exists cs, filter_positions Position.is_left_child
      ((fun c => node c.1 c.2) <$> path_coords n (Z.of_nat l) p) = Ok ((fun c => node c.1 c.2) <$> cs) /\
    Forall (fun c => pos_ok c.1 c.2) cs /\ hash_at ls <$> cs = lefts ls n l p.
Proof.
  revert l p. induction n as [|n IH]; intros l p Hok; [by exists []|].
  cbn [path_coords] in Hok. inversion Hok as [|? ? Hc Hok']; subst. cbn [fst snd] in Hc.
  replace (Z.of_nat l + 1) with (Z.of_nat (S l)) in Hok' by lia.
  destruct (IH (S l) (p / 2) Hok') as (cs & E & Hcs & Hh).
  cbn [path_coords lefts]. rewrite fmap_cons. cbn [filter_positions fst snd].
  rewrite is_left_child_node by done. mstep. replace (Z.of_nat l + 1) with (Z.of_nat (S l)) by lia.
  rewrite E. mstep. unfold sib in *. rewrite <-Z.negb_even. destruct (Z.even p) eqn:Ep; cbn [negb app].
  - replace (Z.even (p + 1)) with false by (by rewrite Z.even_add, Ep). by exists cs.
  - replace (Z.even (p - 1)) with true by (by rewrite Z.even_sub, Ep).
    exists ((Z.of_nat l, p - 1) :: cs). split; [done|]. split; [by constructor|].
    rewrite fmap_cons, Hh. unfold hash_at. cbn [fst snd]. by rewrite Nat2Z.id.
Qed.

Lemma filter_right_path ls (n l : nat) p :
  Forall (fun c => pos_ok c.1 c.2) (path_coords n (Z.of_nat l) p) ->
  exists cs, filter_positions Position.is_right_child
      ((fun c => node c.1 c.2) <$> path_coords n (Z.of_nat l) p) = Ok ((fun c => node c.1 c.2) <$> cs) /\
    Forall (fun c => pos_ok c.1 c.2) cs /\ hash_at ls <$> cs = rights ls n l p.
Proof.
  revert l p. induction n as [|n IH]; intros l p Hok; [by exists []|].
  cbn [path_coords] in Hok. inversion Hok as [|? ? Hc Hok']; subst. cbn [fst snd] in Hc.
  replace (Z.of_nat l + 1) with (Z.of_nat (S l)) in Hok' by lia.
  destruct (IH (S l) (p / 2) Hok') as (cs & E & Hcs & Hh).
  cbn [path_coords rights]. rewrite fmap_cons. cbn [filter_positions fst snd].
  rewrite is_right_child_node by done. mstep. replace (Z.of_nat l + 1) with (Z.of_nat (S l)) by lia.
  rewrite E. mstep. unfold sib in *. destruct (Z.even p) eqn:Ep; cbn [app].
  - replace (Z.odd (p + 1)) with true by (by rewrite <-Z.negb_even, Z.even_add, Ep).
    exists ((Z.of_nat l, p + 1) :: cs). split; [done|]. split; [by constructor|].
    rewrite fmap_cons, Hh. unfold hash_at. cbn [fst snd]. by rewrite Nat2Z.id.
  - replace (Z.odd (p - 1)) with false by (by rewrite <-Z.negb_even, Z.even_sub, Ep). by exists cs.
Qed.

Lemma filter_all (positions : list Z) : filter_positions (fun _ => Ok true) positions = Ok positions.
Proof. induction positions as [|p positions IH]; [done|]. cbn. by rewrite IH. Qed.

(** The positions handed to the filter. *)
Lemma sibling_positions ls index keep : 0 <= index < num ls -> num ls < 2 ^ 63 - 1 ->
  get_sibling_positions (num ls) index keep =
    filter_positions keep ((fun c => node c.1 c.2) <$> path_coords (levels ls) 0 index) /\
  Forall (fun c => pos_ok c.1 c.2) (path_coords (levels ls) 0 index).
Proof.
  intros Hi Hn. unfold get_sibling_positions. rewrite root_from_leaf_count_node by lia. mstep.
  destruct (log2_up_bounds (num ls) 63) as [HL1 HL2]; [lia|lia|].
  rewrite level_node by (apply pos_ok_intro; [done|split; [lia|apply Z.pow_pos_nonneg; lia]|right; lia]).
  rewrite from_leaf_index_node by lia. mstep. fold (levels ls).
  assert (0 + Z.of_nat (levels ls) <= 63) by (unfold levels; lia).
  rewrite iter_ancestor_sibling_path by (done || (apply pos_ok_intro; [done|split; [lia|cbn; lia]|right; lia])).
  split; [done|]. apply path_coords_ok; lia.
Qed.

Lemma get_proof_spec reader ls index : serves reader ls -> 0 <= index < num ls -> num ls < 2 ^ 63 - 1 ->
  get_proof reader (num ls) index = Ok (honest_proof ls index).
Proof.
  intros Hs Hi Hn. unfold get_proof, get_siblings. rewrite ensure_true by (apply Z.ltb_lt; lia). mstep.
  destruct (sibling_positions ls index (fun _ => Ok true) Hi Hn) as [-> Hok].
  rewrite filter_all. mstep. rewrite get_hashes_spec by (done || lia). mstep. unfold honest_proof.
  by rewrite <-(path_hashes ls (levels ls) 0).
Qed.

Lemma get_range_proof_spec reader ls first k : serves reader ls -> 0 <= first -> 0 < k ->
  first + k <= num ls -> num ls < 2 ^ 63 - 1 ->
  get_range_proof reader (num ls) (Some first) k = Ok (honest_range_proof ls first (first + k - 1)).
Proof.
  intros Hs Hf Hk Hle Hn. unfold get_range_proof, get_range_proof_positions.
  rewrite (ensure_true (0 <? k)) by (apply Z.ltb_lt; lia). mstep. rewrite u64_sub_Ok by lia. mstep.
  unfold u64_checked_add. rewrite (proj2 (Z.ltb_lt _ _)) by lia. cbn [ok_or]. mstep.
  replace (first + (k - 1)) with (first + k - 1) by lia.
  rewrite (ensure_true (_ <? _)) by (apply Z.ltb_lt; lia). mstep.
  destruct (sibling_positions ls first Position.is_left_child) as [-> Hok1]; [lia..|].
  destruct (sibling_positions ls (first + k - 1) Position.is_right_child) as [-> Hok2]; [lia..|].
  destruct (filter_left_path ls (levels ls) 0 first Hok1) as (cs1 & E1 & Hcs1 & Hh1).
  destruct (filter_right_path ls (levels ls) 0 (first + k - 1) Hok2) as (cs2 & E2 & Hcs2 & Hh2).
  change (Z.of_nat 0) with 0 in E1, E2. rewrite E1. mstep. rewrite E2. mstep.
  rewrite get_hashes_spec by (done || lia). mstep. rewrite get_hashes_spec by (done || lia). mstep.
  unfold honest_range_proof. by rewrite Hh1, Hh2.
Qed.

Lemma collect_read reader ls cs : serves reader ls ->
  (forall c, c ∈ cs -> pos_ok c.1 c.2 /\ (c.2 + 1) * 2 ^ c.1 <= num ls) ->
  collect read (uncurry node <$> cs) = Ok (hash_at ls <$> cs).
Proof.
  intros Hs. induction cs as [|[l p] cs IH]; intros Hc; [done|]. rewrite !fmap_cons. cbn [collect uncurry].
  destruct (Hc (l, p) ltac:(set_solver)) as [Hok Hend]. rewrite Hs by done. mstep.
  rewrite IH; [done|]. intros. apply Hc. set_solver.
Qed.

Lemma tiles_bounds a b cs c : tiles a b cs -> 0 <= a -> c ∈ cs ->
  0 <= c.1 /\ 0 < (c.2 + 1) * 2 ^ c.1 <= b.
Proof.
  revert a. induction cs as [|[l p] cs IH]; intros a Ht Ha Hc; [by apply elem_of_nil in Hc|].
  cbn [tiles] in Ht. destruct Ht as (Hl & Hp & Ht). pose proof (pow2_pos l Hl).
  apply elem_of_cons in Hc as [->|Hc]; [|eapply IH; [exact Ht|lia|done]].
  cbn [fst snd]. apply tiles_le in Ht. split; [done|]. lia.
Qed.

Lemma get_consistency_proof_spec reader ls new : serves reader (ls ++ new) ->
  num (ls ++ new) < 2 ^ 63 ->
  get_consistency_proof reader (num (ls ++ new)) (num ls) =
  Ok (AccumulatorConsistencyProof.new
        (hash_at (ls ++ new) <$> sibling_coords 128 (num ls) (num new))).
Proof.
  intros Hs Hn. assert (0 <= num ls) by (unfold num; lia). assert (0 <= num new) by (unfold num; lia).
  assert (num (ls ++ new) = num ls + num new) as En by (unfold num; rewrite length_app; lia).
  assert (FrozenSubtreeSiblingIterator.new (num ls) (num (ls ++ new)) =
    Ok (FrozenSubtreeSiblingIterator.mk (num ls) (num new))) as Eit.
  { unfold FrozenSubtreeSiblingIterator.new. change MAX_ACCUMULATOR_LEAVES with (2 ^ 63).
    rewrite !assert_true, u64_sub_Ok by (try apply Z.leb_le; lia). mstep. do 2 f_equal. lia. }
  pose proof (FrozenSubtreeSiblingIteratorFacts.steps_128 (num ls) (num new) ltac:(lia) ltac:(lia) ltac:(lia)).
  destruct (FrozenSubtreeSiblingIteratorFacts.collect_from 128 (num ls) (num new)) as [Ec Ht]; [lia..|].
  unfold get_consistency_proof. rewrite ensure_true, bind_ret by (apply Z.leb_le; lia).
  rewrite Eit, bind_ret, Ec, bind_ret. cbn [expect]. rewrite bind_ret.
  rewrite (collect_read reader (ls ++ new)), bind_ret; [reflexivity|done|].
  intros c Hc. destruct (tiles_bounds _ _ _ _ Ht ltac:(lia) Hc) as [Hc1 Hc2]. split; [|lia].
  eapply pos_ok_frozen; [done|exact Hc2|lia].
Qed.

Lemma get_frozen_subtree_hashes_spec reader ls : serves reader ls -> num ls < 2 ^ 63 ->
  get_frozen_subtree_hashes reader (num ls) = Ok (frozen_roots ls).
Proof.
  intros Hs Hn. assert (0 <= num ls) by (unfold num; lia). unfold get_frozen_subtree_hashes.
  rewrite FrozenSubTreeIteratorFacts.collect_new, bind_ret by lia. cbn [expect]. rewrite bind_ret.
  apply collect_read; [done|]. intros c Hc.
  destruct (tiles_bounds _ _ _ _ (frozen_coords_tiles (num ls) ltac:(lia)) ltac:(lia) Hc) as [Hc1 Hc2].
  split; [|lia]. eapply pos_ok_frozen; [done|exact Hc2|lia].
Qed.

Lemma append_total reader ls new : serves reader ls -> num (ls ++ new) < 2 ^ 63 - 64 ->
  append reader (num ls) new =
  Ok (merkle_root (ls ++ new),
      entry (ls ++ new) <$> mjoin (leaf_coords <$> seqZ (num ls) (num new))).
Proof.
  intros Hs Hlt. destruct (decide (new = [])) as [->|]; [|by apply append_spec].
  rewrite app_nil_r in *. rewrite seqZ_nil by done. cbn [append fmap list_fmap].
  destruct (Z.eqb_spec (num ls) 0) as [E|].
  - destruct ls; [done|by unfold num in E].
  - rewrite get_root_hash_spec by (done || (unfold num in *; lia)). done.
Qed.

Lemma postorder_entries ls n k : 0 <= n -> 0 <= k -> n + k < 2 ^ 63 ->
  let cs := mjoin (leaf_coords <$> seqZ n k) in
  collect Position.to_postorder_index (entry ls <$> cs).*1 = Ok (seqZ (postorder 0 n) (Z.of_nat (length cs))).
Proof.
  intros Hn Hk Hlt cs. destruct (postorder_new_coords n (Z.to_nat k)) as [Hle E]; [lia..|].
  rewrite Z2Nat.id in * by done. fold cs in E.
  assert (Z.of_nat (length cs) = postorder 0 (n + k) - postorder 0 n) as ->.
  { apply (f_equal length) in E. rewrite length_fmap, length_seqZ in E. lia. }
  rewrite <-E. assert (forall c, c ∈ cs -> Position.to_postorder_index (node c.1 c.2) = Ok (uncurry postorder c)) as Hc.
  { intros [l p] Hc. apply elem_of_new_coords in Hc as [Hl Hb]; [|lia..].
    assert (pos_ok l p) as Hok by (eapply pos_ok_frozen; [done| |exact Hlt]; lia).
    pose proof Hok as (_ & Hp & _). pose proof (pow2_pos l Hl).
    apply (inorder_to_postorder_node l p); [|done].
    apply (Z.pow_lt_mono_r_iff 2); [lia|lia|]. nia. }
  clear -Hc. induction cs as [|c cs IH]; [done|]. rewrite !fmap_cons. cbn [collect].
  cbn [entry fst]. rewrite Hc by set_solver. mstep. rewrite IH by set_solver. done.
Qed.
End facts.
End MerkleAccumulator.

(** * Properties *)

(** C33: appending leaves to an accumulator whose frozen nodes are in storage gives
    the root hash of all leaves and exactly the nodes that become full, with their
    hashes, in the order of consecutive post-order indices; and once they are
    written, the storage serves the longer accumulator. *)
Theorem storage_append_correct {HashValue} `{!MerkleHasher HashValue} (reader : HashReader HashValue)
    (ls new : list HashValue) :
  MerkleAccumulator.serves reader ls -> num (ls ++ new) < 2 ^ 63 - 64 ->
  exists to_freeze,
    MerkleAccumulator.append reader (num ls) new = Ok (merkle_root (ls ++ new), to_freeze) /\
    (forall pos h, (pos, h) ∈ to_freeze <-> exists l p,
       pos = node l p /\ h = hash_at (ls ++ new) (l, p) /\
       0 <= l /\ num ls < (p + 1) * 2 ^ l <= num (ls ++ new)) /\
    (exists first, collect Position.to_postorder_index to_freeze.*1 =
       Ok (seqZ first (Z.of_nat (length to_freeze)))) /\
    MerkleAccumulator.serves (MerkleAccumulator.store reader to_freeze) (ls ++ new).
Proof.
  intros Hs Hlt. assert (0 <= num ls) by (unfold num; lia). assert (0 <= num new) by (unfold num; lia).
  assert (num (ls ++ new) = num ls + num new) as En by (unfold num; rewrite length_app; lia).
  exists (MerkleAccumulator.entry (ls ++ new) <$>
    mjoin (MerkleAccumulator.leaf_coords <$> seqZ (num ls) (num new))).
  split_and!.
  - by apply MerkleAccumulator.append_total.
  - intros pos h. rewrite list_elem_of_fmap. split.
    + intros ([l p] & E & Hc). injection E as -> ->. exists l, p.
      apply MerkleAccumulator.elem_of_new_coords in Hc; [|lia..]. rewrite En. done.
    + intros (l & p & -> & -> & Hl & Hb). exists (l, p). split; [done|].
      apply MerkleAccumulator.elem_of_new_coords; lia.
  - exists (postorder 0 (num ls)). rewrite length_fmap. apply MerkleAccumulator.postorder_entries; lia.
  - apply MerkleAccumulator.store_serves; [done|lia].
Qed.

(** The storage after three leaves were appended to an empty accumulator. *)
Definition three_leaves : HashReader digest :=
  MerkleAccumulator.store (fun _ => Err "not found")
    [(0, Leaf 0); (2, Leaf 1); (1, Node (Leaf 0) (Leaf 1)); (4, Leaf 2)].

Lemma three_leaves_serves : MerkleAccumulator.serves three_leaves [Leaf 0; Leaf 1; Leaf 2].
Proof.
  assert (MerkleAccumulator.serves (HashValue:=digest) (fun _ => Err "not found") []) as Hs.
  { intros l p (Hl & Hp & _) Hn. pose proof (pow2_pos l Hl). change (num []) with 0 in Hn. nia. }
  exact (MerkleAccumulator.store_serves _ [] [Leaf 0; Leaf 1; Leaf 2] Hs eq_refl).
Qed.

Lemma storage_append_correct_witness :
  exists to_freeze,
    MerkleAccumulator.append three_leaves 3 [Leaf 3] =
      Ok (merkle_root [Leaf 0; Leaf 1; Leaf 2; Leaf 3], to_freeze) /\
    to_freeze.*1 = [6; 5; 3].
Proof.
  destruct (storage_append_correct three_leaves [Leaf 0; Leaf 1; Leaf 2] [Leaf 3]) as (tf & Happ & _);
    [exact three_leaves_serves|done|].
  exists tf. split; [exact Happ|]. vm_compute in Happ. by injection Happ as <-.
Defined.

(** C34: the inclusion proof and the range proof made from storage are accepted by
    the verifier for the accumulator's root, and the frozen subtrees read from
    storage are the roots an in-memory accumulator starts from. *)
Theorem storage_proofs_verify {HashValue} `{!MerkleHasher HashValue} `{!EqDecision HashValue}
    (reader : HashReader HashValue) (ls : list HashValue) (first k : Z) :
  MerkleAccumulator.serves reader ls -> num ls < 2 ^ 63 - 1 ->
  0 <= first -> 0 < k -> first + k <= num ls ->
  let leaves := take (Z.to_nat k) (drop (Z.to_nat first) ls) in
  (exists proof, MerkleAccumulator.get_proof reader (num ls) first = Ok proof /\
     forall h, ls !! Z.to_nat first = Some h ->
       AccumulatorProof.verify proof (merkle_root ls) h first = Ok tt) /\
  (exists proof, MerkleAccumulator.get_range_proof reader (num ls) (Some first) k = Ok proof /\
     AccumulatorRangeProof.verify proof (merkle_root ls) (Some first) leaves = Ok tt) /\
  MerkleAccumulator.get_root_hash reader (num ls) = Ok (merkle_root ls) /\
  exists acc, (roots ← MerkleAccumulator.get_frozen_subtree_hashes reader (num ls);
     InMemoryAccumulator.new roots (num ls)) = Ok acc /\ InMemoryAccumulator.represents acc ls.
Proof.
  intros Hs Hn Hf Hk Hle leaves. split_and!.
  - exists (honest_proof ls first). split; [apply MerkleAccumulator.get_proof_spec; [done|lia..]|].
    intros h Hh. apply honest_proof_verifies; [lia|done|done].
  - exists (honest_range_proof ls first (first + k - 1)).
    split; [by apply MerkleAccumulator.get_range_proof_spec|].
    assert (Z.to_nat k = Z.to_nat (first + k - 1 - first + 1)) as Ek by lia. unfold leaves. rewrite Ek.
    apply honest_range_proof_verifies; lia.
  - apply MerkleAccumulator.get_root_hash_spec; [done|lia].
  - rewrite MerkleAccumulator.get_frozen_subtree_hashes_spec, bind_ret by (done || lia).
    rewrite InMemoryAccumulator.new_frozen by lia. eexists. split; [done|]. done.
Qed.

Lemma storage_proofs_verify_witness :
  exists proof, MerkleAccumulator.get_range_proof three_leaves 3 (Some 1) 2 = Ok proof /\
    AccumulatorRangeProof.verify proof (merkle_root [Leaf 0; Leaf 1; Leaf 2]) (Some 1) [Leaf 1; Leaf 2]
      = Ok tt.
Proof. by apply (storage_proofs_verify three_leaves [Leaf 0; Leaf 1; Leaf 2] 1 2 three_leaves_serves). Defined.

(** The consistency proof made from storage extends the in-memory accumulator
    of the shorter list to that of the longer one. *)
Theorem storage_consistency_proof_extends {HashValue} `{!MerkleHasher HashValue}
    (reader : HashReader HashValue) (ls new : list HashValue) (acc : InMemoryAccumulator.t HashValue) :
  MerkleAccumulator.serves reader (ls ++ new) -> num (ls ++ new) < 2 ^ 63 ->
  InMemoryAccumulator.represents acc ls ->
  exists proof acc',
    MerkleAccumulator.get_consistency_proof reader (num (ls ++ new)) (num ls) = Ok proof /\
    InMemoryAccumulator.append_subtrees acc (AccumulatorConsistencyProof.subtrees proof) (num new) = Ok acc' /\
    InMemoryAccumulator.represents acc' (ls ++ new).
Proof.
  intros Hs Hn Hacc. assert (num (ls ++ new) = num ls + num new) as En by (unfold num; rewrite length_app; lia).
  exists (AccumulatorConsistencyProof.new (hash_at (ls ++ new) <$> sibling_coords 128 (num ls) (num new))).
  eexists. split_and!.
  - by apply MerkleAccumulator.get_consistency_proof_spec.
  - apply InMemoryAccumulator.append_subtrees_frozen; [done|lia].
  - done.
Qed.

Lemma storage_consistency_proof_extends_witness :
  exists proof acc',
    MerkleAccumulator.get_consistency_proof three_leaves 3 1 = Ok proof /\
    InMemoryAccumulator.append_subtrees
      (InMemoryAccumulator.mk (frozen_roots [Leaf 0]) 1 (merkle_root [Leaf 0]))
      (AccumulatorConsistencyProof.subtrees proof) 2 = Ok acc' /\
    InMemoryAccumulator.represents acc' [Leaf 0; Leaf 1; Leaf 2].
Proof.
  apply (storage_consistency_proof_extends three_leaves [Leaf 0] [Leaf 1; Leaf 2]);
    [exact three_leaves_serves|done|done].
Defined.
