(* ===== verification/QuorumCert.v ===== *)
(** * Quorum certificates

    Model of [consensus/consensus-types/src/vote_data.rs] and [quorum_cert.rs]:
    what a vote is about, and the certificate made of a quorum of votes. *)

From S2P Require Import Prelude Collections Merkle BitVec ValidatorVerifier LedgerInfo.

(** The derived hash ([BCSCryptoHash]) of a type of messages. *)
Class CryptoHash `{CryptoTypes} (M : Type) := hash : M -> HashValue.

Module VoteData.
Section definitions.
Context `{CryptoTypes}.

Record t := new {
  proposed : BlockInfo.t;
  parent : BlockInfo.t;
}.

#[global] Instance t_eq_dec : EqDecision t.
Proof. solve_decision. Defined.

Definition verify (self : t) : result unit :=
  ensure (BlockInfo.epoch (parent self) =? BlockInfo.epoch (proposed self))
    "Parent and proposed epochs do not match";;
  ensure (BlockInfo.round (parent self) <? BlockInfo.round (proposed self))
    "Proposed round is less than parent round";;
  ensure (BlockInfo.timestamp_usecs (parent self) <=? BlockInfo.timestamp_usecs (proposed self))
    "Proposed happened before parent";;
  ensure ((BlockInfo.version (proposed self) =? 0) ||
          (BlockInfo.version (parent self) <=? BlockInfo.version (proposed self)))
    "Proposed version is less than parent version".

Definition is_for_nil (self : t) : bool :=
  BlockInfo.timestamp_usecs (proposed self) =? BlockInfo.timestamp_usecs (parent self).
End definitions.
End VoteData.

Module QuorumCert.
Section definitions.
Context `{CryptoTypes} `{!CryptoHash VoteData.t}.

Record t := new {
  vote_data : VoteData.t;
  signed_ledger_info : LedgerInfoWithSignatures.t;
}.

#[global] Instance t_eq_dec : EqDecision t.
Proof using Type. solve_decision. Defined.

Definition certified_block (self : t) : BlockInfo.t := VoteData.proposed (vote_data self).

Definition parent_block (self : t) : BlockInfo.t := VoteData.parent (vote_data self).

Definition ledger_info (self : t) : LedgerInfoWithSignatures.t := signed_ledger_info self.

Definition commit_info (self : t) : BlockInfo.t :=
  LedgerInfo.commit_info (LedgerInfoWithSignatures.ledger_info (ledger_info self)).

Definition ends_epoch (self : t) : bool :=
  LedgerInfo.ends_epoch (LedgerInfoWithSignatures.ledger_info (signed_ledger_info self)).

Definition certificate_for_genesis_from_ledger_info (ledger_info : LedgerInfo.t)
    (genesis_id : HashValue) : result t :=
  epoch ← expect (u64_checked_add (LedgerInfo.epoch ledger_info) 1);
  let ancestor :=
    BlockInfo.new epoch 0 genesis_id (LedgerInfo.transaction_accumulator_hash ledger_info)
      (LedgerInfo.version ledger_info) (LedgerInfo.timestamp_usecs ledger_info) None in
  let vote_data := VoteData.new ancestor ancestor in
  let li := LedgerInfo.new ancestor (hash vote_data) in
  next_epoch_state ← expect (LedgerInfo.next_epoch_state ledger_info);
  let validator_set_size := ValidatorVerifier.len (EpochState.verifier next_epoch_state) in
  Ok (new vote_data
        (LedgerInfoWithSignatures.new li
           (AggregateSignature.new (BitVec.with_num_bits (validator_set_size `mod` 2 ^ 16)) None))).

Definition verify `{!BlsAggregate} `{!Bls LedgerInfo.t} (self : t)
    (validator : ValidatorVerifier.t) : result unit :=
  ensure (bool_decide (LedgerInfo.consensus_data_hash (LedgerInfoWithSignatures.ledger_info (ledger_info self)) =
    hash (vote_data self)))
    "Quorum Cert's hash mismatch LedgerInfo";;
  if BlockInfo.round (certified_block self) =? 0 then
    ensure (bool_decide (parent_block self = certified_block self))
      "Genesis QC has inconsistent parent block with certified block";;
    ensure (bool_decide (certified_block self = commit_info self))
      "Genesis QC has inconsistent commit block with certified block";;
    ensure (LedgerInfoWithSignatures.get_num_voters (ledger_info self) =? 0)
      "Genesis QC should not carry signatures"
  else
    map_err (fun _ => "Fail to verify QuorumCert")
      (LedgerInfoWithSignatures.verify_signatures (ledger_info self) validator);;
    VoteData.verify (vote_data self).

Definition create_merged_with_executed_state (self : t)
    (executed_ledger_info : LedgerInfoWithSignatures.t) : result t :=
  ensure (BlockInfo.match_ordered_only (commit_info self)
            (LedgerInfoWithSignatures.commit_info executed_ledger_info))
    "Block info from QC and executed LI need to match";;
  Ok (new (vote_data self) executed_ledger_info).
End definitions.
End QuorumCert.
