(* ===== verification/Timeout2Chain.v ===== *)
(** * Timeouts and timeout certificates

    Model of [consensus/consensus-types/src/timeout_2chain.rs]: the timeout a
    validator signs when a round makes no progress, the collection of timeouts
    of a round and the certificate aggregated from them. *)

From S2P Require Import Prelude Collections Merkle BitVec ValidatorVerifier LedgerInfo QuorumCert.

(** Validators sign the rounds, not the quorum certificate. *)
Module TimeoutSigningRepr.
Record t := mk {
  epoch : Z;
  round : Z;
  hqc_round : Z;
}.

#[global] Instance t_eq_dec : EqDecision t.
Proof. solve_decision. Defined.
End TimeoutSigningRepr.

Module TwoChainTimeout.
Section definitions.
Context `{CryptoTypes}.

Record t := new {
  epoch : Z;
  round : Z;
  quorum_cert : QuorumCert.t;
}.

#[global] Instance t_eq_dec : EqDecision t.
Proof. solve_decision. Defined.

Definition hqc_round (self : t) : Z :=
  BlockInfo.round (QuorumCert.certified_block (quorum_cert self)).

Definition signing_format (self : t) : TimeoutSigningRepr.t :=
  TimeoutSigningRepr.mk (epoch self) (round self) (hqc_round self).

Definition verify `{!CryptoHash VoteData.t} `{!BlsAggregate} `{!Bls LedgerInfo.t} (self : t)
    (validators : ValidatorVerifier.t) : result unit :=
  ensure (hqc_round self <? round self) "Timeout round should be larger than the QC round";;
  QuorumCert.verify (quorum_cert self) validators.
End definitions.
End TwoChainTimeout.

Module PartialSignaturesWithRound.
Section definitions.
Context `{CryptoTypes}.

(** A [BTreeMap] from addresses to the round and the signature. *)
Record t := new { signatures : list (AccountAddress * (Z * Signature)) }.

Definition empty : t := new [].

Definition add_signature (self : t) (validator : AccountAddress) (round : Z)
    (signature : Signature) : t :=
  new (BTreeMap.or_insert (signatures self) validator (round, signature)).

(** The closure of [for_each] in [get_partial_sig_with_rounds]. *)
Definition collect_signature (address_to_validator_index : gmap AccountAddress Z)
    (acc : PartialSignatures.t * list (Z * Z)) (entry : AccountAddress * (Z * Signature)) :
    PartialSignatures.t * list (Z * Z) :=
  let '(partial_sig, index_to_rounds) := acc in
  let '(address, (round, sig)) := entry in
  match address_to_validator_index !! address with
  | Some index =>
      (PartialSignatures.add_signature partial_sig address sig,
       BTreeMap.insert index_to_rounds index round)
  | None => acc
  end.

Definition get_partial_sig_with_rounds (self : t)
    (address_to_validator_index : gmap AccountAddress Z) : PartialSignatures.t * list Z :=
  let '(partial_sig, index_to_rounds) :=
    foldl (collect_signature address_to_validator_index) (PartialSignatures.empty, [])
      (signatures self) in
  (partial_sig, index_to_rounds.*2).
End definitions.
End PartialSignaturesWithRound.

Module AggregateSignatureWithRounds.
Section definitions.
Context `{CryptoTypes}.

Record t := mk {
  sig : AggregateSignature.t;
  rounds : list Z;
}.

#[global] Instance t_eq_dec : EqDecision t.
Proof. solve_decision. Defined.

Definition new {E} (sig : AggregateSignature.t) (rounds : list Z) : outcome E t :=
  assert (AggregateSignature.get_num_voters sig =? Z.of_nat (length rounds));;
  Ok (mk sig rounds).

Definition empty : t := mk AggregateSignature.empty [].

Definition get_voters (self : t) (ordered_validator_addresses : list AccountAddress) :
    list AccountAddress :=
  AggregateSignature.get_signers_addresses (sig self) ordered_validator_addresses.

Definition get_voters_and_rounds (self : t) (ordered_validator_addresses : list AccountAddress) :
    list (AccountAddress * Z) :=
  zip (AggregateSignature.get_signers_addresses (sig self) ordered_validator_addresses) (rounds self).
End definitions.
End AggregateSignatureWithRounds.

(** [Iterator::max]. *)
Definition iter_max (l : list Z) : option Z :=
  match l with
  | [] => None
  | x :: l => Some (foldl Z.max x l)
  end.

Module TwoChainTimeoutCertificate.
Section definitions.
Context `{CryptoTypes}.

Record t := mk {
  timeout : TwoChainTimeout.t;
  signatures_with_rounds : AggregateSignatureWithRounds.t;
}.

#[global] Instance t_eq_dec : EqDecision t.
Proof. solve_decision. Defined.

Definition new (timeout : TwoChainTimeout.t) : t := mk timeout AggregateSignatureWithRounds.empty.

Definition epoch (self : t) : Z := TwoChainTimeout.epoch (timeout self).

Definition round (self : t) : Z := TwoChainTimeout.round (timeout self).

Definition highest_hqc_round (self : t) : Z := TwoChainTimeout.hqc_round (timeout self).

(** The messages whose signatures [verify] checks. *)
Definition timeout_messages (self : t) (validators : ValidatorVerifier.t) :
    list TimeoutSigningRepr.t :=
  (fun '(_, hqc_round) => TimeoutSigningRepr.mk (epoch self) (round self) hqc_round) <$>
  AggregateSignatureWithRounds.get_voters_and_rounds (signatures_with_rounds self)
    (ValidatorVerifier.get_ordered_account_addresses validators).

Definition verify `{!CryptoHash VoteData.t} `{!BlsAggregate} `{!Bls LedgerInfo.t}
    `{!Bls TimeoutSigningRepr.t} (self : t) (validators : ValidatorVerifier.t) : result unit :=
  TwoChainTimeout.verify (timeout self) validators;;
  let hqc_round := TwoChainTimeout.hqc_round (timeout self) in
  map_err VerifyError_text
    (ValidatorVerifier.verify_aggregate_signatures validators (timeout_messages self validators)
       (AggregateSignatureWithRounds.sig (signatures_with_rounds self)));;
  signed_hqc ← expect (iter_max (AggregateSignatureWithRounds.rounds (signatures_with_rounds self)));
  ensure (hqc_round =? signed_hqc) "Inconsistent hqc round".
End definitions.
End TwoChainTimeoutCertificate.

Module TwoChainTimeoutWithPartialSignatures.
Section definitions.
Context `{CryptoTypes}.

Record t := mk {
  timeout : TwoChainTimeout.t;
  signatures : PartialSignaturesWithRound.t;
}.

Definition new (timeout : TwoChainTimeout.t) : t := mk timeout PartialSignaturesWithRound.empty.

Definition epoch (self : t) : Z := TwoChainTimeout.epoch (timeout self).

Definition round (self : t) : Z := TwoChainTimeout.round (timeout self).

Definition highest_hqc_round (self : t) : Z := TwoChainTimeout.hqc_round (timeout self).

Definition signers (self : t) : list AccountAddress :=
  (PartialSignaturesWithRound.signatures (signatures self)).*1.

Definition add (self : t) (author : AccountAddress) (timeout' : TwoChainTimeout.t)
    (signature : Signature) : t :=
  let hqc_round := TwoChainTimeout.hqc_round timeout' in
  let timeout :=
    if TwoChainTimeout.hqc_round (timeout self) <? hqc_round then timeout' else timeout self in
  mk timeout (PartialSignaturesWithRound.add_signature (signatures self) author hqc_round signature).

Definition aggregate_signatures `{!BlsAggregate} (self : t) (verifier : ValidatorVerifier.t) :
    outcome VerifyError TwoChainTimeoutCertificate.t :=
  let '(partial_sig, ordered_rounds) :=
    PartialSignaturesWithRound.get_partial_sig_with_rounds (signatures self)
      (ValidatorVerifier.address_to_validator_index verifier) in
  aggregated_sig ← ValidatorVerifier.aggregate_signatures verifier partial_sig;
  signatures_with_rounds ← AggregateSignatureWithRounds.new aggregated_sig ordered_rounds;
  Ok (TwoChainTimeoutCertificate.mk (timeout self) signatures_with_rounds).
End definitions.
End TwoChainTimeoutWithPartialSignatures.

(** ** Rounds in the order of the bit mask *)
Section facts.
Context `{CryptoTypes} `{!BlsAggregate}.
Implicit Types (v : ValidatorVerifier.t) (entries : list (AccountAddress * (Z * Signature))).

(** The entries of an index-ordered map are, in order, those of the validators
    the bit mask of its keys selects. *)
Lemma selected_indexed bv (m : list (Z * Z)) k (infos : list ValidatorConsensusInfo.t) :
  BTreeMap.ordered m ->
  (forall q, q ∈ m.*1 -> k <= q < k + Z.of_nat (length infos)) ->
  (forall q, k <= q -> BitVec.is_set bv q = true <-> q ∈ m.*1) ->
  Forall2 (fun e info => k <= e.1 /\ infos !! Z.to_nat (e.1 - k) = Some info) m
    (ValidatorVerifier.selected bv k infos).
Proof using Type.
  revert m k. induction infos as [|x infos IH]; intros m k Ho Hb Hs; cbn [ValidatorVerifier.selected].
  { destruct m as [|[q r] m]; [constructor|]. pose proof (Hb q ltac:(set_solver)). cbn in *. lia. }
  assert (forall m' : list (Z * Z), BTreeMap.ordered m' ->
    (forall q, q ∈ m'.*1 -> k + 1 <= q < k + Z.of_nat (length (x :: infos))) ->
    (forall q, k + 1 <= q -> BitVec.is_set bv q = true <-> q ∈ m'.*1) ->
    Forall2 (fun e info => k <= e.1 /\ (x :: infos) !! Z.to_nat (e.1 - k) = Some info) m'
      (ValidatorVerifier.selected bv (k + 1) infos)) as Hrest.
  { intros m' Ho' Hb' Hs'. cbn [length] in Hb'.
    eapply Forall2_impl; [apply IH; [done| |done]; intros q Hq; apply Hb' in Hq; lia|].
    intros [q r] info [Hq E]. cbn [fst] in *. split; [lia|].
    by replace (Z.to_nat (q - k)) with (S (Z.to_nat (q - (k + 1)))) by lia. }
  destruct (BitVec.is_set bv k) eqn:Ek.
  - apply Hs in Ek; [|lia]. destruct m as [|[q r] m]; [by apply elem_of_nil in Ek|].
    pose proof (BTreeMap.ordered_cons_inv _ _ _ Ho) as [Ho' Hlt].
    assert (forall q', q' ∈ m.*1 -> q < q') as Hlt'.
    { intros q' Hq'. apply list_elem_of_fmap in Hq' as ([q1 r1] & -> & Hq'). by eapply Hlt. }
    assert (q = k) as ->.
    { rewrite fmap_cons in Ek. apply elem_of_cons in Ek as [->|Ek]; [done|].
      apply Hlt' in Ek. pose proof (Hb q ltac:(set_solver)). lia. }
    constructor; [split; [done|by rewrite Z.sub_diag]|]. apply Hrest; [done| |].
    + intros q Hq. pose proof (Hlt' _ Hq). pose proof (Hb q ltac:(set_solver)). lia.
    + intros q Hq. rewrite Hs, fmap_cons, elem_of_cons by lia. cbn [fst]. split; [|by right].
      intros [->|]; [lia|done].
  - apply Hrest; [done| |intros; apply Hs; lia]. intros q Hq. pose proof (Hb q Hq).
    destruct (Z.eq_dec q k) as [->|]; [|lia]. apply Hs in Hq; [|lia]. congruence.
Qed.

Lemma ordered_snoc_inv {V} (m : list (Z * V)) k x : BTreeMap.ordered (m ++ [(k, x)]) ->
  BTreeMap.ordered m /\ forall k', k' ∈ m.*1 -> k' < k.
Proof using Type.
  unfold BTreeMap.ordered. rewrite fmap_app. intros Ho. split; [by eapply StronglySorted_app_1_l|].
  intros k' Hk'. eapply StronglySorted_app_1_elem_of; [exact Ho|done|]. cbn. set_solver.
Qed.

Lemma index_inj v a b i : ValidatorVerifier.well_formed v ->
  ValidatorVerifier.address_to_validator_index v !! a = Some i ->
  ValidatorVerifier.address_to_validator_index v !! b = Some i -> a = b.
Proof using Type.
  intros Hwf Ha Hb. apply (ValidatorVerifier.wf_index v Hwf) in Ha as [_ Ha], Hb as [_ Hb]. congruence.
Qed.

Lemma index_known v a : ValidatorVerifier.well_formed v ->
  a ∈ ValidatorVerifier.get_ordered_account_addresses v ->
  exists i, ValidatorVerifier.address_to_validator_index v !! a = Some i.
Proof using Type.
  intros Hwf Ha. apply list_elem_of_lookup_1 in Ha as [i Hi].
  unfold ValidatorVerifier.get_ordered_account_addresses in Hi. rewrite list_lookup_fmap in Hi.
  exists (Z.of_nat i). apply (ValidatorVerifier.wf_index v Hwf). rewrite Nat2Z.id. split; [lia|done].
Qed.

Lemma collect_entries v entries : ValidatorVerifier.well_formed v -> BTreeMap.ordered entries ->
  (forall a, a ∈ entries.*1 -> a ∈ ValidatorVerifier.get_ordered_account_addresses v) ->
  exists m,
    foldl (PartialSignaturesWithRound.collect_signature
             (ValidatorVerifier.address_to_validator_index v)) (PartialSignatures.empty, []) entries =
      (PartialSignatures.new ((fun e => (e.1, e.2.2)) <$> entries), m) /\
    BTreeMap.ordered m /\
    forall q r, (q, r) ∈ m <-> exists a s, (a, (r, s)) ∈ entries /\
      ValidatorVerifier.address_to_validator_index v !! a = Some q.
Proof using Type.
  intros Hwf. induction entries as [|[a [r s]] entries IH] using rev_ind; intros Ho Hk.
  { exists []. split_and!; [done|constructor|]. intros q r. split; [by intros ?%elem_of_nil|].
    by intros (a & s & ?%elem_of_nil & _). }
  pose proof (ordered_snoc_inv _ _ _ Ho) as [Ho' Hlt]. rewrite fmap_app in Hk.
  destruct IH as (m & E & Hm & Hin); [done|set_solver|].
  destruct (index_known v a Hwf) as [i Hi]; [apply Hk; set_solver|].
  exists (BTreeMap.insert m i r). split_and!; [|auto|].
  - rewrite foldl_app, E. cbn [foldl PartialSignaturesWithRound.collect_signature]. rewrite Hi.
    unfold PartialSignatures.add_signature. cbn [PartialSignatures.signatures].
    rewrite BTreeMap.or_insert_last, fmap_app; [done|]. intros k'. rewrite <-list_fmap_compose.
    intros Hk'. by apply Hlt.
  - intros q r'. rewrite <-BTreeMap.get_elem_of, BTreeMap.get_insert by auto.
    destruct (Z.eqb_spec q i) as [->|Hne].
    + split; [intros [= <-]; exists a, s; set_solver|]. intros (a' & s' & Ha' & Hi').
      rewrite (index_inj v a' a i Hwf Hi' Hi) in Ha'. apply elem_of_app in Ha' as [Ha'|Ha'].
      * apply (list_elem_of_fmap_2 fst) in Ha'. apply Hlt in Ha'. cbn in Ha'. lia.
      * apply list_elem_of_singleton in Ha'. congruence.
    + rewrite BTreeMap.get_elem_of, Hin by done. split.
      * intros (a' & s' & Ha' & Hi'). exists a', s'. set_solver.
      * intros (a' & s' & Ha' & Hi'). exists a', s'. split; [|done].
        apply elem_of_app in Ha' as [|Ha']; [done|]. apply list_elem_of_singleton in Ha'. congruence.
Qed.

(** The rounds of an aggregated certificate are those of the signers, in order. *)
Lemma rounds_of_voters v entries masks m : ValidatorVerifier.well_formed v ->
  BTreeMap.ordered m ->
  (forall q r, (q, r) ∈ m <-> exists a s, (a, (r, s)) ∈ entries /\
     ValidatorVerifier.address_to_validator_index v !! a = Some q) ->
  (forall q, ValidatorVerifier.len v <= q -> BitVec.is_set masks q = false) ->
  (forall info, info ∈ ValidatorVerifier.selected masks 0 (ValidatorVerifier.validator_infos v) <->
     info ∈ ValidatorVerifier.validator_infos v /\ ValidatorConsensusInfo.address info ∈ entries.*1) ->
  Forall2 (fun r info => exists s, (ValidatorConsensusInfo.address info, (r, s)) ∈ entries) m.*2
    (ValidatorVerifier.selected masks 0 (ValidatorVerifier.validator_infos v)).
Proof using Type.
  intros Hwf Ho Hm Hout Hsel. set (infos := ValidatorVerifier.validator_infos v) in *.
  assert (forall q, 0 <= q -> q ∈ m.*1 <-> exists a, a ∈ entries.*1 /\
    ValidatorVerifier.address_to_validator_index v !! a = Some q) as Hkeys.
  { intros q Hq. split.
    - intros Hin. apply list_elem_of_fmap in Hin as ([q' r] & -> & Hin). apply Hm in Hin as (a & s & Ha & Hi).
      exists a. split; [|done]. apply list_elem_of_fmap. by exists (a, (r, s)).
    - intros (a & Ha & Hi). apply list_elem_of_fmap in Ha as ([a' [r s]] & -> & Ha).
      apply list_elem_of_fmap. exists (q, r). split; [done|]. apply Hm. by exists a', s. }
  assert (forall q a, ValidatorVerifier.address_to_validator_index v !! a = Some q ->
    0 <= q /\ exists info, infos !! Z.to_nat q = Some info /\ ValidatorConsensusInfo.address info = a) as Hidx.
  { intros q a Hi. apply (ValidatorVerifier.wf_index v Hwf) in Hi as [Hq Hi]. split; [done|].
    apply fmap_Some in Hi as (info & Hi & ->). by exists info. }
  rewrite Forall2_fmap_l. eapply Forall2_impl_elem; [apply selected_indexed; [done|..]|].
  - intros q Hq. assert (0 <= q) as Hq0.
    { apply list_elem_of_fmap in Hq as ([q' r] & -> & Hq). apply Hm in Hq as (a & s & _ & Hi).
      by apply Hidx in Hi as []. }
    apply Hkeys in Hq as (a & _ & Hi); [|done]. apply Hidx in Hi as (_ & info & Hi & _).
    apply lookup_lt_Some in Hi. lia.
  - intros q Hq. rewrite Hkeys by done. split.
    + intros Hs. assert (q < ValidatorVerifier.len v) as Hlt.
      { destruct (Z.lt_ge_cases q (ValidatorVerifier.len v)); [done|]. by rewrite Hout in Hs. }
      unfold ValidatorVerifier.len in Hlt. fold infos in Hlt.
      destruct (lookup_lt_is_Some_2 infos (Z.to_nat q)) as [info Hi]; [lia|].
      exists (ValidatorConsensusInfo.address info). split.
      * apply Hsel, ValidatorVerifier.elem_of_selected; [apply Hwf|done|].
        exists (Z.to_nat q). by rewrite Z.add_0_l, Z2Nat.id.
      * apply (ValidatorVerifier.wf_index v Hwf). split; [done|]. fold infos. by rewrite Hi.
    + intros (a & Ha & Hi). apply Hidx in Hi as (_ & info & Hi & <-).
      assert (info ∈ ValidatorVerifier.selected masks 0 infos) as Hin.
      { apply Hsel. split; [by eapply list_elem_of_lookup_2|done]. }
      apply ValidatorVerifier.elem_of_selected in Hin as (j & Hj & Hs); [|apply Hwf|done].
      rewrite Z.add_0_l in Hs. replace q with (Z.of_nat j); [done|].
      assert (Z.to_nat q = j) as <-; [|lia].
      apply (NoDup_lookup (ValidatorConsensusInfo.address <$> infos) _ _ (ValidatorConsensusInfo.address info));
        [apply Hwf|..]; rewrite list_lookup_fmap, ?Hi, ?Hj; done.
  - intros [q r] info Hq _ [_ Hi]. cbn [fst snd] in *. rewrite Z.sub_0_r in Hi.
    apply Hm in Hq as (a & s & Ha & Hai). apply Hidx in Hai as (_ & info' & Hi' & <-).
    rewrite Hi in Hi'. injection Hi' as <-. by exists s.
Qed.
End facts.

(** ** Collecting the timeouts of a round *)
Section collecting.
Context `{CryptoTypes} `{!BlsAggregate}.

(** A received timeout: author, timeout and signature. *)
Abbreviation received := (AccountAddress * TwoChainTimeout.t * Signature)%type.

Definition add_all (self : TwoChainTimeoutWithPartialSignatures.t) (l : list received) :=
  foldl (fun self '(author, timeout, signature) =>
           TwoChainTimeoutWithPartialSignatures.add self author timeout signature) self l.

Lemma add_all_spec t0 (l : list received) : NoDup l.*1.*1 ->
  let self := add_all (TwoChainTimeoutWithPartialSignatures.new t0) l in
  let entries := PartialSignaturesWithRound.signatures
    (TwoChainTimeoutWithPartialSignatures.signatures self) in
  BTreeMap.ordered entries /\
  (forall a r s, (a, (r, s)) ∈ entries <->
     exists t, (a, t, s) ∈ l /\ TwoChainTimeout.hqc_round t = r) /\
  (TwoChainTimeoutWithPartialSignatures.timeout self = t0 \/
   TwoChainTimeoutWithPartialSignatures.timeout self ∈ l.*1.*2) /\
  TwoChainTimeout.hqc_round t0 <= TwoChainTimeoutWithPartialSignatures.highest_hqc_round self /\
  forall a t s, (a, t, s) ∈ l ->
    TwoChainTimeout.hqc_round t <= TwoChainTimeoutWithPartialSignatures.highest_hqc_round self.
Proof using Type.
  induction l as [|[[a t] s] l IH] using rev_ind; intros Hnd; cbn zeta.
  { cbn. split_and!; [constructor| |by left|unfold TwoChainTimeoutWithPartialSignatures.highest_hqc_round; cbn; lia|].
    - intros a r s. split; [by intros ?%elem_of_nil|by intros (? & ?%elem_of_nil & _)].
    - by intros a t s ?%elem_of_nil. }
  rewrite !fmap_app in Hnd. apply NoDup_app in Hnd as (Hnd & Hdis & _).
  destruct (IH Hnd) as (Ho & Hin & Ht & Hge0 & Hge). unfold add_all in *. rewrite foldl_app. cbn [foldl].
  set (self := foldl _ _ l) in *.
  unfold TwoChainTimeoutWithPartialSignatures.add, TwoChainTimeoutWithPartialSignatures.highest_hqc_round in *.
  cbn [TwoChainTimeoutWithPartialSignatures.timeout TwoChainTimeoutWithPartialSignatures.signatures
    PartialSignaturesWithRound.add_signature PartialSignaturesWithRound.signatures].
  set (entries := PartialSignaturesWithRound.signatures _) in *.
  split_and!; [auto| | | |].
  - intros a' r' s'. rewrite <-BTreeMap.get_elem_of, BTreeMap.get_or_insert by auto.
    assert (BTreeMap.get entries a = None) as Hnone.
    { apply BTreeMap.get_None. intros Ha. apply list_elem_of_fmap in Ha as ([a1 [r1 s1]] & -> & Ha).
      apply Hin in Ha as (t1 & Ha & _). apply (Hdis a1); [|set_solver].
      apply list_elem_of_fmap. exists (a1, t1). split; [done|]. apply list_elem_of_fmap. by exists (a1, t1, s1). }
    destruct (BTreeMap.get entries a') as [[r1 s1]|] eqn:Ea.
    + rewrite <-Ea, BTreeMap.get_elem_of, Hin by done. split; intros (t1 & Ht1 & <-); exists t1.
      * set_solver.
      * split; [|done]. apply elem_of_app in Ht1 as [|Ht1]; [done|].
        apply list_elem_of_singleton in Ht1. injection Ht1 as -> -> ->. congruence.
    + destruct (Z.eqb_spec a' a) as [->|Hne].
      * split; [intros [= <- <-]; exists t; set_solver|]. intros (t1 & Ht1 & <-).
        apply elem_of_app in Ht1 as [Ht1|Ht1]; [|apply list_elem_of_singleton in Ht1; congruence].
        assert ((a, (TwoChainTimeout.hqc_round t1, s')) ∈ entries) as Hx by (apply Hin; by exists t1).
        apply BTreeMap.get_elem_of in Hx; [congruence|done].
      * split; [done|]. intros (t1 & Ht1 & <-).
        apply elem_of_app in Ht1 as [Ht1|Ht1]; [|apply list_elem_of_singleton in Ht1; congruence].
        assert ((a', (TwoChainTimeout.hqc_round t1, s')) ∈ entries) as Hx by (apply Hin; by exists t1).
        apply BTreeMap.get_elem_of in Hx; [congruence|done].
  - rewrite !fmap_app. case_match; [right; set_solver|]. destruct Ht; [by left|right; set_solver].
  - case_match; zbool; lia.
  - intros a1 t1 s1. rewrite elem_of_app, list_elem_of_singleton. intros [Hl|[= -> -> ->]].
    + apply Hge in Hl. case_match; zbool; lia.
    + case_match; zbool; lia.
Qed.

Lemma entries_authors (entries : list (AccountAddress * (Z * Signature))) (l : list received) :
  (forall a r s, (a, (r, s)) ∈ entries <->
     exists t, (a, t, s) ∈ l /\ TwoChainTimeout.hqc_round t = r) ->
  forall a, a ∈ entries.*1 <-> a ∈ l.*1.*1.
Proof using Type.
  intros Hin a. rewrite !list_elem_of_fmap. setoid_rewrite list_elem_of_fmap. split.
  - intros ([a' [r s]] & -> & Ha). apply Hin in Ha as (t & Ha & _). exists (a', t).
    split; [done|]. by exists (a', t, s).
  - intros ([a' t'] & -> & [[a2 t] s] & [= -> ->] & Ha). exists (a2, (TwoChainTimeout.hqc_round t, s)).
    split; [done|]. apply Hin. by exists t.
Qed.
End collecting.

(** ** Aggregating them *)
Section aggregating.
Context `{CryptoTypes} `{!BlsAggregate} `{!Bls TimeoutSigningRepr.t}.
Import ValidatorConsensusInfo.

(** The validators that made valid signatures, one for each entry. *)
Lemma valid_entries v (repr : Z -> TimeoutSigningRepr.t) (entries : list (AccountAddress * (Z * Signature))) :
  ValidatorVerifier.well_formed v ->
  Forall (fun '(a, (r, s)) => ValidatorVerifier.verify v a (repr r) s = Ok tt) entries ->
  exists infos, Forall2 (fun '(a, (r, s)) info =>
    info ∈ ValidatorVerifier.validator_infos v /\ address info = a /\
    verify_struct_signature (public_key info) (repr r) s = true) entries infos.
Proof using Type.
  intros Hwf. induction 1 as [|[a [r s]] entries Ha _ (infos & Hi)]; [by exists []|].
  destruct (ValidatorVerifier.valid_signers v (repr r) [(a, s)] Hwf) as (signed & Hin & Had & Hver).
  { by constructor. }
  destruct signed as [|info [|]]; [done| |done]. injection Had as Ea.
  exists (info :: infos). constructor; [|done]. rewrite Forall_singleton in Hin. split_and!; [done..|].
  by apply Forall2_cons in Hver as [? _].
Qed.

Lemma address_inj v info info' : ValidatorVerifier.well_formed v ->
  info ∈ ValidatorVerifier.validator_infos v -> info' ∈ ValidatorVerifier.validator_infos v ->
  address info = address info' -> info = info'.
Proof using Type.
  intros Hwf Hi Hi' E. apply list_elem_of_lookup_1 in Hi as [i Hi], Hi' as [j Hj].
  assert (i = j) as ->; [|congruence].
  apply (NoDup_lookup (address <$> ValidatorVerifier.validator_infos v) i j (address info));
    [apply Hwf|..]; rewrite list_lookup_fmap, ?Hi, ?Hj; cbn; congruence.
Qed.

(** The signed messages, in the order of the bit mask, are those of the entries. *)
Lemma signed_permutation v (repr : Z -> TimeoutSigningRepr.t) entries infos voters rounds :
  ValidatorVerifier.well_formed v -> NoDup entries.*1 -> NoDup (address <$> voters) ->
  (forall info, info ∈ voters <-> info ∈ ValidatorVerifier.validator_infos v /\ address info ∈ entries.*1) ->
  Forall2 (fun '(a, (r, s)) info =>
    info ∈ ValidatorVerifier.validator_infos v /\ address info = a /\
    verify_struct_signature (public_key info) (repr r) s = true) entries infos ->
  Forall2 (fun r info => exists s, (address info, (r, s)) ∈ entries) rounds voters ->
  zip voters rounds ≡ₚ zip infos ((fun e => e.2.1) <$> entries).
Proof using Type.
  intros Hwf Hnd Hndv Hsel Hval Hr. pose proof (Forall2_length _ _ _ Hr) as Hl1.
  pose proof (Forall2_length _ _ _ Hval) as Hl2.
  assert (address <$> infos = entries.*1) as Ead.
  { clear -Hval. induction Hval as [|[a [r s]] info entries infos (_ & <- & _) _ IH]; [done|].
    by rewrite !fmap_cons, IH. }
  assert (forall infos' rs, length infos' = length rs -> NoDup (address <$> infos') ->
    NoDup (zip infos' rs : list (_ * Z))) as Hz.
  { intros infos' rs El Hn. apply (NoDup_fmap_1 (address ∘ fst)). rewrite list_fmap_compose, fst_zip by lia. done. }
  apply NoDup_Permutation; [apply Hz; [lia|done]|apply Hz; [by rewrite length_fmap|by rewrite Ead]|].
  assert (forall info r, (info, r) ∈ zip infos ((fun e => e.2.1) <$> entries) <->
    info ∈ ValidatorVerifier.validator_infos v /\ exists s, (address info, (r, s)) ∈ entries) as Hq.
  { clear -Hval Hwf. intros info r. rewrite list_elem_of_lookup. setoid_rewrite lookup_zip_Some.
    setoid_rewrite list_lookup_fmap. split.
    - intros (i & Hi & He). apply fmap_Some in He as ([a [r' s]] & He & ->).
      destruct (Forall2_lookup_lr _ _ _ _ _ _ Hval He Hi) as (? & <- & _). split; [done|].
      exists s. by eapply list_elem_of_lookup_2.
    - intros (Hin & s & He). apply list_elem_of_lookup_1 in He as [i He]. exists i.
      destruct (Forall2_lookup_l _ _ _ _ _ Hval He) as (info' & Hi' & Hin' & Ea & _).
      rewrite (address_inj v info info' Hwf) by done. split; [done|]. by rewrite He. }
  intros [info r]. rewrite Hq. rewrite list_elem_of_lookup. setoid_rewrite lookup_zip_Some. split.
  - intros (i & Hi & Hri). destruct (Forall2_lookup_lr _ _ _ _ _ _ Hr Hri Hi) as [s Hs].
    split; [|by exists s]. apply Hsel. by eapply list_elem_of_lookup_2.
  - intros (Hin & s & Hs). assert (info ∈ voters) as Hv.
    { apply Hsel. split; [done|]. apply list_elem_of_fmap. by exists (address info, (r, s)). }
    apply list_elem_of_lookup_1 in Hv as [i Hi]. exists i. split; [done|].
    destruct (Forall2_lookup_r _ _ _ _ _ Hr Hi) as (r' & Hr' & s' & Hs'). rewrite Hr'. f_equal.
    apply list_elem_of_lookup_1 in Hs as [j Hj], Hs' as [j' Hj'].
    assert (j = j') as ->; [|congruence].
    apply (NoDup_lookup entries.*1 j j' (address info)); [done|..]; by rewrite list_lookup_fmap, ?Hj, ?Hj'.
Qed.

Lemma num_voters_signers v masks sig voters : BitVec.well_formed masks ->
  ValidatorVerifier.signers v masks = Ok voters ->
  AggregateSignature.get_num_voters (AggregateSignature.new masks sig) = Z.of_nat (length voters).
Proof using Type.
  intros Hw Hs. unfold AggregateSignature.get_num_voters. cbn [AggregateSignature.validator_bitmask].
  rewrite (collect_length _ _ _ Hs), BitVec.iter_ones_all by done. destruct masks as [bytes], Hw.
  by apply BitVec.count_ones_all.
Qed.

(** The keys and messages of the signers, from the list of signers and rounds. *)
Lemma signed_zip (repr : Z -> TimeoutSigningRepr.t) (voters : list ValidatorConsensusInfo.t) (rounds : list Z) :
  length rounds = length voters ->
  let signed := (fun p => (public_key p.1, repr p.2)) <$> zip voters rounds in
  signed.*1 = public_key <$> voters /\
  signed.*2 = (fun '(_, r) => repr r) <$> zip (address <$> voters) rounds.
Proof using Type.
  intros El signed. subst signed. revert rounds El. induction voters as [|x voters IH]; intros [|r rounds] El;
    [done..|]. injection El as El. cbn [zip zip_with]. rewrite !fmap_cons. cbn [zip_with].
  rewrite !fmap_cons. destruct (IH rounds El) as [E1 E2]. unfold zip in *. by rewrite E1, E2.
Qed.

Lemma aggregate_entries v (repr : Z -> TimeoutSigningRepr.t) entries :
  aggregate_signatures_correct TimeoutSigningRepr.t ->
  ValidatorVerifier.well_formed v -> 0 < ValidatorVerifier.quorum_voting_power v ->
  BTreeMap.ordered entries ->
  Forall (fun '(a, (r, s)) => ValidatorVerifier.verify v a (repr r) s = Ok tt) entries ->
  ValidatorVerifier.check_voting_power v entries.*1 true = Ok tt ->
  exists partial rounds agg,
    PartialSignaturesWithRound.get_partial_sig_with_rounds (PartialSignaturesWithRound.new entries)
      (ValidatorVerifier.address_to_validator_index v) = (partial, rounds) /\
    ValidatorVerifier.aggregate_signatures v partial = Ok agg /\
    AggregateSignature.get_num_voters agg = Z.of_nat (length rounds) /\
    ValidatorVerifier.verify_aggregate_signatures v
      ((fun '(_, r) => repr r) <$>
       zip (AggregateSignature.get_signers_addresses agg
              (ValidatorVerifier.get_ordered_account_addresses v)) rounds) agg = Ok tt /\
    rounds <> [] /\ forall r, r ∈ rounds <-> exists a s, (a, (r, s)) ∈ entries.
Proof.
  intros Hbls Hwf Hq Ho Hval Hpow. pose proof (BTreeMap.ordered_NoDup _ Ho) as Hnd.
  pose proof Hpow as Hpow'. apply ValidatorVerifier.check_voting_power_iff in Hpow as [Hk Hpw]; [|done..].
  destruct (collect_entries v entries Hwf Ho Hk) as (m & Ec & Hm & Hin).
  set (sigs := (fun e => (e.1, e.2.2)) <$> entries) in *.
  assert (sigs.*1 = entries.*1) as Es by (unfold sigs; by rewrite <-list_fmap_compose).
  destruct (ValidatorVerifier.aggregate_marks v sigs Hwf) as (masks & Em & Hmw & Hnum & Hsig & Hsel);
    [by rewrite Es|]. rewrite Es in Hsel.
  set (voters := ValidatorVerifier.selected masks 0 (ValidatorVerifier.validator_infos v)) in *.
  assert (forall q, ValidatorVerifier.len v <= q -> BitVec.is_set masks q = false) as Hout.
  { pose proof (ValidatorVerifier.wf_len v Hwf). assert (0 <= ValidatorVerifier.len v)
      by (unfold ValidatorVerifier.len; lia). rewrite Z.mod_small in Hnum by lia.
    by eapply ValidatorVerifier.check_num_of_voters_iff. }
  pose proof (rounds_of_voters v entries masks m Hwf Hm Hin Hout Hsel) as Hr. fold voters in Hr.
  assert (NoDup (address <$> voters)) as Hnv by (apply ValidatorVerifier.selected_NoDup, Hwf).
  destruct (valid_entries v repr entries Hwf Hval) as (infos & Hinf).
  pose proof (signed_permutation v repr entries infos voters m.*2 Hwf Hnd Hnv Hsel Hinf Hr) as Hperm.
  pose proof (Forall2_length _ _ _ Hr) as Hl1. pose proof (Forall2_length _ _ _ Hinf) as Hl2.
  destruct (Hbls ((fun p => (public_key p.1, repr p.2)) <$> zip infos ((fun e => e.2.1) <$> entries))
    ((fun p => (public_key p.1, repr p.2)) <$> zip voters m.*2) sigs.*2) as (sig & Eagg & Hver).
  { intros E. apply fmap_nil_inv in E. destruct infos, entries; [|done..].
    cbn in Hpw. unfold ValidatorVerifier.power_of in Hpw. cbn in Hpw. lia. }
  { clear -Hinf. unfold sigs. rewrite Forall2_fmap_l. induction Hinf as [|[a [r s]] info entries infos (_ & _ & Hv) _ IH];
      [constructor|]. rewrite !fmap_cons. by constructor. }
  { by rewrite Hperm. }
  exists (PartialSignatures.new sigs), m.*2, (AggregateSignature.new masks (Some sig)).
  unfold PartialSignaturesWithRound.get_partial_sig_with_rounds.
  cbn [PartialSignaturesWithRound.signatures]. rewrite Ec.
  unfold ValidatorVerifier.aggregate_signatures. cbn [PartialSignatures.signatures].
  rewrite Em. mstep. rewrite Eagg. cbn [ok_or]. mstep.
  split_and!; [done|done| | | |].
  - rewrite Hl1. by eapply num_voters_signers.
  - unfold ValidatorVerifier.verify_aggregate_signatures, AggregateSignature.get_signers_addresses,
      ValidatorVerifier.get_ordered_account_addresses.
    cbn [AggregateSignature.validator_bitmask AggregateSignature.sig].
    pose proof (ValidatorVerifier.wf_len v Hwf). unfold ValidatorVerifier.len in *.
    rewrite ValidatorVerifier.signers_from_selected by lia. fold voters.
    unfold ValidatorVerifier.len. rewrite Hnum. mstep. rewrite Hsig. mstep.
    destruct (signed_zip repr voters m.*2 Hl1) as [E1 E2]. rewrite E1, E2 in Hver.
    rewrite (ValidatorVerifier.selected_quorum v entries.*1 voters) by done. mstep. cbn [ok_or]. mstep.
    by rewrite Hver.
  - intros E. rewrite E in Hl1. destruct entries as [|[a [r s]] entries].
    + cbn in Hpw. unfold ValidatorVerifier.power_of in Hpw. cbn in Hpw. lia.
    + pose proof (Hk a ltac:(set_solver)) as Hi. apply list_elem_of_fmap in Hi as (info & -> & Hi).
      assert (info ∈ voters) as Hv by (apply Hsel; set_solver). destruct voters; [by apply elem_of_nil in Hv|done].
  - intros r. rewrite list_elem_of_fmap. split.
    + intros ([q r'] & -> & Hqr). apply Hin in Hqr as (a & s & Ha & _). by exists a, s.
    + intros (a & s & Ha). destruct (index_known v a Hwf) as [i Hi].
      { apply Hk, list_elem_of_fmap. by exists (a, (r, s)). }
      exists (i, r). split; [done|]. apply Hin. by exists a, s.
Qed.
End aggregating.

(** ** Properties *)

Lemma iter_max_spec (l : list Z) m : iter_max l = Some m -> m ∈ l /\ forall r, r ∈ l -> r <= m.
Proof.
  destruct l as [|x l]; [done|]. cbn [iter_max]. intros [= <-]. revert x.
  induction l as [|y l IH]; intros x; cbn [foldl]; [set_solver by lia|].
  destruct (IH (Z.max x y)) as [Hin Hle]. split.
  - rewrite !elem_of_cons in *. destruct Hin as [Hin|Hin]; [|auto]. lia.
  - intros r Hr. rewrite !elem_of_cons in Hr. pose proof (Hle (Z.max x y) ltac:(set_solver)).
    destruct Hr as [->|[->|Hr]]; [lia..|]. apply Hle. set_solver.
Qed.

(** What a verified timeout certificate is. *)
Lemma verified_timeouts `{CryptoTypes} `{!CryptoHash VoteData.t} `{!BlsAggregate}
    `{!Bls LedgerInfo.t} `{!Bls TimeoutSigningRepr.t}
    (tc : TwoChainTimeoutCertificate.t) (v : ValidatorVerifier.t) :
  let agg := AggregateSignatureWithRounds.sig (TwoChainTimeoutCertificate.signatures_with_rounds tc) in
  let messages := TwoChainTimeoutCertificate.timeout_messages tc v in
  ValidatorVerifier.well_formed v -> BitVec.well_formed (AggregateSignature.validator_bitmask agg) ->
  TwoChainTimeoutCertificate.verify tc v = Ok tt ->
  exists voters sig,
    voters `sublist_of` ValidatorVerifier.validator_infos v /\
    NoDup (ValidatorConsensusInfo.address <$> voters) /\
    ValidatorConsensusInfo.address <$> voters =
      AggregateSignature.get_signers_addresses agg (ValidatorVerifier.get_ordered_account_addresses v) /\
    ValidatorVerifier.quorum_voting_power v <=
      ValidatorVerifier.power_of (ValidatorVerifier.validator_infos v)
        (ValidatorConsensusInfo.address <$> voters) /\
    AggregateSignature.sig agg = Some sig /\
    verify_aggregate sig messages (ValidatorConsensusInfo.public_key <$> voters) = true /\
    (forall m, m ∈ messages ->
       TimeoutSigningRepr.epoch m = TwoChainTimeoutCertificate.epoch tc /\
       TimeoutSigningRepr.round m = TwoChainTimeoutCertificate.round tc /\
       TimeoutSigningRepr.hqc_round m <= TwoChainTimeoutCertificate.highest_hqc_round tc) /\
    TwoChainTimeoutCertificate.highest_hqc_round tc < TwoChainTimeoutCertificate.round tc /\
    QuorumCert.verify (TwoChainTimeout.quorum_cert (TwoChainTimeoutCertificate.timeout tc)) v = Ok tt.
Proof.
  intros agg messages Hwf Hbv Hok. unfold TwoChainTimeoutCertificate.verify in Hok.
  apply bind_Ok in Hok as ([] & Ht & Hok). apply bind_Ok in Hok as ([] & Hagg & Hok).
  unfold map_err in Hagg. destruct (ValidatorVerifier.verify_aggregate_signatures _ _ _) as [[]| |] eqn:Ea;
    [|done..].
  apply bind_Ok in Hok as (m & Hm & Hok). apply ensure_Ok, Z.eqb_eq in Hok.
  unfold expect in Hm. destruct (iter_max _) eqn:Em; [|done]. injection Hm as ->.
  apply iter_max_spec in Em as [_ Hmax].
  destruct (ValidatorVerifier.aggregate_signature_voters v _ _ Hwf Hbv Ea) as (voters & sig & ? & ? & ? & ? & ? & ?).
  apply bind_Ok in Ht as ([] & Hlt & Hqc). apply ensure_Ok, Z.ltb_lt in Hlt.
  exists voters, sig. split_and!; try done.
  intros r Hr. unfold messages, TwoChainTimeoutCertificate.timeout_messages in Hr.
  apply list_elem_of_fmap in Hr as ([a r'] & -> & Hr). split_and!; [done..|]. cbn.
  unfold TwoChainTimeoutCertificate.highest_hqc_round. rewrite Hok. apply Hmax.
  unfold AggregateSignatureWithRounds.get_voters_and_rounds in Hr. by apply elem_of_zip_r in Hr.
Qed.

(** C27: a verified timeout certificate carries the signatures of a quorum of
    validators, each on a timeout of the certificate's epoch and round; the
    highest certified round it claims is at least every round they signed, and
    below the round of the timeout. *)
Theorem timeout_certificate_sound `{CryptoTypes} `{!CryptoHash VoteData.t} `{!BlsAggregate}
    `{!Bls LedgerInfo.t} `{!Bls TimeoutSigningRepr.t}
    (tc : TwoChainTimeoutCertificate.t) (v : ValidatorVerifier.t) :
  let agg := AggregateSignatureWithRounds.sig (TwoChainTimeoutCertificate.signatures_with_rounds tc) in
  let messages := TwoChainTimeoutCertificate.timeout_messages tc v in
  ValidatorVerifier.well_formed v -> BitVec.well_formed (AggregateSignature.validator_bitmask agg) ->
  TwoChainTimeoutCertificate.verify tc v = Ok tt ->
  exists voters sig,
    voters `sublist_of` ValidatorVerifier.validator_infos v /\
    NoDup (ValidatorConsensusInfo.address <$> voters) /\
    ValidatorVerifier.quorum_voting_power v <=
      ValidatorVerifier.power_of (ValidatorVerifier.validator_infos v)
        (ValidatorConsensusInfo.address <$> voters) /\
    AggregateSignature.sig agg = Some sig /\
    verify_aggregate sig messages (ValidatorConsensusInfo.public_key <$> voters) = true /\
    (forall m, m ∈ messages ->
       TimeoutSigningRepr.epoch m = TwoChainTimeoutCertificate.epoch tc /\
       TimeoutSigningRepr.round m = TwoChainTimeoutCertificate.round tc /\
       TimeoutSigningRepr.hqc_round m <= TwoChainTimeoutCertificate.highest_hqc_round tc) /\
    TwoChainTimeoutCertificate.highest_hqc_round tc < TwoChainTimeoutCertificate.round tc /\
    QuorumCert.verify (TwoChainTimeout.quorum_cert (TwoChainTimeoutCertificate.timeout tc)) v = Ok tt.
Proof.
  intros agg messages Hwf Hbv Hok.
  destruct (verified_timeouts tc v Hwf Hbv Hok) as (voters & sig & ? & ? & _ & ?). by exists voters, sig.
Qed.

Lemma timeouts_aggregate `{CryptoTypes} `{!CryptoHash VoteData.t} `{!BlsAggregate}
    `{!Bls LedgerInfo.t} `{!Bls TimeoutSigningRepr.t} (v : ValidatorVerifier.t)
    (a0 : AccountAddress) (t0 : TwoChainTimeout.t) (s0 : Signature)
    (l : list (AccountAddress * TwoChainTimeout.t * Signature)) :
  let received := (a0, t0, s0) :: l in
  aggregate_signatures_correct TimeoutSigningRepr.t ->
  ValidatorVerifier.well_formed v -> 0 < ValidatorVerifier.quorum_voting_power v ->
  NoDup received.*1.*1 ->
  Forall (fun '(a, t, s) =>
    TwoChainTimeout.epoch t = TwoChainTimeout.epoch t0 /\
    TwoChainTimeout.round t = TwoChainTimeout.round t0 /\
    TwoChainTimeout.verify t v = Ok tt /\
    ValidatorVerifier.verify v a (TwoChainTimeout.signing_format t) s = Ok tt) received ->
  ValidatorVerifier.check_voting_power v received.*1.*1 true = Ok tt ->
  exists tc,
    TwoChainTimeoutWithPartialSignatures.aggregate_signatures
      (add_all (TwoChainTimeoutWithPartialSignatures.new t0) received) v = Ok tc /\
    TwoChainTimeoutCertificate.verify tc v = Ok tt /\
    TwoChainTimeoutCertificate.round tc = TwoChainTimeout.round t0 /\
    TwoChainTimeoutCertificate.timeout tc ∈ received.*1.*2 /\
    forall a t s, (a, t, s) ∈ received ->
      TwoChainTimeout.hqc_round t <= TwoChainTimeoutCertificate.highest_hqc_round tc.
Proof.
  intros received Hbls Hwf Hq Hnd Hval Hpow. rewrite Forall_forall in Hval.
  destruct (add_all_spec t0 received Hnd) as (Ho & Hin & Ht & _ & Hge).
  set (self := add_all _ received) in *. unfold TwoChainTimeoutWithPartialSignatures.aggregate_signatures.
  destruct (TwoChainTimeoutWithPartialSignatures.signatures self) as [entries].
  cbn [PartialSignaturesWithRound.signatures] in Ho, Hin.
  set (timeout := TwoChainTimeoutWithPartialSignatures.timeout self) in *.
  unfold TwoChainTimeoutWithPartialSignatures.highest_hqc_round in Hge. fold timeout in Hge.
  assert (exists a s, (a, timeout, s) ∈ received) as (a1 & s1 & H1).
  { destruct Ht as [->|Ht]; [exists a0, s0; by left|]. apply list_elem_of_fmap in Ht as ([a1 t1] & E & Ht).
    apply list_elem_of_fmap in Ht as ([[a2 t2] s2] & E2 & Ht). injection E2 as <- <-. exists a1, s2.
    by rewrite E. }
  pose proof (Hval _ H1) as (He1 & Hr1 & Hv1 & _).
  pose (repr := TimeoutSigningRepr.mk (TwoChainTimeout.epoch timeout) (TwoChainTimeout.round timeout)).
  destruct (aggregate_entries v repr entries Hbls Hwf Hq Ho) as (partial & rounds & agg & Ep & Ea & En & Ev & Hne & Hrs).
  { apply Forall_forall. intros [a [r s]] Ha. apply Hin in Ha as (t & Ha & <-).
    pose proof (Hval _ Ha) as (He & Hr & _ & Hs). unfold TwoChainTimeout.signing_format in Hs.
    unfold repr. rewrite He1, Hr1, <-He, <-Hr. done. }
  { apply (ValidatorVerifier.check_voting_power_ext v _ received.*1.*1); [done| |done| |done].
    - by apply BTreeMap.ordered_NoDup.
    - by apply entries_authors. }
  rewrite Ep, Ea. mstep. unfold AggregateSignatureWithRounds.new.
  rewrite assert_true by (by apply Z.eqb_eq). mstep. eexists. split; [done|].
  unfold TwoChainTimeoutCertificate.verify, TwoChainTimeoutCertificate.timeout_messages,
    TwoChainTimeoutCertificate.highest_hqc_round, TwoChainTimeoutCertificate.round,
    TwoChainTimeoutCertificate.epoch, AggregateSignatureWithRounds.get_voters_and_rounds.
  cbn [TwoChainTimeoutCertificate.timeout TwoChainTimeoutCertificate.signatures_with_rounds
    AggregateSignatureWithRounds.sig AggregateSignatureWithRounds.rounds].
  rewrite Hv1. mstep. fold repr. rewrite Ev. cbn [map_err]. mstep. split_and!; [|done| |done].
  - destruct (iter_max rounds) as [m|] eqn:Em; [|by destruct rounds]. cbn [expect]. mstep.
    apply iter_max_spec in Em as [Hm Hmax]. apply ensure_true, Z.eqb_eq.
    apply Hrs in Hm as (a & s & Hm). apply Hin in Hm as (t & Hm & <-). apply Z.le_antisymm; [|by eapply Hge].
    apply Hmax, Hrs. exists a1, s1. apply Hin. by exists timeout.
  - apply list_elem_of_fmap. exists (a1, timeout). split; [done|]. apply list_elem_of_fmap. by exists (a1, timeout, s1).
Qed.

(** C28: the timeouts of a round, received from a quorum of validators with valid
    certificates and signatures, are aggregated to a timeout certificate that
    every validator accepts, with the highest certified round among them. *)
Theorem timeout_certificate_verifies `{CryptoTypes} `{!CryptoHash VoteData.t} `{!BlsAggregate}
    `{!Bls LedgerInfo.t} `{!Bls TimeoutSigningRepr.t} (v : ValidatorVerifier.t)
    (a0 : AccountAddress) (t0 : TwoChainTimeout.t) (s0 : Signature)
    (l : list (AccountAddress * TwoChainTimeout.t * Signature)) :
  let received := (a0, t0, s0) :: l in
  aggregate_signatures_correct TimeoutSigningRepr.t ->
  ValidatorVerifier.well_formed v -> 0 < ValidatorVerifier.quorum_voting_power v ->
  NoDup received.*1.*1 ->
  Forall (fun '(a, t, s) =>
    TwoChainTimeout.epoch t = TwoChainTimeout.epoch t0 /\
    TwoChainTimeout.round t = TwoChainTimeout.round t0 /\
    TwoChainTimeout.verify t v = Ok tt /\
    ValidatorVerifier.verify v a (TwoChainTimeout.signing_format t) s = Ok tt) received ->
  ValidatorVerifier.check_voting_power v received.*1.*1 true = Ok tt ->
  exists tc,
    TwoChainTimeoutWithPartialSignatures.aggregate_signatures
      (add_all (TwoChainTimeoutWithPartialSignatures.new t0) received) v = Ok tc /\
    TwoChainTimeoutCertificate.verify tc v = Ok tt /\
    TwoChainTimeoutCertificate.round tc = TwoChainTimeout.round t0 /\
    TwoChainTimeoutCertificate.timeout tc ∈ received.*1.*2 /\
    forall a t s, (a, t, s) ∈ received ->
      TwoChainTimeout.hqc_round t <= TwoChainTimeoutCertificate.highest_hqc_round tc.
Proof. apply timeouts_aggregate. Qed.

(** ** An example: three of four validators time out in round 5 *)
Section example.
#[local] Instance example_vote_data_hash : @CryptoHash free_crypto VoteData.t :=
  fun vote_data => Leaf (BlockInfo.round (VoteData.proposed vote_data)).

Definition v4 : ValidatorVerifier.t :=
  ValidatorVerifier.build_index ValidatorVerifier.four_validators
    (ValidatorVerifier.quorum ValidatorVerifier.four_validators)
    (ValidatorVerifier.total ValidatorVerifier.four_validators).

Lemma v4_well_formed : ValidatorVerifier.well_formed v4.
Proof.
  apply ValidatorVerifier.build_index_well_formed; [by apply (bool_decide_unpack _)| |done].
  repeat constructor; unfold in_u64; cbn; lia.
Qed.

Definition genesis_info : @BlockInfo.t free_crypto := BlockInfo.new 1 0 (Leaf 7) (Leaf 8) 0 0 None.

Definition genesis_qc : @QuorumCert.t free_crypto :=
  let vote_data := VoteData.new genesis_info genesis_info in
  QuorumCert.new vote_data
    (LedgerInfoWithSignatures.new (LedgerInfo.new genesis_info (hash vote_data)) AggregateSignature.empty).

Definition timeout5 : @TwoChainTimeout.t free_crypto := TwoChainTimeout.new 1 5 genesis_qc.

Definition timeouts5 : list (AccountAddress * @TwoChainTimeout.t free_crypto * @Signature free_crypto) :=
  [(7, timeout5, 1); (3, timeout5, 2); (9, timeout5, 8)].

Lemma timeout_certificate_verifies_witness :
  exists tc, TwoChainTimeoutWithPartialSignatures.aggregate_signatures
      (add_all (TwoChainTimeoutWithPartialSignatures.new timeout5) timeouts5) v4 = Ok tc /\
    TwoChainTimeoutCertificate.verify tc v4 = Ok tt.
Proof.
  destruct (timeout_certificate_verifies v4 7 timeout5 (1 : @Signature free_crypto)
    [(3, timeout5, 2 : @Signature free_crypto); (9, timeout5, 8 : @Signature free_crypto)])
    as (tc & E & V & _).
  - apply ValidatorVerifier.free_aggregate_signatures.
  - exact v4_well_formed.
  - by vm_compute.
  - by apply (bool_decide_unpack _).
  - repeat constructor; by vm_compute.
  - by vm_compute.
  - exists tc. split; [exact E|exact V].
Defined.

Definition tc5 : @TwoChainTimeoutCertificate.t free_crypto :=
  TwoChainTimeoutCertificate.mk timeout5
    (AggregateSignatureWithRounds.mk
       (@AggregateSignature.new free_crypto (BitVec.mk [208]) (Some (11 : @Signature free_crypto))) [0; 0; 0]).

Lemma timeout_certificate_sound_witness :
  TwoChainTimeoutCertificate.highest_hqc_round tc5 < TwoChainTimeoutCertificate.round tc5.
Proof.
  destruct (timeout_certificate_sound tc5 v4) as (_ & _ & _ & _ & _ & _ & _ & _ & H & _).
  - exact v4_well_formed.
  - split; [repeat constructor; unfold BitVec.is_byte; lia|by vm_compute].
  - by vm_compute.
  - exact H.
Defined.
End example.
