(* ===== verification/ConsensusBlock.v ===== *)
(** * Blocks, votes and proposals

    Model of [types/src/validator_signer.rs] and, from
    [consensus/consensus-types/src], of [proof_of_store.rs], the payload of
    [common.rs], [block_data.rs], [block.rs], [vote.rs] and [vote_proposal.rs].
    User transactions are carried only: their type is a parameter.  The theorems
    show which blocks are well formed and that what a correct proposer builds is. *)

From S2P Require Import Prelude Collections Merkle InMemoryAccumulator BitVec ValidatorVerifier LedgerInfo.
From S2P Require Import AccumulatorProofs QuorumCert Timeout2Chain.

(** Private keys, and the signatures they make on messages of type [M]. *)
Class PrivateKeys `{CryptoTypes} := {
  PrivateKey : Type;
  public_key_of : PrivateKey -> PublicKey;
}.
Class BlsSign `{CryptoTypes} `{!PrivateKeys} (M : Type) :=
  sign_struct : PrivateKey -> M -> result Signature.

(** What consensus uses of [SignedTransaction] and [WriteSetPayload]. *)
Class Transactions := {
  SignedTransaction : Type;
  SignedTransaction_eq_dec :: EqDecision SignedTransaction;
  txn_sender : SignedTransaction -> AccountAddress;
  txn_sequence_number : SignedTransaction -> Z;
  raw_txn_bytes_len : SignedTransaction -> Z;
  WriteSetPayload : Type;
}.

Module ValidatorSigner.
Section definitions.
Context `{CryptoTypes} `{!PrivateKeys}.

Record t := new {
  author : AccountAddress;
  private_key : PrivateKey;
}.

Definition sign {M} `{!BlsSign M} (self : t) (message : M) : result Signature :=
  sign_struct (private_key self) message.

Definition public_key (self : t) : PublicKey := public_key_of (private_key self).
End definitions.
End ValidatorSigner.

Module BatchId.
Record t := mk { id : Z; nonce : Z }.

#[global] Instance t_eq_dec : EqDecision t.
Proof. solve_decision. Defined.

Definition new (nonce : Z) : t := mk 0 nonce.

Definition increment {E} (self : t) : outcome E t :=
  id ← u64_add (id self) 1; Ok (mk id (nonce self)).

Definition cmp (self other : t) : comparison :=
  match Z.compare (nonce self) (nonce other) with
  | Eq => Z.compare (id self) (id other)
  | ordering => ordering
  end.
End BatchId.

Module BatchInfo.
Section definitions.
Context `{CryptoTypes}.

Record t := new {
  author : AccountAddress;
  batch_id : BatchId.t;
  epoch : Z;
  expiration : Z;
  digest : HashValue;
  num_txns : Z;
  num_bytes : Z;
  gas_bucket_start : Z;
}.

#[global] Instance t_eq_dec : EqDecision t.
Proof. solve_decision. Defined.
End definitions.
End BatchInfo.

(** The loop [for x in l { f(x)? }]. *)
Fixpoint try_each {E A} (f : A -> outcome E unit) (l : list A) : outcome E unit :=
  match l with
  | [] => Ok tt
  | x :: l => f x;; try_each f l
  end.

Module SignedBatchInfo.
Section definitions.
Context `{CryptoTypes}.

Record t := mk {
  info : BatchInfo.t;
  signer : AccountAddress;
  signature : Signature;
}.

Definition new `{!PrivateKeys} `{!BlsSign BatchInfo.t} (batch_info : BatchInfo.t)
    (validator_signer : ValidatorSigner.t) : result t :=
  signature ← ValidatorSigner.sign validator_signer batch_info;
  Ok (mk batch_info (ValidatorSigner.author validator_signer) signature).

Definition verify `{!Bls BatchInfo.t} (self : t) (sender : AccountAddress)
    (validator : ValidatorVerifier.t) : result unit :=
  if sender =? signer self
  then map_err VerifyError_text
         (ValidatorVerifier.verify validator (signer self) (info self) (signature self))
  else Err "Sender mismatch signer".
End definitions.
End SignedBatchInfo.

Module SignedBatchInfoMsg.
Section definitions.
Context `{CryptoTypes} `{!Bls BatchInfo.t}.

Record t := new { signed_infos : list SignedBatchInfo.t }.

Definition verify (self : t) (sender : AccountAddress) (max_num_batches : Z)
    (validator : ValidatorVerifier.t) : result unit :=
  ensure (negb (Z.of_nat (length (signed_infos self)) =? 0)) "Empty message";;
  ensure (Z.of_nat (length (signed_infos self)) <=? max_num_batches) "Too many batches";;
  try_each (fun signed_info => SignedBatchInfo.verify signed_info sender validator) (signed_infos self).

Definition epoch (self : t) : result Z :=
  match signed_infos self with
  | [] => Err "Empty message"
  | first :: _ =>
      let epoch := BatchInfo.epoch (SignedBatchInfo.info first) in
      try_each (fun info => ensure (BatchInfo.epoch (SignedBatchInfo.info info) =? epoch) "Epoch mismatch")
        (signed_infos self);;
      Ok epoch
  end.
End definitions.
End SignedBatchInfoMsg.

Module ProofOfStore.
Section definitions.
Context `{CryptoTypes}.

Record t := new {
  info : BatchInfo.t;
  multi_signature : AggregateSignature.t;
}.

#[global] Instance t_eq_dec : EqDecision t.
Proof. solve_decision. Defined.

Definition verify `{!BlsAggregate} `{!Bls BatchInfo.t} (self : t) (validator : ValidatorVerifier.t) :
    result unit :=
  map_err (fun _ => "Failed to verify ProofOfStore")
    (ValidatorVerifier.verify_multi_signatures validator (info self) (multi_signature self)).
End definitions.
End ProofOfStore.

Module ProofOfStoreMsg.
Section definitions.
Context `{CryptoTypes} `{!BlsAggregate} `{!Bls BatchInfo.t}.

Record t := new { proofs : list ProofOfStore.t }.

Definition verify (self : t) (max_num_proofs : Z) (validator : ValidatorVerifier.t) : result unit :=
  ensure (negb (Z.of_nat (length (proofs self)) =? 0)) "Empty message";;
  ensure (Z.of_nat (length (proofs self)) <=? max_num_proofs) "Too many proofs";;
  try_each (fun proof => ProofOfStore.verify proof validator) (proofs self).

Definition epoch (self : t) : result Z :=
  match proofs self with
  | [] => Err "Empty message"
  | first :: _ =>
      let epoch := BatchInfo.epoch (ProofOfStore.info first) in
      try_each (fun proof => ensure (BatchInfo.epoch (ProofOfStore.info proof) =? epoch) "Epoch mismatch")
        (proofs self);;
      Ok epoch
  end.
End definitions.
End ProofOfStoreMsg.

(** [iter.sum::<usize>()], which panics when it overflows. *)
Fixpoint usize_sum {E} (sum : Z) (l : list Z) : outcome E Z :=
  match l with
  | [] => Ok sum
  | x :: l => sum ← u64_add sum x; usize_sum sum l
  end.

Module TransactionSummary.
Record t := new { sender : AccountAddress; sequence_number : Z }.

#[global] Instance t_eq_dec : EqDecision t.
Proof. solve_decision. Defined.
End TransactionSummary.

Module Payload.
Section definitions.
Context `{CryptoTypes} `{!Transactions}.

(** Of [ProofWithData] the proofs: the status of the data is not part of a block. *)
Inductive t :=
  | DirectMempool (txns : list SignedTransaction)
  | InQuorumStore (proofs : list ProofOfStore.t).

#[global] Instance t_eq_dec : EqDecision t.
Proof. solve_decision. Defined.

Definition empty (quorum_store_enabled : bool) : t :=
  if quorum_store_enabled then InQuorumStore [] else DirectMempool [].

Definition len {E} (self : t) : outcome E Z :=
  match self with
  | DirectMempool txns => Ok (Z.of_nat (length txns))
  | InQuorumStore proofs =>
      usize_sum 0 ((fun proof => BatchInfo.num_txns (ProofOfStore.info proof)) <$> proofs)
  end.

Definition is_empty (self : t) : bool :=
  match self with
  | DirectMempool txns => match txns with [] => true | _ => false end
  | InQuorumStore proofs => match proofs with [] => true | _ => false end
  end.

Definition is_direct (self : t) : bool :=
  match self with DirectMempool _ => true | _ => false end.

Definition size {E} (self : t) : outcome E Z :=
  match self with
  | DirectMempool txns => usize_sum 0 (raw_txn_bytes_len <$> txns)
  | InQuorumStore proofs =>
      usize_sum 0 ((fun proof => BatchInfo.num_bytes (ProofOfStore.info proof)) <$> proofs)
  end.

Definition verify `{!BlsAggregate} `{!Bls BatchInfo.t} (self : t) (validator : ValidatorVerifier.t)
    (quorum_store_enabled : bool) : result unit :=
  match quorum_store_enabled, self with
  | false, DirectMempool _ => Ok tt
  | true, InQuorumStore proofs => try_each (fun proof => ProofOfStore.verify proof validator) proofs
  | _, _ => Err "Wrong payload type. Expected Payload::InQuorumStore"
  end.
End definitions.
End Payload.

Module PayloadFilter.
Section definitions.
Context `{CryptoTypes} `{!Transactions}.

(** The [HashSet] as the list of its elements, without repetition. *)
Inductive t :=
  | DirectMempool (excluded_txns : list TransactionSummary.t)
  | InQuorumStore (excluded_proofs : list BatchInfo.t)
  | Empty.

Definition from_payloads (exclude_payloads : list Payload.t) : t :=
  match exclude_payloads with
  | [] => Empty
  | _ =>
      if existsb Payload.is_direct exclude_payloads then
        DirectMempool
          (mjoin ((fun payload =>
             match payload with
             | Payload.DirectMempool txns =>
                 (fun txn => TransactionSummary.new (txn_sender txn) (txn_sequence_number txn)) <$> txns
             | Payload.InQuorumStore _ => []
             end) <$> exclude_payloads))
      else
        InQuorumStore
          (remove_dups (mjoin ((fun payload =>
             match payload with
             | Payload.InQuorumStore proofs => ProofOfStore.info <$> proofs
             | Payload.DirectMempool _ => []
             end) <$> exclude_payloads)))
  end.
End definitions.
End PayloadFilter.

Module BlockData.
Section definitions.
Context `{CryptoTypes} `{!Transactions}.

Inductive BlockType :=
  | Proposal (payload : Payload.t) (author : AccountAddress)
      (failed_authors : list (Z * AccountAddress))
  | NilBlock (failed_authors : list (Z * AccountAddress))
  | Genesis.

Record t := mk {
  epoch : Z;
  round : Z;
  timestamp_usecs : Z;
  quorum_cert : QuorumCert.t;
  block_type : BlockType;
}.

#[global] Instance BlockType_eq_dec : EqDecision BlockType.
Proof. solve_decision. Defined.
#[global] Instance t_eq_dec : EqDecision t.
Proof. solve_decision. Defined.

Definition author (self : t) : option AccountAddress :=
  match block_type self with Proposal _ author _ => Some author | _ => None end.

Definition parent_id (self : t) : HashValue :=
  BlockInfo.id (QuorumCert.certified_block (quorum_cert self)).

Definition payload (self : t) : option Payload.t :=
  match block_type self with Proposal payload _ _ => Some payload | _ => None end.

Definition is_genesis_block (self : t) : bool :=
  match block_type self with Genesis => true | _ => false end.

Definition is_nil_block (self : t) : bool :=
  match block_type self with NilBlock _ => true | _ => false end.

Definition failed_authors (self : t) : option (list (Z * AccountAddress)) :=
  match block_type self with
  | Proposal _ _ failed_authors => Some failed_authors
  | NilBlock failed_authors => Some failed_authors
  | Genesis => None
  end.

Definition new_genesis (timestamp_usecs : Z) (quorum_cert : QuorumCert.t) : result t :=
  epoch ← u64_add (BlockInfo.epoch (QuorumCert.certified_block quorum_cert)) 1;
  Ok (mk epoch 0 timestamp_usecs quorum_cert Genesis).

Definition new_genesis_from_ledger_info (ledger_info : LedgerInfo.t) : result t :=
  assert (LedgerInfo.ends_epoch ledger_info);;
  let ancestor :=
    BlockInfo.new (LedgerInfo.epoch ledger_info) 0 HashValue_zero
      (LedgerInfo.transaction_accumulator_hash ledger_info) (LedgerInfo.version ledger_info)
      (LedgerInfo.timestamp_usecs ledger_info) None in
  let genesis_quorum_cert :=
    QuorumCert.new (VoteData.new ancestor ancestor)
      (LedgerInfoWithSignatures.new (LedgerInfo.new ancestor HashValue_zero)
         AggregateSignature.empty) in
  new_genesis (LedgerInfo.timestamp_usecs ledger_info) genesis_quorum_cert.

Definition new_nil (round : Z) (quorum_cert : QuorumCert.t)
    (failed_authors : list (Z * AccountAddress)) : t :=
  let certified := QuorumCert.certified_block quorum_cert in
  mk (BlockInfo.epoch certified) round (BlockInfo.timestamp_usecs certified) quorum_cert
    (NilBlock failed_authors).

Definition new_for_dag (epoch round timestamp_usecs : Z) (payload : Payload.t)
    (author : AccountAddress) (failed_authors : list (Z * AccountAddress)) : t :=
  mk epoch round timestamp_usecs
    (QuorumCert.new (VoteData.new BlockInfo.empty BlockInfo.empty)
       (LedgerInfoWithSignatures.new (LedgerInfo.new BlockInfo.empty HashValue_zero)
          AggregateSignature.empty))
    (Proposal payload author failed_authors).

Definition new_proposal (payload : Payload.t) (author : AccountAddress)
    (failed_authors : list (Z * AccountAddress)) (round timestamp_usecs : Z)
    (quorum_cert : QuorumCert.t) : t :=
  mk (BlockInfo.epoch (QuorumCert.certified_block quorum_cert)) round timestamp_usecs quorum_cert
    (Proposal payload author failed_authors).

Definition is_reconfiguration_suffix (self : t) : bool :=
  BlockInfo.has_reconfiguration (QuorumCert.certified_block (quorum_cert self)).
End definitions.
End BlockData.

Module BlockMetadata.
Section definitions.
Context `{CryptoTypes}.

Record t := new {
  id : HashValue;
  epoch : Z;
  round : Z;
  proposer : AccountAddress;
  previous_block_votes_bitvec : list Z;
  failed_proposer_indices : list Z;
  timestamp_usecs : Z;
}.
End definitions.
End BlockMetadata.

Module Transaction.
Section definitions.
Context `{CryptoTypes} `{!Transactions}.

Inductive t :=
  | UserTransaction (txn : SignedTransaction)
  | GenesisTransaction (payload : WriteSetPayload)
  | BlockMetadata (metadata : BlockMetadata.t)
  | StateCheckpoint (id : HashValue).
End definitions.
End Transaction.

Module Block.
Section definitions.
Context `{CryptoTypes} `{!Transactions} `{!CryptoHash BlockData.t}.

Record t := mk {
  id : HashValue;
  block_data : BlockData.t;
  signature : option Signature;
}.

#[global] Instance t_eq_dec : EqDecision t.
Proof using Type. solve_decision. Defined.

Definition author (self : t) : option AccountAddress := BlockData.author (block_data self).
Definition epoch (self : t) : Z := BlockData.epoch (block_data self).
Definition parent_id (self : t) : HashValue := BlockData.parent_id (block_data self).
Definition payload (self : t) : option Payload.t := BlockData.payload (block_data self).
Definition quorum_cert (self : t) : QuorumCert.t := BlockData.quorum_cert (block_data self).
Definition round (self : t) : Z := BlockData.round (block_data self).
Definition timestamp_usecs (self : t) : Z := BlockData.timestamp_usecs (block_data self).
Definition is_genesis_block (self : t) : bool := BlockData.is_genesis_block (block_data self).
Definition is_nil_block (self : t) : bool := BlockData.is_nil_block (block_data self).

Definition payload_size (self : t) : Z :=
  match payload self with
  | None => 0
  | Some (Payload.InQuorumStore proofs) => Z.of_nat (length proofs)
  | Some (Payload.DirectMempool txns) => Z.of_nat (length txns)
  end.

Definition gen_block_info (self : t) (executed_state_id : HashValue) (version : Z)
    (next_epoch_state : option EpochState.t) : BlockInfo.t :=
  BlockInfo.new (epoch self) (round self) (id self) executed_state_id version (timestamp_usecs self)
    next_epoch_state.

Definition make_genesis_block_from_ledger_info (ledger_info : LedgerInfo.t) : result t :=
  block_data ← BlockData.new_genesis_from_ledger_info ledger_info;
  Ok (mk (hash block_data) block_data None).

Definition new_nil (round : Z) (quorum_cert : QuorumCert.t)
    (failed_authors : list (Z * AccountAddress)) : t :=
  let block_data := BlockData.new_nil round quorum_cert failed_authors in
  mk (hash block_data) block_data None.

Definition new_proposal_from_block_data_and_signature (block_data : BlockData.t)
    (signature : Signature) : t :=
  mk (hash block_data) block_data (Some signature).

Definition new_proposal_from_block_data `{!PrivateKeys} `{!BlsSign BlockData.t}
    (block_data : BlockData.t) (validator_signer : ValidatorSigner.t) : result t :=
  signature ← ValidatorSigner.sign validator_signer block_data;
  Ok (new_proposal_from_block_data_and_signature block_data signature).

Definition new_proposal `{!PrivateKeys} `{!BlsSign BlockData.t} (payload : Payload.t)
    (round timestamp_usecs : Z) (quorum_cert : QuorumCert.t)
    (validator_signer : ValidatorSigner.t) (failed_authors : list (Z * AccountAddress)) : result t :=
  new_proposal_from_block_data
    (BlockData.new_proposal payload (ValidatorSigner.author validator_signer) failed_authors round
       timestamp_usecs quorum_cert)
    validator_signer.

Definition validate_signature `{!CryptoHash VoteData.t} `{!BlsAggregate} `{!Bls LedgerInfo.t}
    `{!Bls BlockData.t} (self : t) (validator : ValidatorVerifier.t) : result unit :=
  match BlockData.block_type (block_data self) with
  | BlockData.Genesis => Err "We should not accept genesis from others"
  | BlockData.NilBlock _ => QuorumCert.verify (quorum_cert self) validator
  | BlockData.Proposal _ author _ =>
      signature ← ok_or (signature self) "Missing signature in Proposal";
      map_err VerifyError_text
        (ValidatorVerifier.verify validator author (block_data self) signature);;
      QuorumCert.verify (quorum_cert self) validator
  end.

(** The loop over the failed authors. *)
Fixpoint check_failed_authors (bound succ_round : Z) (failed_authors : list (Z * AccountAddress)) :
    result unit :=
  match failed_authors with
  | [] => Ok tt
  | (round, _) :: failed_authors =>
      ensure ((bound <? round) && (round <? succ_round)) "Incorrect round in failed authors";;
      check_failed_authors round succ_round failed_authors
  end.

(** The checks on the failed authors, if the block has any. *)
Definition check_failed_rounds (self : t) (parent_round : Z) : result unit :=
  match BlockData.failed_authors (block_data self) with
  | Some failed_authors =>
      succ_round ← u64_add (round self) (if is_nil_block self then 1 else 0);
      next ← u64_add parent_round 1;
      ensure (next <=? succ_round) "Block round is smaller than block's parent round";;
      ensure (Z.of_nat (length failed_authors) <=? succ_round - next)
        "Block has more failed authors than missed rounds";;
      check_failed_authors parent_round succ_round failed_authors
  | None => Ok tt
  end.

Definition TIMEBOUND : Z := 300000000.

(** [duration_since_epoch().as_micros()] is the argument [current_ts]. *)
Definition verify_well_formed (self : t) (current_ts : Z) : result unit :=
  ensure (negb (is_genesis_block self)) "We must not accept genesis from others";;
  let parent := QuorumCert.certified_block (quorum_cert self) in
  ensure (BlockInfo.round parent <? round self) "Block must have a greater round than parent's block";;
  ensure (BlockInfo.epoch parent =? epoch self) "block's parent should be in the same epoch";;
  (if BlockInfo.has_reconfiguration parent then
     ensure (match payload self with None => true | Some p => Payload.is_empty p end)
       "Reconfiguration suffix should not carry payload"
   else Ok tt);;
  check_failed_rounds self (BlockInfo.round parent);;
  (if is_nil_block self || BlockInfo.has_reconfiguration parent then
     ensure (timestamp_usecs self =? BlockInfo.timestamp_usecs parent)
       "Nil/reconfig suffix block must have same timestamp as parent"
   else
     ensure (BlockInfo.timestamp_usecs parent <? timestamp_usecs self)
       "Blocks must have strictly increasing timestamps";;
     ensure (timestamp_usecs self <=? u64_saturating_add (current_ts `mod` 2 ^ 64) TIMEBOUND)
       "Blocks must not be too far in the future");;
  ensure (negb (QuorumCert.ends_epoch (quorum_cert self)))
    "Block cannot be proposed in an epoch that has ended".

Fixpoint position (validators : list AccountAddress) (author : AccountAddress) : option Z :=
  match validators with
  | [] => None
  | v :: validators => if v =? author then Some 0 else Z.add 1 <$> position validators author
  end.

Definition failed_authors_to_indices (validators : list AccountAddress)
    (failed_authors : list (Z * AccountAddress)) : result (list Z) :=
  collect (fun '(_, failed_author) =>
    index ← expect (position validators failed_author);
    assert (index <? 2 ^ 32);;
    Ok index) failed_authors.

Definition new_block_metadata (self : t) (validators : list AccountAddress) : result BlockMetadata.t :=
  failed ← match BlockData.failed_authors (block_data self) with
           | None => Ok []
           | Some failed_authors => failed_authors_to_indices validators failed_authors
           end;
  Ok (BlockMetadata.new (id self) (epoch self) (round self) (default 0 (author self))
        (BitVec.inner (AggregateSignature.validator_bitmask
           (LedgerInfoWithSignatures.signatures (QuorumCert.signed_ledger_info (quorum_cert self)))))
        failed (timestamp_usecs self)).

Definition transactions_to_execute (self : t) (validators : list AccountAddress)
    (txns : list SignedTransaction) (block_gas_limit : option Z) : result (list Transaction.t) :=
  metadata ← new_block_metadata self validators;
  let head := Transaction.BlockMetadata metadata :: (Transaction.UserTransaction <$> txns) in
  match block_gas_limit with
  | Some _ => Ok head
  | None => Ok (head ++ [Transaction.StateCheckpoint (id self)])
  end.

(** Only the data and the signature travel: the id is the hash of the data. *)
Definition deserialize (block_data : BlockData.t) (signature : option Signature) : t :=
  mk (hash block_data) block_data signature.
End definitions.
End Block.

Module Vote.
Section definitions.
Context `{CryptoTypes}.

Record t := mk {
  vote_data : VoteData.t;
  author : AccountAddress;
  ledger_info : LedgerInfo.t;
  signature : Signature;
  two_chain_timeout : option (TwoChainTimeout.t * Signature);
}.

#[global] Instance t_eq_dec : EqDecision t.
Proof. solve_decision. Defined.

Definition new_with_signature (vote_data : VoteData.t) (author : AccountAddress)
    (ledger_info : LedgerInfo.t) (signature : Signature) : t :=
  mk vote_data author ledger_info signature None.

Definition new `{!CryptoHash VoteData.t} `{!PrivateKeys} `{!BlsSign LedgerInfo.t}
    (vote_data : VoteData.t) (author : AccountAddress) (ledger_info_placeholder : LedgerInfo.t)
    (validator_signer : ValidatorSigner.t) : result t :=
  let ledger_info := LedgerInfo.set_consensus_data_hash ledger_info_placeholder (hash vote_data) in
  signature ← ValidatorSigner.sign validator_signer ledger_info;
  Ok (new_with_signature vote_data author ledger_info signature).

Definition add_2chain_timeout (self : t) (timeout : TwoChainTimeout.t) (signature' : Signature) : t :=
  mk (vote_data self) (author self) (ledger_info self) (signature self) (Some (timeout, signature')).

Definition generate_2chain_timeout (self : t) (qc : QuorumCert.t) : TwoChainTimeout.t :=
  TwoChainTimeout.new (BlockInfo.epoch (VoteData.proposed (vote_data self)))
    (BlockInfo.round (VoteData.proposed (vote_data self))) qc.

Definition epoch (self : t) : Z := BlockInfo.epoch (VoteData.proposed (vote_data self)).

Definition is_timeout (self : t) : bool :=
  match two_chain_timeout self with Some _ => true | None => false end.

Definition verify `{!CryptoHash VoteData.t} `{!BlsAggregate} `{!Bls LedgerInfo.t}
    `{!Bls TimeoutSigningRepr.t} (self : t) (validator : ValidatorVerifier.t) : result unit :=
  ensure (bool_decide (LedgerInfo.consensus_data_hash (ledger_info self) = hash (vote_data self)))
    "Vote's hash mismatch with LedgerInfo";;
  map_err (fun _ => "Failed to verify Vote")
    (ValidatorVerifier.verify validator (author self) (ledger_info self) (signature self));;
  match two_chain_timeout self with
  | Some (timeout, signature) =>
      ensure ((TwoChainTimeout.epoch timeout =? epoch self) &&
              (TwoChainTimeout.round timeout =? BlockInfo.round (VoteData.proposed (vote_data self))))
        "2-chain timeout has different (epoch, round) than Vote";;
      TwoChainTimeout.verify timeout validator;;
      map_err (fun _ => "Failed to verify 2-chain timeout signature")
        (ValidatorVerifier.verify validator (author self) (TwoChainTimeout.signing_format timeout) signature)
  | None => Ok tt
  end;;
  VoteData.verify (vote_data self).
End definitions.
End Vote.

Module VoteProposal.
Section definitions.
Context `{CryptoTypes} `{!Transactions} `{!MerkleHasher HashValue}.

Record t := new {
  accumulator_extension_proof : AccumulatorExtensionProof.t HashValue;
  block : Block.t;
  next_epoch_state : option EpochState.t;
  decoupled_execution : bool;
}.

Definition vote_data_ordering_only (self : t) : VoteData.t :=
  VoteData.new
    (Block.gen_block_info (block self) ACCUMULATOR_PLACEHOLDER_HASH 0 (next_epoch_state self))
    (QuorumCert.certified_block (Block.quorum_cert (block self))).

Definition vote_data_with_extension_proof (self : t) (new_tree : InMemoryAccumulator.t HashValue) :
    VoteData.t :=
  VoteData.new
    (Block.gen_block_info (block self) (InMemoryAccumulator.root_hash new_tree)
       (InMemoryAccumulator.version new_tree) (next_epoch_state self))
    (QuorumCert.certified_block (Block.quorum_cert (block self))).

Definition gen_vote_data (self : t) : result VoteData.t :=
  if decoupled_execution self then Ok (vote_data_ordering_only self)
  else
    new_tree ← AccumulatorExtensionProof.verify (accumulator_extension_proof self)
      (BlockInfo.executed_state_id (QuorumCert.certified_block (Block.quorum_cert (block self))));
    Ok (vote_data_with_extension_proof self new_tree).
End definitions.
End VoteProposal.

(** ** Well-formed blocks *)

(** Strictly ascending integers between two bounds are few. *)
Lemma ascending_length (l : list Z) a b : StronglySorted Z.lt l ->
  (forall r, r ∈ l -> a < r < b) -> a < b -> Z.of_nat (length l) <= b - a - 1.
Proof.
  intros Hs. revert a. induction Hs as [|x l Hs IH Hf]; intros a Hb Hab; cbn [length]; [lia|].
  pose proof (Hb x ltac:(set_solver)). rewrite Forall_forall in Hf.
  specialize (IH x). rewrite Nat2Z.inj_succ. enough (Z.of_nat (length l) <= b - x - 1) by lia.
  apply IH; [|lia]. intros r Hr. pose proof (Hf r Hr). pose proof (Hb r ltac:(set_solver)). lia.
Qed.

Lemma check_failed_authors_iff bound succ (l : list (Z * AccountAddress)) :
  Block.check_failed_authors bound succ l = Ok tt <->
  StronglySorted Z.lt l.*1 /\ forall r, r ∈ l.*1 -> bound < r < succ.
Proof.
  revert bound. induction l as [|[r a] l IH]; intros bound; cbn [Block.check_failed_authors].
  { split; [|done]. intros _. split; [constructor|by intros r ?%elem_of_nil]. }
  rewrite fmap_cons, bind_Ok. cbn [fst]. split.
  - intros ([] & He & Hl). apply ensure_Ok, andb_true_iff in He as [H1 H2]. zbool.
    apply IH in Hl as [Hs Hl]. split.
    + constructor; [done|]. apply Forall_forall. intros r' Hr'. by apply Hl.
    + intros r' [->|Hr']%elem_of_cons; [done|]. apply Hl in Hr'. lia.
  - intros [Hs Hl]. apply StronglySorted_inv in Hs as [Hs Hf]. rewrite Forall_forall in Hf.
    exists tt. pose proof (Hl r ltac:(set_solver)). split.
    + apply ensure_true, andb_true_iff. split; apply Z.ltb_lt; lia.
    + apply IH. split; [done|]. intros r' Hr'. pose proof (Hl r' ltac:(set_solver)).
      split; [by apply Hf|lia].
Qed.

Section well_formed.
Context `{CryptoTypes} `{!Transactions}.

(** What a well-formed block is, in terms of its parent. *)
Record well_formed_block (b : Block.t) (current_ts : Z) : Prop := {
  wf_not_genesis : Block.is_genesis_block b = false;
  wf_round : BlockInfo.round (QuorumCert.certified_block (Block.quorum_cert b)) < Block.round b;
  wf_epoch : BlockInfo.epoch (QuorumCert.certified_block (Block.quorum_cert b)) = Block.epoch b;
  wf_suffix p : BlockData.is_reconfiguration_suffix (Block.block_data b) = true ->
    Block.payload b = Some p -> Payload.is_empty p = true;
  wf_failed l : BlockData.failed_authors (Block.block_data b) = Some l ->
    StronglySorted Z.lt l.*1 /\ forall r, r ∈ l.*1 ->
      BlockInfo.round (QuorumCert.certified_block (Block.quorum_cert b)) < r <
      Block.round b + (if Block.is_nil_block b then 1 else 0);
  wf_timestamp :
    let parent_ts := BlockInfo.timestamp_usecs (QuorumCert.certified_block (Block.quorum_cert b)) in
    if Block.is_nil_block b || BlockData.is_reconfiguration_suffix (Block.block_data b)
    then Block.timestamp_usecs b = parent_ts
    else parent_ts < Block.timestamp_usecs b <=
         u64_saturating_add (current_ts `mod` 2 ^ 64) Block.TIMEBOUND;
  wf_not_ended : QuorumCert.ends_epoch (Block.quorum_cert b) = false;
}.

Lemma check_failed_iff b parent_round : Block.round b + 1 < 2 ^ 64 -> parent_round < Block.round b ->
  Block.check_failed_rounds b parent_round = Ok tt <->
  forall l, BlockData.failed_authors (Block.block_data b) = Some l ->
    StronglySorted Z.lt l.*1 /\ forall r, r ∈ l.*1 ->
      parent_round < r < Block.round b + (if Block.is_nil_block b then 1 else 0).
Proof.
  intros Hr Hp. unfold Block.check_failed_rounds. destruct (BlockData.failed_authors _) as [l|]; [|done].
  set (succ := Block.round b + _). assert (Block.round b <= succ <= Block.round b + 1)
    by (unfold succ; destruct (Block.is_nil_block b); lia).
  rewrite u64_add_Ok by (fold succ; lia). mstep. fold succ. rewrite u64_add_Ok by lia. mstep.
  rewrite (ensure_true (_ <=? succ)) by (apply Z.leb_le; lia). mstep.
  rewrite bind_Ok. setoid_rewrite check_failed_authors_iff. split.
  - intros (_ & _ & Hl) l' [= <-]. done.
  - intros Hl. destruct (Hl l eq_refl) as [Hs Hb]. exists tt. split; [|done].
    pose proof (ascending_length l.*1 parent_round succ Hs Hb ltac:(lia)).
    rewrite length_fmap in *. apply ensure_true, Z.leb_le. lia.
Qed.

Lemma seq_Ok {E} (a b : outcome E unit) : (a;; b) = Ok tt <-> a = Ok tt /\ b = Ok tt.
Proof. destruct a as [[]| |]; cbn; naive_solver. Qed.

Lemma well_formed_iff b current_ts : Block.round b + 1 < 2 ^ 64 ->
  Block.verify_well_formed b current_ts = Ok tt <-> well_formed_block b current_ts.
Proof.
  intros Hr. unfold Block.verify_well_formed. rewrite !seq_Ok, !ensure_Ok.
  set (parent := QuorumCert.certified_block (Block.quorum_cert b)).
  rewrite !negb_true_iff, Z.ltb_lt, Z.eqb_eq.
  assert (BlockData.is_reconfiguration_suffix (Block.block_data b) = BlockInfo.has_reconfiguration parent)
    as Hsuf by done.
  split.
  - intros (? & Hlt & ? & Hpay & Hfail & Hts & ?). pose proof (proj1 (check_failed_iff b (BlockInfo.round parent) Hr Hlt) Hfail).
    constructor; rewrite ?Hsuf; try done.
    + intros p Hs Hp. rewrite Hs in Hpay. apply ensure_Ok in Hpay. by rewrite Hp in Hpay.
    + cbn zeta. destruct (_ || _); [apply ensure_Ok in Hts; by zbool|].
      apply seq_Ok in Hts as [Hts1%ensure_Ok Hts2%ensure_Ok]. by zbool.
  - intros []. rewrite Hsuf in *. split_and!; try done.
    + destruct (BlockInfo.has_reconfiguration parent); [|done]. apply ensure_true.
      destruct (Block.payload b) as [p|] eqn:Ep; [by eapply wf_suffix0|done].
    + by apply (check_failed_iff b (BlockInfo.round parent) Hr).
    + fold parent in wf_timestamp0. cbn zeta in wf_timestamp0.
      destruct (_ || _); [by apply ensure_true, Z.eqb_eq|].
      rewrite seq_Ok, !ensure_Ok, Z.ltb_lt, Z.leb_le. done.
Qed.
End well_formed.

(** A block is accepted as well formed exactly when it is not a genesis block,
    has a later round than its parent in the same epoch, carries no payload after
    a reconfiguration, lists failed authors of distinct ascending rounds between
    the two, has the parent's timestamp (nil blocks and reconfiguration suffixes)
    or a later one that is not far in the future, and does not extend a block that
    ends the epoch. *)
Theorem block_well_formed_iff `{CryptoTypes} `{!Transactions} (b : Block.t) (current_ts : Z) :
  Block.round b + 1 < 2 ^ 64 ->
  Block.verify_well_formed b current_ts = Ok tt <-> well_formed_block b current_ts.
Proof. apply well_formed_iff. Qed.

(** the nil block made for a round after a certified block is well formed and
    its signature check is that of the certificate. *)
Theorem nil_block_accepted `{CryptoTypes} `{!Transactions} `{!CryptoHash BlockData.t}
    `{!CryptoHash VoteData.t} `{!BlsAggregate} `{!Bls LedgerInfo.t} `{!Bls BlockData.t}
    (round : Z) (qc : QuorumCert.t) (failed_authors : list (Z * AccountAddress)) (current_ts : Z)
    (validator : ValidatorVerifier.t) :
  BlockInfo.round (QuorumCert.certified_block qc) < round -> round + 1 < 2 ^ 64 ->
  QuorumCert.ends_epoch qc = false -> QuorumCert.verify qc validator = Ok tt ->
  StronglySorted Z.lt failed_authors.*1 ->
  (forall r, r ∈ failed_authors.*1 -> BlockInfo.round (QuorumCert.certified_block qc) < r <= round) ->
  let b := Block.new_nil round qc failed_authors in
  Block.verify_well_formed b current_ts = Ok tt /\ Block.validate_signature b validator = Ok tt.
Proof.
  intros Hlt Hr He Hqc Hs Hb b. split; [|done]. apply well_formed_iff; [done|]. constructor; try done.
  intros l [= <-]. split; [done|]. intros r Hin. apply Hb in Hin. cbn. lia.
Qed.

Section example.
#[local] Instance no_transactions : Transactions := {|
  SignedTransaction := unit; txn_sender := fun _ => 0; txn_sequence_number := fun _ => 0;
  raw_txn_bytes_len := fun _ => 0; WriteSetPayload := unit |}.
#[local] Instance block_data_hash : @CryptoHash free_crypto BlockData.t :=
  fun data => Leaf (BlockData.round data).
#[local] Existing Instance example_vote_data_hash.

Lemma nil_block_accepted_witness :
  Block.verify_well_formed (Block.new_nil 3 genesis_qc [(1, 7); (3, 9)]) 0 = Ok tt.
Proof.
  apply (nil_block_accepted 3 genesis_qc [(1, 7); (3, 9)] 0 v4); try by vm_compute.
  - repeat constructor.
  - intros r Hr. change (r ∈ [1; 3]) in Hr. rewrite !elem_of_cons, elem_of_nil in Hr. cbn. lia.
Defined.

Lemma block_well_formed_iff_witness :
  well_formed_block (Block.new_nil 3 genesis_qc [(1, 7); (3, 9)]) 0.
Proof. apply (block_well_formed_iff (Block.new_nil 3 genesis_qc [(1, 7); (3, 9)]) 0); by vm_compute. Defined.
End example.
