(* ===== verification/ConsensusMessages.v ===== *)
(** * Messages of the consensus protocol

    Model of [sync_info.rs], [proposal_msg.rs], [vote_msg.rs] and
    [block_retrieval.rs] of [consensus/consensus-types/src]: the certificates a
    peer advertises, the messages that carry them and the chains of blocks peers
    fetch from each other. *)

From S2P Require Import Prelude Collections Merkle BitVec ValidatorVerifier LedgerInfo QuorumCert Timeout2Chain.
From S2P Require Import ConsensusBlock.

Module SyncInfo.
Section definitions.
Context `{CryptoTypes}.

Record t := mk {
  highest_quorum_cert : QuorumCert.t;
  highest_ordered_cert_opt : option QuorumCert.t;
  highest_commit_cert : QuorumCert.t;
  highest_2chain_timeout_cert : option TwoChainTimeoutCertificate.t;
}.

Definition certified_round (qc : QuorumCert.t) : Z := BlockInfo.round (QuorumCert.certified_block qc).

Definition new_decoupled (highest_quorum_cert highest_ordered_cert highest_commit_cert : QuorumCert.t)
    (highest_2chain_timeout_cert : option TwoChainTimeoutCertificate.t) : t :=
  let timeout_cert :=
    match highest_2chain_timeout_cert with
    | Some tc =>
        if certified_round highest_quorum_cert <? TwoChainTimeoutCertificate.round tc then Some tc else None
    | None => None
    end in
  let ordered_cert :=
    if bool_decide (highest_ordered_cert = highest_quorum_cert) then None
    else Some highest_ordered_cert in
  mk highest_quorum_cert ordered_cert highest_commit_cert timeout_cert.

Definition new (highest_quorum_cert highest_ordered_cert : QuorumCert.t)
    (highest_2chain_timeout_cert : option TwoChainTimeoutCertificate.t) : t :=
  new_decoupled highest_quorum_cert highest_ordered_cert highest_ordered_cert
    highest_2chain_timeout_cert.

Definition highest_ordered_cert (self : t) : QuorumCert.t :=
  default (highest_quorum_cert self) (highest_ordered_cert_opt self).

Definition highest_certified_round (self : t) : Z := certified_round (highest_quorum_cert self).

Definition highest_timeout_round (self : t) : Z :=
  match highest_2chain_timeout_cert self with
  | Some tc => TwoChainTimeoutCertificate.round tc
  | None => 0
  end.

Definition highest_ordered_round (self : t) : Z :=
  BlockInfo.round (QuorumCert.commit_info (highest_ordered_cert self)).

Definition highest_commit_round (self : t) : Z :=
  BlockInfo.round (QuorumCert.commit_info (highest_commit_cert self)).

Definition highest_round (self : t) : Z :=
  Z.max (highest_certified_round self) (highest_timeout_round self).

Definition epoch (self : t) : Z :=
  BlockInfo.epoch (QuorumCert.certified_block (highest_quorum_cert self)).

Definition verify `{!CryptoHash VoteData.t} `{!BlsAggregate} `{!Bls LedgerInfo.t}
    `{!Bls TimeoutSigningRepr.t} (self : t) (validator : ValidatorVerifier.t) : result unit :=
  let epoch := BlockInfo.epoch (QuorumCert.certified_block (highest_quorum_cert self)) in
  ensure (epoch =? BlockInfo.epoch (QuorumCert.certified_block (highest_ordered_cert self)))
    "Multi epoch in SyncInfo - HOC and HQC";;
  ensure (epoch =? BlockInfo.epoch (QuorumCert.commit_info (highest_commit_cert self)))
    "Multi epoch in SyncInfo - HOC and HCC";;
  match highest_2chain_timeout_cert self with
  | Some tc => ensure (epoch =? TwoChainTimeoutCertificate.epoch tc) "Multi epoch in SyncInfo - TC and HQC"
  | None => Ok tt
  end;;
  ensure (certified_round (highest_ordered_cert self) <=? certified_round (highest_quorum_cert self))
    "HQC has lower round than HOC";;
  ensure (highest_commit_round self <=? certified_round (highest_ordered_cert self))
    "HOC has lower round than HLI";;
  ensure (negb (bool_decide (QuorumCert.commit_info (highest_ordered_cert self) = BlockInfo.empty)))
    "HOC has no committed block";;
  ensure (negb (bool_decide (QuorumCert.commit_info (highest_commit_cert self) = BlockInfo.empty)))
    "HLI has empty commit info";;
  map_err (fun _ => "Fail to verify SyncInfo")
    (QuorumCert.verify (highest_quorum_cert self) validator;;
     match highest_ordered_cert_opt self with
     | Some cert => QuorumCert.verify cert validator
     | None => Ok tt
     end;;
     (if 0 <? BlockInfo.round (QuorumCert.commit_info (highest_commit_cert self))
      then QuorumCert.verify (highest_commit_cert self) validator else Ok tt);;
     match highest_2chain_timeout_cert self with
     | Some tc => TwoChainTimeoutCertificate.verify tc validator
     | None => Ok tt
     end).

Definition has_newer_certificates (self other : t) : bool :=
  (highest_certified_round other <? highest_certified_round self)
  || (highest_timeout_round other <? highest_timeout_round self)
  || (highest_ordered_round other <? highest_ordered_round self)
  || (highest_commit_round other <? highest_commit_round self).
End definitions.
End SyncInfo.

Module ProposalMsg.
Section definitions.
Context `{CryptoTypes} `{!Transactions}.

Record t := new {
  proposal : Block.t;
  sync_info : SyncInfo.t;
}.

Definition epoch (self : t) : Z := Block.epoch (proposal self).

Definition verify_well_formed (self : t) (current_ts : Z) : result unit :=
  ensure (negb (Block.is_nil_block (proposal self))) "Proposal for a NIL block";;
  map_err (fun _ => "Fail to verify ProposalMsg's block")
    (Block.verify_well_formed (proposal self) current_ts);;
  ensure (0 <? Block.round (proposal self)) "Proposal has an incorrect round of 0";;
  ensure (Block.epoch (proposal self) =? SyncInfo.epoch (sync_info self))
    "ProposalMsg has different epoch number from SyncInfo";;
  ensure (bool_decide (Block.parent_id (proposal self) =
            BlockInfo.id (QuorumCert.certified_block (SyncInfo.highest_quorum_cert (sync_info self)))))
    "Proposal HQC in SyncInfo certifies another block than the parent";;
  previous_round ← (if 1 <=? Block.round (proposal self) then Ok (Block.round (proposal self) - 1)
                    else Err "proposal round overflowed!" : result Z);
  let highest_certified_round :=
    Z.max (BlockInfo.round (QuorumCert.certified_block (Block.quorum_cert (proposal self))))
      (SyncInfo.highest_timeout_round (sync_info self)) in
  ensure (previous_round =? highest_certified_round) "Proposal does not have a certified round";;
  ensure (match Block.author (proposal self) with Some _ => true | None => false end)
    "Proposal does not define an author".

Definition verify `{!CryptoHash VoteData.t} `{!BlsAggregate} `{!Bls LedgerInfo.t}
    `{!Bls TimeoutSigningRepr.t} `{!Bls BlockData.t} `{!Bls BatchInfo.t} (self : t)
    (validator : ValidatorVerifier.t) (quorum_store_enabled : bool) (current_ts : Z) : result unit :=
  match Block.payload (proposal self) with
  | Some p => Payload.verify p validator quorum_store_enabled
  | None => Ok tt
  end;;
  Block.validate_signature (proposal self) validator;;
  match SyncInfo.highest_2chain_timeout_cert (sync_info self) with
  | Some tc => TwoChainTimeoutCertificate.verify tc validator
  | None => Ok tt
  end;;
  verify_well_formed self current_ts.

Definition proposer {E} (self : t) : outcome E AccountAddress := expect (Block.author (proposal self)).
End definitions.
End ProposalMsg.

Module VoteMsg.
Section definitions.
Context `{CryptoTypes}.

Record t := new {
  vote : Vote.t;
  sync_info : SyncInfo.t;
}.

Definition epoch (self : t) : Z := Vote.epoch (vote self).

Definition proposed_block_id (self : t) : HashValue :=
  BlockInfo.id (VoteData.proposed (Vote.vote_data (vote self))).

Definition verify `{!CryptoHash VoteData.t} `{!BlsAggregate} `{!Bls LedgerInfo.t}
    `{!Bls TimeoutSigningRepr.t} (self : t) (validator : ValidatorVerifier.t) : result unit :=
  ensure (Vote.epoch (vote self) =? SyncInfo.epoch (sync_info self)) "VoteMsg has different epoch";;
  ensure (SyncInfo.highest_round (sync_info self) <?
          BlockInfo.round (VoteData.proposed (Vote.vote_data (vote self))))
    "Vote Round should be higher than SyncInfo";;
  match Vote.two_chain_timeout (vote self) with
  | Some (timeout, _) =>
      ensure (TwoChainTimeout.hqc_round timeout <=? SyncInfo.highest_certified_round (sync_info self))
        "2-chain Timeout hqc should be less or equal than the sync info hqc"
  | None => Ok tt
  end;;
  Vote.verify (vote self) validator.
End definitions.
End VoteMsg.

Module BlockRetrieval.
Section definitions.
Context `{CryptoTypes} `{!Transactions}.

Record BlockRetrievalRequest := mk_request {
  block_id : HashValue;
  num_blocks : Z;
  target_block_id : option HashValue;
}.

Definition new_request (block_id : HashValue) (num_blocks : Z) : BlockRetrievalRequest :=
  mk_request block_id num_blocks None.

Definition new_with_target_block_id (block_id : HashValue) (num_blocks : Z)
    (target_block_id : HashValue) : BlockRetrievalRequest :=
  mk_request block_id num_blocks (Some target_block_id).

Definition match_target_id (self : BlockRetrievalRequest) (hash_value : HashValue) : bool :=
  match target_block_id self with
  | Some id => bool_decide (id = hash_value)
  | None => false
  end.

Inductive BlockRetrievalStatus :=
  | Succeeded
  | IdNotFound
  | NotEnoughBlocks
  | SucceededWithTarget.

#[global] Instance BlockRetrievalStatus_eq_dec : EqDecision BlockRetrievalStatus.
Proof using Type. solve_decision. Defined.

Record BlockRetrievalResponse := new_response {
  status : BlockRetrievalStatus;
  blocks : list Block.t;
}.

Context `{!CryptoHash VoteData.t} `{!BlsAggregate} `{!Bls LedgerInfo.t} `{!Bls BlockData.t}.

(** The [try_fold] over the blocks. *)
Fixpoint verify_chain (expected_id : HashValue) (sig_verifier : ValidatorVerifier.t) (current_ts : Z)
    (blocks : list Block.t) : result HashValue :=
  match blocks with
  | [] => Ok expected_id
  | block :: blocks =>
      Block.validate_signature block sig_verifier;;
      Block.verify_well_formed block current_ts;;
      ensure (bool_decide (Block.id block = expected_id)) "blocks doesn't form a chain";;
      verify_chain (Block.parent_id block) sig_verifier current_ts blocks
  end.

Definition verify (self : BlockRetrievalResponse) (retrieval_request : BlockRetrievalRequest)
    (sig_verifier : ValidatorVerifier.t) (current_ts : Z) : result unit :=
  ensure (negb (bool_decide (status self = Succeeded)) ||
          (Z.of_nat (length (blocks self)) =? num_blocks retrieval_request))
    "not enough blocks returned";;
  ensure (negb (bool_decide (status self = SucceededWithTarget)) ||
          match last (blocks self) with
          | Some block => match_target_id retrieval_request (Block.id block)
          | None => false
          end)
    "target not found in blocks returned";;
  verify_chain (block_id retrieval_request) sig_verifier current_ts (blocks self);;
  Ok tt.
End definitions.
End BlockRetrieval.

Section facts.
Context `{CryptoTypes} `{!Transactions} `{!CryptoHash VoteData.t} `{!BlsAggregate} `{!Bls LedgerInfo.t}
  `{!Bls BlockData.t}.
Import BlockRetrieval.

Lemma verify_chain_cons id v now b bs r : verify_chain id v now (b :: bs) = Ok r <->
  Block.validate_signature b v = Ok tt /\ Block.verify_well_formed b now = Ok tt /\ Block.id b = id /\
  verify_chain (Block.parent_id b) v now bs = Ok r.
Proof.
  cbn [verify_chain]. split.
  - intros Hv. apply bind_Ok in Hv as ([] & ? & Hv). apply bind_Ok in Hv as ([] & ? & Hv).
    apply bind_Ok in Hv as ([] & He & Hv). by apply ensure_Ok, bool_decide_eq_true_1 in He.
  - intros (-> & -> & <- & <-). mstep. by rewrite bool_decide_eq_true_2 by done.
Qed.

Lemma verify_chain_ids id v now bs r b : verify_chain id v now bs = Ok r -> b ∈ bs ->
  Block.validate_signature b v = Ok tt /\ Block.verify_well_formed b now = Ok tt.
Proof.
  revert id. induction bs as [|b' bs IH]; intros id Hv Hb; [by apply elem_of_nil in Hb|].
  apply verify_chain_cons in Hv as (? & ? & _ & Hv). apply elem_of_cons in Hb as [->|Hb]; [done|].
  by eapply IH.
Qed.

(** Two verified chains from one id are the same as far as both go. *)
Lemma verify_chain_agree `{!CryptoHash BlockData.t} id v now now' bs bs' r r' i b b' :
  (forall b, b ∈ bs ++ bs' -> Block.id b = hash (Block.block_data b)) ->
  verify_chain id v now bs = Ok r -> verify_chain id v now' bs' = Ok r' ->
  bs !! i = Some b -> bs' !! i = Some b' ->
  Block.block_data b = Block.block_data b' \/
  exists d d' : BlockData.t, d <> d' /\ hash d = hash d'.
Proof.
  revert id bs bs'. induction i as [|i IH]; intros id [|x bs] [|x' bs'] Hid Hv Hv' Hb Hb'; try done;
    apply verify_chain_cons in Hv as (_ & _ & Ex & Hv); apply verify_chain_cons in Hv' as (_ & _ & Ex' & Hv').
  - injection Hb as ->. injection Hb' as ->. rewrite Hid in Ex, Ex' by set_solver.
    destruct (decide (Block.block_data b = Block.block_data b')); [by left|right].
    exists (Block.block_data b), (Block.block_data b'). split; [done|congruence].
  - destruct (decide (Block.block_data x = Block.block_data x')) as [E|Hne].
    + eapply (IH (Block.parent_id x)); [|done| |done|done]; [set_solver|].
      unfold Block.parent_id in *. by rewrite E.
    + right. exists (Block.block_data x), (Block.block_data x'). split; [done|].
      rewrite Hid in Ex, Ex' by set_solver. congruence.
Qed.
End facts.

(** Blocks retrieved from a peer are what was asked for.  When a response is
    accepted, every block in it is signed and well formed, and two accepted
    responses to requests for one block agree wherever both have a block, unless
    the hash of block data has a collision. *)
Theorem retrieved_blocks_unique `{CryptoTypes} `{!Transactions} `{!CryptoHash VoteData.t}
    `{!CryptoHash BlockData.t} `{!BlsAggregate} `{!Bls LedgerInfo.t} `{!Bls BlockData.t}
    (resp resp' : BlockRetrieval.BlockRetrievalResponse) (req req' : BlockRetrieval.BlockRetrievalRequest)
    (v : ValidatorVerifier.t) (now now' : Z) :
  BlockRetrieval.block_id req = BlockRetrieval.block_id req' ->
  (forall b, b ∈ BlockRetrieval.blocks resp ++ BlockRetrieval.blocks resp' ->
     Block.id b = hash (Block.block_data b)) ->
  BlockRetrieval.verify resp req v now = Ok tt -> BlockRetrieval.verify resp' req' v now' = Ok tt ->
  (forall b, b ∈ BlockRetrieval.blocks resp ->
     Block.validate_signature b v = Ok tt /\ Block.verify_well_formed b now = Ok tt) /\
  forall i b b', BlockRetrieval.blocks resp !! i = Some b -> BlockRetrieval.blocks resp' !! i = Some b' ->
    Block.block_data b = Block.block_data b' \/ exists d d' : BlockData.t, d <> d' /\ hash d = hash d'.
Proof.
  intros Hreq Hid Hv Hv'. unfold BlockRetrieval.verify in Hv, Hv'.
  apply bind_Ok in Hv as ([] & _ & Hv). apply bind_Ok in Hv as ([] & _ & Hv). apply bind_Ok in Hv as (r & Hv & _).
  apply bind_Ok in Hv' as ([] & _ & Hv'). apply bind_Ok in Hv' as ([] & _ & Hv'). apply bind_Ok in Hv' as (r' & Hv' & _).
  split; [intros b; by eapply verify_chain_ids|]. intros i b b'.
  rewrite Hreq in Hv. by eapply verify_chain_agree.
Qed.

Section example.
#[local] Existing Instance no_transactions.
#[local] Existing Instance block_data_hash.
#[local] Existing Instance example_vote_data_hash.

(** A chain of one nil block over genesis. *)
Definition nil3 : @Block.t free_crypto no_transactions := Block.new_nil 3 genesis_qc [].
Definition retrieved3 : @BlockRetrieval.BlockRetrievalResponse free_crypto no_transactions :=
  BlockRetrieval.new_response BlockRetrieval.Succeeded [nil3].

Lemma retrieved_blocks_unique_witness :
  Block.validate_signature nil3 v4 = Ok tt /\ Block.verify_well_formed nil3 0 = Ok tt.
Proof.
  pose (req := @BlockRetrieval.new_request free_crypto (Leaf 3) 1).
  apply (retrieved_blocks_unique retrieved3 retrieved3 req req v4 0 0); try by vm_compute.
  - intros b Hb. unfold retrieved3 in Hb. cbn [BlockRetrieval.blocks] in Hb.
    rewrite elem_of_app, list_elem_of_singleton in Hb. destruct Hb as [->| ->]; by vm_compute.
  - by apply list_elem_of_singleton.
Defined.
End example.
