(* ===== verification/SafetyRules.v ===== *)
(** * Safety rules

    Model of [consensus/safety-rules/src]: [error.rs], [persistent_safety_storage.rs],
    [safety_rules.rs] and [safety_rules_2chain.rs], with [safety_data.rs] of the
    consensus types and the storage of [secure/storage/src] it is kept in.  It
    holds the consensus key of a validator and signs votes, timeouts, proposals
    and commit votes, keeping in storage what it needs to never contradict itself.

    Storage is an interface ([SafetyStore]) with the in-memory backend as its
    instance; the methods are [action]s on the state of the object. *)

From S2P Require Import Prelude Collections Merkle InMemoryAccumulator BitVec ValidatorVerifier LedgerInfo.
From S2P Require Import TrustedState AccumulatorProofs QuorumCert Timeout2Chain ConsensusBlock.

Module SafetyData.
Section definitions.
Context `{CryptoTypes}.

Record t := new {
  epoch : Z;
  last_voted_round : Z;
  preferred_round : Z;
  one_chain_round : Z;
  last_vote : option Vote.t;
}.

#[global] Instance t_eq_dec : EqDecision t.
Proof. solve_decision. Defined.
End definitions.
End SafetyData.

(** Errors of the secure storage. *)
Inductive StorageError :=
  | EntropyError (e : string)
  | StorageInternalError (e : string)
  | KeyAlreadyExists (e : string)
  | KeyNotSet (e : string)
  | PermissionDenied
  | StorageSerializationError (e : string)
  | KeyVersionNotFound (key version : string).

(** Errors of the safety rules.  An argument that is the printed form of a
    structure is the structure itself. *)
Module Error.
Section definitions.
Context `{CryptoTypes}.

Inductive t :=
  | IncorrectEpoch (epoch expected : Z)
  | IncorrectRound (round : Z)
  | IncorrectLastVotedRound (round last_voted : Z)
  | IncorrectPreferredRound (round preferred : Z)
  | InvalidAccumulatorExtension (e : string)
  | InvalidEpochChangeProof (e : string)
  | InternalError (e : string)
  | InvalidLedgerInfo
  | InvalidProposal (e : string)
  | InvalidQuorumCertificate (e : string)
  | NotInitialized (e : string)
  | SecureStorageMissingDataError (e : string)
  | SecureStorageUnexpectedError (e : string)
  | SerializationError (e : string)
  | ValidatorKeyNotFound (e : string)
  | ValidatorNotInSet (author : AccountAddress)
  | VoteProposalSignatureNotFound
  | NotSafeToVote (round qc_round tc_round hqc_round : Z)
  | NotSafeToTimeout (round qc_round tc_round one_chain_round : Z)
  | InvalidTimeoutCertificate (e : string)
  | InconsistentExecutionResult (ordered executed : BlockInfo.t)
  | InvalidOrderedLedgerInfo (li : LedgerInfo.t)
  | WaypointOutOfDate (previous updated current_epoch provided_epoch : Z)
  | InvalidTimeout (e : string).

Definition storage_error_text (e : StorageError) : string :=
  match e with
  | EntropyError _ => "Entropy error"
  | StorageInternalError _ => "Internal error"
  | KeyAlreadyExists _ => "Key already exists"
  | KeyNotSet _ => "Key not set"
  | PermissionDenied => "Permission denied"
  | StorageSerializationError _ => "Serialization error"
  | KeyVersionNotFound _ _ => "Key version not found"
  end.

(** [From<aptos_secure_storage::Error>], which panics when permission is denied. *)
Definition from_storage {A} (o : outcome StorageError A) : outcome t A :=
  match o with
  | Ok a => Ok a
  | Err PermissionDenied => Panic
  | Err (KeyVersionNotFound _ _ as e) | Err (KeyNotSet _ as e) =>
      Err (SecureStorageMissingDataError (storage_error_text e))
  | Err e => Err (SecureStorageUnexpectedError (storage_error_text e))
  | Panic => Panic
  end.
End definitions.
End Error.

(** The keys of [KVStorage] that safety rules read and write, with the type each
    is read at.  [get_safety_data_as_result] reads the safety data at the type
    [Result<SafetyData, Error>]. *)
Class SafetyStore `{CryptoTypes} `{!PrivateKeys} (S : Type) := {
  get_author : S -> outcome StorageError AccountAddress;
  get_consensus_key : S -> outcome StorageError PrivateKey;
  get_safety_data : S -> outcome StorageError SafetyData.t;
  get_safety_data_as_result : S -> outcome StorageError (outcome Error.t SafetyData.t);
  get_waypoint : S -> outcome StorageError Waypoint.t;
  set_author : AccountAddress -> action S StorageError unit;
  set_consensus_key : PrivateKey -> action S StorageError unit;
  set_safety_data : SafetyData.t -> action S StorageError unit;
  set_waypoint : Waypoint.t -> action S StorageError unit;
}.

(** What safety relies on: a value that was set is read back, a write that failed
    leaves the old value or the new one, and writing the waypoint leaves the safety
    data alone. *)
Class SafetyStoreLaws `{CryptoTypes} `{!PrivateKeys} (S : Type) `{!SafetyStore S} : Prop := {
  set_safety_data_Ok (s s' : S) d : set_safety_data d s = (s', Ok tt) -> get_safety_data s' = Ok d;
  set_safety_data_fails (s s' : S) d o : set_safety_data d s = (s', o) ->
    get_safety_data s' = Ok d \/ get_safety_data s' = get_safety_data s;
  set_safety_data_returns (s s' : S) d o : set_safety_data d s = (s', o) -> o <> Panic;
  set_waypoint_safety_data (s s' : S) w o : set_waypoint w s = (s', o) ->
    get_safety_data s' = get_safety_data s;
}.

(** [InMemoryStorage]: a value is set once it was written; what was written as
    safety data does not parse as a [Result]. *)
Module InMemoryStorage.
Section definitions.
Context `{CryptoTypes} `{!PrivateKeys}.

Record t := mk {
  owner_account : option AccountAddress;
  consensus_key : option PrivateKey;
  safety_data : option SafetyData.t;
  waypoint : option Waypoint.t;
}.

Definition new : t := mk None None None None.

#[global] Instance store : SafetyStore t := {|
  get_author s := ok_or (owner_account s) (KeyNotSet "owner_account");
  get_consensus_key s := ok_or (consensus_key s) (KeyNotSet "consensus");
  get_safety_data s := ok_or (safety_data s) (KeyNotSet "safety_data");
  get_safety_data_as_result s :=
    match safety_data s with
    | None => Err (KeyNotSet "safety_data")
    | Some _ => Err (StorageSerializationError "unknown variant, expected Ok or Err")
    end;
  get_waypoint s := ok_or (waypoint s) (KeyNotSet "waypoint");
  set_author a := modify (fun s => mk (Some a) (consensus_key s) (safety_data s) (waypoint s));
  set_consensus_key k := modify (fun s => mk (owner_account s) (Some k) (safety_data s) (waypoint s));
  set_safety_data d := modify (fun s => mk (owner_account s) (consensus_key s) (Some d) (waypoint s));
  set_waypoint w := modify (fun s => mk (owner_account s) (consensus_key s) (safety_data s) (Some w));
|}.

#[global] Instance store_laws : SafetyStoreLaws t.
Proof using Type.
  split.
  - intros s s' d [= <-]. done.
  - intros s s' d o [= <- _]. by left.
  - by intros s s' d o [= _ <-].
  - intros s s' w o [= <- _]. done.
Qed.
End definitions.
End InMemoryStorage.

Module PersistentSafetyStorage.
Section definitions.
Context `{CryptoTypes} `{!PrivateKeys} {Store : Type} `{!SafetyStore Store}.

Record t := mk {
  enable_cached_safety_data : bool;
  cached_safety_data : option SafetyData.t;
  internal_store : Store;
}.

Definition set_store (self : t) (store : Store) : t :=
  mk (enable_cached_safety_data self) (cached_safety_data self) store.
Definition set_cache (cache : option SafetyData.t) (self : t) : t :=
  mk (enable_cached_safety_data self) cache (internal_store self).

(** A write to the internal store. *)
Definition in_store {E A} (m : action Store E A) : action t E A := zoom internal_store set_store m.

Definition new (internal_store : Store) (enable_cached_safety_data : bool) : t :=
  mk enable_cached_safety_data None internal_store.

Definition author (self : t) : outcome Error.t AccountAddress :=
  Error.from_storage (get_author (internal_store self)).

Definition consensus_key_for_version (self : t) (version : PublicKey) : outcome Error.t PrivateKey :=
  key ← Error.from_storage (get_consensus_key (internal_store self));
  if bool_decide (public_key_of key = version) then Ok key
  else Err (Error.SecureStorageMissingDataError "PrivateKey not found").

(** [get(SAFETY_DATA).map(|v| v.value)?] is returned, so without the cache the
    value is read at the type of the result. *)
Definition safety_data : action t Error.t SafetyData.t :=
  fun self =>
    if negb (enable_cached_safety_data self) then
      (self, res ← Error.from_storage (get_safety_data_as_result (internal_store self)); res)
    else
      match cached_safety_data self with
      | Some cached_safety_data => (self, Ok cached_safety_data)
      | None =>
          match Error.from_storage (get_safety_data (internal_store self)) with
          | Ok safety_data => (set_cache (Some safety_data) self, Ok safety_data)
          | Err e => (self, Err e)
          | Panic => (self, Panic)
          end
      end.

Definition set_safety_data (data : SafetyData.t) : action t Error.t unit :=
  catch (in_store (set_safety_data data)) (fun o =>
    match o with
    | Ok _ => modify (set_cache (Some data))
    | Err error =>
        modify (set_cache None);;
        lift (Err (Error.SecureStorageUnexpectedError (Error.storage_error_text error)))
    | Panic => lift Panic
    end).

Definition waypoint (self : t) : outcome Error.t Waypoint.t :=
  Error.from_storage (get_waypoint (internal_store self)).

Definition set_waypoint (waypoint : Waypoint.t) : action t Error.t unit :=
  catch (in_store (set_waypoint waypoint)) (fun o => lift (Error.from_storage o)).

Definition initialize_keys_and_accounts (author : AccountAddress) (consensus_private_key : PrivateKey) :
    action Store Error.t unit :=
  catch (set_consensus_key consensus_private_key) (fun result =>
    match result with
    | Err (KeyAlreadyExists _) => mret tt
    | _ => catch (set_author author) (fun o => lift (Error.from_storage o))
    end).

Definition initialize (internal_store : Store) (author : AccountAddress)
    (consensus_private_key : PrivateKey) (waypoint : Waypoint.t) (enable_cached_safety_data : bool) :
    outcome Error.t t :=
  let '(internal_store, o) := initialize_keys_and_accounts author consensus_private_key internal_store in
  unwrap o;;
  let safety_data := SafetyData.new 1 0 0 0 None in
  let self := mk enable_cached_safety_data (Some safety_data) internal_store in
  let '(self, o) := set_safety_data safety_data self in
  unwrap o;;
  let '(self, o) := set_waypoint waypoint self in
  unwrap o;;
  Ok self.
End definitions.
End PersistentSafetyStorage.

Definition next_round `{CryptoTypes} (round : Z) : outcome Error.t Z :=
  ok_or (u64_checked_add round 1) (Error.IncorrectRound round).

Module ConsensusState.
Section definitions.
Context `{CryptoTypes}.

Record t := new {
  safety_data : SafetyData.t;
  waypoint : Waypoint.t;
  in_validator_set : bool;
}.
End definitions.
End ConsensusState.

Module SafetyRules.
Section definitions.
Context `{CryptoTypes} `{!PrivateKeys} `{!BlsAggregate} `{!MerkleHasher HashValue} `{!Transactions}
  `{!CryptoHash VoteData.t} `{!WaypointHasher}
  `{!Bls LedgerInfo.t} `{!Bls TimeoutSigningRepr.t} `{!Bls BlockData.t}
  `{!BlsSign LedgerInfo.t} `{!BlsSign TimeoutSigningRepr.t} `{!BlsSign BlockData.t}
  {Store : Type} `{!SafetyStore Store}.

Record t := mk {
  persistent_storage : PersistentSafetyStorage.t (Store:=Store);
  validator_signer : option ValidatorSigner.t;
  epoch_state : option EpochState.t;
}.

Definition set_storage (self : t) (storage : PersistentSafetyStorage.t) : t :=
  mk storage (validator_signer self) (epoch_state self).
Definition set_signer (signer : option ValidatorSigner.t) (self : t) : t :=
  mk (persistent_storage self) signer (epoch_state self).
Definition set_epoch_state (es : option EpochState.t) (self : t) : t :=
  mk (persistent_storage self) (validator_signer self) es.

Abbreviation M := (action t Error.t).

(** A method of the persistent storage, and one that only reads it. *)
Definition storage {A} (m : action PersistentSafetyStorage.t Error.t A) : M A :=
  zoom persistent_storage set_storage m.
Definition read_storage {A} (f : PersistentSafetyStorage.t -> outcome Error.t A) : M A :=
  fun self => (self, f (persistent_storage self)).

Definition new (persistent_storage : PersistentSafetyStorage.t) : t := mk persistent_storage None None.

Definition get_signer : M ValidatorSigner.t :=
  fun self => (self, ok_or (validator_signer self) (Error.NotInitialized "validator_signer")).

Definition get_epoch_state : M EpochState.t :=
  fun self => (self, ok_or (epoch_state self) (Error.NotInitialized "epoch_state")).

Definition sign {X} `{!BlsSign X} (message : X) : M Signature :=
  signer ← get_signer;
  lift (map_err Error.SerializationError (ValidatorSigner.sign signer message)).

Definition observe_qc (qc : QuorumCert.t) (d : SafetyData.t) : SafetyData.t * bool :=
  let one_chain := BlockInfo.round (QuorumCert.certified_block qc) in
  let two_chain := BlockInfo.round (QuorumCert.parent_block qc) in
  let '(d, updated) :=
    if SafetyData.one_chain_round d <? one_chain
    then (SafetyData.new (SafetyData.epoch d) (SafetyData.last_voted_round d)
            (SafetyData.preferred_round d) one_chain (SafetyData.last_vote d), true)
    else (d, false) in
  if SafetyData.preferred_round d <? two_chain
  then (SafetyData.new (SafetyData.epoch d) (SafetyData.last_voted_round d) two_chain
          (SafetyData.one_chain_round d) (SafetyData.last_vote d), true)
  else (d, updated).

Definition verify_and_update_preferred_round (quorum_cert : QuorumCert.t) (d : SafetyData.t) :
    outcome Error.t (SafetyData.t * bool) :=
  let preferred_round := SafetyData.preferred_round d in
  let one_chain_round := BlockInfo.round (QuorumCert.certified_block quorum_cert) in
  if one_chain_round <? preferred_round
  then Err (Error.IncorrectPreferredRound one_chain_round preferred_round)
  else Ok (observe_qc quorum_cert d).

Definition verify_author (author : option AccountAddress) : M unit :=
  signer ← get_signer;
  author ← lift (ok_or author (Error.InvalidProposal "No author found in the proposal"));
  lift (ensure (ValidatorSigner.author signer =? author)
          (Error.InvalidProposal "Proposal author is not validator signer!")).

Definition verify_epoch (epoch : Z) (d : SafetyData.t) : outcome Error.t unit :=
  ensure (epoch =? SafetyData.epoch d) (Error.IncorrectEpoch epoch (SafetyData.epoch d)).

Definition verify_and_update_last_vote_round (round : Z) (d : SafetyData.t) :
    outcome Error.t SafetyData.t :=
  if round <=? SafetyData.last_voted_round d
  then Err (Error.IncorrectLastVotedRound round (SafetyData.last_voted_round d))
  else Ok (SafetyData.new (SafetyData.epoch d) round (SafetyData.preferred_round d)
             (SafetyData.one_chain_round d) (SafetyData.last_vote d)).

Definition verify_qc (qc : QuorumCert.t) : M unit :=
  epoch_state ← get_epoch_state;
  lift (map_err Error.InvalidQuorumCertificate (QuorumCert.verify qc (EpochState.verifier epoch_state))).

Definition verify_tc (tc : TwoChainTimeoutCertificate.t) : M unit :=
  epoch_state ← get_epoch_state;
  lift (map_err Error.InvalidTimeoutCertificate
          (TwoChainTimeoutCertificate.verify tc (EpochState.verifier epoch_state))).

(** [if let Some(tc) = timeout_cert { self.verify_tc(tc)? }]. *)
Definition verify_tc_opt (timeout_cert : option TwoChainTimeoutCertificate.t) : M unit :=
  match timeout_cert with
  | Some tc => verify_tc tc
  | None => mret tt
  end.

Definition verify_proposal (vote_proposal : VoteProposal.t) (current_ts : Z) : M VoteData.t :=
  let proposed_block := VoteProposal.block vote_proposal in
  safety_data ← storage PersistentSafetyStorage.safety_data;
  lift (verify_epoch (Block.epoch proposed_block) safety_data);;
  verify_qc (Block.quorum_cert proposed_block);;
  epoch_state ← get_epoch_state;
  lift (map_err Error.InvalidProposal
          (Block.validate_signature proposed_block (EpochState.verifier epoch_state)));;
  lift (map_err Error.InvalidProposal (Block.verify_well_formed proposed_block current_ts));;
  lift (map_err Error.InvalidAccumulatorExtension (VoteProposal.gen_vote_data vote_proposal)).

Definition safe_to_timeout (timeout : TwoChainTimeout.t)
    (maybe_tc : option TwoChainTimeoutCertificate.t) (d : SafetyData.t) : outcome Error.t unit :=
  let round := TwoChainTimeout.round timeout in
  let qc_round := TwoChainTimeout.hqc_round timeout in
  let tc_round := match maybe_tc with Some tc => TwoChainTimeoutCertificate.round tc | None => 0 end in
  qc_next ← next_round qc_round;
  ok ← (if round =? qc_next then Ok true
        else tc_next ← next_round tc_round; Ok (round =? tc_next) : outcome Error.t bool);
  if ok && (SafetyData.one_chain_round d <=? qc_round) then Ok tt
  else Err (Error.NotSafeToTimeout round qc_round tc_round (SafetyData.one_chain_round d)).

Definition safe_to_vote (block : Block.t) (maybe_tc : option TwoChainTimeoutCertificate.t) :
    outcome Error.t unit :=
  let round := Block.round block in
  let qc_round := BlockInfo.round (QuorumCert.certified_block (Block.quorum_cert block)) in
  let tc_round := match maybe_tc with Some tc => TwoChainTimeoutCertificate.round tc | None => 0 end in
  let hqc_round :=
    match maybe_tc with Some tc => TwoChainTimeoutCertificate.highest_hqc_round tc | None => 0 end in
  qc_next ← next_round qc_round;
  ok ← (if round =? qc_next then Ok true
        else tc_next ← next_round tc_round; Ok ((round =? tc_next) && (hqc_round <=? qc_round))
        : outcome Error.t bool);
  if ok : bool then Ok tt else Err (Error.NotSafeToVote round qc_round tc_round hqc_round).

Definition construct_ledger_info_2chain (proposed_block : Block.t) (consensus_data_hash : HashValue) :
    outcome Error.t LedgerInfo.t :=
  let block1 := Block.round proposed_block in
  let block0 := BlockInfo.round (QuorumCert.certified_block (Block.quorum_cert proposed_block)) in
  next ← next_round block0;
  let commit_info :=
    if next =? block1 then QuorumCert.certified_block (Block.quorum_cert proposed_block)
    else BlockInfo.empty in
  Ok (LedgerInfo.new commit_info consensus_data_hash).

Definition guarded_sign_timeout_with_qc (timeout : TwoChainTimeout.t)
    (timeout_cert : option TwoChainTimeoutCertificate.t) : M Signature :=
  get_signer;;
  safety_data ← storage PersistentSafetyStorage.safety_data;
  lift (verify_epoch (TwoChainTimeout.epoch timeout) safety_data);;
  epoch_state ← get_epoch_state;
  lift (map_err Error.InvalidTimeout (TwoChainTimeout.verify timeout (EpochState.verifier epoch_state)));;
  verify_tc_opt timeout_cert;;
  lift (safe_to_timeout timeout timeout_cert safety_data);;
  (if TwoChainTimeout.round timeout <? SafetyData.last_voted_round safety_data
   then lift (Err (Error.IncorrectLastVotedRound (TwoChainTimeout.round timeout)
                     (SafetyData.last_voted_round safety_data)))
   else if SafetyData.last_voted_round safety_data <? TwoChainTimeout.round timeout
   then
     safety_data ← lift (verify_and_update_last_vote_round (TwoChainTimeout.round timeout) safety_data);
     storage (PersistentSafetyStorage.set_safety_data safety_data)
   else mret tt);;
  sign (TwoChainTimeout.signing_format timeout).

(** The rest of [guarded_construct_and_sign_vote_two_chain], for a proposal that has
    not been voted on. *)
Definition construct_vote (proposed_block : Block.t) (timeout_cert : option TwoChainTimeoutCertificate.t)
    (vote_data : VoteData.t) (safety_data : SafetyData.t) : M Vote.t :=
  safety_data ← lift (verify_and_update_last_vote_round
                        (BlockData.round (Block.block_data proposed_block)) safety_data);
  lift (safe_to_vote proposed_block timeout_cert);;
  let safety_data := (observe_qc (Block.quorum_cert proposed_block) safety_data).1 in
  signer ← get_signer;
  ledger_info ← lift (construct_ledger_info_2chain proposed_block (hash vote_data));
  signature ← sign ledger_info;
  let vote := Vote.new_with_signature vote_data (ValidatorSigner.author signer) ledger_info signature in
  storage (PersistentSafetyStorage.set_safety_data
    (SafetyData.new (SafetyData.epoch safety_data) (SafetyData.last_voted_round safety_data)
       (SafetyData.preferred_round safety_data) (SafetyData.one_chain_round safety_data) (Some vote)));;
  mret vote.

Definition guarded_construct_and_sign_vote_two_chain (vote_proposal : VoteProposal.t)
    (timeout_cert : option TwoChainTimeoutCertificate.t) (current_ts : Z) : M Vote.t :=
  get_signer;;
  vote_data ← verify_proposal vote_proposal current_ts;
  verify_tc_opt timeout_cert;;
  let proposed_block := VoteProposal.block vote_proposal in
  safety_data ← storage PersistentSafetyStorage.safety_data;
  match SafetyData.last_vote safety_data with
  | Some vote =>
      if BlockInfo.round (VoteData.proposed (Vote.vote_data vote)) =? Block.round proposed_block
      then mret vote
      else construct_vote proposed_block timeout_cert vote_data safety_data
  | None => construct_vote proposed_block timeout_cert vote_data safety_data
  end.

Definition guarded_consensus_state : M ConsensusState.t :=
  read_storage PersistentSafetyStorage.waypoint;;
  storage PersistentSafetyStorage.safety_data;;
  safety_data ← storage PersistentSafetyStorage.safety_data;
  waypoint ← read_storage PersistentSafetyStorage.waypoint;
  in_validator_set ← gets (fun self => match validator_signer self with Some _ => true | None => false end);
  mret (ConsensusState.new safety_data waypoint in_validator_set).

(** The reconciliation of the consensus key at the end of [guarded_initialize]. *)
Definition reconcile_key (epoch_state : EpochState.t) (author : AccountAddress) : M unit :=
  expected_key ← lift (ValidatorVerifier.get_public_key (EpochState.verifier epoch_state) author);
  match expected_key with
  | None => lift (Err (Error.ValidatorNotInSet author))
  | Some expected_key =>
      current_key ← gets (fun self => option_map ValidatorSigner.public_key (validator_signer self));
      if bool_decide (current_key = Some expected_key) then mret tt
      else
        self ← gets (fun self => self);
        match PersistentSafetyStorage.consensus_key_for_version (persistent_storage self) expected_key with
        | Ok consensus_key => modify (set_signer (Some (ValidatorSigner.new author consensus_key)))
        | Err (Error.SecureStorageMissingDataError error) => lift (Err (Error.ValidatorKeyNotFound error))
        | Err error => lift (Err error)
        | Panic => lift Panic
        end
  end.

Definition guarded_initialize (proof : EpochChangeProof.t) : M unit :=
  waypoint ← read_storage PersistentSafetyStorage.waypoint;
  last_li ← lift (map_err Error.InvalidEpochChangeProof
                    (EpochChangeProof.verify proof (Waypoint.as_verifier waypoint)));
  let ledger_info := LedgerInfoWithSignatures.ledger_info last_li in
  epoch_state ← lift (ok_or (LedgerInfo.next_epoch_state ledger_info) Error.InvalidLedgerInfo);
  new_waypoint ← lift (map_err Error.InternalError (Waypoint.new_epoch_boundary ledger_info));
  (if Waypoint.version waypoint <? Waypoint.version new_waypoint
   then storage (PersistentSafetyStorage.set_waypoint new_waypoint) else mret tt);;
  safety_data ← storage PersistentSafetyStorage.safety_data;
  let current_epoch := SafetyData.epoch safety_data in
  match Z.compare current_epoch (EpochState.epoch epoch_state) with
  | Gt => lift (Err (Error.WaypointOutOfDate (Waypoint.version waypoint) (Waypoint.version new_waypoint)
                       current_epoch (EpochState.epoch epoch_state)))
  | Lt => storage (PersistentSafetyStorage.set_safety_data
                     (SafetyData.new (EpochState.epoch epoch_state) 0 0 0 None))
  | Eq => mret tt
  end;;
  modify (set_epoch_state (Some epoch_state));;
  author ← read_storage PersistentSafetyStorage.author;
  catch (reconcile_key epoch_state author) (fun o =>
    match o with
    | Ok _ => mret tt
    | Err error => modify (set_signer None);; lift (Err error)
    | Panic => lift Panic
    end).

Definition guarded_sign_proposal (block_data : BlockData.t) : M Signature :=
  get_signer;;
  verify_author (BlockData.author block_data);;
  safety_data ← storage PersistentSafetyStorage.safety_data;
  lift (verify_epoch (BlockData.epoch block_data) safety_data);;
  lift (ensure (SafetyData.last_voted_round safety_data <? BlockData.round block_data)
          (Error.InvalidProposal "Proposed round is not higher than last voted round"));;
  verify_qc (BlockData.quorum_cert block_data);;
  lift (verify_and_update_preferred_round (BlockData.quorum_cert block_data) safety_data);;
  sign block_data.

Definition guarded_sign_commit_vote (ledger_info : LedgerInfoWithSignatures.t)
    (new_ledger_info : LedgerInfo.t) : M Signature :=
  get_signer;;
  let old_ledger_info := LedgerInfoWithSignatures.ledger_info ledger_info in
  lift (ensure (BlockInfo.is_ordered_only (LedgerInfo.commit_info old_ledger_info))
          (Error.InvalidOrderedLedgerInfo old_ledger_info));;
  lift (ensure (BlockInfo.match_ordered_only (LedgerInfo.commit_info old_ledger_info)
                  (LedgerInfo.commit_info new_ledger_info))
          (Error.InconsistentExecutionResult (LedgerInfo.commit_info old_ledger_info)
             (LedgerInfo.commit_info new_ledger_info)));;
  epoch_state ← get_epoch_state;
  lift (map_err (fun e => Error.InvalidQuorumCertificate (VerifyError_text e))
          (LedgerInfoWithSignatures.verify_signatures ledger_info (EpochState.verifier epoch_state)));;
  sign new_ledger_info.
End definitions.

(** ** What the methods leave in storage *)
Section storage_facts.
Context `{CryptoTypes} `{!PrivateKeys} `{!BlsAggregate} `{!MerkleHasher HashValue} `{!Transactions}
  `{!CryptoHash VoteData.t} `{!WaypointHasher}
  `{!Bls LedgerInfo.t} `{!Bls TimeoutSigningRepr.t} `{!Bls BlockData.t}
  `{!BlsSign LedgerInfo.t} `{!BlsSign TimeoutSigningRepr.t} `{!BlsSign BlockData.t}
  {Store : Type} `{!SafetyStore Store} `{!SafetyStoreLaws Store}.
Implicit Types (s : t (Store:=Store)) (d : SafetyData.t).

(** The safety data a state has in storage. *)
Definition stored s : outcome StorageError SafetyData.t :=
  get_safety_data (PersistentSafetyStorage.internal_store (persistent_storage s)).

(** The cache is used and agrees with storage. *)
Definition coherent s : Prop :=
  PersistentSafetyStorage.enable_cached_safety_data (persistent_storage s) = true /\
  forall d, PersistentSafetyStorage.cached_safety_data (persistent_storage s) = Some d -> stored s = Ok d.

(** Two states with the same safety data and validators. *)
Definition same s s' : Prop :=
  (coherent s -> coherent s') /\ stored s' = stored s /\ epoch_state s' = epoch_state s.

(** A method that leaves the safety data as it is. *)
Definition quiet {A} (m : action t Error.t A) : Prop := forall s s' o, m s = (s', o) -> same s s'.

Lemma same_refl s : same s s.
Proof using Type. by split_and!. Qed.

Lemma same_trans s1 s2 s3 : same s1 s2 -> same s2 s3 -> same s1 s3.
Proof using Type. intros (Hc & Hs & He) (Hc' & Hs' & He'). split_and!; [auto|congruence..]. Qed.

Lemma quiet_bind_inv {A B} (f : A -> action t Error.t B) (m : action t Error.t A) s s' o : quiet m ->
  (m ≫= f) s = (s', o) ->
  (exists s1 a, m s = (s1, Ok a) /\ same s s1 /\ f a s1 = (s', o)) \/ (same s s' /\ forall b, o <> Ok b).
Proof using Type.
  intros Hq Hm. apply action_bind_inv in Hm as [(s1 & a & Hm & Hf)|[(e & Hm & ->)|[Hm ->]]].
  - left. exists s1, a. split_and!; [done|by eapply Hq|done].
  - right. split; [by eapply Hq|done].
  - right. split; [by eapply Hq|done].
Qed.

Lemma quiet_bind {A B} (f : A -> action t Error.t B) (m : action t Error.t A) :
  quiet m -> (forall a, quiet (f a)) -> quiet (m ≫= f).
Proof using Type.
  intros Hm Hf s s' o Hr. apply quiet_bind_inv in Hr as [(s1 & a & _ & Hs & Hr)|[? _]]; [|done|done].
  eapply same_trans; [done|by eapply Hf].
Qed.

Lemma quiet_lift {A} (o : outcome Error.t A) : quiet (lift o).
Proof using Type. intros s s' o' [= <- _]. apply same_refl. Qed.

Lemma quiet_ret {A} (a : A) : quiet (mret a).
Proof using Type. intros s s' o' [= <- _]. apply same_refl. Qed.

Lemma quiet_gets {A} (f : t -> A) : quiet (gets f).
Proof using Type. intros s s' o' [= <- _]. apply same_refl. Qed.

Lemma quiet_read {A} (f : PersistentSafetyStorage.t -> outcome Error.t A) : quiet (read_storage f).
Proof using Type. intros s s' o' [= <- _]. apply same_refl. Qed.

Lemma quiet_set_signer signer : quiet (modify (set_signer signer)).
Proof using Type. intros s s' o' [= <- _]. by split_and!. Qed.

Lemma quiet_signer : quiet get_signer.
Proof using Type. intros s s' o' [= <- _]. apply same_refl. Qed.

Lemma quiet_epoch_state : quiet get_epoch_state.
Proof using Type. intros s s' o' [= <- _]. apply same_refl. Qed.

Lemma quiet_safety_data : quiet (storage PersistentSafetyStorage.safety_data).
Proof using Type.
  intros s s' o' Hr. unfold storage, zoom, PersistentSafetyStorage.safety_data in Hr.
  destruct (negb _); [injection Hr as <- _; by destruct s|].
  destruct (PersistentSafetyStorage.cached_safety_data _) eqn:Ec; [injection Hr as <- _; by destruct s|].
  destruct (get_safety_data _) as [d|e|] eqn:Eg.
  - injection Hr as <- _. split_and!; [|done|done]. intros [He _]. split; [done|]. by intros d' [= <-].
  - destruct e; injection Hr as <- _; by destruct s.
  - injection Hr as <- _; by destruct s.
Qed.

Lemma quiet_sign {X} `{!BlsSign X} (x : X) : quiet (sign x).
Proof using Type. apply quiet_bind; [apply quiet_signer|]. intros signer. apply quiet_lift. Qed.

Lemma quiet_verify_qc qc : quiet (verify_qc qc).
Proof using Type. apply quiet_bind; [apply quiet_epoch_state|]. intros es. apply quiet_lift. Qed.

Lemma quiet_verify_tc_opt tc : quiet (verify_tc_opt tc).
Proof using Type.
  destruct tc as [tc|]; [|apply quiet_ret]. apply quiet_bind; [apply quiet_epoch_state|].
  intros es. apply quiet_lift.
Qed.

#[local] Hint Resolve quiet_bind quiet_lift quiet_ret quiet_gets quiet_read quiet_signer quiet_epoch_state
  quiet_safety_data quiet_sign quiet_verify_qc quiet_verify_tc_opt quiet_set_signer : quiet.

(** Proves that a method made of quiet ones is quiet. *)
Ltac solve_quiet := repeat (apply quiet_bind; [auto with quiet|intros ?]); auto with quiet.

Lemma quiet_verify_proposal vp now : quiet (verify_proposal vp now).
Proof using Type. unfold verify_proposal. solve_quiet. Qed.
#[local] Hint Resolve quiet_verify_proposal : quiet.

Lemma quiet_sign_proposal bd : quiet (guarded_sign_proposal bd).
Proof using Type. unfold guarded_sign_proposal, verify_author. solve_quiet. Qed.

Lemma quiet_sign_commit_vote li new_li : quiet (guarded_sign_commit_vote li new_li).
Proof using Type. unfold guarded_sign_commit_vote. solve_quiet. Qed.

Lemma quiet_consensus_state : quiet guarded_consensus_state.
Proof using Type. unfold guarded_consensus_state. solve_quiet. Qed.

Lemma quiet_reconcile es a : quiet (reconcile_key es a).
Proof using Type.
  unfold reconcile_key. apply quiet_bind; [auto with quiet|]. intros [key|]; [|auto with quiet].
  apply quiet_bind; [auto with quiet|]. intros current. case_bool_decide; [auto with quiet|].
  apply quiet_bind; [auto with quiet|]. intros self.
  destruct (PersistentSafetyStorage.consensus_key_for_version _ _) as [k|[]|]; auto with quiet.
Qed.

(** *** Reading and writing the safety data *)
Lemma safety_data_run s s' d : coherent s ->
  storage PersistentSafetyStorage.safety_data s = (s', Ok d) -> stored s = Ok d.
Proof using Type.
  intros [He Hc] Hr. unfold storage, zoom, PersistentSafetyStorage.safety_data in Hr. rewrite He in Hr.
  cbn [negb] in Hr. destruct (PersistentSafetyStorage.cached_safety_data _) as [d0|] eqn:Ec.
  { injection Hr as _ <-. by apply Hc. }
  unfold stored. destruct (get_safety_data _) as [d1|[]|]; cbn in Hr; congruence.
Qed.

Lemma set_safety_data_run d s s' o : coherent s ->
  storage (PersistentSafetyStorage.set_safety_data d) s = (s', o) ->
  coherent s' /\ (stored s' = Ok d \/ stored s' = stored s) /\ epoch_state s' = epoch_state s /\
  (o = Ok tt -> stored s' = Ok d).
Proof.
  intros [He Hc] Hr. unfold storage, zoom, PersistentSafetyStorage.set_safety_data, catch,
    PersistentSafetyStorage.in_store, zoom in Hr.
  destruct (set_safety_data d _) as [store [[]|e|]] eqn:Es.
  - injection Hr as <- <-. pose proof (set_safety_data_Ok _ _ _ Es) as Hg.
    split_and!; [split; [done|by intros d' [= <-]]|by left|done|done].
  - cbn in Hr. injection Hr as <- <-.
    split_and!; [done|by eapply set_safety_data_fails|done|done].
  - by apply set_safety_data_returns in Es.
Qed.

Lemma set_waypoint_run w s s' o : storage (PersistentSafetyStorage.set_waypoint w) s = (s', o) -> same s s'.
Proof.
  intros Hr. unfold storage, zoom, PersistentSafetyStorage.set_waypoint, catch,
    PersistentSafetyStorage.in_store, zoom in Hr.
  destruct (set_waypoint w _) as [store r] eqn:Es. pose proof (set_waypoint_safety_data _ _ _ _ Es) as Hg.
  injection Hr as <- _. split_and!; [|done|done]. intros [He Hc]. split; [done|].
  intros d Hd. apply Hc in Hd. unfold stored in *. cbn. by rewrite Hg.
Qed.

(** *** Rounds *)
Lemma next_round_Ok r r' : next_round r = Ok r' -> r' = r + 1.
Proof using Type. unfold next_round, u64_checked_add. case_match; [|done]. by intros [= <-]. Qed.

Lemma safe_to_timeout_Ok timeout tc d : safe_to_timeout timeout tc d = Ok tt ->
  SafetyData.one_chain_round d <= TwoChainTimeout.hqc_round timeout.
Proof using Type.
  unfold safe_to_timeout. intros Hs. apply bind_Ok in Hs as (n & _ & Hs). apply bind_Ok in Hs as (b & _ & Hs).
  destruct (b && _) eqn:E; [|done]. apply andb_true_iff in E as [_ E]. by apply Z.leb_le.
Qed.

(** The voting rule: the block directly follows its certificate, or it follows a
    timeout certificate whose signers knew of no later certificate. *)
Definition may_vote (round qc_round : Z) (tc : option TwoChainTimeoutCertificate.t) : Prop :=
  round = qc_round + 1 \/
  round = match tc with Some tc => TwoChainTimeoutCertificate.round tc | None => 0 end + 1 /\
  match tc with Some tc => TwoChainTimeoutCertificate.highest_hqc_round tc | None => 0 end <= qc_round.

Lemma safe_to_vote_Ok block tc : safe_to_vote block tc = Ok tt ->
  may_vote (Block.round block) (BlockInfo.round (QuorumCert.certified_block (Block.quorum_cert block))) tc.
Proof using Type.
  unfold safe_to_vote, may_vote. intros Hs. apply bind_Ok in Hs as (n & Hn & Hs).
  apply next_round_Ok in Hn as ->. apply bind_Ok in Hs as (b & Hb & Hs). destruct b; [|done].
  destruct (Z.eqb_spec (Block.round block)
    (BlockInfo.round (QuorumCert.certified_block (Block.quorum_cert block)) + 1)); [by left|right].
  apply bind_Ok in Hb as (m & Hm & Hb). apply next_round_Ok in Hm as ->. injection Hb as Hb.
  apply andb_true_iff in Hb as [H1' H2']. by zbool.
Qed.

Lemma observe_qc_spec qc d : let d' := (observe_qc qc d).1 in
  SafetyData.epoch d' = SafetyData.epoch d /\
  SafetyData.last_voted_round d' = SafetyData.last_voted_round d /\
  SafetyData.one_chain_round d' =
    Z.max (SafetyData.one_chain_round d) (BlockInfo.round (QuorumCert.certified_block qc)) /\
  SafetyData.preferred_round d' =
    Z.max (SafetyData.preferred_round d) (BlockInfo.round (QuorumCert.parent_block qc)) /\
  SafetyData.last_vote d' = SafetyData.last_vote d.
Proof using Type.
  unfold observe_qc. destruct (Z.ltb_spec (SafetyData.one_chain_round d)
    (BlockInfo.round (QuorumCert.certified_block qc))); cbn;
    destruct (Z.ltb_spec (SafetyData.preferred_round d) (BlockInfo.round (QuorumCert.parent_block qc)));
    cbn; split_and!; lia || done.
Qed.

(** *** Signing a timeout *)
Definition times_out (timeout : TwoChainTimeout.t) d d' : Prop :=
  SafetyData.epoch d = TwoChainTimeout.epoch timeout /\
  SafetyData.last_voted_round d <= TwoChainTimeout.round timeout /\
  SafetyData.one_chain_round d <= TwoChainTimeout.hqc_round timeout /\
  d' = SafetyData.new (SafetyData.epoch d) (TwoChainTimeout.round timeout)
         (SafetyData.preferred_round d) (SafetyData.one_chain_round d) (SafetyData.last_vote d).

(** What a method that may write the safety data does: it returns a value [b] with
    [Q b] only when it has changed the data by [W], and otherwise may have. *)
Definition writes {B} (W : option EpochState.t -> SafetyData.t -> SafetyData.t -> Prop)
    (Q : B -> SafetyData.t -> Prop) s s' (o : outcome Error.t B) : Prop :=
  coherent s' /\ epoch_state s' = epoch_state s /\
  match o with
  | Ok b => exists d d', stored s = Ok d /\ stored s' = Ok d' /\ W (epoch_state s) d d' /\ Q b d'
  | _ => stored s' = stored s \/
      exists d d', stored s = Ok d /\ stored s' = Ok d' /\ W (epoch_state s) d d'
  end.

Lemma writes_same {B} W Q s s1 s' (o : outcome Error.t B) :
  same s s1 -> writes W Q s1 s' o -> writes W Q s s' o.
Proof using Type. intros (_ & Hs & He) Hw. unfold writes in *. by rewrite Hs, He in Hw. Qed.

Lemma writes_bind {A B} W Q (f : A -> action t Error.t B) (m : action t Error.t A) s s' o : quiet m ->
  coherent s -> (m ≫= f) s = (s', o) ->
  (forall s1 a, m s = (s1, Ok a) -> same s s1 -> coherent s1 -> f a s1 = (s', o) -> writes W Q s1 s' o) ->
  writes W Q s s' o.
Proof using Type.
  intros Hq Hc Hr Hf. apply quiet_bind_inv in Hr as [(s1 & a & Hm & Hs & Hr)|[Hs Hno]]; [| |done].
  - eapply writes_same; [done|]. eapply Hf; [done|done| |done]. by apply Hs.
  - destruct Hs as (Hc' & Hs & He). split_and!; [auto|done|]. destruct o; [by destruct (Hno a)|by left..].
Qed.

(** Quiet methods after which the data is what [W] allows. *)
Lemma writes_quiet {B} W Q (m : action t Error.t B) d s s' o : quiet m -> coherent s -> stored s = Ok d ->
  m s = (s', o) -> W (epoch_state s) d d -> (forall b, m s = (s', Ok b) -> Q b d) -> writes W Q s s' o.
Proof using Type.
  intros Hq Hc Hd Hr HW HQ. pose proof (Hq _ _ _ Hr) as (Hco & Hst & He). split_and!; [auto|done|].
  destruct o as [b|e|]; [|by left..]. exists d, d. rewrite Hst. by split_and!; [..|apply HQ].
Qed.

(** Runs one quiet method of the run [Hr]. *)
Ltac quiet_step Hr s1 a Hm :=
  let Hs := fresh "Hsame" in let Hc := fresh "Hc" in
  eapply writes_bind; [|eassumption|exact Hr|]; [solve [auto with quiet]|];
  clear Hr; intros s1 a Hm Hs Hc Hr; cbv beta in Hr.

(** Equality of what quiet methods leave as it is. *)
Ltac by_same := unfold same in *; destruct_and?; congruence.

Lemma lift_Ok {A} (o : outcome Error.t A) s s' a : lift o s = (s', Ok a) -> o = Ok a /\ s' = s.
Proof using Type. by intros [= <- <-]. Qed.

(** The write of the safety data, followed by quiet methods. *)
Lemma writes_set {B} W (Q : B -> SafetyData.t -> Prop) d d' (f : unit -> action t Error.t B) s s' o :
  coherent s -> stored s = Ok d -> (forall x, quiet (f x)) -> W (epoch_state s) d d' ->
  (forall s1 s2 b, f tt s1 = (s2, Ok b) -> Q b d') ->
  (storage (PersistentSafetyStorage.set_safety_data d') ≫= f) s = (s', o) -> writes W Q s s' o.
Proof.
  intros Hc Hd Hq HW HQ Hr.
  assert (forall s1 r, storage (PersistentSafetyStorage.set_safety_data d') s = (s1, r) -> same s1 s' ->
    (forall b, o <> Ok b) -> writes W Q s s' o) as Herr.
  { intros s1 r Hset (Hco & Hst & Hes) Hno. apply set_safety_data_run in Hset as (Hc1 & H1' & He1 & _); [|done].
    split_and!; [auto|congruence|]. rewrite Hst. destruct o as [b'|e|]; [by destruct (Hno b')|..];
      (destruct H1' as [->| ->]; [right; by exists d, d'|by left]). }
  apply action_bind_inv in Hr as [(s1 & [] & Hset & Hr)|[(e & Hset & ->)|[Hset ->]]];
    [|by eapply Herr; [done|apply same_refl|]..].
  pose proof (Hq tt _ _ _ Hr) as Hsame. destruct o as [b'|e|]; [|by eapply Herr..].
  apply set_safety_data_run in Hset as (Hc1 & _ & He1 & Hok); [|done]. destruct Hsame as (Hco & Hst & Hes).
  split_and!; [auto|congruence|]. exists d, d'. split_and!; [done|by rewrite Hst, Hok|done|by eapply HQ].
Qed.

Lemma sign_timeout_run timeout tc s s' o : coherent s ->
  guarded_sign_timeout_with_qc timeout tc s = (s', o) ->
  writes (fun _ => times_out timeout) (fun _ _ => True) s s' o.
Proof.
  intros Hc Hr. unfold guarded_sign_timeout_with_qc in Hr.
  quiet_step Hr s1 x1 Hm1. quiet_step Hr s2 d Hd. apply safety_data_run in Hd; [|done].
  quiet_step Hr s3 x3 Hep. apply lift_Ok in Hep as [Hep _]. quiet_step Hr s4 es Hm4.
  quiet_step Hr s5 x5 Hm5. quiet_step Hr s6 x6 Hm6. quiet_step Hr s7 x7 Hsafe.
  apply lift_Ok in Hsafe as [Hsafe _]. destruct x3, x7.
  apply safe_to_timeout_Ok in Hsafe. apply ensure_Ok, Z.eqb_eq in Hep.
  assert (stored s7 = Ok d) as Hd7 by by_same.
  destruct (Z.ltb_spec (TwoChainTimeout.round timeout) (SafetyData.last_voted_round d)) as [|Hge].
  { quiet_step Hr s8 x8 Hm8. by apply lift_Ok in Hm8 as [? _]. }
  set (d' := SafetyData.new (SafetyData.epoch d) (TwoChainTimeout.round timeout)
    (SafetyData.preferred_round d) (SafetyData.one_chain_round d) (SafetyData.last_vote d)).
  assert (times_out timeout d d') as Ht by done.
  destruct (Z.ltb_spec (SafetyData.last_voted_round d) (TwoChainTimeout.round timeout)) as [Hlt|Hle].
  - unfold verify_and_update_last_vote_round in Hr. rewrite (proj2 (Z.leb_gt _ _)) in Hr by lia.
    fold d' in Hr. change (lift (Ok d') ≫= _) with (storage (PersistentSafetyStorage.set_safety_data d')) in Hr.
    eapply (writes_set _ _ d d'); [done|done| | | |exact Hr]; [intros ?; cbv beta; auto with quiet|done|done].
  - assert (d' = d) as E by (unfold d'; destruct d; cbn in *; f_equal; lia). rewrite E in Ht.
    by eapply (writes_quiet _ _ _ d); [|exact Hc6|exact Hd7|exact Hr|..]; [solve_quiet|..].
Qed.

(** *** Voting *)

(** The vote [v] is a new one on the proposal: what was checked, and how it
    changes the safety data. *)
Record votes (vp : VoteProposal.t) (tc : option TwoChainTimeoutCertificate.t)
    (es : option EpochState.t) (v : Vote.t) d d' : Prop := {
  votes_epoch : SafetyData.epoch d = BlockInfo.epoch (VoteData.proposed (Vote.vote_data v));
  votes_round : SafetyData.last_voted_round d < BlockInfo.round (VoteData.proposed (Vote.vote_data v));
  votes_data : d' = SafetyData.new (SafetyData.epoch d)
    (BlockInfo.round (VoteData.proposed (Vote.vote_data v)))
    (Z.max (SafetyData.preferred_round d)
       (BlockInfo.round (QuorumCert.parent_block (Block.quorum_cert (VoteProposal.block vp)))))
    (Z.max (SafetyData.one_chain_round d) (BlockInfo.round (VoteData.parent (Vote.vote_data v)))) (Some v);
  votes_id : BlockInfo.id (VoteData.proposed (Vote.vote_data v)) = Block.id (VoteProposal.block vp);
  votes_block_epoch : BlockInfo.epoch (VoteData.proposed (Vote.vote_data v)) = Block.epoch (VoteProposal.block vp);
  votes_parent : VoteData.parent (Vote.vote_data v) =
    QuorumCert.certified_block (Block.quorum_cert (VoteProposal.block vp));
  votes_parent_epoch : BlockInfo.epoch (VoteData.parent (Vote.vote_data v)) =
    BlockInfo.epoch (VoteData.proposed (Vote.vote_data v));
  votes_parent_round : BlockInfo.round (VoteData.parent (Vote.vote_data v)) <
    BlockInfo.round (VoteData.proposed (Vote.vote_data v));
  votes_rule : may_vote (BlockInfo.round (VoteData.proposed (Vote.vote_data v)))
    (BlockInfo.round (VoteData.parent (Vote.vote_data v))) tc;
  votes_hash : LedgerInfo.consensus_data_hash (Vote.ledger_info v) = hash (Vote.vote_data v);
  votes_commit : LedgerInfo.commit_info (Vote.ledger_info v) =
    if BlockInfo.round (VoteData.parent (Vote.vote_data v)) + 1 =?
       BlockInfo.round (VoteData.proposed (Vote.vote_data v))
    then VoteData.parent (Vote.vote_data v) else BlockInfo.empty;
  votes_verified : exists epoch_state, es = Some epoch_state /\
    QuorumCert.verify (Block.quorum_cert (VoteProposal.block vp)) (EpochState.verifier epoch_state) = Ok tt /\
    forall c, tc = Some c -> TwoChainTimeoutCertificate.verify c (EpochState.verifier epoch_state) = Ok tt;
}.

Lemma get_epoch_state_Ok s s' es : get_epoch_state s = (s', Ok es) -> s' = s /\ epoch_state s = Some es.
Proof using Type. intros [= <- He]. destruct (epoch_state s); cbn in He; [by injection He as ->|done]. Qed.

Lemma verify_qc_Ok qc s s' x : verify_qc qc s = (s', Ok x) ->
  exists es, epoch_state s = Some es /\ QuorumCert.verify qc (EpochState.verifier es) = Ok tt.
Proof using Type.
  intros Hr. apply action_bind_Ok in Hr as (s1 & es & He & Hr). apply get_epoch_state_Ok in He as [-> He].
  apply lift_Ok in Hr as [Hr _]. apply map_err_Ok in Hr. destruct x. by exists es.
Qed.

Lemma verify_tc_opt_Ok tc s s' x es : verify_tc_opt tc s = (s', Ok x) -> epoch_state s = Some es ->
  forall c, tc = Some c -> TwoChainTimeoutCertificate.verify c (EpochState.verifier es) = Ok tt.
Proof using Type.
  intros Hr Hes c ->. apply action_bind_Ok in Hr as (s1 & es' & He & Hr).
  apply get_epoch_state_Ok in He as [-> He]. simplify_eq.
  apply lift_Ok in Hr as [Hr _]. apply map_err_Ok in Hr. by destruct x.
Qed.

Lemma gen_vote_data_Ok vp vd : VoteProposal.gen_vote_data vp = Ok vd ->
  VoteData.parent vd = QuorumCert.certified_block (Block.quorum_cert (VoteProposal.block vp)) /\
  BlockInfo.epoch (VoteData.proposed vd) = Block.epoch (VoteProposal.block vp) /\
  BlockInfo.round (VoteData.proposed vd) = Block.round (VoteProposal.block vp) /\
  BlockInfo.id (VoteData.proposed vd) = Block.id (VoteProposal.block vp).
Proof using Type.
  unfold VoteProposal.gen_vote_data. destruct (VoteProposal.decoupled_execution vp); [by intros [= <-]|].
  intros Hv. apply bind_Ok in Hv as (tree & _ & Hv). by injection Hv as <-.
Qed.

(** Well-formed blocks are later than their parent, in its epoch. *)
Lemma verify_well_formed_parent b now : Block.verify_well_formed b now = Ok tt ->
  BlockInfo.round (QuorumCert.certified_block (Block.quorum_cert b)) < Block.round b /\
  BlockInfo.epoch (QuorumCert.certified_block (Block.quorum_cert b)) = Block.epoch b.
Proof using Type.
  unfold Block.verify_well_formed. rewrite !seq_Ok, !ensure_Ok. intros (_ & Hlt & He & _). by zbool.
Qed.

Lemma verify_proposal_Ok vp now s s' vd : coherent s -> verify_proposal vp now s = (s', Ok vd) ->
  exists es d, epoch_state s = Some es /\ stored s = Ok d /\
    SafetyData.epoch d = Block.epoch (VoteProposal.block vp) /\
    QuorumCert.verify (Block.quorum_cert (VoteProposal.block vp)) (EpochState.verifier es) = Ok tt /\
    Block.verify_well_formed (VoteProposal.block vp) now = Ok tt /\
    VoteProposal.gen_vote_data vp = Ok vd.
Proof using Type.
  intros Hc Hr. unfold verify_proposal in Hr. cbn zeta in Hr.
  apply action_bind_Ok in Hr as (s1 & d & Hd & Hr).
  pose proof (quiet_safety_data _ _ _ Hd) as (_ & _ & He1). apply safety_data_run in Hd; [|done].
  apply action_bind_Ok in Hr as (s2 & [] & Hep & Hr). apply lift_Ok in Hep as [Hep ->].
  apply ensure_Ok, Z.eqb_eq in Hep. apply action_bind_Ok in Hr as (s3 & x3 & Hqc & Hr).
  apply verify_qc_Ok in Hqc as (es & Hes & Hqc). apply action_bind_Ok in Hr as (s4 & es4 & _ & Hr).
  apply action_bind_Ok in Hr as (s5 & x5 & _ & Hr). apply action_bind_Ok in Hr as (s6 & [] & Hwf & Hr).
  apply lift_Ok in Hwf as [Hwf _]. apply map_err_Ok in Hwf. apply lift_Ok in Hr as [Hr _].
  apply map_err_Ok in Hr. exists es, d. split_and!; congruence.
Qed.

Lemma construct_ledger_info_Ok b h li : construct_ledger_info_2chain b h = Ok li ->
  LedgerInfo.consensus_data_hash li = h /\
  LedgerInfo.commit_info li =
    if BlockInfo.round (QuorumCert.certified_block (Block.quorum_cert b)) + 1 =? Block.round b
    then QuorumCert.certified_block (Block.quorum_cert b) else BlockInfo.empty.
Proof using Type.
  unfold construct_ledger_info_2chain. intros Hl. apply bind_Ok in Hl as (n & Hn & Hl).
  apply next_round_Ok in Hn as ->. by injection Hl as <-.
Qed.

(** How voting may change the safety data. *)
Definition vote_change vp tc es d d' : Prop := d' = d \/ exists v, votes vp tc es v d d'.

Lemma construct_vote_run vp tc vd d es s s' o : coherent s -> stored s = Ok d -> epoch_state s = Some es ->
  let qc := Block.quorum_cert (VoteProposal.block vp) in
  SafetyData.epoch d = Block.epoch (VoteProposal.block vp) ->
  BlockInfo.round (QuorumCert.certified_block qc) < Block.round (VoteProposal.block vp) ->
  BlockInfo.epoch (QuorumCert.certified_block qc) = Block.epoch (VoteProposal.block vp) ->
  VoteProposal.gen_vote_data vp = Ok vd ->
  QuorumCert.verify qc (EpochState.verifier es) = Ok tt ->
  (forall c, tc = Some c -> TwoChainTimeoutCertificate.verify c (EpochState.verifier es) = Ok tt) ->
  construct_vote (VoteProposal.block vp) tc vd d s = (s', o) ->
  writes (vote_change vp tc) (fun v d' => SafetyData.last_vote d' = Some v) s s' o.
Proof.
  intros Hc Hd He qc Hep Hlt Hpe Hvd Hqc Hvtc Hr. unfold construct_vote in Hr.
  quiet_step Hr s1 d1 Hd1. apply lift_Ok in Hd1 as [Hd1 _].
  quiet_step Hr s2 x2 Hsv. apply lift_Ok in Hsv as [Hsv _]. destruct x2. apply safe_to_vote_Ok in Hsv.
  quiet_step Hr s3 signer Hm3. quiet_step Hr s4 li Hli. apply lift_Ok in Hli as [Hli _].
  apply construct_ledger_info_Ok in Hli as [Hh Hci]. quiet_step Hr s5 signature Hm5.
  apply gen_vote_data_Ok in Hvd as (Hpa & Hve & Hvr & Hid).
  destruct (observe_qc_spec qc d1) as (He1 & Hl1 & Ho1 & Hp1 & _).
  unfold verify_and_update_last_vote_round in Hd1.
  destruct (Z.leb_spec (BlockData.round (Block.block_data (VoteProposal.block vp)))
    (SafetyData.last_voted_round d)) as [|Hlv]; [done|]. injection Hd1 as <-.
  fold (Block.round (VoteProposal.block vp)) in *. cbn [SafetyData.epoch SafetyData.last_voted_round
    SafetyData.one_chain_round SafetyData.preferred_round] in He1, Hl1, Ho1, Hp1.
  eapply (writes_set _ _ d); [done|by_same| | | |exact Hr]; [intros ?; cbv beta; auto with quiet| |].
  - right. exists (Vote.new_with_signature vd (ValidatorSigner.author signer) li signature).
    replace (epoch_state s5) with (Some es) by by_same.
    constructor; cbn [Vote.vote_data Vote.ledger_info Vote.new_with_signature]; fold qc in Hpa, Hsv, Hci;
      rewrite ?Hpa, ?Hve, ?Hvr; try done.
    + fold qc. rewrite He1, Hl1, Ho1, Hp1. done.
    + exists es. done.
  - by intros s6 s7 b [= _ <-].
Qed.

Lemma vote_run vp tc now s s' o : coherent s ->
  guarded_construct_and_sign_vote_two_chain vp tc now s = (s', o) ->
  writes (vote_change vp tc) (fun v d' => SafetyData.last_vote d' = Some v) s s' o.
Proof.
  intros Hc Hr. unfold guarded_construct_and_sign_vote_two_chain in Hr.
  quiet_step Hr s1 x1 Hm1. quiet_step Hr s2 vd Hvp.
  apply verify_proposal_Ok in Hvp as (es & d & Hes & Hd & Hep & Hqc & Hwf & Hvd); [|done].
  apply verify_well_formed_parent in Hwf as [Hlt Hpe].
  quiet_step Hr s3 x3 Htc. assert (epoch_state s2 = Some es) as He2 by by_same.
  pose proof (verify_tc_opt_Ok _ _ _ _ _ Htc He2) as Hvtc.
  quiet_step Hr s4 d4 Hd4. apply safety_data_run in Hd4; [|done].
  assert (d4 = d) as -> by by_same. assert (stored s4 = Ok d) as Hs4 by by_same.
  assert (epoch_state s4 = Some es) as He4 by by_same.
  destruct (SafetyData.last_vote d) as [v|] eqn:Ev; [|by eapply construct_vote_run].
  destruct (_ =? _); [|by eapply construct_vote_run].
  eapply (writes_quiet _ _ _ d); [|done|done|exact Hr|..]; [auto with quiet|by left|].
  by intros b [= _ <-].
Qed.

(** *** Changing epochs *)

(** A write that failed has changed nothing. *)
Definition atomic_writes : Prop := forall (store store' : Store) d e,
  set_safety_data d store = (store', Err e) -> get_safety_data store' = get_safety_data store.

(** The safety data is reset for the epoch [es]. *)
Definition new_epoch (es : EpochState.t) s s' : Prop := exists d,
  stored s = Ok d /\ SafetyData.epoch d < EpochState.epoch es /\
  stored s' = Ok (SafetyData.new (EpochState.epoch es) 0 0 0 None).

(** What [guarded_initialize] does: nothing to the safety data and the validators,
    or only a write of the data that was reported to fail, or the validators are
    those of the epoch of the data, which may be a new one. *)
Definition initializes s s' : Prop :=
  (coherent s -> coherent s') /\
  (stored s' = stored s /\ epoch_state s' = epoch_state s \/
   (exists es, new_epoch es s s' /\ epoch_state s' = epoch_state s /\ ~ atomic_writes) \/
   exists es, epoch_state s' = Some es /\ (new_epoch es s s' \/
     stored s' = stored s /\ exists d, stored s = Ok d /\ SafetyData.epoch d = EpochState.epoch es)).

Lemma initializes_same s s1 s' : same s s1 -> initializes s1 s' -> initializes s s'.
Proof using Type.
  intros (Hc & Hs & He) [Hc' Hi]. split; [auto|]. unfold new_epoch in *. by rewrite Hs, He in Hi.
Qed.

Lemma initializes_refl s s' : same s s' -> initializes s s'.
Proof using Type. intros (Hc & Hs & He). split; [done|by left]. Qed.

Lemma initializes_bind {A B} (f : A -> action t Error.t B) (m : action t Error.t A) s s' o : quiet m ->
  (m ≫= f) s = (s', o) ->
  (forall s1 a, m s = (s1, Ok a) -> same s s1 -> f a s1 = (s', o) -> initializes s1 s') ->
  initializes s s'.
Proof using Type.
  intros Hq Hr Hf. apply quiet_bind_inv in Hr as [(s1 & a & Hm & Hs & Hr)|[Hs _]]; [| |done].
  - eapply initializes_same; [done|]. by eapply Hf.
  - by apply initializes_refl.
Qed.

Lemma quiet_catch {A B} (m : action t Error.t A) (h : outcome Error.t A -> action t Error.t B) :
  quiet m -> (forall o, quiet (h o)) -> quiet (catch m h).
Proof using Type.
  intros Hm Hh s s' o Hr. unfold catch in Hr. destruct (m s) as [s1 o1] eqn:Em.
  eapply same_trans; [by eapply Hm|by eapply Hh].
Qed.

(** The part of [guarded_initialize] after the safety data is up to date. *)
Lemma install_run es s s' o :
  (modify (set_epoch_state (Some es));;
   author ← read_storage PersistentSafetyStorage.author;
   catch (reconcile_key es author) (fun o =>
     match o with
     | Ok _ => mret tt
     | Err error => modify (set_signer None);; lift (Err error)
     | Panic => lift Panic
     end)) s = (s', o) ->
  (coherent s -> coherent s') /\ stored s' = stored s /\ epoch_state s' = Some es.
Proof using Type.
  intros Hr. apply action_bind_inv in Hr as [(s1 & [] & [= <-] & Hr)|[(e & [=] & _)|[[=] _]]].
  match type of Hr with ?m _ = _ => assert (quiet m) as Hq end.
  { apply quiet_bind; [auto with quiet|]. intros author. apply quiet_catch; [apply quiet_reconcile|].
    intros [[]|e|]; [auto with quiet| |auto with quiet]. solve_quiet. }
  by apply Hq in Hr as (Hc & Hs & He).
Qed.

Lemma set_safety_data_failed d s s' o : o <> Ok tt ->
  storage (PersistentSafetyStorage.set_safety_data d) s = (s', o) ->
  o <> Panic /\ (atomic_writes -> stored s' = stored s).
Proof.
  intros Ho Hr. unfold storage, zoom, PersistentSafetyStorage.set_safety_data, catch,
    PersistentSafetyStorage.in_store, zoom in Hr.
  destruct (set_safety_data d _) as [store [[]|e'|]] eqn:Es; [by injection Hr as _ <-| |].
  - injection Hr as <- <-. split; [done|]. intros Ha. by eapply Ha.
  - by apply set_safety_data_returns in Es.
Qed.

Lemma reset_run es d s s' o : coherent s -> stored s = Ok d -> SafetyData.epoch d < EpochState.epoch es ->
  storage (PersistentSafetyStorage.set_safety_data (SafetyData.new (EpochState.epoch es) 0 0 0 None)) s = (s', o) ->
  coherent s' /\ epoch_state s' = epoch_state s /\
  match o with
  | Ok _ => new_epoch es s s'
  | _ => stored s' = stored s \/ new_epoch es s s' /\ ~ atomic_writes
  end.
Proof.
  intros Hc Hd Hlt Hset. pose proof (set_safety_data_run _ _ _ _ Hc Hset) as (Hc' & Hst & He & Hok).
  split_and!; [done..|]. destruct o as [[]|e|]; [exists d; by split_and!; [..|apply Hok]| |];
    apply set_safety_data_failed in Hset as [Hno Hat]; [|done| |done]; [|done].
  destruct Hst as [Hst| ->]; [right|by left]. split; [by exists d|]. intros Ha.
  rewrite Hat, Hd in Hst by done. injection Hst as ->. cbn in Hlt. lia.
Qed.

(** Runs one quiet method of the run [Hr] of [guarded_initialize]. *)
Ltac init_step Hr s1 a Hm :=
  let Hs := fresh "Hsame" in let Hc := fresh "Hc" in
  eapply initializes_bind; [|exact Hr|]; [solve [auto with quiet]|];
  clear Hr; intros s1 a Hm Hs Hr; cbv beta in Hr;
  assert (coherent s1) as Hc by (apply Hs; assumption).

Lemma initialize_run proof s s' o : coherent s -> guarded_initialize proof s = (s', o) -> initializes s s'.
Proof.
  intros Hc Hr. unfold guarded_initialize in Hr.
  init_step Hr s1 w Hm1. init_step Hr s2 li Hm2. init_step Hr s3 es Hm3. init_step Hr s4 nw Hm4.
  assert (quiet (if Waypoint.version w <? Waypoint.version nw
    then storage (PersistentSafetyStorage.set_waypoint nw) else mret tt)) as Hq.
  { destruct (_ <? _); [|auto with quiet]. intros ????. by eapply set_waypoint_run. }
  init_step Hr s5 x5 Hm5. clear Hq. init_step Hr s6 d Hd.
  apply safety_data_run in Hd; [|done]. assert (stored s6 = Ok d) as Hd6 by by_same.
  destruct (Z.compare_spec (SafetyData.epoch d) (EpochState.epoch es)) as [He|Hlt|Hgt]; cbn zeta in Hr.
  - init_step Hr s7 x7 Hm7. apply install_run in Hr as (Hc' & Hst & Hes). split; [auto|]. right; right.
    exists es. split; [done|right]. split; [done|]. exists d. split; [by_same|done].
  - apply action_bind_inv in Hr as [(s7 & [] & Hset & Hr)|[(e & Hset & ->)|[Hset ->]]];
      apply (reset_run es d) in Hset as (Hc7 & He7 & Hne); try done; cycle 1.
    1-2: split; [done|]; destruct Hne as [Hst|[Hne Hat]]; [by left|right; left; by exists es].
    apply install_run in Hr as (Hc' & Hst & Hes). split; [auto|]. right; right. exists es.
    split; [done|left]. destruct Hne as (d0 & ? & ? & ?). exists d0. by rewrite Hst.
  - init_step Hr s7 x7 Hm7. by apply lift_Ok in Hm7 as [? _].
Qed.
End storage_facts.
End SafetyRules.

(** Without the cache, safety data that was written to storage cannot be read
    back: [safety_data] reads it at the type of its own result and fails. *)
Theorem uncached_safety_data_unreadable `{CryptoTypes} `{!PrivateKeys} (d : SafetyData.t)
    (self self' : PersistentSafetyStorage.t (Store:=InMemoryStorage.t)) :
  PersistentSafetyStorage.enable_cached_safety_data self = false ->
  PersistentSafetyStorage.set_safety_data d self = (self', Ok tt) ->
  exists error, PersistentSafetyStorage.safety_data self' = (self', Err (Error.SecureStorageUnexpectedError error)).
Proof.
  intros Hc [= <-]. eexists. unfold PersistentSafetyStorage.safety_data. cbn. by rewrite Hc.
Qed.

Section example.
#[local] Instance storage_keys : @PrivateKeys free_crypto := {| PrivateKey := Z; public_key_of := fun k => k |}.

Definition uncached : PersistentSafetyStorage.t (Store:=@InMemoryStorage.t free_crypto storage_keys) :=
  PersistentSafetyStorage.mk false (Some (SafetyData.new 1 0 0 0 None))
    (@InMemoryStorage.mk free_crypto storage_keys None None (Some (SafetyData.new 1 0 0 0 None)) None).

Lemma uncached_safety_data_unreadable_witness :
  exists error, PersistentSafetyStorage.safety_data uncached =
    (uncached, Err (Error.SecureStorageUnexpectedError error)).
Proof.
  by apply (uncached_safety_data_unreadable (SafetyData.new 1 0 0 0 None)
    (PersistentSafetyStorage.new InMemoryStorage.new false)).
Defined.
End example.
