(* ===== verification/SafetyHistory.v ===== *)
(** * What a validator signs over time

    A validator's safety rules ([consensus/safety-rules]) answer requests one at a
    time and may be restarted from their storage between any two.  This file
    defines the histories of requests and replies and shows what holds of the
    votes and timeouts in them: the safety data never moves back, a validator
    votes at most once per round, and never for a block whose parent its own
    timeouts disown. *)

From S2P Require Import Prelude Collections Merkle InMemoryAccumulator BitVec ValidatorVerifier LedgerInfo.
From S2P Require Import TrustedState AccumulatorProofs QuorumCert Timeout2Chain ConsensusBlock SafetyRules.
Import SafetyRules.

(** ** Requests and replies *)
Section histories.
Context `{CryptoTypes} `{!PrivateKeys} `{!BlsAggregate} `{!MerkleHasher HashValue} `{!Transactions}
  `{!CryptoHash VoteData.t} `{!WaypointHasher}
  `{!Bls LedgerInfo.t} `{!Bls TimeoutSigningRepr.t} `{!Bls BlockData.t}
  `{!BlsSign LedgerInfo.t} `{!BlsSign TimeoutSigningRepr.t} `{!BlsSign BlockData.t}
  {Store : Type} `{!SafetyStore Store}.

(** The methods of [TSafetyRules], and a restart of the process. *)
Inductive request :=
  | ConsensusState
  | Initialize (proof : EpochChangeProof.t)
  | SignProposal (block_data : BlockData.t)
  | SignTimeoutWithQc (timeout : TwoChainTimeout.t) (timeout_cert : option TwoChainTimeoutCertificate.t)
  | ConstructAndSignVote (vote_proposal : VoteProposal.t)
      (timeout_cert : option TwoChainTimeoutCertificate.t) (current_ts : Z)
  | SignCommitVote (ledger_info : LedgerInfoWithSignatures.t) (new_ledger_info : LedgerInfo.t)
  | Restart.

Inductive reply :=
  | State (state : ConsensusState.t)
  | Signed (signature : Signature)
  | Voted (vote : Vote.t)
  | Done
  | Failed (error : Error.t)
  | Panicked.

Definition reply_of {A} (f : A -> reply) (o : outcome Error.t A) : reply :=
  match o with
  | Ok a => f a
  | Err e => Failed e
  | Panic => Panicked
  end.

(** A restart: the safety rules are made anew over the same internal store, with
    the cache enabled. *)
Definition restart (self : t) : t (Store:=Store) :=
  new (PersistentSafetyStorage.new (PersistentSafetyStorage.internal_store (persistent_storage self)) true).

Definition serve (r : request) (self : t (Store:=Store)) : t (Store:=Store) * reply :=
  match r with
  | ConsensusState => let '(s, o) := guarded_consensus_state self in (s, reply_of State o)
  | Initialize proof => let '(s, o) := guarded_initialize proof self in (s, reply_of (fun _ => Done) o)
  | SignProposal block_data => let '(s, o) := guarded_sign_proposal block_data self in (s, reply_of Signed o)
  | SignTimeoutWithQc timeout tc =>
      let '(s, o) := guarded_sign_timeout_with_qc timeout tc self in (s, reply_of Signed o)
  | ConstructAndSignVote vp tc now =>
      let '(s, o) := guarded_construct_and_sign_vote_two_chain vp tc now self in (s, reply_of Voted o)
  | SignCommitVote li new_li =>
      let '(s, o) := guarded_sign_commit_vote li new_li self in (s, reply_of Signed o)
  | Restart => (restart self, Done)
  end.

(** A request that was served, with the validators known at that time. *)
Record event := Event {
  asked : request;
  under : option EpochState.t;
  replied : reply;
}.

(** A state to start from: nothing has been voted for. *)
Definition starting (s : t (Store:=Store)) : Prop :=
  coherent s /\ epoch_state s = None /\ forall d, stored s = Ok d -> SafetyData.last_vote d = None.

(** The histories of a validator, and the state after each. *)
Inductive history : t (Store:=Store) -> list event -> Prop :=
  | history_start s : starting s -> history s []
  | history_serve s h r s' a : history s h -> serve r s = (s', a) ->
      history s' (h ++ [Event r (epoch_state s) a]).

(** The history of serving requests one after the other. *)
Fixpoint replay (s : t (Store:=Store)) (rs : list request) : t (Store:=Store) * list event :=
  match rs with
  | [] => (s, [])
  | r :: rs =>
      let '(s1, a) := serve r s in
      let '(s', h) := replay s1 rs in
      (s', Event r (epoch_state s) a :: h)
  end.

Lemma replay_history s h rs : history s h -> history (replay s rs).1 (h ++ (replay s rs).2).
Proof using Type.
  revert s h. induction rs as [|r rs IH]; intros s h Hh; cbn [replay]; [by rewrite app_nil_r|].
  destruct (serve r s) as [s1 a] eqn:Es. specialize (IH s1 _ (history_serve _ _ _ _ _ Hh Es)).
  destruct (replay s1 rs) as [s' h']. by rewrite <-app_assoc in IH.
Qed.

(** The votes and the timeouts a history shows. *)
Definition voted (h : list event) (v : Vote.t) : Prop :=
  exists vp tc now es, Event (ConstructAndSignVote vp tc now) es (Voted v) ∈ h.
Definition timed_out (h : list event) (timeout : TwoChainTimeout.t) : Prop :=
  exists tc es signature, Event (SignTimeoutWithQc timeout tc) es (Signed signature) ∈ h.
End histories.

Abbreviation vote_epoch v := (BlockInfo.epoch (VoteData.proposed (Vote.vote_data v))) (only parsing).
Abbreviation vote_round v := (BlockInfo.round (VoteData.proposed (Vote.vote_data v))) (only parsing).
Abbreviation parent_round v := (BlockInfo.round (VoteData.parent (Vote.vote_data v))) (only parsing).

(** ** The invariant *)
Section invariant.
Context `{CryptoTypes} `{!PrivateKeys} `{!BlsAggregate} `{!MerkleHasher HashValue} `{!Transactions}
  `{!CryptoHash VoteData.t} `{!WaypointHasher}
  `{!Bls LedgerInfo.t} `{!Bls TimeoutSigningRepr.t} `{!Bls BlockData.t}
  `{!BlsSign LedgerInfo.t} `{!BlsSign TimeoutSigningRepr.t} `{!BlsSign BlockData.t}
  {Store : Type} `{!SafetyStore Store} `{!SafetyStoreLaws Store}.
Implicit Types (s : t (Store:=Store)) (d : SafetyData.t) (h : list event) (v : Vote.t).

(** The order of the safety data: epochs, and within one epoch its rounds; the last
    vote is kept or replaced by one for a later round. *)
Definition advances d d' : Prop :=
  SafetyData.epoch d < SafetyData.epoch d' \/
  SafetyData.epoch d = SafetyData.epoch d' /\
  SafetyData.last_voted_round d <= SafetyData.last_voted_round d' /\
  SafetyData.preferred_round d <= SafetyData.preferred_round d' /\
  SafetyData.one_chain_round d <= SafetyData.one_chain_round d' /\
  (SafetyData.last_vote d' = SafetyData.last_vote d \/
   exists v, SafetyData.last_vote d' = Some v /\ vote_round v = SafetyData.last_voted_round d' /\
     SafetyData.last_voted_round d < vote_round v).

(** The votes a validator has made: those it has replied and the one it stores. *)
Definition made s h v : Prop :=
  voted h v \/ exists d, stored s = Ok d /\ SafetyData.last_vote d = Some v.

(** The validators are those of the epoch of the safety data. *)
Definition tracks s : Prop := forall es d, epoch_state s = Some es -> stored s = Ok d ->
  EpochState.epoch es = SafetyData.epoch d.

(** The vote was made on a request of the history, by the rules. *)
Definition justified h v : Prop :=
  exists vp tc now es a d d', Event (ConstructAndSignVote vp tc now) es a ∈ h /\ votes vp tc es v d d' /\
    (atomic_writes (Store:=Store) -> forall e, es = Some e -> EpochState.epoch e = vote_epoch v).

Record invariant s h : Prop := {
  inv_coherent : coherent s;
  inv_tracks : atomic_writes (Store:=Store) -> tracks s;
  inv_justified v : made s h v -> justified h v;
  inv_votes v d : made s h v -> stored s = Ok d ->
    vote_epoch v < SafetyData.epoch d \/
    vote_epoch v = SafetyData.epoch d /\ vote_round v <= SafetyData.last_voted_round d /\
    parent_round v <= SafetyData.one_chain_round d;
  inv_timeouts timeout d : timed_out h timeout -> stored s = Ok d ->
    TwoChainTimeout.epoch timeout < SafetyData.epoch d \/
    TwoChainTimeout.epoch timeout = SafetyData.epoch d /\
    TwoChainTimeout.round timeout <= SafetyData.last_voted_round d;
  inv_unique v v' : made s h v -> made s h v' -> vote_epoch v = vote_epoch v' ->
    vote_round v = vote_round v' -> v = v';
  inv_agree v timeout : made s h v -> timed_out h timeout ->
    vote_epoch v = TwoChainTimeout.epoch timeout -> vote_round v <= TwoChainTimeout.round timeout ->
    parent_round v <= TwoChainTimeout.hqc_round timeout;
}.

(** ** Steps *)

(** What serving a request does to the stored safety data, and what it replies. *)
Inductive transition s r s' a : Prop :=
  | step_same : stored s' = stored s ->
      (forall v, a = Voted v -> exists d, stored s = Ok d /\ SafetyData.last_vote d = Some v) ->
      (forall timeout tc signature, r = SignTimeoutWithQc timeout tc -> a <> Signed signature) ->
      transition s r s' a
  | step_vote vp tc now v d d' : r = ConstructAndSignVote vp tc now -> stored s = Ok d -> stored s' = Ok d' ->
      votes vp tc (epoch_state s) v d d' -> (forall v', a = Voted v' -> v' = v) -> transition s r s' a
  | step_timeout timeout tc d d' : r = SignTimeoutWithQc timeout tc -> stored s = Ok d -> stored s' = Ok d' ->
      times_out timeout d d' -> transition s r s' a
  | step_epoch proof es : r = Initialize proof -> new_epoch es s s' -> (forall v, a <> Voted v) ->
      transition s r s' a.

Lemma voted_last vp tc es v d d' : votes vp tc es v d d' -> SafetyData.last_vote d' = Some v.
Proof using Type. by intros [? ? ->]. Qed.

Lemma serve_vote vp tc now s s' a : coherent s -> serve (ConstructAndSignVote vp tc now) s = (s', a) ->
  coherent s' /\ transition s (ConstructAndSignVote vp tc now) s' a.
Proof.
  intros Hc Hr. unfold serve in Hr.
  destruct (guarded_construct_and_sign_vote_two_chain vp tc now s) as [s1 o] eqn:Ev. injection Hr as <- <-.
  apply vote_run in Ev as (Hc' & _ & Ho); [|done]. split; [done|].
  destruct o as [v0|e|]; cbn [reply_of].
  - destruct Ho as (d & d' & Hd & Hd' & [->|(v & Hv)] & HQ).
    + apply step_same; [congruence| |done]. intros v [= <-]. by exists d.
    + eapply step_vote; [done..|]. intros v' [= <-]. apply voted_last in Hv. congruence.
  - destruct Ho as [Ho|(d & d' & Hd & Hd' & [->|(v & Hv)])]; [by apply step_same|apply step_same; [congruence|done..]|].
    by eapply step_vote.
  - destruct Ho as [Ho|(d & d' & Hd & Hd' & [->|(v & Hv)])]; [by apply step_same|apply step_same; [congruence|done..]|].
    by eapply step_vote.
Qed.

Lemma serve_timeout timeout tc s s' a : coherent s -> serve (SignTimeoutWithQc timeout tc) s = (s', a) ->
  coherent s' /\ transition s (SignTimeoutWithQc timeout tc) s' a.
Proof.
  intros Hc Hr. unfold serve in Hr.
  destruct (guarded_sign_timeout_with_qc timeout tc s) as [s1 o] eqn:Ev. injection Hr as <- <-.
  apply sign_timeout_run in Ev as (Hc' & _ & Ho); [|done]. split; [done|].
  destruct o as [v0|e|]; cbn [reply_of].
  - destruct Ho as (d & d' & Hd & Hd' & Ht & _). by eapply step_timeout.
  - destruct Ho as [Ho|(d & d' & Hd & Hd' & Ht)]; [by apply step_same|by eapply step_timeout].
  - destruct Ho as [Ho|(d & d' & Hd & Hd' & Ht)]; [by apply step_same|by eapply step_timeout].
Qed.

Lemma serve_quiet {A} (m : action t Error.t A) (f : A -> reply) r s s' a : coherent s -> quiet m ->
  (let '(s1, o) := m s in (s1, reply_of f o)) = (s', a) -> (forall b v, f b <> Voted v) ->
  (forall timeout tc, r <> SignTimeoutWithQc timeout tc) -> coherent s' /\ transition s r s' a.
Proof using Type.
  intros Hc Hq Hr Hf Ht. destruct (m s) as [s1 o] eqn:Em. injection Hr as <- <-.
  apply Hq in Em as (Hc' & Hs & _). split; [auto|]. apply step_same; [done| |].
  - intros v Hv. destruct o as [b|e|]; cbn in Hv; [by apply Hf in Hv|done..].
  - intros timeout tc signature E. by destruct (Ht timeout tc).
Qed.

Lemma serve_run r s s' a : coherent s -> serve r s = (s', a) -> coherent s' /\ transition s r s' a.
Proof.
  intros Hc Hr. destruct r as [|proof|bd|timeout tc|vp tc now|li new_li|].
  - eapply serve_quiet; [done|apply quiet_consensus_state|exact Hr|done..].
  - unfold serve in Hr. destruct (guarded_initialize proof s) as [s1 o] eqn:Ei. injection Hr as <- <-.
    apply initialize_run in Ei as [Hc' Hi]; [|done]. split; [auto|].
    assert (forall v, reply_of (fun _ : unit => Done) o <> Voted v) as Hv by (by intros v; destruct o).
    destruct Hi as [[Hs _]|[(es & Hn & _)|(es & _ & [Hn|[Hs _]])]];
      (by eapply step_epoch) || (apply step_same; [done|by intros v ?%Hv|done]).
  - eapply serve_quiet; [done|apply quiet_sign_proposal|exact Hr|done..].
  - by apply serve_timeout.
  - by apply serve_vote.
  - eapply serve_quiet; [done|apply quiet_sign_commit_vote|exact Hr|done..].
  - injection Hr as <- <-. split; [|by apply step_same]. by split.
Qed.

(** With atomic writes the validators stay those of the epoch. *)
Lemma writes_tracks {B} W (Q : B -> SafetyData.t -> Prop) s s' o : writes W Q s s' o ->
  (forall d d', W (epoch_state s) d d' -> SafetyData.epoch d' = SafetyData.epoch d) -> tracks s -> tracks s'.
Proof using Type.
  intros (_ & He & Ho) HW Ht es d' Hes Hd'. rewrite He in Hes.
  assert (stored s' = stored s \/
    exists d0 d0', stored s = Ok d0 /\ stored s' = Ok d0' /\ W (epoch_state s) d0 d0') as [Hs|(d0 & d0' & H0' & H1' & Hw)].
  { destruct o as [b|e|]; [|done..]. destruct Ho as (d0 & d0' & ? & ? & ? & _). right. by exists d0, d0'. }
  - apply (Ht es d' Hes). congruence.
  - assert (d0' = d') as -> by congruence. rewrite (HW _ _ Hw). by apply Ht.
Qed.

Lemma same_tracks s s' : same s s' -> tracks s -> tracks s'.
Proof using Type. intros (_ & Hs & He) Ht es d. rewrite Hs, He. apply Ht. Qed.

Lemma serve_tracks r s s' a : atomic_writes (Store:=Store) -> coherent s -> serve r s = (s', a) -> tracks s -> tracks s'.
Proof.
  intros Hat Hc Hr Ht. destruct r as [|proof|bd|timeout tc|vp tc now|li new_li|]; cbn [serve] in Hr;
    [destruct (guarded_consensus_state s) as [s1 o] eqn:Em|destruct (guarded_initialize proof s) as [s1 o] eqn:Em
    |destruct (guarded_sign_proposal bd s) as [s1 o] eqn:Em|destruct (guarded_sign_timeout_with_qc timeout tc s) as [s1 o] eqn:Em
    |destruct (guarded_construct_and_sign_vote_two_chain vp tc now s) as [s1 o] eqn:Em
    |destruct (guarded_sign_commit_vote li new_li s) as [s1 o] eqn:Em|]; injection Hr as <- _.
  - apply quiet_consensus_state in Em. by eapply same_tracks.
  - apply initialize_run in Em as [_ [[Hs He]|[(es & _ & _ & ?)|(es & He & Hn)]]]; [|done| |done].
    + intros es d. rewrite Hs, He. apply Ht.
    + intros es' d' He' Hd'. rewrite He in He'. injection He' as <-.
      destruct Hn as [(d & _ & _ & Hs)|[Hs (d & Hd & Hde)]]; [|congruence].
      rewrite Hs in Hd'. by injection Hd' as <-.
  - apply quiet_sign_proposal in Em. by eapply same_tracks.
  - apply sign_timeout_run in Em; [|done]. eapply writes_tracks; [done| |done]. by intros d d' (_ & _ & _ & ->).
  - apply vote_run in Em; [|done]. eapply writes_tracks; [done| |done].
    intros d d' [->|(v & Hv)]; [done|]. by destruct Hv as [? ? ->].
  - apply quiet_sign_commit_vote in Em. by eapply same_tracks.
  - by intros es d.
Qed.

Lemma advances_refl d : advances d d.
Proof using Type. right. split_and!; [done..|by left]. Qed.

(** The stored safety data never moves back. *)
Lemma transition_advances s r s' a d : transition s r s' a -> stored s = Ok d ->
  exists d', stored s' = Ok d' /\ advances d d'.
Proof using Type.
  intros [Hs _ _|vp tc now v d0 d1 _ Hd Hd' Hv _|timeout tc d0 d1 _ Hd Hd' Ht|proof es _ (d0 & Hd & Hlt & Hd') _] Hst;
    try (assert (d0 = d) as -> by congruence).
  - exists d. split; [congruence|apply advances_refl].
  - exists d1. split; [done|]. destruct Hv as [_ Hr ->]. right. cbn. split_and!; [lia..|]. right. by exists v.
  - exists d1. split; [done|]. destruct Ht as (_ & Hr & _ & ->). right. cbn. split_and!; [lia..|by left].
  - eexists. split; [done|]. by left.
Qed.

(** *** The invariant is kept *)
Lemma voted_snoc h r es a v : voted (h ++ [Event r es a]) v <->
  voted h v \/ exists vp tc now, r = ConstructAndSignVote vp tc now /\ a = Voted v.
Proof using Type.
  unfold voted. split.
  - intros (vp & tc & now & es' & [Hin|Hin%list_elem_of_singleton]%elem_of_app); [left; by exists vp, tc, now, es'|].
    injection Hin as <- <- <-. right. by exists vp, tc, now.
  - intros [(vp & tc & now & es' & Hin)|(vp & tc & now & -> & ->)].
    + exists vp, tc, now, es'. apply elem_of_app. by left.
    + exists vp, tc, now, es. apply elem_of_app. right. by apply list_elem_of_singleton.
Qed.

Lemma timed_out_snoc h r es a timeout : timed_out (h ++ [Event r es a]) timeout <->
  timed_out h timeout \/ exists tc signature, r = SignTimeoutWithQc timeout tc /\ a = Signed signature.
Proof using Type.
  unfold timed_out. split.
  - intros (tc & es' & signature & [Hin|Hin%list_elem_of_singleton]%elem_of_app); [left; by exists tc, es', signature|].
    injection Hin as <- <- <-. right. by exists tc, signature.
  - intros [(tc & es' & signature & Hin)|(tc & signature & -> & ->)].
    + exists tc, es', signature. apply elem_of_app. by left.
    + exists tc, es, signature. apply elem_of_app. right. by apply list_elem_of_singleton.
Qed.

Lemma justified_app h h' v : justified h v -> justified (h ++ h') v.
Proof using Type.
  intros (vp & tc & now & es & a & d & d' & Hin & Hv & He). exists vp, tc, now, es, a, d, d'.
  split_and!; [|done..]. apply elem_of_app. by left.
Qed.

(** The vote [v] and the timeout [timeout] are beyond the safety data [d], and
    within [d']. *)
Definition new_vote v d d' : Prop :=
  vote_epoch v = SafetyData.epoch d /\ SafetyData.epoch d = SafetyData.epoch d' /\
  SafetyData.last_voted_round d < vote_round v <= SafetyData.last_voted_round d' /\
  parent_round v <= SafetyData.one_chain_round d'.
Definition new_timeout timeout d d' : Prop :=
  TwoChainTimeout.epoch timeout = SafetyData.epoch d /\ SafetyData.epoch d = SafetyData.epoch d' /\
  TwoChainTimeout.round timeout <= SafetyData.last_voted_round d' /\
  SafetyData.one_chain_round d <= TwoChainTimeout.hqc_round timeout.

(** The invariant after a step that makes the votes [N] and signs the timeouts [T]. *)
Lemma invariant_step s h s' h' (N : Vote.t -> Prop) (T : TwoChainTimeout.t -> Prop) :
  invariant s h -> coherent s' -> (atomic_writes (Store:=Store) -> tracks s') ->
  (forall v, justified h v -> justified h' v) ->
  (forall d', stored s' = Ok d' -> exists d, stored s = Ok d /\ advances d d') ->
  (forall v, made s' h' v -> made s h v \/ N v) ->
  (forall timeout, timed_out h' timeout -> timed_out h timeout \/ T timeout) ->
  (forall v, N v -> justified h' v /\ exists d d', stored s = Ok d /\ stored s' = Ok d' /\ new_vote v d d') ->
  (forall v v', N v -> N v' -> v = v') ->
  (forall timeout, T timeout -> exists d d', stored s = Ok d /\ stored s' = Ok d' /\ new_timeout timeout d d') ->
  (forall v timeout, N v -> ~ T timeout) ->
  invariant s' h'.
Proof using Type.
  intros [Hc _ Hj Hv Ht Hu Ha] Hc' Htr Hjj Hadv Hm Hto HN HNN HT HNT.
  split; [done|done|..].
  - intros v [Hin|Hin]%Hm; [by apply Hjj, Hj|by apply HN].
  - intros v d' [Hin|Hin]%Hm Hd'.
    + apply Hadv in Hd' as (d & Hd & Hdd). unfold advances in Hdd. specialize (Hv v d Hin Hd). lia.
    + apply HN in Hin as (_ & d & d'' & Hd & Hd'' & Hn). replace d' with d'' by congruence. unfold new_vote in Hn. lia.
  - intros timeout d' [Hin|Hin]%Hto Hd'.
    + apply Hadv in Hd' as (d & Hd & Hdd). unfold advances in Hdd. specialize (Ht timeout d Hin Hd). lia.
    + apply HT in Hin as (d & d'' & Hd & Hd'' & Hn). replace d' with d'' by congruence. unfold new_timeout in Hn. lia.
  - assert (forall v v', made s h v -> N v' -> vote_epoch v = vote_epoch v' -> vote_round v <> vote_round v') as Hne.
    { intros v v' Hin (_ & d & d' & Hd & _ & Hn)%HN He Hr. specialize (Hv v d Hin Hd). unfold new_vote in Hn. lia. }
    intros v v' [Hin|Hin]%Hm [Hin'|Hin']%Hm He Hr; [by apply Hu| | |by apply HNN].
    + by destruct (Hne v v').
    + by destruct (Hne v' v).
  - intros v timeout [Hin|Hin]%Hm [Hin'|Hin']%Hto He Hr; [by apply Ha| | |by destruct (HNT v timeout)].
    + apply HT in Hin' as (d & d' & Hd & _ & Hn). specialize (Hv v d Hin Hd). unfold new_timeout in Hn. lia.
    + apply HN in Hin as (_ & d & d' & Hd & _ & Hn). specialize (Ht timeout d Hin' Hd). unfold new_vote in Hn. lia.
Qed.

Lemma transition_invariant s h r s' a : invariant s h -> coherent s' ->
  (atomic_writes (Store:=Store) -> tracks s') -> transition s r s' a ->
  invariant s' (h ++ [Event r (epoch_state s) a]).
Proof using Type.
  intros Hi Hc Htracks Htr.
  assert (forall d', stored s' = Ok d' -> exists d, stored s = Ok d /\ advances d d') as Hadv.
  { intros d' Hd'. assert (exists d, stored s = Ok d) as [d Hd].
    { destruct Htr as [Hs _ _|??? ? d ? ? ? ? ? ?|? ? d ? ? ? ? ?|? ? ? (d & ? & _) _]; [exists d'; congruence|by exists d..]. }
    destruct (transition_advances _ _ _ _ _ Htr Hd) as (d'' & Hd'' & ?). exists d. split; [done|]. congruence. }
  pose proof (fun v => justified_app h [Event r (epoch_state s) a] v) as Hjj.
  destruct Htr as [Hs Hv Ht|vp tc now v d d' -> Hd Hd' Hv Ha|timeout tc d d' -> Hd Hd' Ht|proof es -> (d & Hd & _ & Hd') Hv].
  - apply (invariant_step s h s' _ (fun _ => False) (fun _ => False)); try done.
    + unfold made. intros v. rewrite voted_snoc, Hs. intros [[?|(_ & _ & _ & _ & ?)]|?]; [auto| |auto].
      left. right. auto.
    + intros timeout. rewrite timed_out_snoc. intros [?|(tc & signature & ? & ?)]; [auto|]. by destruct (Ht timeout tc signature).
  - apply (invariant_step s h s' _ (eq v) (fun _ => False)); try done.
    + intros v'. unfold made. rewrite voted_snoc. intros [[?|(_ & _ & _ & _ & ?)]|(d0 & Hd0 & Hl)]; [auto|right..].
      * symmetry. auto.
      * apply voted_last in Hv. congruence.
    + intros timeout'. rewrite timed_out_snoc. by intros [?|(? & ? & ? & _)]; [left|].
    + intros v' <-. split.
      * exists vp, tc, now, (epoch_state s), a, d, d'. split_and!; [|done|].
        -- apply elem_of_app. right. by apply list_elem_of_singleton.
        -- intros Hat e He. rewrite (inv_tracks _ _ Hi Hat e d He Hd). by destruct Hv.
      * exists d, d'. destruct Hv as [? ? ->]. split_and!; [done..|]. unfold new_vote; cbn; lia.
    + congruence.
    + intros _ _ _ [].
  - apply (invariant_step s h s' _ (fun _ => False) (eq timeout)); try done.
    + unfold made. intros v. rewrite voted_snoc. intros [[?|(? & ? & ? & ? & _)]|(d0 & Hd0 & Hl)]; [auto|done|].
      left. right. exists d. destruct Ht as (_ & _ & _ & ->). split; [done|]. rewrite Hd' in Hd0. by injection Hd0 as <-.
    + intros timeout'. rewrite timed_out_snoc. intros [?|(? & ? & [= ->] & _)]; auto.
    + intros timeout' <-. exists d, d'. destruct Ht as (? & ? & ? & ->). split_and!; [done..|]. unfold new_timeout; cbn; lia.
  - apply (invariant_step s h s' _ (fun _ => False) (fun _ => False)); try done.
    + unfold made. intros v. rewrite voted_snoc. intros [[?|(? & ? & ? & ? & _)]|(d0 & Hd0 & Hl)]; [auto|done|].
      rewrite Hd' in Hd0. by injection Hd0 as <-.
    + intros timeout'. rewrite timed_out_snoc. by intros [?|(? & ? & ? & _)]; [left|].
Qed.

Lemma history_invariant s h : history s h -> invariant s h.
Proof.
  induction 1 as [s (Hc & He & Hl)|s h r s' a _ IH Hr].
  - assert (forall v, ~ made s [] v) as Hno.
    { intros v [(? & ? & ? & ? & ?%elem_of_nil)|(d & Hd & Hv)]; [done|]. by rewrite (Hl d Hd) in Hv. }
    assert (forall timeout, ~ timed_out [] timeout) as Hto by (by intros timeout (? & ? & ? & ?%elem_of_nil)).
    split; [done|intros _ es d; congruence|by intros v ?%Hno|by intros v d ?%Hno|by intros timeout d ?%Hto|by intros v v' ?%Hno|by intros v timeout ?%Hno].
  - pose proof Hr as [Hc Ht]%serve_run; [|apply IH]. apply transition_invariant; [done..| |done].
    intros Hat. eapply serve_tracks; [done|apply IH|done|by apply IH].
Qed.
End invariant.

(** ** Properties *)
Section properties.
Context `{CryptoTypes} `{!PrivateKeys} `{!BlsAggregate} `{!MerkleHasher HashValue} `{!Transactions}
  `{!CryptoHash VoteData.t} `{!WaypointHasher}
  `{!Bls LedgerInfo.t} `{!Bls TimeoutSigningRepr.t} `{!Bls BlockData.t}
  `{!BlsSign LedgerInfo.t} `{!BlsSign TimeoutSigningRepr.t} `{!BlsSign BlockData.t}
  {Store : Type} `{!SafetyStore Store} `{!SafetyStoreLaws Store}.

(** C10: a validator makes at most one vote per round of an epoch, whatever it is
    asked, in whatever order, and however often it is restarted: two votes that a
    history shows for one round are the same vote. *)
Theorem never_votes_twice (s : t (Store:=Store)) (h : list event) (v v' : Vote.t) :
  history s h -> voted h v -> voted h v' ->
  vote_epoch v = vote_epoch v' -> vote_round v = vote_round v' -> v = v'.
Proof. intros Hh Hv Hv'. apply (inv_unique _ _ (history_invariant _ _ Hh)); by left. Qed.

(** C12: a validator that has voted for a block and signed a timeout for its round
    or a later one has put into the timeout a certified round no earlier than the
    parent of the block. *)
Theorem timeouts_respect_votes (s : t (Store:=Store)) (h : list event) (v : Vote.t)
    (timeout : TwoChainTimeout.t) :
  history s h -> voted h v -> timed_out h timeout -> vote_epoch v = TwoChainTimeout.epoch timeout ->
  vote_round v <= TwoChainTimeout.round timeout ->
  parent_round v <= TwoChainTimeout.hqc_round timeout.
Proof. intros Hh Hv Ht. apply (inv_agree _ _ (history_invariant _ _ Hh)); [by left|done]. Qed.

(** C11: the safety data in storage is never lost and never moves back: serving a
    request leaves it as it is, starts a later epoch, or raises its three rounds
    and keeps the last vote or replaces it by one for a later round, also when the
    request fails. *)
Theorem safety_data_advances (s s' : t (Store:=Store)) (h : list event) (r : request) (a : reply)
    (d : SafetyData.t) :
  history s h -> stored s = Ok d -> serve r s = (s', a) -> exists d', stored s' = Ok d' /\ advances d d'.
Proof.
  intros Hh Hd Hr. apply serve_run in Hr as [_ Ht]; [|by apply history_invariant in Hh; apply Hh].
  by eapply transition_advances.
Qed.
End properties.

(** ** An example: a validator that votes, is restarted and times out *)
Section example.
#[local] Existing Instance no_transactions.
#[local] Existing Instance block_data_hash.

#[local] Instance example_keys : @PrivateKeys free_crypto := {| PrivateKey := Z; public_key_of := fun k => k |}.
#[local] Instance example_sign (M : Type) : @BlsSign free_crypto example_keys M := fun key _ => Ok key.
#[local] Instance example_waypoint_hash : @WaypointHasher free_crypto :=
  fun li => Leaf (Ledger2WaypointConverter.version li).

(** A hash of vote data without collisions. *)
Definition digests (l : list digest) : digest := foldr Node Placeholder l.
Definition info_digest (info : @ValidatorConsensusInfo.t free_crypto) : digest :=
  digests [Leaf (ValidatorConsensusInfo.address info); Leaf (ValidatorConsensusInfo.public_key info);
           Leaf (ValidatorConsensusInfo.voting_power info)].
Definition verifier_digest (v : @ValidatorVerifier.t free_crypto) : digest :=
  digests [digests (info_digest <$> ValidatorVerifier.validator_infos v);
           Leaf (ValidatorVerifier.quorum_voting_power v); Leaf (ValidatorVerifier.total_voting_power v);
           digests ((fun '(a, i) => Node (Leaf a) (Leaf i)) <$>
                      map_to_list (ValidatorVerifier.address_to_validator_index v))].
Definition epoch_digest (es : option (@EpochState.t free_crypto)) : digest :=
  match es with
  | None => Placeholder
  | Some es => Node (Leaf (EpochState.epoch es)) (verifier_digest (EpochState.verifier es))
  end.
Definition block_digest (b : @BlockInfo.t free_crypto) : digest :=
  digests [Leaf (BlockInfo.epoch b); Leaf (BlockInfo.round b); BlockInfo.id b; BlockInfo.executed_state_id b;
           Leaf (BlockInfo.version b); Leaf (BlockInfo.timestamp_usecs b); epoch_digest (BlockInfo.next_epoch_state b)].
#[local] Instance vote_data_digest : @CryptoHash free_crypto VoteData.t :=
  fun vd => Node (block_digest (VoteData.proposed vd)) (block_digest (VoteData.parent vd)).

Lemma digests_inj l l' : digests l = digests l' -> l = l'.
Proof.
  revert l'. induction l as [|x l IH]; intros [|y l'] E; [done..|]. injection E as -> E. f_equal. by apply IH.
Qed.

Lemma verifier_digest_inj v v' : verifier_digest v = verifier_digest v' -> v = v'.
Proof.
  intros E%digests_inj. injection E as Ei Eq Et Em. destruct v as [infos q tot m], v' as [infos' q' tot' m']; cbn in *.
  assert (Inj (=) (=) info_digest) by (intros [] [] [=]; by subst).
  assert (Inj (=) (=) (fun '(a, i) => Node (Leaf a) (Leaf i))) by (intros [] [] [=]; by subst).
  apply digests_inj, (inj (fmap info_digest)) in Ei. apply digests_inj, (inj (fmap _)) in Em.
  subst. f_equal. apply map_to_list_inj. by rewrite Em.
Qed.

Lemma Node_inj a b c d : Node a b = Node c d -> a = c /\ b = d.
Proof. by intros [= -> ->]. Qed.

Lemma block_digest_inj b b' : block_digest b = block_digest b' -> b = b'.
Proof.
  intros E%digests_inj. injection E as E1 E2 E3 E4 E5 E6 E7. destruct b as [e r i x v t es], b' as [e' r' i' x' v' t' es'].
  cbn in *. subst. f_equal. destruct es as [[]|], es' as [[]|]; try discriminate E7; [|done].
  apply Node_inj in E7 as [[= ->] E7].
  do 2 f_equal. by apply verifier_digest_inj.
Qed.

Lemma vote_data_digest_inj (vd vd' : VoteData.t) : hash vd = hash vd' -> vd = vd'.
Proof.
  destruct vd as [b p], vd' as [b' p']. intros [E1 E2]%Node_inj. f_equal; by apply block_digest_inj.
Qed.

(** The epoch begins with [v4] as validators. *)
Definition epoch_start : @LedgerInfoWithSignatures.t free_crypto :=
  LedgerInfoWithSignatures.new
    (LedgerInfo.new (BlockInfo.new 0 0 (Leaf 0) (Leaf 8) 0 0 (Some (EpochState.mk 1 v4))) (Leaf 0)) AggregateSignature.empty.
Definition epoch_proof : @EpochChangeProof.t free_crypto := EpochChangeProof.new [epoch_start] false.

Definition first_qc : @QuorumCert.t free_crypto :=
  let vd := VoteData.new genesis_info genesis_info in
  QuorumCert.new vd (LedgerInfoWithSignatures.new (LedgerInfo.new genesis_info (hash vd)) AggregateSignature.empty).

(** A validator with the address [a] and the key [k] before it is first asked. *)
Definition validator (a k : Z) : SafetyRules.t (Store:=@InMemoryStorage.t free_crypto example_keys) :=
  SafetyRules.new (PersistentSafetyStorage.new
    (@InMemoryStorage.mk free_crypto example_keys (Some a) (Some k) (Some (SafetyData.new 1 0 0 0 None))
       (Some (Waypoint.new_any (LedgerInfoWithSignatures.ledger_info epoch_start)))) true).

Definition proposal (round : Z) (qc : QuorumCert.t) : @VoteProposal.t free_crypto _ :=
  VoteProposal.new (AccumulatorExtensionProof.new [] 0 []) (Block.new_nil round qc []) None true.

(** The certificate the validators 7, 3 and 5 make of their votes. *)
Definition certify (vp : VoteProposal.t) : @QuorumCert.t free_crypto :=
  let vd := VoteProposal.vote_data_ordering_only vp in
  let parent := VoteData.parent vd in
  let commit := if BlockInfo.round parent + 1 =? BlockInfo.round (VoteData.proposed vd) then parent else BlockInfo.empty in
  QuorumCert.new vd (LedgerInfoWithSignatures.new (LedgerInfo.new commit (hash vd))
    (@AggregateSignature.new free_crypto (BitVec.mk [224]) (Some (7 : @Signature free_crypto)))).

Definition proposal1 := proposal 1 first_qc.
Definition proposal2 := proposal 2 (certify proposal1).
Definition proposal3 := proposal 3 (certify proposal2).
Definition timeout2 : @TwoChainTimeout.t free_crypto := TwoChainTimeout.new 1 2 (certify proposal1).

Definition example_requests : list request :=
  [Initialize epoch_proof; ConstructAndSignVote proposal1 None 0; Restart; Initialize epoch_proof;
   ConstructAndSignVote proposal1 None 0; ConstructAndSignVote proposal2 None 0; SignTimeoutWithQc timeout2 None].

Definition example_run := replay (validator 7 1) example_requests.

Lemma validator_starting a k : starting (validator a k).
Proof. split_and!; [by split|done|]. by intros d [= <-]. Qed.

Lemma example_history : history example_run.1 example_run.2.
Proof. apply (replay_history (validator 7 1) [] example_requests), history_start, validator_starting. Qed.

(** The vote of the [k]-th reply. *)
Definition example_vote (k : nat) : @Vote.t free_crypto :=
  match example_run.2 !! k with
  | Some (Event _ _ (Voted v)) => v
  | _ => Vote.new_with_signature (VoteData.new genesis_info genesis_info) 0
           (LedgerInfo.new genesis_info (Leaf 0)) (0 : @Signature free_crypto)
  end.

Lemma example_voted k vp : example_run.2 !! k =
    Some (Event (ConstructAndSignVote vp None 0) (Some (EpochState.mk 1 v4)) (Voted (example_vote k))) ->
  voted example_run.2 (example_vote k).
Proof. intros Hk. exists vp, None, 0, (Some (EpochState.mk 1 v4)). by eapply list_elem_of_lookup_2. Qed.

Lemma never_votes_twice_witness : example_vote 1 = example_vote 4.
Proof.
  apply (never_votes_twice example_run.1 example_run.2).
  - exact example_history.
  - apply (example_voted 1 proposal1). by vm_compute.
  - apply (example_voted 4 proposal1). by vm_compute.
  - by vm_compute.
  - by vm_compute.
Defined.

Lemma timeouts_respect_votes_witness : parent_round (example_vote 5) <= TwoChainTimeout.hqc_round timeout2.
Proof.
  apply (timeouts_respect_votes example_run.1 example_run.2).
  - exact example_history.
  - apply (example_voted 5 proposal2). by vm_compute.
  - exists None, (Some (EpochState.mk 1 v4)), (1 : @Signature free_crypto).
    apply (list_elem_of_lookup_2 _ 6). by vm_compute.
  - by vm_compute.
  - by vm_compute.
Defined.

Lemma safety_data_advances_witness :
  exists d', stored (serve (ConstructAndSignVote proposal3 None 0) example_run.1).1 = Ok d' /\
    advances (SafetyData.new 1 2 0 1 (Some (example_vote 5))) d'.
Proof.
  apply (safety_data_advances example_run.1 _ example_run.2 (ConstructAndSignVote proposal3 None 0)
    (serve (ConstructAndSignVote proposal3 None 0) example_run.1).2).
  - exact example_history.
  - by vm_compute.
  - apply surjective_pairing.
Defined.
End example.
