(* ===== verification/ConsensusSafety.v ===== *)
(** * Agreement

    Validators run the safety rules of [consensus/safety-rules] each on its own,
    and exchange quorum and timeout certificates.  This file composes their
    histories to executions of a network and shows that the blocks its ledger
    infos commit in an epoch are on one chain, as long as the validators that do
    not follow the rules hold at most a third of the voting power. *)

From S2P Require Import Prelude Collections Merkle InMemoryAccumulator BitVec ValidatorVerifier LedgerInfo.
From S2P Require Import TrustedState AccumulatorProofs QuorumCert Timeout2Chain ConsensusBlock SafetyRules.
From S2P Require Import SafetyHistory.
Import SafetyRules.

Section network.
Context `{CryptoTypes} `{!PrivateKeys} `{!BlsAggregate} `{!MerkleHasher HashValue} `{!Transactions}
  `{!CryptoHash VoteData.t} `{!WaypointHasher}
  `{!Bls LedgerInfo.t} `{!Bls TimeoutSigningRepr.t} `{!Bls BlockData.t}
  `{!BlsSign LedgerInfo.t} `{!BlsSign TimeoutSigningRepr.t} `{!BlsSign BlockData.t}
  {Store : Type} `{!SafetyStore Store}.

(** The validators that follow the rules, and the validators of each epoch. *)
Context (honest : AccountAddress -> bool) (validators : Z -> ValidatorVerifier.t).

(** What the validators were asked and replied, in the order of time. *)
Abbreviation trace := (list (AccountAddress * event)).

(** The event publishes a signature on the ledger info, or on the timeout. *)
Definition signs_ledger_info (ev : event) (li : LedgerInfo.t) : Prop :=
  (exists vp tc now es v, ev = Event (ConstructAndSignVote vp tc now) es (Voted v) /\ Vote.ledger_info v = li) \/
  exists old es signature, ev = Event (SignCommitVote old li) es (Signed signature).
Definition signs_timeout (ev : event) (m : TimeoutSigningRepr.t) : Prop :=
  exists timeout tc es signature, ev = Event (SignTimeoutWithQc timeout tc) es (Signed signature) /\
    TwoChainTimeout.signing_format timeout = m.

(** Signatures are not forged: the honest signers of a certificate that verifies
    have signed it before.  A timeout certificate that verifies has a round for each
    of its voters: an aggregate signature verifies only with as many messages as
    keys. *)
Definition genuine_ledger_info (tr : trace) (v : ValidatorVerifier.t)
    (li : LedgerInfoWithSignatures.t) : Prop :=
  BitVec.well_formed (AggregateSignature.validator_bitmask (LedgerInfoWithSignatures.signatures li)) /\
  (LedgerInfoWithSignatures.verify_signatures li v = Ok tt -> forall a,
     a ∈ AggregateSignature.get_signers_addresses (LedgerInfoWithSignatures.signatures li)
           (ValidatorVerifier.get_ordered_account_addresses v) ->
     honest a = true ->
     exists ev, (a, ev) ∈ tr /\ signs_ledger_info ev (LedgerInfoWithSignatures.ledger_info li)).
Definition genuine_timeouts (tr : trace) (v : ValidatorVerifier.t)
    (tc : TwoChainTimeoutCertificate.t) : Prop :=
  let sigs := TwoChainTimeoutCertificate.signatures_with_rounds tc in
  let addresses := ValidatorVerifier.get_ordered_account_addresses v in
  BitVec.well_formed (AggregateSignature.validator_bitmask (AggregateSignatureWithRounds.sig sigs)) /\
  (TwoChainTimeoutCertificate.verify tc v = Ok tt ->
   (length (AggregateSignatureWithRounds.get_voters sigs addresses) <=
     length (AggregateSignatureWithRounds.rounds sigs))%nat /\
   forall a r, (a, r) ∈ AggregateSignatureWithRounds.get_voters_and_rounds sigs addresses ->
     honest a = true ->
     exists ev, (a, ev) ∈ tr /\ signs_timeout ev
       (TimeoutSigningRepr.mk (TwoChainTimeoutCertificate.epoch tc) (TwoChainTimeoutCertificate.round tc) r)).

(** What the callers of the safety rules ensure: certificates are genuine, a
    timeout certificate is of the epoch of the proposal ([SyncInfo::verify]), and
    commit votes are asked for ledger infos of the epoch that keep the hash of
    the vote. *)
Definition admissible (tr : trace) (es : option EpochState.t) (r : request) : Prop :=
  forall e, es = Some e ->
  match r with
  | ConstructAndSignVote vp tc _ =>
      genuine_ledger_info tr (EpochState.verifier e)
        (QuorumCert.signed_ledger_info (Block.quorum_cert (VoteProposal.block vp))) /\
      forall c, tc = Some c -> genuine_timeouts tr (EpochState.verifier e) c /\
        TwoChainTimeoutCertificate.epoch c = Block.epoch (VoteProposal.block vp)
  | SignCommitVote li new_li =>
      genuine_ledger_info tr (EpochState.verifier e) li /\
      LedgerInfo.epoch (LedgerInfoWithSignatures.ledger_info li) = EpochState.epoch e /\
      LedgerInfo.consensus_data_hash new_li =
        LedgerInfo.consensus_data_hash (LedgerInfoWithSignatures.ledger_info li)
  | _ => True
  end.

(** The validators a state knows are those of their epoch. *)
Definition agrees (s : t (Store:=Store)) : Prop := forall e, epoch_state s = Some e ->
  EpochState.verifier e = validators (EpochState.epoch e) /\ 1 <= EpochState.epoch e.

Definition update (w : AccountAddress -> t (Store:=Store)) a s : AccountAddress -> t (Store:=Store) :=
  fun b => if decide (b = a) then s else w b.

(** Executions: in each step an honest validator serves a request. *)
Inductive execution : (AccountAddress -> t (Store:=Store)) -> trace -> Prop :=
  | execution_start w : (forall a, starting (w a)) -> execution w []
  | execution_serve w tr a r s' rep : execution w tr -> honest a = true ->
      admissible tr (epoch_state (w a)) r -> serve r (w a) = (s', rep) -> agrees s' ->
      execution (update w a s') (tr ++ [(a, Event r (epoch_state (w a)) rep)]).

(** The history of one validator. *)
Definition events (a : AccountAddress) (tr : trace) : list event :=
  omap (fun '(b, ev) => if decide (b = a) then Some ev else None) tr.

(** A quorum of validators, whose honest members have voted [vd]. *)
Definition certified (tr : trace) (vd : VoteData.t) : Prop := exists authors,
  let v := validators (BlockInfo.epoch (VoteData.proposed vd)) in
  NoDup authors /\
  ValidatorVerifier.quorum_voting_power v <=
    ValidatorVerifier.power_of (ValidatorVerifier.validator_infos v) authors /\
  forall a, a ∈ authors -> honest a = true -> exists vote, voted (events a tr) vote /\ Vote.vote_data vote = vd.

(** The block extends [b] through certified blocks. *)
Inductive extends (tr : trace) (b : BlockInfo.t) : BlockInfo.t -> Prop :=
  | extends_refl : extends tr b b
  | extends_parent vd : certified tr vd -> extends tr b (VoteData.parent vd) ->
      extends tr b (VoteData.proposed vd).
End network.

(** ** Quorums *)
Section quorums.
Context `{CryptoTypes} (honest : AccountAddress -> bool).

(** Validators of which those that are not honest have at most a third of the
    voting power, with the quorum of [ValidatorVerifier::new]. *)
Record trustworthy (v : ValidatorVerifier.t) : Prop := {
  tw_well_formed : ValidatorVerifier.well_formed v;
  tw_nonempty : ValidatorVerifier.validator_infos v <> [];
  tw_quorum : ValidatorVerifier.quorum_voting_power v =
    ValidatorVerifier.quorum (ValidatorVerifier.validator_infos v);
  tw_faulty : 3 * ValidatorVerifier.weight (fun a => negb (honest a)) (ValidatorVerifier.validator_infos v) <=
    ValidatorVerifier.total (ValidatorVerifier.validator_infos v);
}.

Lemma honest_in_both v a b : trustworthy v -> NoDup a -> NoDup b ->
  ValidatorVerifier.quorum_voting_power v <= ValidatorVerifier.power_of (ValidatorVerifier.validator_infos v) a ->
  ValidatorVerifier.quorum_voting_power v <= ValidatorVerifier.power_of (ValidatorVerifier.validator_infos v) b ->
  exists x, x ∈ a /\ x ∈ b /\ honest x = true.
Proof.
  intros [Hwf Hne Hq Hf] Ha Hb Hqa Hqb. set (infos := ValidatorVerifier.validator_infos v) in *.
  pose proof (ValidatorVerifier.wf_powers v Hwf) as Hp. fold infos in Hp.
  pose proof (ValidatorVerifier.quorums_intersect infos a b Hp Ha Hb) as Hi.
  destruct (decide (Exists (fun x => honest x = true) (List.filter (ValidatorVerifier.mem b) a))) as [Hx|Hx].
  { apply Exists_exists in Hx as (x & Hx & Hh). apply list_elem_of_In, filter_In in Hx as [Hx Hm].
    exists x. rewrite list_elem_of_In. split_and!; [done| |done]. by apply bool_decide_eq_true_1 in Hm. }
  exfalso. rewrite (ValidatorVerifier.power_of_weight infos (List.filter _ a)) in Hi
    by (apply NoDup_ListNoDup, List.NoDup_filter, NoDup_ListNoDup, Ha).
  pose proof (ValidatorVerifier.weight_mono (ValidatorVerifier.mem (List.filter (ValidatorVerifier.mem b) a))
    (fun x => negb (honest x)) infos Hp) as Hm.
  rewrite Hq in Hqa, Hqb. unfold ValidatorVerifier.quorum in Hqa, Hqb. destruct infos as [|i infos]; [done|].
  pose proof (Z.mul_succ_div_gt (ValidatorVerifier.total (i :: infos) * 2) 3 ltac:(lia)).
  enough (forall x, ValidatorVerifier.mem (List.filter (ValidatorVerifier.mem b) a) x = true ->
    negb (honest x) = true) as Hall by (apply Hm in Hall; lia).
  intros x Hx'. apply bool_decide_eq_true_1 in Hx'.
  destruct (honest x) eqn:Eh; [|done]. destruct Hx. apply Exists_exists. by exists x.
Qed.
End quorums.

(** ** Executions *)
Section executions.
Context `{CryptoTypes} `{!PrivateKeys} `{!BlsAggregate} `{!MerkleHasher HashValue} `{!Transactions}
  `{!CryptoHash VoteData.t} `{!WaypointHasher}
  `{!Bls LedgerInfo.t} `{!Bls TimeoutSigningRepr.t} `{!Bls BlockData.t}
  `{!BlsSign LedgerInfo.t} `{!BlsSign TimeoutSigningRepr.t} `{!BlsSign BlockData.t}
  {Store : Type} `{!SafetyStore Store} `{!SafetyStoreLaws Store}.
Context (honest : AccountAddress -> bool) (validators : Z -> ValidatorVerifier.t).
Hypothesis Hatomic : atomic_writes (Store:=Store).
Hypothesis Hvalidators : forall e, 1 <= e -> trustworthy honest (validators e).
Hypothesis Hhash : forall vd vd' : VoteData.t, hash vd = hash vd' -> vd = vd'.
Implicit Types (tr : list (AccountAddress * event)) (w : AccountAddress -> t (Store:=Store)).

Abbreviation execution := (execution honest validators).
Abbreviation certified := (certified honest validators).
Abbreviation extends := (extends honest validators).

Lemma elem_of_events a ev tr : ev ∈ events a tr <-> (a, ev) ∈ tr.
Proof using Type.
  unfold events. rewrite list_elem_of_omap. split.
  - intros ([b ev'] & Hin & He). destruct (decide (b = a)) as [->|]; [|done]. by injection He as ->.
  - intros Hin. exists (a, ev). split; [done|]. by rewrite decide_True.
Qed.

Lemma events_app a tr tr' : events a (tr ++ tr') = events a tr ++ events a tr'.
Proof using Type. apply omap_app. Qed.

Lemma execution_history w tr a : execution w tr -> history (w a) (events a tr).
Proof using Type.
  induction 1 as [w Hw|w tr b r s' rep Hex IH Hh Hadm Hr Hag]; [by constructor|].
  rewrite events_app. unfold update. cbn [events omap list_omap]. destruct (decide (b = a)) as [->|Hne].
  - rewrite decide_True by done. by econstructor.
  - rewrite decide_False by congruence. by rewrite app_nil_r.
Qed.

Lemma execution_agrees w tr a : execution w tr -> agrees validators (w a).
Proof using Type.
  induction 1 as [w Hw|w tr b r s' rep Hex IH Hh Hadm Hr Hag].
  - destruct (Hw a) as (_ & He & _). intros e. congruence.
  - unfold update. by destruct (decide (a = b)).
Qed.

(** Each step of an execution. *)
Lemma execution_step w tr i a ev : execution w tr -> tr !! i = Some (a, ev) ->
  honest a = true /\ admissible honest (take i tr) (under ev) (asked ev) /\
  (forall e, under ev = Some e -> EpochState.verifier e = validators (EpochState.epoch e) /\ 1 <= EpochState.epoch e) /\
  exists s s' : t (Store:=Store), serve (asked ev) s = (s', replied ev) /\ epoch_state s = under ev.
Proof using Type.
  induction 1 as [w Hw|w tr b r s' rep Hex IH Hh Hadm Hr Hag]; [done|].
  intros [Hi|[Hle Hi]]%lookup_app_Some.
  - rewrite take_app_le by (apply lookup_lt_Some in Hi; lia). by apply IH.
  - apply list_lookup_singleton_Some in Hi as [Hi [= <- <-]]. replace i with (length tr) by lia.
    rewrite take_app_length. split_and!; [done..|by eapply execution_agrees|by exists (w b), s'].
Qed.

Lemma certified_app tr tr' vd : certified tr vd -> certified (tr ++ tr') vd.
Proof using Type.
  intros (authors & Hnd & Hq & Hv). exists authors. split_and!; [done..|]. intros a Ha Hh.
  destruct (Hv a Ha Hh) as (v & (vp & tc & now & es & Hin) & Hvd). exists v. split; [|done].
  exists vp, tc, now, es. rewrite events_app. apply elem_of_app. by left.
Qed.

(** *** Votes *)
Lemma vote_unique w tr a v v' : execution w tr -> voted (events a tr) v -> voted (events a tr) v' ->
  vote_epoch v = vote_epoch v' -> vote_round v = vote_round v' -> v = v'.
Proof using SafetyStoreLaws0.
  intros Hex Hv Hv'. apply (execution_history _ _ a), history_invariant in Hex.
  apply (inv_unique _ _ Hex); by left.
Qed.

(** The request on which a vote was made, and what was known of its certificates. *)
Lemma vote_origin w tr a v : execution w tr -> voted (events a tr) v ->
  exists i vp tc e d d', votes vp tc (Some e) v d d' /\
    EpochState.verifier e = validators (vote_epoch v) /\ 1 <= vote_epoch v /\
    genuine_ledger_info honest (take i tr) (EpochState.verifier e)
      (QuorumCert.signed_ledger_info (Block.quorum_cert (VoteProposal.block vp))) /\
    forall c, tc = Some c -> genuine_timeouts honest (take i tr) (EpochState.verifier e) c /\
      TwoChainTimeoutCertificate.epoch c = vote_epoch v.
Proof using Hatomic SafetyStoreLaws0.
  intros Hex Hv. pose proof (execution_history _ _ a Hex) as Hi%history_invariant.
  destruct (inv_justified _ _ Hi v (or_introl Hv)) as (vp & tc & now & es & rep & d & d' & Hin & Hvotes & Hep).
  apply elem_of_events, list_elem_of_lookup_1 in Hin as [i Hin].
  destruct (votes_verified _ _ _ _ _ _ Hvotes) as (e & -> & _ & _).
  destruct (execution_step _ _ _ _ _ Hex Hin) as (_ & Hadm & Hes & _). cbn in Hadm, Hes.
  destruct (Hes e eq_refl) as [Hver H1e]. destruct (Hadm e eq_refl) as [Hqc Htc].
  rewrite (Hep Hatomic e eq_refl) in Hver, H1e.
  exists i, vp, tc, e, d, d'. split_and!; [done..|]. intros c Hc. destruct (Htc c Hc) as [? ->].
  split; [done|]. symmetry. by eapply votes_block_epoch.
Qed.

(** *** Ledger infos *)

(** The signers of a ledger info that verifies: a quorum. *)
Lemma signers_quorum e (li : LedgerInfoWithSignatures.t) tr : 1 <= e -> genuine_ledger_info honest tr (validators e) li ->
  LedgerInfoWithSignatures.verify_signatures li (validators e) = Ok tt ->
  exists authors, NoDup authors /\
    ValidatorVerifier.quorum_voting_power (validators e) <=
      ValidatorVerifier.power_of (ValidatorVerifier.validator_infos (validators e)) authors /\
    forall a, a ∈ authors -> honest a = true ->
      exists ev, (a, ev) ∈ tr /\ signs_ledger_info ev (LedgerInfoWithSignatures.ledger_info li).
Proof using Hvalidators.
  intros He [Hbv Hg] Hok. pose proof (tw_well_formed _ _ (Hvalidators e He)) as Hwf.
  destruct (ValidatorVerifier.multi_signature_voters _ _ _ Hwf Hbv Hok) as (voters & key & sig & _ & Hnd & Ha & Hq & _).
  eexists. split_and!; [exact Hnd|exact Hq|]. rewrite Ha. by apply Hg.
Qed.

(** Either all honest signers have voted, or one has signed a commit vote. *)
Lemma signed_by_votes (authors : list AccountAddress) tr li :
  (forall a, a ∈ authors -> honest a = true -> exists ev, (a, ev) ∈ tr /\ signs_ledger_info ev li) ->
  (forall a, a ∈ authors -> honest a = true -> exists v, voted (events a tr) v /\ Vote.ledger_info v = li) \/
  exists a old es signature, (a, Event (SignCommitVote old li) es (Signed signature)) ∈ tr.
Proof using Type.
  intros Hall. destruct (all_or_some
    (fun a => honest a = true -> exists v, voted (events a tr) v /\ Vote.ledger_info v = li)
    (fun a => exists old es signature, (a, Event (SignCommitVote old li) es (Signed signature)) ∈ tr) authors)
    as [?|(a & _ & Ha)]; [|by left|right; by exists a].
  intros a Ha. destruct (honest a) eqn:Eh; [|by left].
  destruct (Hall a Ha Eh) as (ev & Hin & [(vp & tc & now & es & v & -> & Hv)|(old & es & signature & ->)]).
  - left. intros _. exists v. split; [|done]. exists vp, tc, now, es. by apply elem_of_events.
  - right. by exists old, es, signature.
Qed.

(** What a signed commit vote tells of the ledger info it was asked for. *)
Lemma commit_vote_Ok old li (s s' : t (Store:=Store)) signature :
  serve (SignCommitVote old li) s = (s', Signed signature) ->
  let old_info := LedgerInfo.commit_info (LedgerInfoWithSignatures.ledger_info old) in
  exists e, epoch_state s = Some e /\
    LedgerInfoWithSignatures.verify_signatures old (EpochState.verifier e) = Ok tt /\
    BlockInfo.match_ordered_only old_info (LedgerInfo.commit_info li) = true.
Proof using Type.
  unfold serve. destruct (guarded_sign_commit_vote old li s) as [s1 o] eqn:Em. cbn zeta. intros [= -> Ho].
  destruct o as [sig|e|]; cbn in Ho; [|done..]. unfold guarded_sign_commit_vote in Em.
  apply action_bind_Ok in Em as (s2 & signer & Hs & Em). injection Hs as -> _.
  apply action_bind_Ok in Em as (s3 & [] & Ho1 & Em). apply lift_Ok in Ho1 as [_ ->].
  apply action_bind_Ok in Em as (s4 & [] & Ho2 & Em). apply lift_Ok in Ho2 as [Ho2%ensure_Ok ->].
  apply action_bind_Ok in Em as (s5 & e & He & Em). apply get_epoch_state_Ok in He as [-> He].
  apply action_bind_Ok in Em as (s6 & [] & Hv & _). apply lift_Ok in Hv as [Hv _].
  apply map_err_Ok in Hv. by exists e.
Qed.

(** The vote data [vd] commits the block [b], of which execution may have filled
    in the state. *)
Definition commits (vd : VoteData.t) (b : BlockInfo.t) : Prop :=
  BlockInfo.round (VoteData.proposed vd) = BlockInfo.round (VoteData.parent vd) + 1 /\
  BlockInfo.epoch b = BlockInfo.epoch (VoteData.parent vd) /\
  BlockInfo.round b = BlockInfo.round (VoteData.parent vd) /\
  BlockInfo.id b = BlockInfo.id (VoteData.parent vd).

Lemma match_ordered_only_commits vd b b' : commits vd b -> BlockInfo.match_ordered_only b b' = true -> commits vd b'.
Proof using Type.
  unfold commits, BlockInfo.match_ordered_only. rewrite !andb_true_iff, bool_decide_eq_true, !Z.eqb_eq.
  intros (? & -> & -> & ->) [[[<- <-] <-] _]. done.
Qed.

(** A quorum of votes with one ledger info is a quorum for one block. *)
Lemma votes_certify w tr tr' (e : Z) (authors : list AccountAddress) li vd : execution w tr -> 1 <= e ->
  tr' `prefix_of` tr -> NoDup authors ->
  ValidatorVerifier.quorum_voting_power (validators e) <=
    ValidatorVerifier.power_of (ValidatorVerifier.validator_infos (validators e)) authors ->
  (forall a, a ∈ authors -> honest a = true -> exists v, voted (events a tr') v /\ Vote.ledger_info v = li) ->
  hash vd = LedgerInfo.consensus_data_hash li -> BlockInfo.epoch (VoteData.proposed vd) = e -> certified tr vd.
Proof using Hatomic Hhash SafetyStoreLaws0.
  intros Hex He [tr'' ->] Hnd Hq Hv Hvd <-. exists authors. split_and!; [done..|]. intros a Ha Hh.
  destruct (Hv a Ha Hh) as (v & Hvoted & Hli). exists v.
  assert (voted (events a (tr' ++ tr'')) v) as Hvoted'.
  { destruct Hvoted as (vp & tc & now & es & Hin). exists vp, tc, now, es. rewrite events_app. apply elem_of_app. by left. }
  split; [done|]. apply Hhash. destruct (vote_origin _ _ _ _ Hex Hvoted') as (_ & vp & tc & es & d & d' & Hvotes & _).
  rewrite <-(votes_hash _ _ _ _ _ _ Hvotes), Hvd. by rewrite Hli.
Qed.

(** A commit vote was signed on an earlier ledger info of the epoch. *)
Lemma commit_vote_origin w tr n a old li es signature : execution w tr ->
  (a, Event (SignCommitVote old li) es (Signed signature)) ∈ take n tr ->
  let e := LedgerInfo.epoch (LedgerInfoWithSignatures.ledger_info old) in
  exists i, (i < n)%nat /\ 1 <= e /\ genuine_ledger_info honest (take i tr) (validators e) old /\
    LedgerInfoWithSignatures.verify_signatures old (validators e) = Ok tt /\
    BlockInfo.match_ordered_only (LedgerInfo.commit_info (LedgerInfoWithSignatures.ledger_info old))
      (LedgerInfo.commit_info li) = true /\
    LedgerInfo.consensus_data_hash li =
      LedgerInfo.consensus_data_hash (LedgerInfoWithSignatures.ledger_info old).
Proof using Type.
  intros Hex Hin e. apply list_elem_of_lookup_1 in Hin as [i Hin]. apply lookup_take_Some in Hin as [Hin Hlt].
  destruct (execution_step _ _ _ _ _ Hex Hin) as (_ & Hadm & Hes & s & s' & Hr & Hst). cbn in Hadm, Hes, Hr, Hst.
  apply commit_vote_Ok in Hr as (es' & He & Hver & Hm). rewrite Hst in He. subst es.
  destruct (Hes _ eq_refl) as [Hv H1e]. destruct (Hadm _ eq_refl) as (Hg & Hee & Hh). unfold e.
  rewrite Hee, <-Hv. by exists i.
Qed.

Lemma ledger_info_certified w tr n li : execution w tr ->
  let e := LedgerInfo.epoch (LedgerInfoWithSignatures.ledger_info li) in
  1 <= e -> genuine_ledger_info honest (take n tr) (validators e) li ->
  LedgerInfoWithSignatures.verify_signatures li (validators e) = Ok tt ->
  exists vd, certified tr vd /\ BlockInfo.epoch (VoteData.proposed vd) = e /\
    hash vd = LedgerInfo.consensus_data_hash (LedgerInfoWithSignatures.ledger_info li) /\
    commits vd (LedgerInfo.commit_info (LedgerInfoWithSignatures.ledger_info li)).
Proof using Hatomic Hhash Hvalidators SafetyStoreLaws0.
  intros Hex. revert li. induction (lt_wf n) as [n _ IH]. intros li e He Hg Hok.
  destruct (signers_quorum _ _ _ He Hg Hok) as (authors & Hnd & Hq & Hs).
  apply signed_by_votes in Hs as [Hs|(a & old & es & signature & Hin)].
  - destruct (honest_in_both honest _ _ _ (Hvalidators e He) Hnd Hnd Hq Hq) as (a & Ha & _ & Hh).
    destruct (Hs a Ha Hh) as (v & Hv & Hli).
    assert (voted (events a tr) v) as Hv'.
    { destruct Hv as (vp & tc & now & es & Hin). exists vp, tc, now, es. rewrite <-(take_drop n tr), events_app.
      apply elem_of_app. by left. }
    destruct (vote_origin _ _ _ _ Hex Hv') as (_ & vp & tc & es & d & d' & Hvotes & _ & _).
    pose proof (votes_commit _ _ _ _ _ _ Hvotes) as Hc. pose proof (votes_hash _ _ _ _ _ _ Hvotes) as Hvh.
    pose proof (votes_parent_epoch _ _ _ _ _ _ Hvotes) as Hpe. rewrite Hli in Hc, Hvh.
    destruct (Z.eqb_spec (parent_round v + 1) (vote_round v)) as [Hr|Hr]; cycle 1.
    { unfold e, LedgerInfo.epoch in He. rewrite Hc in He. cbn in He. lia. }
    assert (vote_epoch v = e) as Hve by (unfold e, LedgerInfo.epoch; by rewrite Hc).
    exists (Vote.vote_data v). split_and!; [|done|done|unfold commits; rewrite Hc; by rewrite Hr].
    eapply votes_certify; [done|done|apply prefix_take|done..].
  - destruct (commit_vote_origin _ _ _ _ _ _ _ _ Hex Hin) as (i & Hlt & H1e & Hgo & Hvo & Hm & Hh).
    destruct (IH i Hlt old H1e Hgo Hvo) as (vd & Hcert & Hep & Hhv & Hc). exists vd.
    pose proof (match_ordered_only_commits _ _ _ Hc Hm) as Hc'. split_and!; [done| |by rewrite Hh|done].
    unfold e. rewrite Hep. unfold LedgerInfo.epoch. destruct Hc as (_ & -> & _), Hc' as (_ & -> & _). done.
Qed.

(** A certificate on which an honest validator votes. *)
Lemma quorum_cert_certified w tr n qc : execution w tr ->
  let e := BlockInfo.epoch (QuorumCert.certified_block qc) in
  1 <= e -> 1 <= BlockInfo.round (QuorumCert.certified_block qc) ->
  genuine_ledger_info honest (take n tr) (validators e) (QuorumCert.signed_ledger_info qc) ->
  QuorumCert.verify qc (validators e) = Ok tt -> certified tr (QuorumCert.vote_data qc).
Proof using Hatomic Hhash Hvalidators SafetyStoreLaws0.
  intros Hex e He Hr Hg Hok. unfold QuorumCert.verify in Hok. rewrite seq_Ok, ensure_Ok in Hok.
  destruct Hok as [Hh Hok]. apply bool_decide_eq_true_1 in Hh.
  rewrite (proj2 (Z.eqb_neq _ _)) in Hok by lia. rewrite seq_Ok in Hok. destruct Hok as [Hok _].
  assert (LedgerInfoWithSignatures.verify_signatures (QuorumCert.signed_ledger_info qc) (validators e) = Ok tt) as Hv.
  { unfold map_err in Hok. by destruct (LedgerInfoWithSignatures.verify_signatures _ _) as [[]| |]. }
  destruct (signers_quorum _ _ _ He Hg Hv) as (authors & Hnd & Hq & Hs).
  apply signed_by_votes in Hs as [Hs|(a & old & es & signature & Hin)].
  - eapply votes_certify; [done|exact He|apply prefix_take|done..].
  - destruct (commit_vote_origin _ _ _ _ _ _ _ _ Hex Hin) as (i & Hlt & H1e & Hgo & Hvo & Hm & Hho).
    destruct (ledger_info_certified _ _ _ _ Hex H1e Hgo Hvo) as (vd & Hcert & _ & Hhv & _).
    replace (QuorumCert.vote_data qc) with vd; [done|]. apply Hhash. rewrite Hhv, <-Hho. done.
Qed.

(** *** Certified blocks *)

(** An honest validator has voted for a certified block. *)
Lemma certified_vote tr vd : certified tr vd -> 1 <= BlockInfo.epoch (VoteData.proposed vd) ->
  exists a v, voted (events a tr) v /\ Vote.vote_data v = vd.
Proof using Hvalidators.
  intros (authors & Hnd & Hq & Hv) He.
  destruct (honest_in_both honest _ _ _ (Hvalidators _ He) Hnd Hnd Hq Hq) as (a & Ha & _ & Hh).
  destruct (Hv a Ha Hh) as (v & ? & ?). by exists a, v.
Qed.

Lemma certified_unique w tr vd vd' : execution w tr -> certified tr vd -> certified tr vd' ->
  1 <= BlockInfo.epoch (VoteData.proposed vd) ->
  BlockInfo.epoch (VoteData.proposed vd) = BlockInfo.epoch (VoteData.proposed vd') ->
  BlockInfo.round (VoteData.proposed vd) = BlockInfo.round (VoteData.proposed vd') -> vd = vd'.
Proof using Hvalidators SafetyStoreLaws0.
  intros Hex (authors & Hnd & Hq & Hv) (authors' & Hnd' & Hq' & Hv') He1 He Hr. rewrite <-He in Hq'.
  destruct (honest_in_both honest _ _ _ (Hvalidators _ He1) Hnd Hnd' Hq Hq') as (a & Ha & Ha' & Hh).
  destruct (Hv a Ha Hh) as (v & Hvoted & <-). destruct (Hv' a Ha' Hh) as (v' & Hvoted' & <-).
  f_equal. by eapply vote_unique.
Qed.

(** The parent of a certified block, when it is not the first of its epoch, is
    certified. *)
Lemma parent_certified w tr vd : execution w tr -> certified tr vd ->
  1 <= BlockInfo.epoch (VoteData.proposed vd) -> 1 <= BlockInfo.round (VoteData.parent vd) ->
  exists vd0, certified tr vd0 /\ VoteData.proposed vd0 = VoteData.parent vd /\
    BlockInfo.epoch (VoteData.proposed vd0) = BlockInfo.epoch (VoteData.proposed vd).
Proof using Hatomic Hhash Hvalidators SafetyStoreLaws0.
  intros Hex Hc He Hr. destruct (certified_vote _ _ Hc He) as (a & v & Hv & <-).
  destruct (vote_origin _ _ _ _ Hex Hv) as (i & vp & tc & e & d & d' & Hvotes & Hver & _ & Hg & _).
  destruct (votes_verified _ _ _ _ _ _ Hvotes) as (e' & [= <-] & Hqc & _).
  pose proof (votes_parent_epoch _ _ _ _ _ _ Hvotes) as Hpe.
  set (qc := Block.quorum_cert (VoteProposal.block vp)) in *.
  assert (VoteData.parent (Vote.vote_data v) = QuorumCert.certified_block qc) as Hp by (by eapply votes_parent).
  rewrite Hver in Hg, Hqc. rewrite <-Hpe in *. rewrite Hp in *.
  exists (QuorumCert.vote_data qc). split; [|done]. by eapply quorum_cert_certified.
Qed.

(** The signers of a timeout certificate on which an honest validator votes
    include an honest one that has voted for [vd1]; its certified round is no
    earlier than the parent of [vd1]. *)
Lemma timeouts_respect w tr n vd1 c : execution w tr -> certified tr vd1 ->
  let e := BlockInfo.epoch (VoteData.proposed vd1) in
  1 <= e -> genuine_timeouts honest (take n tr) (validators e) c ->
  TwoChainTimeoutCertificate.verify c (validators e) = Ok tt -> TwoChainTimeoutCertificate.epoch c = e ->
  BlockInfo.round (VoteData.proposed vd1) <= TwoChainTimeoutCertificate.round c ->
  BlockInfo.round (VoteData.parent vd1) <= TwoChainTimeoutCertificate.highest_hqc_round c.
Proof using Hvalidators SafetyStoreLaws0.
  intros Hex (authors & Hnd & Hq & Hv) e He [Hbv Hg] Hok Hce Hr.
  pose proof (tw_well_formed _ _ (Hvalidators e He)) as Hwf.
  destruct (verified_timeouts _ _ Hwf Hbv Hok) as (voters & sig & _ & Hnd' & Haddr & Hq' & _ & _ & Hm & _).
  destruct (Hg Hok) as [Hlen Hsigned].
  destruct (honest_in_both honest _ _ _ (Hvalidators _ He) Hnd Hnd' Hq Hq') as (a & Ha & Ha' & Hh).
  destruct (Hv a Ha Hh) as (v & Hvoted & <-). rewrite Haddr in Ha'.
  apply list_elem_of_lookup_1 in Ha' as [k Hk].
  assert (exists r, AggregateSignatureWithRounds.rounds (TwoChainTimeoutCertificate.signatures_with_rounds c) !! k
    = Some r) as [r Hkr].
  { apply lookup_lt_is_Some. eapply Nat.lt_le_trans; [by eapply lookup_lt_Some|done]. }
  assert ((a, r) ∈ AggregateSignatureWithRounds.get_voters_and_rounds
    (TwoChainTimeoutCertificate.signatures_with_rounds c)
    (ValidatorVerifier.get_ordered_account_addresses (validators e))) as Hin.
  { apply (list_elem_of_lookup_2 _ k). unfold AggregateSignatureWithRounds.get_voters_and_rounds.
    apply lookup_zip_with_Some. by exists a, r. }
  destruct (Hsigned a r Hin Hh) as (ev & Hev & timeout & tc & es & signature & -> & Hfmt).
  assert (timed_out (events a tr) timeout) as Hto.
  { exists tc, es, signature. apply elem_of_events. rewrite <-(take_drop n tr). apply elem_of_app. by left. }
  pose proof (inv_agree _ _ (history_invariant _ _ (execution_history _ _ a Hex)) v timeout (or_introl Hvoted) Hto) as Hle.
  unfold TwoChainTimeout.signing_format in Hfmt. injection Hfmt as Hfe Hfr Hfh.
  destruct (Hm (TimeoutSigningRepr.mk (TwoChainTimeoutCertificate.epoch c) (TwoChainTimeoutCertificate.round c) r))
    as (_ & _ & Hmax); [apply list_elem_of_fmap; by exists (a, r)|].
  cbn [TimeoutSigningRepr.hqc_round] in Hmax. rewrite <-Hfh in Hmax.
  etrans; [apply Hle|done]; [by rewrite Hfe, Hce|by rewrite Hfr].
Qed.

(** The voting rule, for a block that is not the child of a block of at least the
    round of the parent of [vd1]. *)
Lemma later_parent w tr vd1 vd : execution w tr -> certified tr vd1 -> certified tr vd ->
  let e := BlockInfo.epoch (VoteData.proposed vd1) in
  1 <= e -> BlockInfo.epoch (VoteData.proposed vd) = e -> 1 <= BlockInfo.round (VoteData.parent vd1) ->
  BlockInfo.round (VoteData.proposed vd1) = BlockInfo.round (VoteData.parent vd1) + 1 ->
  BlockInfo.round (VoteData.parent vd1) < BlockInfo.round (VoteData.proposed vd) ->
  BlockInfo.round (VoteData.parent vd1) <= BlockInfo.round (VoteData.parent vd).
Proof using Hatomic Hvalidators SafetyStoreLaws0.
  intros Hex Hc1 Hc e He Hve H1p Hr1 Hr.
  destruct (Z.eq_dec (BlockInfo.round (VoteData.proposed vd)) (BlockInfo.round (VoteData.proposed vd1))) as [Heq|Hne].
  { assert (vd1 = vd) as -> by (by eapply certified_unique). done. }
  rewrite <-Hve in He. destruct (certified_vote _ _ Hc He) as (a & v & Hv & <-).
  destruct (vote_origin _ _ _ _ Hex Hv) as (i & vp & tc & es & d & d' & Hvotes & Hver & _ & _ & Htc).
  destruct (votes_verified _ _ _ _ _ _ Hvotes) as (es' & [= <-] & _ & Hvtc).
  destruct (votes_rule _ _ _ _ _ _ Hvotes) as [Hd|[Hd Hh]]; [lia|]. destruct tc as [c|]; [|lia].
  destruct (Htc c eq_refl) as [Hg Hce]. specialize (Hvtc c eq_refl). rewrite Hver, Hve in Hg, Hvtc. fold e in Hg, Hvtc.
  rewrite Hve in Hce, He. pose proof (timeouts_respect _ _ _ _ _ Hex Hc1 He Hg Hvtc Hce) as Hle.
  etrans; [apply Hle|done]. lia.
Qed.

(** Every certified block from the round of a committed block on extends it. *)
Lemma certified_extends w tr vd1 vd : execution w tr -> certified tr vd1 -> certified tr vd ->
  let e := BlockInfo.epoch (VoteData.proposed vd1) in
  1 <= e -> BlockInfo.epoch (VoteData.proposed vd) = e -> 1 <= BlockInfo.round (VoteData.parent vd1) ->
  BlockInfo.round (VoteData.proposed vd1) = BlockInfo.round (VoteData.parent vd1) + 1 ->
  BlockInfo.round (VoteData.parent vd1) <= BlockInfo.round (VoteData.proposed vd) ->
  extends tr (VoteData.parent vd1) (VoteData.proposed vd).
Proof using Hatomic Hhash Hvalidators SafetyStoreLaws0.
  intros Hex Hc1 Hc e He Hve H1p Hr1.
  destruct (parent_certified _ _ _ Hex Hc1 He H1p) as (vd0 & Hc0 & Hp0 & He0).
  remember (BlockInfo.round (VoteData.proposed vd)) as r eqn:Er. revert vd Hc Hve Er.
  induction (Z.lt_wf 0 r) as [r _ IH]. intros vd Hc Hve -> Hle.
  destruct (Z.eq_dec (BlockInfo.round (VoteData.proposed vd)) (BlockInfo.round (VoteData.parent vd1))) as [Heq|Hne].
  { assert (vd0 = vd) as <-. { eapply certified_unique; [done..|by rewrite He0|by rewrite He0|by rewrite Hp0]. }
    rewrite Hp0. constructor. }
  assert (BlockInfo.round (VoteData.parent vd1) <= BlockInfo.round (VoteData.parent vd)) as Hpar
    by (eapply later_parent; (done || lia)).
  rewrite <-Hve in He. destruct (parent_certified _ _ _ Hex Hc He ltac:(lia)) as (vdp & Hcp & Hpp & Hep).
  apply extends_parent; [done|]. rewrite <-Hpp.
  destruct (certified_vote _ _ Hc He) as (a & v & Hv & Hvd).
  destruct (vote_origin _ _ _ _ Hex Hv) as (i & vp & tc & es & d & d' & Hvotes & _).
  pose proof (votes_parent_round _ _ _ _ _ _ Hvotes) as Hlt. rewrite Hvd in Hlt. rewrite <-Hpp in Hlt, Hpar.
  eapply IH; [|done|congruence|done|done]. lia.
Qed.

(** C1: in every execution in which the validators that do not follow the safety
    rules hold at most a third of the voting power of an epoch, the blocks that two
    ledger infos with verified signatures commit in the epoch are on one chain of
    certified blocks: one is the other or an ancestor of it, and no two different
    blocks are committed in the same round. *)
Theorem committed_blocks_agree w tr (li1 li2 : LedgerInfoWithSignatures.t) (e : Z) :
  let b1 := LedgerInfo.commit_info (LedgerInfoWithSignatures.ledger_info li1) in
  let b2 := LedgerInfo.commit_info (LedgerInfoWithSignatures.ledger_info li2) in
  execution w tr -> 1 <= e ->
  BlockInfo.epoch b1 = e -> BlockInfo.epoch b2 = e -> 1 <= BlockInfo.round b1 -> 1 <= BlockInfo.round b2 ->
  genuine_ledger_info honest tr (validators e) li1 -> genuine_ledger_info honest tr (validators e) li2 ->
  LedgerInfoWithSignatures.verify_signatures li1 (validators e) = Ok tt ->
  LedgerInfoWithSignatures.verify_signatures li2 (validators e) = Ok tt ->
  exists c1 c2,
    (BlockInfo.epoch c1, BlockInfo.round c1, BlockInfo.id c1) = (e, BlockInfo.round b1, BlockInfo.id b1) /\
    (BlockInfo.epoch c2, BlockInfo.round c2, BlockInfo.id c2) = (e, BlockInfo.round b2, BlockInfo.id b2) /\
    (extends tr c1 c2 \/ extends tr c2 c1) /\ (BlockInfo.round b1 = BlockInfo.round b2 -> c1 = c2).
Proof using Hatomic Hhash Hvalidators SafetyStoreLaws0.
  intros b1 b2 Hex He <- He2 Hr1 Hr2 Hg1 Hg2 Hv1 Hv2. rewrite <-He2 in Hg2, Hv2.
  rewrite <-(take_ge tr (length tr)) in Hg1, Hg2 by done.
  destruct (ledger_info_certified _ _ _ _ Hex He Hg1 Hv1) as (vd1 & Hc1 & Hep1 & _ & Hn1 & Hb1e & Hb1r & Hb1i).
  assert (1 <= BlockInfo.epoch b2) as He2' by lia.
  destruct (ledger_info_certified _ _ _ _ Hex He2' Hg2 Hv2) as (vd2 & Hc2 & Hep2 & _ & Hn2 & Hb2e & Hb2r & Hb2i).
  fold b1 in Hb1e, Hb1r, Hb1i. fold b2 in Hb2e, Hb2r, Hb2i.
  change (LedgerInfo.epoch _) with (BlockInfo.epoch b1) in Hep1. change (LedgerInfo.epoch _) with (BlockInfo.epoch b2) in Hep2.
  exists (VoteData.parent vd1), (VoteData.parent vd2). do 2 (split; [congruence|]).
  destruct (parent_certified _ _ _ Hex Hc1 ltac:(lia) ltac:(lia)) as (vd1' & Hc1' & Hp1 & He1').
  destruct (parent_certified _ _ _ Hex Hc2 ltac:(lia) ltac:(lia)) as (vd2' & Hc2' & Hp2 & He2'').
  split; cycle 1.
  { intros Hr. rewrite <-Hp1, <-Hp2. f_equal. eapply certified_unique; rewrite ?Hp1, ?Hp2; (done || congruence || lia). }
  destruct (Z.le_ge_cases (BlockInfo.round (VoteData.parent vd1)) (BlockInfo.round (VoteData.parent vd2))).
  - left. rewrite <-Hp2. eapply certified_extends; rewrite ?Hp2; (done || lia).
  - right. rewrite <-Hp1. eapply certified_extends; rewrite ?Hp1; (done || lia).
Qed.
End executions.

(** ** An example: three of four validators commit two blocks *)
Section example.
#[local] Existing Instance no_transactions.
#[local] Existing Instance block_data_hash.
#[local] Existing Instance example_keys.
#[local] Existing Instance example_sign.
#[local] Existing Instance example_waypoint_hash.
#[local] Existing Instance vote_data_digest.

Abbreviation state := (SafetyRules.t (Store:=@InMemoryStorage.t free_crypto example_keys)).
Abbreviation trace := (list (AccountAddress * event)).

Definition example_honest (a : AccountAddress) : bool := negb (a =? 9).
Definition example_validators (e : Z) : @ValidatorVerifier.t free_crypto := v4.

(** Checks of the conditions on executions. *)
Definition signs_ledger_info_b (ev : event) (li : LedgerInfo.t) : bool :=
  match ev with
  | Event (ConstructAndSignVote _ _ _) _ (Voted v) => bool_decide (Vote.ledger_info v = li)
  | Event (SignCommitVote _ li') _ (Signed _) => bool_decide (li' = li)
  | _ => false
  end.
Definition signs_timeout_b (ev : event) (m : TimeoutSigningRepr.t) : bool :=
  match ev with
  | Event (SignTimeoutWithQc timeout _) _ (Signed _) => bool_decide (TwoChainTimeout.signing_format timeout = m)
  | _ => false
  end.
Definition has_signed (p : event -> bool) (tr : trace) (a : AccountAddress) : bool :=
  negb (example_honest a) || existsb (fun '(b, ev) => (b =? a) && p ev) tr.
Definition mask_b (agg : @AggregateSignature.t free_crypto) : bool :=
  let bytes := BitVec.inner (AggregateSignature.validator_bitmask agg) in
  forallb (fun b => (0 <=? b) && (b <? 256)) bytes && (BitVec.len bytes <=? BitVec.MAX_BUCKETS).
Definition genuine_ledger_info_b (tr : trace) (v : ValidatorVerifier.t)
    (li : LedgerInfoWithSignatures.t) : bool :=
  mask_b (LedgerInfoWithSignatures.signatures li) &&
  forallb (has_signed (fun ev => signs_ledger_info_b ev (LedgerInfoWithSignatures.ledger_info li)) tr)
    (AggregateSignature.get_signers_addresses (LedgerInfoWithSignatures.signatures li)
       (ValidatorVerifier.get_ordered_account_addresses v)).
Definition genuine_timeouts_b (tr : trace) (v : ValidatorVerifier.t)
    (tc : TwoChainTimeoutCertificate.t) : bool :=
  let sigs := TwoChainTimeoutCertificate.signatures_with_rounds tc in
  let addresses := ValidatorVerifier.get_ordered_account_addresses v in
  mask_b (AggregateSignatureWithRounds.sig sigs) &&
  (length (AggregateSignatureWithRounds.get_voters sigs addresses) <=?
     length (AggregateSignatureWithRounds.rounds sigs))%nat &&
  forallb (fun '(a, r) => has_signed (fun ev => signs_timeout_b ev (TimeoutSigningRepr.mk
      (TwoChainTimeoutCertificate.epoch tc) (TwoChainTimeoutCertificate.round tc) r)) tr a)
    (AggregateSignatureWithRounds.get_voters_and_rounds sigs addresses).
Definition admissible_b (tr : trace) (es : option EpochState.t) (r : request) : bool :=
  match es, r with
  | Some e, ConstructAndSignVote vp tc _ =>
      genuine_ledger_info_b tr (EpochState.verifier e)
        (QuorumCert.signed_ledger_info (Block.quorum_cert (VoteProposal.block vp))) &&
      match tc with
      | Some c => genuine_timeouts_b tr (EpochState.verifier e) c &&
          (TwoChainTimeoutCertificate.epoch c =? Block.epoch (VoteProposal.block vp))
      | None => true
      end
  | Some e, SignCommitVote li new_li =>
      genuine_ledger_info_b tr (EpochState.verifier e) li &&
      (LedgerInfo.epoch (LedgerInfoWithSignatures.ledger_info li) =? EpochState.epoch e) &&
      bool_decide (LedgerInfo.consensus_data_hash new_li =
        LedgerInfo.consensus_data_hash (LedgerInfoWithSignatures.ledger_info li))
  | _, _ => true
  end.
Definition agrees_b (s : state) : bool :=
  match epoch_state s with
  | Some e => bool_decide (EpochState.verifier e = v4) && (1 <=? EpochState.epoch e)
  | None => true
  end.

(** Serves the requests in order, as long as the conditions hold. *)
Fixpoint play (w : AccountAddress -> state) (tr : trace) (l : list (AccountAddress * request)) :
    option ((AccountAddress -> state) * trace) :=
  match l with
  | [] => Some (w, tr)
  | (a, r) :: l =>
      let '(s', rep) := serve r (w a) in
      if example_honest a && admissible_b tr (epoch_state (w a)) r && agrees_b s'
      then play (update w a s') (tr ++ [(a, Event r (epoch_state (w a)) rep)]) l
      else None
  end.

Lemma has_signed_spec p tr a : has_signed p tr a = true -> example_honest a = true ->
  exists ev, (a, ev) ∈ tr /\ p ev = true.
Proof.
  unfold has_signed. intros Hs Hh. rewrite Hh in Hs. apply existsb_exists in Hs as ([b ev] & Hin & Hb).
  apply andb_true_iff in Hb as [->%Z.eqb_eq Hp]. exists ev. by rewrite list_elem_of_In.
Qed.

Lemma mask_b_spec agg : mask_b agg = true -> BitVec.well_formed (AggregateSignature.validator_bitmask agg).
Proof.
  intros [Hb Hl]%andb_true_iff. split; [|by apply Z.leb_le]. apply Forall_forall. intros b Hin.
  rewrite forallb_forall in Hb. apply list_elem_of_In, Hb, andb_true_iff in Hin as [? ?]. unfold BitVec.is_byte. by zbool.
Qed.

Lemma genuine_ledger_info_spec tr v li : genuine_ledger_info_b tr v li = true ->
  genuine_ledger_info example_honest tr v li.
Proof.
  intros [Hm Hs]%andb_true_iff. split; [by apply mask_b_spec|]. intros _ a Ha Hh.
  rewrite forallb_forall in Hs. apply list_elem_of_In, Hs, has_signed_spec in Ha as (ev & Hin & Hp); [|done].
  exists ev. split; [done|]. destruct ev as [[] es []]; try done; cbn in Hp; apply bool_decide_eq_true_1 in Hp as <-.
  - left. by eexists _, _, _, _, _.
  - right. by eexists _, _, _.
Qed.

Lemma genuine_timeouts_spec tr v tc : genuine_timeouts_b tr v tc = true ->
  genuine_timeouts example_honest tr v tc.
Proof.
  intros [[Hm Hl]%andb_true_iff Hs]%andb_true_iff. split; [by apply mask_b_spec|]. intros _.
  split; [by apply Nat.leb_le|]. intros a r Ha Hh. rewrite forallb_forall in Hs.
  apply list_elem_of_In, Hs, has_signed_spec in Ha as (ev & Hin & Hp); [|done].
  exists ev. split; [done|]. destruct ev as [[] es []]; try done; cbn in Hp. apply bool_decide_eq_true_1 in Hp.
  by eexists _, _, _, _.
Qed.

Lemma admissible_spec tr es r : admissible_b tr es r = true -> admissible example_honest tr es r.
Proof.
  intros Ha e ->. destruct r as [| | | |vp tc now|li new_li|]; try done; cbn in Ha.
  - apply andb_true_iff in Ha as [Hq Ht]. split; [by apply genuine_ledger_info_spec|]. intros c ->.
    apply andb_true_iff in Ht as [? ?%Z.eqb_eq]. split; [by apply genuine_timeouts_spec|done].
  - apply andb_true_iff in Ha as [[? ?%Z.eqb_eq]%andb_true_iff ?%bool_decide_eq_true_1].
    split_and!; [by apply genuine_ledger_info_spec|done..].
Qed.

Lemma play_execution w tr l w' tr' : execution example_honest example_validators w tr ->
  play w tr l = Some (w', tr') -> execution example_honest example_validators w' tr'.
Proof.
  revert w tr. induction l as [|[a r] l IH]; intros w tr Hex; cbn [play]; [by intros [= <- <-]|].
  destruct (serve r (w a)) as [s' rep] eqn:Es.
  destruct (example_honest a && admissible_b tr (epoch_state (w a)) r && agrees_b s') eqn:Eb; [|done].
  apply andb_true_iff in Eb as [[Hh Ha]%andb_true_iff Hg]. apply IH.
  apply execution_serve; [done|done|by apply admissible_spec|done|].
  intros e He. unfold agrees_b in Hg. rewrite He in Hg.
  apply andb_true_iff in Hg as [?%bool_decide_eq_true_1 ?%Z.leb_le]. done.
Qed.

(** Round 3 times out, so block 4 follows block 2. *)
Definition timeout3 : @TwoChainTimeout.t free_crypto := TwoChainTimeout.new 1 3 (certify proposal2).
Definition timeouts3 : @TwoChainTimeoutCertificate.t free_crypto :=
  TwoChainTimeoutCertificate.mk timeout3
    (AggregateSignatureWithRounds.mk
       (@AggregateSignature.new free_crypto (BitVec.mk [224]) (Some (7 : @Signature free_crypto))) [2; 2; 2]).
Definition proposal4 := proposal 4 (certify proposal2).
Definition proposal5 := proposal 5 (certify proposal4).

(** The commit of block 1 is executed and signed again with its state. *)
Definition ordered1 : LedgerInfoWithSignatures.t := QuorumCert.signed_ledger_info (certify proposal2).
Definition executed1 : @LedgerInfoWithSignatures.t free_crypto :=
  let li := LedgerInfoWithSignatures.ledger_info ordered1 in
  let b := LedgerInfo.commit_info li in
  LedgerInfoWithSignatures.new
    (LedgerInfo.new (BlockInfo.new (BlockInfo.epoch b) (BlockInfo.round b) (BlockInfo.id b) (Leaf 9) 5
       (BlockInfo.timestamp_usecs b) None) (LedgerInfo.consensus_data_hash li))
    (LedgerInfoWithSignatures.signatures ordered1).
Definition ordered4 : LedgerInfoWithSignatures.t := QuorumCert.signed_ledger_info (certify proposal5).

Definition network_requests : list (AccountAddress * request) :=
  r ← [Initialize epoch_proof; ConstructAndSignVote proposal1 None 0; ConstructAndSignVote proposal2 None 0;
       SignCommitVote ordered1 (LedgerInfoWithSignatures.ledger_info executed1);
       SignTimeoutWithQc timeout3 None; ConstructAndSignVote proposal4 (Some timeouts3) 0;
       ConstructAndSignVote proposal5 None 0];
  a ← [7; 3; 5]; [(a, r)].

Definition network_start (a : AccountAddress) : state :=
  validator a (if a =? 7 then 1 else if a =? 3 then 2 else 4).

Definition network_run := play network_start [] network_requests.
Definition network_state : AccountAddress -> state := match network_run with Some (w, _) => w | None => network_start end.
Definition network_trace : trace := match network_run with Some (_, tr) => tr | None => [] end.

Lemma network_execution : execution example_honest example_validators network_state network_trace.
Proof.
  assert (match network_run with Some _ => true | None => false end = true) as Hs by (by vm_compute).
  unfold network_state, network_trace. destruct network_run as [[w tr]|] eqn:Er; [|done]. apply (play_execution network_start [] network_requests); [|done].
  apply execution_start. intros a. apply validator_starting.
Qed.

Lemma v4_trustworthy : trustworthy example_honest v4.
Proof. split; [exact v4_well_formed|done|by vm_compute|by vm_compute]. Qed.

Lemma in_memory_atomic : atomic_writes (Store:=@InMemoryStorage.t free_crypto example_keys).
Proof. by intros store store' d e [=]. Qed.

Lemma committed_blocks_agree_witness :
  exists c1 c2,
    (BlockInfo.epoch c1, BlockInfo.round c1, BlockInfo.id c1) = (1, 1, Leaf 1) /\
    (BlockInfo.epoch c2, BlockInfo.round c2, BlockInfo.id c2) = (1, 4, Leaf 4) /\
    (extends example_honest example_validators network_trace c1 c2 \/
     extends example_honest example_validators network_trace c2 c1) /\ (1 = 4 -> c1 = c2).
Proof.
  apply (committed_blocks_agree example_honest example_validators in_memory_atomic
    (fun _ _ => v4_trustworthy) vote_data_digest_inj network_state network_trace executed1 ordered4 1).
  - exact network_execution.
  - done.
  - by vm_compute.
  - by vm_compute.
  - by vm_compute.
  - by vm_compute.
  - apply genuine_ledger_info_spec. by vm_compute.
  - apply genuine_ledger_info_spec. by vm_compute.
  - by vm_compute.
  - by vm_compute.
Defined.
End example.
