(* ===== verification/ExecutedBlock.v ===== *)
(** * Executed blocks

    Model of [StateComputeResult] of [execution/executor-types/src/lib.rs], the
    result of executing a block, and of [consensus-types/src/executed_block.rs],
    a block with that result. *)

From S2P Require Import Prelude Collections Merkle InMemoryAccumulator BitVec ValidatorVerifier LedgerInfo.
From S2P Require Import TrustedState AccumulatorProofs QuorumCert Timeout2Chain ConsensusBlock.

(** What is used of [ExecutionStatus], [StatusCode] and [ContractEvent]. *)
Class ExecutionTypes := {
  ExecutionStatus : Type;
  ExecutionStatus_eq_dec :: EqDecision ExecutionStatus;
  ContractEvent : Type;
  ContractEvent_eq_dec :: EqDecision ContractEvent;
}.

Module TransactionStatus.
Section definitions.
Context `{!ExecutionTypes}.

Inductive t :=
  | Discard (code : Z)
  | Keep (status : ExecutionStatus)
  | Retry.

#[global] Instance t_eq_dec : EqDecision t.
Proof using Type. solve_decision. Defined.

Definition is_retry (self : t) : bool := match self with Retry => true | _ => false end.
End definitions.
End TransactionStatus.

Module StateComputeResult.
Section definitions.
Context `{CryptoTypes} `{!ExecutionTypes}.

Record t := new {
  root_hash : HashValue;
  frozen_subtree_roots : list HashValue;
  num_leaves : Z;
  parent_frozen_subtree_roots : list HashValue;
  parent_num_leaves : Z;
  epoch_state : option EpochState.t;
  compute_status : list TransactionStatus.t;
  transaction_info_hashes : list HashValue;
  reconfig_events : list ContractEvent;
}.

#[global] Instance t_eq_dec : EqDecision t.
Proof using Type. solve_decision. Defined.

Definition new_dummy_with_root_hash (root_hash : HashValue) : t :=
  new root_hash [] 0 [] 0 None [] [] [].

Definition new_dummy `{!MerkleHasher HashValue} : t := new_dummy_with_root_hash ACCUMULATOR_PLACEHOLDER_HASH.

Definition version (self : t) : Z := Z.max (num_leaves self) 1 - 1.

Definition extension_proof (self : t) : AccumulatorExtensionProof.t HashValue :=
  AccumulatorExtensionProof.new (parent_frozen_subtree_roots self) (parent_num_leaves self)
    (transaction_info_hashes self).

Definition has_reconfiguration (self : t) : bool :=
  match epoch_state self with Some _ => true | None => false end.
End definitions.
End StateComputeResult.

Module ExecutedBlock.
Section definitions.
Context `{CryptoTypes} `{!Transactions} `{!ExecutionTypes}.

Record t := new {
  block : Block.t;
  state_compute_result : StateComputeResult.t;
}.

#[global] Instance t_eq_dec : EqDecision t.
Proof using Type. solve_decision. Defined.

Definition id (self : t) : HashValue := Block.id (block self).
Definition epoch (self : t) : Z := Block.epoch (block self).
Definition quorum_cert (self : t) : QuorumCert.t := Block.quorum_cert (block self).
Definition parent_id (self : t) : HashValue := BlockInfo.id (QuorumCert.certified_block (quorum_cert self)).
Definition round (self : t) : Z := Block.round (block self).
Definition timestamp_usecs (self : t) : Z := Block.timestamp_usecs (block self).
Definition compute_result (self : t) : StateComputeResult.t := state_compute_result self.

Definition block_info (self : t) : BlockInfo.t :=
  Block.gen_block_info (block self) (StateComputeResult.root_hash (compute_result self))
    (StateComputeResult.version (compute_result self)) (StateComputeResult.epoch_state (compute_result self)).

Definition vote_proposal (self : t) (decoupled_execution : bool) : VoteProposal.t :=
  VoteProposal.new (StateComputeResult.extension_proof (compute_result self)) (block self)
    (StateComputeResult.epoch_state (compute_result self)) decoupled_execution.

Definition is_reconfiguration_suffix (self : t) : bool :=
  StateComputeResult.has_reconfiguration (state_compute_result self)
  && match StateComputeResult.compute_status (state_compute_result self) with [] => true | _ => false end.

(** [position(is_retry)]. *)
Fixpoint first_retry (statuses : list TransactionStatus.t) : option nat :=
  match statuses with
  | [] => None
  | s :: statuses => if TransactionStatus.is_retry s then Some 0%nat else S <$> first_retry statuses
  end.

(** [Vec::insert], which panics past the end. *)
Definition vec_insert {E A} (l : list A) (pos : nat) (x : A) : outcome E (list A) :=
  if Nat.leb pos (length l) then Ok (take pos l ++ x :: drop pos l) else Panic.

(** [zip_eq] with the statuses, keeping the transactions to be kept. *)
Fixpoint keep {E} (txns : list Transaction.t) (statuses : list TransactionStatus.t) :
    outcome E (list Transaction.t) :=
  match txns, statuses with
  | [], [] => Ok []
  | txn :: txns, status :: statuses =>
      rest ← keep txns statuses;
      Ok (match status with TransactionStatus.Keep _ => txn :: rest | _ => rest end)
  | _, _ => Panic
  end.

Definition transactions_to_commit (self : t) (validators : list AccountAddress)
    (txns : list SignedTransaction) (block_gas_limit : option Z) : result (list Transaction.t) :=
  if is_reconfiguration_suffix self then Ok []
  else
    txns ← Block.transactions_to_execute (block self) validators txns block_gas_limit;
    let statuses := StateComputeResult.compute_status (state_compute_result self) in
    txns_with_state_checkpoint ←
      (if match block_gas_limit with Some _ => true | None => false end
          && negb (StateComputeResult.has_reconfiguration (state_compute_result self)) then
         match first_retry statuses with
         | Some pos => vec_insert txns pos (Transaction.StateCheckpoint (id self))
         | None => Ok (txns ++ [Transaction.StateCheckpoint (id self)])
         end
       else Ok txns);
    keep txns_with_state_checkpoint statuses.

Definition reconfig_event (self : t) : list ContractEvent :=
  if is_reconfiguration_suffix self then [] else StateComputeResult.reconfig_events (state_compute_result self).
End definitions.
End ExecutedBlock.
