(* ===== verification/BlockTree.v ===== *)
(** * The block tree

    Model of [consensus/src/block_storage/block_tree.rs]: the blocks a validator
    knows, with their parent and child links, the certificates for them, the roots
    of ordering and of committing, and pruning.

    A method with [&mut self] is an action on the tree.  The loops over the tree
    are bounded by the number of blocks, and panic when they do not end within the
    bound; the theorems show that in a well-formed tree they end.  [children] and
    [pruned_block_ids] are lists; the order of children, which the code leaves
    open, is that of insertion. *)

From S2P Require Import Prelude Collections Merkle InMemoryAccumulator BitVec ValidatorVerifier LedgerInfo.
From S2P Require Import TrustedState AccumulatorProofs QuorumCert Timeout2Chain ConsensusBlock ExecutedBlock.

Module LinkableBlock.
Section definitions.
Context `{CryptoTypes} `{!Transactions} `{!ExecutionTypes}.

Record t := mk {
  executed_block : ExecutedBlock.t;
  children : list HashValue;
}.

Definition new (block : ExecutedBlock.t) : t := mk block [].

Definition id (self : t) : HashValue := ExecutedBlock.id (executed_block self).

Definition add_child {E} (self : t) (child_id : HashValue) : outcome E t :=
  if bool_decide (child_id ∈ children self) then Panic
  else Ok (mk (executed_block self) (children self ++ [child_id])).
End definitions.
End LinkableBlock.

Module BlockTree.
Section definitions.
Context `{CryptoTypes} `{!Transactions} `{!ExecutionTypes}.

Record t := mk {
  id_to_block : list (HashValue * LinkableBlock.t);
  ordered_root_id : HashValue;
  commit_root_id : HashValue;
  highest_certified_block_id : HashValue;
  highest_quorum_cert : QuorumCert.t;
  highest_2chain_timeout_cert : option TwoChainTimeoutCertificate.t;
  highest_ordered_cert : QuorumCert.t;
  highest_commit_cert : QuorumCert.t;
  id_to_quorum_cert : list (HashValue * QuorumCert.t);
  pruned_block_ids : list HashValue;
  max_pruned_blocks_in_mem : nat;
}.

Definition set_id_to_block (self : t) m : t :=
  mk m (ordered_root_id self) (commit_root_id self) (highest_certified_block_id self) (highest_quorum_cert self)
    (highest_2chain_timeout_cert self) (highest_ordered_cert self) (highest_commit_cert self)
    (id_to_quorum_cert self) (pruned_block_ids self) (max_pruned_blocks_in_mem self).
Definition set_ordered_root_id (self : t) i : t :=
  mk (id_to_block self) i (commit_root_id self) (highest_certified_block_id self) (highest_quorum_cert self)
    (highest_2chain_timeout_cert self) (highest_ordered_cert self) (highest_commit_cert self)
    (id_to_quorum_cert self) (pruned_block_ids self) (max_pruned_blocks_in_mem self).
Definition set_commit_root_id (self : t) i : t :=
  mk (id_to_block self) (ordered_root_id self) i (highest_certified_block_id self) (highest_quorum_cert self)
    (highest_2chain_timeout_cert self) (highest_ordered_cert self) (highest_commit_cert self)
    (id_to_quorum_cert self) (pruned_block_ids self) (max_pruned_blocks_in_mem self).
Definition set_highest_certified (self : t) i qc : t :=
  mk (id_to_block self) (ordered_root_id self) (commit_root_id self) i qc
    (highest_2chain_timeout_cert self) (highest_ordered_cert self) (highest_commit_cert self)
    (id_to_quorum_cert self) (pruned_block_ids self) (max_pruned_blocks_in_mem self).
Definition set_highest_2chain_timeout_cert (self : t) tc : t :=
  mk (id_to_block self) (ordered_root_id self) (commit_root_id self) (highest_certified_block_id self)
    (highest_quorum_cert self) tc (highest_ordered_cert self) (highest_commit_cert self)
    (id_to_quorum_cert self) (pruned_block_ids self) (max_pruned_blocks_in_mem self).
Definition set_highest_ordered_cert (self : t) qc : t :=
  mk (id_to_block self) (ordered_root_id self) (commit_root_id self) (highest_certified_block_id self)
    (highest_quorum_cert self) (highest_2chain_timeout_cert self) qc (highest_commit_cert self)
    (id_to_quorum_cert self) (pruned_block_ids self) (max_pruned_blocks_in_mem self).
Definition set_highest_commit_cert (self : t) qc : t :=
  mk (id_to_block self) (ordered_root_id self) (commit_root_id self) (highest_certified_block_id self)
    (highest_quorum_cert self) (highest_2chain_timeout_cert self) (highest_ordered_cert self) qc
    (id_to_quorum_cert self) (pruned_block_ids self) (max_pruned_blocks_in_mem self).
Definition set_id_to_quorum_cert (self : t) m : t :=
  mk (id_to_block self) (ordered_root_id self) (commit_root_id self) (highest_certified_block_id self)
    (highest_quorum_cert self) (highest_2chain_timeout_cert self) (highest_ordered_cert self)
    (highest_commit_cert self) m (pruned_block_ids self) (max_pruned_blocks_in_mem self).
Definition set_pruned_block_ids (self : t) l : t :=
  mk (id_to_block self) (ordered_root_id self) (commit_root_id self) (highest_certified_block_id self)
    (highest_quorum_cert self) (highest_2chain_timeout_cert self) (highest_ordered_cert self)
    (highest_commit_cert self) (id_to_quorum_cert self) l (max_pruned_blocks_in_mem self).

Abbreviation M := (action t string).

Definition new (root : ExecutedBlock.t) (root_quorum_cert root_ordered_cert root_commit_cert : QuorumCert.t)
    (max_pruned_blocks_in_mem : nat) (highest_2chain_timeout_cert : option TwoChainTimeoutCertificate.t) : result t :=
  assert (bool_decide (ExecutedBlock.id root = BlockInfo.id (QuorumCert.commit_info root_ordered_cert)));;
  let root_id := ExecutedBlock.id root in
  Ok (mk (HashMap.insert [] root_id (LinkableBlock.new root)) root_id root_id root_id root_quorum_cert
        highest_2chain_timeout_cert root_ordered_cert root_commit_cert
        (HashMap.insert [] (BlockInfo.id (QuorumCert.certified_block root_quorum_cert)) root_quorum_cert)
        [] max_pruned_blocks_in_mem).

Definition get_linkable_block (self : t) (block_id : HashValue) : option LinkableBlock.t :=
  HashMap.get (id_to_block self) block_id.

Definition get_all_quorum_certs_with_commit_info (self : t) : list QuorumCert.t :=
  List.filter (fun qc => negb (bool_decide (QuorumCert.commit_info qc = BlockInfo.empty)))
    (id_to_quorum_cert self).*2.

Definition linkable_root (self : t) : result LinkableBlock.t :=
  expect (get_linkable_block self (commit_root_id self)).

Definition remove_block (self : t) (block_id : HashValue) : t :=
  set_id_to_quorum_cert (set_id_to_block self (HashMap.remove (id_to_block self) block_id))
    (HashMap.remove (id_to_quorum_cert self) block_id).

Definition block_exists (self : t) (block_id : HashValue) : bool := HashMap.contains_key (id_to_block self) block_id.

Definition get_block (self : t) (block_id : HashValue) : option ExecutedBlock.t :=
  LinkableBlock.executed_block <$> get_linkable_block self block_id.

Definition ordered_root (self : t) : result ExecutedBlock.t := expect (get_block self (ordered_root_id self)).

Definition commit_root (self : t) : result ExecutedBlock.t := expect (get_block self (commit_root_id self)).

Definition highest_certified_block (self : t) : result ExecutedBlock.t :=
  expect (get_block self (highest_certified_block_id self)).

Definition replace_2chain_timeout_cert (tc : TwoChainTimeoutCertificate.t) : M unit :=
  modify (fun self => set_highest_2chain_timeout_cert self (Some tc)).

Definition get_quorum_cert_for_block (self : t) (block_id : HashValue) : option QuorumCert.t :=
  HashMap.get (id_to_quorum_cert self) block_id.

Definition insert_block (block : ExecutedBlock.t) : M ExecutedBlock.t :=
  self ← gets (fun self => self);
  let block_id := ExecutedBlock.id block in
  match get_block self block_id with
  | Some existing_block =>
      lift (assert (bool_decide (ExecutedBlock.compute_result existing_block = ExecutedBlock.compute_result block)));;
      mret existing_block
  | None =>
      match get_linkable_block self (ExecutedBlock.parent_id block) with
      | Some parent_block =>
          parent_block ← lift (LinkableBlock.add_child parent_block block_id);
          modify (fun self => set_id_to_block self
            (HashMap.insert (id_to_block self) (ExecutedBlock.parent_id block) parent_block))
      | None => lift (Err "Parent block not found")
      end;;
      self ← gets (fun self => self);
      lift (assert (negb (block_exists self block_id)));;
      modify (fun self => set_id_to_block self
        (HashMap.insert (id_to_block self) block_id (LinkableBlock.new block)));;
      mret block
  end.

Definition update_ordered_root (root_id : HashValue) : M unit :=
  self ← gets (fun self => self);
  lift (assert (block_exists self root_id));;
  modify (fun self => set_ordered_root_id self root_id).

Definition update_commit_root (root_id : HashValue) : M unit :=
  self ← gets (fun self => self);
  lift (assert (block_exists self root_id));;
  modify (fun self => set_commit_root_id self root_id).

Definition update_highest_commit_cert (new_commit_cert : QuorumCert.t) : M unit :=
  self ← gets (fun self => self);
  if BlockInfo.round (QuorumCert.commit_info (highest_commit_cert self)) <?
     BlockInfo.round (QuorumCert.commit_info new_commit_cert) then
    modify (fun self => set_highest_commit_cert self new_commit_cert);;
    update_commit_root (BlockInfo.id (QuorumCert.commit_info new_commit_cert))
  else mret tt.

Definition insert_quorum_cert (qc : QuorumCert.t) : M unit :=
  self ← gets (fun self => self);
  let block_id := BlockInfo.id (QuorumCert.certified_block qc) in
  match get_block self block_id with
  | Some block =>
      highest ← lift (highest_certified_block self);
      if ExecutedBlock.round highest <? ExecutedBlock.round block then
        modify (fun self => set_highest_certified self (ExecutedBlock.id block) qc)
      else mret tt
  | None => lift (Err "Block not found")
  end;;
  modify (fun self => set_id_to_quorum_cert self (HashMap.or_insert (id_to_quorum_cert self) block_id qc));;
  modify (fun self =>
    if BlockInfo.round (QuorumCert.commit_info (highest_ordered_cert self)) <?
       BlockInfo.round (QuorumCert.commit_info qc)
    then set_highest_ordered_cert self qc else self).

(** The children of a block that are pushed on the stack. *)
Fixpoint push_children (self : t) (next_root_id : HashValue) (children : list HashValue)
    (blocks_to_be_pruned : list LinkableBlock.t) : result (list LinkableBlock.t) :=
  match children with
  | [] => Ok blocks_to_be_pruned
  | child_id :: children =>
      if bool_decide (next_root_id = child_id) then push_children self next_root_id children blocks_to_be_pruned
      else
        child ← expect (get_linkable_block self child_id);
        push_children self next_root_id children (child :: blocks_to_be_pruned)
  end.

Fixpoint prune_loop (fuel : nat) (self : t) (next_root_id : HashValue)
    (blocks_to_be_pruned : list LinkableBlock.t) (blocks_pruned : list HashValue) : result (list HashValue) :=
  match blocks_to_be_pruned with
  | [] => Ok blocks_pruned
  | block_to_remove :: blocks_to_be_pruned =>
      match fuel with
      | O => Panic
      | S fuel =>
          blocks_to_be_pruned ←
            push_children self next_root_id (LinkableBlock.children block_to_remove) blocks_to_be_pruned;
          prune_loop fuel self next_root_id blocks_to_be_pruned (blocks_pruned ++ [LinkableBlock.id block_to_remove])
      end
  end.

Definition find_blocks_to_prune (self : t) (next_root_id : HashValue) : result (list HashValue) :=
  if bool_decide (next_root_id = commit_root_id self) then Ok []
  else
    root ← linkable_root self;
    prune_loop (length (id_to_block self)) self next_root_id [root] [].

(** [num_blocks_to_remove] times [pop_front] and [remove_block]. *)
Fixpoint pop_pruned (n : nat) (self : t) : t :=
  match n with
  | O => self
  | S n =>
      match pruned_block_ids self with
      | id :: ids => pop_pruned n (remove_block (set_pruned_block_ids self ids) id)
      | [] => pop_pruned n self
      end
  end.

Definition process_pruned_blocks (newly_pruned_blocks : list HashValue) : M unit :=
  modify (fun self => set_pruned_block_ids self (pruned_block_ids self ++ newly_pruned_blocks));;
  modify (fun self =>
    pop_pruned (length (pruned_block_ids self) - max_pruned_blocks_in_mem self) self).

Fixpoint path_loop (fuel : nat) (self : t) (root_round : Z) (cur_block_id : HashValue)
    (res : list ExecutedBlock.t) : result (option (HashValue * list ExecutedBlock.t)) :=
  match get_block self cur_block_id with
  | Some block =>
      if ExecutedBlock.round block <=? root_round then Ok (Some (cur_block_id, res))
      else match fuel with
           | O => Panic
           | S fuel => path_loop fuel self root_round (ExecutedBlock.parent_id block) (res ++ [block])
           end
  | None => Ok None
  end.

Definition path_from_root_to_block (self : t) (block_id root_id : HashValue) (root_round : Z) :
    result (option (list ExecutedBlock.t)) :=
  found ← path_loop (length (id_to_block self)) self root_round block_id [];
  Ok (match found with
      | Some (cur_block_id, res) => if bool_decide (cur_block_id = root_id) then Some (reverse res) else None
      | None => None
      end).

Definition path_from_ordered_root (self : t) (block_id : HashValue) : result (option (list ExecutedBlock.t)) :=
  root ← ordered_root self;
  path_from_root_to_block self block_id (ordered_root_id self) (ExecutedBlock.round root).

Definition path_from_commit_root (self : t) (block_id : HashValue) : result (option (list ExecutedBlock.t)) :=
  root ← commit_root self;
  path_from_root_to_block self block_id (commit_root_id self) (ExecutedBlock.round root).

(** [commit_callback]; the result is what the storage is told to prune. *)
Definition commit_callback (blocks_to_commit : list ExecutedBlock.t) (finality_proof : QuorumCert.t)
    (commit_decision : LedgerInfoWithSignatures.t) : M (list HashValue) :=
  commit_proof ← lift (unwrap (QuorumCert.create_merged_with_executed_state finality_proof commit_decision));
  block_to_commit ← lift (expect (last blocks_to_commit));
  self ← gets (fun self => self);
  lift (commit_root self);;
  id_to_remove ← lift (find_blocks_to_prune self (ExecutedBlock.id block_to_commit));
  process_pruned_blocks id_to_remove;;
  update_highest_commit_cert commit_proof;;
  mret id_to_remove.
End definitions.
End BlockTree.

(** ** Chains of blocks *)
Section chains.
Context `{CryptoTypes} `{!Transactions} `{!ExecutionTypes}.
Implicit Types (r : HashValue) (b : ExecutedBlock.t).

(** Blocks that follow each other, the first one following [r]. *)
Fixpoint linked r (l : list ExecutedBlock.t) : Prop :=
  match l with
  | [] => True
  | b :: l => ExecutedBlock.parent_id b = r /\ linked (ExecutedBlock.id b) l
  end.
(** The end of such a sequence. *)
Definition end_of r (l : list ExecutedBlock.t) : HashValue :=
  match last l with Some b => ExecutedBlock.id b | None => r end.

Lemma linked_snoc r l b : linked r (l ++ [b]) <-> linked r l /\ ExecutedBlock.parent_id b = end_of r l.
Proof using Type.
  revert r. induction l as [|c l IH]; intros r; cbn [linked app]; [unfold end_of; cbn; tauto|].
  rewrite IH. unfold end_of. rewrite last_cons. destruct (last l); tauto.
Qed.

Lemma end_of_snoc r l b : end_of r (l ++ [b]) = ExecutedBlock.id b.
Proof using Type. unfold end_of. by rewrite last_snoc. Qed.

Lemma end_of_app r l l' : end_of r (l ++ l') = end_of (end_of r l) l'.
Proof using Type. unfold end_of. rewrite last_app. by destruct (last l'). Qed.

Lemma linked_app r l l' : linked r (l ++ l') <-> linked r l /\ linked (end_of r l) l'.
Proof using Type.
  revert r. induction l as [|b l IH]; intros r; cbn [linked app]; [unfold end_of; cbn; tauto|].
  rewrite IH. unfold end_of. rewrite last_cons. destruct (last l); tauto.
Qed.
End chains.

(** ** Well-formed trees

    The identifier of a block determines it: [parent_of] and [round_of] are the
    parent and the round of the block with an identifier. *)
Section theory.
Context `{CryptoTypes} `{!Transactions} `{!ExecutionTypes}.
Context (parent_of : HashValue -> HashValue) (round_of : HashValue -> Z).
Implicit Types (t : BlockTree.t) (b : ExecutedBlock.t) (x a c r : HashValue).
Import BlockTree.

(** A block is what its identifier says, and its round is after that of its parent. *)
Record faithful b : Prop := {
  faithful_parent : ExecutedBlock.parent_id b = parent_of (ExecutedBlock.id b);
  faithful_round : ExecutedBlock.round b = round_of (ExecutedBlock.id b);
  faithful_later : round_of (parent_of (ExecutedBlock.id b)) < round_of (ExecutedBlock.id b);
  faithful_unsigned : 0 <= round_of (ExecutedBlock.id b);
}.

Definition in_tree t x : Prop := is_Some (get_linkable_block t x).

(** Proper ancestors. *)
Inductive anc : HashValue -> HashValue -> Prop :=
  | anc_parent x : anc (parent_of x) x
  | anc_step a x : anc a (parent_of x) -> anc a x.

(** [x] is in the tree below [r], or [r] itself. *)
Inductive below t r : HashValue -> Prop :=
  | below_refl : in_tree t r -> below t r r
  | below_child x : in_tree t x -> below t r (parent_of x) -> below t r x.

(** The blocks below the commit root. *)
Definition live t x : Prop := below t (commit_root_id t) x.

(** [x] comes before [y] in a list. *)
Definition before (l : list HashValue) x y : Prop := exists l1 l2, l = l1 ++ y :: l2 /\ x ∈ l1.

Record tree_ok t : Prop := {
  ok_keys : NoDup (id_to_block t).*1;
  ok_block i lb : get_linkable_block t i = Some lb ->
    LinkableBlock.id lb = i /\ faithful (LinkableBlock.executed_block lb);
  ok_children i lb : get_linkable_block t i = Some lb -> NoDup (LinkableBlock.children lb) /\
    forall c, c ∈ LinkableBlock.children lb <-> in_tree t c /\ parent_of c = i;
  ok_convex a c : in_tree t c -> anc a c -> in_tree t a -> in_tree t (parent_of c);
  ok_root : in_tree t (commit_root_id t);
  ok_pruned : NoDup (pruned_block_ids t);
  ok_pruned_in r : r ∈ pruned_block_ids t -> in_tree t r /\ ~ live t r;
  ok_queue a r : r ∈ pruned_block_ids t -> anc a r -> in_tree t a -> before (pruned_block_ids t) a r;
  ok_above a : anc a (commit_root_id t) -> in_tree t a -> a ∈ pruned_block_ids t;
}.

(** *** Ancestors *)
Lemma below_in t r x : below t r x -> in_tree t x.
Proof using Type. by destruct 1. Qed.
Lemma below_root t r x : below t r x -> in_tree t r.
Proof using Type. induction 1; done. Qed.

Lemma in_tree_round t x : tree_ok t -> in_tree t x -> round_of (parent_of x) < round_of x.
Proof using Type. intros Hok [lb Hlb]. by destruct (ok_block t Hok x lb Hlb) as [<- [_ _ ? _]]. Qed.

Lemma below_cases t r x : below t r x -> x = r \/ anc r x.
Proof using Type.
  induction 1 as [|x Hx Hb [<-|IH]]; [by left|right; constructor|right]. by apply anc_step.
Qed.

(** Ancestors in the tree are connected to their descendants within it. *)
Lemma convex_below t a x : tree_ok t -> in_tree t x -> anc a x -> in_tree t a -> below t a x.
Proof using Type.
  intros Hok Hx Ha Hta. induction Ha as [x|a x Ha IH].
  - apply below_child; [done|by apply below_refl].
  - apply below_child; [done|]. apply IH; [|done]. eapply ok_convex; [done|done|by apply anc_step|done].
Qed.

Lemma below_anc t r x : tree_ok t -> below t r x -> x = r \/ round_of r < round_of x.
Proof using Type.
  intros Hok. induction 1 as [|x Hx Hb IH]; [by left|right].
  pose proof (in_tree_round t x Hok Hx). destruct IH as [<-|]; lia.
Qed.

Lemma anc_round t a x : tree_ok t -> in_tree t x -> anc a x -> in_tree t a -> round_of a < round_of x.
Proof using Type.
  intros Hok Hx Ha Hta. pose proof (in_tree_round t x Hok Hx) as Hr. inversion Ha as [y E1 E2|a' y Ha' E1 E2]; subst; [done|].
  assert (below t a (parent_of x)) as Hb.
  { apply convex_below; [done|eapply ok_convex; done|done|done]. }
  apply below_anc in Hb as [E|Hlt]; [|lia|done]. rewrite <-E. lia.
Qed.

Lemma below_trans t x y z : below t x y -> below t y z -> below t x z.
Proof using Type. intros Hxy. induction 1; [done|]. by apply below_child. Qed.

(** Of two blocks above another one is above the other. *)
Lemma below_linear t x y z : below t x z -> below t y z -> below t x y \/ below t y x.
Proof using Type.
  intros Hxz. revert y. induction Hxz as [|z Hz Hb IH]; intros y Hyz; [by right|].
  inversion Hyz; subst; [left; by apply below_child|]. by apply IH.
Qed.

Lemma below_mono t t' r x : (forall y, in_tree t y -> in_tree t' y) -> below t r x -> below t' r x.
Proof using Type. intros Hm. induction 1; [apply below_refl|apply below_child]; auto. Qed.

Lemma in_tree_ext t t' x : id_to_block t = id_to_block t' -> in_tree t x <-> in_tree t' x.
Proof using Type. unfold in_tree, get_linkable_block. by intros ->. Qed.

Lemma below_ext t t' r x : id_to_block t = id_to_block t' -> below t r x <-> below t' r x.
Proof using Type. intros E. split; apply below_mono; intros y; by apply in_tree_ext. Qed.

(** Only the blocks, the commit root and the pruned blocks matter. *)
Lemma tree_ok_ext t t' : id_to_block t = id_to_block t' -> commit_root_id t = commit_root_id t' ->
  pruned_block_ids t = pruned_block_ids t' -> tree_ok t -> tree_ok t'.
Proof using Type.
  intros Hb Hr Hp Hok. assert (forall x, in_tree t x <-> in_tree t' x) as Hin by (intros; by apply in_tree_ext).
  assert (forall r x, below t r x <-> below t' r x) as Hbe by (intros; by apply below_ext).
  assert (forall i, get_linkable_block t i = get_linkable_block t' i) as Hg by (unfold get_linkable_block; by rewrite Hb).
  destruct Hok as [K B C V R P PI Q A]. unfold live in *. split.
  - by rewrite <-Hb.
  - intros i lb. rewrite <-Hg. apply B.
  - intros i lb. rewrite <-Hg. intros Hi. destruct (C i lb Hi) as [? Hc]. split; [done|]. intros c. by rewrite Hc, Hin.
  - intros x c. rewrite <-!Hin. apply V.
  - by rewrite <-Hin, <-Hr.
  - by rewrite <-Hp.
  - intros r. unfold live. rewrite <-Hp, <-Hin, <-Hr, <-Hbe. apply PI.
  - intros x r. rewrite <-Hp, <-Hin. apply Q.
  - intros x. rewrite <-Hp, <-Hr, <-Hin. apply A.
Qed.

(** *** Inserting blocks *)
Definition insert_leaf t b (p : LinkableBlock.t) : BlockTree.t :=
  set_id_to_block t (HashMap.insert (HashMap.insert (id_to_block t) (ExecutedBlock.parent_id b)
    (LinkableBlock.mk (LinkableBlock.executed_block p) (LinkableBlock.children p ++ [ExecutedBlock.id b])))
    (ExecutedBlock.id b) (LinkableBlock.new b)).

Lemma insert_block_run t b : tree_ok t -> faithful b ->
  match insert_block b t with
  | (t', Ok b') => (t' = t /\ get_block t (ExecutedBlock.id b) = Some b') \/
      b' = b /\ ~ in_tree t (ExecutedBlock.id b) /\
      exists p, get_linkable_block t (ExecutedBlock.parent_id b) = Some p /\ t' = insert_leaf t b p
  | (t', Err _) => t' = t /\ ~ in_tree t (ExecutedBlock.id b) /\ ~ in_tree t (ExecutedBlock.parent_id b)
  | (t', Panic) => t' = t /\ exists b', get_block t (ExecutedBlock.id b) = Some b' /\
      ExecutedBlock.compute_result b' <> ExecutedBlock.compute_result b
  end.
Proof using Type.
  intros Hok Hb. unfold insert_block, gets, lift, assert, modify, mbind, action_bind. unfold get_block at 1.
  unfold in_tree. destruct (get_linkable_block t (ExecutedBlock.id b)) as [lb|] eqn:El; cbn [fmap option_fmap option_map].
  { case_bool_decide as Ec; cbn; unfold get_block; rewrite El; [by left|]. split; [done|]. by eexists. }
  destruct (get_linkable_block t (ExecutedBlock.parent_id b)) as [p|] eqn:Ep; cycle 1.
  { split_and!; [done|..]; by intros [? ?]. }
  unfold LinkableBlock.add_child. rewrite bool_decide_eq_false_2; cycle 1.
  { intros Hc. apply (ok_children _ Hok _ _ Ep) in Hc as [[? Hc] _]. congruence. }
  assert (ExecutedBlock.id b <> ExecutedBlock.parent_id b) as Hne by (intros E; rewrite E in El; congruence).
  unfold block_exists, HashMap.contains_key. cbn [id_to_block set_id_to_block]. rewrite HashMap.get_insert_ne by done.
  unfold get_linkable_block in El. rewrite El. cbn. right. split_and!; [done|by intros [? ?]|]. by exists p.
Qed.

Lemma get_insert_leaf t b p x : ExecutedBlock.id b <> ExecutedBlock.parent_id b ->
  get_linkable_block (insert_leaf t b p) x =
    if bool_decide (x = ExecutedBlock.id b) then Some (LinkableBlock.new b)
    else if bool_decide (x = ExecutedBlock.parent_id b)
      then Some (LinkableBlock.mk (LinkableBlock.executed_block p) (LinkableBlock.children p ++ [ExecutedBlock.id b]))
      else get_linkable_block t x.
Proof using Type. intros. unfold get_linkable_block, insert_leaf. cbn [id_to_block set_id_to_block]. by rewrite !HashMap.hash_get_insert. Qed.

Lemma insert_leaf_in t b p x : get_linkable_block t (ExecutedBlock.parent_id b) = Some p ->
  ~ in_tree t (ExecutedBlock.id b) -> in_tree (insert_leaf t b p) x <-> x = ExecutedBlock.id b \/ in_tree t x.
Proof using Type.
  intros Hp Hb. unfold in_tree in *.
  assert (ExecutedBlock.id b <> ExecutedBlock.parent_id b) as Hne by (intros E; apply Hb; rewrite E; by eexists).
  rewrite get_insert_leaf by done. case_bool_decide as E1; [subst; split; [by left|by eexists]|].
  case_bool_decide as E2; [subst; split; [right|]; by eexists|]. split; [by right|by intros [?|?]].
Qed.

Lemma anc_parent_of x c : anc x c -> anc (parent_of x) c.
Proof using Type. induction 1 as [c|x c Ha IH]; [apply anc_step, anc_parent|by apply anc_step]. Qed.

(** A block whose parent is in the tree and that is not is nobody's ancestor there. *)
Lemma not_anc_leaf t x c : tree_ok t -> in_tree t (parent_of x) -> ~ in_tree t x -> in_tree t c -> ~ anc x c.
Proof using Type.
  intros Hok Hp Hx Hc Ha. revert Hc. induction Ha as [c|x c Ha IH]; intros Hc.
  - apply Hx. eapply ok_convex; [done|done| |exact Hp]. apply anc_step, anc_parent.
  - apply IH; [done..|]. eapply ok_convex; [done|done| |exact Hp]. by apply anc_step, anc_parent_of.
Qed.

Lemma insert_leaf_live t b p x : tree_ok t -> faithful b -> get_linkable_block t (ExecutedBlock.parent_id b) = Some p ->
  ~ in_tree t (ExecutedBlock.id b) -> live (insert_leaf t b p) x -> x = ExecutedBlock.id b \/ live t x.
Proof using Type.
  intros Hok Hb Hp Hn. unfold live. cbn [insert_leaf set_id_to_block commit_root_id].
  assert (forall y, in_tree (insert_leaf t b p) y <-> y = ExecutedBlock.id b \/ in_tree t y) as Hin
    by (intros; by apply insert_leaf_in).
  induction 1 as [Hr|y Hy Hl IH]; [right; apply below_refl, Hok|].
  apply Hin in Hy as [->|Hy]; [by left|right]. apply below_child; [done|]. destruct IH as [E|]; [|done].
  exfalso. apply (not_anc_leaf t (ExecutedBlock.id b) y); [done| |done|done|].
  - destruct Hb as [<- _ _]. by eexists.
  - rewrite <-E. apply anc_parent.
Qed.

Lemma insert_leaf_ok t b p : tree_ok t -> faithful b -> get_linkable_block t (ExecutedBlock.parent_id b) = Some p ->
  ~ in_tree t (ExecutedBlock.id b) -> tree_ok (insert_leaf t b p).
Proof using Type.
  intros Hok Hb Hp Hn. pose proof (faithful_parent b Hb) as Hpar.
  assert (ExecutedBlock.id b <> ExecutedBlock.parent_id b) as Hne by (intros E; apply Hn; rewrite E; by eexists).
  assert (forall y, in_tree (insert_leaf t b p) y <-> y = ExecutedBlock.id b \/ in_tree t y) as Hin
    by (intros; by apply insert_leaf_in).
  assert (in_tree t (parent_of (ExecutedBlock.id b))) as Hpin by (rewrite <-Hpar; by eexists).
  pose proof (fun c => not_anc_leaf t (ExecutedBlock.id b) c Hok Hpin Hn) as Hleaf.
  split.
  - cbn. by apply HashMap.insert_NoDup, HashMap.insert_NoDup, Hok.
  - intros i lb. rewrite get_insert_leaf by done. case_bool_decide as E1; [intros [= <-]; by subst|].
    case_bool_decide as E2; [|apply Hok]. intros [= <-]. subst. apply (ok_block t Hok _ p Hp).
  - intros i lb. rewrite get_insert_leaf by done. case_bool_decide as E1.
    { intros [= <-]. split; [constructor|]. intros c. rewrite Hin. cbn. rewrite elem_of_nil. split; [done|].
      intros [[->|Hc] Hc']; [subst; congruence|]. apply (Hleaf c Hc). rewrite <-E1, <-Hc'. apply anc_parent. }
    case_bool_decide as E2.
    + intros [= <-]. subst i. destruct (ok_children t Hok _ _ Hp) as [Hnd Hc]. cbn. split.
      * apply NoDup_app. split_and!; [done| |apply NoDup_singleton]. intros c Hcc ->%list_elem_of_singleton.
        by apply Hc in Hcc as [? _].
      * intros c. rewrite elem_of_app, list_elem_of_singleton, Hc, Hin, Hpar. naive_solver.
    + intros Hi. destruct (ok_children t Hok _ _ Hi) as [Hnd Hc]. split; [done|]. intros c. rewrite Hc, Hin.
      split; [naive_solver|]. intros [[->|?] ?]; [congruence|done].
  - intros x c. rewrite !Hin. intros [->|Hc] Ha [->|Hx]; [by right|by right|by destruct (Hleaf c Hc)|].
    right. by eapply ok_convex.
  - rewrite Hin. right. apply Hok.
  - apply Hok.
  - intros r Hr. destruct (ok_pruned_in t Hok r Hr) as [Hri Hrl]. split; [apply Hin; by right|].
    intros [->|?]%insert_leaf_live; done.
  - intros x r Hr Ha [->|Hx]%Hin; [|by apply Hok]. destruct (ok_pruned_in t Hok r Hr) as [Hri _].
    by destruct (Hleaf r Hri).
  - intros x Ha [->|Hx]%Hin; [|by apply Hok]. by destruct (Hleaf _ (ok_root t Hok)).
Qed.

Lemma insert_block_ok t b : tree_ok t -> faithful b -> tree_ok (insert_block b t).1.
Proof using Type.
  intros Hok Hb. pose proof (insert_block_run t b Hok Hb) as Hr. destruct (insert_block b t) as [t' [b'|e|]]; cbn.
  - destruct Hr as [[-> _]|(_ & Hn & p & Hp & ->)]; [done|by apply insert_leaf_ok].
  - by destruct Hr as [-> _].
  - by destruct Hr as [-> _].
Qed.

(** *** Pruning *)
Definition ids (K : list LinkableBlock.t) : list HashValue := LinkableBlock.id <$> K.
Definition stacked t (K : list LinkableBlock.t) : Prop :=
  forall lb, lb ∈ K -> get_linkable_block t (LinkableBlock.id lb) = Some lb.

Lemma push_children_run t n cs K : tree_ok t -> (forall c, c ∈ cs -> in_tree t c) -> stacked t K ->
  exists K', push_children t n cs K = Ok K' /\ stacked t K' /\
    ids K' = reverse (List.filter (fun c => negb (bool_decide (n = c))) cs) ++ ids K.
Proof using Type.
  intros Hok. revert K. induction cs as [|c cs IH]; intros K Hcs HK; cbn [push_children List.filter].
  { by exists K. }
  case_bool_decide as E; cbn [negb]; [apply IH; [set_solver|done]|].
  destruct (Hcs c) as [lb Hlb]; [set_solver|]. rewrite Hlb. cbn [expect]. rewrite bind_ret.
  destruct (ok_block t Hok c lb Hlb) as [Hid _].
  destruct (IH (lb :: K)) as (K' & -> & HK' & Hids); [set_solver| |].
  { intros lb' [->|Hin]%elem_of_cons; [by rewrite Hid|by apply HK]. }
  exists K'. split_and!; [done..|]. rewrite Hids, reverse_cons, <-app_assoc. cbn. by rewrite Hid.
Qed.

(** What was pruned, [V], and what is on the stack, [K]. *)
Record dfs t n (V : list HashValue) (K : list LinkableBlock.t) : Prop := {
  dfs_nodup : NoDup (V ++ ids K);
  dfs_stacked : stacked t K;
  dfs_in x : x ∈ V ++ ids K -> live t x /\ ~ below t n x;
  dfs_closed v c : v ∈ V -> in_tree t c -> parent_of c = v -> c <> n -> c ∈ V ++ ids K;
  dfs_root : commit_root_id t ∈ V ++ ids K;
  dfs_parent x : x ∈ ids K -> x = commit_root_id t \/ parent_of x ∈ V;
  dfs_order x : x ∈ V -> x = commit_root_id t \/ before V (parent_of x) x;
}.

Lemma before_app l l' x y : before l x y -> before (l ++ l') x y.
Proof using Type. intros (l1 & l2 & -> & ?). exists l1, (l2 ++ l'). by rewrite <-app_assoc. Qed.

Lemma before_in l x y : before l x y -> x ∈ l /\ y ∈ l.
Proof using Type. intros (l1 & l2 & -> & ?). rewrite !elem_of_app. split; [by left|right; by left]. Qed.

(** The commit root is nobody's child below it. *)
Lemma root_not_child t x : tree_ok t -> live t x -> parent_of (commit_root_id t) <> x.
Proof using Type.
  intros Hok Hx <-. pose proof (in_tree_round t _ Hok (ok_root t Hok)).
  apply below_anc in Hx as [E|?]; [rewrite E in *|..]; lia || done.
Qed.

Lemma filter_children t n i lb c : tree_ok t -> get_linkable_block t i = Some lb ->
  c ∈ reverse (List.filter (fun c => negb (bool_decide (n = c))) (LinkableBlock.children lb)) <->
  in_tree t c /\ parent_of c = i /\ c <> n.
Proof using Type.
  intros Hok Hlb. destruct (ok_children t Hok _ _ Hlb) as [_ Hc].
  rewrite elem_of_reverse, list_elem_of_In, filter_In, <-list_elem_of_In, Hc, negb_true_iff, bool_decide_eq_false.
  naive_solver.
Qed.

Lemma dfs_step t n V lb K : tree_ok t -> dfs t n V (lb :: K) -> exists K',
  push_children t n (LinkableBlock.children lb) K = Ok K' /\ dfs t n (V ++ [LinkableBlock.id lb]) K'.
Proof using Type.
  intros Hok [Hnd Hst Hin Hcl Hroot Hpar Hord]. set (v := LinkableBlock.id lb) in *.
  assert (get_linkable_block t v = Some lb) as Hlb by (apply Hst; left).
  destruct (ok_children t Hok _ _ Hlb) as [Hndc Hc].
  destruct (push_children_run t n (LinkableBlock.children lb) K) as (K' & -> & HK' & Hids); [done| | |].
  { intros c Hcc. by apply Hc. }
  { intros lb' ?. apply Hst. by right. }
  pose proof (fun c => filter_children t n v lb c Hok Hlb) as Hf. set (new := reverse (List.filter _ _)) in *.
  assert (ids (lb :: K) = v :: ids K) as Eids by done. rewrite Eids in *.
  apply NoDup_app in Hnd as (HndV & Hdis & HndK). apply NoDup_cons in HndK as [HvK HndK].
  assert (v ∉ V) as HvV by (intros ?; eapply Hdis; [done|left]).
  destruct (Hin v) as [Hvl Hvn]; [apply elem_of_app; right; left|].
  assert (forall c, c ∈ new -> c ∉ V ++ v :: ids K) as Hfresh.
  { intros c (Hct & Hcp & Hcn)%Hf Hcv. assert (c = commit_root_id t \/ parent_of c ∈ V) as [->|]; [|by eapply root_not_child|congruence].
    apply elem_of_app in Hcv as [Hcv|Hcv]; [|by apply Hpar]. destruct (Hord c Hcv) as [|[? _]%before_in]; auto. }
  assert (forall x, x ∈ (V ++ [v]) ++ ids K' <-> x ∈ new \/ x ∈ V ++ v :: ids K) as Hsplit.
  { intros x. rewrite Hids, !elem_of_app, !elem_of_cons, elem_of_nil. tauto. }
  exists K'. split; [done|]. split.
  - rewrite Hids, <-app_assoc. apply NoDup_app. split_and!; [done|..].
    + intros x Hx [->|[Hx'|Hx']%elem_of_app]%elem_of_cons; [done|..].
      * eapply Hfresh; [done|]. apply elem_of_app. by left.
      * eapply Hdis; [done|by right].
    + cbn. apply NoDup_cons. split.
      * intros [Hx'|?]%elem_of_app; [|done]. eapply Hfresh; [done|]. apply elem_of_app. right. left.
      * apply NoDup_app. split_and!; [unfold new; rewrite reverse_Permutation; by apply NoDup_filter_bool| |done].
        intros x Hx Hx'. eapply Hfresh; [done|]. apply elem_of_app. right. by right.
  - done.
  - intros x [Hx|Hx]%Hsplit; [|by apply Hin]. apply Hf in Hx as (Hxt & Hxp & Hxn). split.
    + apply below_child; [done|]. by rewrite Hxp.
    + intros Hb. inversion Hb; subst; [done|]. congruence.
  - intros u c Hu Hct Hcp Hcn. rewrite Hsplit. apply elem_of_app in Hu as [Hu| ->%list_elem_of_singleton].
    + right. by eapply Hcl.
    + left. by apply Hf.
  - rewrite Hsplit. by right.
  - intros x. rewrite Hids. intros [(_ & Hxp & _)%Hf|Hx]%elem_of_app.
    + right. rewrite Hxp. apply elem_of_app. right. left.
    + destruct (Hpar x) as [?|?]; [by right|by left|right; apply elem_of_app; by left].
  - intros x [Hx| ->%list_elem_of_singleton]%elem_of_app.
    + destruct (Hord x Hx) as [?|?]; [by left|right; by apply before_app].
    + destruct (Hpar v) as [?|?]; [left|by left|right]. by exists V, [].
Qed.

Lemma in_tree_count t l : NoDup l -> (forall x, x ∈ l -> in_tree t x) -> (length l <= length (id_to_block t))%nat.
Proof using Type.
  intros Hnd Hl. rewrite <-(length_fmap fst (id_to_block t)). apply submseteq_length, NoDup_submseteq; [done|].
  intros x Hx. destruct (Hl x Hx) as [lb Hlb]. by eapply HashMap.get_key.
Qed.

Lemma prune_loop_run t n fuel V K : tree_ok t -> dfs t n V K -> (length (id_to_block t) <= fuel + length V)%nat ->
  exists V', prune_loop fuel t n K V = Ok V' /\ dfs t n V' [].
Proof using Type.
  intros Hok. revert V K. induction fuel as [|fuel IH]; intros V K Hd Hf.
  - destruct K as [|lb K]; [by exists V|exfalso]. pose proof (in_tree_count t _ (dfs_nodup _ _ _ _ Hd)) as Hc.
    rewrite length_app in Hc. cbn in Hc. enough (S (length V) <= length (id_to_block t))%nat by lia.
    etransitivity; [|apply Hc; intros x Hx; by eapply below_in, (dfs_in _ _ _ _ Hd)]. lia.
  - destruct K as [|lb K]; [by exists V|]. cbn [prune_loop].
    destruct (dfs_step _ _ _ _ _ Hok Hd) as (K' & -> & Hd'). rewrite bind_ret. apply IH; [done|].
    rewrite length_app. cbn. lia.
Qed.

(** The blocks to prune for a live block are the live ones that are not below it,
    parents first. *)
Record prunes t n (V : list HashValue) : Prop := {
  prunes_nodup : NoDup V;
  prunes_in x : x ∈ V <-> live t x /\ ~ below t n x;
  prunes_order x : x ∈ V -> x = commit_root_id t \/ before V (parent_of x) x;
}.

Lemma dfs_start t n lb : tree_ok t -> live t n -> n <> commit_root_id t ->
  get_linkable_block t (commit_root_id t) = Some lb -> dfs t n [] [lb].
Proof using Type.
  intros Hok Hn Hne Hlb. destruct (ok_block t Hok _ _ Hlb) as [Hid _]. split; cbn; rewrite ?Hid.
  - apply NoDup_singleton.
  - intros lb' ->%list_elem_of_singleton. by rewrite Hid.
  - intros x ->%list_elem_of_singleton. split; [by apply below_refl; eexists|]. intros Hb.
    apply below_anc in Hb as [?|?]; [done| |done]. apply below_anc in Hn as [?|?]; [done|lia|done].
  - by intros v c ?%elem_of_nil.
  - left.
  - intros x ->%list_elem_of_singleton. by left.
  - by intros x ?%elem_of_nil.
Qed.

Lemma find_blocks_to_prune_run t n : tree_ok t -> live t n -> n <> commit_root_id t ->
  exists V, find_blocks_to_prune t n = Ok V /\ prunes t n V.
Proof using Type.
  intros Hok Hn Hne. unfold find_blocks_to_prune. rewrite bool_decide_eq_false_2 by done.
  unfold linkable_root. destruct (ok_root t Hok) as [lb Hlb]. rewrite Hlb. cbn [expect]. rewrite bind_ret.
  destruct (prune_loop_run t n (length (id_to_block t)) [] [lb]) as (V & -> & [Hnd _ Hin Hcl Hroot _ Hord]);
    [done|by apply dfs_start|lia|]. exists V. cbn in *. pose proof (app_nil_r V) as EV. rewrite EV in *.
  split; [done|]. split; [done| |done]. intros x. split; [by apply Hin|]. intros [Hl Hb].
  unfold live in Hl. induction Hl as [|x Hx Hl IH]; [done|].
  destruct (decide (x = n)) as [->|Hxn]; [by destruct Hb; apply below_refl|].
  eapply Hcl; [|done|done|done]. apply IH. intros Hb'. apply Hb. by apply below_child.
Qed.

Lemma before_trans (l : list HashValue) x y z : NoDup l -> before l x y -> before l y z -> before l x z.
Proof using Type.
  intros Hnd (k1 & k2 & Ek & Hx) (l1 & l2 & -> & (m1 & m2 & ->)%list_elem_of_split). exists (m1 ++ y :: m2), l2.
  split; [done|]. rewrite <-app_assoc in Ek, Hnd. cbn in Ek, Hnd.
  assert (m1 = k1) as ->; [|apply elem_of_app; by left].
  apply NoDup_app in Hnd as (_ & Hd1 & Hnd). apply NoDup_cons in Hnd as [Hd2 _].
  clear Hx. revert m1 Ek Hd1. induction k1 as [|u k1 IH]; intros [|u' m1] Ek Hd1; cbn in Ek; [done|..]; injection Ek as E1 E2.
  - subst u'. destruct (Hd1 y); left.
  - subst u. exfalso. apply Hd2. rewrite E2. apply elem_of_app. right. left.
  - subst u'. f_equal. apply IH; [done|]. intros v Hv. apply Hd1. by right.
Qed.

Lemma prunes_before t n V a r : tree_ok t -> prunes t n V -> a ∈ V -> r ∈ V -> anc a r -> before V a r.
Proof using Type.
  intros Hok HV Ha Hr Han. pose proof (proj1 (prunes_in _ _ _ HV a) Ha) as [Hal _].
  assert (forall y, y ∈ V -> in_tree t y) as Hint by (intros y [Hy _]%(prunes_in _ _ _ HV); by eapply below_in).
  assert (~ anc a (commit_root_id t)) as Hroot.
  { intros Hx. apply (anc_round t) in Hx; [|done|apply Hok|by apply Hint]. apply below_anc in Hal as [->|?]; [lia|lia|done]. }
  revert Hr. induction Han as [r|a r Han IH]; intros Hr.
  - destruct (prunes_order _ _ _ HV r Hr) as [->|?]; [|done]. destruct Hroot. apply anc_parent.
  - destruct (prunes_order _ _ _ HV r Hr) as [->|Hb]; [by destruct Hroot; apply anc_step|].
    eapply before_trans; [apply HV|apply IH; [done..|]|done]. by apply before_in in Hb as [? _].
Qed.

(** Moving the commit root to a live block. *)
Lemma advance_ok t n V : tree_ok t -> live t n -> n <> commit_root_id t -> prunes t n V ->
  tree_ok (set_commit_root_id (set_pruned_block_ids t (pruned_block_ids t ++ V)) n).
Proof using Type.
  intros Hok Hn Hne HV. pose proof (below_in _ _ _ Hn) as Hnt.
  assert (forall a r, live t r -> anc a r -> in_tree t a -> live t a \/ a ∈ pruned_block_ids t) as Habove.
  { intros a r Hr Ha Hta. destruct (below_linear t (commit_root_id t) a r) as [?|Hb]; [done| |by left|].
    - apply convex_below; [done|by eapply below_in|done|done].
    - apply below_cases in Hb as [<-|Hb]; [left; by apply below_refl|right]. by apply Hok. }
  assert (forall x, x ∈ V -> live t x /\ ~ below t n x) as HVl by (intros; by apply HV).
  pose proof Hok as [K B C Cv R P PI Q A].
  split; try done; cbn [pruned_block_ids set_commit_root_id set_pruned_block_ids commit_root_id].
  - apply NoDup_app. split_and!; [done| |apply HV]. intros x Hx [Hl _]%HVl. by apply PI in Hx as [_ ?].
  - intros r [Hr|Hr]%elem_of_app; (split; [|intros Hl; apply (below_mono _ t) in Hl; [|intros y Hy; exact Hy]; cbn in Hl]).
    + by apply PI.
    + apply PI in Hr as [_ Hr]. apply Hr. by eapply below_trans.
    + by apply HVl in Hr as [?%below_in _].
    + by apply HVl in Hr as [_ ?].
  - intros a r [Hr|Hr]%elem_of_app Ha Hta; [by apply before_app, Q|].
    destruct (HVl r Hr) as [Hrl Hrn]. destruct (Habove a r Hrl Ha Hta) as [Hal|Hal].
    + assert (a ∈ V) as HaV.
      { apply HV. split; [done|]. intros Hb. apply Hrn. eapply below_trans; [exact Hb|].
        apply convex_below; [done|by eapply below_in|done|done]. }
      destruct (prunes_before t n V a r) as (l1 & l2 & -> & ?); [done..|].
      exists (pruned_block_ids t ++ l1), l2. split; [by rewrite <-app_assoc|]. apply elem_of_app. by right.
    + apply list_elem_of_split in Hr as (l1 & l2 & ->). exists (pruned_block_ids t ++ l1), l2.
      split; [by rewrite <-app_assoc|]. apply elem_of_app. by left.
  - intros a Ha Hta. apply elem_of_app. destruct (Habove a n Hn Ha Hta) as [Hal|?]; [right|by left].
    apply HV. split; [done|]. intros Hb. apply (anc_round t) in Ha; [|done..]. apply below_anc in Hb as [->|?]; [lia|lia|done].
Qed.

(** Removing the block that was pruned first. *)
Lemma remove_in t r q x : in_tree (remove_block (set_pruned_block_ids t q) r) x <-> x <> r /\ in_tree t x.
Proof using Type.
  unfold in_tree, get_linkable_block. cbn. rewrite HashMap.hash_get_remove. case_bool_decide; subst.
  - split; [by intros [? ?]|by intros []].
  - split; [by split|by intros [_ ?]].
Qed.

Lemma pop_ok t r q : tree_ok t -> pruned_block_ids t = r :: q -> tree_ok (remove_block (set_pruned_block_ids t q) r).
Proof using Type.
  intros Hok Hq. set (t' := remove_block _ _). assert (forall x, in_tree t' x <-> x <> r /\ in_tree t x) as Hin by apply remove_in.
  pose proof Hok as [K B C Cv R P PI Q A]. rewrite Hq in P. apply NoDup_cons in P as [Hrq P].
  destruct (PI r) as [Hrt Hrl]; [rewrite Hq; left|].
  assert (forall a, anc a r -> ~ in_tree t a) as Hfirst.
  { intros a Ha Hta. destruct (Q a r) as (l1 & l2 & E & Hl1); [rewrite Hq; left|done|done|]. rewrite Hq in E.
    destruct l1 as [|u l1]; [by apply elem_of_nil in Hl1|]. injection E as -> E. apply Hrq. rewrite E.
    apply elem_of_app. right. left. }
  assert (forall x, live t' x -> live t x) as Hlive.
  { intros x. apply below_mono. intros y [_ ?]%Hin. done. }
  assert (forall i, i <> r -> get_linkable_block t' i = get_linkable_block t i) as Hget.
  { intros i Hi. unfold get_linkable_block, t'. cbn. by apply HashMap.get_remove_ne. }
  assert (forall i lb, get_linkable_block t' i = Some lb -> i <> r /\ get_linkable_block t i = Some lb) as Hget'.
  { intros i lb Hi. assert (i <> r) as Hne by (apply Hin; by eexists). split; [done|]. by rewrite <-Hget. }
  split.
  - by apply HashMap.remove_NoDup.
  - intros i lb [_ Hi]%Hget'. by apply B.
  - intros i lb [Hne Hi]%Hget'. destruct (C i lb Hi) as [Hnd Hc]. split; [done|]. intros c. rewrite Hc, Hin.
    split; [|naive_solver]. intros [Hct Hcp]. split_and!; [|done|done]. intros ->.
    apply (Hfirst i); [rewrite <-Hcp; apply anc_parent|by eexists].
  - intros x c [Hcr Hc]%Hin Ha [Hxr Hx]%Hin. apply Hin. split; [|by eapply Cv]. intros E.
    apply (Hfirst x); [|done]. by inversion Ha; subst.
  - apply Hin. split; [|done]. cbn. intros <-. apply Hrl. by apply below_refl.
  - done.
  - intros x Hx. destruct (PI x) as [Hxt Hxl]; [rewrite Hq; by right|]. split; [|auto]. apply Hin.
    split; [|done]. intros ->. done.
  - intros x y Hy Ha [Hxr Hx]%Hin. cbn. destruct (Q x y) as (l1 & l2 & E & Hl1); [rewrite Hq; by right|done|done|].
    rewrite Hq in E. destruct l1 as [|u l1]; [by apply elem_of_nil in Hl1|]. injection E as -> E.
    exists l1, l2. split; [done|]. by apply elem_of_cons in Hl1 as [->|?].
  - intros x Ha [Hxr Hx]%Hin. specialize (A x Ha Hx). rewrite Hq in A. by apply elem_of_cons in A as [->|?].
Qed.

Lemma pop_live t r q x : tree_ok t -> pruned_block_ids t = r :: q ->
  live (remove_block (set_pruned_block_ids t q) r) x <-> live t x.
Proof using Type.
  intros Hok Hq. split; [apply below_mono; by intros y [_ ?]%remove_in|].
  destruct (ok_pruned_in t Hok r) as [_ Hrl]; [rewrite Hq; left|]. unfold live in *. cbn.
  induction 1 as [Hr|x Hx Hl IH].
  - apply below_refl, remove_in. split; [|done]. intros <-. apply Hrl. by apply below_refl.
  - apply below_child; [|done]. apply remove_in. split; [|done]. intros <-. apply Hrl. by apply below_child.
Qed.

(** Removing several. *)
Record popped t t' : Prop := {
  popped_ok : tree_ok t';
  popped_live x : live t' x <-> live t x;
  popped_in x : in_tree t' x -> in_tree t x;
  popped_get x lb : get_linkable_block t' x = Some lb -> get_linkable_block t x = Some lb;
}.

Lemma pop_pruned_ok n t : tree_ok t -> popped t (pop_pruned n t).
Proof using Type.
  revert t. induction n as [|n IH]; intros t Hok; cbn [pop_pruned]; [by split|].
  destruct (pruned_block_ids t) as [|r q] eqn:Eq; [by apply IH|]. pose proof (pop_ok t r q Hok Eq) as Hok'.
  destruct (IH _ Hok') as [H1' H2' H3' H4']. split; [done|..].
  - intros x. by rewrite H2', pop_live.
  - intros x Hx%H3'. by apply remove_in in Hx as [_ ?].
  - intros x lb Hx%H4'. unfold get_linkable_block in *. cbn in Hx. rewrite HashMap.hash_get_remove in Hx. by case_bool_decide.
Qed.

(** The rest of the tree does not matter, and stays. *)
Lemma pop_pruned_fields n t :
  commit_root_id (pop_pruned n t) = commit_root_id t /\ ordered_root_id (pop_pruned n t) = ordered_root_id t /\
  highest_commit_cert (pop_pruned n t) = highest_commit_cert t /\
  max_pruned_blocks_in_mem (pop_pruned n t) = max_pruned_blocks_in_mem t /\
  pruned_block_ids (pop_pruned n t) = drop n (pruned_block_ids t).
Proof using Type.
  revert t. induction n as [|n IH]; intros t; cbn [pop_pruned]; [by rewrite drop_0|].
  destruct (pruned_block_ids t) as [|r q] eqn:Eq.
  - destruct (IH t) as (-> & -> & -> & -> & ->). by rewrite Eq, drop_nil.
  - by destruct (IH (remove_block (set_pruned_block_ids t q) r)) as (-> & -> & -> & -> & ->).
Qed.

Lemma pop_pruned_certs n t qc : qc ∈ (id_to_quorum_cert (pop_pruned n t)).*2 -> qc ∈ (id_to_quorum_cert t).*2.
Proof using Type.
  revert t. induction n as [|n IH]; intros t; cbn [pop_pruned]; [done|].
  destruct (pruned_block_ids t) as [|r q]; intros Hq%IH; [done|]. by apply HashMap.remove_values in Hq.
Qed.

Lemma pop_pruned_commit_root n t i : pop_pruned n (set_commit_root_id t i) = set_commit_root_id (pop_pruned n t) i.
Proof using Type.
  revert t. induction n as [|n IH]; intros t; cbn [pop_pruned]; [done|].
  cbn [pruned_block_ids set_commit_root_id]. destruct (pruned_block_ids t) as [|r q]; [apply IH|].
  apply (IH (remove_block (set_pruned_block_ids t q) r)).
Qed.

(** *** Committing *)
Record committed t n cp t' : Prop := {
  committed_ok : tree_ok t';
  committed_root : commit_root_id t' = n;
  committed_live x : live t' x <-> below t n x;
  committed_get x lb : get_linkable_block t' x = Some lb -> get_linkable_block t x = Some lb;
  committed_bound : (length (pruned_block_ids t') <= max_pruned_blocks_in_mem t')%nat;
  committed_max : max_pruned_blocks_in_mem t' = max_pruned_blocks_in_mem t;
  committed_ordered : ordered_root_id t' = ordered_root_id t;
  committed_cert : highest_commit_cert t' = cp;
  committed_certs qc : qc ∈ (id_to_quorum_cert t').*2 -> qc ∈ (id_to_quorum_cert t).*2;
}.

Lemma commit_callback_run t blocks b qc decision cp : tree_ok t -> last blocks = Some b ->
  live t (ExecutedBlock.id b) -> ExecutedBlock.id b <> commit_root_id t ->
  QuorumCert.create_merged_with_executed_state qc decision = Ok cp ->
  BlockInfo.id (QuorumCert.commit_info cp) = ExecutedBlock.id b ->
  BlockInfo.round (QuorumCert.commit_info (highest_commit_cert t)) < BlockInfo.round (QuorumCert.commit_info cp) ->
  exists V t', commit_callback blocks qc decision t = (t', Ok V) /\ prunes t (ExecutedBlock.id b) V /\
    committed t (ExecutedBlock.id b) cp t'.
Proof using Type.
  intros Hok Hb Hl Hne Hcp Hid Hround. destruct (find_blocks_to_prune_run t _ Hok Hl Hne) as (V & HV & Hpr).
  pose proof (advance_ok t _ V Hok Hl Hne Hpr) as Hadv. set (n := ExecutedBlock.id b) in *.
  set (t1 := set_pruned_block_ids t (pruned_block_ids t ++ V)) in *.
  set (k := (length (pruned_block_ids t1) - max_pruned_blocks_in_mem t1)%nat).
  pose proof (pop_pruned_ok k _ Hadv) as Hpop. rewrite pop_pruned_commit_root in Hpop.
  destruct (pop_pruned_fields k t1) as (_ & Ho & Hc & Hm & Hpids). set (t2 := pop_pruned k t1) in *.
  assert (in_tree t2 n) as Hn.
  { apply (ok_root (set_commit_root_id t2 n)). apply Hpop. }
  exists V, (set_commit_root_id (set_highest_commit_cert t2 cp) n). split; [|split; [done|]].
  - unfold commit_callback, process_pruned_blocks, update_highest_commit_cert, update_commit_root, gets, modify, lift.
    unfold mbind, action_bind. rewrite Hcp. cbn [unwrap]. rewrite Hb. cbn [expect]. unfold commit_root, get_block.
    destruct (ok_root t Hok) as [lr Hlr]. rewrite Hlr. cbn [fmap option_fmap option_map expect]. fold n. rewrite HV.
    cbv beta iota. fold t1. fold k. fold t2. rewrite Hc. cbn [highest_commit_cert t1 set_pruned_block_ids].
    rewrite (proj2 (Z.ltb_lt _ _)) by done. rewrite Hid. unfold block_exists, HashMap.contains_key.
    cbn [id_to_block set_highest_commit_cert]. destruct Hn as [ln Hln]. unfold get_linkable_block in Hln. by rewrite Hln.
  - split; try done.
    + eapply tree_ok_ext; [..|apply Hpop]; done.
    + intros x. etransitivity; [apply (below_ext _ (set_commit_root_id t2 n)); done|].
      etransitivity; [apply (popped_live _ _ Hpop x)|]. by apply below_ext.
    + intros x lb Hx. by apply (popped_get _ _ Hpop x lb).
    + change (length (pruned_block_ids t2) <= max_pruned_blocks_in_mem t2)%nat. rewrite Hpids, length_drop, Hm. unfold k. lia.
    + intros q Hq. by apply (pop_pruned_certs k t1).
Qed.

(** *** Paths *)

(** Going up from [x] to [y] through blocks with rounds above [rr]. *)
Inductive up t (rr : Z) : HashValue -> list ExecutedBlock.t -> HashValue -> Prop :=
  | up_refl x : up t rr x [] x
  | up_step x b l y : get_block t x = Some b -> rr < round_of x -> up t rr (parent_of x) l y -> up t rr x (b :: l) y.

Lemma get_block_ok t x b : tree_ok t -> get_block t x = Some b -> ExecutedBlock.id b = x /\ faithful b /\ in_tree t x.
Proof using Type.
  unfold get_block, in_tree. intros Hok Hx. destruct (get_linkable_block t x) as [lb|] eqn:E; [|done].
  injection Hx as <-. destruct (ok_block t Hok _ _ E) as [? ?]. split_and!; [done..|by eexists].
Qed.

Lemma path_loop_run t rr fuel cur res : tree_ok t ->
  NoDup (ExecutedBlock.id <$> res) -> (forall b, b ∈ res -> in_tree t (ExecutedBlock.id b)) ->
  (in_tree t cur -> forall b, b ∈ res -> round_of cur < round_of (ExecutedBlock.id b)) ->
  (length (id_to_block t) <= fuel + length res)%nat ->
  exists l y, up t rr cur l y /\
    (path_loop fuel t rr cur res = Ok (Some (y, res ++ l)) /\ in_tree t y /\ round_of y <= rr \/
     path_loop fuel t rr cur res = Ok None /\ ~ in_tree t y).
Proof using Type.
  intros Hok. revert cur res. induction fuel as [|fuel IH]; intros cur res Hnd Hin Hlt Hf.
  all: cbn [path_loop]; destruct (get_block t cur) as [b|] eqn:Eb;
    [destruct (get_block_ok t cur b Hok Eb) as (Hid & [Hp Hr Hlater _] & Hcur); rewrite Hid in *; rewrite Hr
    |exists [], cur; split; [constructor|right; split; [done|]; intros [? E]; unfold get_block in Eb; by rewrite E in Eb]].
  all: destruct (Z.leb_spec (round_of cur) rr) as [Hle|Hgt];
    [exists [], cur; split; [constructor|left; by rewrite app_nil_r]|].
  - exfalso. assert (NoDup (cur :: (ExecutedBlock.id <$> res))) as Hnd'.
    { constructor; [|done]. intros (b' & -> & Hb')%list_elem_of_fmap. specialize (Hlt Hcur b' Hb'). lia. }
    apply (in_tree_count t) in Hnd'; [cbn in Hnd'; rewrite length_fmap in Hnd'; lia|].
    intros x [->|(b' & -> & Hb')%list_elem_of_fmap]%elem_of_cons; auto.
  - destruct (IH (ExecutedBlock.parent_id b) (res ++ [b])) as (l & y & Hup & Hres).
    + rewrite fmap_app. apply NoDup_app. split_and!; [done| |apply NoDup_singleton].
      intros x (b' & -> & Hb')%list_elem_of_fmap Hx%list_elem_of_singleton. specialize (Hlt Hcur b' Hb'). rewrite Hx, Hid in Hlt. lia.
    + intros b' [?| ->%list_elem_of_singleton]%elem_of_app; [auto|by rewrite Hid].
    + rewrite Hp. intros _ b' [Hb'| ->%list_elem_of_singleton]%elem_of_app; [specialize (Hlt Hcur b' Hb'); lia|by rewrite Hid].
    + rewrite length_app. cbn. lia.
    + exists (b :: l), y. rewrite Hp in Hup. split; [by econstructor|]. by rewrite <-app_assoc in Hres.
Qed.

(** Going up from below a root stays below it until it is reached. *)
Lemma up_below t rr r x l y : tree_ok t -> round_of r <= rr -> up t rr x l y -> below t r x -> below t r y.
Proof using Type.
  intros Hok Hrr. induction 1 as [x|x b l y Hb Hx Hup IH]; [done|]. intros Hbe. apply IH.
  inversion Hbe; subst; [lia|done].
Qed.

Lemma below_up t rr x l y : tree_ok t -> up t rr x l y -> in_tree t y -> below t y x.
Proof using Type.
  intros Hok. induction 1 as [x|x b l y Hb Hx Hup IH]; intros Hy; [by apply below_refl|].
  apply below_child; [by eapply get_block_ok|auto].
Qed.

Lemma up_linked t rr x l y : tree_ok t -> up t rr x l y -> linked y (reverse l) /\ end_of y (reverse l) = x /\
  forall b, b ∈ l -> get_block t (ExecutedBlock.id b) = Some b.
Proof using Type.
  intros Hok. induction 1 as [x|x b l y Hb Hx Hup (Hl & He & Hg)]; [by split_and!; [..|intros ? ?%elem_of_nil]|].
  destruct (get_block_ok t x b Hok Hb) as (Hid & [Hp _ _ _] & _). rewrite reverse_cons, linked_snoc, end_of_snoc, He, Hp, Hid.
  split_and!; [done..|]. intros c [->|?]%elem_of_cons; [by rewrite Hid|auto].
Qed.

Lemma path_run t x r : tree_ok t -> in_tree t r ->
  (below t r x /\ exists l, path_from_root_to_block t x r (round_of r) = Ok (Some l) /\ linked r l /\ end_of r l = x /\
     forall b, b ∈ l -> get_block t (ExecutedBlock.id b) = Some b) \/
  (~ below t r x /\ path_from_root_to_block t x r (round_of r) = Ok None).
Proof using Type.
  intros Hok Hr. unfold path_from_root_to_block.
  destruct (path_loop_run t (round_of r) (length (id_to_block t)) x []) as (l & y & Hup & [(-> & Hy & Hle)|[-> Hy]]);
    [done|constructor|by intros ? ?%elem_of_nil|by intros ? ? ?%elem_of_nil|lia| |]; rewrite bind_ret; cbn [app].
  - case_bool_decide as E; [subst y; left|right; split; [|done]].
    + destruct (up_linked _ _ _ _ _ Hok Hup) as (Hl & He & Hg). split; [|exists (reverse l); split_and!; [done..|]].
      * by eapply below_up.
      * intros b Hb. apply Hg. by rewrite elem_of_reverse in Hb.
    + intros Hb. apply (up_below t (round_of r) r _ _ _ Hok) in Hup; [|lia|done].
      apply below_anc in Hup as [?|?]; [done|lia|done].
  - right. split; [|done]. intros Hb. apply Hy. eapply below_in, up_below; [done| |done|done]. lia.
Qed.

(** *** Chains of blocks have increasing rounds *)
Lemma linked_round r l b : linked r l -> Forall faithful l -> b ∈ l -> round_of r < round_of (ExecutedBlock.id b).
Proof using Type.
  revert r. induction l as [|c l IH]; intros r; cbn [linked]; [by intros _ _ ?%elem_of_nil|].
  intros [<- Hl] Hf%Forall_cons. destruct Hf as [[Hp _ Hlt _] Hf]. rewrite Hp.
  intros [->|Hb]%elem_of_cons; [done|]. specialize (IH _ Hl Hf Hb). lia.
Qed.

Lemma linked_once r l : linked r l -> Forall faithful l -> NoDup (ExecutedBlock.id <$> l).
Proof using Type.
  revert r. induction l as [|c l IH]; intros r; cbn [linked fmap list_fmap]; [constructor|].
  intros [_ Hl] Hf%Forall_cons. destruct Hf as [_ Hf]. constructor; [|by eapply IH].
  intros (b & E & Hb)%list_elem_of_fmap. pose proof (linked_round _ _ _ Hl Hf Hb). rewrite E in *. lia.
Qed.

(** The blocks between the commit root and a block below it are below it. *)
Lemma linked_live t l : tree_ok t -> linked (commit_root_id t) l -> Forall faithful l ->
  live t (end_of (commit_root_id t) l) -> forall b, b ∈ l -> live t (ExecutedBlock.id b).
Proof using Type.
  intros Hok. induction l as [|c l IH] using rev_ind; [by intros _ _ _ ? ?%elem_of_nil|].
  intros Hl Hf. rewrite end_of_snoc. intros Hlive b.
  assert (round_of (commit_root_id t) < round_of (ExecutedBlock.id c)) as Hr.
  { eapply linked_round; [done..|]. apply elem_of_app. right. by apply list_elem_of_singleton. }
  apply linked_snoc in Hl as [Hl Hp]. apply Forall_app in Hf as [Hf [[Hpc _ _ _] _]%Forall_cons].
  intros [Hb| ->%list_elem_of_singleton]%elem_of_app; [|done]. apply IH; [done..| |done].
  rewrite <-Hp, Hpc. inversion Hlive as [Hin E|]; [|done]. rewrite E in Hr. lia.
Qed.

(** In such a chain the later blocks are below the earlier ones. *)
Lemma linked_below t l l' : tree_ok t -> linked (commit_root_id t) (l ++ l') -> Forall faithful (l ++ l') ->
  live t (end_of (commit_root_id t) (l ++ l')) ->
  below t (end_of (commit_root_id t) l) (end_of (commit_root_id t) (l ++ l')).
Proof using Type.
  intros Hok. induction l' as [|c l' IH] using rev_ind.
  { rewrite app_nil_r. intros _ _ Hl. apply below_refl. by eapply below_in. }
  rewrite app_assoc, end_of_snoc. intros Hl Hf Hlive. pose proof Hl as [Hl' Hp]%linked_snoc.
  pose proof Hf as [Hf' [[Hpc _ _ _] _]%Forall_cons]%Forall_app. apply below_child; [by eapply below_in|].
  rewrite <-Hpc, Hp. apply IH; [done..|]. destruct (last (l ++ l')) as [b|] eqn:Eb.
  - unfold end_of. rewrite Eb. eapply (linked_live t ((l ++ l') ++ [c])); [done|done|done|by rewrite end_of_snoc|].
    apply elem_of_app. left. by apply last_Some_elem_of.
  - unfold end_of. rewrite Eb. by apply below_refl, Hok.
Qed.
End theory.
