(* ===== verification/Recovery.v ===== *)
(** * Consensus storage and recovery

    Model of [consensus/src/consensusdb/mod.rs] and
    [consensus/src/persistent_liveness_storage.rs]: the database of the blocks and
    certificates that are not committed yet, finding the root to restart from, and
    dropping what does not descend from it.

    A column family is a map by its key; serialization of the single entries with
    BCS is left out, and writing to the database succeeds.  Sets are lists without
    duplicates. *)

From S2P Require Import Prelude Collections Merkle InMemoryAccumulator BitVec ValidatorVerifier LedgerInfo.
From S2P Require Import TrustedState AccumulatorProofs QuorumCert Timeout2Chain ConsensusBlock.

(** ** The database *)
Module ConsensusDB.
Section definitions.
Context `{CryptoTypes} `{!Transactions}.

Record t := mk {
  last_vote : option Vote.t;
  highest_2chain_timeout_certificate : option TwoChainTimeoutCertificate.t;
  blocks : list (HashValue * Block.t);
  quorum_certs : list (HashValue * QuorumCert.t);
}.

Definition empty : t := mk None None [] [].

Abbreviation M := (action t string).

Definition get_data (self : t) :
    option Vote.t * option TwoChainTimeoutCertificate.t * list Block.t * list QuorumCert.t :=
  (last_vote self, highest_2chain_timeout_certificate self, (blocks self).*2, (quorum_certs self).*2).

Definition save_highest_2chain_timeout_certificate (tc : TwoChainTimeoutCertificate.t) : M unit :=
  modify (fun self => mk (last_vote self) (Some tc) (blocks self) (quorum_certs self)).

Definition save_vote (vote : Vote.t) : M unit :=
  modify (fun self => mk (Some vote) (highest_2chain_timeout_certificate self) (blocks self) (quorum_certs self)).

Definition put_blocks (m : list (HashValue * Block.t)) (block_data : list Block.t) : list (HashValue * Block.t) :=
  foldl (fun m block => HashMap.insert m (Block.id block) block) m block_data.
Definition put_quorum_certs (m : list (HashValue * QuorumCert.t)) (qc_data : list QuorumCert.t) :
    list (HashValue * QuorumCert.t) :=
  foldl (fun m qc => HashMap.insert m (BlockInfo.id (QuorumCert.certified_block qc)) qc) m qc_data.

Definition save_blocks_and_quorum_certificates (block_data : list Block.t) (qc_data : list QuorumCert.t) : M unit :=
  match block_data, qc_data with
  | [], [] => lift (Err "Consensus block and qc data is empty!"%string)
  | _, _ => modify (fun self =>
      mk (last_vote self) (highest_2chain_timeout_certificate self) (put_blocks (blocks self) block_data)
        (put_quorum_certs (quorum_certs self) qc_data))
  end.

Definition delete_blocks_and_quorum_certificates (block_ids : list HashValue) : M unit :=
  match block_ids with
  | [] => lift (Err "Consensus block ids is empty!"%string)
  | _ => modify (fun self =>
      mk (last_vote self) (highest_2chain_timeout_certificate self) (foldl HashMap.remove (blocks self) block_ids)
        (foldl HashMap.remove (quorum_certs self) block_ids))
  end.

Definition delete_highest_2chain_timeout_certificate : M unit :=
  modify (fun self => mk (last_vote self) None (blocks self) (quorum_certs self)).

Definition delete_last_vote_msg : M unit :=
  modify (fun self => mk None (highest_2chain_timeout_certificate self) (blocks self) (quorum_certs self)).
End definitions.
End ConsensusDB.

(** ** What a validator restarts from *)
Module RootInfo.
Section definitions.
Context `{CryptoTypes} `{!Transactions}.

Record t := mk {
  block : Block.t;
  quorum_cert : QuorumCert.t;
  ordered_cert : QuorumCert.t;
  commit_cert : QuorumCert.t;
}.
End definitions.
End RootInfo.

Module RootMetadata.
Section definitions.
Context `{CryptoTypes}.

Record t := mk {
  accu_hash : HashValue;
  frozen_root_hashes : list HashValue;
  num_leaves : Z;
}.

Definition version (self : t) : Z := Z.max (num_leaves self) 1 - 1.

Definition from (summary : TransactionAccumulatorSummary.t) : t :=
  let accumulator := TransactionAccumulatorSummary.accumulator summary in
  mk (InMemoryAccumulator.root_hash accumulator) (InMemoryAccumulator.frozen_subtree_roots accumulator)
    (InMemoryAccumulator.num_leaves accumulator).
End definitions.
End RootMetadata.

Module LedgerRecoveryData.
Section definitions.
Context `{CryptoTypes} `{!Transactions} `{!CryptoHash BlockData.t} `{!CryptoHash VoteData.t}.

Record t := new { storage_ledger : LedgerInfoWithSignatures.t }.

Definition committed_round (self : t) : Z :=
  BlockInfo.round (LedgerInfoWithSignatures.commit_info (storage_ledger self)).

(** The order of [(epoch, round)]. *)
Definition key_le (b b' : Block.t) : bool :=
  (Block.epoch b <? Block.epoch b') ||
  (Block.epoch b =? Block.epoch b') && (Block.round b <=? Block.round b').

Definition sort_by_key (blocks : list Block.t) : list Block.t := sort_by key_le blocks.

(** [position] and [remove]. *)
Fixpoint take_block (id : HashValue) (blocks : list Block.t) : option (Block.t * list Block.t) :=
  match blocks with
  | [] => None
  | block :: blocks =>
      if bool_decide (Block.id block = id) then Some (block, blocks)
      else '(root, blocks) ← take_block id blocks; Some (root, block :: blocks)
  end.

(** The block to start from: the last committed one, or a virtual genesis block
    after the end of an epoch, with the blocks and certificates to look it up in. *)
Definition starting_point (self : t) (blocks : list Block.t) (quorum_certs : list QuorumCert.t) :
    result (HashValue * LedgerInfoWithSignatures.t * list Block.t * list QuorumCert.t) :=
  let ledger_info := LedgerInfoWithSignatures.ledger_info (storage_ledger self) in
  if LedgerInfo.ends_epoch ledger_info then
    genesis ← Block.make_genesis_block_from_ledger_info ledger_info;
    genesis_qc ← QuorumCert.certificate_for_genesis_from_ledger_info ledger_info (Block.id genesis);
    Ok (Block.id genesis, QuorumCert.ledger_info genesis_qc, blocks ++ [genesis], quorum_certs ++ [genesis_qc])
  else Ok (LedgerInfo.consensus_block_id ledger_info, storage_ledger self, blocks, quorum_certs).

(** [find_root], with the blocks and certificates it leaves. *)
Definition find_root (self : t) (blocks : list Block.t) (quorum_certs : list QuorumCert.t) :
    result (RootInfo.t * list Block.t * list QuorumCert.t) :=
  '(root_id, latest_ledger_info_sig, blocks, quorum_certs) ← starting_point self blocks quorum_certs;
  let blocks := sort_by_key blocks in
  '(root_block, blocks) ← ok_or (take_block root_id blocks) "unable to find root"%string;
  root_quorum_cert ← ok_or
    (List.find (fun qc => bool_decide (BlockInfo.id (QuorumCert.certified_block qc) = Block.id root_block)) quorum_certs)
    "No QC found for root"%string;
  root_ordered_cert ← ok_or
    (List.find (fun qc => bool_decide (BlockInfo.id (QuorumCert.commit_info qc) = Block.id root_block)) quorum_certs)
    "No LI found for root"%string;
  root_commit_cert ← unwrap
    (QuorumCert.create_merged_with_executed_state root_ordered_cert latest_ledger_info_sig);
  Ok (RootInfo.mk root_block root_quorum_cert root_ordered_cert root_commit_cert, blocks, quorum_certs).
End definitions.
End LedgerRecoveryData.

Module RecoveryData.
Section definitions.
Context `{CryptoTypes} `{!Transactions} `{!CryptoHash BlockData.t} `{!CryptoHash VoteData.t}.

Record t := mk {
  last_vote : option Vote.t;
  root : RootInfo.t;
  root_metadata : RootMetadata.t;
  blocks : list Block.t;
  quorum_certs : list QuorumCert.t;
  blocks_to_prune : option (list HashValue);
  highest_2chain_timeout_certificate : option TwoChainTimeoutCertificate.t;
}.

(** [HashSet::insert]. *)
Definition set_insert (s : list HashValue) (x : HashValue) : list HashValue :=
  if bool_decide (x ∈ s) then s else s ++ [x].

(** The two [retain]s. *)
Fixpoint retain_blocks (tree to_remove : list HashValue) (blocks : list Block.t) :
    list Block.t * list HashValue * list HashValue :=
  match blocks with
  | [] => ([], tree, to_remove)
  | block :: blocks =>
      if bool_decide (Block.parent_id block ∈ tree) then
        let '(kept, tree, to_remove) := retain_blocks (set_insert tree (Block.id block)) to_remove blocks in
        (block :: kept, tree, to_remove)
      else retain_blocks tree (set_insert to_remove (Block.id block)) blocks
  end.
Fixpoint retain_quorum_certs (tree to_remove : list HashValue) (quorum_certs : list QuorumCert.t) :
    list QuorumCert.t * list HashValue :=
  match quorum_certs with
  | [] => ([], to_remove)
  | qc :: quorum_certs =>
      let id := BlockInfo.id (QuorumCert.certified_block qc) in
      if bool_decide (id ∈ tree) then
        let '(kept, to_remove) := retain_quorum_certs tree to_remove quorum_certs in (qc :: kept, to_remove)
      else retain_quorum_certs tree (set_insert to_remove id) quorum_certs
  end.

(** [find_blocks_to_prune], with the blocks and certificates it leaves. *)
Definition find_blocks_to_prune (root_id : HashValue) (blocks : list Block.t) (quorum_certs : list QuorumCert.t) :
    list HashValue * list Block.t * list QuorumCert.t :=
  let '(blocks, tree, to_remove) := retain_blocks [root_id] [] blocks in
  let '(quorum_certs, to_remove) := retain_quorum_certs tree to_remove quorum_certs in
  (to_remove, blocks, quorum_certs).

Definition new (last_vote : option Vote.t) (ledger_recovery_data : LedgerRecoveryData.t) (blocks : list Block.t)
    (root_metadata : RootMetadata.t) (quorum_certs : list QuorumCert.t)
    (highest_2chain_timeout_cert : option TwoChainTimeoutCertificate.t) : result t :=
  '(root, blocks, quorum_certs) ← LedgerRecoveryData.find_root ledger_recovery_data blocks quorum_certs;
  let '(blocks_to_prune, blocks, quorum_certs) :=
    find_blocks_to_prune (Block.id (RootInfo.block root)) blocks quorum_certs in
  let epoch := Block.epoch (RootInfo.block root) in
  Ok (mk match last_vote with
         | Some v => if Vote.epoch v =? epoch then Some v else None
         | None => None
         end
        root root_metadata blocks quorum_certs (Some blocks_to_prune)
        match highest_2chain_timeout_cert with
        | Some tc => if TwoChainTimeoutCertificate.epoch tc =? epoch then Some tc else None
        | None => None
        end).

Definition take_blocks_to_prune (self : t) : result (list HashValue * t) :=
  ids ← expect (blocks_to_prune self);
  Ok (ids, mk (last_vote self) (root self) (root_metadata self) (blocks self) (quorum_certs self) None
             (highest_2chain_timeout_certificate self)).
End definitions.
End RecoveryData.

(** ** The storage proxy

    [aptos_db] is another component: the proxy reads the latest ledger info and the
    summary of the accumulator from it.  State synchronization changes it; [synced_to]
    is what is read from then on. *)
Inductive LivenessStorageData `{CryptoTypes} `{!Transactions} :=
  | FullRecoveryData (data : RecoveryData.t)
  | PartialRecoveryData (data : LedgerRecoveryData.t).

Module StorageWriteProxy.
Section definitions.
Context `{CryptoTypes} `{!Transactions} `{!CryptoHash BlockData.t} `{!CryptoHash VoteData.t}.

Record t := mk {
  db : ConsensusDB.t;
  get_latest_ledger_info : result LedgerInfoWithSignatures.t;
  get_accumulator_summary : Z -> result (TransactionAccumulatorSummary.t);
  synced_to : LedgerInfoWithSignatures.t ->
    result LedgerInfoWithSignatures.t * (Z -> result TransactionAccumulatorSummary.t);
}.

Definition set_db (self : t) (db : ConsensusDB.t) : t :=
  mk db (get_latest_ledger_info self) (get_accumulator_summary self) (synced_to self).
(** The proxy after the ledger was synchronized. *)
Definition after_sync (target : LedgerInfoWithSignatures.t) (self : t) : t :=
  mk (db self) (synced_to self target).1 (synced_to self target).2 (synced_to self).

Abbreviation M := (action t string).

Definition save_tree (blocks : list Block.t) (quorum_certs : list QuorumCert.t) : M unit :=
  zoom db set_db (ConsensusDB.save_blocks_and_quorum_certificates blocks quorum_certs).

Definition prune_tree (block_ids : list HashValue) : M unit :=
  match block_ids with
  | [] => mret tt
  | _ => zoom db set_db (ConsensusDB.delete_blocks_and_quorum_certificates block_ids)
  end.

Definition save_vote (vote : Vote.t) : M unit := zoom db set_db (ConsensusDB.save_vote vote).

Definition recover_from_ledger : M LedgerRecoveryData.t :=
  self ← gets (fun self => self);
  latest_ledger_info ← lift (unwrap (get_latest_ledger_info self));
  mret (LedgerRecoveryData.new latest_ledger_info).

(** [expect] on a result of an action. *)
Definition must {A} (m : M A) : M A := catch m (fun o => lift (unwrap o)).

Definition start : M LivenessStorageData :=
  self ← gets (fun self => self);
  let '(last_vote, highest_2chain_timeout_cert, blocks, quorum_certs) := ConsensusDB.get_data (db self) in
  latest_ledger_info ← lift (unwrap (get_latest_ledger_info self));
  accumulator_summary ← lift (unwrap (get_accumulator_summary self
    (LedgerInfo.version (LedgerInfoWithSignatures.ledger_info latest_ledger_info))));
  let ledger_recovery_data := LedgerRecoveryData.new latest_ledger_info in
  match RecoveryData.new last_vote ledger_recovery_data blocks (RootMetadata.from accumulator_summary)
          quorum_certs highest_2chain_timeout_cert with
  | Ok initial_data =>
      '(ids, initial_data) ← lift (RecoveryData.take_blocks_to_prune initial_data);
      must (prune_tree ids);;
      (match RecoveryData.last_vote initial_data with
       | None => zoom db set_db ConsensusDB.delete_last_vote_msg
       | Some _ => mret tt
       end);;
      (match RecoveryData.highest_2chain_timeout_certificate initial_data with
       | None => zoom db set_db ConsensusDB.delete_highest_2chain_timeout_certificate
       | Some _ => mret tt
       end);;
      mret (FullRecoveryData initial_data)
  | Err _ => mret (PartialRecoveryData ledger_recovery_data)
  | Panic => lift Panic
  end.

Definition save_highest_2chain_timeout_cert (highest_timeout_cert : TwoChainTimeoutCertificate.t) : M unit :=
  zoom db set_db (ConsensusDB.save_highest_2chain_timeout_certificate highest_timeout_cert).
End definitions.
End StorageWriteProxy.

(** ** The blocks that are recovered *)
Section theory.
Context `{CryptoTypes} `{!Transactions} `{!CryptoHash BlockData.t} `{!CryptoHash VoteData.t}.
Implicit Types (b : Block.t) (bs : list Block.t) (r : HashValue).
Import RecoveryData.

(** [r] and the blocks of [bs] that follow it. *)
Inductive descends bs r : HashValue -> Prop :=
  | descends_root : descends bs r r
  | descends_block b : b ∈ bs -> descends bs r (Block.parent_id b) -> descends bs r (Block.id b).

(** Every block comes after its parent, which is one of [tree] or before it. *)
Fixpoint topological (tree : list HashValue) bs : Prop :=
  match bs with
  | [] => True
  | b :: bs => Block.parent_id b ∈ tree /\ topological (Block.id b :: tree) bs
  end.
(** No block comes before its parent. *)
Fixpoint parents_first bs : Prop :=
  match bs with
  | [] => True
  | b :: bs => (forall b', b' ∈ b :: bs -> Block.id b' <> Block.parent_id b) /\ parents_first bs
  end.

Lemma topological_mono tree tree' bs : (forall x, x ∈ tree -> x ∈ tree') -> topological tree bs -> topological tree' bs.
Proof using Type.
  revert tree tree'. induction bs as [|b bs IH]; intros tree tree' Hs; [done|]. cbn. intros [Hp Ht]. split; [auto|].
  eapply IH; [|done]. intros x. rewrite !elem_of_cons. intros [->|?]; auto.
Qed.

Lemma elem_of_set_insert s x y : y ∈ set_insert s x <-> y = x \/ y ∈ s.
Proof using Type.
  unfold set_insert. case_bool_decide; [|rewrite elem_of_app, list_elem_of_singleton]; intuition congruence.
Qed.

(** What [retain_blocks] gives. *)
Record retained (tree rem : list HashValue) bs kept (tree' rem' : list HashValue) : Prop := {
  retained_in b : b ∈ kept -> b ∈ bs;
  retained_tree x : x ∈ tree' <-> x ∈ tree \/ exists b, b ∈ kept /\ Block.id b = x;
  retained_order : topological tree kept;
  retained_all b : b ∈ bs -> Block.parent_id b ∈ tree' -> b ∈ kept;
  retained_removed x : x ∈ rem' <-> x ∈ rem \/ exists b, b ∈ bs /\ Block.parent_id b ∉ tree' /\ Block.id b = x;
  retained_once : NoDup (Block.id <$> bs) -> NoDup (Block.id <$> kept);
}.

Lemma retain_blocks_spec tree rem bs kept tree' rem' : parents_first bs ->
  retain_blocks tree rem bs = (kept, tree', rem') -> retained tree rem bs kept tree' rem'.
Proof using Type.
  revert tree rem kept. induction bs as [|b bs IH]; intros tree rem kept; cbn [retain_blocks parents_first].
  { intros _ [= <- <- <-]. split; [done|..|done].
    - intros x. split; [by left|]. by intros [?|(? & ?%elem_of_nil & _)].
    - done.
    - by intros b ?%elem_of_nil.
    - intros x. split; [by left|]. by intros [?|(? & ?%elem_of_nil & _)]. }
  intros [Hfirst Hbs]. case_bool_decide as Hp.
  - destruct (retain_blocks (set_insert tree (Block.id b)) rem bs) as [[k t1] r1] eqn:E. intros [= <- <- <-].
    destruct (IH _ _ _ Hbs E) as [Hin Htree Hord Hall Hrem Hnd].
    assert (Block.parent_id b ∈ t1) as Hp1 by (rewrite Htree, elem_of_set_insert; auto). split.
    + intros b'. rewrite !elem_of_cons. intros [->|?]; auto.
    + intros x. rewrite Htree, elem_of_set_insert. split.
      * intros [[->|?]|(b' & ? & ?)]; [right; exists b|auto|right; exists b']; rewrite elem_of_cons; auto.
      * intros [?|(b' & [->|?]%elem_of_cons & <-)]; [auto..|]. right. by exists b'.
    + cbn. split; [done|]. eapply topological_mono; [|done]. intros x. by rewrite elem_of_set_insert, elem_of_cons.
    + intros b'. rewrite !elem_of_cons. intros [->|?]; auto.
    + intros x. rewrite Hrem. split; (intros [?|(b' & Hb' & Hn & <-)]; [auto|right; exists b']);
        rewrite ?elem_of_cons in *; [auto|]. by destruct Hb' as [->|?].
    + cbn. rewrite !NoDup_cons. intros [Hni ?]. split; [|auto]. intros (b' & E' & Hb')%list_elem_of_fmap. apply Hni.
      apply list_elem_of_fmap. eauto.
  - intros E. destruct (IH _ _ _ Hbs E) as [Hin Htree Hord Hall Hrem Hnd].
    assert (Block.parent_id b ∉ tree') as Hp1.
    { rewrite Htree. intros [?|(b' & Hb' & Hid)]; [done|]. apply (Hfirst b'); [right; auto|done]. }
    split.
    + intros b' ?. right. auto.
    + done.
    + done.
    + intros b' [->|?]%elem_of_cons ?; [done|auto].
    + intros x. rewrite Hrem, elem_of_set_insert. split.
      * intros [[->|?]|(b' & ? & ? & <-)]; [right; exists b|auto|right; exists b']; rewrite elem_of_cons; auto.
      * intros [?|(b' & [->|?]%elem_of_cons & ? & <-)]; [auto..|]. right. by exists b'.
    + cbn. rewrite NoDup_cons. intros [_ ?]. auto.
Qed.

Lemma retain_quorum_certs_spec tree rem qcs kept rem' : retain_quorum_certs tree rem qcs = (kept, rem') ->
  (forall qc, qc ∈ kept <-> qc ∈ qcs /\ BlockInfo.id (QuorumCert.certified_block qc) ∈ tree) /\
  (forall x, x ∈ rem' <-> x ∈ rem \/
     exists qc, qc ∈ qcs /\ x ∉ tree /\ BlockInfo.id (QuorumCert.certified_block qc) = x).
Proof using Type.
  revert rem kept. induction qcs as [|qc qcs IH]; intros rem kept; cbn [retain_quorum_certs].
  { intros [= <- <-]. split; intros x; rewrite ?elem_of_nil; [tauto|]. split; [by left|].
    by intros [?|(? & ?%elem_of_nil & _)]. }
  case_bool_decide as Hq.
  - destruct (retain_quorum_certs tree rem qcs) as [k r1] eqn:E. intros [= <- <-]. destruct (IH _ _ E) as [Hk Hr].
    split; intros x; [rewrite !elem_of_cons, Hk; split; [intros [->|[? ?]]; auto|intros [[->|?] ?]; auto]|].
    rewrite Hr. split; (intros [?|(qc' & Hin & Hn & <-)]; [auto|right; exists qc']); rewrite ?elem_of_cons in *; [auto|].
    by destruct Hin as [->|?].
  - intros E. destruct (IH _ _ E) as [Hk Hr].
    split; intros x; [rewrite elem_of_cons, Hk; split; [intros [? ?]; auto|by intros [[->|?] ?]; auto]|].
    rewrite Hr, elem_of_set_insert. split.
    + intros [[->|?]|(qc' & ? & ? & <-)]; [right; exists qc|auto|right; exists qc']; rewrite elem_of_cons; auto.
    + intros [?|(qc' & [->|?]%elem_of_cons & ? & <-)]; [auto..|]. right. by exists qc'.
Qed.

(** The kept blocks are those that descend from the root. *)
Lemma retained_descends r bs kept tree' rem' : retained [r] [] bs kept tree' rem' ->
  (forall x, x ∈ tree' <-> descends bs r x) /\ (forall b, b ∈ kept <-> b ∈ bs /\ descends bs r (Block.parent_id b)).
Proof using Type.
  intros [Hin Htree Hord Hall Hrem _].
  assert (forall x, descends bs r x -> x ∈ tree') as Hd.
  { induction 1 as [|b Hb Hd IH]; apply Htree; [left; by apply list_elem_of_singleton|]. right. exists b. auto. }
  assert (forall tree l, topological tree l -> (forall x, x ∈ tree -> descends bs r x) -> (forall b, b ∈ l -> b ∈ bs) ->
    forall b, b ∈ l -> descends bs r (Block.parent_id b)) as Ht.
  { intros tree l. revert tree. induction l as [|c l IH]; intros tree Hl Htr Hsub b; [by intros ?%elem_of_nil|].
    destruct Hl as [Hc Hl]. intros [->|Hb]%elem_of_cons; [auto|]. eapply (IH (Block.id c :: tree)); [done| |set_solver|done].
    intros x [->|?]%elem_of_cons; [|auto]. apply descends_block; [apply Hsub; left|auto]. }
  assert (forall b, b ∈ kept -> descends bs r (Block.parent_id b)) as Hk.
  { apply (Ht [r]); [done| |done]. intros x ->%list_elem_of_singleton. constructor. }
  split.
  - intros x. split; [|auto]. rewrite Htree. intros [->%list_elem_of_singleton|(b & Hb & <-)]; [constructor|].
    apply descends_block; auto.
  - intros b. split; [intros Hb; auto|]. intros [? ?]. auto.
Qed.

Lemma key_le_total b b' : LedgerRecoveryData.key_le b b' = false -> LedgerRecoveryData.key_le b' b = true.
Proof using Type. unfold LedgerRecoveryData.key_le. zbool. lia. Qed.
Lemma key_le_trans b b' c : LedgerRecoveryData.key_le b b' = true -> LedgerRecoveryData.key_le b' c = true ->
  LedgerRecoveryData.key_le b c = true.
Proof using Type. unfold LedgerRecoveryData.key_le. zbool. lia. Qed.

Lemma take_block_spec i bs b bs' : LedgerRecoveryData.take_block i bs = Some (b, bs') ->
  Block.id b = i /\ exists l1 l2, bs = l1 ++ b :: l2 /\ bs' = l1 ++ l2.
Proof using Type.
  revert bs'. induction bs as [|c bs IH]; intros bs'; cbn [LedgerRecoveryData.take_block]; [done|].
  case_bool_decide as E; [intros [= <- <-]; split; [done|]; by exists [], bs|].
  destruct (LedgerRecoveryData.take_block i bs) as [[root l]|]; [|done]. intros [= <- <-].
  destruct (IH _ eq_refl) as (Hid & l1 & l2 & -> & ->). split; [done|]. by exists (c :: l1), l2.
Qed.

(** Blocks sorted by epoch and round come after their parents. *)
Lemma sorted_parents_first bs : StronglySorted (fun b b' => LedgerRecoveryData.key_le b b' = true) bs ->
  (forall b b', b ∈ bs -> b' ∈ bs -> Block.id b' = Block.parent_id b -> LedgerRecoveryData.key_le b b' = false) ->
  parents_first bs.
Proof using Type.
  induction 1 as [|b bs Hs IH Hb]; intros Hlt; [done|]. cbn. split; [|apply IH; intros; apply Hlt; [by right..|done]].
  intros b' Hb' Hid. assert (LedgerRecoveryData.key_le b b' = false) as Hf by (apply Hlt; [left|done|done]).
  apply elem_of_cons in Hb' as [->|Hb']; [|rewrite Forall_forall in Hb; rewrite Hb in Hf by done; done].
  revert Hf. unfold LedgerRecoveryData.key_le. zbool. lia.
Qed.

(** What [find_root] gives. *)
Lemma find_root_spec self bs qcs root others certs : LedgerRecoveryData.find_root self bs qcs = Ok (root, others, certs) ->
  exists li all, LedgerRecoveryData.starting_point self bs qcs = Ok (Block.id (RootInfo.block root), li, all, certs) /\
    all ≡ₚ RootInfo.block root :: others /\
    (exists l1 l2, LedgerRecoveryData.sort_by_key all = l1 ++ RootInfo.block root :: l2 /\ others = l1 ++ l2) /\
    (RootInfo.quorum_cert root ∈ certs /\
     BlockInfo.id (QuorumCert.certified_block (RootInfo.quorum_cert root)) = Block.id (RootInfo.block root)) /\
    (RootInfo.ordered_cert root ∈ certs /\
     BlockInfo.id (QuorumCert.commit_info (RootInfo.ordered_cert root)) = Block.id (RootInfo.block root)) /\
    QuorumCert.create_merged_with_executed_state (RootInfo.ordered_cert root) li = Ok (RootInfo.commit_cert root).
Proof using Type.
  intros Hf. unfold LedgerRecoveryData.find_root in Hf. apply bind_Ok in Hf as ([[[i li] all] cs] & Hs & Hf).
  apply bind_Ok in Hf as ([b rest] & Hb & Hf). apply bind_Ok in Hf as (qc & Hq & Hf). apply bind_Ok in Hf as (oc & Ho & Hf).
  apply bind_Ok in Hf as (cc & Hc & Hf). injection Hf as <- <- <-. cbn.
  unfold ok_or in Hb, Hq, Ho. destruct (LedgerRecoveryData.take_block _ _) as [[? ?]|] eqn:Eb; [|done]. injection Hb as <- <-.
  destruct (List.find _ _) as [?|] eqn:Eq in Hq; [|done]. injection Hq as <-. destruct (List.find _ _) as [?|] eqn:Eo in Ho; [|done].
  injection Ho as <-. apply find_some in Eq as [Hqi Hqe%bool_decide_eq_true_1]. apply find_some in Eo as [Hoi Hoe%bool_decide_eq_true_1].
  apply take_block_spec in Eb as (<- & l1 & l2 & El & ->). exists li, all. split_and!; [done| |by exists l1, l2|by apply list_elem_of_In|done|by apply list_elem_of_In|done|].
  - rewrite <-(sort_by_perm LedgerRecoveryData.key_le all). unfold LedgerRecoveryData.sort_by_key in El. rewrite El. solve_Permutation.
  - by destruct (QuorumCert.create_merged_with_executed_state _ _).
Qed.

Lemma NoDup_id_inj bs b b' : NoDup (Block.id <$> bs) -> b ∈ bs -> b' ∈ bs -> Block.id b = Block.id b' -> b = b'.
Proof using Type.
  intros Hnd Hb Hb' E. apply list_elem_of_lookup in Hb as [i Hi]. apply list_elem_of_lookup in Hb' as [j Hj].
  assert (i = j) as <-; [|congruence]. eapply (NoDup_lookup _ i j (Block.id b)); [done|..]; rewrite list_lookup_fmap.
  - by rewrite Hi.
  - by rewrite Hj, E.
Qed.

Lemma recovery_spec vote self bs meta qcs tc d li all certs root_id :
  RecoveryData.new vote self bs meta qcs tc = Ok d ->
  LedgerRecoveryData.starting_point self bs qcs = Ok (root_id, li, all, certs) ->
  NoDup (Block.id <$> all) ->
  (forall b b', b ∈ all -> b' ∈ all -> Block.id b' = Block.parent_id b -> LedgerRecoveryData.key_le b b' = false) ->
  Block.id (RootInfo.block (root d)) = root_id /\ RootInfo.block (root d) ∈ all /\
  topological [root_id] (blocks d) /\
  (forall b, b ∈ blocks d <-> b ∈ all /\ Block.id b <> root_id /\ descends all root_id (Block.parent_id b)) /\
  (forall qc, qc ∈ quorum_certs d <->
     qc ∈ certs /\ descends all root_id (BlockInfo.id (QuorumCert.certified_block qc))) /\
  (forall x, x ∈ default [] (blocks_to_prune d) -> ~ descends all root_id x) /\
  NoDup (Block.id <$> blocks d) /\ BlockInfo.id (QuorumCert.commit_info (RootInfo.ordered_cert (root d))) = root_id.
Proof using Type.
  intros Hd Hstart Hnd Hlt. unfold RecoveryData.new in Hd. apply bind_Ok in Hd as ([[rt others] cs] & Hf & Hd).
  apply find_root_spec in Hf as (li' & all' & Hs' & Hperm & (l1 & l2 & Esort & ->) & _ & [_ Hoc] & _).
  rewrite Hstart in Hs'. injection Hs' as -> <- <- <-. set (rb := RootInfo.block rt) in *.
  destruct (find_blocks_to_prune _ _ _) as [[rem kept] kqcs] eqn:Ef. injection Hd as <-. cbn. fold rb.
  unfold find_blocks_to_prune in Ef. destruct (retain_blocks _ _ _) as [[k tree'] rem1] eqn:Er.
  destruct (retain_quorum_certs _ _ _) as [kq rem2] eqn:Eq in Ef. injection Ef as <- <- <-.
  assert (forall b, b ∈ all <-> b = rb \/ b ∈ l1 ++ l2) as Hall by (intros b; by rewrite Hperm, elem_of_cons).
  rewrite Hperm, fmap_cons, NoDup_cons in Hnd. destruct Hnd as [Hrb Hnd].
  assert (parents_first (l1 ++ l2)) as Hpf.
  { apply sorted_parents_first; [|intros; apply Hlt; rewrite ?Hall; auto].
    pose proof (sort_by_sorted _ all key_le_total key_le_trans) as Hs. unfold LedgerRecoveryData.sort_by_key in Esort.
    rewrite Esort in Hs. by apply StronglySorted_middle in Hs. }
  pose proof (retain_blocks_spec _ _ _ _ _ _ Hpf Er) as Hret. destruct (retained_descends _ _ _ _ _ Hret) as [Htree Hkept].
  assert (forall x, descends (l1 ++ l2) (Block.id rb) x <-> descends all (Block.id rb) x) as Hde.
  { intros x. split; (induction 1 as [|b Hb Hd IH]; [constructor|]); [apply descends_block; [apply Hall; auto|done]|].
    apply Hall in Hb as [->|Hb]; [constructor|by apply descends_block]. }
  destruct (retain_quorum_certs_spec _ _ _ _ _ Eq) as [Hq Hr].
  assert (forall b, b ∈ l1 ++ l2 -> Block.id b <> Block.id rb) as Hne.
  { intros b Hb E. apply Hrb. rewrite <-E. by apply list_elem_of_fmap_2. }
  split_and!; [done|apply Hall; by left|apply Hret|..].
  - intros b. rewrite Hkept, Hde, Hall. split; [intros [? ?]; auto|]. intros ([->|?] & ? & ?); done.
  - intros qc. by rewrite Hq, Htree, Hde.
  - intros x. rewrite Hr, (retained_removed _ _ _ _ _ _ Hret), <-Hde, <-Htree.
    intros [[?%elem_of_nil|(b & Hb & Hn & <-)]|(qc & _ & ? & _)]; [done| |done].
    rewrite (retained_tree _ _ _ _ _ _ Hret), list_elem_of_singleton. intros [?|(b' & Hb' & E)]; [by eapply Hne|].
    apply Hkept in Hb' as [Hb' Hd']. assert (b' = b) as -> by (by eapply NoDup_id_inj). apply Hn. by apply Htree.
  - by apply Hret.
  - done.
Qed.

(** C22: restarting, a validator takes the last committed block of the ledger (or
    the virtual genesis block of the next epoch) as the root, recovers exactly the
    stored blocks that descend from it, each after its parent, with the certificates
    for them, and prunes nothing that descends from the root. *)
Theorem recovered_blocks vote self bs meta qcs tc d li all certs root_id :
  RecoveryData.new vote self bs meta qcs tc = Ok d ->
  LedgerRecoveryData.starting_point self bs qcs = Ok (root_id, li, all, certs) ->
  NoDup (Block.id <$> all) ->
  (forall b b', b ∈ all -> b' ∈ all -> Block.id b' = Block.parent_id b -> LedgerRecoveryData.key_le b b' = false) ->
  Block.id (RootInfo.block (root d)) = root_id /\ RootInfo.block (root d) ∈ all /\
  topological [root_id] (blocks d) /\
  (forall b, b ∈ blocks d <-> b ∈ all /\ Block.id b <> root_id /\ descends all root_id (Block.parent_id b)) /\
  (forall qc, qc ∈ quorum_certs d <->
     qc ∈ certs /\ descends all root_id (BlockInfo.id (QuorumCert.certified_block qc))) /\
  (forall x, x ∈ default [] (blocks_to_prune d) -> ~ descends all root_id x).
Proof using Type.
  intros Hd Hs Hnd Hlt. destruct (recovery_spec _ _ _ _ _ _ _ _ _ _ _ Hd Hs Hnd Hlt) as (? & ? & ? & ? & ? & ? & _). done.
Qed.
End theory.
