(* ===== verification/BlockStore.v ===== *)
(** * The block store

    Model of [consensus/src/block_storage/block_store.rs], which executes blocks and
    inserts them into the block tree, inserts certificates, and hands the blocks a
    certificate orders to the state computer.

    The state computer and the persistent storage are interfaces.  As in the
    decoupled pipeline, the callback a commit registers is invoked later, in the
    order of the commits: it is a call of its own. *)

From S2P Require Import Prelude Collections Merkle InMemoryAccumulator BitVec ValidatorVerifier LedgerInfo.
From S2P Require Import TrustedState AccumulatorProofs QuorumCert Timeout2Chain ConsensusBlock ConsensusMessages.
From S2P Require Import ExecutedBlock BlockTree Recovery.

(** The errors of execution. *)
Inductive ExecutionError `{CryptoTypes} :=
  | BlockNotFound (block_id : HashValue)
  | DataNotFound (batch_id : HashValue)
  | BadNumTxnsToCommit (first_version to_commit target_version : Z)
  | InternalError (error : string)
  | SerializationError (error : string)
  | EmptyBlocks
  | CouldNotGetData.

(** [StateComputer].  [ordered] are the blocks the computer was sent, while it is
    [receiving]; [resets] says whether it can reset its pipeline, which is what it
    does first when it is told to synchronize. *)
Class StateComputer `{CryptoTypes} `{!Transactions} `{!ExecutionTypes} := {
  Computer : Type;
  compute : Block.t -> HashValue -> action Computer ExecutionError StateComputeResult.t;
  commit_ordered : list ExecutedBlock.t -> LedgerInfoWithSignatures.t -> action Computer ExecutionError unit;
  sync_to : LedgerInfoWithSignatures.t -> action Computer string unit;
  ordered : Computer -> list ExecutedBlock.t;
  receiving : Computer -> bool;
  resets : Computer -> bool;
}.

(** What the state computer promises: it keeps the blocks in the order they are sent,
    and has reset its pipeline when it has synchronized. *)
Class StateComputerLaws `{StateComputer} : Prop := {
  compute_ordered block parent c : ordered (compute block parent c).1 = ordered c /\
    receiving (compute block parent c).1 = receiving c;
  commit_ordered_ordered blocks li c c' : receiving c = true -> commit_ordered blocks li c = (c', Ok tt) ->
    ordered c' = ordered c ++ blocks /\ receiving c' = true;
  sync_to_ordered target c : ordered (sync_to target c).1 = ordered c /\ receiving (sync_to target c).1 = receiving c;
  sync_to_resets target c c' : sync_to target c = (c', Ok tt) -> resets c = true;
}.

(** [PersistentLivenessStorage].  [after_sync] is the storage after the state computer
    has synchronized the ledger, which they share. *)
Class LivenessStorage `{CryptoTypes} `{!Transactions} := {
  Storage : Type;
  save_tree : list Block.t -> list QuorumCert.t -> action Storage string unit;
  prune_tree : list HashValue -> action Storage string unit;
  save_highest_2chain_timeout_cert : TwoChainTimeoutCertificate.t -> action Storage string unit;
  start : action Storage string LivenessStorageData;
  after_sync : LedgerInfoWithSignatures.t -> Storage -> Storage;
}.

#[export] Instance storage_write_proxy `{CryptoTypes} `{!Transactions} `{!CryptoHash BlockData.t}
    `{!CryptoHash VoteData.t} `{!MerkleHasher HashValue} : LivenessStorage := {
  Storage := StorageWriteProxy.t;
  save_tree := StorageWriteProxy.save_tree;
  prune_tree := StorageWriteProxy.prune_tree;
  save_highest_2chain_timeout_cert := StorageWriteProxy.save_highest_2chain_timeout_cert;
  start := StorageWriteProxy.start;
  after_sync := StorageWriteProxy.after_sync;
}.

(** [OrderingStateComputer], which sends the blocks to the buffer manager through a
    channel: the batches sent, and whether they are received.  Synchronization is
    left to another computer. *)
Module OrderingStateComputer.
Section definitions.
Context `{CryptoTypes} `{!Transactions} `{!ExecutionTypes} `{!MerkleHasher HashValue}.

Record OrderedBlocks := ordered_batch {
  ordered_blocks : list ExecutedBlock.t;
  ordered_proof : LedgerInfoWithSignatures.t;
}.
Record t := mk {
  executor_channel : list OrderedBlocks;
  receiver : bool;
  reset_event_channel_tx : result unit;
  state_computer_for_sync : LedgerInfoWithSignatures.t -> result unit;
}.

Definition compute (block : Block.t) (parent_block_id : HashValue) :
    action t ExecutionError StateComputeResult.t :=
  mret StateComputeResult.new_dummy.

Definition commit (blocks : list ExecutedBlock.t) (finality_proof : LedgerInfoWithSignatures.t) :
    action t ExecutionError unit :=
  lift (assert (match blocks with [] => false | _ => true end));;
  modify (fun self =>
    if receiver self then
      mk (executor_channel self ++ [ordered_batch blocks finality_proof]) (receiver self)
        (reset_event_channel_tx self) (state_computer_for_sync self)
    else self).

Definition sync_to (target : LedgerInfoWithSignatures.t) : action t string unit :=
  self ← gets (fun self => self);
  lift (map_err (fun _ => "ResetDropped"%string) (reset_event_channel_tx self));;
  lift (state_computer_for_sync self target).

#[export] Instance ordering_state_computer : StateComputer := {
  Computer := t;
  BlockStore.compute := compute;
  commit_ordered := commit;
  BlockStore.sync_to := sync_to;
  ordered self := mjoin (ordered_blocks <$> executor_channel self);
  receiving := receiver;
  resets self := match reset_event_channel_tx self with Ok _ => true | _ => false end;
}.

#[export] Instance ordering_state_computer_laws : StateComputerLaws.
Proof using Type.
  split; [done| | |].
  - intros blocks li c c' Hr. cbn in *. unfold commit, mbind, action_bind, lift, modify.
    destruct blocks; [done|]. rewrite Hr. intros [= <-]. split; [|done]. cbn. rewrite fmap_app. cbn. rewrite join_app. cbn.
    by rewrite app_nil_r.
  - intros target c. cbn. unfold sync_to, gets, lift, mbind, action_bind. by destruct (map_err _ _).
  - intros target c c'. cbn. unfold sync_to, gets, lift, mbind, action_bind. by destruct (reset_event_channel_tx c).
Qed.
End definitions.
End OrderingStateComputer.

Module BlockStore.
Section definitions.
Context `{CryptoTypes} `{!Transactions} `{!ExecutionTypes} `{!MerkleHasher HashValue}
  `{!StateComputer} `{!LivenessStorage}.

Record t := mk {
  inner : BlockTree.t;
  state_computer : Computer;
  storage : Storage;
  callbacks : list (list ExecutedBlock.t * QuorumCert.t);
  vote_back_pressure_limit : Z;
}.

Definition set_inner (self : t) (tree : BlockTree.t) : t :=
  mk tree (state_computer self) (storage self) (callbacks self) (vote_back_pressure_limit self).
Definition set_state_computer (self : t) (c : Computer) : t :=
  mk (inner self) c (storage self) (callbacks self) (vote_back_pressure_limit self).
Definition set_storage (self : t) (s : Storage) : t :=
  mk (inner self) (state_computer self) s (callbacks self) (vote_back_pressure_limit self).
Definition set_callbacks (self : t) cs : t :=
  mk (inner self) (state_computer self) (storage self) cs (vote_back_pressure_limit self).

Abbreviation M := (action t string).

(** Methods of the tree, the storage and the computer. *)
Definition on_tree {A} (m : action BlockTree.t string A) : M A := zoom inner set_inner m.
Definition on_storage (m : action Storage string unit) (e : string) : M unit :=
  catch (zoom storage set_storage m) (fun o => lift (map_err (fun _ => e) o)).

Definition get_block (block_id : HashValue) : M (option ExecutedBlock.t) :=
  gets (fun self => BlockTree.get_block (inner self) block_id).
Definition ordered_root : M ExecutedBlock.t := self ← gets (fun self => self); lift (BlockTree.ordered_root (inner self)).
Definition commit_root : M ExecutedBlock.t := self ← gets (fun self => self); lift (BlockTree.commit_root (inner self)).
Definition path_from_ordered_root (block_id : HashValue) : M (option (list ExecutedBlock.t)) :=
  self ← gets (fun self => self); lift (BlockTree.path_from_ordered_root (inner self) block_id).
Definition sync_info (self : t) : SyncInfo.t :=
  SyncInfo.new_decoupled (BlockTree.highest_quorum_cert (inner self)) (BlockTree.highest_ordered_cert (inner self))
    (BlockTree.highest_commit_cert (inner self)) (BlockTree.highest_2chain_timeout_cert (inner self)).

Definition commit (finality_proof : QuorumCert.t) : M unit :=
  let block_id_to_commit := BlockInfo.id (QuorumCert.commit_info finality_proof) in
  found ← get_block block_id_to_commit;
  block_to_commit ← lift (ok_or found "Committed block id not found");
  root ← ordered_root;
  lift (ensure (ExecutedBlock.round root <? ExecutedBlock.round block_to_commit) "Committed block round lower than root");;
  path ← path_from_ordered_root block_id_to_commit;
  let blocks_to_commit := default [] path in
  lift (assert (match blocks_to_commit with [] => false | _ => true end));;
  catch (zoom state_computer set_state_computer
           (commit_ordered blocks_to_commit (QuorumCert.ledger_info finality_proof)))
    (fun o => lift (match o with Ok a => Ok a | _ => Panic end));;
  modify (fun self => set_callbacks self (callbacks self ++ [(blocks_to_commit, finality_proof)]));;
  on_tree (BlockTree.update_ordered_root (ExecutedBlock.id block_to_commit)).

(** Callbacks are invoked with the decision on their blocks: the one of the last of
    the first batches, with the blocks of all of them. *)
Definition run_callback (batches : nat) (commit_decision : LedgerInfoWithSignatures.t) : M unit :=
  self ← gets (fun self => self);
  match last (take batches (callbacks self)) with
  | None => mret tt
  | Some (_, finality_proof) =>
      let committed_blocks := mjoin (take batches (callbacks self)).*1 in
      modify (fun self => set_callbacks self (drop batches (callbacks self)));;
      id_to_remove ← on_tree (BlockTree.commit_callback committed_blocks finality_proof commit_decision);
      catch (zoom storage set_storage (prune_tree id_to_remove))
        (fun o => match o with Panic => lift Panic | _ => mret tt end)
  end.

(** [reset] of the buffer manager: the batches that wait are dropped with their
    callbacks. *)
Definition reset_pipeline : M unit := modify (fun self => set_callbacks self []).

(** [sync_to] of the state computer, which resets the pipeline first; afterwards the
    storage reads the synchronized ledger. *)
Definition sync_ledger (target : LedgerInfoWithSignatures.t) : M unit :=
  self ← gets (fun self => self);
  (if resets (state_computer self) then reset_pipeline else mret tt);;
  zoom state_computer set_state_computer (sync_to target);;
  modify (fun self => set_storage self (after_sync target (storage self))).

(** [execute_block], with the error of the computer as a value. *)
Definition execute_block (block : Block.t) : M (ExecutedBlock.t + ExecutionError) :=
  catch (zoom state_computer set_state_computer (compute block (Block.parent_id block)))
    (fun o => lift (match o with
                    | Ok result => Ok (inl (ExecutedBlock.new block result))
                    | Err e => Ok (inr e)
                    | Panic => Panic
                    end)).

(** [?] on the result of [execute_block]. *)
Definition executed_or (r : ExecutedBlock.t + ExecutionError) : result ExecutedBlock.t :=
  match r with inl b => Ok b | inr _ => Err "execution failed"%string end.

Fixpoint reexecute (blocks_to_reexecute : list ExecutedBlock.t) : M unit :=
  match blocks_to_reexecute with
  | [] => mret tt
  | block :: blocks =>
      r ← execute_block (ExecutedBlock.block block);
      lift (executed_or r);;
      reexecute blocks
  end.

(** [execute_and_insert_block]; waiting for the time of the block and prefetching
    its payload change nothing here. *)
Definition execute_and_insert_block (block : Block.t) : M ExecutedBlock.t :=
  found ← get_block (Block.id block);
  match found with
  | Some existing_block => mret existing_block
  | None =>
      root ← ordered_root;
      lift (ensure (ExecutedBlock.round root <? Block.round block) "Block with old round");;
      first ← execute_block block;
      executed_block ←
        match first with
        | inr (BlockNotFound parent_block_id) =>
            path ← path_from_ordered_root parent_block_id;
            reexecute (default [] path);;
            r ← execute_block block;
            lift (executed_or r)
        | r => lift (executed_or r)
        end;
      on_storage (save_tree [ExecutedBlock.block executed_block] []) "Insert block failed when saving block";;
      on_tree (BlockTree.insert_block executed_block)
  end.

Definition insert_single_quorum_cert (qc : QuorumCert.t) : M unit :=
  found ← get_block (BlockInfo.id (QuorumCert.certified_block qc));
  executed_block ← lift (ok_or found "Insert without having the block in store first");
  lift (ensure (BlockInfo.match_ordered_only (ExecutedBlock.block_info executed_block) (QuorumCert.certified_block qc))
    "QC for block has different info than local");;
  on_storage (save_tree [] [qc]) "Insert block failed when saving quorum";;
  on_tree (BlockTree.insert_quorum_cert qc).

Definition insert_2chain_timeout_certificate (tc : TwoChainTimeoutCertificate.t) : M unit :=
  self ← gets (fun self => self);
  let cur_tc_round := match BlockTree.highest_2chain_timeout_cert (inner self) with
                      | Some tc => TwoChainTimeoutCertificate.round tc
                      | None => 0
                      end in
  if TwoChainTimeoutCertificate.round tc <=? cur_tc_round then mret tt
  else
    on_storage (save_highest_2chain_timeout_cert tc) "Timeout certificate insert failed when persisting to DB";;
    on_tree (BlockTree.replace_2chain_timeout_cert tc).

(** The round a certificate commits. *)
Definition commit_round (qc : QuorumCert.t) : Z := BlockInfo.round (QuorumCert.commit_info qc).

Fixpoint try_commit_loop (certs : list QuorumCert.t) : M unit :=
  match certs with
  | [] => mret tt
  | qc :: certs =>
      root ← commit_root;
      (if ExecutedBlock.round root <? commit_round qc
       then catch (commit qc) (fun o => match o with Panic => lift Panic | _ => mret tt end)
       else mret tt);;
      try_commit_loop certs
  end.

Definition try_commit : M unit :=
  self ← gets (fun self => self);
  try_commit_loop (sort_by (fun qc qc' => commit_round qc <=? commit_round qc')
    (BlockTree.get_all_quorum_certs_with_commit_info (inner self))).

(** A loop that panics on errors. *)
Fixpoint for_each {A B} (insert : A -> M B) (l : list A) : M unit :=
  match l with
  | [] => mret tt
  | x :: l => catch (insert x) (fun o => lift (unwrap o));; for_each insert l
  end.

(** The tree [build] starts with. *)
Definition build_root (root : RootInfo.t) (root_metadata : RootMetadata.t) (max_pruned_blocks_in_mem : nat)
    (highest_2chain_timeout_cert : option TwoChainTimeoutCertificate.t) : result BlockTree.t :=
  let certified := QuorumCert.certified_block (RootInfo.quorum_cert root) in
  assert ((BlockInfo.version certified =? 0) || (BlockInfo.version certified =? RootMetadata.version root_metadata));;
  assert (bool_decide (BlockInfo.executed_state_id certified = ACCUMULATOR_PLACEHOLDER_HASH)
          || bool_decide (BlockInfo.executed_state_id certified = RootMetadata.accu_hash root_metadata));;
  let result := StateComputeResult.new (RootMetadata.accu_hash root_metadata)
    (RootMetadata.frozen_root_hashes root_metadata) (RootMetadata.num_leaves root_metadata) [] 0 None [] [] [] in
  BlockTree.new (ExecutedBlock.new (RootInfo.block root) result) (RootInfo.quorum_cert root)
    (RootInfo.ordered_cert root) (RootInfo.commit_cert root) max_pruned_blocks_in_mem highest_2chain_timeout_cert.

(** [build] over the state computer and the storage of a store: the tree is
    replaced, and filled. *)
Definition fill (blocks : list Block.t) (quorum_certs : list QuorumCert.t) : M unit :=
  for_each execute_and_insert_block blocks;;
  for_each insert_single_quorum_cert quorum_certs;;
  ordered_root;;
  mret tt.

Definition new (initial_data : RecoveryData.t) (computer : Computer) (storage : Storage)
    (max_pruned_blocks_in_mem : nat) (vote_back_pressure_limit : Z) : result t :=
  tree ← build_root (RecoveryData.root initial_data) (RecoveryData.root_metadata initial_data)
    max_pruned_blocks_in_mem (RecoveryData.highest_2chain_timeout_certificate initial_data);
  let '(self, o) :=
    (fill (RecoveryData.blocks initial_data) (RecoveryData.quorum_certs initial_data);; try_commit)
      (mk tree computer storage [] vote_back_pressure_limit) in
  o;; Ok self.

Definition rebuild (root : RootInfo.t) (root_metadata : RootMetadata.t) (blocks : list Block.t)
    (quorum_certs : list QuorumCert.t) : M unit :=
  self ← gets (fun self => self);
  tree ← lift (build_root root root_metadata (BlockTree.max_pruned_blocks_in_mem (inner self))
    (BlockTree.highest_2chain_timeout_cert (inner self)));
  modify (fun self => set_inner self tree);;
  fill blocks quorum_certs;;
  try_commit.

Definition vote_back_pressure : M bool :=
  self ← gets (fun self => self);
  committed ← commit_root;
  ordered ← ordered_root;
  lift (u64_sub (ExecutedBlock.round ordered) (ExecutedBlock.round committed));;
  limit ← lift (u64_add (vote_back_pressure_limit self) (ExecutedBlock.round committed));
  mret (limit <? ExecutedBlock.round ordered).

(** [pipeline_pending_latency], in microseconds. *)
Definition MAX_ORDERING_PIPELINE_LATENCY_REDUCTION : Z := 1000000.
Definition latency_from_proposal (proposal_timestamp timestamp : Z) : result Z :=
  if timestamp =? 0 then Ok 0 else u64_sub proposal_timestamp timestamp.
Definition pipeline_pending_latency (proposal_timestamp : Z) : M Z :=
  self ← gets (fun self => self);
  ordered ← ordered_root;
  committed ← commit_root;
  lift (u64_sub (ExecutedBlock.round ordered) (ExecutedBlock.round committed));;
  latency_to_committed ← lift (latency_from_proposal proposal_timestamp (ExecutedBlock.timestamp_usecs committed));
  latency_to_ordered ← lift (latency_from_proposal proposal_timestamp (ExecutedBlock.timestamp_usecs ordered));
  lift (latency_from_proposal proposal_timestamp
    (BlockInfo.timestamp_usecs (QuorumCert.commit_info (BlockTree.highest_commit_cert (inner self)))));;
  mret (Z.max 0 (latency_to_committed - Z.min latency_to_ordered MAX_ORDERING_PIPELINE_LATENCY_REDUCTION)).
End definitions.
End BlockStore.

(** ** The order of blocks *)
Section theory.
Context `{CryptoTypes} `{!Transactions} `{!ExecutionTypes} `{!MerkleHasher HashValue}
  `{!StateComputer} `{Laws : !StateComputerLaws} `{!LivenessStorage}.
Context (parent_of : HashValue -> HashValue) (round_of : HashValue -> Z).
Context (root : HashValue) (before_root : list ExecutedBlock.t).
Implicit Types (s : BlockStore.t) (b : ExecutedBlock.t) (qc : QuorumCert.t) (x : HashValue).
Import BlockStore.

#[local] Notation faithful := (faithful parent_of round_of).
#[local] Notation tree_ok := (tree_ok parent_of round_of).
#[local] Notation below := (below parent_of).
#[local] Notation live := (live parent_of).

(** A block, and a certificate, agree with the rounds of the blocks. *)
Definition sound_block (block : Block.t) : Prop := forall result, faithful (ExecutedBlock.new block result).
Definition commits qc : Prop :=
  BlockInfo.round (QuorumCert.commit_info qc) = round_of (BlockInfo.id (QuorumCert.commit_info qc)).
Definition sound_cert qc : Prop := QuorumCert.commit_info qc = BlockInfo.empty \/ commits qc.

(** A batch ends with the block its certificate commits. *)
Definition batch_ok (batch : list ExecutedBlock.t * QuorumCert.t) : Prop :=
  commits batch.2 /\
  exists b, last batch.1 = Some b /\ ExecutedBlock.id b = BlockInfo.id (QuorumCert.commit_info batch.2).

Definition pending s : list ExecutedBlock.t := mjoin (callbacks s).*1.

(** The blocks sent to the state computer are a chain from the root: those up to
    the commit root, then those up to the ordered root, of which the last ones have
    pending callbacks; the callbacks of the others were dropped. *)
Record log_ok s (committed dropped : list ExecutedBlock.t) : Prop := {
  log_sent : ordered (state_computer s) = before_root ++ committed ++ dropped ++ pending s;
  log_linked : linked root (committed ++ dropped ++ pending s);
  log_faithful : Forall faithful (committed ++ dropped ++ pending s);
  log_committed : end_of root committed = BlockTree.commit_root_id (inner s);
  log_ordered : end_of root (committed ++ dropped ++ pending s) = BlockTree.ordered_root_id (inner s);
}.

Record store_ok s : Prop := {
  ok_tree : tree_ok (inner s);
  ok_ordered : live (inner s) (BlockTree.ordered_root_id (inner s));
  ok_receiving : receiving (state_computer s) = true;
  ok_log : exists committed dropped, log_ok s committed dropped;
  ok_batches : Forall batch_ok (callbacks s);
  ok_cert : BlockInfo.round (QuorumCert.commit_info (BlockTree.highest_commit_cert (inner s))) <=
    round_of (BlockTree.commit_root_id (inner s));
  ok_certs qc : qc ∈ (BlockTree.id_to_quorum_cert (inner s)).*2 -> sound_cert qc;
}.

(** *** Roots *)
Lemma ordered_root_get s : store_ok s -> exists b,
  BlockTree.get_block (inner s) (BlockTree.ordered_root_id (inner s)) = Some b /\
  BlockTree.ordered_root (inner s) = Ok b /\ ExecutedBlock.round b = round_of (BlockTree.ordered_root_id (inner s)).
Proof using Type.
  intros Hok. pose proof (ok_tree s Hok) as Ht. destruct (below_in _ _ _ _ (ok_ordered s Hok)) as [lb Hlb].
  destruct (ok_block _ _ _ Ht _ _ Hlb) as [Hid [_ Hr _ _]]. exists (LinkableBlock.executed_block lb).
  unfold BlockTree.ordered_root, BlockTree.get_block. rewrite Hlb. unfold LinkableBlock.id in Hid. by rewrite Hr, Hid.
Qed.

Lemma commit_root_get s : store_ok s -> exists b,
  BlockTree.commit_root (inner s) = Ok b /\ ExecutedBlock.round b = round_of (BlockTree.commit_root_id (inner s)).
Proof using Type.
  intros Hok. pose proof (ok_tree s Hok) as Ht. destruct (ok_root _ _ _ Ht) as [lb Hlb].
  destruct (ok_block _ _ _ Ht _ _ Hlb) as [Hid [_ Hr _ _]]. exists (LinkableBlock.executed_block lb).
  unfold BlockTree.commit_root, BlockTree.get_block. rewrite Hlb. unfold LinkableBlock.id in Hid. by rewrite Hr, Hid.
Qed.

(** The invariant depends on the tree, the computer and the callbacks. *)
Lemma store_ok_ext s s' : inner s' = inner s -> ordered (state_computer s') = ordered (state_computer s) ->
  receiving (state_computer s') = receiving (state_computer s) -> callbacks s' = callbacks s -> store_ok s -> store_ok s'.
Proof using Type.
  intros Ei Eo Er Ec [T O R (c & d & [L1 L2 L3 L4 L5]) B C Q]. split; rewrite ?Ei, ?Er, ?Ec; try done.
  exists c, d. split; unfold pending in *; rewrite ?Ei, ?Eo, ?Ec; done.
Qed.

(** *** Ordering *)

(** What a commit that succeeds does. *)
Definition commit_batch s qc path (c : Computer) : BlockStore.t :=
  set_inner (set_callbacks (set_state_computer s c) (callbacks s ++ [(path, qc)]))
    (BlockTree.set_ordered_root_id (inner s) (BlockInfo.id (QuorumCert.commit_info qc))).

Lemma commit_run s qc : store_ok s ->
  let x := BlockInfo.id (QuorumCert.commit_info qc) in
  let r := BlockTree.ordered_root_id (inner s) in
  ~ in_tree (inner s) x /\ commit qc s = (s, Err "Committed block id not found"%string) \/
  in_tree (inner s) x /\ round_of x <= round_of r /\ commit qc s = (s, Err "Committed block round lower than root"%string) \/
  in_tree (inner s) x /\ round_of r < round_of x /\ ~ below (inner s) r x /\ commit qc s = (s, Panic) \/
  round_of r < round_of x /\ below (inner s) r x /\ exists path b,
    linked r path /\ end_of r path = x /\ last path = Some b /\ Forall faithful path /\
    commit qc s =
      match commit_ordered path (QuorumCert.ledger_info qc) (state_computer s) with
      | (c, Ok _) => (commit_batch s qc path c, Ok tt)
      | (c, _) => (set_state_computer s c, Panic)
      end.
Proof using Type.
  intros Hok x r. pose proof (ok_tree s Hok) as Ht. destruct (ordered_root_get s Hok) as (rb & Hrb & Hroot & Hrr).
  assert (in_tree (inner s) r) as Hr by (eapply below_in, Hok).
  unfold commit, get_block, ordered_root, path_from_ordered_root, gets, lift, mbind, action_bind. fold x.
  destruct (BlockTree.get_block (inner s) x) as [b|] eqn:Eb; cbn [ok_or]; cycle 1.
  { left. split; [|done]. intros [lb Hlb]. unfold BlockTree.get_block in Eb. by rewrite Hlb in Eb. }
  destruct (get_block_ok _ _ _ _ _ Ht Eb) as (Hid & [_ Hbr _ _] & Hx). rewrite Hroot, Hrr, Hbr, Hid. right. fold r. unfold ensure.
  destruct (Z.ltb_spec (round_of r) (round_of x)) as [Hlt|Hge]; [right|left; auto].
  unfold BlockTree.path_from_ordered_root. rewrite Hroot, bind_ret. fold r. rewrite Hrr. fold r.
  destruct (path_run _ _ (inner s) x r Ht Hr) as [(Hb & path & -> & Hl & He & Hg)|[Hb ->]]; [right|left; auto].
  split; [done|]. split; [done|]. destruct (last path) as [lb|] eqn:El; cycle 1.
  { apply last_None in El as ->. cbn in He. rewrite He in Hlt. lia. }
  exists path, lb. split_and!; [done..| |].
  { apply Forall_forall. intros c Hc. by apply (get_block_ok _ _ _ _ _ Ht (Hg c Hc)). }
  cbn [default]. unfold id. destruct path as [|p path]; [done|]. unfold assert, catch, zoom, modify.
  destruct (commit_ordered (p :: path) (QuorumCert.ledger_info qc) (state_computer s)) as [c [[]|e|]]; [|done..].
  cbn. unfold on_tree, zoom, BlockTree.update_ordered_root, gets, lift, modify, assert, mbind, action_bind. cbn.
  unfold BlockTree.block_exists, HashMap.contains_key. destruct Hx as [lx Hlx]. unfold BlockTree.get_linkable_block in Hlx.
  by rewrite Hlx.
Qed.

Lemma pending_snoc s cs path qc : callbacks s = cs ++ [(path, qc)] -> pending s = mjoin cs.*1 ++ path.
Proof using Type. unfold pending. intros ->. rewrite fmap_app, join_app. cbn. by rewrite app_nil_r. Qed.

Lemma commit_batch_ok s qc path b c : store_ok s -> commits qc ->
  let x := BlockInfo.id (QuorumCert.commit_info qc) in
  below (inner s) (BlockTree.ordered_root_id (inner s)) x -> linked (BlockTree.ordered_root_id (inner s)) path ->
  end_of (BlockTree.ordered_root_id (inner s)) path = x -> last path = Some b -> Forall faithful path ->
  ordered c = ordered (state_computer s) ++ path -> receiving c = true -> store_ok (commit_batch s qc path c).
Proof using Type.
  intros [T O R (cm & dr & [L1 L2 L3 L4 L5]) B C Q] Hqc x Hb Hl He Hlast Hf Hord Hrec.
  assert (pending (commit_batch s qc path c) = pending s ++ path) as Hp by by apply (pending_snoc (commit_batch s qc path c) (callbacks s) path qc).
  split; cbn.
  - eapply tree_ok_ext; [..|exact T]; done.
  - eapply (below_ext _ (inner s)); [done|]. by eapply below_trans.
  - done.
  - assert (cm ++ dr ++ pending s ++ path = (cm ++ dr ++ pending s) ++ path) as E by by rewrite <-!app_assoc.
    exists cm, dr. split; rewrite ?Hp, ?E; cbn.
    + by rewrite Hord, L1, <-!app_assoc.
    + by rewrite linked_app, L5.
    + by apply Forall_app.
    + done.
    + by rewrite end_of_app, L5.
  - apply Forall_app. split; [done|]. constructor; [|done]. split; [done|]. exists b. split; [done|].
    unfold end_of in He. by rewrite Hlast in He.
  - done.
  - done.
Qed.

Lemma commit_ok qc : commits qc -> hoare store_ok store_ok (commit qc) (fun _ => store_ok).
Proof using Laws.
  intros Hqc s s' o Hok. destruct (commit_run s qc Hok) as
    [[_ ->]|[(_ & _ & ->)|[(_ & _ & _ & ->)|(_ & Hb & path & b & Hl & He & Hlast & Hf & ->)]]]; [by intros [= <- <-]..|].
  destruct (commit_ordered _ _ _) as [c [[]|e|]] eqn:Ec; intros [= <- <-]; [|done..].
  apply commit_ordered_ordered in Ec as [? ?]; [|by apply Hok]. by eapply commit_batch_ok.
Qed.

(** *** Blocks and certificates *)
Lemma execute_block_ok block : hoare store_ok store_ok (execute_block block) (fun r s => store_ok s /\
  match r with inl b => ExecutedBlock.block b = block | inr _ => True end).
Proof using Laws.
  intros s s' o Hok. unfold execute_block, catch, zoom, lift.
  pose proof (compute_ordered block (Block.parent_id block) (state_computer s)) as [Ho Hr].
  destruct (compute block (Block.parent_id block) (state_computer s)) as [c o'] eqn:Ec. intros [= <- <-]. cbn in Ho, Hr.
  assert (store_ok (set_state_computer s c)) as Hok' by (eapply store_ok_ext; [..|exact Hok]; done).
  destruct o'; done.
Qed.

Lemma reexecute_ok l : hoare store_ok store_ok (reexecute l) (fun _ => store_ok).
Proof using Laws.
  induction l as [|b l IH]; cbn [reexecute]; [by apply hoare_ret|].
  eapply hoare_bind; [apply execute_block_ok|]. intros r. cbv beta.
  eapply hoare_bind; [eapply hoare_lift; by intros ? [? _]|]. intros b'. eapply hoare_weaken; [exact IH| |done].
  by intros ? [[? _] _].
Qed.

Lemma on_storage_ok m e : hoare store_ok store_ok (on_storage m e) (fun _ => store_ok).
Proof using Type.
  intros s s' o Hok. unfold on_storage, catch, zoom, lift. destruct (m (storage s)) as [st o'] eqn:Em. intros [= <- <-].
  assert (store_ok (set_storage s st)) as Hok' by (eapply store_ok_ext; [..|exact Hok]; done).
  by destruct o'.
Qed.

(** Changing the tree without changing its blocks and roots. *)
Lemma set_inner_ok s t : store_ok s -> tree_ok t -> (forall x, live (inner s) x -> live t x) ->
  BlockTree.commit_root_id t = BlockTree.commit_root_id (inner s) ->
  BlockTree.ordered_root_id t = BlockTree.ordered_root_id (inner s) ->
  BlockTree.highest_commit_cert t = BlockTree.highest_commit_cert (inner s) ->
  (forall qc, qc ∈ (BlockTree.id_to_quorum_cert t).*2 -> sound_cert qc) ->
  store_ok (set_inner s t).
Proof using Type.
  intros [T O R (cm & dr & [L1 L2 L3 L4 L5]) B C Q] Ht Hl Ec Eo Eh Hq. split; cbn; rewrite ?Ec, ?Eo, ?Eh; auto.
  exists cm, dr. unfold pending in *. split; cbn; rewrite ?Ec, ?Eo; done.
Qed.

Lemma insert_leaf_store s b p : store_ok s -> faithful b ->
  BlockTree.get_linkable_block (inner s) (ExecutedBlock.parent_id b) = Some p ->
  ~ in_tree (inner s) (ExecutedBlock.id b) -> store_ok (set_inner s (insert_leaf (inner s) b p)).
Proof using Type.
  intros Hok Hb Hp Hn. pose proof (ok_tree s Hok) as Ht. apply set_inner_ok; [done|by apply insert_leaf_ok| |done..|apply Hok].
  intros x. apply below_mono. intros y Hy. eapply insert_leaf_in; [done..|by right].
Qed.

Lemma tree_insert_ok b : faithful b -> hoare store_ok store_ok (on_tree (BlockTree.insert_block b)) (fun _ => store_ok).
Proof using Type.
  intros Hb s s' o Hok. unfold on_tree, zoom. pose proof (insert_block_run _ _ (inner s) b (ok_tree s Hok) Hb) as Hr.
  assert (store_ok (set_inner s (inner s))) as Hok1 by (eapply store_ok_ext; [..|exact Hok]; done).
  destruct (BlockTree.insert_block b (inner s)) as [t' [b'|e|]]; intros [= <- <-]; [|by destruct Hr as [-> _]|done].
  destruct Hr as [[-> _]|(_ & Hn & p & Hp & ->)]; [done|by apply insert_leaf_store].
Qed.

(** Reading the store. *)
Lemma read_ok {A} (f : BlockStore.t -> result A) :
  hoare store_ok store_ok (self ← gets (fun self => self); lift (f self)) (fun _ => store_ok).
Proof using Type. intros s s' o Hok [= <- <-]. by destruct (f s). Qed.

Lemma gets_ok {A} (f : BlockStore.t -> A) : hoare store_ok store_ok (gets f : action BlockStore.t string A) (fun _ => store_ok).
Proof using Type. by intros s s' o Hok [= <- <-]. Qed.

Lemma lift_ok {A} (o : result A) : hoare store_ok store_ok (lift o) (fun _ => store_ok).
Proof using Type. intros s s' o' Hok [= <- <-]. by destruct o. Qed.

Lemma execute_and_insert_block_ok block : sound_block block ->
  hoare store_ok store_ok (execute_and_insert_block block) (fun _ => store_ok).
Proof using Laws.
  intros Hb. assert (forall r : ExecutedBlock.t + ExecutionError, hoare store_ok (fun s => store_ok s /\
      match r with inl b => ExecutedBlock.block b = block | inr _ => True end) (lift (executed_or r))
      (fun e s => store_ok s /\ ExecutedBlock.block e = block)) as Hor.
  { intros r s s' o [Hok Hr] [= <- <-]. by destruct r. }
  unfold execute_and_insert_block. apply (hoare_bind _ _ _ _ (fun _ => store_ok)); [apply gets_ok|].
  intros [b|]; [by apply hoare_ret|]. eapply hoare_bind; [apply read_ok|]. intros rb. eapply hoare_bind; [apply lift_ok|]. intros [].
  eapply hoare_bind; [apply execute_block_ok|]. intros first.
  apply (hoare_bind _ _ _ _ (fun e s => store_ok s /\ ExecutedBlock.block e = block)).
  { destruct first as [e|er]; [exact (Hor (inl e))|]. destruct er; try exact (Hor (inr _)). eapply (hoare_bind _ _ _ _ (fun _ => store_ok)).
    { eapply hoare_weaken; [apply read_ok|by intros ? [? _]|done]. }
    intros path. eapply hoare_bind; [apply reexecute_ok|]. intros [].
    eapply hoare_bind; [apply execute_block_ok|]. intros r. apply Hor. }
  intros e. apply (hoare_bind _ _ _ _ (fun _ s => store_ok s /\ ExecutedBlock.block e = block)).
  { intros s s' o [Hok He] Hr. pose proof (on_storage_ok _ _ _ _ _ Hok Hr) as Hs. by destruct o. }
  intros []. intros s s' o [Hok He]. apply tree_insert_ok; [|done]. destruct e. cbn in He. subst. apply Hb.
Qed.

(** Inserting a certificate changes neither the blocks nor the roots. *)
Lemma tree_insert_quorum_cert_run t qc t' o : BlockTree.insert_quorum_cert qc t = (t', o) ->
  BlockTree.id_to_block t' = BlockTree.id_to_block t /\ BlockTree.commit_root_id t' = BlockTree.commit_root_id t /\
  BlockTree.ordered_root_id t' = BlockTree.ordered_root_id t /\
  BlockTree.highest_commit_cert t' = BlockTree.highest_commit_cert t /\
  BlockTree.pruned_block_ids t' = BlockTree.pruned_block_ids t /\
  (BlockTree.id_to_quorum_cert t' = BlockTree.id_to_quorum_cert t \/
   BlockTree.id_to_quorum_cert t' =
     HashMap.or_insert (BlockTree.id_to_quorum_cert t) (BlockInfo.id (QuorumCert.certified_block qc)) qc).
Proof using Type.
  unfold BlockTree.insert_quorum_cert, gets, modify, lift, mret, action_ret, mbind, action_bind.
  destruct (BlockTree.get_block t _) as [b|]; [|intros [= <- <-]; by auto 10].
  destruct (BlockTree.highest_certified_block t) as [h|e|]; [|intros [= <- <-]; by auto 10..].
  destruct (_ <? _); intros [= <- <-]; destruct (_ <? _); cbn; auto 10.
Qed.

Lemma insert_single_quorum_cert_ok qc : sound_cert qc ->
  hoare store_ok store_ok (insert_single_quorum_cert qc) (fun _ => store_ok).
Proof using Type.
  intros Hqc. unfold insert_single_quorum_cert.
  apply (hoare_bind _ _ _ _ (fun _ => store_ok)); [apply gets_ok|]. intros found.
  eapply hoare_bind; [apply lift_ok|]. intros eb. eapply hoare_bind; [apply lift_ok|]. intros [].
  eapply hoare_bind; [apply on_storage_ok|]. intros [] s s' o Hok. unfold on_tree, zoom.
  destruct (BlockTree.insert_quorum_cert qc (inner s)) as [t' o'] eqn:Et. intros [= <- <-].
  apply tree_insert_quorum_cert_run in Et as (Eb & Ec & Eo & Eh & Ep & Hq).
  assert (store_ok (set_inner s t')); [|by destruct o'].
  apply set_inner_ok; [done| | |done..|].
  - eapply tree_ok_ext; [..|apply (ok_tree s Hok)]; done.
  - intros x Hx. unfold BlockTree.live in *. rewrite Ec. by eapply below_ext.
  - intros q Hi. destruct Hq as [Hq|Hq]; rewrite Hq in Hi; [by apply (ok_certs s)|].
    apply HashMap.or_insert_values in Hi as [->|Hi]; [done|by apply (ok_certs s)].
Qed.

Lemma insert_2chain_timeout_certificate_ok tc :
  hoare store_ok store_ok (insert_2chain_timeout_certificate tc) (fun _ => store_ok).
Proof using Type.
  unfold insert_2chain_timeout_certificate.
  apply (hoare_bind _ _ _ _ (fun _ => store_ok)); [apply gets_ok|]. intros self.
  destruct (_ <=? _); [by apply hoare_ret|]. eapply hoare_bind; [apply on_storage_ok|].
  intros [] s s' o Hok [= <- <-]. apply set_inner_ok; [done| |intros x Hx; by apply (below_ext _ (inner s))|done..|apply Hok].
  eapply tree_ok_ext; [..|apply (ok_tree s Hok)]; done.
Qed.

Lemma try_commit_ok : hoare store_ok store_ok try_commit (fun _ => store_ok).
Proof using Laws.
  assert (forall l, Forall commits l -> hoare store_ok store_ok (try_commit_loop l) (fun _ => store_ok)) as Hl.
  { induction 1 as [|qc l Hqc _ IH]; cbn [try_commit_loop]; [by apply hoare_ret|].
    eapply hoare_bind; [apply read_ok|]. intros rb. apply (hoare_bind _ _ _ _ (fun _ => store_ok)); [|done].
    destruct (_ <? _); [|by apply hoare_ret]. intros s s' o Hok. unfold catch. destruct (commit qc s) as [s1 o1] eqn:Ec.
    pose proof (commit_ok qc Hqc s s1 o1 Hok Ec). by destruct o1; intros [= <- <-]. }
  intros s s' o Hok. apply Hl; [|done]. apply Forall_forall. intros qc. rewrite (sort_by_perm _ _).
  intros Hin%list_elem_of_In%filter_In. destruct Hin as [Hin%list_elem_of_In Hne].
  apply negb_true_iff, bool_decide_eq_false in Hne. by destruct (ok_certs s Hok qc Hin).
Qed.

(** *** Callbacks *)
Lemma last_join (l : list (list ExecutedBlock.t * QuorumCert.t)) bs qc b :
  last l = Some (bs, qc) -> last bs = Some b -> last (mjoin l.*1) = Some b.
Proof using Type.
  intros Hl Hb. apply last_Some in Hl as [l' ->]. rewrite fmap_app, join_app. cbn. by rewrite app_nil_r, last_app, Hb.
Qed.

Lemma merged_commit_info qc decision cp : QuorumCert.create_merged_with_executed_state qc decision = Ok cp ->
  BlockInfo.id (QuorumCert.commit_info cp) = BlockInfo.id (QuorumCert.commit_info qc) /\
  BlockInfo.round (QuorumCert.commit_info cp) = BlockInfo.round (QuorumCert.commit_info qc).
Proof using Type.
  unfold QuorumCert.create_merged_with_executed_state. intros Hm. apply bind_Ok in Hm as ([] & He & Hm).
  injection Hm as <-. apply ensure_Ok in He. unfold BlockInfo.match_ordered_only in He. rewrite !andb_true_iff, !Z.eqb_eq, bool_decide_eq_true in He.
  by destruct He as [[[_ Hr] Hi] _].
Qed.

(** The batches the callback takes are committed. *)
Lemma callback_run s n bs qc decision cp : store_ok s -> last (take n (callbacks s)) = Some (bs, qc) ->
  QuorumCert.create_merged_with_executed_state qc decision = Ok cp ->
  let x := BlockInfo.id (QuorumCert.commit_info qc) in
  exists V t', BlockTree.commit_callback (mjoin (take n (callbacks s)).*1) qc decision (inner s) = (t', Ok V) /\
    prunes parent_of (inner s) x V /\ committed parent_of round_of (inner s) x cp t' /\
    store_ok (set_inner (set_callbacks s (drop n (callbacks s))) t').
Proof using Type.
  intros [T O R (cm & dr & [L1 L2 L3 L4 L5]) B C Q] Hlast Hm x. destruct (merged_commit_info _ _ _ Hm) as [Hid Hround].
  set (now := mjoin (take n (callbacks s)).*1) in *. set (later := mjoin (drop n (callbacks s)).*1) in *.
  assert (dr ++ pending s = (dr ++ now) ++ later) as Hp.
  { unfold pending, now, later. by rewrite <-app_assoc, <-join_app, <-fmap_app, take_drop. }
  rewrite <-(take_drop n (callbacks s)), Forall_app in B. destruct B as [B B'].
  assert (batch_ok (bs, qc)) as [Hqc (b & Hb & Hbx)] by (eapply Forall_forall; [exact B|by apply last_Some_elem_of]).
  cbn in Hqc, Hb, Hbx. pose proof (last_join _ _ _ _ Hlast Hb) as Hnow. fold now in Hnow.
  apply linked_app in L2 as [L2 L2']. rewrite L4 in L2'. apply Forall_app in L3 as [L3 L3'].
  rewrite end_of_app, L4 in L5. assert (b ∈ dr ++ pending s) as Hbin.
  { rewrite Hp, !elem_of_app. left. right. by apply last_Some_elem_of. }
  assert (live (inner s) (ExecutedBlock.id b)) as Hblive.
  { eapply linked_live; [done..| |done]. by rewrite L5. }
  pose proof (linked_round _ _ _ _ _ L2' L3' Hbin) as Hbr.
  assert (end_of (BlockTree.commit_root_id (inner s)) (dr ++ now) = ExecutedBlock.id b) as Hend.
  { unfold end_of. by rewrite last_app, Hnow. }
  destruct (commit_callback_run parent_of round_of (inner s) now b qc decision cp T Hnow Hblive) as (V & t' & Hrun & HV & Hc).
  { intros E. rewrite E in Hbr. lia. }
  { done. }
  { by rewrite Hid. }
  { rewrite Hround, Hqc, <-Hbx. lia. }
  rewrite <-Hbx in *. unfold x. rewrite <-Hbx. exists V, t'. split_and!; [done..|]. destruct Hc as [Ct Cr Cl _ _ _ Co Cc Cq]. split; cbn.
  - done.
  - rewrite Co. apply Cl. pose proof (linked_below parent_of round_of (inner s) (dr ++ now) later T) as Hlb.
    rewrite <-Hp, L5, Hend in Hlb. by apply Hlb.
  - done.
  - assert ((cm ++ dr ++ now) ++ [] ++ later = cm ++ dr ++ pending s) as E by (rewrite Hp; by rewrite <-!app_assoc).
    exists (cm ++ dr ++ now), []. split; cbn [inner state_computer set_inner set_callbacks].
    all: change (pending (set_inner (set_callbacks s (drop n (callbacks s))) t')) with later; rewrite ?E, ?Cr, ?Co.
    + done.
    + apply linked_app. by rewrite L4.
    + by apply Forall_app.
    + by rewrite end_of_app, L4.
    + by rewrite end_of_app, L4.
  - done.
  - by rewrite Cc, Cr, Hround, Hqc, Hbx.
  - intros q Hq. by apply Q, Cq.
Qed.

Lemma run_callback_ok n decision : hoare store_ok store_ok (run_callback n decision) (fun _ => store_ok).
Proof using Type.
  intros s s' o Hok. unfold run_callback, gets, modify, mbind, action_bind.
  destruct (last (take n (callbacks s))) as [[bs qc]|] eqn:El; [|by intros [= <- <-]].
  destruct (QuorumCert.create_merged_with_executed_state qc decision) as [cp| |] eqn:Em; cycle 1.
  1,2: unfold on_tree, zoom, BlockTree.commit_callback, lift, mbind, action_bind; rewrite Em; by intros [= <- <-].
  destruct (callback_run s n bs qc decision cp Hok El Em) as (V & t' & Hrun & _ & _ & Hok').
  unfold on_tree, zoom. cbn. rewrite Hrun. unfold catch, zoom. cbn.
  destruct (prune_tree V (storage s)) as [st o'] eqn:Ep. set (s1 := set_inner _ _) in *.
  assert (store_ok (set_storage s1 st)) as Hok1 by (eapply store_ok_ext; [..|exact Hok']; done).
  destruct o'; intros [= <- <-]; done.
Qed.

(** *** Dropping callbacks *)
Lemma reset_pipeline_ok : hoare store_ok store_ok (reset_pipeline : action BlockStore.t string unit) (fun _ s => store_ok s /\ callbacks s = []).
Proof using Type.
  intros s s' o [T O R (cm & dr & [L1 L2 L3 L4 L5]) B C Q] [= <- <-]. split; [|done]. split; cbn; try done.
  exists cm, (dr ++ pending s). split; cbn; unfold pending in *; cbn; by rewrite ?app_nil_r.
Qed.

Lemma sync_ledger_ok target : hoare store_ok store_ok (sync_ledger target) (fun _ s => store_ok s /\ callbacks s = []).
Proof using Laws.
  intros s s' o Hok. unfold sync_ledger, gets, modify, mbind, action_bind, zoom, mret, action_ret.
  pose proof (reset_pipeline_ok s _ _ Hok eq_refl) as [Hreset _]. pose proof (sync_to_ordered target (state_computer s)) as [Ho Hr].
  pose proof (sync_to_resets target (state_computer s)) as Hres.
  destruct (resets (state_computer s)) eqn:E; cbn [reset_pipeline modify]; cbn [state_computer set_callbacks].
  all: destruct (sync_to target (state_computer s)) as [c o'] eqn:Es; cbn in Ho, Hr; destruct o' as [[]|e|]; intros [= <- <-]; try done.
  - split; [|done]. by eapply store_ok_ext; [..|exact Hreset].
  - by eapply store_ok_ext; [..|exact Hreset].
  - by specialize (Hres c eq_refl).
  - by eapply store_ok_ext; [..|exact Hok].
Qed.

(** *** Building a store *)
Record sound_data (data : RecoveryData.t) : Prop := {
  sound_root : sound_block (RootInfo.block (RecoveryData.root data));
  sound_acyclic : let id := Block.id (RootInfo.block (RecoveryData.root data)) in ~ anc parent_of id id;
  sound_root_cert : sound_cert (RootInfo.quorum_cert (RecoveryData.root data));
  sound_commit_cert :
    BlockInfo.round (QuorumCert.commit_info (RootInfo.commit_cert (RecoveryData.root data))) <=
    round_of (Block.id (RootInfo.block (RecoveryData.root data)));
  sound_blocks : Forall sound_block (RecoveryData.blocks data);
  sound_certs : Forall sound_cert (RecoveryData.quorum_certs data);
}.

Lemma for_each_ok {A B} (f : A -> action BlockStore.t string B) l :
  (forall a, a ∈ l -> hoare store_ok store_ok (f a) (fun _ => store_ok)) ->
  hoare store_ok store_ok (for_each f l) (fun _ => store_ok).
Proof using Type.
  induction l as [|a l IH]; intros Hf; cbn [for_each]; [by apply hoare_ret|].
  apply (hoare_bind _ _ _ _ (fun _ => store_ok)); [|intros _; apply IH; intros y ?; apply Hf; by right].
  intros s s' o Hok. unfold catch, lift. destruct (f a s) as [s1 o1] eqn:E. intros [= <- <-].
  assert (a ∈ a :: l) as Ha by left. pose proof (Hf a Ha s s1 o1 Hok E). by destruct o1.
Qed.

Lemma fill_ok blocks certs : Forall sound_block blocks -> Forall sound_cert certs ->
  hoare store_ok store_ok (fill blocks certs) (fun _ => store_ok).
Proof using Laws.
  rewrite !Forall_forall. intros Hb Hc. unfold fill.
  eapply hoare_bind; [apply for_each_ok; intros; by apply execute_and_insert_block_ok, Hb|]. intros [].
  eapply hoare_bind; [apply for_each_ok; intros; by apply insert_single_quorum_cert_ok, Hc|]. intros [].
  eapply hoare_bind; [apply read_ok|]. intros rb. by apply hoare_ret.
Qed.

(** A tree of one block. *)
Lemma tree_new_ok b qc oc cc n tc t : faithful b -> ~ anc parent_of (ExecutedBlock.id b) (ExecutedBlock.id b) ->
  BlockTree.new b qc oc cc n tc = Ok t ->
  tree_ok t /\ BlockTree.commit_root_id t = ExecutedBlock.id b /\ BlockTree.ordered_root_id t = ExecutedBlock.id b /\
  BlockTree.highest_commit_cert t = cc /\ (BlockTree.id_to_quorum_cert t).*2 = [qc].
Proof using Type.
  intros Hb Hac Hn. unfold BlockTree.new in Hn. apply bind_Ok in Hn as ([] & _ & Hn).
  assert (forall i lb, BlockTree.get_linkable_block t i = Some lb -> i = ExecutedBlock.id b /\ lb = LinkableBlock.new b) as Hg.
  { intros i lb. injection Hn as <-. unfold BlockTree.get_linkable_block. cbn. case_bool_decide; [|done]. by intros [= <-]. }
  assert (in_tree t (ExecutedBlock.id b)) as Hin.
  { injection Hn as <-. eexists. unfold BlockTree.get_linkable_block. cbn. by rewrite bool_decide_eq_true_2. }
  assert (forall a, in_tree t a -> a = ExecutedBlock.id b) as Hi by (intros a [? [-> _]%Hg]; done).
  injection Hn as <-. split; [|done]. pose proof (faithful_later _ _ _ Hb) as Hlt. split; cbn.
  - apply NoDup_singleton.
  - intros i lb [-> ->]%Hg. done.
  - intros i lb [-> ->]%Hg. split; [constructor|]. intros c. split; [by intros ?%elem_of_nil|].
    intros [->%Hi E]. rewrite E in Hlt. lia.
  - intros a c ->%Hi Ha ->%Hi. done.
  - done.
  - constructor.
  - by intros r ?%elem_of_nil.
  - by intros a r ?%elem_of_nil.
  - intros a Ha ->%Hi. done.
Qed.

Lemma build_root_ok data c st max limit tc tree : sound_data data -> receiving c = true ->
  root = Block.id (RootInfo.block (RecoveryData.root data)) -> before_root = ordered c ->
  build_root (RecoveryData.root data) (RecoveryData.root_metadata data) max tc = Ok tree ->
  store_ok (mk tree c st [] limit).
Proof using Type.
  intros [Sr Sa Sc Scc _ _] Hc -> -> Hb. unfold build_root in Hb. apply bind_Ok in Hb as ([] & _ & Hb).
  apply bind_Ok in Hb as ([] & _ & Hb). apply tree_new_ok in Hb as (Ht & Hcr & Hor & Hcc & Hq); [|apply Sr|done].
  split; cbn; rewrite ?Hcr, ?Hor, ?Hcc; try done.
  - unfold BlockTree.live. rewrite Hcr. apply below_refl. rewrite <-Hcr. apply Ht.
  - exists [], []. split; cbn; rewrite ?Hcr, ?Hor, ?app_nil_r; done.
  - rewrite Hq. by intros qc ->%list_elem_of_singleton.
Qed.

Lemma new_ok data c st max limit s : sound_data data -> receiving c = true ->
  root = Block.id (RootInfo.block (RecoveryData.root data)) -> before_root = ordered c ->
  BlockStore.new data c st max limit = Ok s -> store_ok s.
Proof using Laws.
  intros Hd Hc Hr Hbr Hn. unfold BlockStore.new in Hn. apply bind_Ok in Hn as (tree & Ht & Hn).
  pose proof (build_root_ok data c st max limit _ tree Hd Hc Hr Hbr Ht) as Hok.
  match type of Hn with (let '(_, _) := ?run in _) = _ => destruct run as [s1 o] eqn:E end. apply bind_Ok in Hn as ([] & -> & Hn). injection Hn as <-.
  assert (hoare store_ok store_ok (fill (RecoveryData.blocks data) (RecoveryData.quorum_certs data);; try_commit)
    (fun _ => store_ok)) as Hh; [|exact (Hh _ _ _ Hok E)].
  eapply hoare_bind; [apply fill_ok; apply Hd|]. intros []. apply try_commit_ok.
Qed.

Lemma build_root_no_error ri meta max tc e : build_root ri meta max tc <> Err e.
Proof using Type.
  unfold build_root, BlockTree.new, assert. intros Hb.
  repeat match type of Hb with context [if ?c then Ok tt else Panic] => destruct c; cbn in Hb; [|done] end. done.
Qed.

(** A store without pending callbacks is rebuilt. *)
Lemma rebuild_ok data s s' o : sound_data data -> receiving (state_computer s) = true -> callbacks s = [] ->
  root = Block.id (RootInfo.block (RecoveryData.root data)) -> before_root = ordered (state_computer s) ->
  rebuild (RecoveryData.root data) (RecoveryData.root_metadata data) (RecoveryData.blocks data) (RecoveryData.quorum_certs data) s = (s', o) ->
  match o with Panic => True | _ => store_ok s' end.
Proof using Laws.
  intros Hd Hc Hcb Hr Hbr. unfold rebuild, gets, lift, modify, mbind at 1, action_bind at 1. unfold mbind at 1, action_bind at 1.
  destruct (build_root _ _ _ _) as [tree|e|] eqn:Ht; [|by apply build_root_no_error in Ht|by intros [= <- <-]].
  unfold mbind at 1, action_bind at 1.
  assert (store_ok (set_inner s tree)) as Hok.
  { pose proof (build_root_ok data (state_computer s) (storage s) _ (vote_back_pressure_limit s) _ tree Hd Hc Hr Hbr Ht) as Hok.
    unfold set_inner. by rewrite Hcb. }
  intros Hrun. assert (hoare store_ok store_ok (fill (RecoveryData.blocks data) (RecoveryData.quorum_certs data);; try_commit)
    (fun _ => store_ok)) as Hh; [|by pose proof (Hh _ _ _ Hok Hrun); destruct o].
  eapply hoare_bind; [apply fill_ok; apply Hd|]. intros []. apply try_commit_ok.
Qed.
End theory.
