(* ===== verification/Restart.v ===== *)
(** * Restarting a validator

    The composition of recovery and of building a block store: what is recovered
    from storage can always be inserted, with the ordering state computer and the
    consensus database. *)

From S2P Require Import Prelude Collections Merkle InMemoryAccumulator BitVec ValidatorVerifier LedgerInfo.
From S2P Require Import TrustedState AccumulatorProofs QuorumCert Timeout2Chain ConsensusBlock ConsensusMessages.
From S2P Require Import ExecutedBlock BlockTree Recovery BlockStore.

Section restart.
Context `{CryptoTypes} `{!Transactions} `{!ExecutionTypes} `{!MerkleHasher HashValue}
  `{!CryptoHash VoteData.t} `{!CryptoHash BlockData.t}.
Context (parent_of : HashValue -> HashValue) (round_of : HashValue -> Z).
Import OrderingStateComputer.

#[local] Notation sound_block := (sound_block parent_of round_of).
#[local] Notation tree_ok := (tree_ok parent_of round_of).
Implicit Types (s : BlockStore.t) (b : Block.t).

(** The certificate is for the block. *)
Definition certifies (qc : QuorumCert.t) b : Prop :=
  BlockInfo.match_ordered_only (Block.gen_block_info b HashValue_zero 0 None) (QuorumCert.certified_block qc) = true.

(** While the store is filled from [root], the tree holds the blocks in [have]. *)
Record filling (root : HashValue) (have : list Block.t) s : Prop := {
  filling_tree : tree_ok (BlockStore.inner s);
  filling_root : BlockTree.ordered_root_id (BlockStore.inner s) = root /\ in_tree (BlockStore.inner s) root;
  filling_in x : in_tree (BlockStore.inner s) x <-> exists b, b ∈ have /\ Block.id b = x;
  filling_block x eb : BlockTree.get_block (BlockStore.inner s) x = Some eb -> ExecutedBlock.block eb ∈ have;
  filling_certified : in_tree (BlockStore.inner s) (BlockTree.highest_certified_block_id (BlockStore.inner s));
}.

Lemma get_block_in (t : BlockTree.t) x : in_tree t x -> exists eb, BlockTree.get_block t x = Some eb.
Proof using Type. unfold BlockTree.get_block. intros [lb ->]. by eexists. Qed.

Lemma filling_ordered_root root have s : filling root have s -> exists eb, BlockTree.ordered_root (BlockStore.inner s) = Ok eb /\
  ExecutedBlock.round eb = round_of root.
Proof using Type.
  intros [Ht [Hr Hin] _ _ _]. destruct (get_block_in _ _ Hin) as [eb Heb]. exists eb. unfold BlockTree.ordered_root.
  rewrite Hr, Heb. split; [done|]. by destruct (get_block_ok _ _ _ _ _ Ht Heb) as (<- & [_ ? _ _] & _).
Qed.

(** A block whose parent is there is inserted. *)
Lemma insert_fills root have s b : filling root have s -> sound_block b -> round_of root < round_of (Block.id b) ->
  in_tree (BlockStore.inner s) (Block.parent_id b) -> ~ in_tree (BlockStore.inner s) (Block.id b) ->
  exists s' eb, BlockStore.execute_and_insert_block b s = (s', Ok eb) /\ filling root (have ++ [b]) s'.
Proof using Type.
  intros Hf Hb Hlt Hp Hn. destruct (filling_ordered_root _ _ _ Hf) as (rb & Hroot & Hrr).
  pose proof Hf as [Ht [Hr Hrin] Hin Hbl Hc]. specialize (Hb StateComputeResult.new_dummy).
  set (eb := ExecutedBlock.new b StateComputeResult.new_dummy) in *.
  assert (BlockTree.get_block (BlockStore.inner s) (Block.id b) = None) as Hnone.
  { destruct (BlockTree.get_block _ _) eqn:E; [|done]. destruct Hn. by apply (get_block_ok _ _ _ _ _ Ht E). }
  unfold BlockStore.execute_and_insert_block, BlockStore.get_block, BlockStore.ordered_root, gets, lift, mbind, action_bind.
  rewrite Hnone, Hroot, Hrr. pose proof (faithful_round _ _ _ Hb) as Hbr. cbn in Hbr. unfold ExecutedBlock.round in Hbr. cbn in Hbr.
  rewrite Hbr. unfold ensure. rewrite (proj2 (Z.ltb_lt _ _)) by done. cbn. fold eb.
  unfold BlockStore.on_tree, zoom. cbn. pose proof (insert_block_run _ _ _ eb Ht Hb) as Hrun.
  destruct (BlockTree.insert_block eb (BlockStore.inner s)) as [t' [eb'|e|]]; [|destruct Hrun as (_ & _ & []); exact Hp|].
  - eexists _, _. split; [done|]. destruct Hrun as [[_ E]|(_ & _ & p & Hpp & ->)]; [unfold ExecutedBlock.id in E; cbn in E; congruence|].
    assert (forall y, in_tree (insert_leaf (BlockStore.inner s) eb p) y <-> y = Block.id b \/ in_tree (BlockStore.inner s) y) as Hi.
    { intros y. by apply insert_leaf_in. }
    assert (ExecutedBlock.id eb <> ExecutedBlock.parent_id eb) as Hne by (intros E; apply Hn; unfold ExecutedBlock.id in E; cbn in E; by rewrite E).
    match goal with |- filling _ _ ?s1 => assert (BlockStore.inner s1 = insert_leaf (BlockStore.inner s) eb p) as Ei by done end.
    split; rewrite Ei.
    + by apply insert_leaf_ok.
    + split; [done|]. apply Hi. by right.
    + intros x. rewrite Hi, Hin. split.
      * intros [->|(b' & Hb' & <-)]; [exists b|exists b']; rewrite elem_of_app, list_elem_of_singleton; auto.
      * intros (b' & [Hb'| ->%list_elem_of_singleton]%elem_of_app & <-); [right|by left]. by exists b'.
    + intros x eb0. unfold BlockTree.get_block. rewrite get_insert_leaf by done.
      rewrite elem_of_app, list_elem_of_singleton. case_bool_decide; [intros [= <-]; by right|].
      case_bool_decide as E; [intros [= <-]; left|intros Hg; left; by eapply Hbl].
      eapply (Hbl (ExecutedBlock.parent_id eb)). unfold BlockTree.get_block. by rewrite Hpp.
    + apply Hi. by right.
  - destruct Hrun as (_ & b' & E & _). unfold ExecutedBlock.id in E. cbn in E. congruence.
Qed.

Lemma insert_all_fill root have bs s : filling root have s -> topological (Block.id <$> have) bs ->
  NoDup (Block.id <$> (have ++ bs)) ->
  (forall b, b ∈ bs -> sound_block b /\ round_of root < round_of (Block.id b)) ->
  exists s', BlockStore.for_each BlockStore.execute_and_insert_block bs s = (s', Ok tt) /\ filling root (have ++ bs) s'.
Proof using Type.
  revert have s. induction bs as [|b bs IH]; intros have s Hf Ht Hnd Hs; [exists s; by rewrite app_nil_r|].
  destruct Ht as [Hp Ht]. destruct (Hs b) as [Hb Hlt]; [left|].
  destruct (insert_fills root have s b Hf Hb Hlt) as (s1 & eb & Hi & Hf1).
  { apply (filling_in _ _ _ Hf). apply list_elem_of_fmap in Hp as (b' & -> & ?). by exists b'. }
  { rewrite (filling_in _ _ _ Hf). intros (b' & Hb' & E). rewrite fmap_app in Hnd. apply NoDup_app in Hnd as (_ & Hd & _).
    apply (Hd (Block.id b')); [by apply list_elem_of_fmap_2|]. rewrite E, fmap_cons. left. }
  destruct (IH (have ++ [b]) s1) as (s' & Hr & Hf'); [done| | |intros; apply Hs; by right|].
  - eapply topological_mono; [|exact Ht]. intros x. rewrite fmap_app, elem_of_app, elem_of_cons. cbn. rewrite list_elem_of_singleton. tauto.
  - by rewrite <-app_assoc.
  - exists s'. rewrite <-app_assoc in Hf'. split; [|done]. cbn [BlockStore.for_each]. unfold catch, lift, mbind, action_bind.
    by rewrite Hi.
Qed.

Lemma certifies_info qc b h v e : certifies qc b ->
  BlockInfo.match_ordered_only (Block.gen_block_info b h v e) (QuorumCert.certified_block qc) = true.
Proof using Type. done. Qed.

(** A certificate for a block that is there is inserted. *)
Lemma insert_cert_fills root have s qc : filling root have s ->
  (exists b, b ∈ have /\ Block.id b = BlockInfo.id (QuorumCert.certified_block qc)) ->
  (forall b, b ∈ have -> Block.id b = BlockInfo.id (QuorumCert.certified_block qc) -> certifies qc b) ->
  exists s', BlockStore.insert_single_quorum_cert qc s = (s', Ok tt) /\ filling root have s'.
Proof using Type.
  intros Hf Hex Hcert. pose proof Hf as [Ht [Hr Hrin] Hin Hbl Hc]. set (x := BlockInfo.id (QuorumCert.certified_block qc)) in *.
  apply Hin in Hex as Hx. destruct (get_block_in _ _ Hx) as [eb Heb]. destruct (get_block_ok _ _ _ _ _ Ht Heb) as (Hid & _).
  destruct (get_block_in _ _ Hc) as [hb Hhb].
  unfold BlockStore.insert_single_quorum_cert, BlockStore.get_block, gets, lift, mbind, action_bind. fold x. rewrite Heb. cbn [ok_or].
  unfold ensure, ExecutedBlock.block_info. rewrite certifies_info by (apply Hcert; [by eapply Hbl|done]). cbn.
  unfold BlockStore.on_tree, zoom. cbn.
  destruct (BlockTree.insert_quorum_cert qc (BlockStore.inner s)) as [t' o] eqn:Et.
  pose proof (tree_insert_quorum_cert_run _ _ _ _ Et) as (Eb & Ec & Eo & _ & Ep & _).
  assert (o = Ok tt /\ in_tree t' (BlockTree.highest_certified_block_id t')) as [-> Hc'].
  { revert Et. unfold BlockTree.insert_quorum_cert, BlockTree.highest_certified_block, gets, lift, modify, mret, action_ret.
    unfold mbind, action_bind. fold x. rewrite Heb, Hhb. cbn [expect]. unfold in_tree, BlockTree.get_linkable_block in *.
    destruct (ExecutedBlock.round hb <? ExecutedBlock.round eb); intros [= <- <-]; destruct (_ <? _); cbn; (split; [done|]); rewrite ?Hid; done. }
  eexists. split; [done|]. split; cbn.
  - eapply tree_ok_ext; [..|exact Ht]; done.
  - rewrite Eo. split; [done|]. by apply (in_tree_ext _ (BlockStore.inner s)).
  - intros y. rewrite <-Hin. by apply in_tree_ext.
  - intros y eb'. unfold BlockTree.get_block, BlockTree.get_linkable_block. rewrite Eb. apply Hbl.
  - done.
Qed.

Lemma insert_certs_fill root have qcs s : filling root have s ->
  (forall qc, qc ∈ qcs -> exists b, b ∈ have /\ Block.id b = BlockInfo.id (QuorumCert.certified_block qc)) ->
  (forall qc b, qc ∈ qcs -> b ∈ have -> Block.id b = BlockInfo.id (QuorumCert.certified_block qc) -> certifies qc b) ->
  exists s', BlockStore.for_each BlockStore.insert_single_quorum_cert qcs s = (s', Ok tt) /\ filling root have s'.
Proof using Type.
  revert s. induction qcs as [|qc qcs IH]; intros s Hf Hin Hc; [by exists s|].
  destruct (insert_cert_fills root have s qc Hf) as (s1 & Hi & Hf1); [apply Hin; left|intros; apply Hc; [left|done..]|].
  destruct (IH s1 Hf1) as (s' & Hr & Hf'); [intros; apply Hin; by right|intros; apply Hc; [by right|done..]|].
  exists s'. split; [|done]. cbn [BlockStore.for_each]. unfold catch, lift, mbind, action_bind. by rewrite Hi.
Qed.

(** What descends from a block has a later round. *)
Lemma descends_round bs r x : Forall sound_block bs -> descends bs r x -> x = r \/ round_of r < round_of x.
Proof using Type.
  intros Hs. induction 1 as [|b Hb Hd IH]; [by left|right]. rewrite Forall_forall in Hs.
  specialize (Hs b Hb (StateComputeResult.new HashValue_zero [] 0 [] 0 None [] [] [])). pose proof (faithful_parent _ _ _ Hs) as Hp.
  pose proof (faithful_later _ _ _ Hs) as Hlt. rewrite <-Hp in Hlt.
  change (ExecutedBlock.parent_id _) with (Block.parent_id b) in Hlt. change (ExecutedBlock.id _) with (Block.id b) in Hlt.
  destruct IH as [<-|]; lia.
Qed.

(** The tree a store is built from holds the root. *)
Lemma build_root_fills (root : RootInfo.t) meta max tc c st limit : sound_block (RootInfo.block root) ->
  let root_id := Block.id (RootInfo.block root) in ~ anc parent_of root_id root_id ->
  BlockInfo.id (QuorumCert.commit_info (RootInfo.ordered_cert root)) = root_id ->
  let info := QuorumCert.certified_block (RootInfo.quorum_cert root) in
  (BlockInfo.version info = 0 \/ BlockInfo.version info = RootMetadata.version meta) ->
  (BlockInfo.executed_state_id info = ACCUMULATOR_PLACEHOLDER_HASH \/
   BlockInfo.executed_state_id info = RootMetadata.accu_hash meta) ->
  exists tree, BlockStore.build_root root meta max tc = Ok tree /\
    filling root_id [RootInfo.block root] (BlockStore.mk tree c st [] limit).
Proof using Type.
  intros Hs root_id Hac Hoc info Hv He. unfold BlockStore.build_root. fold info.
  assert ((BlockInfo.version info =? 0) || (BlockInfo.version info =? RootMetadata.version meta) = true) as ->
    by (apply orb_true_iff; by rewrite !Z.eqb_eq).
  replace (bool_decide _ || _)%bool with true by (symmetry; apply orb_true_iff; by rewrite !bool_decide_eq_true).
  cbn [assert mbind outcome_bind].
  set (eb := ExecutedBlock.new _ _). specialize (Hs (ExecutedBlock.state_compute_result eb)). fold eb in Hs.
  destruct (BlockTree.new eb _ _ _ _ _) as [tree|e|] eqn:En; cycle 1.
  1,2: unfold BlockTree.new in En; change (ExecutedBlock.id eb) with root_id in En; by rewrite bool_decide_eq_true_2 in En.
  exists tree. split; [done|]. destruct (tree_new_ok parent_of round_of eb _ _ _ _ _ _ Hs Hac En) as (Ht & Hcr & Hor & _).
  assert (forall i lb, BlockTree.get_linkable_block tree i = Some lb -> i = root_id /\ lb = LinkableBlock.new eb) as Hg.
  { unfold BlockTree.new in En. apply bind_Ok in En as ([] & _ & En). injection En as <-.
    intros i lb. unfold BlockTree.get_linkable_block. cbn. case_bool_decide; [|done]. by intros [= <-]. }
  assert (in_tree tree root_id) as Hin by (change root_id with (ExecutedBlock.id eb); rewrite <-Hcr; apply Ht).
  split; cbn; [done|done| | |].
  - intros x. split; [intros [lb [-> _]%Hg]; exists (RootInfo.block root); by rewrite list_elem_of_singleton|].
    by intros (b & ->%list_elem_of_singleton & <-).
  - intros x eb'. unfold BlockTree.get_block. destruct (BlockTree.get_linkable_block tree x) as [lb|] eqn:El; [|done].
    apply Hg in El as [-> ->]. intros [= <-]. by apply list_elem_of_singleton.
  - unfold BlockTree.new in En. apply bind_Ok in En as ([] & _ & En). by injection En as <-.
Qed.

(** C21: what is recovered from storage can be inserted: a validator whose stored
    blocks are sound, and whose stored certificates are for these blocks, restarts
    without panicking, and its block tree holds exactly the stored blocks that
    descend from the last committed block.  This is [BlockStore::build]; the commit of
    the highest ordered certificate that [BlockStore::new] tries next is not part of it. *)
Theorem restart_succeeds vote self bs meta qcs tc d li all certs root_id max limit (c : Computer) (st : Storage) :
  RecoveryData.new vote self bs meta qcs tc = Ok d ->
  LedgerRecoveryData.starting_point self bs qcs = Ok (root_id, li, all, certs) ->
  NoDup (Block.id <$> all) -> Forall sound_block all -> ~ anc parent_of root_id root_id ->
  (forall b b', b ∈ all -> b' ∈ all -> Block.id b' = Block.parent_id b -> LedgerRecoveryData.key_le b b' = false) ->
  (forall qc b, qc ∈ certs -> b ∈ all -> Block.id b = BlockInfo.id (QuorumCert.certified_block qc) -> certifies qc b) ->
  let info := QuorumCert.certified_block (RootInfo.quorum_cert (RecoveryData.root d)) in
  (BlockInfo.version info = 0 \/ BlockInfo.version info = RootMetadata.version meta) ->
  (BlockInfo.executed_state_id info = ACCUMULATOR_PLACEHOLDER_HASH \/
   BlockInfo.executed_state_id info = RootMetadata.accu_hash meta) ->
  exists tree s,
    BlockStore.build_root (RecoveryData.root d) meta max (RecoveryData.highest_2chain_timeout_certificate d) = Ok tree /\
    BlockStore.fill (RecoveryData.blocks d) (RecoveryData.quorum_certs d) (BlockStore.mk tree c st [] limit) = (s, Ok tt) /\
    forall x, in_tree (BlockStore.inner s) x <-> descends all root_id x.
Proof using Type.
  intros Hd Hstart Hnd Hs Hac Hlt Hcert info Hv He.
  destruct (recovery_spec _ _ _ _ _ _ _ _ _ _ _ Hd Hstart Hnd Hlt) as (Hid & Hroot & Htop & Hblocks & Hqcs & _ & Hnb & Hoc).
  rewrite Forall_forall in Hs. set (rb := RootInfo.block (RecoveryData.root d)) in *.
  destruct (build_root_fills (RecoveryData.root d) meta max (RecoveryData.highest_2chain_timeout_certificate d) c st limit)
    as (tree & Ht & Hf); [by apply Hs|by rewrite <-Hid in Hac|by rewrite Hoc, <-Hid|done|done|].
  fold rb in Hf. rewrite Hid in Hf.
  assert (forall x, (exists b, b ∈ [rb] ++ RecoveryData.blocks d /\ Block.id b = x) <-> descends all root_id x) as Hdesc.
  { intros x. split.
    - intros (b & [->%list_elem_of_singleton|Hb]%elem_of_app & <-); [rewrite Hid; constructor|].
      apply Hblocks in Hb as (? & _ & ?). by apply descends_block.
    - induction 1 as [|b Hb Hde IH]; [exists rb; by rewrite elem_of_app, list_elem_of_singleton; auto|].
      destruct (decide (Block.id b = root_id)) as [E|Hne]; [exists rb|exists b]; rewrite elem_of_app, list_elem_of_singleton.
      + rewrite E. auto.
      + split; [right; by apply Hblocks|done]. }
  destruct (insert_all_fill root_id [rb] (RecoveryData.blocks d) _ Hf) as (s1 & Hr1 & Hf1).
  { cbn. by rewrite Hid. }
  { cbn. rewrite Hid. constructor; [|done]. intros (b & -> & Hb)%list_elem_of_fmap. by apply Hblocks in Hb as (_ & ? & _). }
  { intros b (Hb & Hne & Hde)%Hblocks. split; [by apply Hs|]. rewrite <-Forall_forall in Hs.
    apply (descends_block all root_id b Hb) in Hde. by apply descends_round in Hde as [?|?]. }
  destruct (insert_certs_fill root_id _ (RecoveryData.quorum_certs d) s1 Hf1) as (s2 & Hr2 & Hf2).
  { intros qc [_ Hq]%Hqcs. by apply Hdesc. }
  { intros qc b [Hq _]%Hqcs Hb. apply Hcert; [done|]. apply elem_of_app in Hb as [->%list_elem_of_singleton|Hb%Hblocks]; [done|].
    apply Hb. }
  destruct (filling_ordered_root _ _ _ Hf2) as (rb' & Hrb & _). exists tree, s2. split; [done|]. split.
  - unfold BlockStore.fill, mbind, action_bind. rewrite Hr1, Hr2. unfold BlockStore.ordered_root, gets, lift, mbind, action_bind.
    by rewrite Hrb.
  - intros x. rewrite (filling_in _ _ _ Hf2). apply Hdesc.
Qed.

(** ** Soundness of what is recovered *)

(** The block of the ledger info is not its own ancestor, or the genesis block it
    gives rise to is sound. *)
Definition sound_ledger (li : LedgerInfoWithSignatures.t) : Prop :=
  let info := LedgerInfoWithSignatures.ledger_info li in
  let acyclic x := ~ anc parent_of x x in
  if LedgerInfo.ends_epoch info then
    forall genesis qc, Block.make_genesis_block_from_ledger_info info = Ok genesis ->
      QuorumCert.certificate_for_genesis_from_ledger_info info (Block.id genesis) = Ok qc ->
      sound_block genesis /\ sound_cert round_of qc /\ acyclic (Block.id genesis)
  else acyclic (LedgerInfo.consensus_block_id info).

Lemma retain_blocks_in tree rem bs kept tree' rem' b :
  RecoveryData.retain_blocks tree rem bs = (kept, tree', rem') -> b ∈ kept -> b ∈ bs.
Proof using Type.
  revert tree rem kept. induction bs as [|c bs IH]; intros tree rem kept; cbn [RecoveryData.retain_blocks]; [by intros [= <- <- <-]|].
  case_bool_decide; [|intros E Hb; right; by eapply IH]. destruct (RecoveryData.retain_blocks _ rem bs) as [[k t1] r1] eqn:E.
  intros [= <- <- <-] [->|Hb]%elem_of_cons; [left|right]. by eapply IH.
Qed.

Lemma starting_point_sound self bs qcs root_id li all certs : Forall sound_block bs -> Forall (sound_cert round_of) qcs ->
  sound_ledger (LedgerRecoveryData.storage_ledger self) ->
  LedgerRecoveryData.starting_point self bs qcs = Ok (root_id, li, all, certs) ->
  Forall sound_block all /\ Forall (sound_cert round_of) certs /\ ~ anc parent_of root_id root_id.
Proof using Type.
  intros Hb Hq Hl. unfold LedgerRecoveryData.starting_point, sound_ledger in *. destruct (LedgerInfo.ends_epoch _).
  - intros Hs. apply bind_Ok in Hs as (g & Eg & Hs). apply bind_Ok in Hs as (gqc & Eqc & Hs). injection Hs as <- <- <- <-.
    destruct (Hl g gqc Eg Eqc) as (? & ? & ?). rewrite !Forall_app, !Forall_singleton. done.
  - by intros [= <- <- <- <-].
Qed.

(** Sound blocks and certificates are recovered as sound data, from which a store can
    be built or rebuilt. *)
Lemma recovered_data_sound vote self bs meta qcs tc d : Forall sound_block bs -> Forall (sound_cert round_of) qcs ->
  sound_ledger (LedgerRecoveryData.storage_ledger self) ->
  RecoveryData.new vote self bs meta qcs tc = Ok d -> sound_data parent_of round_of d.
Proof using Type.
  intros Hb Hq Hl Hd. unfold RecoveryData.new in Hd. apply bind_Ok in Hd as ([[rt others] cs] & Hf & Hd).
  apply find_root_spec in Hf as (li & all & Hs & Hperm & _ & [Hrq _] & [Hro Hoc] & Hcc).
  destruct (starting_point_sound _ _ _ _ _ _ _ Hb Hq Hl Hs) as (Hall & Hcs & Hac). rewrite Hperm, Forall_cons in Hall. destruct Hall as [Hroot Hoth].
  destruct (RecoveryData.find_blocks_to_prune _ _ _) as [[rem kept] kqcs] eqn:Ef. injection Hd as <-.
  unfold RecoveryData.find_blocks_to_prune in Ef. destruct (RecoveryData.retain_blocks _ _ _) as [[k tree'] rem1] eqn:Er.
  destruct (RecoveryData.retain_quorum_certs _ _ _) as [kq rem2] eqn:Eq in Ef. injection Ef as <- <- <-.
  rewrite Forall_forall in Hcs. rewrite Forall_forall in Hoth. destruct (merged_commit_info _ _ _ Hcc) as [_ Hround].
  pose proof (faithful_unsigned _ _ _ (Hroot (StateComputeResult.new HashValue_zero [] 0 [] 0 None [] [] []))) as Hpos.
  change (ExecutedBlock.id _) with (Block.id (RootInfo.block rt)) in Hpos. split; cbn; [done|done|by apply Hcs|..].
  - rewrite Hround. destruct (Hcs _ Hro) as [E|Hc]; [rewrite E; cbn; lia|]. unfold commits in Hc. rewrite Hc, Hoc. lia.
  - apply Forall_forall. intros b Hk. apply Hoth. by eapply retain_blocks_in.
  - apply Forall_forall. intros qc Hk. apply Hcs. by apply (retain_quorum_certs_spec _ _ _ _ _ Eq) in Hk as [? _].
Qed.
End restart.
