(* ===== verification/SyncManager.v ===== *)
(** * Synchronization of the block store

    Model of [consensus/src/block_storage/sync_manager.rs]: inserting certificates
    whose blocks are fetched from other validators, catching up with them by state
    synchronization, and answering their requests for blocks.

    The network is given by the answers to the requests, in order: for each request
    the answers of the peers that are asked, of which the first one that verifies is
    taken, as by [retrieve_block_for_id_chunk].  Messages that are sent are kept. *)

From S2P Require Import Prelude Collections Merkle InMemoryAccumulator BitVec ValidatorVerifier LedgerInfo.
From S2P Require Import TrustedState AccumulatorProofs QuorumCert Timeout2Chain ConsensusBlock ConsensusMessages.
From S2P Require Import ExecutedBlock BlockTree Recovery BlockStore.

(** Whether blocks have to be retrieved for a certificate. *)
Inductive NeedFetchResult := QCRoundBeforeRoot | QCAlreadyExist | QCBlockExist | NeedFetch.

Module SyncManager.
Section definitions.
Context `{CryptoTypes} `{!Transactions} `{!ExecutionTypes} `{!MerkleHasher HashValue}
  `{!CryptoHash VoteData.t} `{!CryptoHash BlockData.t} `{!BlsAggregate} `{!Bls LedgerInfo.t} `{!Bls BlockData.t}
  `{!StateComputer} `{!LivenessStorage}.
Import BlockRetrieval.

Definition MAX_BLOCKS_PER_REQUEST : Z := 10.

(** The messages of the synchronization. *)
Inductive Message :=
  | BroadcastEpochChange (proof : EpochChangeProof.t)
  | SendEpochChange (proof : EpochChangeProof.t)
  | SendCommitProof (ledger_info : LedgerInfoWithSignatures.t).

(** [BlockRetriever], with the validators and the time its responses are verified with. *)
Record BlockRetriever := block_retriever {
  validator_addresses : list AccountAddress;
  validators : ValidatorVerifier.t;
  current_ts : Z;
}.

Record t := mk {
  store : BlockStore.t;
  answers : list (list (result BlockRetrievalResponse));
  requests : list BlockRetrievalRequest;
  sent : list Message;
}.

Definition set_store (self : t) (s : BlockStore.t) : t := mk s (answers self) (requests self) (sent self).
Definition send (m : Message) : action t string unit :=
  modify (fun self => mk (store self) (answers self) (requests self) (sent self ++ [m])).

Abbreviation M := (action t string).

Definition in_store {A} (m : action BlockStore.t string A) : M A := zoom store set_store m.

(** *** Retrieving blocks *)

(** The first of the peers' answers that verifies. *)
Fixpoint first_verified (retriever : BlockRetriever) (request : BlockRetrievalRequest)
    (responses : list (result BlockRetrievalResponse)) : result BlockRetrievalResponse :=
  match responses with
  | [] => Err "Couldn't fetch block"%string
  | response :: responses =>
      match (r ← response; verify r request (validators retriever) (current_ts retriever);; Ok r) with
      | Err _ => first_verified retriever request responses
      | o => o
      end
  end.

Definition retrieve_block_for_id_chunk (retriever : BlockRetriever) (block_id target_block_id : HashValue)
    (retrieve_batch_size : Z) : M BlockRetrievalResponse :=
  let request := new_with_target_block_id block_id retrieve_batch_size target_block_id in
  self ← gets (fun self => self);
  modify (fun self => mk (store self) (tail (answers self)) (requests self ++ [request]) (sent self));;
  lift (first_verified retriever request (default [] (head (answers self)))).

(** The loop of [retrieve_block_for_id]; every turn of it uses up an answer. *)
Fixpoint retrieve_loop (fuel : nat) (retriever : BlockRetriever) (target_block_id : HashValue) (num_blocks : Z)
    (progress : Z) (last_block_id : HashValue) (retrieve_batch_size : Z) (result_blocks : list Block.t) :
    M (list Block.t) :=
  if progress <? num_blocks then
    match fuel with
    | O => lift Panic
    | S fuel =>
        rest ← lift (u64_sub num_blocks progress);
        let retrieve_batch_size := Z.min retrieve_batch_size rest in
        catch (retrieve_block_for_id_chunk retriever last_block_id target_block_id retrieve_batch_size)
          (fun response =>
             match response with
             | Ok result =>
                 match status result with
                 | Succeeded =>
                     let batch := blocks result in
                     progress ← lift (u64_add progress (Z.of_nat (length batch)));
                     block ← lift (expect (last batch));
                     retrieve_loop fuel retriever target_block_id num_blocks progress (Block.parent_id block)
                       retrieve_batch_size (result_blocks ++ batch)
                 | SucceededWithTarget => mret (result_blocks ++ blocks result)
                 | _ => lift (Err "Failed to fetch block"%string)
                 end
             | Err _ => lift (Err "Failed to fetch block"%string)
             | Panic => lift Panic
             end)
    end
  else mret result_blocks.

Definition retrieve_block_for_id (retriever : BlockRetriever) (block_id target_block_id : HashValue)
    (peers : list AccountAddress) (num_blocks : Z) : M (list Block.t) :=
  match peers with
  | [] => lift (Err "no peers available"%string)
  | _ =>
      self ← gets (fun self => self);
      result_blocks ← retrieve_loop (S (length (answers self))) retriever target_block_id num_blocks 0 block_id
        MAX_BLOCKS_PER_REQUEST [];
      block ← lift (expect (last result_blocks));
      lift (assert (bool_decide (Block.id block = target_block_id)));;
      mret result_blocks
  end.

Definition retrieve_block_for_qc (retriever : BlockRetriever) (qc : QuorumCert.t) (num_blocks : Z)
    (target_block_id : HashValue) : M (list Block.t) :=
  retrieve_block_for_id retriever (BlockInfo.id (QuorumCert.certified_block qc)) target_block_id
    (LedgerInfoWithSignatures.get_voters (QuorumCert.ledger_info qc) (validator_addresses retriever)) num_blocks.

(** *** Certificates *)
Definition need_sync_for_ledger_info (li : LedgerInfoWithSignatures.t) : action BlockStore.t string bool :=
  self ← gets (fun self => self);
  root ← BlockStore.ordered_root;
  let info := LedgerInfoWithSignatures.commit_info li in
  if (ExecutedBlock.round root <? BlockInfo.round info)
     && negb (BlockTree.block_exists (BlockStore.inner self) (BlockInfo.id info))
  then mret true
  else
    committed ← BlockStore.commit_root;
    twice ← lift (u64_mul 2 (BlockStore.vote_back_pressure_limit self));
    bound ← lift (u64_add (ExecutedBlock.round committed) twice);
    mret (bound <? BlockInfo.round info).

Definition need_fetch_for_quorum_cert (qc : QuorumCert.t) : action BlockStore.t string NeedFetchResult :=
  self ← gets (fun self => self);
  root ← BlockStore.ordered_root;
  let certified := QuorumCert.certified_block qc in
  mret (if BlockInfo.round certified <? ExecutedBlock.round root then QCRoundBeforeRoot
        else match BlockTree.get_quorum_cert_for_block (BlockStore.inner self) (BlockInfo.id certified) with
             | Some _ => QCAlreadyExist
             | None =>
                 if BlockTree.block_exists (BlockStore.inner self) (BlockInfo.id certified) then QCBlockExist
                 else NeedFetch
             end).

(** The first loop of [fetch_quorum_cert]; every turn of it uses up an answer. *)
Fixpoint fetch_loop (fuel : nat) (retriever : BlockRetriever) (retrieve_qc : QuorumCert.t)
    (pending : list Block.t) : M (list Block.t) :=
  let id := BlockInfo.id (QuorumCert.certified_block retrieve_qc) in
  self ← gets (fun self => self);
  if BlockTree.block_exists (BlockStore.inner (store self)) id then mret pending
  else
    match fuel with
    | O => lift Panic
    | S fuel =>
        blocks ← retrieve_block_for_qc retriever retrieve_qc 1 id;
        block ← lift (expect (head blocks));
        fetch_loop fuel retriever (Block.quorum_cert block) (block :: pending)
    end.

(** The second loop, over the blocks from the last one fetched. *)
Fixpoint insert_fetched (pending : list Block.t) : M unit :=
  match pending with
  | [] => mret tt
  | block :: pending =>
      in_store (BlockStore.insert_single_quorum_cert (Block.quorum_cert block));;
      in_store (BlockStore.execute_and_insert_block block);;
      insert_fetched pending
  end.

Definition fetch_quorum_cert (qc : QuorumCert.t) (retriever : BlockRetriever) : M unit :=
  self ← gets (fun self => self);
  pending ← fetch_loop (S (length (answers self))) retriever qc [];
  insert_fetched pending;;
  in_store (BlockStore.insert_single_quorum_cert qc).

(** The end of [insert_quorum_cert]. *)
Definition commit_if_new (qc : QuorumCert.t) : M unit :=
  root ← in_store BlockStore.ordered_root;
  if ExecutedBlock.round root <? BlockInfo.round (QuorumCert.commit_info qc) then
    in_store (BlockStore.commit qc);;
    (if QuorumCert.ends_epoch qc
     then send (BroadcastEpochChange (EpochChangeProof.new [QuorumCert.ledger_info qc] false))
     else mret tt)
  else mret tt.

Definition insert_quorum_cert (qc : QuorumCert.t) (retriever : BlockRetriever) : M unit :=
  need ← in_store (need_fetch_for_quorum_cert qc);
  match need with
  | NeedFetch => fetch_quorum_cert qc retriever;; commit_if_new qc
  | QCBlockExist => in_store (BlockStore.insert_single_quorum_cert qc);; commit_if_new qc
  | QCAlreadyExist => mret tt
  | QCRoundBeforeRoot => commit_if_new qc
  end.

(** *** Catching up *)
Fixpoint check_certified (blocks : list Block.t) (quorum_certs : list QuorumCert.t) : result unit :=
  match blocks, quorum_certs with
  | [], [] => Ok tt
  | block :: blocks, qc :: quorum_certs =>
      assert (bool_decide (Block.id block = BlockInfo.id (QuorumCert.certified_block qc)));;
      check_certified blocks quorum_certs
  | _, _ => Panic
  end.

Definition fast_forward_sync (highest_ordered_cert highest_commit_cert : QuorumCert.t)
    (retriever : BlockRetriever) : M RecoveryData.t :=
  gap ← lift (u64_sub (BlockInfo.round (QuorumCert.certified_block highest_ordered_cert))
    (LedgerInfo.round (LedgerInfoWithSignatures.ledger_info (QuorumCert.ledger_info highest_commit_cert))));
  num_blocks ← lift (u64_add gap 1);
  lift (assert (num_blocks <? u64_max));;
  let commit_id := BlockInfo.id (QuorumCert.commit_info highest_commit_cert) in
  blocks ← retrieve_block_for_qc retriever highest_ordered_cert num_blocks commit_id;
  first ← lift (expect (head blocks));
  lift (assert (bool_decide (Block.id first = BlockInfo.id (QuorumCert.certified_block highest_ordered_cert))));;
  final ← lift (expect (last blocks));
  lift (assert (bool_decide (Block.id final = commit_id)));;
  let quorum_certs := highest_ordered_cert :: (Block.quorum_cert <$> take (length blocks - 1) blocks) in
  let certified_id := BlockInfo.id (QuorumCert.certified_block highest_commit_cert) in
  '(blocks, quorum_certs) ←
    (if existsb (fun block => bool_decide (Block.id block = certified_id)) blocks then mret (blocks, quorum_certs)
     else
       additional_blocks ← retrieve_block_for_qc retriever highest_commit_cert 1 certified_id;
       lift (assert (Nat.eqb (length additional_blocks) 1));;
       block ← lift (expect (last additional_blocks));
       lift (assert (bool_decide (Block.id block = certified_id)));;
       mret (blocks ++ [block], quorum_certs ++ [highest_commit_cert]));
  lift (check_certified blocks quorum_certs);;
  lift (LedgerRecoveryData.find_root (LedgerRecoveryData.new (QuorumCert.ledger_info highest_commit_cert))
    blocks quorum_certs);;
  in_store (zoom BlockStore.storage BlockStore.set_storage (save_tree blocks quorum_certs));;
  in_store (BlockStore.sync_ledger (QuorumCert.ledger_info highest_commit_cert));;
  data ← in_store (zoom BlockStore.storage BlockStore.set_storage start);
  lift (match data with FullRecoveryData recovery_data => Ok recovery_data | PartialRecoveryData _ => Panic end).

Definition sync_to_highest_ordered_cert (highest_ordered_cert highest_commit_cert : QuorumCert.t)
    (retriever : BlockRetriever) : M unit :=
  need ← in_store (need_sync_for_ledger_info (QuorumCert.ledger_info highest_commit_cert));
  if negb need then mret tt
  else
    data ← fast_forward_sync highest_ordered_cert highest_commit_cert retriever;
    in_store BlockStore.ordered_root;;
    in_store (BlockStore.rebuild (RecoveryData.root data) (RecoveryData.root_metadata data)
      (RecoveryData.blocks data) (RecoveryData.quorum_certs data));;
    (if LedgerInfo.ends_epoch (LedgerInfoWithSignatures.ledger_info (QuorumCert.ledger_info highest_commit_cert))
     then send (SendEpochChange (EpochChangeProof.new [QuorumCert.ledger_info highest_ordered_cert] false))
     else mret tt).

Definition sync_to_highest_commit_cert (ledger_info : LedgerInfoWithSignatures.t) : M unit :=
  committed ← in_store BlockStore.commit_root;
  self ← gets (fun self => self);
  let info := LedgerInfoWithSignatures.commit_info ledger_info in
  if (ExecutedBlock.round committed <? BlockInfo.round info)
     && BlockTree.block_exists (BlockStore.inner (store self)) (BlockInfo.id info)
  then
    ordered ← in_store BlockStore.ordered_root;
    if BlockInfo.round info <=? ExecutedBlock.round ordered then send (SendCommitProof ledger_info) else mret tt
  else mret tt.

Definition add_certs (sync_info : SyncInfo.t) (retriever : BlockRetriever) : M unit :=
  sync_to_highest_commit_cert (QuorumCert.ledger_info (SyncInfo.highest_commit_cert sync_info));;
  sync_to_highest_ordered_cert (SyncInfo.highest_ordered_cert sync_info)
    (SyncInfo.highest_commit_cert sync_info) retriever;;
  insert_quorum_cert (SyncInfo.highest_ordered_cert sync_info) retriever;;
  insert_quorum_cert (SyncInfo.highest_quorum_cert sync_info) retriever;;
  match SyncInfo.highest_2chain_timeout_cert sync_info with
  | Some tc => in_store (BlockStore.insert_2chain_timeout_certificate tc)
  | None => mret tt
  end.

(** *** Answering requests *)

(** The loop of [process_block_retrieval]. *)
Fixpoint retrieval_loop (fuel : nat) (tree : BlockTree.t) (req : BlockRetrievalRequest) (id : HashValue)
    (acc : list Block.t) : result (BlockRetrievalStatus * list Block.t) :=
  if Z.of_nat (length acc) <? num_blocks req then
    match BlockTree.get_block tree id with
    | Some executed_block =>
        let acc := acc ++ [ExecutedBlock.block executed_block] in
        if match_target_id req id then Ok (SucceededWithTarget, acc)
        else match fuel with
             | O => Panic
             | S fuel => retrieval_loop fuel tree req (ExecutedBlock.parent_id executed_block) acc
             end
    | None => Ok (NotEnoughBlocks, acc)
    end
  else Ok (Succeeded, acc).

(** [process_block_retrieval], up to the response that is sent. *)
Definition process_block_retrieval (self : BlockStore.t) (req : BlockRetrievalRequest) :
    result BlockRetrievalResponse :=
  let tree := BlockStore.inner self in
  '(status, blocks) ← retrieval_loop (length (BlockTree.id_to_block tree)) tree req (block_id req) [];
  Ok (new_response (match blocks with [] => IdNotFound | _ => status end) blocks).
End definitions.
End SyncManager.

(** ** Runs of the block store *)
Section runs.
Context `{CryptoTypes} `{!Transactions} `{!ExecutionTypes} `{!MerkleHasher HashValue}
  `{!CryptoHash VoteData.t} `{!CryptoHash BlockData.t} `{!BlsAggregate} `{!Bls LedgerInfo.t} `{!Bls BlockData.t}
  `{!StateComputer} `{Laws : !StateComputerLaws} `{!LivenessStorage}.
Import SyncManager.

(** The calls that change a block store, and the reset of its pipeline.  The answers
    of the network are part of the call that uses them. *)
Inductive store_call :=
  | ExecuteAndInsertBlock (block : Block.t)
  | InsertQuorumCert (qc : QuorumCert.t) (retriever : BlockRetriever)
      (answers : list (list (result BlockRetrieval.BlockRetrievalResponse)))
  | InsertTimeoutCert (tc : TwoChainTimeoutCertificate.t)
  | AddCerts (sync_info : SyncInfo.t) (retriever : BlockRetriever)
      (answers : list (list (result BlockRetrieval.BlockRetrievalResponse)))
  | TryCommit
  | RunCallback (batches : nat) (commit_decision : LedgerInfoWithSignatures.t)
  | ResetPipeline.

Definition call (c : store_call) : action BlockStore.t string unit :=
  match c with
  | ExecuteAndInsertBlock block => BlockStore.execute_and_insert_block block;; mret tt
  | InsertQuorumCert qc retriever answers => fun s =>
      let '(m, o) := insert_quorum_cert qc retriever (mk s answers [] []) in (store m, o)
  | InsertTimeoutCert tc => BlockStore.insert_2chain_timeout_certificate tc
  | AddCerts sync_info retriever answers => fun s =>
      let '(m, o) := add_certs sync_info retriever (mk s answers [] []) in (store m, o)
  | TryCommit => BlockStore.try_commit
  | RunCallback n decision => BlockStore.run_callback n decision
  | ResetPipeline => BlockStore.reset_pipeline
  end.

(** The data a call rebuilds the store from: that of a fast forward synchronization. *)
Definition rebuilds (c : store_call) (s : BlockStore.t) : list RecoveryData.t :=
  match c with
  | AddCerts sync_info retriever answers =>
      match (sync_to_highest_commit_cert (QuorumCert.ledger_info (SyncInfo.highest_commit_cert sync_info));;
             need ← in_store (need_sync_for_ledger_info (QuorumCert.ledger_info (SyncInfo.highest_commit_cert sync_info)));
             if negb need then mret []
             else data ← fast_forward_sync (SyncInfo.highest_ordered_cert sync_info) (SyncInfo.highest_commit_cert sync_info) retriever;
                  mret [data]) (mk s answers [] []) with
      | (_, Ok data) => data
      | _ => []
      end
  | _ => []
  end.

(** Calls one after the other, until one panics, with the data of the rebuilds. *)
Fixpoint run (calls : list store_call) (s : BlockStore.t) : option (list RecoveryData.t * BlockStore.t) :=
  match calls with
  | [] => Some ([], s)
  | c :: calls =>
      match call c s with
      | (_, Panic) => None
      | (s', _) => '(rebuilt, s'') ← run calls s'; Some (rebuilds c s ++ rebuilt, s'')
      end
  end.

Context (parent_of : HashValue -> HashValue) (round_of : HashValue -> Z).
#[local] Notation sound_block := (sound_block parent_of round_of).
#[local] Notation sound_cert := (sound_cert round_of).

(** Verified blocks are what their identifiers say. *)
Definition sound_answers (retriever : BlockRetriever)
    (answers : list (list (result BlockRetrieval.BlockRetrievalResponse))) : Prop :=
  forall l r req b, l ∈ answers -> Ok r ∈ l ->
    BlockRetrieval.verify r req (validators retriever) (current_ts retriever) = Ok tt ->
    b ∈ BlockRetrieval.blocks r -> sound_block b /\ sound_cert (Block.quorum_cert b).

Definition sound_call (c : store_call) : Prop :=
  match c with
  | ExecuteAndInsertBlock block => sound_block block
  | InsertQuorumCert qc retriever answers => sound_cert qc /\ sound_answers retriever answers
  | AddCerts sync_info retriever answers =>
      sound_cert (SyncInfo.highest_ordered_cert sync_info) /\ sound_cert (SyncInfo.highest_quorum_cert sync_info) /\
      sound_answers retriever answers
  | _ => True
  end.

Context (root : HashValue) (before_root : list ExecutedBlock.t).
#[local] Notation store_ok := (store_ok parent_of round_of root before_root).

Definition sync_ok (retriever : BlockRetriever) (m : SyncManager.t) : Prop :=
  store_ok (store m) /\ sound_answers retriever (answers m).
Definition sound_pair (b : Block.t) : Prop := sound_block b /\ sound_cert (Block.quorum_cert b).

Lemma in_store_ok {A} r (m : action BlockStore.t string A) : hoare store_ok store_ok m (fun _ => store_ok) ->
  hoare (sync_ok r) (sync_ok r) (in_store m) (fun _ => sync_ok r).
Proof using Type.
  intros Hm s s' o [Hok Ha]. unfold in_store, zoom. destruct (m (store s)) as [st o'] eqn:E. intros [= <- <-].
  specialize (Hm _ _ _ Hok E). by destruct o'.
Qed.

Lemma first_verified_sound r req l resp : (forall x, Ok x ∈ l ->
    BlockRetrieval.verify x req (validators r) (current_ts r) = Ok tt -> Forall sound_pair (BlockRetrieval.blocks x)) ->
  first_verified r req l = Ok resp -> Forall sound_pair (BlockRetrieval.blocks resp).
Proof using Type.
  induction l as [|o l IH]; intros Hl; cbn [first_verified]; [done|].
  destruct o as [x|e|]; [|intros Hf; apply IH; [|done]; intros y ?; apply Hl; by right|done].
  rewrite bind_ret. destruct (BlockRetrieval.verify x req _ _) as [[]|e|] eqn:Ev; [|intros Hf; apply IH; [|done]; intros y ?; apply Hl; by right|done].
  intros [= <-]. apply Hl; [left|done].
Qed.

Lemma chunk_ok r id target n : hoare (sync_ok r) (sync_ok r) (retrieve_block_for_id_chunk r id target n)
  (fun resp m => sync_ok r m /\ Forall sound_pair (BlockRetrieval.blocks resp)).
Proof using Type.
  intros m m' o [Hok Ha] [= <- <-].
  assert (sync_ok r (mk (store m) (tail (answers m))
    (requests m ++ [BlockRetrieval.new_with_target_block_id id n target]) (sent m))) as Hs.
  { split; [done|]. cbn. intros l x req b Hl. apply (Ha l x req b). destruct (answers m); [done|by right]. }
  destruct (first_verified _ _ _) as [resp|e|] eqn:Ef; [|done..]. split; [done|].
  eapply first_verified_sound; [|done]. intros x Hx Hv. apply Forall_forall. intros b Hb.
  destruct (answers m) as [|l ans]; [by apply elem_of_nil in Hx|]. eapply (Ha l x); [left|done..].
Qed.

Lemma retrieve_loop_ok fuel r target n p id size acc : Forall sound_pair acc ->
  hoare (sync_ok r) (sync_ok r) (retrieve_loop fuel r target n p id size acc)
    (fun bs m => sync_ok r m /\ Forall sound_pair bs).
Proof using Type.
  revert p id size acc. induction fuel as [|fuel IH]; intros p id size acc Hacc; cbn [retrieve_loop].
  all: destruct (p <? n); [|by apply hoare_ret].
  { by intros m m' o _ [= <- <-]. }
  eapply hoare_bind; [apply (hoare_lift (sync_ok r) (sync_ok r)); done|]. intros rest m m' o [Hm _]. unfold catch.
  destruct (retrieve_block_for_id_chunk _ _ _ _ m) as [m1 o1] eqn:Ec. pose proof (chunk_ok _ _ _ _ _ _ _ Hm Ec) as Hc.
  destruct o1 as [resp|e|]; [|by intros [= <- <-]..]. destruct Hc as [Hm1 Hb].
  destruct (BlockRetrieval.status resp); [|by intros [= <- <-]..|].
  - set (k := mbind _ _). assert (hoare (sync_ok r) (sync_ok r) k (fun bs m => sync_ok r m /\ Forall sound_pair bs)) as Hk;
      [|exact (Hk _ _ _ Hm1)].
    eapply hoare_bind; [by apply (hoare_lift (sync_ok r) (sync_ok r))|]. intros p'. apply (hoare_bind _ _ _ _ (fun _ => sync_ok r)).
    + intros x x' o' [Hx _] [= <- <-]. by destruct (expect _).
    + intros b. apply IH. by apply Forall_app.
  - intros [= <- <-]. split; [done|]. by apply Forall_app.
Qed.

Lemma retrieve_ok r qc n target : hoare (sync_ok r) (sync_ok r) (retrieve_block_for_qc r qc n target)
  (fun bs m => sync_ok r m /\ Forall sound_pair bs).
Proof using Type.
  unfold retrieve_block_for_qc, retrieve_block_for_id.
  destruct (LedgerInfoWithSignatures.get_voters _ _); [by intros m m' o ? [= <- <-]|].
  apply (hoare_bind _ _ _ _ (fun _ => sync_ok r)); [by intros m m' o ? [= <- <-]|]. intros self.
  eapply hoare_bind; [by apply retrieve_loop_ok|]. intros bs. intros m m' o [Hm Hb].
  unfold lift, mbind, action_bind. destruct (expect _); [|by intros [= <- <-]..].
  destruct (assert _); [|by intros [= <- <-]..]. by intros [= <- <-].
Qed.

Lemma fetch_loop_ok fuel r qc pending : Forall sound_pair pending ->
  hoare (sync_ok r) (sync_ok r) (fetch_loop fuel r qc pending) (fun bs m => sync_ok r m /\ Forall sound_pair bs).
Proof using Type.
  revert qc pending. induction fuel as [|fuel IH]; intros qc pending Hp; cbn [fetch_loop].
  all: apply (hoare_bind _ _ _ _ (fun _ => sync_ok r)); [by intros m m' o ? [= <- <-]|]; intros self.
  all: destruct (BlockTree.block_exists _ _); [by apply hoare_ret|].
  { by intros m m' o ? [= <- <-]. }
  eapply hoare_bind; [apply retrieve_ok|]. intros bs m m' o [Hm Hbs]. unfold lift, mbind, action_bind.
  destruct bs as [|b bs]; [by intros [= <- <-]|]. cbn. apply Forall_cons in Hbs as [Hb _]. apply IH; [by constructor|done].
Qed.

Lemma insert_fetched_ok r pending : Forall sound_pair pending ->
  hoare (sync_ok r) (sync_ok r) (insert_fetched pending) (fun _ => sync_ok r).
Proof using Laws.
  induction 1 as [|b pending [Hb Hq] _ IH]; cbn [insert_fetched]; [by apply hoare_ret|].
  eapply hoare_bind; [by apply in_store_ok, insert_single_quorum_cert_ok|]. intros [].
  eapply hoare_bind; [by apply in_store_ok, execute_and_insert_block_ok|]. intros e. exact IH.
Qed.

(** A certificate above the ordered root commits a block. *)
Lemma commit_if_new_ok r qc : sound_cert qc -> hoare (sync_ok r) (sync_ok r) (commit_if_new qc) (fun _ => sync_ok r).
Proof using Laws.
  intros Hqc m m' o [Hok Ha]. destruct (ordered_root_get _ _ _ _ _ Hok) as (rb & Hget & Hroot & Hr).
  assert (0 <= ExecutedBlock.round rb) as Hpos.
  { destruct (get_block_ok _ _ _ _ _ (ok_tree _ _ _ _ _ Hok) Hget) as (Hid & [_ Hrd _ Hu] & _). lia. }
  unfold commit_if_new, in_store at 1, BlockStore.ordered_root, zoom, gets, lift, mbind, action_bind.
  cbn. rewrite Hroot. replace (set_store m (store m)) with m by by destruct m.
  destruct (Z.ltb_spec (ExecutedBlock.round rb) (BlockInfo.round (QuorumCert.commit_info qc))) as [Hlt|]; [|by intros [= <- <-]].
  assert (commits round_of qc) as Hc by (destruct Hqc as [E|]; [rewrite E in Hlt; cbn in Hlt; lia|done]).
  assert (hoare (sync_ok r) (sync_ok r) (in_store (BlockStore.commit qc);;
    (if QuorumCert.ends_epoch qc
     then send (BroadcastEpochChange (EpochChangeProof.new [QuorumCert.ledger_info qc] false))
     else mret tt)) (fun _ => sync_ok r)) as Hh; [|exact (Hh m m' o (conj Hok Ha))].
  eapply hoare_bind; [by apply in_store_ok, commit_ok|]. intros []. destruct (QuorumCert.ends_epoch qc).
  - by intros x x' o' Hx [= <- <-].
  - by apply hoare_ret.
Qed.

Lemma insert_quorum_cert_ok r qc : sound_cert qc ->
  hoare (sync_ok r) (sync_ok r) (insert_quorum_cert qc r) (fun _ => sync_ok r).
Proof using Laws.
  intros Hqc. unfold insert_quorum_cert. apply (hoare_bind _ _ _ _ (fun _ => sync_ok r)).
  { apply in_store_ok. unfold need_fetch_for_quorum_cert. eapply hoare_bind; [apply gets_ok|]. intros s.
    eapply hoare_bind; [apply read_ok|]. intros rb. by apply hoare_ret. }
  intros []; [by apply commit_if_new_ok|by apply hoare_ret|..].
  - eapply hoare_bind; [by apply in_store_ok, insert_single_quorum_cert_ok|]. intros []. by apply commit_if_new_ok.
  - apply (hoare_bind _ _ _ _ (fun _ => sync_ok r)); [|intros []; by apply commit_if_new_ok].
    unfold fetch_quorum_cert. apply (hoare_bind _ _ _ _ (fun _ => sync_ok r)); [by intros m m' o ? [= <- <-]|]. intros self.
    eapply hoare_bind; [by apply fetch_loop_ok|]. intros pending m m' o [Hm Hp].
    assert (hoare (sync_ok r) (sync_ok r) (insert_fetched pending;; in_store (BlockStore.insert_single_quorum_cert qc))
      (fun _ => sync_ok r)) as Hh; [|exact (Hh m m' o Hm)].
    eapply hoare_bind; [by apply insert_fetched_ok|]. intros []. by apply in_store_ok, insert_single_quorum_cert_ok.
Qed.

(** A call that does not synchronize. *)
Definition is_add_certs (c : store_call) : bool := match c with AddCerts _ _ _ => true | _ => false end.

Lemma call_ok c : sound_call c -> is_add_certs c = false -> hoare store_ok store_ok (call c) (fun _ => store_ok).
Proof using Laws.
  destruct c as [b|qc r ans|tc|si r ans| |n d|]; cbn [call sound_call is_add_certs]; try done.
  - intros Hb _. eapply hoare_bind; [by apply execute_and_insert_block_ok|]. intros e. by apply hoare_ret.
  - intros [Hqc Ha] _ s s' o Hok. destruct (insert_quorum_cert qc r _) as [m o'] eqn:E. intros [= <- <-].
    assert (sync_ok r (mk s ans [] [])) as Hs by done. pose proof (insert_quorum_cert_ok r qc Hqc _ _ _ Hs E) as Hr.
    destruct o'; [apply Hr..|done].
  - intros _ _. apply insert_2chain_timeout_certificate_ok.
  - intros _ _. by apply try_commit_ok.
  - intros _ _. apply run_callback_ok.
  - intros _ _ s s' o Hok Hr. pose proof (reset_pipeline_ok _ _ _ _ s s' o Hok Hr) as H'. by destruct o; [apply H'|..].
Qed.

(** *** Synchronizing *)
Lemma sync_to_highest_commit_cert_ok r li : hoare (sync_ok r) (sync_ok r) (sync_to_highest_commit_cert li) (fun _ => sync_ok r).
Proof using Type.
  unfold sync_to_highest_commit_cert. eapply hoare_bind; [apply in_store_ok, read_ok|]. intros cb.
  apply (hoare_bind _ _ _ _ (fun _ => sync_ok r)); [by intros m m' o ? [= <- <-]|]. intros self.
  destruct (_ && _); [|by apply hoare_ret]. eapply hoare_bind; [apply in_store_ok, read_ok|]. intros ob.
  destruct (_ <=? _); [|by apply hoare_ret]. by intros m m' o ? [= <- <-].
Qed.

Lemma need_sync_ok r li : hoare (sync_ok r) (sync_ok r) (in_store (need_sync_for_ledger_info li)) (fun _ => sync_ok r).
Proof using Type.
  apply in_store_ok. unfold need_sync_for_ledger_info. eapply hoare_bind; [apply gets_ok|]. intros self.
  eapply hoare_bind; [apply read_ok|]. intros root'. destruct (_ && _); [by apply hoare_ret|].
  eapply hoare_bind; [apply read_ok|]. intros cb. eapply hoare_bind; [apply lift_ok|]. intros twice.
  eapply hoare_bind; [apply lift_ok|]. intros bound. by apply hoare_ret.
Qed.

Lemma sync_lift_ok {A} r (o : result A) : hoare (sync_ok r) (sync_ok r) (lift o) (fun _ => sync_ok r).
Proof using Type. intros m m' o' Hm [= <- <-]. by destruct o. Qed.

Lemma zoom_storage_ok {A} (m : action Storage string A) :
  hoare store_ok store_ok (zoom BlockStore.storage BlockStore.set_storage m) (fun _ => store_ok).
Proof using Type.
  intros s s' o Hok. unfold zoom. destruct (m (BlockStore.storage s)) as [st o'] eqn:Em. intros [= <- <-].
  assert (store_ok (BlockStore.set_storage s st)) as Hok' by (eapply store_ok_ext; [..|exact Hok]; done). by destruct o'.
Qed.

Lemma retrieve_keeps r qc n target : hoare (sync_ok r) (sync_ok r) (retrieve_block_for_qc r qc n target) (fun _ => sync_ok r).
Proof using Type. eapply hoare_weaken; [apply retrieve_ok|done|]. by intros a m [? _]. Qed.

(** After a fast forward synchronization no callback is pending. *)
Lemma fast_forward_sync_ok r hoc hcc : hoare (sync_ok r) (sync_ok r) (fast_forward_sync hoc hcc r)
  (fun _ m => sync_ok r m /\ BlockStore.callbacks (store m) = []).
Proof using Laws.
  unfold fast_forward_sync. do 3 (eapply hoare_bind; [apply sync_lift_ok|]; intros ?).
  eapply hoare_bind; [apply retrieve_keeps|]. intros bs. do 4 (eapply hoare_bind; [apply sync_lift_ok|]; intros ?).
  apply (hoare_bind _ _ _ _ (fun _ => sync_ok r)).
  { destruct (existsb _ _); [by apply hoare_ret|]. eapply hoare_bind; [apply retrieve_keeps|]. intros more.
    do 3 (eapply hoare_bind; [apply sync_lift_ok|]; intros ?). by apply hoare_ret. }
  intros [bs' qcs]. do 2 (eapply hoare_bind; [apply sync_lift_ok|]; intros ?).
  eapply hoare_bind; [apply in_store_ok, zoom_storage_ok|]. intros [].
  apply (hoare_bind _ _ _ _ (fun _ m => sync_ok r m /\ BlockStore.callbacks (store m) = [])).
  { intros m m' o [Hok Ha]. unfold in_store, zoom. destruct (BlockStore.sync_ledger _ (store m)) as [s1 o1] eqn:E. intros [= <- <-].
    pose proof (sync_ledger_ok _ _ _ _ _ _ _ _ Hok E) as Hs. destruct o1 as [[]|e|]; [by destruct Hs|done..]. }
  intros []. apply (hoare_bind _ _ _ _ (fun _ m => sync_ok r m /\ BlockStore.callbacks (store m) = [])).
  { intros m m' o [[Hok Ha] Hc]. unfold in_store, zoom. destruct (start (BlockStore.storage (store m))) as [st o1] eqn:E. intros [= <- <-].
    assert (store_ok (BlockStore.set_storage (store m) st)) as Hok' by (eapply store_ok_ext; [..|exact Hok]; done). by destruct o1. }
  intros d m m' o [Hm Hc] [= <- <-]. by destruct d.
Qed.

(** What [add_certs] does after it has synchronized. *)
Definition insert_certs (sync_info : SyncInfo.t) (retriever : BlockRetriever) : action SyncManager.t string unit :=
  insert_quorum_cert (SyncInfo.highest_ordered_cert sync_info) retriever;;
  insert_quorum_cert (SyncInfo.highest_quorum_cert sync_info) retriever;;
  match SyncInfo.highest_2chain_timeout_cert sync_info with
  | Some tc => in_store (BlockStore.insert_2chain_timeout_certificate tc)
  | None => mret tt
  end.

Lemma insert_certs_ok si r : sound_cert (SyncInfo.highest_ordered_cert si) -> sound_cert (SyncInfo.highest_quorum_cert si) ->
  hoare (sync_ok r) (sync_ok r) (insert_certs si r) (fun _ => sync_ok r).
Proof using Laws.
  intros Ho Hq. unfold insert_certs. do 2 (eapply hoare_bind; [by apply insert_quorum_cert_ok|]; intros []).
  destruct (SyncInfo.highest_2chain_timeout_cert si); [apply in_store_ok, insert_2chain_timeout_certificate_ok|by apply hoare_ret].
Qed.
End runs.

(** ** What holds in every run *)
Section properties.
Context `{CryptoTypes} `{!Transactions} `{!ExecutionTypes} `{!MerkleHasher HashValue}
  `{!CryptoHash VoteData.t} `{!CryptoHash BlockData.t} `{!BlsAggregate} `{!Bls LedgerInfo.t} `{!Bls BlockData.t}
  `{!StateComputer} `{Laws : !StateComputerLaws} `{!LivenessStorage}.
Context (parent_of : HashValue -> HashValue) (round_of : HashValue -> Z).
Implicit Types (s : BlockStore.t) (data : RecoveryData.t).
Import SyncManager.

#[local] Notation below s x y := (below parent_of (BlockStore.inner s) x y).

Definition root_id data : HashValue := Block.id (RootInfo.block (RecoveryData.root data)).

(** The state [s] of a store that was built from [data] for the state computer [c],
    and rebuilt from [rebuilt]. *)
Definition runs_to data (c : Computer) (rebuilt : list RecoveryData.t) s : Prop := exists st max limit calls s0,
  sound_data parent_of round_of data /\ receiving c = true /\ BlockStore.new data c st max limit = Ok s0 /\
  Forall (sound_call parent_of round_of) calls /\ run calls s0 = Some (rebuilt, s) /\
  Forall (sound_data parent_of round_of) rebuilt.
Definition reachable data (c : Computer) s : Prop := exists rebuilt, runs_to data c rebuilt s.

(** Blocks that follow each other from [r] on, each one once. *)
Definition chain_from (r : HashValue) (l : list ExecutedBlock.t) : Prop := linked r l /\ NoDup (ExecutedBlock.id <$> l).

(** The blocks sent before the last rebuild are a chain for each time the store was
    built; from there on the invariant of the block store holds. *)
Definition history data (c : Computer) (rebuilt : list RecoveryData.t) s : Prop := exists before last older,
  data :: rebuilt = before ++ [last] /\ Forall2 (fun d l => chain_from (root_id d) l) before older /\
  store_ok parent_of round_of (root_id last) (ordered c ++ mjoin older) s.

Lemma store_chain r before s : store_ok parent_of round_of r before s -> exists l,
  ordered (BlockStore.state_computer s) = before ++ l /\ chain_from r l /\
  end_of r l = BlockTree.ordered_root_id (BlockStore.inner s) /\
  exists l', l' `prefix_of` l /\ end_of r l' = BlockTree.commit_root_id (BlockStore.inner s).
Proof using Type.
  intros Hok. destruct (ok_log _ _ _ _ _ Hok) as (cm & dr & [L1 L2 L3 L4 L5]). exists (cm ++ dr ++ pending s).
  split_and!; [done|by split; [|eapply linked_once]|done|]. exists cm. split; [by eexists|done].
Qed.

(** [add_certs] keeps the root, or rebuilds the store from what was recovered. *)
Lemma add_certs_ok r before si ret ans s s' o : store_ok parent_of round_of r before s ->
  sound_call parent_of round_of (AddCerts si ret ans) ->
  Forall (sound_data parent_of round_of) (rebuilds (AddCerts si ret ans) s) ->
  call (AddCerts si ret ans) s = (s', o) -> o <> Panic ->
  rebuilds (AddCerts si ret ans) s = [] /\ store_ok parent_of round_of r before s' \/
  exists d l, rebuilds (AddCerts si ret ans) s = [d] /\ chain_from r l /\ store_ok parent_of round_of (root_id d) (before ++ l) s'.
Proof using Laws.
  intros Hok (Ho & Hq & Ha) Hd Hrun Hp. cbn [call rebuilds] in *. set (m0 := mk s ans [] []) in *.
  assert (sync_ok parent_of round_of r before ret m0) as Hm0 by done. clearbody m0.
  unfold add_certs, sync_to_highest_ordered_cert in Hrun. fold (insert_certs si ret) in Hrun.
  set (li := QuorumCert.ledger_info (SyncInfo.highest_commit_cert si)) in *.
  pose proof (sync_to_highest_commit_cert_ok parent_of round_of r before ret li) as HP.
  pose proof (need_sync_ok parent_of round_of r before ret li) as HN.
  pose proof (fast_forward_sync_ok parent_of round_of r before ret (SyncInfo.highest_ordered_cert si) (SyncInfo.highest_commit_cert si)) as HF.
  assert (forall r before, hoare (sync_ok parent_of round_of r before ret) (sync_ok parent_of round_of r before ret) (insert_certs si ret)
    (fun _ => sync_ok parent_of round_of r before ret)) as HT by (intros; by apply insert_certs_ok).
  set (P := sync_to_highest_commit_cert li) in *. set (N := in_store (need_sync_for_ledger_info li)) in *.
  set (F := fast_forward_sync _ _ _) in *. set (T := insert_certs si ret) in *. clearbody P N F T.
  unfold mbind, action_bind, mret, action_ret in Hrun, Hd. unfold mbind, action_bind, mret, action_ret.
  destruct (P m0) as [m1 [[]|e|]] eqn:EP; [|injection Hrun as <- <-; left; by destruct (HP _ _ _ Hm0 EP)|by injection Hrun as <- <-].
  pose proof (HP _ _ _ Hm0 EP) as Hm1. cbn beta iota in Hm1.
  destruct (N m1) as [m2 [need|e|]] eqn:EN; [|injection Hrun as <- <-; left; by destruct (HN _ _ _ Hm1 EN)|by injection Hrun as <- <-].
  pose proof (HN _ _ _ Hm1 EN) as Hm2. cbn beta iota in Hm2. destruct need; cbn [negb] in *; cycle 1.
  { left. split; [done|]. destruct (T m2) as [m3 o3] eqn:ET. injection Hrun as <- <-. pose proof (HT _ _ _ _ _ Hm2 ET) as Hm3.
    destruct o3; [apply Hm3..|done]. }
  destruct (F m2) as [m3 [d|e|]] eqn:EF; [|injection Hrun as <- <-; left; by destruct (HF _ _ _ Hm2 EF)|by injection Hrun as <- <-].
  destruct (HF _ _ _ Hm2 EF) as [[Hok3 Ha3] Hcb]. right. destruct (store_chain _ _ _ Hok3) as (l & Hl & Hch & _).
  exists d, l. split; [done|]. split; [done|]. apply Forall_cons in Hd as [Hd _].
  destruct (ordered_root_get _ _ _ _ _ Hok3) as (rb & _ & Hroot & _).
  unfold in_store at 1, zoom at 1, BlockStore.ordered_root, gets, lift, mbind, action_bind in Hrun. cbn in Hrun. rewrite Hroot in Hrun.
  unfold in_store, zoom in Hrun. cbn in Hrun.
  destruct (BlockStore.rebuild _ _ _ _ (store m3)) as [s4 o4] eqn:ER.
  pose proof (rebuild_ok parent_of round_of (root_id d) (before ++ l) d (store m3) s4 o4 Hd (ok_receiving _ _ _ _ _ Hok3) Hcb eq_refl (eq_sym Hl) ER) as Hs4.
  destruct o4 as [[]|e|]; [|injection Hrun as <- <-; exact Hs4|by injection Hrun as <- <-].
  set (m4 := set_store _ s4) in Hrun. assert (sync_ok parent_of round_of (root_id d) (before ++ l) ret m4) as Hm4 by done.
  destruct (LedgerInfo.ends_epoch _); cbn in Hrun;
    match type of Hrun with context [T ?m5] => assert (sync_ok parent_of round_of (root_id d) (before ++ l) ret m5) as Hm5 by done;
      destruct (T m5) as [m6 o6] eqn:ET; pose proof (HT _ _ _ _ _ Hm5 ET) as Hm6 end;
    injection Hrun as <- <-; destruct o6; first [done|apply Hm6].
Qed.

Lemma call_history data c rebuilt s call s' o : history data c rebuilt s -> sound_call parent_of round_of call ->
  Forall (sound_data parent_of round_of) (rebuilds call s) -> SyncManager.call call s = (s', o) -> o <> Panic ->
  history data c (rebuilt ++ rebuilds call s) s'.
Proof using Laws.
  intros (before & d & older & Hb & Hc & Hok) Hs Hd Hr Hp. destruct (is_add_certs call) eqn:Ea; cycle 1.
  - assert (rebuilds call s = []) as -> by by destruct call. rewrite app_nil_r. exists before, d, older. split_and!; [done..|].
    pose proof (call_ok parent_of round_of _ _ call Hs Ea s s' o Hok Hr) as H'. by destruct o.
  - destruct call as [| | |si ret ans| | |]; try done.
    destruct (add_certs_ok _ _ si ret ans s s' o Hok Hs Hd Hr Hp) as [[-> Hok']|(d' & l & -> & Hl & Hok')].
    + rewrite app_nil_r. by exists before, d, older.
    + exists (before ++ [d]), d', (older ++ [l]). rewrite app_comm_cons, Hb. split_and!; [done|by apply Forall2_app; [|constructor]|].
      rewrite join_app. cbn. by rewrite app_nil_r, app_assoc.
Qed.

Lemma run_history data c calls rebuilt rebuilt' s s' : history data c rebuilt s -> Forall (sound_call parent_of round_of) calls ->
  run calls s = Some (rebuilt', s') -> Forall (sound_data parent_of round_of) rebuilt' -> history data c (rebuilt ++ rebuilt') s'.
Proof using Laws.
  intros Hh Hc. revert rebuilt rebuilt' s Hh. induction Hc as [|call calls Hc _ IH]; intros rebuilt rebuilt' s Hh; cbn [run].
  { intros [= <- <-] _. by rewrite app_nil_r. }
  destruct (SyncManager.call call s) as [s1 o] eqn:E. intros Hr Hd.
  assert (exists rest, run calls s1 = Some (rest, s') /\ rebuilt' = rebuilds call s ++ rest /\ o <> Panic) as (rest & Hr1 & -> & Hp).
  { destruct o; try done; destruct (run calls s1) as [[rest s2]|]; try done; injection Hr as <- <-; by exists rest. }
  apply Forall_app in Hd as [Hd1 Hd2]. rewrite app_assoc. apply (IH _ rest s1); [|done..]. by eapply call_history.
Qed.

Lemma runs_to_history data c rebuilt s : runs_to data c rebuilt s -> history data c rebuilt s.
Proof using Laws.
  intros (st & max & limit & calls & s0 & Hd & Hc & Hn & Hcalls & Hr & Hds). apply (run_history data c calls [] rebuilt s0); try done.
  exists [], data, []. split_and!; [done|constructor|]. cbn. rewrite app_nil_r. by eapply new_ok.
Qed.

Lemma store_reachable_ok data c s : reachable data c s -> exists root before, store_ok parent_of round_of root before s.
Proof using Laws. intros [rebuilt (before & d & older & _ & _ & Hok)%runs_to_history]. eauto. Qed.

(** C7: whatever blocks, certificates, timeouts, synchronization infos and commit
    decisions arrive, in any order, the blocks a validator hands to the state computer
    are one chain, each block once, for each time the block store was built: from the
    root it started from, and from the root of each fast forward synchronization.  The
    ordered root is the end of the last of these chains, and the commit root is on it.
    What is received and recovered is taken to agree with the parents and the rounds
    that the identifiers stand for ([sound_call], [sound_data]). *)
Theorem ordered_blocks_chain data c rebuilt s : runs_to data c rebuilt s ->
  exists before last chains l, data :: rebuilt = before ++ [last] /\
    ordered (BlockStore.state_computer s) = ordered c ++ mjoin chains ++ l /\
    Forall2 (fun d l => chain_from (root_id d) l) (before ++ [last]) (chains ++ [l]) /\
    end_of (root_id last) l = BlockTree.ordered_root_id (BlockStore.inner s) /\
    exists l', l' `prefix_of` l /\ end_of (root_id last) l' = BlockTree.commit_root_id (BlockStore.inner s).
Proof using Laws.
  intros (before & d & older & Hb & Hc & Hok)%runs_to_history. destruct (store_chain _ _ _ Hok) as (l & Hl & Hch & He & Hp).
  exists before, d, older, l. rewrite app_assoc. split_and!; [done|done|by apply Forall2_app; [|constructor]|done|done].
Qed.

(** C23: the block tree stays well formed under every call of the block store, from
    single insertions to fetched ancestors, fast forward synchronization and rebuilding,
    commits, their callbacks and resets of the pipeline: every block is stored once,
    under its own identifier, a block's children are exactly the blocks of the tree that
    name it as parent, and the queue of pruned blocks has no duplicates, holds only
    blocks that are not below the commit root, and ancestors come before descendants.
    The ordered root is below the commit root.  What is received and recovered is taken
    to agree with the parents and the rounds that the identifiers stand for. *)
Theorem block_tree_well_formed data c s : reachable data c s ->
  tree_ok parent_of round_of (BlockStore.inner s) /\
  live parent_of (BlockStore.inner s) (BlockTree.ordered_root_id (BlockStore.inner s)).
Proof using Laws. intros (root & before & Hr)%store_reachable_ok. split; apply Hr. Qed.

(** C24: looking up the path from a root to a block always ends; it gives the chain of
    blocks from the root to the block if the block is below the root, and nothing
    otherwise. *)
Theorem paths_from_roots data c s x : reachable data c s ->
  let tree := BlockStore.inner s in
  (exists found, BlockTree.path_from_ordered_root tree x = Ok found /\
     match found with
     | Some l => below s (BlockTree.ordered_root_id tree) x /\ linked (BlockTree.ordered_root_id tree) l /\
         end_of (BlockTree.ordered_root_id tree) l = x
     | None => ~ below s (BlockTree.ordered_root_id tree) x
     end) /\
  (exists found, BlockTree.path_from_commit_root tree x = Ok found /\
     match found with
     | Some l => below s (BlockTree.commit_root_id tree) x /\ linked (BlockTree.commit_root_id tree) l /\
         end_of (BlockTree.commit_root_id tree) l = x
     | None => ~ below s (BlockTree.commit_root_id tree) x
     end).
Proof using Laws.
  intros Hr tree. destruct (store_reachable_ok _ _ _ Hr) as (root & before & Hok). pose proof (ok_tree _ _ _ _ _ Hok) as Ht.
  destruct (ordered_root_get _ _ _ _ s Hok) as (ob & _ & Ho & Hor). destruct (commit_root_get _ _ _ _ s Hok) as (cb & Hc & Hcr).
  unfold BlockTree.path_from_ordered_root, BlockTree.path_from_commit_root, tree. rewrite Ho, Hc, !bind_ret, Hor, Hcr. split.
  - destruct (path_run _ _ _ x _ Ht (below_in _ _ _ _ (ok_ordered _ _ _ _ _ Hok))) as [(Hb & l & -> & Hl & He & _)|[Hb ->]];
      eexists; split; done.
  - destruct (path_run _ _ _ x _ Ht (ok_root _ _ _ Ht)) as [(Hb & l & -> & Hl & He & _)|[Hb ->]]; eexists; split; done.
Qed.

(** Committing with a certificate fails if the block is unknown or not after the
    ordered root, stops the validator if the block is on a fork, and otherwise hands
    exactly the blocks between the ordered root and the block to the state
    computer, once. *)
Theorem commit_outcomes data c s qc : reachable data c s ->
  let x := BlockInfo.id (QuorumCert.commit_info qc) in
  let r := BlockTree.ordered_root_id (BlockStore.inner s) in
  ~ in_tree (BlockStore.inner s) x /\ BlockStore.commit qc s = (s, Err "Committed block id not found"%string) \/
  in_tree (BlockStore.inner s) x /\ round_of x <= round_of r /\
    BlockStore.commit qc s = (s, Err "Committed block round lower than root"%string) \/
  in_tree (BlockStore.inner s) x /\ round_of r < round_of x /\ ~ below s r x /\ BlockStore.commit qc s = (s, Panic) \/
  round_of r < round_of x /\ below s r x /\ exists path, linked r path /\ end_of r path = x /\
    forall c', commit_ordered path (QuorumCert.ledger_info qc) (BlockStore.state_computer s) = (c', Ok tt) ->
      exists s', BlockStore.commit qc s = (s', Ok tt) /\
        ordered (BlockStore.state_computer s') = ordered (BlockStore.state_computer s) ++ path /\
        BlockTree.ordered_root_id (BlockStore.inner s') = x /\
        BlockStore.callbacks s' = BlockStore.callbacks s ++ [(path, qc)].
Proof using Laws.
  intros Hr x r. destruct (store_reachable_ok _ _ _ Hr) as (root & before & Hok).
  destruct (commit_run _ _ _ _ s qc Hok) as
    [Hc|[Hc|[Hc|(Hlt & Hb & path & b & Hl & He & _ & _ & Hc)]]]; [by left|right; by left|by do 2 right; left|do 3 right].
  split_and!; [done..|]. exists path. split_and!; [done..|]. intros c' Hco. rewrite Hc, Hco. eexists. split; [done|].
  apply commit_ordered_ordered in Hco as [Ho _]; [done|apply Hok].
Qed.

(** C20: when the pipeline reports the commit of pending batches with a decision that
    matches the last one's certificate, the callback succeeds: the block becomes the
    commit root, the storage is told to prune exactly the blocks that do not
    descend from it, these are no longer below the root, and the pruned blocks that
    are kept in memory are at most as many as configured. *)
Theorem pending_commit_succeeds data c s n bs qc decision cp : reachable data c s ->
  last (take n (BlockStore.callbacks s)) = Some (bs, qc) ->
  QuorumCert.create_merged_with_executed_state qc decision = Ok cp ->
  let x := BlockInfo.id (QuorumCert.commit_info qc) in
  exists pruned tree, BlockTree.commit_callback (mjoin (take n (BlockStore.callbacks s)).*1) qc decision
      (BlockStore.inner s) = (tree, Ok pruned) /\
    BlockTree.commit_root_id tree = x /\ BlockTree.highest_commit_cert tree = cp /\ NoDup pruned /\
    (forall y, y ∈ pruned <-> live parent_of (BlockStore.inner s) y /\ ~ below s x y) /\
    (forall y, live parent_of tree y <-> below s x y) /\
    (length (BlockTree.pruned_block_ids tree) <= BlockTree.max_pruned_blocks_in_mem (BlockStore.inner s))%nat.
Proof using Laws.
  intros Hr Hl Hm x. destruct (store_reachable_ok _ _ _ Hr) as (root & before & Hok).
  destruct (callback_run _ _ _ _ s n bs qc decision cp Hok Hl Hm) as (V & t' & Hrun & [Pn Pi _] & Hc & _).
  destruct Hc as [_ C1 C2 _ C3 C4 _ C5]. exists V, t'. rewrite <-C4. done.
Qed.

(** The subtraction of the back pressure computation never underflows, and a
    validator stops voting exactly when the ordered root is more than the limit of
    rounds ahead of the commit root. *)
Theorem back_pressure_exact data c s : reachable data c s ->
  let committed := round_of (BlockTree.commit_root_id (BlockStore.inner s)) in
  let ordered := round_of (BlockTree.ordered_root_id (BlockStore.inner s)) in
  committed <= ordered /\
  (BlockStore.vote_back_pressure_limit s + committed < 2 ^ 64 ->
   BlockStore.vote_back_pressure s =
     (s, Ok (bool_decide (BlockStore.vote_back_pressure_limit s < ordered - committed)))).
Proof using Laws.
  intros Hr committed ordered. destruct (store_reachable_ok _ _ _ Hr) as (root & before & Hok).
  destruct (ordered_root_get _ _ _ _ s Hok) as (ob & _ & Ho & Hor). destruct (commit_root_get _ _ _ _ s Hok) as (cb & Hc & Hcr).
  assert (committed <= ordered) as Hle.
  { destruct (below_anc _ round_of _ _ _ (ok_tree _ _ _ _ _ Hok) (ok_ordered _ _ _ _ _ Hok)) as [E|]; unfold committed, ordered; [rewrite E|]; lia. }
  split; [done|]. intros Hlim. unfold BlockStore.vote_back_pressure, BlockStore.commit_root, BlockStore.ordered_root.
  unfold gets, lift, mbind, action_bind. rewrite Hc, Ho, Hor, Hcr. fold committed. fold ordered. rewrite u64_sub_Ok, u64_add_Ok by done.
  unfold mret, action_ret. do 2 f_equal. destruct (Z.ltb_spec (BlockStore.vote_back_pressure_limit s + committed) ordered).
  - by rewrite bool_decide_eq_true_2 by lia.
  - by rewrite bool_decide_eq_false_2 by lia.
Qed.

(** *** Answers to requests for blocks *)

(** Blocks from [id] on, each one followed by its parent; [next] is the parent of the
    last one. *)
Fixpoint descending (id : HashValue) (bs : list Block.t) (next : HashValue) : Prop :=
  match bs with
  | [] => next = id
  | b :: bs => Block.id b = id /\ descending (Block.parent_id b) bs next
  end.

(** A response holds blocks of the tree, from the requested one on, and says why they
    end: there are as many as requested, the last one is the target, or its parent is
    not in the tree. *)
Record answers_request (tree : BlockTree.t) (req : BlockRetrieval.BlockRetrievalRequest)
    (response : BlockRetrieval.BlockRetrievalResponse) (next : HashValue) : Prop := {
  answer_chain : descending (BlockRetrieval.block_id req) (BlockRetrieval.blocks response) next;
  answer_stored b : b ∈ BlockRetrieval.blocks response ->
    exists eb, BlockTree.get_block tree (Block.id b) = Some eb /\ ExecutedBlock.block eb = b;
  answer_count : Z.of_nat (length (BlockRetrieval.blocks response)) <= BlockRetrieval.num_blocks req;
  answer_status :
    match BlockRetrieval.status response with
    | BlockRetrieval.Succeeded =>
        Z.of_nat (length (BlockRetrieval.blocks response)) = BlockRetrieval.num_blocks req
    | BlockRetrieval.SucceededWithTarget => exists b, last (BlockRetrieval.blocks response) = Some b /\
        BlockRetrieval.match_target_id req (Block.id b) = true
    | BlockRetrieval.NotEnoughBlocks => BlockTree.get_block tree next = None
    | BlockRetrieval.IdNotFound => BlockRetrieval.blocks response = []
    end;
}.

Section answers.
Import BlockRetrieval.

Lemma descending_snoc i bs b : descending i bs (Block.id b) -> descending i (bs ++ [b]) (Block.parent_id b).
Proof using Type.
  revert i. induction bs as [|c bs IH]; intros i; cbn [descending app]; [by intros <-|]. intros [? ?]. split; [done|]. by apply IH.
Qed.

Lemma verify_chain_iff v now i bs next : descending i bs next -> verify_chain i v now bs = Ok next <->
  forall b, b ∈ bs -> Block.validate_signature b v = Ok tt /\ Block.verify_well_formed b now = Ok tt.
Proof using Type.
  intros Hd. split; [intros Hv b; by eapply verify_chain_ids|]. revert i Hd.
  induction bs as [|b bs IH]; intros i; cbn [descending]; [by intros <-|]. intros [Hi Hd] Hv. apply verify_chain_cons.
  destruct (Hv b) as [? ?]; [left|]. split_and!; [done..|]. apply IH; [done|]. intros c ?. apply Hv. by right.
Qed.

(** A state of the loop. *)
Record gathered (tree : BlockTree.t) (req : BlockRetrievalRequest) (id : HashValue) (acc : list Block.t) : Prop := {
  gathered_chain : descending (block_id req) acc id;
  gathered_once : NoDup (Block.id <$> acc);
  gathered_stored b : b ∈ acc -> exists eb, BlockTree.get_block tree (Block.id b) = Some eb /\ ExecutedBlock.block eb = b;
  gathered_later b : b ∈ acc -> in_tree tree id -> round_of id < round_of (Block.id b);
  gathered_count : Z.of_nat (length acc) <= num_blocks req;
}.

Lemma gathered_step tree req id acc eb : BlockTree.tree_ok parent_of round_of tree -> gathered tree req id acc ->
  BlockTree.get_block tree id = Some eb -> Z.of_nat (length acc) < num_blocks req ->
  gathered tree req (ExecutedBlock.parent_id eb) (acc ++ [ExecutedBlock.block eb]) /\
  (S (length acc) <= length (BlockTree.id_to_block tree))%nat.
Proof using Type.
  intros Ht [G1 G2 G3 G4 G5] Hget Hlt. destruct (get_block_ok _ _ _ _ _ Ht Hget) as (Hid & [Hp _ Hlater _] & Hin).
  unfold ExecutedBlock.id in *. assert (Block.id (ExecutedBlock.block eb) ∉ Block.id <$> acc) as Hn.
  { intros (b & E & Hb)%list_elem_of_fmap. specialize (G4 b Hb Hin). rewrite <-E, Hid in G4. lia. }
  assert (NoDup (Block.id <$> (acc ++ [ExecutedBlock.block eb]))) as Hnd.
  { rewrite fmap_app. apply NoDup_app. split_and!; [done| |apply NoDup_singleton]. by intros x Hx ->%list_elem_of_singleton. }
  assert (forall b, b ∈ acc ++ [ExecutedBlock.block eb] ->
    exists eb, BlockTree.get_block tree (Block.id b) = Some eb /\ ExecutedBlock.block eb = b) as Hall.
  { intros b [?| ->%list_elem_of_singleton]%elem_of_app; [auto|]. exists eb. by rewrite Hid. }
  split; [split|].
  - apply descending_snoc. by rewrite Hid.
  - done.
  - done.
  - intros b [Hb| ->%list_elem_of_singleton]%elem_of_app _; rewrite Hp; [specialize (G4 b Hb Hin); rewrite Hid in *; lia|done].
  - rewrite length_app. cbn. lia.
  - apply (in_tree_count tree) in Hnd.
    + rewrite length_fmap, length_app in Hnd. cbn in Hnd. lia.
    + intros x (b & -> & Hb)%list_elem_of_fmap. destruct (Hall b Hb) as (eb' & Hg & _). by apply (get_block_ok _ _ _ _ _ Ht Hg).
Qed.

Lemma retrieval_loop_run fuel tree req id acc : BlockTree.tree_ok parent_of round_of tree ->
  gathered tree req id acc -> (length (BlockTree.id_to_block tree) <= fuel + length acc)%nat ->
  exists st bs next, retrieval_loop fuel tree req id acc = Ok (st, bs) /\ st <> IdNotFound /\
    answers_request tree req (new_response st bs) next.
Proof using Type.
  intros Ht. revert id acc. induction fuel as [|fuel IH]; intros id acc Hg Hf; cbn [retrieval_loop]; pose proof Hg as [G1 G2 G3 G4 G5].
  all: destruct (Z.ltb_spec (Z.of_nat (length acc)) (num_blocks req)) as [Hlt|];
    [|exists Succeeded, acc, id; split_and!; [done|done|split; cbn; [done..|lia]]].
  all: destruct (BlockTree.get_block tree id) as [eb|] eqn:Eb; [|exists NotEnoughBlocks, acc, id; by split_and!].
  all: destruct (gathered_step tree req id acc eb Ht Hg Eb Hlt) as [Hg' Hc].
  all: destruct (match_target_id req id) eqn:Em;
    [exists SucceededWithTarget, (acc ++ [ExecutedBlock.block eb]), (ExecutedBlock.parent_id eb); destruct Hg' as [? ? ? ? ?];
      split_and!; [done|done|split; [done..|]]; eexists; split; [apply last_snoc|];
      destruct (get_block_ok _ _ _ _ _ Ht Eb) as (Hid & _); unfold ExecutedBlock.id in Hid; by rewrite Hid|].
  - lia.
  - apply IH; [done|]. rewrite length_app. cbn. lia.
Qed.

(** Status and number of the blocks pass. *)
Lemma verify_answer v now tree req response next : answers_request tree req response next ->
  verify response req v now = Ok tt <-> verify_chain (block_id req) v now (blocks response) = Ok next.
Proof using Type.
  intros [A1 _ _ A4]. unfold verify. split.
  - intros Hv. do 2 (apply bind_Ok in Hv as ([] & _ & Hv)). apply bind_Ok in Hv as (r & Hc & _).
    apply (verify_chain_iff v now _ _ next A1). intros b. by eapply verify_chain_ids.
  - intros ->. destruct (status response); rewrite ?(bool_decide_eq_true_2 (_ = _)), ?(bool_decide_eq_false_2 (_ = _)) by done; cbn [negb orb].
    + by rewrite A4, Z.eqb_refl.
    + done.
    + done.
    + by destruct A4 as (b & -> & ->).
Qed.

Lemma well_formed_not_genesis b now : Block.verify_well_formed b now = Ok tt -> Block.is_genesis_block b = false.
Proof using Type.
  unfold Block.verify_well_formed. intros Hw. apply bind_Ok in Hw as ([] & He & _). apply ensure_Ok in He. by apply negb_true_iff.
Qed.
End answers.

(** C25: a validator answers every request for blocks with a chain of blocks of its
    tree from the requested one on, and the status says why the chain ends.  The
    answer passes the verification of the requester exactly if every one of its blocks
    does by itself: status, number and links never make it fail.  An answer that
    reaches the genesis block is refused, which is not accepted from others. *)
Theorem retrieval_answer_verifies data c s (req : BlockRetrieval.BlockRetrievalRequest) validator now : reachable data c s ->
  0 <= BlockRetrieval.num_blocks req ->
  exists response next, process_block_retrieval s req = Ok response /\
    answers_request (BlockStore.inner s) req response next /\
    (BlockRetrieval.verify response req validator now = Ok tt <->
     forall b, b ∈ BlockRetrieval.blocks response ->
       Block.validate_signature b validator = Ok tt /\ Block.verify_well_formed b now = Ok tt) /\
    (forall b, b ∈ BlockRetrieval.blocks response -> Block.is_genesis_block b = true ->
       BlockRetrieval.verify response req validator now <> Ok tt).
Proof using Laws.
  intros Hr Hn. destruct (store_reachable_ok _ _ _ Hr) as (root & before & Hok).
  destruct (retrieval_loop_run (length (BlockTree.id_to_block (BlockStore.inner s))) (BlockStore.inner s) req
    (BlockRetrieval.block_id req) []) as (st & bs & next & Hrun & Hst & Ha); [apply Hok| |cbn; lia|].
  { split; [done|constructor|by intros ? ?%elem_of_nil|by intros ? ?%elem_of_nil|cbn; lia]. }
  set (response := BlockRetrieval.new_response (match bs with [] => BlockRetrieval.IdNotFound | _ => st end) bs).
  assert (answers_request (BlockStore.inner s) req response next) as Ha'.
  { destruct Ha as [A1 A2 A3 A4]. split; [done..|]. by destruct bs. }
  assert (BlockRetrieval.verify response req validator now = Ok tt <->
     forall b, b ∈ bs -> Block.validate_signature b validator = Ok tt /\ Block.verify_well_formed b now = Ok tt) as Hiff.
  { etransitivity; [by eapply verify_answer|]. exact (verify_chain_iff validator now _ _ _ (answer_chain _ _ _ _ Ha')). }
  exists response, next. unfold process_block_retrieval. rewrite Hrun, bind_ret. split_and!; [done..|].
  intros b Hb Hg Hv. destruct (proj1 Hiff Hv b Hb) as [_ Hw]. by apply well_formed_not_genesis in Hw; rewrite Hg in Hw.
Qed.

(** C38: a peer can stop a validator that retrieves up to ten blocks, which are asked
    for in one request: an answer that passes the verification, says it succeeded and
    does not end at the target, such as one that goes past it, makes
    [retrieve_block_for_id] panic. *)
Theorem untargeted_answer_panics (retriever : BlockRetriever) (store : BlockStore.t) start target peer peers n response block :
  1 <= n <= MAX_BLOCKS_PER_REQUEST ->
  BlockRetrieval.verify response (BlockRetrieval.new_with_target_block_id start n target) (validators retriever)
    (current_ts retriever) = Ok tt ->
  BlockRetrieval.status response = BlockRetrieval.Succeeded ->
  last (BlockRetrieval.blocks response) = Some block -> Block.id block <> target ->
  (retrieve_block_for_id retriever start target (peer :: peers) n (mk store [[Ok response]] [] [])).2 = Panic.
Proof using Type.
  intros Hn Hv Hs Hl Hne. unfold MAX_BLOCKS_PER_REQUEST in Hn.
  assert (Z.of_nat (length (BlockRetrieval.blocks response)) = n) as Hlen.
  { unfold BlockRetrieval.verify in Hv. apply bind_Ok in Hv as ([] & He & _). apply ensure_Ok in He. rewrite Hs in He.
    rewrite bool_decide_eq_true_2 in He by done. by apply Z.eqb_eq in He. }
  unfold retrieve_block_for_id. unfold gets at 1, mbind at 1, action_bind at 1. cbn [answers length retrieve_loop].
  rewrite (proj2 (Z.ltb_lt 0 n)) by lia. unfold mbind, action_bind, lift at 1. rewrite u64_sub_Ok by lia.
  unfold catch, retrieve_block_for_id_chunk, gets, modify, lift, mbind, action_bind. cbn [answers default head first_verified].
  replace (MAX_BLOCKS_PER_REQUEST `min` (n - 0)) with n by (unfold MAX_BLOCKS_PER_REQUEST; lia). unfold id.
  cbn [first_verified]. rewrite bind_ret, Hv. cbn [mbind outcome_bind]. rewrite Hs, Hl. cbn [expect].
  rewrite u64_add_Ok by lia. rewrite Z.add_0_l, Hlen, Z.ltb_irrefl. unfold mret, action_ret. cbn [app]. rewrite Hl. cbn [expect].
  by rewrite bool_decide_eq_false_2 by done.
Qed.
End properties.
