(* ===== verification/BlockStoreExample.v ===== *)
(** * Runs of the block store

    Concrete runs at which the theorems of [Recovery], [Restart] and [SyncManager]
    are exercised: a validator restarts from block 10, with block 11 recovered,
    block 12 and block 13, on a fork, arriving, and block 11 being committed; and a
    validator that is at block 2 is told of block 3, which it retrieves, synchronizes
    to and rebuilds its store from. *)

From S2P Require Import Prelude Collections Merkle InMemoryAccumulator BitVec ValidatorVerifier LedgerInfo.
From S2P Require Import TrustedState AccumulatorProofs QuorumCert Timeout2Chain ConsensusBlock ConsensusMessages.
From S2P Require Import ExecutedBlock BlockTree Recovery BlockStore Restart SyncManager.

#[local] Existing Instance no_transactions.
#[local] Existing Instance block_data_hash.
#[local] Existing Instance example_vote_data_hash.
#[local] Existing Instance OrderingStateComputer.ordering_state_computer.
#[local] Existing Instance OrderingStateComputer.ordering_state_computer_laws.
#[local] Instance no_events : ExecutionTypes.
Proof. refine {| ExecutionStatus := unit; ContractEvent := unit |}. Defined.
#[local] Instance free_hasher : MerkleHasher (@HashValue free_crypto) := digest_hasher.

(** Block [n] has the identifier [Leaf n]. *)
Definition info (n : Z) : @BlockInfo.t free_crypto := BlockInfo.new 1 n (Leaf n) Placeholder 0 0 None.
Definition cert (n m : Z) : @QuorumCert.t free_crypto :=
  QuorumCert.new (VoteData.new (info n) (info (n - 1)))
    (LedgerInfoWithSignatures.new (LedgerInfo.new (info m) (Leaf n)) AggregateSignature.empty).
Definition nil_block (n parent : Z) : @Block.t free_crypto no_transactions :=
  Block.new_nil n (cert parent (parent - 1)) [].

Definition block7 := nil_block 7 5.
Definition block10 := nil_block 10 9.
Definition block11 := nil_block 11 10.
Definition block12 := nil_block 12 11.
Definition block13 := nil_block 13 11.

Definition parent : @HashValue free_crypto -> @HashValue free_crypto := fun i : digest =>
  match i with
  | Leaf n => if n =? 13 then Leaf 11 else if n =? 7 then Leaf 5 else Leaf (n - 1)
  | _ => i
  end.
Definition round : @HashValue free_crypto -> Z := fun i : digest => match i with Leaf n => n | _ => 0 end.

Lemma parent_anc a i : anc parent a i -> round i <= round a -> a = i /\ forall n, i <> Leaf n.
Proof.
  induction 1 as [[| |]|a [] Ha IH]; cbn; try done.
  - destruct (Z.eqb_spec n 13); [cbn; lia|]. destruct (Z.eqb_spec n 7); cbn; lia.
  - cbn in IH. intros Hle. exfalso. destruct (Z.eqb_spec n 13); [destruct IH as [_ Hn]; [cbn; lia|by apply (Hn 11)]|].
    destruct (Z.eqb_spec n 7); [destruct IH as [_ Hn]; [cbn; lia|by apply (Hn 5)]|].
    destruct IH as [_ Hn]; [cbn; lia|by apply (Hn (n - 1))].
Qed.

Lemma parent_acyclic n : ~ anc parent (Leaf n) (Leaf n).
Proof. intros Ha. apply parent_anc in Ha as [_ Hn]; [by apply (Hn n)|done]. Qed.

Lemma nil_block_sound n p : 0 <= n -> parent (Leaf n) = Leaf p -> p < n -> sound_block parent round (nil_block n p).
Proof. intros Hn Hp Hlt result. split; [exact (eq_sym Hp)|done| |done]. change (round (parent (Leaf n)) < n). by rewrite Hp. Qed.

(** What is stored: block 11 and the root, and block 7, which is older. *)
Definition stored_blocks : list (@Block.t free_crypto no_transactions) := [block11; block7; block10].
Definition stored_certs : list (@QuorumCert.t free_crypto) := [cert 11 10; cert 7 6; cert 10 9].
Definition ledger : @LedgerRecoveryData.t free_crypto :=
  LedgerRecoveryData.new (LedgerInfoWithSignatures.new (LedgerInfo.new (info 10) (Leaf 11)) AggregateSignature.empty).
Definition metadata : @RootMetadata.t free_crypto := RootMetadata.mk Placeholder [] 0.

Definition recovered : @RecoveryData.t free_crypto no_transactions :=
  RecoveryData.mk None (RootInfo.mk block10 (cert 10 9) (cert 11 10) (cert 11 10)) metadata [block11]
    [cert 11 10; cert 10 9] (Some [Leaf 7]) None.

Lemma stored_sound : Forall (sound_block parent round) stored_blocks.
Proof. repeat constructor; by apply nil_block_sound. Qed.

Lemma stored_order b b' : b ∈ stored_blocks -> b' ∈ stored_blocks -> Block.id b' = Block.parent_id b ->
  LedgerRecoveryData.key_le b b' = false.
Proof.
  unfold stored_blocks. rewrite !elem_of_cons, !elem_of_nil.
  intros [->|[->|[->|[]]]] [->|[->|[->|[]]]]; vm_compute; done.
Qed.

Lemma recovered_blocks_witness :
  RecoveryData.new None ledger stored_blocks metadata stored_certs None = Ok recovered /\
  Block.id (RootInfo.block (RecoveryData.root recovered)) = Leaf 10 /\
  ~ descends stored_blocks (Leaf 10) (Leaf 7 : @HashValue free_crypto).
Proof.
  assert (RecoveryData.new None ledger stored_blocks metadata stored_certs None = Ok recovered) as E by vm_refl.
  split; [exact E|].
  destruct (recovered_blocks None ledger stored_blocks metadata stored_certs None recovered
    (LedgerRecoveryData.storage_ledger ledger) stored_blocks stored_certs (Leaf 10)) as (Hr & _ & _ & _ & _ & Hp).
  - exact E.
  - vm_refl.
  - by apply (bool_decide_unpack _).
  - exact stored_order.
  - split; [exact Hr|]. apply Hp. left.
Defined.

(** ** A run *)
Definition storage0 : Storage (LivenessStorage:=storage_write_proxy) :=
  StorageWriteProxy.mk ConsensusDB.empty (Err "no ledger"%string) (fun _ => Err "no ledger"%string)
    (fun target => (Ok target, fun _ => Ok (TransactionAccumulatorSummary.mk InMemoryAccumulator.new_empty))).
Definition computer0 : Computer (StateComputer:=OrderingStateComputer.ordering_state_computer) :=
  OrderingStateComputer.mk [] true (Ok tt) (fun _ => Ok tt).
Definition retriever0 : @SyncManager.BlockRetriever free_crypto := SyncManager.block_retriever [] v4 0.

Lemma restart_succeeds_witness : exists tree s,
  BlockStore.build_root (RecoveryData.root recovered) metadata 1 None = Ok tree /\
  BlockStore.fill [block11] [cert 11 10; cert 10 9] (BlockStore.mk tree computer0 storage0 [] 5) = (s, Ok tt) /\
  in_tree (BlockStore.inner s) (Leaf 11).
Proof.
  destruct (restart_succeeds parent round None ledger stored_blocks metadata stored_certs None recovered
    (LedgerRecoveryData.storage_ledger ledger) stored_blocks stored_certs (Leaf 10) 1 5 computer0 storage0)
    as (tree & s & Ht & Hf & Hin).
  - vm_refl.
  - vm_refl.
  - by apply (bool_decide_unpack _).
  - exact stored_sound.
  - apply parent_acyclic.
  - exact stored_order.
  - intros qc b. unfold stored_certs, stored_blocks. rewrite !elem_of_cons, !elem_of_nil.
    intros [->|[->|[->|[]]]] [->|[->|[->|[]]]]; vm_compute; done.
  - by left.
  - by left.
  - exists tree, s. split; [exact Ht|]. split; [exact Hf|]. apply Hin.
    apply (descends_block _ _ block11); [left|]. constructor.
Defined.

Lemma recovered_sound : sound_data parent round recovered.
Proof.
  split; cbn [recovered RecoveryData.root RootInfo.block RootInfo.quorum_cert RootInfo.commit_cert RecoveryData.blocks
    RecoveryData.quorum_certs].
  - by apply nil_block_sound.
  - apply parent_acyclic.
  - by right.
  - done.
  - repeat constructor. by apply nil_block_sound.
  - repeat constructor; by right.
Qed.

(** Block 12 and the fork arrive, and a certificate that commits block 11. *)
Definition calls1 : list store_call :=
  [ExecuteAndInsertBlock block12; ExecuteAndInsertBlock block13; InsertQuorumCert (cert 12 11) retriever0 []].
Definition decision11 : @LedgerInfoWithSignatures.t free_crypto :=
  LedgerInfoWithSignatures.new (LedgerInfo.new (info 11) (Leaf 99)) AggregateSignature.empty.
Definition calls2 : list store_call := calls1 ++ [RunCallback 1 decision11].

Definition check_run (start : result BlockStore.t) (calls : list store_call) (P : BlockStore.t -> bool) : bool :=
  match start with
  | Ok s0 => match run calls s0 with Some ([], s) => P s | _ => false end
  | _ => false
  end.

Lemma calls_sound : Forall (sound_call parent round) calls2.
Proof.
  unfold calls2, calls1. cbn [app]. rewrite !Forall_cons, Forall_nil. cbn [sound_call].
  split_and!; [by apply nil_block_sound|by apply nil_block_sound|by right|by intros l r req b ?%elem_of_nil|done..].
Qed.
Lemma calls1_sound : Forall (sound_call parent round) calls1.
Proof. pose proof calls_sound as Hc. unfold calls2 in Hc. by apply Forall_app in Hc as [? _]. Qed.

Lemma check_reachable start calls P : BlockStore.new recovered computer0 storage0 1 5 = start -> Forall (sound_call parent round) calls ->
  check_run start calls P = true -> exists s, reachable parent round recovered computer0 s /\ P s = true.
Proof.
  intros En Hc Hr. destruct start as [s0| |]; [|done..]. cbn [check_run] in Hr.
  destruct (run calls s0) as [[[|] s]|] eqn:Er; [|done..]. exists s. split; [|done].
  exists [], storage0, 1%nat, 5, calls, s0. split_and!; [apply recovered_sound|done|exact En|done|done|constructor].
Qed.

Lemma paths_from_roots_witness : exists s l, reachable parent round recovered computer0 s /\
  BlockTree.path_from_commit_root (BlockStore.inner s) (Leaf 13) = Ok (Some l) /\ linked (Leaf 10) l /\
  end_of (Leaf 10) l = Leaf 13.
Proof.
  destruct (check_reachable (BlockStore.new recovered computer0 storage0 1 5) calls1 (fun s =>
    bool_decide (BlockTree.commit_root_id (BlockStore.inner s) = Leaf 10) &&
    match BlockTree.path_from_commit_root (BlockStore.inner s) (Leaf 13) with Ok (Some _) => true | _ => false end))
    as (s & Hs & Hc); [reflexivity|exact calls1_sound|vm_refl|].
  apply andb_true_iff in Hc as [Hroot Hc]. apply bool_decide_eq_true_1 in Hroot.
  destruct (paths_from_roots parent round recovered computer0 s (Leaf 13) Hs) as [_ (found & E & Hf)].
  rewrite E in Hc. destruct found as [l|]; [|discriminate Hc]. destruct Hf as (_ & Hl & He). rewrite Hroot in Hl, He.
  exists s, l. split; [exact Hs|]. split; [exact E|]. split; [exact Hl|exact He].
Defined.

Lemma pending_commit_succeeds_witness : exists s bs tree pruned, reachable parent round recovered computer0 s /\
  BlockTree.commit_callback bs (cert 12 11) decision11 (BlockStore.inner s) = (tree, Ok pruned) /\
  BlockTree.commit_root_id tree = Leaf 11.
Proof.
  destruct (check_reachable (BlockStore.new recovered computer0 storage0 1 5) calls1 (fun s =>
    bool_decide ((BlockStore.callbacks s).*2 = [cert 12 11]))) as (s & Hs & Hc); [reflexivity|exact calls1_sound|vm_refl|].
  apply bool_decide_eq_true_1 in Hc. destruct (BlockStore.callbacks s) as [|[bs qc] [|]] eqn:Ec; try discriminate Hc.
  cbn in Hc. injection Hc as ->.
  destruct (pending_commit_succeeds parent round recovered computer0 s 1 bs (cert 12 11) decision11
    (QuorumCert.new (VoteData.new (info 12) (info 11)) decision11) Hs) as (pruned & tree & Hr & Hroot & _).
  - rewrite Ec. reflexivity.
  - vm_refl.
  - rewrite Ec in Hr. eexists s, _, tree, pruned. split; [exact Hs|]. split; [exact Hr|exact Hroot].
Defined.

Lemma commit_outcomes_witness : exists s path s', reachable parent round recovered computer0 s /\
  ~ in_tree (BlockStore.inner s) (Leaf 20) /\ BlockStore.commit (cert 21 20) s = (s, Err "Committed block id not found"%string) /\
  end_of (Leaf 11) path = Leaf 13 /\ BlockStore.commit (cert 14 13) s = (s', Ok tt).
Proof.
  destruct (check_reachable (BlockStore.new recovered computer0 storage0 1 5) calls2 (fun s =>
    bool_decide (BlockTree.get_block (BlockStore.inner s) (Leaf 20) = None) &&
    bool_decide (BlockTree.ordered_root_id (BlockStore.inner s) = Leaf 11) &&
    match BlockStore.commit (cert 14 13) s with (_, Ok _) => true | _ => false end)) as (s & Hs & Hc);
    [reflexivity|exact calls_sound|vm_refl|].
  apply andb_true_iff in Hc as [[Hg Ho]%andb_true_iff Hc]. apply bool_decide_eq_true_1 in Hg, Ho.
  assert (~ in_tree (BlockStore.inner s) (Leaf 20)) as Hn.
  { intros [lb Hlb]. unfold BlockTree.get_block in Hg. rewrite Hlb in Hg. discriminate Hg. }
  pose proof (commit_outcomes parent round recovered computer0 s (cert 21 20) Hs) as [[_ H20]|[[Hin _]|[[Hin _]|(_ & Hb & _)]]];
    [|destruct (Hn Hin)|destruct (Hn Hin)|destruct (Hn (below_in _ _ _ _ Hb))].
  pose proof (commit_outcomes parent round recovered computer0 s (cert 14 13) Hs) as
    [[_ E]|[(_ & _ & E)|[(_ & _ & _ & E)|(_ & _ & path & _ & He & Hok)]]]; try (rewrite E in Hc; discriminate Hc).
  rewrite Ho in He. destruct (BlockStore.commit (cert 14 13) s) as [s' o] eqn:Ec. destruct o as [[]| |]; try discriminate Hc.
  exists s, path, s'. split; [exact Hs|]. split; [exact Hn|]. split; [exact H20|]. split; [exact He|exact Ec].
Defined.

Lemma back_pressure_exact_witness : exists s, reachable parent round recovered computer0 s /\
  BlockStore.vote_back_pressure s = (s, Ok false).
Proof.
  destruct (check_reachable (BlockStore.new recovered computer0 storage0 1 5) calls1 (fun s =>
    bool_decide (BlockTree.ordered_root_id (BlockStore.inner s) = Leaf 11) &&
    bool_decide (BlockTree.commit_root_id (BlockStore.inner s) = Leaf 10) &&
    (BlockStore.vote_back_pressure_limit s =? 5))) as (s & Hs & Hc); [reflexivity|exact calls1_sound|vm_refl|].
  apply andb_true_iff in Hc as [[Ho Hcr]%andb_true_iff Hl%Z.eqb_eq]. apply bool_decide_eq_true_1 in Ho, Hcr.
  destruct (back_pressure_exact parent round recovered computer0 s Hs) as [_ Hb]. rewrite Ho, Hcr, Hl in Hb.
  exists s. split; [exact Hs|]. apply Hb. reflexivity.
Defined.

(** ** A request for blocks

    A store that holds a nil block over the genesis block. *)
Definition parent3 : @HashValue free_crypto -> @HashValue free_crypto := fun i : digest =>
  match i with Leaf 3 => Leaf 7 | _ => Placeholder end.
Definition round3 : @HashValue free_crypto -> Z := fun i : digest =>
  match i with Leaf 3 => 3 | _ => 0 end.
Definition cert3 : @QuorumCert.t free_crypto :=
  QuorumCert.new (VoteData.new (BlockInfo.new 1 3 (Leaf 3) Placeholder 0 0 None) genesis_info)
    (LedgerInfoWithSignatures.new (LedgerInfo.new (BlockInfo.new 1 3 (Leaf 3) Placeholder 0 0 None) (Leaf 3))
       AggregateSignature.empty).
Definition recovered3 : @RecoveryData.t free_crypto no_transactions :=
  RecoveryData.mk None (RootInfo.mk nil3 cert3 cert3 cert3) metadata [] [] None None.
Definition request3 : @BlockRetrieval.BlockRetrievalRequest free_crypto :=
  BlockRetrieval.new_with_target_block_id (Leaf 3) 2 (Leaf 7).

Lemma parent3_placeholder a i : anc parent3 a i -> i <> Leaf 3 -> a = Placeholder.
Proof.
  assert (forall j, j <> Leaf 3 -> parent3 j = Placeholder) as Hp.
  { intros [|z|] Hj; [done| |done]. unfold parent3. repeat (destruct z as [|z|z]; try done). }
  induction 1 as [i|a i _ IH]; intros Hne; [by apply Hp|]. apply IH. by rewrite Hp.
Qed.

Lemma parent3_above a : anc parent3 a (Leaf 3) -> a = Leaf 7 \/ a = Placeholder.
Proof.
  intros Ha. remember (Leaf 3) as i eqn:E. destruct Ha as [i|a i Ha]; subst i; [by left|right].
  by apply parent3_placeholder in Ha.
Qed.

Lemma recovered3_sound : sound_data parent3 round3 recovered3.
Proof.
  split.
  - intros result. by split.
  - by intros i [?|?]%parent3_above.
  - by right.
  - done.
  - constructor.
  - constructor.
Qed.

Lemma retrieval_answer_verifies_witness : exists s response, reachable parent3 round3 recovered3 computer0 s /\
  SyncManager.process_block_retrieval s request3 = Ok response /\ BlockRetrieval.blocks response = [nil3] /\
  BlockRetrieval.verify response request3 v4 0 = Ok tt.
Proof.
  destruct (BlockStore.new recovered3 computer0 storage0 1 5) as [s| |] eqn:En.
  2,3: exfalso; assert (is_ok (BlockStore.new recovered3 computer0 storage0 1 5) = true) as E by vm_refl;
    rewrite En in E; discriminate E.
  assert (match BlockStore.new recovered3 computer0 storage0 1 5 with
          | Ok s => match SyncManager.process_block_retrieval s request3 with
                    | Ok r => bool_decide (BlockRetrieval.blocks r = [nil3])
                    | _ => false
                    end
          | _ => false
          end = true) as Hv by vm_refl.
  rewrite En in Hv. assert (reachable parent3 round3 recovered3 computer0 s) as Hs.
  { exists [], storage0, 1%nat, 5, [], s. split_and!; [exact recovered3_sound|done|exact En|constructor|done|constructor]. }
  destruct (retrieval_answer_verifies parent3 round3 recovered3 computer0 s request3 v4 0 Hs) as (response & next & Hr & _ & Hiff & _).
  - done.
  - rewrite Hr in Hv. apply bool_decide_eq_true_1 in Hv.
    exists s, response. split; [exact Hs|]. split; [exact Hr|]. split; [exact Hv|]. apply Hiff.
    rewrite Hv. intros b Hb. apply list_elem_of_singleton in Hb as ->. split; vm_refl.
Defined.

(** An answer that ends at block 3, when block 8 is the target. *)
Lemma untargeted_answer_panics_witness : exists s,
  (SyncManager.retrieve_block_for_id retriever0 (Leaf 3) (Leaf 8) [7] 1
     (SyncManager.mk s [[Ok retrieved3]] [] [])).2 = Panic.
Proof.
  destruct (BlockStore.new recovered3 computer0 storage0 1 5) as [s| |] eqn:En.
  2,3: exfalso; assert (is_ok (BlockStore.new recovered3 computer0 storage0 1 5) = true) as E by vm_refl;
    rewrite En in E; discriminate E.
  exists s. apply (untargeted_answer_panics retriever0 s (Leaf 3) (Leaf 8) 7 [] 1 retrieved3 nil3).
  - done.
  - vm_refl.
  - reflexivity.
  - reflexivity.
  - discriminate.
Defined.

(** ** A synchronization

    Blocks 1 and 2 are there and block 2 is ordered.  Then a certificate arrives for
    block 3, which is on another branch, is retrieved, and becomes the root; after
    that block 4 is inserted and ordered. *)
Definition parent4 : @HashValue free_crypto -> @HashValue free_crypto := fun i : digest =>
  match i with Leaf 4 => Leaf 3 | Leaf 3 => Leaf 7 | Leaf 2 => Leaf 1 | Leaf 1 => Leaf 0 | _ => Placeholder end.
Definition round4 : @HashValue free_crypto -> Z := fun i : digest =>
  match i with Leaf 4 => 4 | Leaf 3 => 3 | Leaf 2 => 2 | Leaf 1 => 1 | _ => 0 end.
Definition signed3 : @QuorumCert.t free_crypto :=
  QuorumCert.new (QuorumCert.vote_data cert3)
    (LedgerInfoWithSignatures.new (LedgerInfoWithSignatures.ledger_info (QuorumCert.ledger_info cert3))
       (AggregateSignature.new (BitVec.mk [128]) None)).
Definition recovered1 : @RecoveryData.t free_crypto no_transactions :=
  RecoveryData.mk None (RootInfo.mk (nil_block 1 0) (cert 1 0) (cert 1 1) (cert 1 1)) metadata [nil_block 2 1] [cert 1 1] None None.
Definition retriever4 : @SyncManager.BlockRetriever free_crypto := SyncManager.block_retriever [7] v4 0.
Definition sync_calls : list store_call :=
  [InsertQuorumCert (cert 2 2) retriever4 [];
   AddCerts (SyncInfo.new_decoupled signed3 signed3 signed3 None) retriever4 [[Ok retrieved3]];
   ExecuteAndInsertBlock (nil_block 4 3); InsertQuorumCert (cert 4 4) retriever4 []].
Definition synced3 : @RecoveryData.t free_crypto no_transactions :=
  RecoveryData.mk None (RootInfo.mk nil3 signed3 signed3 signed3) metadata [] [signed3] None None.

Lemma parent4_acyclic n : n = 1 \/ n = 3 -> ~ anc parent4 (Leaf n) (Leaf n).
Proof.
  assert (forall i a, anc parent4 a i -> parent4 i = Placeholder -> a = Placeholder) as Hp.
  { induction 1 as [i|b i _ IH]; intros E; [done|]. apply IH. by rewrite E. }
  assert (forall i, anc parent4 i i -> i = parent4 i \/ anc parent4 i (parent4 i)) as Hi.
  { intros i Ha. inversion Ha as [j E|a j Hj E]; [left; congruence|by right]. }
  intros [->| ->] [E|Ha]%Hi; try done; by apply Hp in Ha.
Qed.

Lemma block4_sound n p : 0 <= n -> round4 (Leaf n) = n -> parent4 (Leaf n) = Leaf p -> round4 (Leaf p) < n ->
  sound_block parent4 round4 (nil_block n p).
Proof.
  intros Hn Hr Hp Hlt result. split; [exact (eq_sym Hp)|exact (eq_sym Hr)| |].
  - change (round4 (parent4 (Leaf n)) < round4 (Leaf n)). by rewrite Hr, Hp.
  - change (0 <= round4 (Leaf n)). by rewrite Hr.
Qed.
Lemma nil3_sound : sound_block parent4 round4 nil3.
Proof. by split. Qed.

Lemma recovered1_sound : sound_data parent4 round4 recovered1.
Proof.
  split; cbn [recovered1 RecoveryData.root RootInfo.block RootInfo.quorum_cert RootInfo.commit_cert RecoveryData.blocks RecoveryData.quorum_certs].
  - by apply block4_sound.
  - apply parent4_acyclic. by left.
  - by right.
  - done.
  - repeat constructor. by apply block4_sound.
  - apply Forall_singleton. by right.
Qed.

(** What was recovered after the synchronization. *)
Lemma synced3_sound : sound_data parent4 round4 synced3.
Proof.
  split; cbn [synced3 RecoveryData.root RootInfo.block RootInfo.quorum_cert RootInfo.commit_cert RecoveryData.blocks RecoveryData.quorum_certs].
  - exact nil3_sound.
  - apply parent4_acyclic. by right.
  - by right.
  - done.
  - constructor.
  - apply Forall_singleton. by right.
Qed.

Lemma sync_calls_sound : Forall (sound_call parent4 round4) sync_calls.
Proof.
  unfold sync_calls. rewrite !Forall_cons, Forall_nil. cbn [sound_call].
  assert (forall r, sound_answers parent4 round4 r []) as Hnone by by intros ? l x req b ?%elem_of_nil.
  split_and!; try by right.
  - apply Hnone.
  - intros l x req b ->%list_elem_of_singleton Hx%list_elem_of_singleton _. injection Hx as ->.
    intros ->%list_elem_of_singleton. split; [exact nil3_sound|by right].
  - by apply block4_sound.
  - apply Hnone.
  - done.
Qed.

Definition run_from (start : result BlockStore.t) : option (list RecoveryData.t * BlockStore.t) :=
  match start with Ok s0 => run sync_calls s0 | _ => None end.

Lemma synced_runs start P : BlockStore.new recovered1 computer0 storage0 1 5 = start ->
  fst <$> run_from start = Some [synced3] -> P <$> (snd <$> run_from start) = Some true ->
  exists s, runs_to parent4 round4 recovered1 computer0 [synced3] s /\ P s = true.
Proof.
  intros En Hr HP. destruct start as [s0| |]; [|done..]. cbn [run_from] in *.
  destruct (run sync_calls s0) as [[ds s]|] eqn:Er; [|done]. injection Hr as ->. exists s. split; [|by injection HP].
  exists storage0, 1%nat, 5, sync_calls, s0.
  split_and!; [exact recovered1_sound|done|exact En|exact sync_calls_sound|exact Er|]. apply Forall_singleton, synced3_sound.
Qed.

Lemma ordered_blocks_chain_witness : exists s l1 l2, runs_to parent4 round4 recovered1 computer0 [synced3] s /\
  ordered (BlockStore.state_computer s) = l1 ++ l2 /\ ExecutedBlock.id <$> (l1 ++ l2) = [Leaf 2; Leaf 4] /\
  linked (Leaf 1) l1 /\ linked (Leaf 3) l2 /\ BlockTree.ordered_root_id (BlockStore.inner s) = end_of (Leaf 3) l2.
Proof.
  destruct (synced_runs (BlockStore.new recovered1 computer0 storage0 1 5) (fun s =>
    bool_decide (ExecutedBlock.id <$> ordered (BlockStore.state_computer s) = [Leaf 2; Leaf 4]))) as (s & Hs & Hid);
    [reflexivity|vm_refl|vm_refl|]. apply bool_decide_eq_true_1 in Hid.
  destruct (ordered_blocks_chain parent4 round4 recovered1 computer0 [synced3] s Hs)
    as (before & last & chains & l & Hb & Ho & Hc & He & _).
  destruct before as [|d [|d' before]]; [discriminate Hb| |].
  2: { injection Hb as _ _ Hb. destruct before; discriminate Hb. }
  injection Hb as <- <-. destruct chains as [|l1 [|l2 chains]].
  - apply Forall2_length in Hc. discriminate Hc.
  - apply Forall2_cons in Hc as [[Hl1 _] Hc]. apply Forall2_cons in Hc as [[Hl2 _] _].
    assert (ordered (BlockStore.state_computer s) = l1 ++ l) as Hall by (rewrite Ho; cbn; by rewrite app_nil_r).
    rewrite Hall in Hid. exists s, l1, l. split; [exact Hs|]. split; [exact Hall|]. split; [exact Hid|]. split; [exact Hl1|]. split; [exact Hl2|exact (eq_sym He)].
  - apply Forall2_length in Hc. rewrite !length_app in Hc. cbn in Hc. lia.
Defined.

Lemma block_tree_well_formed_witness : exists s, reachable parent4 round4 recovered1 computer0 s /\
  BlockTree.commit_root_id (BlockStore.inner s) = Leaf 3 /\ tree_ok parent4 round4 (BlockStore.inner s).
Proof.
  destruct (synced_runs (BlockStore.new recovered1 computer0 storage0 1 5) (fun s =>
    bool_decide (BlockTree.commit_root_id (BlockStore.inner s) = Leaf 3))) as (s & Hs & Hr); [reflexivity|vm_refl|vm_refl|].
  apply bool_decide_eq_true_1 in Hr. assert (reachable parent4 round4 recovered1 computer0 s) as Hre by (exists [synced3]; exact Hs).
  destruct (block_tree_well_formed parent4 round4 recovered1 computer0 s Hre) as [Ht _].
  exists s. split; [exact Hre|]. split; [exact Hr|exact Ht].
Defined.
