(* ===== verification/RoundState.v ===== *)
(** * Votes of a round, and rounds

    Model of [consensus/src/pending_votes.rs], which collects the votes of a round
    into quorum and timeout certificates, and of
    [consensus/src/liveness/round_state.rs], which moves from round to round.

    Metrics are left out.  Times are integers; the time is an argument of the
    methods that read the clock, and the duration of a round, which is computed
    with floating-point numbers, is a parameter. *)

From S2P Require Import Prelude Collections Merkle InMemoryAccumulator BitVec ValidatorVerifier LedgerInfo.
From S2P Require Import QuorumCert Timeout2Chain ConsensusBlock ConsensusMessages.

Inductive VoteReceptionResult `{CryptoTypes} :=
  | VoteAdded (voting_power : Z)
  | DuplicateVote
  | EquivocateVote
  | NewQuorumCertificate (qc : QuorumCert.t)
  | New2ChainTimeoutCertificate (tc : TwoChainTimeoutCertificate.t)
  | ErrorAddingVote (e : VerifyError)
  | ErrorAggregatingSignature (e : VerifyError)
  | ErrorAggregatingTimeoutCertificate (e : VerifyError)
  | UnexpectedRound (round current_round : Z)
  | EchoTimeout (voting_power : Z).

Module PendingVotes.
Section definitions.
Context `{CryptoTypes} `{!CryptoHash LedgerInfo.t} `{!BlsAggregate}.

Record t := mk {
  li_digest_to_votes : list (HashValue * (nat * LedgerInfoWithPartialSignatures.t));
  maybe_partial_2chain_tc : option TwoChainTimeoutWithPartialSignatures.t;
  author_to_vote : list (AccountAddress * (Vote.t * HashValue));
  echo_timeout : bool;
}.

Definition new : t := mk [] None [] false.

Definition set_li_digest_to_votes (self : t) m : t :=
  mk m (maybe_partial_2chain_tc self) (author_to_vote self) (echo_timeout self).
Definition set_partial_tc (self : t) tc : t :=
  mk (li_digest_to_votes self) tc (author_to_vote self) (echo_timeout self).
Definition set_author_to_vote (self : t) m : t :=
  mk (li_digest_to_votes self) (maybe_partial_2chain_tc self) m (echo_timeout self).
Definition set_echo_timeout (self : t) b : t :=
  mk (li_digest_to_votes self) (maybe_partial_2chain_tc self) (author_to_vote self) b.

Abbreviation M := (action t string).

(** Step 1: what was seen of the author before. *)
Definition seen_before (self : t) (vote : Vote.t) (li_digest : HashValue) : option VoteReceptionResult :=
  match HashMap.get (author_to_vote self) (Vote.author vote) with
  | Some (previously_seen_vote, previous_li_digest) =>
      if bool_decide (li_digest = previous_li_digest) then
        if Vote.is_timeout vote && negb (Vote.is_timeout previously_seen_vote) then None else Some DuplicateVote
      else Some EquivocateVote
  | None => None
  end.

(** Step 4: the timeout of the vote. *)
Definition add_timeout (vote : Vote.t) (timeout : TwoChainTimeout.t) (signature : Signature)
    (validator_verifier : ValidatorVerifier.t) (voting_power : Z) : M VoteReceptionResult :=
  self ← gets (fun self => self);
  let partial_tc :=
    TwoChainTimeoutWithPartialSignatures.add
      (default (TwoChainTimeoutWithPartialSignatures.new timeout) (maybe_partial_2chain_tc self))
      (Vote.author vote) timeout signature in
  modify (fun self => set_partial_tc self (Some partial_tc));;
  match ValidatorVerifier.check_voting_power validator_verifier
          (TwoChainTimeoutWithPartialSignatures.signers partial_tc) true with
  | Ok _ =>
      match TwoChainTimeoutWithPartialSignatures.aggregate_signatures partial_tc validator_verifier with
      | Ok tc_with_sig => mret (New2ChainTimeoutCertificate tc_with_sig)
      | Err e => mret (ErrorAggregatingTimeoutCertificate e)
      | Panic => lift Panic
      end
  | Err (TooLittleVotingPower tc_voting_power _) =>
      if echo_timeout self then mret (VoteAdded voting_power)
      else
        rest ← lift (u128_sub (ValidatorVerifier.total_voting_power validator_verifier)
          (ValidatorVerifier.quorum_voting_power validator_verifier));
        f_plus_one ← lift (u128_add rest 1);
        if f_plus_one <=? tc_voting_power then
          modify (fun self => set_echo_timeout self true);;
          mret (EchoTimeout tc_voting_power)
        else mret (VoteAdded voting_power)
  | Err error => mret (ErrorAddingVote error)
  | Panic => lift Panic
  end.

Definition insert_vote (vote : Vote.t) (validator_verifier : ValidatorVerifier.t) : M VoteReceptionResult :=
  let li_digest := hash (Vote.ledger_info vote) in
  self ← gets (fun self => self);
  match seen_before self vote li_digest with
  | Some result => mret result
  | None =>
      let '(hash_index, li_with_sig) :=
        default (S (length (li_digest_to_votes self)),
                 LedgerInfoWithPartialSignatures.new (Vote.ledger_info vote) PartialSignatures.empty)
          (HashMap.get (li_digest_to_votes self) li_digest) in
      let li_with_sig :=
        LedgerInfoWithPartialSignatures.add_signature li_with_sig (Vote.author vote) (Vote.signature vote) in
      modify (fun self =>
        set_li_digest_to_votes
          (set_author_to_vote self (HashMap.insert (author_to_vote self) (Vote.author vote) (vote, li_digest)))
          (HashMap.insert (li_digest_to_votes self) li_digest (hash_index, li_with_sig)));;
      match ValidatorVerifier.check_voting_power validator_verifier
              (PartialSignatures.signatures (LedgerInfoWithPartialSignatures.partial_sigs li_with_sig)).*1 true with
      | Ok _ =>
          match LedgerInfoWithPartialSignatures.aggregate_signatures li_with_sig validator_verifier with
          | Ok ledger_info_with_sig =>
              mret (NewQuorumCertificate (QuorumCert.new (Vote.vote_data vote) ledger_info_with_sig))
          | Err e => mret (ErrorAggregatingSignature e)
          | Panic => lift Panic
          end
      | Err (TooLittleVotingPower voting_power _) =>
          match Vote.two_chain_timeout vote with
          | Some (timeout, signature) => add_timeout vote timeout signature validator_verifier voting_power
          | None => mret (VoteAdded voting_power)
          end
      | Err error => mret (ErrorAddingVote error)
      | Panic => lift Panic
      end
  end.

Definition drain_votes : M (list (HashValue * LedgerInfoWithPartialSignatures.t)
    * option TwoChainTimeoutWithPartialSignatures.t) :=
  self ← gets (fun self => self);
  modify (fun self => set_partial_tc (set_li_digest_to_votes self []) None);;
  mret ((fun e => (e.1, e.2.2)) <$> li_digest_to_votes self, maybe_partial_2chain_tc self).
End definitions.
End PendingVotes.

Inductive NewRoundReason := QCReady | Timeout.

Module RoundState.
Section definitions.
Context `{CryptoTypes} `{!CryptoHash LedgerInfo.t} `{!BlsAggregate}.
Context (get_round_duration : Z -> Z).

Record NewRoundEvent := new_round_event {
  event_round : Z;
  reason : NewRoundReason;
  event_timeout : Z;
  prev_round_votes : list (HashValue * LedgerInfoWithPartialSignatures.t);
  prev_round_timeout_votes : option TwoChainTimeoutWithPartialSignatures.t;
}.

(** [timer] is the timeout task that is scheduled: its delay and its round. *)
Record t := mk {
  highest_committed_round : Z;
  current_round : Z;
  current_round_deadline : Z;
  pending_votes : PendingVotes.t;
  vote_sent : option Vote.t;
  timer : option (Z * Z);
}.

Definition new (now : Z) : t := mk 0 0 now PendingVotes.new None None.

Abbreviation M := (action t string).

Definition is_vote_timeout (self : t) : bool :=
  match vote_sent self with Some v => Vote.is_timeout v | None => false end.

(** The index of the round after the committed one. *)
Definition round_index (self : t) : result Z :=
  if highest_committed_round self =? 0 then u64_sub (current_round self) 1
  else
    first ← u64_add (highest_committed_round self) 3;
    if current_round self <? first then Ok 0
    else
      since ← u64_sub (current_round self) (highest_committed_round self);
      u64_sub since 3.

Definition setup_deadline (multiplier now : Z) : M Z :=
  self ← gets (fun self => self);
  index ← lift (round_index self);
  let timeout := get_round_duration index * multiplier in
  modify (fun self => mk (highest_committed_round self) (current_round self) (now + timeout) (pending_votes self)
    (vote_sent self) (timer self));;
  mret timeout.

Definition setup_timeout (multiplier now : Z) : M Z :=
  timeout ← setup_deadline multiplier now;
  modify (fun self => mk (highest_committed_round self) (current_round self) (current_round_deadline self)
    (pending_votes self) (vote_sent self) (Some (timeout, current_round self)));;
  mret timeout.

Definition setup_leader_timeout (now : Z) : M unit := setup_timeout 2 now;; mret tt.

Definition process_local_timeout (round now : Z) : M bool :=
  self ← gets (fun self => self);
  if negb (round =? current_round self) then mret false
  else setup_timeout 1 now;; mret true.

Definition process_certificates (sync_info : SyncInfo.t) (now : Z) : M (option NewRoundEvent) :=
  modify (fun self =>
    if highest_committed_round self <? SyncInfo.highest_ordered_round sync_info
    then mk (SyncInfo.highest_ordered_round sync_info) (current_round self) (current_round_deadline self)
           (pending_votes self) (vote_sent self) (timer self)
    else self);;
  new_round ← lift (u64_add (SyncInfo.highest_round sync_info) 1);
  self ← gets (fun self => self);
  if current_round self <? new_round then
    '(prev_round_votes, prev_round_timeout_votes) ←
      zoom pending_votes (fun self p => mk (highest_committed_round self) (current_round self)
        (current_round_deadline self) p (vote_sent self) (timer self)) PendingVotes.drain_votes;
    modify (fun self => mk (highest_committed_round self) new_round (current_round_deadline self) PendingVotes.new None
      (timer self));;
    timeout ← setup_timeout 1 now;
    after_certified ← lift (u64_add (SyncInfo.highest_certified_round sync_info) 1);
    let reason := if after_certified =? new_round then QCReady else Timeout in
    mret (Some (new_round_event new_round reason timeout prev_round_votes prev_round_timeout_votes))
  else mret None.

Definition proposed_round (vote : Vote.t) : Z := BlockInfo.round (VoteData.proposed (Vote.vote_data vote)).

Definition insert_vote (vote : Vote.t) (verifier : ValidatorVerifier.t) : M VoteReceptionResult :=
  self ← gets (fun self => self);
  if proposed_round vote =? current_round self then
    zoom pending_votes (fun self p => mk (highest_committed_round self) (current_round self)
      (current_round_deadline self) p (vote_sent self) (timer self)) (PendingVotes.insert_vote vote verifier)
  else mret (UnexpectedRound (proposed_round vote) (current_round self)).

Definition record_vote (vote : Vote.t) : M unit :=
  modify (fun self =>
    if proposed_round vote =? current_round self
    then mk (highest_committed_round self) (current_round self) (current_round_deadline self) (pending_votes self)
           (Some vote) (timer self)
    else self).
End definitions.
End RoundState.

(** ** Votes that are counted *)
Section votes.
Context `{CryptoTypes} `{!CryptoHash LedgerInfo.t} `{!CryptoHash VoteData.t} `{!BlsAggregate} `{!Bls LedgerInfo.t}
  `{!Bls TimeoutSigningRepr.t}.
Context (v : ValidatorVerifier.t) (Hwf : ValidatorVerifier.well_formed v)
  (Hquorum : 0 < ValidatorVerifier.quorum_voting_power v)
  (Htotal : ValidatorVerifier.quorum_voting_power v <= ValidatorVerifier.total_voting_power v < 2 ^ 128).
Implicit Types (p : PendingVotes.t) (vote : Vote.t).
Import PendingVotes.

(** A verified vote of the epoch and the round. *)
Record valid_vote (epoch round : Z) vote : Prop := {
  valid_verified : Vote.verify vote v = Ok tt;
  valid_epoch : Vote.epoch vote = epoch;
  valid_round : RoundState.proposed_round vote = round;
}.

(** The parts of a verified vote. *)
Lemma vote_verified vote : Vote.verify vote v = Ok tt ->
  LedgerInfo.consensus_data_hash (Vote.ledger_info vote) = hash (Vote.vote_data vote) /\
  ValidatorVerifier.verify v (Vote.author vote) (Vote.ledger_info vote) (Vote.signature vote) = Ok tt /\
  VoteData.verify (Vote.vote_data vote) = Ok tt /\
  forall t s, Vote.two_chain_timeout vote = Some (t, s) ->
    TwoChainTimeout.epoch t = Vote.epoch vote /\ TwoChainTimeout.round t = RoundState.proposed_round vote /\
    TwoChainTimeout.verify t v = Ok tt /\
    ValidatorVerifier.verify v (Vote.author vote) (TwoChainTimeout.signing_format t) s = Ok tt.
Proof using Type.
  intros Hv. unfold Vote.verify in Hv. apply bind_Ok in Hv as ([] & Hh & Hv). apply bind_Ok in Hv as ([] & Hs & Hv).
  apply bind_Ok in Hv as ([] & Ht & Hv). apply ensure_Ok, bool_decide_eq_true_1 in Hh.
  apply map_err_Ok in Hs. split_and!; [done..|]. intros t s E. rewrite E in Ht.
  apply bind_Ok in Ht as ([] & He & Ht). apply bind_Ok in Ht as ([] & Ht & Hts). apply ensure_Ok in He.
  rewrite andb_true_iff, !Z.eqb_eq in He. destruct He. by apply map_err_Ok in Hts.
Qed.

(** The signatures on a ledger info are those of the authors whose votes are kept
    for its digest. *)
Record li_ok p (digest : HashValue) (li : LedgerInfoWithPartialSignatures.t) : Prop := {
  li_digest : hash (LedgerInfoWithPartialSignatures.ledger_info li) = digest;
  li_ordered : BTreeMap.ordered (PartialSignatures.signatures (LedgerInfoWithPartialSignatures.partial_sigs li));
  li_valid : Forall (fun '(a, s) =>
    ValidatorVerifier.verify v a (LedgerInfoWithPartialSignatures.ledger_info li) s = Ok tt)
    (PartialSignatures.signatures (LedgerInfoWithPartialSignatures.partial_sigs li));
  li_authors a : a ∈ (PartialSignatures.signatures (LedgerInfoWithPartialSignatures.partial_sigs li)).*1 <->
    exists vote, HashMap.get (author_to_vote p) a = Some (vote, digest);
}.

(** The timeouts of authors whose timeout votes are kept. *)
Record tc_ok (epoch round : Z) p (tc : TwoChainTimeoutWithPartialSignatures.t) (t0 : TwoChainTimeout.t)
    (received : list (AccountAddress * TwoChainTimeout.t * Signature)) : Prop := {
  tc_received : tc = add_all (TwoChainTimeoutWithPartialSignatures.new t0) received;
  tc_first : exists a s l, received = (a, t0, s) :: l;
  tc_once : NoDup received.*1.*1;
  tc_valid : Forall (fun '(a, t, s) => TwoChainTimeout.epoch t = epoch /\ TwoChainTimeout.round t = round /\
    TwoChainTimeout.verify t v = Ok tt /\
    ValidatorVerifier.verify v a (TwoChainTimeout.signing_format t) s = Ok tt) received;
  tc_authors a : a ∈ received.*1.*1 ->
    exists vote digest, HashMap.get (author_to_vote p) a = Some (vote, digest) /\ Vote.is_timeout vote = true;
}.

Record pending_ok (epoch round : Z) p : Prop := {
  pending_votes_ok a vote digest : HashMap.get (author_to_vote p) a = Some (vote, digest) ->
    Vote.author vote = a /\ digest = hash (Vote.ledger_info vote) /\ valid_vote epoch round vote;
  pending_li digest i li : HashMap.get (li_digest_to_votes p) digest = Some (i, li) -> li_ok p digest li;
  pending_counted a vote digest : HashMap.get (author_to_vote p) a = Some (vote, digest) ->
    is_Some (HashMap.get (li_digest_to_votes p) digest);
  pending_tc tc : maybe_partial_2chain_tc p = Some tc -> exists t0 received, tc_ok epoch round p tc t0 received;
}.

(** Two ledger infos with the same hash. *)
Definition collision : Prop := exists li li' : LedgerInfo.t, li <> li' /\ hash li = hash li'.

Lemma new_pending_ok epoch round : pending_ok epoch round new.
Proof using Type. by split. Qed.

(** A vote of an author that was not seen, or not with a timeout. *)
Definition fresh p vote : Prop :=
  match HashMap.get (author_to_vote p) (Vote.author vote) with
  | None => True
  | Some (old, digest) => digest = hash (Vote.ledger_info vote) /\ Vote.is_timeout vote = true /\ Vote.is_timeout old = false
  end.

Lemma seen_before_None p vote : seen_before p vote (hash (Vote.ledger_info vote)) = None <-> fresh p vote.
Proof using Type.
  unfold seen_before, fresh. destruct (HashMap.get _ _) as [[old d]|]; [|done].
  case_bool_decide as E; [|split; [done|intros [? _]; congruence]].
  destruct (Vote.is_timeout vote), (Vote.is_timeout old); cbn; split; try done; by intros (_ & ? & ?).
Qed.

(** The ledger info the signature of a vote is added to. *)
Definition entry_for p vote : nat * LedgerInfoWithPartialSignatures.t :=
  default (S (length (li_digest_to_votes p)), LedgerInfoWithPartialSignatures.new (Vote.ledger_info vote) PartialSignatures.empty)
    (HashMap.get (li_digest_to_votes p) (hash (Vote.ledger_info vote))).
Definition signed_entry p vote : LedgerInfoWithPartialSignatures.t :=
  LedgerInfoWithPartialSignatures.add_signature (entry_for p vote).2 (Vote.author vote) (Vote.signature vote).
(** The state after storing a vote. *)
Definition stored p vote : PendingVotes.t :=
  set_li_digest_to_votes
    (set_author_to_vote p (HashMap.insert (author_to_vote p) (Vote.author vote) (vote, hash (Vote.ledger_info vote))))
    (HashMap.insert (li_digest_to_votes p) (hash (Vote.ledger_info vote)) ((entry_for p vote).1, signed_entry p vote)).

Lemma entry_ok epoch round p vote : pending_ok epoch round p -> valid_vote epoch round vote ->
  let li := (entry_for p vote).2 in
  hash (LedgerInfoWithPartialSignatures.ledger_info li) = hash (Vote.ledger_info vote) /\
  BTreeMap.ordered (PartialSignatures.signatures (LedgerInfoWithPartialSignatures.partial_sigs li)) /\
  Forall (fun '(a, s) => ValidatorVerifier.verify v a (LedgerInfoWithPartialSignatures.ledger_info li) s = Ok tt)
    (PartialSignatures.signatures (LedgerInfoWithPartialSignatures.partial_sigs li)) /\
  forall a, a ∈ (PartialSignatures.signatures (LedgerInfoWithPartialSignatures.partial_sigs li)).*1 <->
    exists vote', HashMap.get (author_to_vote p) a = Some (vote', hash (Vote.ledger_info vote)).
Proof using Type.
  intros Hp Hv. unfold entry_for. destruct (HashMap.get (li_digest_to_votes p) _) as [[i li]|] eqn:E; cbn.
  - by destruct (pending_li _ _ _ Hp _ _ _ E).
  - split_and!; [done|constructor|constructor|]. intros a. split; [by intros ?%elem_of_nil|].
    intros [vote' Ha]. apply (pending_counted _ _ _ Hp) in Ha as [? Ha]. congruence.
Qed.

Lemma get_stored p vote a : HashMap.get (author_to_vote (stored p vote)) a =
  if bool_decide (a = Vote.author vote) then Some (vote, hash (Vote.ledger_info vote)) else HashMap.get (author_to_vote p) a.
Proof using Type. apply HashMap.hash_get_insert. Qed.

(** The signature is added to the right ledger info. *)
Lemma signed_entry_ok epoch round p vote : pending_ok epoch round p -> valid_vote epoch round vote -> fresh p vote ->
  collision \/
  li_ok (stored p vote) (hash (Vote.ledger_info vote)) (signed_entry p vote) /\
  LedgerInfoWithPartialSignatures.ledger_info (signed_entry p vote) = Vote.ledger_info vote.
Proof using Type.
  intros Hp Hv Hf. destruct (entry_ok _ _ _ _ Hp Hv) as (Hh & Ho & Hs & Ha). set (li := (entry_for p vote).2) in *.
  destruct (decide (LedgerInfoWithPartialSignatures.ledger_info li = Vote.ledger_info vote)) as [E|]; [right|left; by eexists _, _].
  split; [|done]. destruct (vote_verified vote (valid_verified _ _ _ Hv)) as (_ & Hsig & _).
  unfold signed_entry. fold li. split; cbn [LedgerInfoWithPartialSignatures.add_signature
    LedgerInfoWithPartialSignatures.ledger_info LedgerInfoWithPartialSignatures.partial_sigs PartialSignatures.add_signature
    PartialSignatures.signatures].
  - done.
  - by apply BTreeMap.or_insert_ordered.
  - rewrite Forall_forall in *. intros [a s] [[= -> ->]|Hin]%BTreeMap.or_insert_elem; [by rewrite E|by apply (Hs (a, s))].
  - intros a. rewrite BTreeMap.or_insert_keys, Ha, get_stored by done.
    case_bool_decide as Ea; [subst a; split; [by eexists|by left]|]. split; [by intros [?|?]|by right].
Qed.

Lemma stored_other epoch round p vote digest i li : pending_ok epoch round p -> fresh p vote ->
  digest <> hash (Vote.ledger_info vote) -> HashMap.get (li_digest_to_votes p) digest = Some (i, li) ->
  li_ok (stored p vote) digest li.
Proof using Type.
  intros Hp Hf Hne Hg. destruct (pending_li _ _ _ Hp _ _ _ Hg) as [L1 L2 L3 L4]. split; [done..|].
  intros a. rewrite L4, get_stored. case_bool_decide as Ea; [subst a|done]. split.
  - intros [vote' Hv']. unfold fresh in Hf. rewrite Hv' in Hf. by destruct Hf as [-> _].
  - intros [vote' [= -> E]]. by destruct Hne.
Qed.

Lemma stored_tc epoch round p vote tc t0 received : fresh p vote -> tc_ok epoch round p tc t0 received ->
  tc_ok epoch round (stored p vote) tc t0 received /\ Vote.author vote ∉ received.*1.*1.
Proof using Type.
  intros Hf [T1 T2 T3 T4 T5]. assert (Vote.author vote ∉ received.*1.*1) as Hn.
  { intros (old & d & Hg & Ht)%T5. unfold fresh in Hf. rewrite Hg in Hf. destruct Hf as (_ & _ & ?). congruence. }
  split; [|done]. split; [done..|]. intros a Ha. destruct (T5 a Ha) as (old & d & Hg & Ht). exists old, d.
  rewrite get_stored, bool_decide_eq_false_2; [done|]. by intros ->.
Qed.

Lemma stored_ok epoch round p vote : pending_ok epoch round p -> valid_vote epoch round vote -> fresh p vote ->
  collision \/ pending_ok epoch round (stored p vote).
Proof using Type.
  intros Hp Hv Hf. destruct (signed_entry_ok _ _ _ _ Hp Hv Hf) as [?|[Hs _]]; [by left|right]. split.
  - intros a vote' digest. rewrite get_stored. case_bool_decide as E; [intros [= <- <-]; by split_and!|apply Hp].
  - intros digest i li. cbn. rewrite HashMap.hash_get_insert. case_bool_decide as E; [intros [= <- <-]; by subst|].
    by eapply stored_other.
  - intros a vote' digest. rewrite get_stored. cbn. rewrite HashMap.hash_get_insert. case_bool_decide as E.
    + intros [= <- <-]. rewrite bool_decide_eq_true_2 by done. by eexists.
    + intros Hg. case_bool_decide; [by eexists|]. by eapply (pending_counted _ _ _ Hp).
  - intros tc Htc. destruct (pending_tc _ _ _ Hp tc Htc) as (t0 & received & Ht). exists t0, received.
    by eapply stored_tc.
Qed.

(** *** Certificates *)
Context (Hmulti : multi_signatures_correct LedgerInfo.t) (Hagg : aggregate_signatures_correct TimeoutSigningRepr.t).

(** The certificate is what the ledger info, signed by a quorum, becomes. *)
Record certificate_ok p vote (qc : QuorumCert.t) : Prop := {
  certificate_verifies : QuorumCert.verify qc v = Ok tt;
  certificate_block : QuorumCert.certified_block qc = VoteData.proposed (Vote.vote_data vote);
  certificate_voters a :
    a ∈ LedgerInfoWithSignatures.get_voters (QuorumCert.ledger_info qc) (ValidatorVerifier.get_ordered_account_addresses v) <->
    exists vote', HashMap.get (author_to_vote p) a = Some (vote', hash (Vote.ledger_info vote));
}.

Lemma li_known p digest li : li_ok p digest li ->
  NoDup (PartialSignatures.signatures (LedgerInfoWithPartialSignatures.partial_sigs li)).*1 /\
  forall a, a ∈ (PartialSignatures.signatures (LedgerInfoWithPartialSignatures.partial_sigs li)).*1 ->
    a ∈ ValidatorVerifier.get_ordered_account_addresses v.
Proof using Hwf.
  intros [_ L2 L3 _]. split; [by apply BTreeMap.ordered_NoDup|]. intros a ([b s] & -> & Hin)%list_elem_of_fmap.
  rewrite Forall_forall in L3. exact (ValidatorVerifier.verify_known v b _ s Hwf (L3 _ Hin)).
Qed.

Lemma certificate_formed epoch round p vote : 0 < round -> valid_vote epoch round vote ->
  let li := signed_entry p vote in
  li_ok (stored p vote) (hash (Vote.ledger_info vote)) li -> LedgerInfoWithPartialSignatures.ledger_info li = Vote.ledger_info vote ->
  ValidatorVerifier.check_voting_power v
    (PartialSignatures.signatures (LedgerInfoWithPartialSignatures.partial_sigs li)).*1 true = Ok tt ->
  exists signed, LedgerInfoWithPartialSignatures.aggregate_signatures li v = Ok signed /\
    certificate_ok (stored p vote) vote (QuorumCert.new (Vote.vote_data vote) signed).
Proof using Hwf Hquorum Hmulti.
  intros Hpos [Hv _ Hr] li [L1 L2 L3 L4] El Hq. clearbody li. destruct (vote_verified vote Hv) as (Hh & _ & Hd & _).
  destruct (ValidatorVerifier.aggregate_verifies v _ _ Hmulti Hwf Hquorum L2 L3 Hq) as (agg & Ha & Hver & Hsig).
  eexists. split; [unfold LedgerInfoWithPartialSignatures.aggregate_signatures; by rewrite Ha|]. split; cbn.
  - unfold QuorumCert.verify. cbn. rewrite El, (bool_decide_eq_true_2 _ Hh). cbn [ensure]. mstep.
    unfold RoundState.proposed_round in Hr. unfold QuorumCert.certified_block. cbn. rewrite Hr, (proj2 (Z.eqb_neq round 0)) by lia.
    unfold LedgerInfoWithSignatures.verify_signatures. cbn. rewrite <-El, Hver. cbn [map_err]. by mstep.
  - done.
  - intros a. unfold LedgerInfoWithSignatures.get_voters. cbn. by rewrite Hsig, L4.
Qed.

(** The timeout of a vote is added to the partial certificate. *)
Definition timeout_entry p vote timeout signature : TwoChainTimeoutWithPartialSignatures.t :=
  TwoChainTimeoutWithPartialSignatures.add
    (default (TwoChainTimeoutWithPartialSignatures.new timeout) (maybe_partial_2chain_tc p)) (Vote.author vote) timeout signature.

Lemma timeout_entry_ok epoch round p vote timeout signature : pending_ok epoch round p -> valid_vote epoch round vote ->
  fresh p vote -> Vote.two_chain_timeout vote = Some (timeout, signature) ->
  exists t0 received, tc_ok epoch round (set_partial_tc (stored p vote) (Some (timeout_entry p vote timeout signature)))
    (timeout_entry p vote timeout signature) t0 received.
Proof using Type.
  intros Hp [Hv He Hr] Hf Hto. destruct (vote_verified vote Hv) as (_ & _ & _ & Ht). specialize (Ht _ _ Hto). rewrite He, Hr in Ht.
  assert (HashMap.get (author_to_vote (set_partial_tc (stored p vote) (Some (timeout_entry p vote timeout signature))))
    (Vote.author vote) = Some (vote, hash (Vote.ledger_info vote))) as Hself.
  { cbn. by rewrite HashMap.get_insert_eq. }
  assert (Vote.is_timeout vote = true) as His by (unfold Vote.is_timeout; by rewrite Hto).
  unfold timeout_entry. destruct (maybe_partial_2chain_tc p) as [tc|] eqn:Etc; cbn [default].
  - destruct (pending_tc _ _ _ Hp tc Etc) as (t0 & received & Htc). destruct (stored_tc _ _ _ _ _ _ _ Hf Htc) as [[T1 T2 T3 T4 T5] Hn].
    exists t0, (received ++ [(Vote.author vote, timeout, signature)]). split.
    + rewrite T1. unfold add_all, id. by rewrite foldl_app.
    + destruct T2 as (a & s & l & ->). by exists a, s, (l ++ [(Vote.author vote, timeout, signature)]).
    + rewrite !fmap_app. apply NoDup_app. split_and!; [done| |apply NoDup_singleton]. by intros x Hx ->%list_elem_of_singleton.
    + apply Forall_app. by split; [|constructor].
    + intros a. rewrite !fmap_app, elem_of_app. cbn. rewrite list_elem_of_singleton.
      intros [Ha| ->]; [by apply T5|]. exists vote, (hash (Vote.ledger_info vote)). by rewrite HashMap.get_insert_eq.
  - exists timeout, [(Vote.author vote, timeout, signature)]. split.
    + done.
    + by eexists _, _, _.
    + apply NoDup_singleton.
    + by constructor.
    + intros a. cbn. rewrite list_elem_of_singleton. intros ->. exists vote, (hash (Vote.ledger_info vote)).
      by rewrite HashMap.get_insert_eq.
Qed.

Lemma tc_signers epoch round p tc t0 received : tc_ok epoch round p tc t0 received ->
  TwoChainTimeoutWithPartialSignatures.signers tc ≡ₚ received.*1.*1 /\
  (forall a, a ∈ received.*1.*1 -> a ∈ ValidatorVerifier.get_ordered_account_addresses v).
Proof using Hwf.
  intros [-> _ T3 T4 _]. destruct (add_all_spec t0 received T3) as (Ho & Hin & _).
  set (tc := add_all _ _) in *. split.
  - apply NoDup_Permutation; [by apply BTreeMap.ordered_NoDup|done|]. intros a. unfold TwoChainTimeoutWithPartialSignatures.signers. split.
    + intros ([b [r s]] & -> & (t & Ht & _)%Hin)%list_elem_of_fmap. apply list_elem_of_fmap. exists (b, t). split; [done|].
      apply list_elem_of_fmap. by exists (b, t, s).
    + intros ([b t] & -> & ([[c t'] s] & [= <- <-] & Ht)%list_elem_of_fmap)%list_elem_of_fmap. apply list_elem_of_fmap.
      exists (b, (TwoChainTimeout.hqc_round t, s)). split; [done|]. apply Hin. by exists t.
  - intros a ([b t] & -> & ([[c t'] s] & [= <- <-] & Ht)%list_elem_of_fmap)%list_elem_of_fmap.
    rewrite Forall_forall in T4. destruct (T4 _ Ht) as (_ & _ & _ & Hs). by eapply ValidatorVerifier.verify_known.
Qed.

Lemma timeout_certificate_formed epoch round p tc t0 received : tc_ok epoch round p tc t0 received ->
  ValidatorVerifier.check_voting_power v (TwoChainTimeoutWithPartialSignatures.signers tc) true = Ok tt ->
  exists signed, TwoChainTimeoutWithPartialSignatures.aggregate_signatures tc v = Ok signed /\
    TwoChainTimeoutCertificate.verify signed v = Ok tt /\ TwoChainTimeoutCertificate.round signed = round.
Proof using Hwf Hquorum Hagg.
  intros Htc Hq. pose proof (tc_signers _ _ _ _ _ _ Htc) as [Hperm Hk]. destruct Htc as [-> (a & s & l & ->) T3 T4 _].
  destruct (timeouts_aggregate v a t0 s l Hagg Hwf Hquorum T3) as (signed & Ha & Hv & Hr & _).
  - apply Forall_cons in T4 as Ht. destruct Ht as [(He & Hr & _) _]. eapply Forall_impl; [exact T4|].
    intros [[b t] s'] (E & R & ?). by rewrite He, Hr.
  - eapply ValidatorVerifier.check_voting_power_ext; [done|done| | |exact Hq].
    + by rewrite Hperm.
    + intros x. by rewrite Hperm.
  - exists signed. rewrite Hr. apply Forall_cons in T4 as [(_ & Ht & _) _]. done.
Qed.

(** *** Inserting votes *)

(** The authors whose votes for the ledger info of a vote are kept. *)
Definition voters p vote (authors : list AccountAddress) : Prop :=
  NoDup authors /\ forall a, a ∈ authors <-> exists vote', HashMap.get (author_to_vote p) a = Some (vote', hash (Vote.ledger_info vote)).

Definition power (authors : list AccountAddress) : Z :=
  ValidatorVerifier.power_of (ValidatorVerifier.validator_infos v) authors.

(** What is reported when there is no quorum for a ledger info. *)
Definition no_quorum (round weight : Z) (res : VoteReceptionResult) : Prop :=
  match res with
  | VoteAdded w => w = weight
  | EchoTimeout _ => True
  | New2ChainTimeoutCertificate tc =>
      TwoChainTimeoutCertificate.verify tc v = Ok tt /\ TwoChainTimeoutCertificate.round tc = round
  | _ => False
  end.

Lemma set_partial_tc_ok epoch round p tc : pending_ok epoch round p ->
  (exists t0 received, tc_ok epoch round (set_partial_tc p (Some tc)) tc t0 received) -> pending_ok epoch round (set_partial_tc p (Some tc)).
Proof using Type.
  intros [P1 P2 P3 _] Htc. split; [done| |done|by intros tc' [= <-]].
  intros digest i li Hg. by destruct (P2 _ _ _ Hg).
Qed.

Lemma set_echo_timeout_ok epoch round p b : pending_ok epoch round p -> pending_ok epoch round (set_echo_timeout p b).
Proof using Type.
  intros [P1 P2 P3 P4]. split; [done| |done|].
  - intros digest i li Hg. by destruct (P2 _ _ _ Hg).
  - intros tc Htc. destruct (P4 tc Htc) as (t0 & received & [T1 T2 T3 T4 T5]). by exists t0, received.
Qed.

Lemma add_timeout_run epoch round p vote timeout signature weight : pending_ok epoch round p -> valid_vote epoch round vote ->
  fresh p vote -> pending_ok epoch round (stored p vote) -> Vote.two_chain_timeout vote = Some (timeout, signature) ->
  exists p' res, add_timeout vote timeout signature v weight (stored p vote) = (p', Ok res) /\
    pending_ok epoch round p' /\ author_to_vote p' = author_to_vote (stored p vote) /\ no_quorum round weight res.
Proof using Hwf Hquorum Htotal Hagg.
  intros Hp Hv Hf Hs Hto. destruct (timeout_entry_ok _ _ _ _ _ _ Hp Hv Hf Hto) as (t0 & received & Htc).
  set (tc := timeout_entry p vote timeout signature) in *.
  assert (pending_ok epoch round (set_partial_tc (stored p vote) (Some tc))) as Hok by (apply set_partial_tc_ok; [done|by exists t0, received]).
  destruct (tc_signers _ _ _ _ _ _ Htc) as [Hperm Hk].
  unfold add_timeout, gets, modify, mbind, action_bind.
  change (TwoChainTimeoutWithPartialSignatures.add _ _ _ _) with tc.
  destruct (ValidatorVerifier.check_voting_power v (TwoChainTimeoutWithPartialSignatures.signers tc) true) as [[]|e|] eqn:Eq.
  - destruct (timeout_certificate_formed _ _ _ _ _ _ Htc Eq) as (signed & -> & Hver & Hr). by eexists _, _.
  - rewrite ValidatorVerifier.check_voting_power_known in Eq; [|done|rewrite Hperm; apply Htc|intros a; rewrite Hperm; apply Hk].
    destruct (_ <? _); [|done]. injection Eq as <-. destruct (echo_timeout (stored p vote)); [by eexists _, _|].
    unfold lift, u128_sub, u128_add. rewrite (proj2 (Z.leb_le _ _)) by lia. rewrite (proj2 (Z.ltb_lt _ _)) by lia.
    destruct (_ <=? _); [|by eexists _, _]. eexists _, _. split; [done|]. split; [by apply set_echo_timeout_ok|done].
  - rewrite ValidatorVerifier.check_voting_power_known in Eq; [|done|rewrite Hperm; apply Htc|intros a; rewrite Hperm; apply Hk].
    by destruct (_ <? _).
Qed.

Lemma insert_vote_run epoch round p vote : 0 < round -> pending_ok epoch round p -> valid_vote epoch round vote ->
  collision \/
  (~ fresh p vote /\ exists res, insert_vote vote v p = (p, Ok res) /\ (res = DuplicateVote \/ res = EquivocateVote)) \/
  (fresh p vote /\ exists p' res authors, insert_vote vote v p = (p', Ok res) /\ pending_ok epoch round p' /\
     author_to_vote p' = author_to_vote (stored p vote) /\ voters p' vote authors /\
     if ValidatorVerifier.quorum_voting_power v <=? power authors
     then exists qc, res = NewQuorumCertificate qc /\ certificate_ok p' vote qc
     else no_quorum round (power authors) res).
Proof using Hwf Hquorum Htotal Hmulti Hagg.
  intros Hpos Hp Hv. unfold insert_vote, gets, mbind, action_bind.
  destruct (seen_before p vote (hash (Vote.ledger_info vote))) as [res|] eqn:Es.
  { right. left. split; [rewrite <-seen_before_None; congruence|]. exists res. split; [done|]. unfold seen_before in Es.
    destruct (HashMap.get _ _) as [[old d]|]; [|done]. case_bool_decide; [|injection Es as <-; auto].
    destruct (_ && _); [done|injection Es as <-; auto]. }
  apply seen_before_None in Es as Hf. destruct (stored_ok _ _ _ _ Hp Hv Hf) as [?|Hok]; [by left|].
  destruct (signed_entry_ok _ _ _ _ Hp Hv Hf) as [?|[Hli El]]; [by left|]. right. right. split; [done|].
  fold (entry_for p vote). unfold modify. destruct (entry_for p vote) as [i li0] eqn:Ee.
  assert (LedgerInfoWithPartialSignatures.add_signature li0 (Vote.author vote) (Vote.signature vote) = signed_entry p vote) as ->
    by (unfold signed_entry; by rewrite Ee).
  set (p1 := set_li_digest_to_votes _ _). assert (p1 = stored p vote) as -> by (unfold p1, stored; by rewrite Ee).
  set (sigs := PartialSignatures.signatures (LedgerInfoWithPartialSignatures.partial_sigs (signed_entry p vote))).
  destruct (li_known _ _ _ Hli) as [Hnd Hk]. fold sigs in Hnd, Hk.
  assert (voters (stored p vote) vote sigs.*1) as Hvoters by (split; [done|apply Hli]).
  pose proof (ValidatorVerifier.check_voting_power_known v sigs.*1 Hwf Hnd Hk) as Hc. cbv zeta in Hc. fold (power sigs.*1) in Hc.
  rewrite Hc. destruct (Z.ltb_spec (power sigs.*1) (ValidatorVerifier.quorum_voting_power v)) as [Hlt|Hge].
  - pose proof (proj2 (Z.leb_gt _ _) Hlt) as Hle. destruct (Vote.two_chain_timeout vote) as [[timeout signature]|] eqn:Et.
    + destruct (add_timeout_run epoch round p vote timeout signature (power sigs.*1)) as (p' & res & -> & Hok' & Ha & Hn); [done..|].
      exists p', res, sigs.*1. unfold voters. by rewrite Ha, Hle.
    + exists (stored p vote), (VoteAdded (power sigs.*1)), sigs.*1. rewrite Hle. by split_and!.
  - pose proof (proj2 (Z.leb_le _ _) Hge) as Hle.
    destruct (certificate_formed epoch round p vote Hpos Hv Hli El Hc) as (signed & -> & Hcert).
    exists (stored p vote), (NewQuorumCertificate (QuorumCert.new (Vote.vote_data vote) signed)), sigs.*1. rewrite Hle. split_and!; [done..|].
    by eexists.
Qed.
End votes.

(** ** Runs *)
Section runs.
Context `{CryptoTypes} `{!CryptoHash LedgerInfo.t} `{!CryptoHash VoteData.t} `{!BlsAggregate} `{!Bls LedgerInfo.t}
  `{!Bls TimeoutSigningRepr.t}.
Context (v : ValidatorVerifier.t) (get_round_duration : Z -> Z).
Implicit Types (st : RoundState.t) (vote : Vote.t).
Import RoundState.

(** The calls of the state of an epoch. *)
Inductive round_call :=
  | ProcessCertificates (sync_info : SyncInfo.t) (now : Z)
  | InsertVote vote
  | RecordVote vote
  | ProcessLocalTimeout (round now : Z)
  | SetupLeaderTimeout (now : Z).

(** A call, and the event of a new round it may give. *)
Definition round_step (c : round_call) : action RoundState.t string (option NewRoundEvent) :=
  match c with
  | ProcessCertificates sync_info now => process_certificates get_round_duration sync_info now
  | InsertVote vote => insert_vote vote v;; mret None
  | RecordVote vote => record_vote vote;; mret None
  | ProcessLocalTimeout round now => process_local_timeout get_round_duration round now;; mret None
  | SetupLeaderTimeout now => setup_leader_timeout get_round_duration now;; mret None
  end.

Fixpoint round_run (calls : list round_call) st : option (RoundState.t * list NewRoundEvent) :=
  match calls with
  | [] => Some (st, [])
  | c :: calls =>
      match round_step c st with
      | (st, Ok event) =>
          '(st, events) ← round_run calls st;
          Some (st, match event with Some e => e :: events | None => events end)
      | _ => None
      end
  end.

(** *** Certificates start rounds *)
Lemma u64_add_inv {E} a b r : @u64_add E a b = Ok r -> r = a + b.
Proof using Type. unfold u64_add. destruct (_ <? _); congruence. Qed.

Lemma setup_timeout_run m now st : setup_timeout get_round_duration m now st =
  match round_index st with
  | Ok index =>
      let timeout := get_round_duration index * m in
      (mk (highest_committed_round st) (current_round st) (now + timeout) (pending_votes st) (vote_sent st)
         (Some (timeout, current_round st)), Ok timeout)
  | Err e => (st, Err e)
  | Panic => (st, Panic)
  end.
Proof using Type.
  unfold setup_timeout, setup_deadline, gets, lift, modify, mret, action_ret, mbind, action_bind.
  by destruct (round_index st) as [i|e|].
Qed.

Lemma process_certificates_run sync_info now st st' event :
  process_certificates get_round_duration sync_info now st = (st', Ok event) ->
  highest_committed_round st' = Z.max (highest_committed_round st) (SyncInfo.highest_ordered_round sync_info) /\
  let new_round := SyncInfo.highest_round sync_info + 1 in
  if current_round st <? new_round then
    exists timeout, current_round st' = new_round /\ pending_votes st' = PendingVotes.new /\ vote_sent st' = None /\
      current_round_deadline st' = now + timeout /\ timer st' = Some (timeout, new_round) /\
      event = Some (new_round_event new_round
        (if SyncInfo.highest_certified_round sync_info + 1 =? new_round then QCReady else Timeout) timeout
        ((fun e => (e.1, e.2.2)) <$> PendingVotes.li_digest_to_votes (pending_votes st))
        (PendingVotes.maybe_partial_2chain_tc (pending_votes st)))
  else event = None /\ current_round st' = current_round st /\ pending_votes st' = pending_votes st /\
    vote_sent st' = vote_sent st /\ timer st' = timer st.
Proof using Type.
  unfold process_certificates, modify, gets, lift, mbind, action_bind.
  set (st1 := if _ <? SyncInfo.highest_ordered_round sync_info then _ else st).
  assert (highest_committed_round st1 = Z.max (highest_committed_round st) (SyncInfo.highest_ordered_round sync_info) /\
    current_round st1 = current_round st /\ pending_votes st1 = pending_votes st /\ vote_sent st1 = vote_sent st /\
    timer st1 = timer st) as (Hc & Hr & Hp & Hv & Ht).
  { unfold st1. destruct (Z.ltb_spec (highest_committed_round st) (SyncInfo.highest_ordered_round sync_info)); cbn; split_and!; lia || done. }
  clearbody st1. destruct (u64_add (SyncInfo.highest_round sync_info) 1) as [nr| |] eqn:En; [|done..].
  apply u64_add_inv in En as ->. rewrite Hr.
  destruct (current_round st <? SyncInfo.highest_round sync_info + 1); [|intros [= <- <-]; rewrite Hc, Hr, Hp, Hv, Ht; done].
  unfold zoom, PendingVotes.drain_votes, gets, modify, mret, action_ret, mbind, action_bind. rewrite Hp, setup_timeout_run.
  destruct (round_index _) as [i|e|]; [|done..].
  destruct (u64_add (SyncInfo.highest_certified_round sync_info) 1) as [ar| |] eqn:Ea; [|done..].
  apply u64_add_inv in Ea as ->. intros [= <- <-]. cbn. split; [done|]. by eexists.
Qed.

(** The other calls stay in the round. *)
Lemma other_step_run c st st' event : (forall sync_info now, c <> ProcessCertificates sync_info now) ->
  round_step c st = (st', Ok event) -> event = None /\ current_round st' = current_round st /\
  (pending_votes st' = pending_votes st \/
   exists vote res, c = InsertVote vote /\ proposed_round vote = current_round st /\
     PendingVotes.insert_vote vote v (pending_votes st) = (pending_votes st', Ok res)) /\
  (vote_sent st' = vote_sent st \/ exists vote, vote_sent st' = Some vote /\ proposed_round vote = current_round st).
Proof using Type.
  destruct c as [si now|vote|vote|r now|now]; intros Hn; [by destruct (Hn si now)|..]; cbn [round_step].
  - intros (st1 & res & Hi & [= <- <-])%action_bind_Ok. revert Hi. unfold insert_vote, gets, mbind, action_bind.
    destruct (Z.eqb_spec (proposed_round vote) (current_round st)) as [E|]; [|intros [= <- _]; by auto 10].
    unfold zoom. destruct (PendingVotes.insert_vote vote v (pending_votes st)) as [p o] eqn:Ei. intros [= <- ->]. cbn.
    split_and!; [done|done|right; by exists vote, res|by left].
  - unfold record_vote, modify, mbind, action_bind, mret, action_ret. intros [= <- <-].
    destruct (Z.eqb_spec (proposed_round vote) (current_round st)); cbn; split_and!; auto. right. by exists vote.
  - intros (st1 & b & Hi & [= <- <-])%action_bind_Ok. revert Hi. unfold process_local_timeout, gets, mbind, action_bind.
    destruct (negb _); [intros [= <- _]; by auto 10|]. rewrite setup_timeout_run.
    destruct (round_index st); [|done..]. intros [= <- _]. cbn. auto 10.
  - intros (st1 & [] & Hi & [= <- <-])%action_bind_Ok. revert Hi. unfold setup_leader_timeout, mbind, action_bind.
    rewrite setup_timeout_run. destruct (round_index st); [|done..]. intros [= <-]. cbn. auto 10.
Qed.

Lemma step_round c st st' event : round_step c st = (st', Ok event) ->
  match event with
  | Some e => event_round e = current_round st' /\ current_round st < current_round st'
  | None => current_round st' = current_round st
  end.
Proof using Type.
  destruct (match c with ProcessCertificates _ _ => true | _ => false end) eqn:Ec.
  - destruct c as [si now| | | |]; try done. cbn [round_step]. intros (_ & Hr)%process_certificates_run. cbv zeta in Hr.
    destruct (Z.ltb_spec (current_round st) (SyncInfo.highest_round si + 1)).
    + destruct Hr as (timeout & Hr & _ & _ & _ & _ & ->). cbn. rewrite Hr. lia.
    + by destruct Hr as (-> & ? & _).
  - intros (-> & ? & _)%other_step_run; [done|]. intros si now ->. done.
Qed.

(** Rounds only move forward: the events of a run announce strictly increasing
    rounds, each above the round the run started in, and the last one announces the
    round the state is in. *)
Theorem new_rounds_increase calls st st' events : round_run calls st = Some (st', events) ->
  StronglySorted Z.lt (event_round <$> events) /\
  Forall (fun e => current_round st < event_round e <= current_round st') events /\
  match last events with
  | Some e => event_round e = current_round st'
  | None => current_round st' = current_round st
  end.
Proof using Type.
  revert st events. induction calls as [|c calls IH]; intros st events; cbn [round_run].
  { intros [= <- <-]. split_and!; [constructor|constructor|done]. }
  destruct (round_step c st) as [st1 [event| |]] eqn:Es; [|done..]. apply step_round in Es.
  destruct (round_run calls st1) as [[st2 evs]|] eqn:Er; [|done]. intros [= <- <-].
  destruct (IH st1 evs Er) as (Hs & Hf & Hl). destruct event as [e|]; [|rewrite <-Es; by split_and!; [..|destruct (last evs)]].
  destruct Es as [He Hlt]. rewrite last_cons, fmap_cons.
  assert (event_round e <= current_round st2) as Hle.
  { destruct (last evs) as [e'|] eqn:El; [|lia]. rewrite Forall_forall in Hf. apply last_Some_elem_of in El.
    specialize (Hf _ El). lia. }
  split_and!.
  - constructor; [done|]. apply Forall_fmap. eapply Forall_impl; [exact Hf|]. cbn. lia.
  - constructor; [lia|]. eapply Forall_impl; [exact Hf|]. cbn. lia.
  - destruct (last evs); [done|lia].
Qed.

(** *** Votes are counted in their round *)
Context (Hwf : ValidatorVerifier.well_formed v) (Hquorum : 0 < ValidatorVerifier.quorum_voting_power v)
  (Htotal : ValidatorVerifier.quorum_voting_power v <= ValidatorVerifier.total_voting_power v < 2 ^ 128)
  (Hmulti : multi_signatures_correct LedgerInfo.t) (Hagg : aggregate_signatures_correct TimeoutSigningRepr.t).

(** Only verified votes of the epoch are inserted. *)
Definition valid_call (epoch : Z) (c : round_call) : Prop :=
  match c with
  | InsertVote vote => valid_vote v epoch (proposed_round vote) vote /\ 0 < proposed_round vote
  | _ => True
  end.

Record round_ok (epoch : Z) st : Prop := {
  round_pending : pending_ok v epoch (current_round st) (pending_votes st);
  round_vote vote : vote_sent st = Some vote -> proposed_round vote = current_round st;
}.

Lemma step_ok epoch c st st' event : valid_call epoch c -> round_ok epoch st -> round_step c st = (st', Ok event) ->
  collision \/ round_ok epoch st'.
Proof using Hwf Hquorum Htotal Hmulti Hagg.
  intros Hc [Rp Rv] Hs. destruct (match c with ProcessCertificates _ _ => true | _ => false end) eqn:Ec.
  - destruct c as [si now| | | |]; try done. right. cbn [round_step] in Hs. apply process_certificates_run in Hs as [_ Hr]. cbv zeta in Hr.
    destruct (_ <? _).
    + destruct Hr as (timeout & _ & Hp & Hv & _). split; [rewrite Hp; by split|by rewrite Hv].
    + destruct Hr as (_ & Hr & Hp & Hv & _). split; rewrite ?Hr, ?Hp, ?Hv; done.
  - apply other_step_run in Hs as (_ & Hr & Hp & Hv); [|by intros si now ->].
    assert (forall vote, vote_sent st' = Some vote -> proposed_round vote = current_round st') as Hv'.
    { intros vote E. rewrite Hr. destruct Hv as [Hv|(vote' & Hv & ?)]; [apply Rv; by rewrite <-Hv|congruence]. }
    destruct Hp as [Hp|(vote & res & -> & Hround & Hi)]; [right; split; [by rewrite Hr, Hp|done]|].
    destruct Hc as [Hval Hpos]. rewrite Hround in *.
    destruct (insert_vote_run v Hwf Hquorum Htotal Hmulti Hagg _ _ _ _ Hpos Rp Hval)
      as [?|[(_ & res' & E & _)|(_ & p' & res' & authors & E & Hok & _)]]; [by left|right..].
    all: rewrite E in Hi; injection Hi as Hp' _; split; [by rewrite Hr, <-Hp'|done].
Qed.

Lemma round_run_ok epoch calls st st' events : Forall (valid_call epoch) calls -> round_ok epoch st ->
  round_run calls st = Some (st', events) -> collision \/ round_ok epoch st'.
Proof using Hwf Hquorum Htotal Hmulti Hagg.
  intros Hc. revert st events. induction Hc as [|c calls Hc _ IH]; intros st events Hok; cbn [round_run].
  { intros [= <- <-]. by right. }
  destruct (round_step c st) as [st1 [event| |]] eqn:Es; [|done..].
  destruct (round_run calls st1) as [[st2 evs]|] eqn:Er; [|done]. intros [= <- _].
  destruct (step_ok _ _ _ _ _ Hc Hok Es) as [?|Hok1]; [by left|by eapply IH].
Qed.

(** C14: in any run in which verified votes of an epoch arrive, a verified vote for the
    current round is answered, unless two ledger infos have the same hash, as
    follows.  A second vote of an author is reported, as a duplicate or as an
    equivocation, and changes nothing.  Otherwise, if the authors whose vote for this
    ledger info was the one that was kept hold a quorum, a certificate is formed: it
    verifies, it certifies the voted block, and its signers are exactly these
    authors.  If they do not, the weight of the votes is reported, or a timeout
    certificate for the round that verifies. *)
Theorem votes_counted epoch now calls st events vote : Forall (valid_call epoch) calls ->
  round_run calls (RoundState.new now) = Some (st, events) ->
  0 < current_round st -> valid_vote v epoch (current_round st) vote ->
  collision \/
  exists st' res, insert_vote vote v st = (st', Ok res) /\
    (~ fresh (pending_votes st) vote /\ st' = st /\ (res = DuplicateVote \/ res = EquivocateVote) \/
     fresh (pending_votes st) vote /\ exists authors, voters (pending_votes st') vote authors /\
       if ValidatorVerifier.quorum_voting_power v <=? power v authors
       then exists qc, res = NewQuorumCertificate qc /\ certificate_ok v (pending_votes st') vote qc
       else no_quorum v (current_round st) (power v authors) res).
Proof using Hwf Hquorum Htotal Hmulti Hagg.
  intros Hc Hr Hpos Hv. assert (round_ok epoch (RoundState.new now)) as Hnew by (by split; [split|]).
  destruct (round_run_ok _ _ _ _ _ Hc Hnew Hr) as [?|[Hp _]]; [by left|].
  destruct (insert_vote_run v Hwf Hquorum Htotal Hmulti Hagg _ _ _ _ Hpos Hp Hv)
    as [?|[(Hf & res & E & Hres)|(Hf & p' & res & authors & E & _ & _ & Ha & Hres)]]; [by left|right..].
  all: unfold insert_vote, gets, mbind, action_bind; rewrite (proj2 (Z.eqb_eq _ _)) by (by destruct Hv); unfold zoom; rewrite E.
  - eexists _, res. split; [done|]. left. split; [done|]. by destruct st.
  - eexists _, res. split; [done|]. right. split; [done|]. by exists authors.
Qed.
End runs.

(** ** An example: three of four validators vote for a block of round 3 *)
Section example.
#[local] Existing Instance example_vote_data_hash.
#[local] Instance ledger_info_hash : @CryptoHash free_crypto LedgerInfo.t :=
  fun li => LedgerInfo.consensus_data_hash li.

Definition info3 : @BlockInfo.t free_crypto := BlockInfo.new 1 3 (Leaf 3) (Leaf 4) 0 0 None.
Definition vote3 (author : AccountAddress) (signature : @Signature free_crypto) : @Vote.t free_crypto :=
  Vote.new_with_signature (VoteData.new info3 genesis_info) author (LedgerInfo.new BlockInfo.empty (Leaf 3)) signature.
Definition sync2 : @SyncInfo.t free_crypto :=
  SyncInfo.mk (QuorumCert.new (VoteData.new (BlockInfo.new 1 2 (Leaf 2) (Leaf 8) 0 0 None) genesis_info)
    (QuorumCert.ledger_info genesis_qc)) None genesis_qc None.
Definition votes_calls : list round_call :=
  [ProcessCertificates sync2 100; InsertVote (vote3 7 1); InsertVote (vote3 3 2)].

Lemma votes_counted_witness : exists st events st' res,
  round_run v4 (fun _ => 10) votes_calls (RoundState.new 0) = Some (st, events) /\
  RoundState.insert_vote (vote3 9 8) v4 st = (st', Ok res) /\
  (collision \/ exists qc, res = NewQuorumCertificate qc /\ QuorumCert.verify qc v4 = Ok tt).
Proof.
  destruct (round_run v4 (fun _ => 10) votes_calls (RoundState.new 0)) as [[st events]|] eqn:Er.
  2: exfalso; assert (match round_run v4 (fun _ => 10) votes_calls (RoundState.new 0) with Some _ => true | None => false end = true) as E by vm_refl;
    rewrite Er in E; discriminate E.
  assert (match round_run v4 (fun _ => 10) votes_calls (RoundState.new 0) with
    | Some (st, _) => (RoundState.current_round st =? 3) &&
        match RoundState.insert_vote (vote3 9 8) v4 st with (_, Ok (NewQuorumCertificate _)) => true | _ => false end
    | None => false end = true) as Hq by vm_refl.
  rewrite Er in Hq. apply andb_true_iff in Hq as [Hround%Z.eqb_eq Hq].
  destruct (RoundState.insert_vote (vote3 9 8) v4 st) as [st' o] eqn:Ei. destruct o as [res| |]; try discriminate Hq.
  exists st, events, st', res. split; [exact eq_refl|]. split; [exact Ei|].
  destruct (votes_counted v4 (fun _ => 10)) with (epoch := 1) (now := 0) (calls := votes_calls) (st := st) (events := events)
    (vote := vote3 9 8) as [Hcol|(st2 & res2 & Ei2 & Hres)].
  - apply v4_well_formed.
  - done.
  - by vm_compute.
  - apply ValidatorVerifier.free_multi_signatures.
  - apply ValidatorVerifier.free_aggregate_signatures.
  - unfold votes_calls. rewrite !Forall_cons, Forall_nil. cbn [valid_call]. by repeat split.
  - exact Er.
  - by rewrite Hround.
  - split; [vm_refl|done|by rewrite Hround].
  - left. exact Hcol.
  - right. rewrite Ei in Ei2. injection Ei2 as <- <-. destruct res as [ | | |qc| | | | | | ]; try discriminate Hq. exists qc. split; [reflexivity|].
    destruct Hres as [(_ & _ & [E|E])|(_ & authors & _ & Hif)]; [discriminate E|discriminate E|].
    destruct (_ <=? _); [|destruct Hif]. destruct Hif as (qc' & [= <-] & Hc). exact (certificate_verifies _ _ _ _ Hc).
Defined.

Lemma new_rounds_increase_witness : exists st events,
  round_run v4 (fun _ => 10) votes_calls (RoundState.new 0) = Some (st, events) /\
  StronglySorted Z.lt (RoundState.event_round <$> events).
Proof.
  destruct (round_run v4 (fun _ => 10) votes_calls (RoundState.new 0)) as [[st events]|] eqn:Er.
  2: exfalso; assert (match round_run v4 (fun _ => 10) votes_calls (RoundState.new 0) with Some _ => true | None => false end = true) as E by vm_refl;
    rewrite Er in E; discriminate E.
  exists st, events. split; [reflexivity|].
  exact (proj1 (new_rounds_increase v4 (fun _ => 10) votes_calls (RoundState.new 0) st events Er)).
Defined.
End example.
