(* ===== verification/Aggregator.v ===== *)
(** * Aggregators

    Bounded counters that a transaction updates without reading them
    (src/aptos-move/aptos-aggregator).  [DeltaOp] is an update together with the
    extreme values it went through; [Aggregator] is the state of one counter during a
    transaction, either a known value or a delta with its history; [AggregatorData]
    and [NativeAggregatorContext] hold the counters of a transaction and turn them
    into changes.

    A [u128] is an integer below [2 ^ 128]; the additions and subtractions of the
    source panic when they leave that range, and the theorems show that they never
    do.  The lemmas read a delta as a partial function on base values ([meaning]) and
    show that running operations on a delta and applying the result to the stored
    value is the same as running them on that value. *)

From stdpp Require Import pretty.
From S2P Require Import Prelude Collections.

(** ** Errors of the virtual machine

    The fields of [PartialVMError] that these components set; the status codes they
    use. *)
Inductive StatusCode :=
  | UNKNOWN_INVARIANT_VIOLATION_ERROR
  | STORAGE_ERROR
  | DATA_FORMAT_ERROR
  | ABORTED
  | VM_EXTENSION_ERROR.

Module PartialVMError.
Record t := {
  major_status : StatusCode;
  sub_status : option Z;
  message : option string }.
End PartialVMError.

(** [CORE_CODE_ADDRESS] and the name of the module. *)
Definition AGGREGATOR_MODULE : Z * string := (1, "aggregator"%string).

Inductive Location :=
  | Undefined
  | Script
  | Module_ (id : Z * string).

Module VMStatus.
Inductive AbortLocation :=
  | AbortModule (id : Z * string)
  | AbortScript.
Inductive t :=
  | Error (status_code : StatusCode) (sub_status : option Z) (message : option string)
  | MoveAbort (location : AbortLocation) (code : Z).

Definition error (status_code : StatusCode) (message : option string) : t := Error status_code None message.
End VMStatus.

(** [finish(location).into_vm_status()]: the errors here carry no code offsets. *)
Definition into_vm_status (location : Location) (e : PartialVMError.t) : VMStatus.t :=
  match PartialVMError.major_status e, PartialVMError.sub_status e, location with
  | ABORTED, Some code, Script => VMStatus.MoveAbort VMStatus.AbortScript code
  | ABORTED, Some code, Module_ id => VMStatus.MoveAbort (VMStatus.AbortModule id) code
  | major_status, sub_status, _ => VMStatus.Error major_status sub_status (PartialVMError.message e)
  end.

(** ** delta_change_set.rs *)
Definition EADD_OVERFLOW : Z := 0x020001.
Definition ESUB_UNDERFLOW : Z := 0x020002.

Definition abort_error (message : string) (code : Z) : PartialVMError.t :=
  {| PartialVMError.major_status := ABORTED;
     PartialVMError.sub_status := Some code;
     PartialVMError.message := Some message |}.

Definition addition (base value limit : Z) : outcome PartialVMError.t Z :=
  overflows ← (if limit <? base then Ok true
    else (room ← u128_sub limit base; Ok (room <? value)));
  if overflows : bool then
    Err (abort_error ("overflow when adding " +:+ pretty value +:+ " to " +:+ pretty base) EADD_OVERFLOW)
  else u128_add base value.

Definition subtraction (base value : Z) : outcome PartialVMError.t Z :=
  if base <? value then
    Err (abort_error ("underflow when subtracting " +:+ pretty value +:+ " from " +:+ pretty base) ESUB_UNDERFLOW)
  else u128_sub base value.

(** [Result::unwrap_or]. *)
Definition unwrap_or {E F A} (o : outcome E A) (default : A) : outcome F A :=
  match o with
  | Ok a => Ok a
  | Err _ => Ok default
  | Panic => Panic
  end.

Inductive DeltaUpdate :=
  | Plus (value : Z)
  | Minus (value : Z).

Module DeltaOp.
Record t := {
  max_positive : Z;
  min_negative : Z;
  limit : Z;
  update : DeltaUpdate }.

Definition new (update : DeltaUpdate) (limit max_positive min_negative : Z) : t :=
  {| max_positive := max_positive; min_negative := min_negative; limit := limit; update := update |}.

Definition apply_to (self : t) (base : Z) : outcome PartialVMError.t Z :=
  _ ← addition base (max_positive self) (limit self);
  _ ← subtraction base (min_negative self);
  match update self with
  | Plus value => addition base value (limit self)
  | Minus value => subtraction base value
  end.

Definition shifted_max_positive_by (self delta : t) : outcome PartialVMError.t Z :=
  match update delta with
  | Plus value => addition value (max_positive self) (limit self)
  | Minus value => unwrap_or (subtraction (max_positive self) value) 0
  end.

Definition shifted_min_negative_by (self delta : t) : outcome PartialVMError.t Z :=
  match update delta with
  | Plus value => unwrap_or (subtraction (min_negative self) value) 0
  | Minus value => addition value (min_negative self) (limit self)
  end.

(** The two macros of [merge_with_previous_delta]. *)
Definition update_same_sign (self : t) (sign : Z -> DeltaUpdate) (a b : Z) : outcome PartialVMError.t DeltaUpdate :=
  sum ← addition a b (limit self);
  Ok (sign sum).
Definition update_different_sign (a b : Z) : outcome PartialVMError.t DeltaUpdate :=
  if b <=? a then (d ← subtraction a b; Ok (Plus d))
  else (d ← subtraction b a; Ok (Minus d)).

(** The merged delta: an error leaves [self] as it was. *)
Definition merge_with_previous_delta (self previous_delta : t) : outcome PartialVMError.t t :=
  _ ← assert (limit self =? limit previous_delta);
  shifted_max_positive ← shifted_max_positive_by self previous_delta;
  shifted_min_negative ← shifted_min_negative_by self previous_delta;
  update ←
    match update previous_delta with
    | Plus prev_value =>
        match update self with
        | Plus self_value => update_same_sign self Plus prev_value self_value
        | Minus self_value => update_different_sign prev_value self_value
        end
    | Minus prev_value =>
        match update self with
        | Plus self_value => update_different_sign self_value prev_value
        | Minus self_value => update_same_sign self Minus prev_value self_value
        end
    end;
  Ok {| max_positive := Z.max (max_positive previous_delta) shifted_max_positive;
        min_negative := Z.max (min_negative previous_delta) shifted_min_negative;
        limit := limit self;
        update := update |}.

(** The two are swapped before the merge: an error leaves the next delta in place. *)
Definition merge_with_next_delta (next_delta : t) : action t PartialVMError.t unit := fun self =>
  match merge_with_previous_delta next_delta self with
  | Ok merged => (merged, Ok tt)
  | Err e => (next_delta, Err e)
  | Panic => (next_delta, Panic)
  end.

(** [delta_add] and [delta_sub]. *)
Definition delta_sub (v limit : Z) : t := new (Minus v) limit 0 v.
Definition delta_add (v limit : Z) : t := new (Plus v) limit v 0.
End DeltaOp.

(** ** aggregator_extension.rs *)
Inductive AggregatorState :=
  | Data
  | PositiveDelta
  | NegativeDelta.

Module AggregatorID.
Record t := {
  handle : Z;
  key : Z }.

Definition new (handle key : Z) : t := {| handle := handle; key := key |}.

#[global] Instance eq_dec : EqDecision t.
Proof. solve_decision. Defined.
#[global] Instance countable : Countable t.
Proof.
  refine (inj_countable' (fun id => (handle id, key id)) (fun p => {| handle := p.1; key := p.2 |}) _).
  by intros [].
Defined.

(** The derived order: handles first. *)
Definition leb (x y : t) : bool :=
  (handle x <? handle y) || ((handle x =? handle y) && (key x <=? key y)).
End AggregatorID.

Module History.
Record t := {
  max_positive : Z;
  min_negative : Z }.

Definition new : t := {| max_positive := 0; min_negative := 0 |}.
Definition record_positive (self : t) (value : Z) : t :=
  {| max_positive := Z.max (max_positive self) value; min_negative := min_negative self |}.
Definition record_negative (self : t) (value : Z) : t :=
  {| max_positive := max_positive self; min_negative := Z.max (min_negative self) value |}.
End History.

Definition extension_error (message : string) : PartialVMError.t :=
  {| PartialVMError.major_status := VM_EXTENSION_ERROR;
     PartialVMError.sub_status := None;
     PartialVMError.message := Some message |}.

(** The operations on an aggregator give its new state; an error leaves it as it
    was. *)
Module Aggregator.
Record t := {
  value : Z;
  state : AggregatorState;
  limit : Z;
  history : option History.t }.

Definition record (self : t) : outcome PartialVMError.t t :=
  match history self with
  | Some h =>
      h ←
        match state self with
        | PositiveDelta => Ok (History.record_positive h (value self))
        | NegativeDelta => Ok (History.record_negative h (value self))
        | Data => Panic
        end;
      Ok {| value := value self; state := state self; limit := limit self; history := Some h |}
  | None => Ok self
  end.

Definition validate_history (self : t) (base_value : Z) : outcome PartialVMError.t unit :=
  history ← expect (history self);
  _ ← addition base_value (History.max_positive history) (limit self);
  _ ← subtraction base_value (History.min_negative history);
  Ok tt.

Definition with_value (self : t) (v : Z) : t :=
  {| value := v; state := state self; limit := limit self; history := history self |}.
Definition with_state (self : t) (s : AggregatorState) : t :=
  {| value := value self; state := s; limit := limit self; history := history self |}.

Definition add (self : t) (v : Z) : outcome PartialVMError.t t :=
  match state self with
  | Data => sum ← addition (value self) v (limit self); Ok (with_value self sum)
  | PositiveDelta => sum ← addition (value self) v (limit self); record (with_value self sum)
  | NegativeDelta =>
      if value self <=? v then
        (d ← subtraction v (value self); record (with_state (with_value self d) PositiveDelta))
      else (d ← subtraction (value self) v; record (with_value self d))
  end.

Definition sub (self : t) (v : Z) : outcome PartialVMError.t t :=
  match state self with
  | Data => d ← subtraction (value self) v; Ok (with_value self d)
  | PositiveDelta =>
      if v <=? value self then
        (d ← subtraction (value self) v; record (with_value self d))
      else
        (_ ← subtraction (limit self) v;
         d ← subtraction v (value self);
         record (with_state (with_value self d) NegativeDelta))
  | NegativeDelta => sum ← addition (value self) v (limit self); record (with_value self sum)
  end.

(** [stored] is the answer of the resolver for the aggregator's id. *)
Definition read_and_materialize (self : t) (stored : result Z) : outcome PartialVMError.t (Z * t) :=
  match state self with
  | Data => Ok (value self, self)
  | _ =>
      value_from_storage ←
        map_err (fun e => extension_error ("Could not find the value of the aggregator: " +:+ e)) stored;
      _ ← validate_history self value_from_storage;
      v ←
        match state self with
        | PositiveDelta => unwrap (addition value_from_storage (value self) (limit self))
        | NegativeDelta => unwrap (subtraction value_from_storage (value self))
        | Data => Panic
        end;
      Ok (v, {| value := v; state := Data; limit := limit self; history := None |})
  end.
End Aggregator.

Module AggregatorData.
Record t := {
  new_aggregators : gset AggregatorID.t;
  destroyed_aggregators : gset AggregatorID.t;
  aggregators : gmap AggregatorID.t Aggregator.t }.

Definition default : t :=
  {| new_aggregators := ∅; destroyed_aggregators := ∅; aggregators := ∅ |}.

(** The instance that [get_aggregator] makes for an id it does not hold. *)
Definition fresh (limit : Z) : Aggregator.t :=
  {| Aggregator.value := 0;
     Aggregator.state := PositiveDelta;
     Aggregator.limit := limit;
     Aggregator.history := Some History.new |}.

(** The aggregator and the data that holds it. *)
Definition get_aggregator (self : t) (id : AggregatorID.t) (limit : Z) : t * Aggregator.t :=
  match aggregators self !! id with
  | Some aggregator => (self, aggregator)
  | None =>
      ({| new_aggregators := new_aggregators self;
          destroyed_aggregators := destroyed_aggregators self;
          aggregators := <[id := fresh limit]> (aggregators self) |}, fresh limit)
  end.

Definition num_aggregators (self : t) : Z := Z.of_nat (size (aggregators self)).

Definition create_new_aggregator (self : t) (id : AggregatorID.t) (limit : Z) : t :=
  {| new_aggregators := {[id]} ∪ new_aggregators self;
     destroyed_aggregators := destroyed_aggregators self;
     aggregators := <[id :=
       {| Aggregator.value := 0; Aggregator.state := Data; Aggregator.limit := limit;
          Aggregator.history := None |}]> (aggregators self) |}.

Definition remove_aggregator (self : t) (id : AggregatorID.t) : t :=
  let aggregators := delete id (aggregators self) in
  if bool_decide (id ∈ new_aggregators self) then
    {| new_aggregators := new_aggregators self ∖ {[id]};
       destroyed_aggregators := destroyed_aggregators self;
       aggregators := aggregators |}
  else
    {| new_aggregators := new_aggregators self;
       destroyed_aggregators := {[id]} ∪ destroyed_aggregators self;
       aggregators := aggregators |}.

(** Writing through the reference that [get_aggregator] returned. *)
Definition put (self : t) (id : AggregatorID.t) (a : Aggregator.t) : t :=
  {| new_aggregators := new_aggregators self;
     destroyed_aggregators := destroyed_aggregators self;
     aggregators := <[id := a]> (aggregators self) |}.
End AggregatorData.

(** ** The native functions of the module [aggregator]

    The arguments are the fields of the Move struct (its id and limit); gas is not
    charged here.  The resolver gives the value in storage.  The key of a new
    aggregator is the hash of the transaction's hash and of a 32-bit counter, given
    as a function of the counter. *)
Definition native_add (id : AggregatorID.t) (limit value : Z) : action AggregatorData.t PartialVMError.t unit := fun data =>
  let '(data, aggregator) := AggregatorData.get_aggregator data id limit in
  match Aggregator.add aggregator value with
  | Ok aggregator => (AggregatorData.put data id aggregator, Ok tt)
  | Err e => (data, Err e)
  | Panic => (data, Panic)
  end.

Definition native_sub (id : AggregatorID.t) (limit value : Z) : action AggregatorData.t PartialVMError.t unit := fun data =>
  let '(data, aggregator) := AggregatorData.get_aggregator data id limit in
  match Aggregator.sub aggregator value with
  | Ok aggregator => (AggregatorData.put data id aggregator, Ok tt)
  | Err e => (data, Err e)
  | Panic => (data, Panic)
  end.

Definition native_read (resolver : AggregatorID.t -> result Z) (id : AggregatorID.t) (limit : Z) :
    action AggregatorData.t PartialVMError.t Z := fun data =>
  let '(data, aggregator) := AggregatorData.get_aggregator data id limit in
  match Aggregator.read_and_materialize aggregator (resolver id) with
  | Ok (value, aggregator) => (AggregatorData.put data id aggregator, Ok value)
  | Err e => (data, Err e)
  | Panic => (data, Panic)
  end.

Definition native_destroy (id : AggregatorID.t) : action AggregatorData.t PartialVMError.t unit := fun data =>
  (AggregatorData.remove_aggregator data id, Ok tt).

Definition native_new_aggregator (hash_with : Z -> Z) (handle limit : Z) :
    action AggregatorData.t PartialVMError.t (AggregatorID.t * Z) := fun data =>
  let num_aggregators_len := AggregatorData.num_aggregators data `mod` 2 ^ 32 in
  let id := AggregatorID.new handle (hash_with num_aggregators_len) in
  (AggregatorData.create_new_aggregator data id limit, Ok (id, limit)).

(** ** natives/aggregator_natives/context.rs *)
Inductive AggregatorChange :=
  | Write (value : Z)
  | Merge (delta : DeltaOp.t)
  | Delete.

Module NativeAggregatorContext.
(** What becomes of one aggregator. *)
Definition change_of (aggregator : Aggregator.t) : outcome PartialVMError.t AggregatorChange :=
  match Aggregator.state aggregator with
  | Data => Ok (Write (Aggregator.value aggregator))
  | PositiveDelta =>
      history ← expect (Aggregator.history aggregator);
      Ok (Merge (DeltaOp.new (Plus (Aggregator.value aggregator)) (Aggregator.limit aggregator)
        (History.max_positive history) (History.min_negative history)))
  | NegativeDelta =>
      history ← expect (Aggregator.history aggregator);
      Ok (Merge (DeltaOp.new (Minus (Aggregator.value aggregator)) (Aggregator.limit aggregator)
        (History.max_positive history) (History.min_negative history)))
  end.

Fixpoint write_changes (l : list (AggregatorID.t * Aggregator.t)) (changes : gmap AggregatorID.t AggregatorChange) :
    outcome PartialVMError.t (gmap AggregatorID.t AggregatorChange) :=
  match l with
  | [] => Ok changes
  | (id, aggregator) :: l =>
      change ← change_of aggregator;
      write_changes l (<[id := change]> changes)
  end.

Definition into_change_set (data : AggregatorData.t) :
    outcome PartialVMError.t (gmap AggregatorID.t AggregatorChange) :=
  changes ← write_changes (entries AggregatorID.leb (AggregatorData.aggregators data)) ∅;
  Ok (foldl (fun changes id => <[id := Delete]> changes) changes
        (elements (AggregatorData.destroyed_aggregators data))).
End NativeAggregatorContext.

Module AggregatorChangeSet.
(** The change that two sessions make to one aggregator. *)
Definition squash_entry (entry : option AggregatorChange) (other_change : AggregatorChange) :
    outcome VMStatus.t AggregatorChange :=
  match entry with
  | None => Ok other_change
  | Some entry =>
      match entry, other_change with
      | (Write _ | Merge _), Write data => Ok (Write data)
      | (Write _ | Merge _), Delete => Ok Delete
      | Write data, Merge delta =>
          new_data ← map_err (into_vm_status Undefined) (DeltaOp.apply_to delta data);
          Ok (Write new_data)
      | Merge delta1, Merge delta2 =>
          delta2 ← map_err (into_vm_status Undefined) (DeltaOp.merge_with_previous_delta delta2 delta1);
          Ok (Merge delta2)
      | Delete, _ => Panic
      end
  end.

Fixpoint squash_entries (l : list (AggregatorID.t * AggregatorChange)) (changes : gmap AggregatorID.t AggregatorChange) :
    outcome VMStatus.t (gmap AggregatorID.t AggregatorChange) :=
  match l with
  | [] => Ok changes
  | (id, other_change) :: l =>
      change ← squash_entry (changes !! id) other_change;
      squash_entries l (<[id := change]> changes)
  end.

Definition squash (self other : gmap AggregatorID.t AggregatorChange) :
    outcome VMStatus.t (gmap AggregatorID.t AggregatorChange) :=
  squash_entries (entries AggregatorID.leb other) self.
End AggregatorChangeSet.

(** ** Arithmetic *)

Lemma addition_gives base value limit : 0 <= base -> 0 <= value -> limit < 2 ^ 128 ->
  gives (addition base value limit) (if base + value <=? limit then Some (base + value) else None).
Proof.
  intros. unfold addition, u128_sub, u128_add. destruct (Z.ltb_spec limit base); mstep.
  { by rewrite (proj2 (Z.leb_gt _ _)) by lia. }
  rewrite (proj2 (Z.leb_le base limit)) by lia. mstep. destruct (Z.ltb_spec (limit - base) value).
  - by rewrite (proj2 (Z.leb_gt _ _)) by lia.
  - by rewrite (proj2 (Z.leb_le _ _)), (proj2 (Z.ltb_lt _ _)) by lia.
Qed.

Lemma subtraction_gives base value : gives (subtraction base value) (if value <=? base then Some (base - value) else None).
Proof.
  unfold subtraction, u128_sub. destruct (Z.ltb_spec base value).
  - by rewrite (proj2 (Z.leb_gt _ _)) by lia.
  - by rewrite (proj2 (Z.leb_le _ _)) by lia.
Qed.

Lemma addition_cases base value limit : 0 <= base -> 0 <= value -> limit < 2 ^ 128 ->
  (base + value <= limit /\ addition base value limit = Ok (base + value)) \/
  (limit < base + value /\ exists e, addition base value limit = Err e).
Proof.
  intros. pose proof (addition_gives base value limit) as Hg. destruct (Z.leb_spec (base + value) limit).
  - left. split; [done|]. eapply gives_Ok; [by apply Hg|done].
  - right. split; [done|]. eapply gives_None; [by apply Hg|done].
Qed.

Lemma subtraction_cases base value :
  (value <= base /\ subtraction base value = Ok (base - value)) \/
  (base < value /\ exists e, subtraction base value = Err e).
Proof.
  pose proof (subtraction_gives base value) as Hg. destruct (Z.leb_spec value base).
  - left. split; [done|]. by eapply gives_Ok.
  - right. split; [done|]. by eapply gives_None.
Qed.

(** Splits on the outcome of the next addition or subtraction. *)
Ltac step_arith :=
  match goal with
  | |- context [addition ?a ?b ?c] =>
      destruct (addition_cases a b c) as [[? ->]|[? (? & ->)]]; [lia|lia|lia|mstep|mstep]
  | |- context [subtraction ?a ?b] =>
      destruct (subtraction_cases a b) as [[? ->]|[? (? & ->)]]; mstep
  end.

(** ** Deltas as partial functions *)
Definition signed (u : DeltaUpdate) : Z :=
  match u with
  | Plus v => v
  | Minus v => - v
  end.

Record delta_ok (d : DeltaOp.t) : Prop := {
  delta_max : 0 <= DeltaOp.max_positive d;
  delta_min : 0 <= DeltaOp.min_negative d;
  delta_limit : DeltaOp.limit d < 2 ^ 128;
  delta_update : match DeltaOp.update d with
    | Plus v => 0 <= v <= DeltaOp.max_positive d
    | Minus v => 0 <= v <= DeltaOp.min_negative d
    end }.

Definition meaning (d : DeltaOp.t) (base : Z) : option Z :=
  if (base + DeltaOp.max_positive d <=? DeltaOp.limit d) && (DeltaOp.min_negative d <=? base)
  then Some (base + signed (DeltaOp.update d)) else None.

Lemma meaning_Some d base v : meaning d base = Some v <->
  base + DeltaOp.max_positive d <= DeltaOp.limit d /\ DeltaOp.min_negative d <= base /\
  v = base + signed (DeltaOp.update d).
Proof.
  unfold meaning. destruct (Z.leb_spec (base + DeltaOp.max_positive d) (DeltaOp.limit d)),
    (Z.leb_spec (DeltaOp.min_negative d) base); simpl; naive_solver lia.
Qed.

Lemma apply_to_gives d base : delta_ok d -> 0 <= base -> gives (DeltaOp.apply_to d base) (meaning d base).
Proof.
  intros [Hmax Hmin Hl Hu] Hb. unfold DeltaOp.apply_to, meaning.
  step_arith; [|by rewrite (proj2 (Z.leb_gt _ _)) by lia].
  rewrite (proj2 (Z.leb_le (base + _) _)) by lia.
  step_arith; [|by rewrite (proj2 (Z.leb_gt _ base)) by lia].
  rewrite (proj2 (Z.leb_le _ base)) by lia. simpl.
  destruct (DeltaOp.update d) as [v|v]; step_arith; simpl; lia.
Qed.

Lemma meaning_bounds d base v : delta_ok d -> 0 <= base -> meaning d base = Some v -> 0 <= v <= DeltaOp.limit d.
Proof.
  intros [Hmax Hmin Hl Hu] Hb (? & ? & ->)%meaning_Some. destruct (DeltaOp.update d); simpl; lia.
Qed.

(** Decides an equation between two [meaning]s whose deltas are known. *)
Ltac meaning_cases :=
  unfold meaning; simpl;
  repeat match goal with
  | |- context [?a <=? ?b] => destruct (Z.leb_spec a b); simpl
  end; try lia; f_equal; lia.

(** A merge stands for the two deltas one after the other, at every base; where it
    fails, so does one of the two, at every base. *)
Lemma merge_gives self prev : delta_ok self -> delta_ok prev -> DeltaOp.limit self = DeltaOp.limit prev ->
  match DeltaOp.merge_with_previous_delta self prev with
  | Ok d => delta_ok d /\ DeltaOp.limit d = DeltaOp.limit self /\
      forall base, 0 <= base -> meaning d base = (meaning prev base ≫= meaning self)
  | Err _ => forall base, 0 <= base -> (meaning prev base ≫= meaning self) = None
  | Panic => False
  end.
Proof.
  destruct self as [M m l u], prev as [M' m' l' u']. intros [Hmax Hmin Hl Hu] [Hmax' Hmin' Hl' Hu'] El.
  simpl in *. subst l'. unfold DeltaOp.merge_with_previous_delta. simpl. rewrite assert_true by lia. mstep.
  unfold DeltaOp.shifted_max_positive_by, DeltaOp.shifted_min_negative_by, DeltaOp.update_same_sign,
    DeltaOp.update_different_sign. simpl.
  destruct u' as [w|w], u as [v|v]; simpl in *;
    repeat (step_arith || match goal with |- context [if ?b then _ else _] => destruct b eqn:?; zbool end);
    mstep; try lia; try (split_and!; [split; simpl; lia|done|]); intros base Hb; meaning_cases.
Qed.

(** ** A transaction's use of one aggregator *)
Inductive use :=
  | Add (value : Z)
  | Sub (value : Z)
  | Read.

Definition use_ok (u : use) : Prop :=
  match u with
  | Add v | Sub v => 0 <= v < 2 ^ 128
  | Read => True
  end.

(** The uses one after the other, with the values read; [stored] is the value in
    storage. *)
Fixpoint run_uses (stored : Z) (us : list use) (a : Aggregator.t) : outcome PartialVMError.t (list Z * Aggregator.t) :=
  match us with
  | [] => Ok ([], a)
  | Add v :: us => a ← Aggregator.add a v; run_uses stored us a
  | Sub v :: us => a ← Aggregator.sub a v; run_uses stored us a
  | Read :: us =>
      '(v, a) ← Aggregator.read_and_materialize a (Ok stored);
      '(reads, a) ← run_uses stored us a;
      Ok (v :: reads, a)
  end.

(** The value that the change of an aggregator leaves over a stored value. *)
Definition settle (stored : Z) (a : Aggregator.t) : outcome PartialVMError.t Z :=
  change ← NativeAggregatorContext.change_of a;
  match change with
  | Write v => Ok v
  | Merge d => DeltaOp.apply_to d stored
  | Delete => Panic
  end.

(** The same uses on the stored value itself. *)
Fixpoint run_value (limit : Z) (us : list use) (v : Z) : option (list Z * Z) :=
  match us with
  | [] => Some ([], v)
  | Add x :: us => if v + x <=? limit then run_value limit us (v + x) else None
  | Sub x :: us => if x <=? v then run_value limit us (v - x) else None
  | Read :: us => '(reads, v') ← run_value limit us v; Some (v :: reads, v')
  end.

Definition known (limit v : Z) : Aggregator.t :=
  {| Aggregator.value := v; Aggregator.state := Data; Aggregator.limit := limit; Aggregator.history := None |}.

(** A delta of [d] with the extremes [M] and [m]: the sign is kept apart, and zero
    has either. *)
Inductive is_delta (limit : Z) : Aggregator.t -> Z -> Z -> Z -> Prop :=
  | is_positive v M m : 0 <= v <= M -> 0 <= m ->
      is_delta limit {| Aggregator.value := v; Aggregator.state := PositiveDelta; Aggregator.limit := limit;
        Aggregator.history := Some {| History.max_positive := M; History.min_negative := m |} |} v M m
  | is_negative v M m : 0 <= v <= m -> 0 <= M ->
      is_delta limit {| Aggregator.value := v; Aggregator.state := NegativeDelta; Aggregator.limit := limit;
        Aggregator.history := Some {| History.max_positive := M; History.min_negative := m |} |} (- v) M m.

(** One addition or subtraction on a delta, for a base within the limit: either it
    fails, and then it fails on every value as well, or the extremes take in the new
    delta. *)
Lemma add_delta limit a d M m x : limit < 2 ^ 128 -> is_delta limit a d M m -> 0 <= x ->
  match Aggregator.add a x with
  | Ok a' => is_delta limit a' (d + x) (Z.max M (d + x)) (Z.max m (- (d + x)))
  | Err _ => limit < d + x
  | Panic => False
  end.
Proof.
  intros Hl Hd Hx. destruct Hd as [v M m Hv Hm|v M m Hv HM]; unfold Aggregator.add; simpl.
  - step_arith; [|lia]. unfold Aggregator.record. mstep. simpl.
    rewrite (Z.max_l m) by lia. apply is_positive; lia.
  - destruct (Z.leb_spec v x); step_arith; try lia; unfold Aggregator.record; mstep; simpl.
    + rewrite (Z.max_l m) by lia. replace (- v + x) with (x - v) by lia. apply is_positive; lia.
    + rewrite (Z.max_l M) by lia. replace (- v + x) with (- (v - x)) by lia.
      rewrite Z.opp_involutive. apply is_negative; lia.
Qed.

Lemma sub_delta limit a d M m x : limit < 2 ^ 128 -> is_delta limit a d M m -> 0 <= x ->
  match Aggregator.sub a x with
  | Ok a' => is_delta limit a' (d - x) (Z.max M (d - x)) (Z.max m (- (d - x)))
  | Err _ => limit < x - d \/ limit < x
  | Panic => False
  end.
Proof.
  intros Hl Hd Hx. destruct Hd as [v M m Hv Hm|v M m Hv HM]; unfold Aggregator.sub; simpl.
  - destruct (Z.leb_spec x v).
    + step_arith; [|lia]. unfold Aggregator.record. mstep. simpl. rewrite (Z.max_l m) by lia. apply is_positive; lia.
    + step_arith; [|lia]. step_arith; [|lia]. unfold Aggregator.record. mstep. simpl.
      rewrite (Z.max_l M) by lia. replace (v - x) with (- (x - v)) by lia.
      rewrite Z.opp_involutive. apply is_negative; lia.
  - step_arith; [|lia]. unfold Aggregator.record. mstep. simpl.
    rewrite (Z.max_l M) by lia. replace (- v - x) with (- (v + x)) by lia. rewrite Z.opp_involutive.
    apply is_negative; lia.
Qed.

Lemma read_delta limit a d M m stored : limit < 2 ^ 128 -> 0 <= stored -> is_delta limit a d M m ->
  gives (Aggregator.read_and_materialize a (Ok stored))
    (if (stored + M <=? limit) && (m <=? stored) then Some (stored + d, known limit (stored + d)) else None).
Proof.
  intros Hl Hs Hd. destruct Hd as [v M m Hv Hm|v M m Hv HM];
    unfold Aggregator.read_and_materialize, Aggregator.validate_history; simpl;
    repeat step_arith; simpl;
    repeat match goal with |- context [?a <=? ?b] => destruct (Z.leb_spec a b); simpl end;
    try lia; unfold known; repeat f_equal; lia.
Qed.

Lemma settle_delta limit a d M m stored : limit < 2 ^ 128 -> 0 <= stored -> is_delta limit a d M m ->
  gives (settle stored a) (if (stored + M <=? limit) && (m <=? stored) then Some (stored + d) else None).
Proof.
  intros Hl Hs Hd. destruct Hd as [v M m Hv Hm|v M m Hv HM]; unfold settle; simpl;
    apply apply_to_gives; try done; split; simpl; lia.
Qed.

Lemma run_known limit stored us v : limit < 2 ^ 128 -> 0 <= v -> Forall use_ok us ->
  gives ('(reads, a) ← run_uses stored us (known limit v); v ← settle stored a; Ok (reads, v)) (run_value limit us v).
Proof.
  intros Hl Hv Hus. revert v Hv. induction Hus as [|[x|x|] us Hu Hus IH]; intros v Hv; simpl in *.
  - done.
  - pose proof (addition_gives v x limit) as Hg. unfold Aggregator.add. simpl.
    step_arith; [rewrite (proj2 (Z.leb_le _ _)) by lia|by rewrite (proj2 (Z.leb_gt _ _)) by lia].
    apply IH. lia.
  - unfold Aggregator.sub. simpl.
    step_arith; [rewrite (proj2 (Z.leb_le _ _)) by lia|by rewrite (proj2 (Z.leb_gt _ _)) by lia].
    apply IH. lia.
  - specialize (IH v Hv). destruct (run_uses stored us (known limit v)) as [[reads a]|e|] eqn:E; simpl in *;
      [|by destruct (run_value limit us v)|done].
    destruct (settle stored a); simpl in *; destruct (run_value limit us v) as [[? ?]|]; simpl in *; naive_solver.
Qed.

(** Once the extremes do not fit over the stored value, nothing but errors follows. *)
Lemma run_doomed limit stored us a d M m : limit < 2 ^ 128 -> 0 <= stored -> Forall use_ok us ->
  is_delta limit a d M m -> limit < stored + M \/ stored < m ->
  gives ('(reads, a) ← run_uses stored us a; v ← settle stored a; Ok (reads, v)) None.
Proof.
  intros Hl Hs Hus. revert a d M m. induction Hus as [|[x|x|] us Hu Hus IH]; intros a d M m Hd Hbad; simpl in *.
  - pose proof (settle_delta _ _ _ _ _ _ Hl Hs Hd) as Hg.
    replace ((stored + M <=? limit) && (m <=? stored)) with false in Hg by (symmetry; apply andb_false_iff; lia).
    by destruct (settle stored a).
  - pose proof (add_delta _ _ _ _ _ x Hl Hd ltac:(lia)) as Ha. destruct (Aggregator.add a x) as [a'|e|]; mstep; [|done|done].
    eapply IH; [done|lia].
  - pose proof (sub_delta _ _ _ _ _ x Hl Hd ltac:(lia)) as Ha. destruct (Aggregator.sub a x) as [a'|e|]; mstep; [|done|done].
    eapply IH; [done|lia].
  - pose proof (read_delta _ _ _ _ _ _ Hl Hs Hd) as Hg.
    replace ((stored + M <=? limit) && (m <=? stored)) with false in Hg by (symmetry; apply andb_false_iff; lia).
    by destruct (Aggregator.read_and_materialize a (Ok stored)).
Qed.

Lemma run_delta limit stored us a d M m : limit < 2 ^ 128 -> 0 <= stored -> Forall use_ok us ->
  is_delta limit a d M m -> stored + M <= limit -> m <= stored -> 
  gives ('(reads, a) ← run_uses stored us a; v ← settle stored a; Ok (reads, v)) (run_value limit us (stored + d)).
Proof.
  intros Hl Hs Hus. revert a d M m. induction Hus as [|[x|x|] us Hu Hus IH]; intros a d M m Hd HM Hm; simpl in *.
  - pose proof (settle_delta _ _ _ _ _ _ Hl Hs Hd) as Hg.
    rewrite (proj2 (Z.leb_le _ _)), (proj2 (Z.leb_le m _)) in Hg by done. simpl in Hg.
    destruct (settle stored a); simpl in *; naive_solver.
  - pose proof (add_delta _ _ _ _ _ x Hl Hd ltac:(lia)) as Ha. destruct (Aggregator.add a x) as [a'|e|]; mstep; [| |done].
    + destruct (Z.leb_spec (stored + d + x) limit).
      * rewrite <-Z.add_assoc. eapply IH; [done|lia|destruct Hd; lia].
      * eapply run_doomed; [done..|lia].
    + by rewrite (proj2 (Z.leb_gt _ _)) by lia.
  - pose proof (sub_delta _ _ _ _ _ x Hl Hd ltac:(lia)) as Ha. destruct (Aggregator.sub a x) as [a'|e|]; mstep; [| |done].
    + destruct (Z.leb_spec x (stored + d)).
      * rewrite <-Z.add_sub_assoc. eapply IH; [done|destruct Hd; lia|lia].
      * eapply run_doomed; [done..|lia].
    + rewrite (proj2 (Z.leb_gt _ _)); [done|]. destruct Hd; lia.
  - pose proof (read_delta _ _ _ _ _ _ Hl Hs Hd) as Hg.
    rewrite (proj2 (Z.leb_le _ _)), (proj2 (Z.leb_le m _)) in Hg by done. simpl in Hg.
    destruct (Aggregator.read_and_materialize a (Ok stored)) as [[v a']|e|]; simpl in Hg; try done.
    injection Hg as -> ->. pose proof (run_known limit stored us (stored + d) Hl ltac:(destruct Hd; lia) Hus) as Hk.
    simpl. destruct (run_uses stored us _) as [[reads a']|e|]; simpl in *;
      [|by destruct (run_value limit us (stored + d))|done].
    destruct (settle stored a'); simpl in *; destruct (run_value limit us (stored + d)) as [[? ?]|]; simpl in *; naive_solver.
Qed.

(** A transaction's uses of an aggregator and what its change leaves in storage. *)
Definition transact (stored : Z) (us : list use) (a : Aggregator.t) : outcome PartialVMError.t (list Z * Z) :=
  '(reads, a) ← run_uses stored us a;
  v ← settle stored a;
  Ok (reads, v).

(** C17: a transaction that adds to, subtracts from and reads an aggregator which it
    does not know the value of, and whose delta is applied to the stored value at the
    end, reads the same values and leaves the same value in storage as one that knew
    the stored value from the start; where one fails, so does the other, and neither
    panics.  The history of a delta is thus exactly what is needed to detect every
    overflow and underflow on the way. *)
Theorem delta_like_value limit stored us :
  0 <= stored <= limit -> limit < 2 ^ 128 -> Forall use_ok us ->
  exists r, gives (transact stored us (AggregatorData.fresh limit)) r /\
    gives (transact stored us (known limit stored)) r.
Proof.
  intros Hs Hl Hus. exists (run_value limit us stored). split; [|by apply run_known; [done|lia|]].
  rewrite <-(Z.add_0_r stored) at 2. eapply (run_delta limit stored us _ 0 0 0); [done|lia|done|by apply is_positive|lia|lia].
Qed.

(** C9: merging a delta with the one before it and applying the result gives what
    applying the two in order gives, at every base and also for the deltas' histories:
    the same value, which is within the limit, or an error in both cases; neither
    panics. *)
Theorem merge_is_composition self prev base :
  delta_ok self -> delta_ok prev -> DeltaOp.limit self = DeltaOp.limit prev -> 0 <= base ->
  exists r,
    gives (d ← DeltaOp.merge_with_previous_delta self prev; DeltaOp.apply_to d base) r /\
    gives (v ← DeltaOp.apply_to prev base; DeltaOp.apply_to self v) r /\
    forall v, r = Some v -> 0 <= v <= DeltaOp.limit self.
Proof.
  intros Hself Hprev El Hb. exists (meaning prev base ≫= meaning self). split_and!.
  - pose proof (merge_gives self prev Hself Hprev El) as Hm.
    destruct (DeltaOp.merge_with_previous_delta self prev) as [d|e|]; mstep; [|by rewrite Hm|done].
    destruct Hm as (Hd & _ & <-); [by apply apply_to_gives|done].
  - apply gives_bind; [by apply apply_to_gives|]. intros v Hv.
    apply apply_to_gives; [done|]. by apply meaning_bounds in Hv as [? ?].
  - intros v Hv. apply bind_Some in Hv as (w & Hw & Hv). eapply meaning_bounds; [done| |done].
    by apply meaning_bounds in Hw as [? ?].
Qed.

Lemma new_aggregator_at hash_with handle limit data n :
  AggregatorData.num_aggregators data = n -> 0 <= n < 2 ^ 32 ->
  native_new_aggregator hash_with handle limit data =
    (AggregatorData.create_new_aggregator data (AggregatorID.new handle (hash_with n)) limit,
     Ok (AggregatorID.new handle (hash_with n), limit)).
Proof. intros Hn ?. unfold native_new_aggregator. by rewrite Hn, Z.mod_small. Qed.

(** C39: the key of a new aggregator depends on how many aggregators the transaction
    holds, not on how many it made.  When a transaction makes two aggregators, adds to
    the second, destroys the first and makes a third, the third has the id of the
    second and takes its place, and the value added is lost. *)
Theorem new_aggregator_collides hash_with handle limit1 limit2 limit3 v :
  hash_with 0 <> hash_with 1 -> 0 <= v <= limit2 -> limit2 < 2 ^ 128 ->
  exists data id,
    (('(id1, _) ← native_new_aggregator hash_with handle limit1;
      '(id2, _) ← native_new_aggregator hash_with handle limit2;
      _ ← native_add id2 limit2 v;
      _ ← native_destroy id1;
      '(id3, _) ← native_new_aggregator hash_with handle limit3;
      mret (id2, id3)) AggregatorData.default) = (data, Ok (id, id)) /\
    AggregatorData.aggregators data = {[id := known limit3 0]}.
Proof.
  intros Hne Hv Hl. set (id1 := AggregatorID.new handle (hash_with 0)). set (id2 := AggregatorID.new handle (hash_with 1)).
  assert (id1 <> id2) as Hid by (intros E; apply Hne; by injection E).
  set (d1 := AggregatorData.create_new_aggregator AggregatorData.default id1 limit1).
  set (d2 := AggregatorData.create_new_aggregator d1 id2 limit2).
  set (d3 := AggregatorData.put d2 id2 (known limit2 v)).
  set (d4 := AggregatorData.remove_aggregator d3 id1).
  assert (AggregatorData.aggregators d4 = {[id2 := known limit2 v]}) as E4.
  { unfold d4, AggregatorData.remove_aggregator. case_bool_decide; cbn;
      by rewrite delete_insert_ne, delete_insert_ne, delete_insert_eq, insert_insert_eq by done. }
  exists (AggregatorData.create_new_aggregator d4 id2 limit3), id2. split.
  - rewrite (action_bind_step _ _ _ d1 (id1, limit1)) by by apply new_aggregator_at.
    rewrite (action_bind_step _ _ _ d2 (id2, limit2)).
    2: { apply (new_aggregator_at _ _ _ _ 1); [|done]. unfold AggregatorData.num_aggregators. cbn.
         by rewrite map_size_insert_None, map_size_empty. }
    rewrite (action_bind_step _ _ _ d3 tt).
    2: { unfold native_add, AggregatorData.get_aggregator. cbn. rewrite lookup_insert_eq.
         unfold Aggregator.add. cbn. by step_arith; [|lia]. }
    rewrite (action_bind_step _ _ _ d4 tt) by done.
    rewrite (action_bind_step _ _ _ (AggregatorData.create_new_aggregator d4 id2 limit3) (id2, limit3)); [done|].
    apply (new_aggregator_at _ _ _ _ 1); [|done]. unfold AggregatorData.num_aggregators. by rewrite E4, map_size_singleton.
  - unfold AggregatorData.create_new_aggregator. cbn [AggregatorData.aggregators]. rewrite E4. apply insert_singleton_eq.
Qed.

(** ** Examples *)

(** A counter at 20 of at most 100: it goes up by 70, down by 90, is read and goes up
    by 5. *)
Lemma delta_like_value_witness : transact 20 [Add 70; Sub 90; Read; Add 5] (AggregatorData.fresh 100) = Ok ([0], 5) /\
  exists r, gives (transact 20 [Add 70; Sub 90; Read; Add 5] (AggregatorData.fresh 100)) r /\
    gives (transact 20 [Add 70; Sub 90; Read; Add 5] (known 100 20)) r.
Proof.
  split; [reflexivity|]. apply (delta_like_value 100 20); [lia|lia|]. repeat constructor; simpl; lia.
Defined.

(** A delta of +2 and one of +3 that was at +99: at the limit of 100 they do not
    merge. *)
Lemma merge_is_composition_witness :
  is_ok (DeltaOp.merge_with_previous_delta (DeltaOp.new (Plus 3) 100 99 0) (DeltaOp.delta_add 2 100)) = false /\
  exists r,
    gives (d ← DeltaOp.merge_with_previous_delta (DeltaOp.new (Minus 3) 100 4 10) (DeltaOp.delta_add 20 100);
           DeltaOp.apply_to d 50) r /\
    gives (v ← DeltaOp.apply_to (DeltaOp.delta_add 20 100) 50; DeltaOp.apply_to (DeltaOp.new (Minus 3) 100 4 10) v) r /\
    forall v, r = Some v -> 0 <= v <= 100.
Proof.
  split; [reflexivity|]. apply (merge_is_composition (DeltaOp.new (Minus 3) 100 4 10) (DeltaOp.delta_add 20 100) 50).
  - split; simpl; lia.
  - split; simpl; lia.
  - reflexivity.
  - lia.
Defined.

Lemma new_aggregator_collides_witness : exists data id,
  (('(id1, _) ← native_new_aggregator (fun n => n + 40) 7 100;
    '(id2, _) ← native_new_aggregator (fun n => n + 40) 7 200;
    _ ← native_add id2 200 150;
    _ ← native_destroy id1;
    '(id3, _) ← native_new_aggregator (fun n => n + 40) 7 300;
    mret (id2, id3)) AggregatorData.default) = (data, Ok (id, id)) /\
  AggregatorData.aggregators data = {[id := known 300 0]}.
Proof. apply (new_aggregator_collides (fun n => n + 40) 7 100 200 300 150); lia. Defined.
