(* ===== verification/ChangeSet.v ===== *)
(** * Change sets of the virtual machine

    [WriteOp] and its [squash] (src/types/src/write_set.rs), and [VMChangeSet]
    (src/aptos-move/aptos-vm-types/src/change_set.rs): the writes and deltas of one
    session, squashed with those of the session that follows it and materialized
    against storage.  The lemmas give each operation a partial effect on the slot of
    a key and show that squashing is the composition of effects. *)

From S2P Require Import Prelude Collections Aggregator.

(** The BCS encoding of a [u128], a library of its own. *)
Class Bcs128 := {
  to_bytes : Z -> list Z;
  from_bytes : list Z -> result Z }.
Class Bcs128Laws `{!Bcs128} : Prop := {
  from_to_bytes v : 0 <= v < 2 ^ 128 -> from_bytes (to_bytes v) = Ok v;
  from_bytes_range b v : from_bytes b = Ok v -> 0 <= v < 2 ^ 128 }.

(** [expect] on a [Result]. *)
Definition expect_ok {E F A} (o : outcome E A) : outcome F A :=
  match o with
  | Ok a => Ok a
  | _ => Panic
  end.

Inductive StateValueMetadata := V0 (deposit creation_time_usecs : Z).

Module StateValue.
Inductive t :=
  | Legacy (data : list Z)
  | WithMetadata (data : list Z) (metadata : StateValueMetadata).

Definition into_bytes (v : t) : list Z :=
  match v with
  | Legacy data => data
  | WithMetadata data _ => data
  end.
End StateValue.

Module WriteOp.
Inductive t :=
  | Creation (data : list Z)
  | Modification (data : list Z)
  | Deletion
  | CreationWithMetadata (data : list Z) (metadata : StateValueMetadata)
  | ModificationWithMetadata (data : list Z) (metadata : StateValueMetadata)
  | DeletionWithMetadata (metadata : StateValueMetadata).

Definition is_deletion (op : t) : bool :=
  match op with
  | Deletion | DeletionWithMetadata _ => true
  | _ => false
  end.
Definition is_creation (op : t) : bool :=
  match op with
  | Creation _ | CreationWithMetadata _ _ => true
  | _ => false
  end.
Definition is_modification (op : t) : bool :=
  match op with
  | Modification _ | ModificationWithMetadata _ _ => true
  | _ => false
  end.

(** The op after the squash and whether it is still one. *)
Definition squash (op other : t) : result (t * bool) :=
  match op, other with
  | (Modification _ | ModificationWithMetadata _ _ | Creation _ | CreationWithMetadata _ _),
      (Creation _ | CreationWithMetadata _ _)
  | (Deletion | DeletionWithMetadata _),
      (Deletion | DeletionWithMetadata _ | Modification _ | ModificationWithMetadata _ _) =>
      Err "The given change sets cannot be squashed"%string
  | Modification _, (Modification data | ModificationWithMetadata data _) => Ok (Modification data, true)
  | ModificationWithMetadata _ metadata, (Modification data | ModificationWithMetadata data _) =>
      Ok (ModificationWithMetadata data metadata, true)
  | Creation _, (Modification data | ModificationWithMetadata data _) => Ok (Creation data, true)
  | CreationWithMetadata _ metadata, (Modification data | ModificationWithMetadata data _) =>
      Ok (CreationWithMetadata data metadata, true)
  | Modification _, (Deletion | DeletionWithMetadata _) => Ok (Deletion, true)
  | ModificationWithMetadata _ metadata, (Deletion | DeletionWithMetadata _) =>
      Ok (DeletionWithMetadata metadata, true)
  | Deletion, (Creation data | CreationWithMetadata data _) => Ok (Modification data, true)
  | DeletionWithMetadata metadata, (Creation data | CreationWithMetadata data _) =>
      Ok (ModificationWithMetadata data metadata, true)
  | (Creation _ | CreationWithMetadata _ _), (Deletion | DeletionWithMetadata _) => Ok (op, false)
  end.

Definition bytes (op : t) : option (list Z) :=
  match op with
  | Creation data | CreationWithMetadata data _ | Modification data | ModificationWithMetadata data _ => Some data
  | Deletion | DeletionWithMetadata _ => None
  end.

Definition metadata (op : t) : option StateValueMetadata :=
  match op with
  | Creation _ | Modification _ | Deletion => None
  | CreationWithMetadata _ metadata | ModificationWithMetadata _ metadata | DeletionWithMetadata metadata => Some metadata
  end.

Definition into_bytes (op : t) : option (list Z) := bytes op.

Definition as_state_value (op : t) : option StateValue.t :=
  data ← bytes op;
  Some match metadata op with
       | None => StateValue.Legacy data
       | Some metadata => StateValue.WithMetadata data metadata
       end.
End WriteOp.

(** What the executor needs of a write. *)
Class TransactionWrite (V : Type) := {
  extract_raw_bytes : V -> option (list Z);
  as_state_value : V -> option StateValue.t }.
#[global] Instance WriteOp_TransactionWrite : TransactionWrite WriteOp.t := {
  extract_raw_bytes := WriteOp.into_bytes;
  as_state_value := WriteOp.as_state_value }.

(** [serialize] of delta_change_set.rs. *)
Definition serialize `{!Bcs128} (value : Z) : list Z := to_bytes value.

(** [AggregatorValue::from_write]: nothing for a deletion, a panic for bytes that
    are no [u128]. *)
Definition from_write `{!Bcs128} {V} `{!TransactionWrite V} {E} (write : V) : outcome E (option Z) :=
  match extract_raw_bytes write with
  | None => Ok None
  | Some bytes => v ← expect_ok (from_bytes bytes); Ok (Some v)
  end.

Section change_set.
Context `{!Bcs128} {StateKey : Type} `{!EqDecision StateKey, !Countable StateKey} (key_leb : StateKey -> StateKey -> bool).
Context {ContractEvent : Type}.

(** [DeltaOp::try_into_write_op]; the view gives the stored value as [u128]. *)
Definition try_into_write_op (self : DeltaOp.t) (get_state_value_u128 : StateKey -> result (option Z)) (state_key : StateKey) :
    outcome VMStatus.t WriteOp.t :=
  maybe_value ← map_err (fun e => VMStatus.error STORAGE_ERROR (Some e)) (get_state_value_u128 state_key);
  match maybe_value with
  | Some base =>
      v ← map_err (into_vm_status (Module_ AGGREGATOR_MODULE)) (DeltaOp.apply_to self base);
      Ok (WriteOp.Modification (serialize v))
  | None => Err (VMStatus.error STORAGE_ERROR (Some "Aggregator value does not exist in storage."%string))
  end.

(** [TStateView::get_state_value_u128] over the bytes in storage. *)
Definition get_state_value_u128 (get_state_value_bytes : StateKey -> result (option (list Z))) (state_key : StateKey) :
    result (option Z) :=
  bytes ← get_state_value_bytes state_key;
  match bytes with
  | Some bytes => v ← from_bytes bytes; Ok (Some v)
  | None => Ok None
  end.

Record VMChangeSet := {
  resource_write_set : gmap StateKey WriteOp.t;
  module_write_set : gmap StateKey WriteOp.t;
  aggregator_write_set : gmap StateKey WriteOp.t;
  aggregator_delta_set : gmap StateKey DeltaOp.t;
  events : list ContractEvent }.

Definition empty : VMChangeSet :=
  {| resource_write_set := ∅; module_write_set := ∅; aggregator_write_set := ∅;
     aggregator_delta_set := ∅; events := [] |}.

(** [squash_writes_pair!]: the entry after the squash. *)
Definition squash_writes_pair (write_entry additional_write : WriteOp.t) : outcome VMStatus.t (option WriteOp.t) :=
  '(op, kept) ← map_err (fun e => VMStatus.error UNKNOWN_INVARIANT_VIOLATION_ERROR
      (Some ("Error while squashing two write ops: " +:+ e +:+ ".")%string))
    (WriteOp.squash write_entry additional_write);
  Ok (if kept : bool then Some op else None).

(** A delta that follows a write. *)
Definition delta_on_write (write_op : WriteOp.t) (additional_delta_op : DeltaOp.t) : outcome VMStatus.t WriteOp.t :=
  let update (data : list Z) : outcome VMStatus.t (list Z) :=
    base ← expect_ok (from_bytes data);
    value ← map_err (into_vm_status Undefined) (DeltaOp.apply_to additional_delta_op base);
    Ok (serialize value) in
  match write_op with
  | WriteOp.Creation data => data ← update data; Ok (WriteOp.Creation data)
  | WriteOp.Modification data => data ← update data; Ok (WriteOp.Modification data)
  | WriteOp.CreationWithMetadata data metadata => data ← update data; Ok (WriteOp.CreationWithMetadata data metadata)
  | WriteOp.ModificationWithMetadata data metadata =>
      data ← update data; Ok (WriteOp.ModificationWithMetadata data metadata)
  | WriteOp.Deletion | WriteOp.DeletionWithMetadata _ =>
      Err (VMStatus.error UNKNOWN_INVARIANT_VIOLATION_ERROR
        (Some "Cannot squash delta which was already deleted."%string))
  end.

(** The two loops of [squash_additional_aggregator_changes], over the two sets. *)
Fixpoint squash_deltas (additional : list (StateKey * DeltaOp.t))
    (sets : gmap StateKey WriteOp.t * gmap StateKey DeltaOp.t) :
    outcome VMStatus.t (gmap StateKey WriteOp.t * gmap StateKey DeltaOp.t) :=
  match additional with
  | [] => Ok sets
  | (key, additional_delta_op) :: additional =>
      let '(writes, deltas) := sets in
      sets ←
        match writes !! key with
        | Some write_op =>
            write_op ← delta_on_write write_op additional_delta_op;
            Ok (<[key := write_op]> writes, deltas)
        | None =>
            match deltas !! key with
            | Some delta =>
                let '(delta, merged) := DeltaOp.merge_with_next_delta additional_delta_op delta in
                _ ← map_err (into_vm_status Undefined) merged;
                Ok (writes, <[key := delta]> deltas)
            | None => Ok (writes, <[key := additional_delta_op]> deltas)
            end
        end;
      squash_deltas additional sets
  end.

Fixpoint squash_aggregator_writes (additional : list (StateKey * WriteOp.t))
    (sets : gmap StateKey WriteOp.t * gmap StateKey DeltaOp.t) :
    outcome VMStatus.t (gmap StateKey WriteOp.t * gmap StateKey DeltaOp.t) :=
  match additional with
  | [] => Ok sets
  | (key, additional_write_op) :: additional =>
      let '(writes, deltas) := sets in
      sets ←
        match writes !! key with
        | Some write_op =>
            write_op ← squash_writes_pair write_op additional_write_op;
            Ok (partial_alter (fun _ => write_op) key writes, deltas)
        | None =>
            _ ← ensure (negb (bool_decide (is_Some (deltas !! key)) && WriteOp.is_creation additional_write_op))
              (VMStatus.error UNKNOWN_INVARIANT_VIOLATION_ERROR
                (Some "Cannot create a resource after modification with a delta."%string));
            Ok (<[key := additional_write_op]> writes, delete key deltas)
        end;
      squash_aggregator_writes additional sets
  end.

Definition squash_additional_aggregator_changes
    (sets additional : gmap StateKey WriteOp.t * gmap StateKey DeltaOp.t) :
    outcome VMStatus.t (gmap StateKey WriteOp.t * gmap StateKey DeltaOp.t) :=
  sets ← squash_deltas (entries key_leb additional.2) sets;
  squash_aggregator_writes (entries key_leb additional.1) sets.

(** [squash_additional_writes], which is also the loop of [WriteSetMut::squash]. *)
Fixpoint squash_writes (additional : list (StateKey * WriteOp.t)) (write_set : gmap StateKey WriteOp.t) :
    outcome VMStatus.t (gmap StateKey WriteOp.t) :=
  match additional with
  | [] => Ok write_set
  | (key, additional_write_op) :: additional =>
      write_set ←
        match write_set !! key with
        | Some write_op =>
            write_op ← squash_writes_pair write_op additional_write_op;
            Ok (partial_alter (fun _ => write_op) key write_set)
        | None => Ok (<[key := additional_write_op]> write_set)
        end;
      squash_writes additional write_set
  end.
Definition squash_additional_writes (write_set additional_write_set : gmap StateKey WriteOp.t) :
    outcome VMStatus.t (gmap StateKey WriteOp.t) :=
  squash_writes (entries key_leb additional_write_set) write_set.

(** The squashed change set, once the checker has accepted it. *)
Definition squash_additional_change_set (check_change_set : VMChangeSet -> outcome VMStatus.t unit)
    (self additional : VMChangeSet) : outcome VMStatus.t VMChangeSet :=
  '(aggregator_writes, aggregator_deltas) ← squash_additional_aggregator_changes
    (aggregator_write_set self, aggregator_delta_set self)
    (aggregator_write_set additional, aggregator_delta_set additional);
  resource_writes ← squash_additional_writes (resource_write_set self) (resource_write_set additional);
  module_writes ← squash_additional_writes (module_write_set self) (module_write_set additional);
  let change_set :=
    {| resource_write_set := resource_writes; module_write_set := module_writes;
       aggregator_write_set := aggregator_writes; aggregator_delta_set := aggregator_deltas;
       events := events self ++ events additional |} in
  _ ← check_change_set change_set;
  Ok change_set.

(** [try_materialize]: every delta becomes a write. *)
Definition try_materialize (view : StateKey -> result (option Z)) (self : VMChangeSet) : outcome VMStatus.t VMChangeSet :=
  materialized ← collect (fun '(state_key, delta) =>
      write ← try_into_write_op delta view state_key;
      Ok (state_key, write)) (entries key_leb (aggregator_delta_set self));
  Ok {| resource_write_set := resource_write_set self;
        module_write_set := module_write_set self;
        aggregator_write_set := list_to_map materialized ∪ aggregator_write_set self;
        aggregator_delta_set := ∅;
        events := events self |}.

(** The write set that goes to storage: later sets win. *)
Definition into_storage_change_set_unchecked (self : VMChangeSet) : gmap StateKey WriteOp.t * list ContractEvent :=
  (aggregator_write_set self ∪ (module_write_set self ∪ resource_write_set self), events self).

Definition try_into_storage_change_set (self : VMChangeSet) :
    outcome VMStatus.t (gmap StateKey WriteOp.t * list ContractEvent) :=
  _ ← ensure (bool_decide (aggregator_delta_set self = ∅))
    (VMStatus.error DATA_FORMAT_ERROR
      (Some "Cannot convert from VMChangeSet with non-materialized deltas to ChangeSet."%string));
  Ok (into_storage_change_set_unchecked self).

(** [write_set_iter]. *)
Definition write_set_iter (self : VMChangeSet) : list (StateKey * WriteOp.t) :=
  entries key_leb (resource_write_set self) ++ entries key_leb (module_write_set self) ++
  entries key_leb (aggregator_write_set self).

Definition has_creation (self : VMChangeSet) : bool :=
  existsb (fun '(_, op) => WriteOp.is_creation op) (write_set_iter self).

(** [ChangeSetStateView::get_state_value] (respawned_session.rs): the state that the
    next session of the transaction sees.  An error is that of a delta or that of
    the base view. *)
Definition change_set_state_view (base : StateKey -> result (option StateValue.t)) (change_set : VMChangeSet)
    (state_key : StateKey) : outcome (VMStatus.t + string) (option StateValue.t) :=
  match aggregator_delta_set change_set !! state_key with
  | Some delta_op =>
      let bytes (k : StateKey) : result (option (list Z)) :=
        v ← base k;
        Ok (option_map StateValue.into_bytes v) in
      write ← map_err inl (try_into_write_op delta_op (get_state_value_u128 bytes) state_key);
      Ok (WriteOp.as_state_value write)
  | None =>
      match List.find (fun '(k, _) => bool_decide (k = state_key)) (write_set_iter change_set) with
      | Some (_, write_op) => Ok (WriteOp.as_state_value write_op)
      | None => map_err inr (base state_key)
      end
  end.
End change_set.
#[global] Arguments VMChangeSet _ {_ _} _.
#[global] Arguments resource_write_set {_ _ _ _}.
#[global] Arguments module_write_set {_ _ _ _}.
#[global] Arguments aggregator_write_set {_ _ _ _}.
#[global] Arguments aggregator_delta_set {_ _ _ _}.
#[global] Arguments events {_ _ _ _}.

(** ** Effects on a slot *)

(** A write on the bytes of a slot: a creation needs it empty, the others need it
    full. *)
Definition apply_op (op : WriteOp.t) (slot : option (list Z)) : option (option (list Z)) :=
  match slot with
  | None => if WriteOp.is_creation op then Some (WriteOp.bytes op) else None
  | Some _ => if WriteOp.is_creation op then None else Some (WriteOp.bytes op)
  end.

Lemma squash_effect op other slot :
  match WriteOp.squash op other with
  | Ok (op', true) => apply_op op' slot = (apply_op op slot ≫= apply_op other) /\ WriteOp.metadata op' = WriteOp.metadata op
  | Ok (_, false) => WriteOp.is_creation op = true /\ WriteOp.is_deletion other = true /\
      (slot = None -> (apply_op op slot ≫= apply_op other) = Some slot)
  | Err _ => (apply_op op slot ≫= apply_op other) = None
  | Panic => False
  end.
Proof. destruct op, other, slot; by simpl. Qed.

(** The squash of two writes to one item has the effect of the two in order, and
    keeps the metadata of the first.  It gives up exactly the pairs that cannot follow
    each other, whatever the item holds, and says that no write is left exactly when
    the two leave the item as it was, which is when the first creates it and the second
    deletes it. *)
Theorem write_op_squash op other slot :
  match WriteOp.squash op other with
  | Ok (op', true) => apply_op op' slot = (apply_op op slot ≫= apply_op other) /\ WriteOp.metadata op' = WriteOp.metadata op
  | Ok (_, false) => WriteOp.is_creation op = true /\ WriteOp.is_deletion other = true /\
      (slot = None -> (apply_op op slot ≫= apply_op other) = Some slot)
  | Err _ => (apply_op op slot ≫= apply_op other) = None
  | Panic => False
  end.
Proof. apply squash_effect. Qed.

Section effects.
Context {bcs : Bcs128} {bcs_laws : Bcs128Laws}.

Definition delta_effect (d : DeltaOp.t) (slot : option (list Z)) : option (option (list Z)) :=
  match slot with
  | Some data =>
      match from_bytes data with
      | Ok base =>
          match DeltaOp.apply_to d base with
          | Ok v => Some (Some (serialize v))
          | _ => None
          end
      | _ => None
      end
  | None => None
  end.

(** The effect of the write or the delta of a key. *)
Definition write_effect (w : option WriteOp.t) (slot : option (list Z)) : option (option (list Z)) :=
  match w with
  | Some op => apply_op op slot
  | None => Some slot
  end.
Definition aggregator_effect (w : option WriteOp.t) (d : option DeltaOp.t) (slot : option (list Z)) :
    option (option (list Z)) :=
  match d with
  | Some d => delta_effect d slot
  | None => write_effect w slot
  end.

Definition one_of (w : option WriteOp.t) (d : option DeltaOp.t) (limit : Z) : Prop :=
  (w = None \/ d = None) /\ forall x, d = Some x -> delta_ok x /\ DeltaOp.limit x = limit.

Lemma delta_effect_meaning d data base : delta_ok d -> from_bytes data = Ok base ->
  delta_effect d (Some data) = (v ← meaning d base; Some (Some (serialize v))).
Proof using bcs_laws.
  intros Hd Hb. unfold delta_effect. rewrite Hb. pose proof (from_bytes_range _ _ Hb) as [? _].
  pose proof (apply_to_gives d base Hd ltac:(lia)) as Hg. destruct (DeltaOp.apply_to d base), (meaning d base); simpl in *; naive_solver.
Qed.

Lemma delta_effect_Some d slot r : delta_ok d -> delta_effect d slot = Some r ->
  exists data base v, slot = Some data /\ from_bytes data = Ok base /\ meaning d base = Some v /\
    0 <= base < 2 ^ 128 /\ 0 <= v < 2 ^ 128 /\ r = Some (serialize v).
Proof using bcs_laws.
  intros Hd. destruct slot as [data|]; [|done]. destruct (from_bytes data) as [base|e|] eqn:Hb;
    [|by unfold delta_effect; rewrite Hb|by unfold delta_effect; rewrite Hb].
  rewrite (delta_effect_meaning _ _ _ Hd Hb). intros (v & Hv & [= <-])%bind_Some.
  pose proof (from_bytes_range _ _ Hb) as [Hb0 ?]. pose proof (meaning_bounds _ _ _ Hd Hb0 Hv).
  pose proof (delta_limit _ Hd). exists data, base, v. split_and!; try done; lia.
Qed.

(** A delta after a write is a write. *)
Lemma delta_on_write_effect op d slot r : delta_ok d -> (apply_op op slot ≫= delta_effect d) = Some r ->
  exists op', delta_on_write op d = Ok op' /\ apply_op op' slot = Some r.
Proof using bcs_laws.
  intros Hd (s & Hs & Hr)%bind_Some. apply delta_effect_Some in Hr as (data & base & v & -> & Hb & Hv & ? & ? & ->); [|done].
  assert (exists w, DeltaOp.apply_to d base = Ok w /\ w = v) as (w & Ha & ->).
  { pose proof (apply_to_gives d base Hd ltac:(lia)) as Hg. eapply gives_Ok in Hg; [|done]. eauto. }
  destruct op; simpl in *; destruct slot; simplify_eq/=; rewrite Hb; simpl; rewrite Ha; simpl; eauto.
Qed.

(** The cell of a key in the first loop and in the second. *)
Definition delta_cell (c : option WriteOp.t * option DeltaOp.t) (x : DeltaOp.t) :
    outcome VMStatus.t (option WriteOp.t * option DeltaOp.t) :=
  match c.1 with
  | Some write_op => write_op ← delta_on_write write_op x; Ok (Some write_op, c.2)
  | None =>
      match c.2 with
      | Some delta =>
          let '(delta, merged) := DeltaOp.merge_with_next_delta x delta in
          _ ← map_err (into_vm_status Undefined) merged;
          Ok (None, Some delta)
      | None => Ok (None, Some x)
      end
  end.
Definition write_cell (c : option WriteOp.t * option DeltaOp.t) (y : WriteOp.t) :
    outcome VMStatus.t (option WriteOp.t * option DeltaOp.t) :=
  match c.1 with
  | Some write_op => write_op ← squash_writes_pair write_op y; Ok (write_op, c.2)
  | None =>
      _ ← ensure (negb (bool_decide (is_Some c.2) && WriteOp.is_creation y))
        (VMStatus.error UNKNOWN_INVARIANT_VIOLATION_ERROR
          (Some "Cannot create a resource after modification with a delta."%string));
      Ok (Some y, None)
  end.

Lemma delta_cell_effect w d limit x slot r : one_of w d limit -> delta_ok x -> DeltaOp.limit x = limit ->
  (aggregator_effect w d slot ≫= delta_effect x) = Some r ->
  exists w' d', delta_cell (w, d) x = Ok (w', d') /\ one_of w' d' limit /\ aggregator_effect w' d' slot = Some r.
Proof using bcs_laws.
  intros [Hone Hlim] Hx El Hr. unfold delta_cell. destruct d as [d|]; simpl in *.
  - destruct Hone as [->|[=]]. destruct (Hlim d eq_refl) as [Hd Eld].
    apply bind_Some in Hr as (s & Hs & Hr).
    apply delta_effect_Some in Hs as (data & base & v & -> & Hb & Hv & ? & ? & ->); [|done].
    rewrite (delta_effect_meaning x _ v) in Hr by (done || by apply from_to_bytes).
    apply bind_Some in Hr as (u & Hu & [= <-]). unfold DeltaOp.merge_with_next_delta.
    pose proof (merge_gives x d Hx Hd ltac:(congruence)) as Hm.
    destruct (DeltaOp.merge_with_previous_delta x d) as [m|e|]; simpl; [| |done].
    + destruct Hm as (Hmo & Hml & Hmm). eexists _, _. split; [done|]. split.
      * split; [by left|]. intros ? [= <-]. split; [done|congruence].
      * cbn [aggregator_effect]. rewrite (delta_effect_meaning _ _ base), Hmm, Hv by (done || lia). simpl. by rewrite Hu.
    + specialize (Hm base ltac:(lia)). rewrite Hv in Hm. simpl in Hm. congruence.
  - destruct w as [w|]; simpl in *.
    + destruct (delta_on_write_effect w x slot r) as (op' & -> & ?); [done..|]. simpl. eexists _, _. split; [done|].
      split; [|done]. split; [by right|done].
    + eexists _, _. split; [done|]. split; [|done]. split; [by left|]. by intros ? [= <-].
Qed.

Lemma write_cell_effect w d limit y slot r : one_of w d limit ->
  (aggregator_effect w d slot ≫= apply_op y) = Some r ->
  exists w' d', write_cell (w, d) y = Ok (w', d') /\ one_of w' d' limit /\ aggregator_effect w' d' slot = Some r.
Proof using bcs_laws.
  intros [Hone Hlim] Hr. unfold write_cell. destruct d as [d|]; simpl in *.
  - destruct Hone as [->|[=]]. destruct (Hlim d eq_refl) as [Hd Eld]. apply bind_Some in Hr as (s & Hs & Hr).
    apply delta_effect_Some in Hs as (data & base & v & -> & Hb & Hv & ? & ? & ->); [|done].
    simpl in Hr. destruct (WriteOp.is_creation y) eqn:Ey; [done|]. injection Hr as <-.
    eexists _, _. split; [done|]. split; [split; [by right|done]|]. simpl. by rewrite Ey.
  - destruct w as [w|]; simpl in *.
    + pose proof (squash_effect w y slot) as Hs. unfold squash_writes_pair.
      destruct (WriteOp.squash w y) as [[op []]|e|]; simpl.
      * destruct Hs as [Hs _]. eexists _, _. split; [done|]. split; [split; [by right|done]|]. simpl. congruence.
      * destruct Hs as (Hw & _ & Hs). eexists _, _. split; [done|]. split; [split; [by right|done]|]. simpl.
        destruct slot; [|by rewrite <-Hs]. simpl in Hr. by rewrite Hw in Hr.
      * congruence.
      * done.
    + eexists _, _. split; [done|]. split; [split; [by right|done]|done].
Qed.

(** ** The loops *)
Context {StateKey : Type} `{!EqDecision StateKey, !Countable StateKey} (key_leb : StateKey -> StateKey -> bool)
  {ContractEvent : Type}.

Definition sets : Type := gmap StateKey WriteOp.t * gmap StateKey DeltaOp.t.
Definition sets_cell (s : sets) (k : StateKey) : option WriteOp.t * option DeltaOp.t := (s.1 !! k, s.2 !! k).
Definition sets_put (s : sets) (k : StateKey) (c : option WriteOp.t * option DeltaOp.t) : sets :=
  (partial_alter (fun _ => c.1) k s.1, partial_alter (fun _ => c.2) k s.2).

Lemma sets_cell_put s k c : sets_cell (sets_put s k c) k = c.
Proof using Type. unfold sets_cell, sets_put. simpl. rewrite !lookup_partial_alter_eq. by destruct c. Qed.
Lemma sets_cell_put_ne s k c k' : k' <> k -> sets_cell (sets_put s k c) k' = sets_cell s k'.
Proof using Type. intros. unfold sets_cell, sets_put. simpl. by rewrite !lookup_partial_alter_ne by done. Qed.

Lemma squash_deltas_cells l s : squash_deltas l s = for_cells sets_cell sets_put delta_cell l s.
Proof using Type.
  revert s. induction l as [|[k x] l IH]; intros [ws ds]; [done|]. cbn [squash_deltas for_cells].
  set (loop := for_cells sets_cell sets_put delta_cell) in *. unfold delta_cell, sets_cell. cbn [fst snd].
  destruct (ws !! k) as [w|] eqn:Ew; [|destruct (ds !! k) as [d|] eqn:Ed].
  - destruct (delta_on_write w x); mstep; [|done|done]. rewrite IH. unfold sets_put. cbn [fst snd]. by rewrite partial_alter_self.
  - destruct (DeltaOp.merge_with_next_delta x d) as [d' o]. destruct o; mstep; cbn [map_err]; mstep; [|done|done].
    rewrite IH. unfold sets_put. cbn [fst snd]. by rewrite <-Ew, partial_alter_self.
  - mstep. rewrite IH. unfold sets_put. cbn [fst snd]. by rewrite <-Ew, partial_alter_self.
Qed.

Lemma squash_aggregator_writes_cells l s :
  squash_aggregator_writes l s = for_cells sets_cell sets_put write_cell l s.
Proof using Type.
  revert s. induction l as [|[k y] l IH]; intros [ws ds]; [done|]. cbn [squash_aggregator_writes for_cells].
  set (loop := for_cells sets_cell sets_put write_cell) in *. unfold write_cell, sets_cell. cbn [fst snd]. destruct (ws !! k) as [w|] eqn:Ew.
  - destruct (squash_writes_pair w y); mstep; [|done|done]. rewrite IH. unfold sets_put. cbn [fst snd]. by rewrite partial_alter_self.
  - destruct (ensure _ _); mstep; [|done|done]. by rewrite IH.
Qed.

Definition map_put {A} (m : gmap StateKey A) (k : StateKey) (c : option A) : gmap StateKey A := partial_alter (fun _ => c) k m.
Definition plain_cell (c : option WriteOp.t) (y : WriteOp.t) : outcome VMStatus.t (option WriteOp.t) :=
  match c with
  | Some write_op => squash_writes_pair write_op y
  | None => Ok (Some y)
  end.

Lemma squash_writes_cells l s : squash_writes l s = for_cells (fun m k => m !! k) map_put plain_cell l s.
Proof using Type.
  revert s. induction l as [|[k y] l IH]; intros ws; [done|]. cbn [squash_writes for_cells].
  set (loop := for_cells _ map_put plain_cell) in *. unfold plain_cell. destruct (ws !! k) as [w|]; [|mstep; by rewrite IH].
  destruct (squash_writes_pair w y); mstep; [|done|done]. by rewrite IH.
Qed.

Lemma plain_cell_effect w y slot r : (write_effect w slot ≫= apply_op y) = Some r ->
  exists w', plain_cell w y = Ok w' /\ write_effect w' slot = Some r.
Proof using Type.
  intros Hr. destruct w as [w|]; simpl in *; [|by eexists]. pose proof (squash_effect w y slot) as Hs.
  unfold squash_writes_pair. destruct (WriteOp.squash w y) as [[op []]|e|]; simpl.
  - destruct Hs as [Hs _]. eexists. split; [done|]. simpl. congruence.
  - destruct Hs as (Hw & _ & Hs). eexists. split; [done|]. simpl.
    destruct slot; [|by rewrite <-Hs]. simpl in Hr. by rewrite Hw in Hr.
  - congruence.
  - done.
Qed.

(** ** Squashing change sets

    A key belongs to one kind of item, and the deltas of an aggregator agree on its
    limit. *)
Inductive item := Resource | Code | Counter (limit : Z).
Context (kind : StateKey -> item).

Definition effect (cs : VMChangeSet StateKey ContractEvent) (k : StateKey) (slot : option (list Z)) : option (option (list Z)) :=
  match kind k with
  | Resource => write_effect (resource_write_set cs !! k) slot
  | Code => write_effect (module_write_set cs !! k) slot
  | Counter _ => aggregator_effect (aggregator_write_set cs !! k) (aggregator_delta_set cs !! k) slot
  end.

(** The change set turns the storage [s] into [s']. *)
Definition leads (cs : VMChangeSet StateKey ContractEvent) (s s' : StateKey -> option (list Z)) : Prop :=
  forall k, effect cs k (s k) = Some (s' k).

Record change_set_ok (cs : VMChangeSet StateKey ContractEvent) : Prop := {
  resources_ok k : is_Some (resource_write_set cs !! k) -> kind k = Resource;
  modules_ok k : is_Some (module_write_set cs !! k) -> kind k = Code;
  aggregators_ok k : match kind k with
    | Counter limit => one_of (aggregator_write_set cs !! k) (aggregator_delta_set cs !! k) limit
    | _ => aggregator_write_set cs !! k = None /\ aggregator_delta_set cs !! k = None
    end }.

Lemma squash_plain w1 w2 (P : StateKey -> Prop) s s1 s2 :
  (forall k, is_Some (w1 !! k) -> P k) -> (forall k, is_Some (w2 !! k) -> P k) ->
  (forall k, P k -> write_effect (w1 !! k) (s k) = Some (s1 k)) ->
  (forall k, P k -> write_effect (w2 !! k) (s1 k) = Some (s2 k)) ->
  exists w, squash_additional_writes key_leb w1 w2 = Ok w /\ (forall k, is_Some (w !! k) -> P k) /\
    forall k, P k -> write_effect (w !! k) (s k) = Some (s2 k).
Proof using Type.
  intros Hp1 Hp2 He1 He2. unfold squash_additional_writes. rewrite squash_writes_cells.
  assert (forall k y, (k, y) ∈ entries key_leb w2 -> exists w', plain_cell (w1 !! k) y = Ok w' /\ write_effect w' (s k) = Some (s2 k)) as Hc.
  { intros k y Hy%elem_of_entries. assert (P k) as HP by (apply Hp2; by rewrite Hy). apply plain_cell_effect.
    rewrite He1 by done. simpl. specialize (He2 k HP). by rewrite Hy in He2. }
  edestruct (for_cells_ok (fun (m : gmap StateKey WriteOp.t) k => m !! k) map_put plain_cell)
    as (w & -> & Hin & Hout); [| |apply (entries_keys_NoDup key_leb w2)| |].
  { intros. apply lookup_partial_alter_eq. }
  { intros. by apply lookup_partial_alter_ne. }
  { intros k y Hy. destruct (Hc k y Hy) as (w' & ? & _). by exists w'. }
  assert (forall k, w2 !! k = None -> w !! k = w1 !! k) as Hnone.
  { intros k Hk. apply Hout. rewrite elem_of_entries_keys, Hk. by intros [? ?]. }
  exists w. split; [done|]. split.
  - intros k Hk. destruct (w2 !! k) eqn:E; [apply Hp2; by rewrite E|]. apply Hp1. by rewrite <-Hnone.
  - intros k HP. destruct (w2 !! k) as [y|] eqn:E.
    + pose proof (proj2 (elem_of_entries key_leb w2 k y) E) as Hy. destruct (Hc k y Hy) as (w' & Hw & ?). pose proof (Hin k y Hy) as Hi.
      simpl in Hi. rewrite Hw in Hi. by injection Hi as <-.
    + rewrite Hnone by done. rewrite He1 by done. specialize (He2 k HP). by rewrite E in He2.
Qed.

Definition counter (k : StateKey) : Prop := match kind k with Counter _ => True | _ => False end.

(** The cell of an aggregator after both loops. *)
Definition aggregator_cell (c : option WriteOp.t * option DeltaOp.t) (y : option WriteOp.t) (x : option DeltaOp.t) :
    outcome VMStatus.t (option WriteOp.t * option DeltaOp.t) :=
  c ← match x with Some x => delta_cell c x | None => Ok c end;
  match y with Some y => write_cell c y | None => Ok c end.

Lemma aggregator_cell_effect w d y x limit slot s r : one_of w d limit -> one_of y x limit ->
  aggregator_effect w d slot = Some s -> aggregator_effect y x s = Some r ->
  exists w' d', aggregator_cell (w, d) y x = Ok (w', d') /\ one_of w' d' limit /\ aggregator_effect w' d' slot = Some r.
Proof using bcs_laws.
  intros Hc [Hone Hlim] Hs Hr. unfold aggregator_cell. destruct x as [x|].
  - destruct Hone as [->|[=]]. destruct (Hlim x eq_refl). simpl in Hr.
    destruct (delta_cell_effect w d limit x slot r) as (w' & d' & -> & ?); [done..|by rewrite Hs|]. simpl. eauto.
  - simpl in Hr. mstep. destruct y as [y|]; [|simpl in Hr; simplify_eq; eauto].
    destruct (write_cell_effect w d limit y slot r) as (w' & d' & -> & ?); [done|by rewrite Hs|eauto].
Qed.

(** The two loops, cell by cell, when every cell goes through. *)
Lemma squash_aggregators_cells (sets1 sets2 : sets) :
  (forall k, exists c, aggregator_cell (sets_cell sets1 k) (sets2.1 !! k) (sets2.2 !! k) = Ok c) ->
  exists s, squash_additional_aggregator_changes key_leb sets1 sets2 = Ok s /\
    forall k, aggregator_cell (sets_cell sets1 k) (sets2.1 !! k) (sets2.2 !! k) = Ok (sets_cell s k).
Proof using Type.
  intros Hc. unfold squash_additional_aggregator_changes. rewrite squash_deltas_cells.
  edestruct (for_cells_ok sets_cell sets_put delta_cell sets_cell_put sets_cell_put_ne (entries key_leb sets2.2) sets1)
    as (s1 & -> & Hin1 & Hout1); [apply entries_keys_NoDup| |].
  { intros k x Hx%elem_of_entries. destruct (Hc k) as [c Hk]. unfold aggregator_cell in Hk. rewrite Hx in Hk.
    apply bind_Ok in Hk as (c' & ? & _). by exists c'. }
  mstep. rewrite squash_aggregator_writes_cells.
  assert (forall k, match sets2.2 !! k with Some x => delta_cell (sets_cell sets1 k) x | None => Ok (sets_cell sets1 k) end
    = Ok (sets_cell s1 k)) as H1.
  { intros k. destruct (sets2.2 !! k) as [x|] eqn:Ex; [apply Hin1; by apply elem_of_entries|].
    f_equal. symmetry. apply Hout1. rewrite elem_of_entries_keys, Ex. by intros [? ?]. }
  assert (forall k, aggregator_cell (sets_cell sets1 k) (sets2.1 !! k) (sets2.2 !! k) =
    match sets2.1 !! k with Some y => write_cell (sets_cell s1 k) y | None => Ok (sets_cell s1 k) end) as Hk.
  { intros k. unfold aggregator_cell. by rewrite H1. }
  edestruct (for_cells_ok sets_cell sets_put write_cell sets_cell_put sets_cell_put_ne (entries key_leb sets2.1) s1)
    as (s2 & -> & Hin2 & Hout2); [apply entries_keys_NoDup| |].
  { intros k y Hy%elem_of_entries. destruct (Hc k) as [c Hc']. rewrite Hk, Hy in Hc'. by exists c. }
  exists s2. split; [done|]. intros k. rewrite Hk. destruct (sets2.1 !! k) as [y|] eqn:Ey.
  - apply Hin2. by apply elem_of_entries.
  - f_equal. symmetry. apply Hout2. rewrite elem_of_entries_keys, Ey. by intros [? ?].
Qed.

Lemma leads_kind cs s s' k : leads cs s s' ->
  (kind k = Resource -> write_effect (resource_write_set cs !! k) (s k) = Some (s' k)) /\
  (kind k = Code -> write_effect (module_write_set cs !! k) (s k) = Some (s' k)) /\
  (counter k -> aggregator_effect (aggregator_write_set cs !! k) (aggregator_delta_set cs !! k) (s k) = Some (s' k)).
Proof using Type.
  intros Hl. specialize (Hl k). unfold effect in Hl. unfold counter. destruct (kind k); split_and!; intros; done.
Qed.

Lemma squash_leads check cs1 cs2 s s1 s2 : change_set_ok cs1 -> change_set_ok cs2 -> leads cs1 s s1 -> leads cs2 s1 s2 ->
  exists cs, squash_additional_change_set key_leb check cs1 cs2 = (check cs;; Ok cs) /\
    change_set_ok cs /\ leads cs s s2 /\ events cs = events cs1 ++ events cs2.
Proof using bcs_laws.
  intros Hok1 Hok2 Hl1 Hl2. unfold squash_additional_change_set.
  destruct (squash_aggregators_cells (aggregator_write_set cs1, aggregator_delta_set cs1)
    (aggregator_write_set cs2, aggregator_delta_set cs2)) as ([aw ad] & -> & Ha).
  { intros k. pose proof (aggregators_ok _ Hok1 k) as H1. pose proof (aggregators_ok _ Hok2 k) as H2.
    pose proof (Hl1 k) as E1. pose proof (Hl2 k) as E2. unfold effect in E1, E2. unfold sets_cell. simpl. destruct (kind k).
    1,2: destruct H1 as [-> ->], H2 as [-> ->]; by eexists.
    destruct (aggregator_cell_effect _ _ _ _ _ _ _ _ H1 H2 E1 E2) as (w' & d' & -> & _). by eexists. }
  assert (forall k, match kind k with
      | Counter limit => one_of (aw !! k) (ad !! k) limit /\ aggregator_effect (aw !! k) (ad !! k) (s k) = Some (s2 k)
      | _ => aw !! k = None /\ ad !! k = None end) as Hagg.
  { intros k. specialize (Ha k). pose proof (aggregators_ok _ Hok1 k) as H1. pose proof (aggregators_ok _ Hok2 k) as H2.
    pose proof (Hl1 k) as E1. pose proof (Hl2 k) as E2. unfold effect in E1, E2. unfold sets_cell in Ha. simpl in Ha.
    destruct (kind k).
    1,2: destruct H1 as [E3 E4], H2 as [E5 E6]; rewrite E3, E4, E5, E6 in Ha; by injection Ha.
    destruct (aggregator_cell_effect _ _ _ _ _ _ _ _ H1 H2 E1 E2) as (w' & d' & E & ? & ?). rewrite E in Ha.
    injection Ha as <- <-. done. }
  mstep. cbn [fst snd].
  destruct (squash_plain (resource_write_set cs1) (resource_write_set cs2) (fun k => kind k = Resource) s s1 s2)
    as (rw & -> & Hr & Hre).
  { apply resources_ok, Hok1. } { apply resources_ok, Hok2. } { intros. by apply leads_kind. } { intros. by apply leads_kind. }
  mstep.
  destruct (squash_plain (module_write_set cs1) (module_write_set cs2) (fun k => kind k = Code) s s1 s2)
    as (mw & -> & Hm & Hme).
  { apply modules_ok, Hok1. } { apply modules_ok, Hok2. } { intros. by apply leads_kind. } { intros. by apply leads_kind. }
  mstep. eexists. split; [done|]. split; [|split; [|done]].
  - split; [done|done|]. intros k. simpl. specialize (Hagg k). destruct (kind k); tauto.
  - intros k. unfold effect. simpl. specialize (Hagg k). destruct (kind k) eqn:Ek; [by apply Hre|by apply Hme|tauto].
Qed.

(** C18: the change sets of two sessions, of which the second runs on the state that
    the first leaves, squash into one that leads from the state before the first to
    the state after the second, with the events of both in order.  The squash itself
    neither fails nor panics; only the checker can refuse the result.  What a change
    set promises (a key has one kind, a counter has a write or a delta and not both)
    is kept. *)
Theorem squash_composes check cs1 cs2 s s1 s2 :
  change_set_ok cs1 -> change_set_ok cs2 -> leads cs1 s s1 -> leads cs2 s1 s2 ->
  exists cs, squash_additional_change_set key_leb check cs1 cs2 = (check cs;; Ok cs) /\
    change_set_ok cs /\ leads cs s s2 /\ events cs = events cs1 ++ events cs2.
Proof using bcs_laws. apply squash_leads. Qed.

(** ** Materializing *)
Definition view_of (s : StateKey -> option (list Z)) : StateKey -> result (option Z) :=
  get_state_value_u128 (fun k => Ok (s k)).

Lemma try_into_write_op_effect d s k r : delta_ok d -> delta_effect d (s k) = Some r ->
  exists v, try_into_write_op d (view_of s) k = Ok (WriteOp.Modification (serialize v)) /\ r = Some (serialize v) /\
    is_Some (s k).
Proof using bcs_laws.
  intros Hd Hr. apply delta_effect_Some in Hr as (data & base & v & E & Hb & Hv & ? & ? & ->); [|done].
  exists v. unfold try_into_write_op, view_of, get_state_value_u128. rewrite E. simpl. rewrite Hb. simpl.
  pose proof (apply_to_gives d base Hd ltac:(lia)) as Hg. eapply gives_Ok in Hg; [|done]. rewrite Hg. simpl.
  split_and!; eauto.
Qed.

Lemma materialize_writes s r l :
  (forall k d, (k, d) ∈ l -> delta_ok d /\ delta_effect d (s k) = Some (r k)) ->
  exists ws, collect (fun '(k, d) => write ← try_into_write_op d (view_of s) k; Ok (k, write)) l = Ok ws /\
    ws.*1 = l.*1 /\ forall k w, (k, w) ∈ ws -> apply_op w (s k) = Some (r k).
Proof using bcs_laws.
  induction l as [|[k d] l IH]; intros Hl; [exists []; split_and!; [done..|by intros ? ? ?%elem_of_nil]|].
  destruct IH as (ws & Hws & Hk & Hw); [intros; apply Hl; by right|]. destruct (Hl k d) as [Hd Hr]; [by left|].
  destruct (try_into_write_op_effect d s k (r k) Hd Hr) as (v & Hv & Ev & [b Hb]). cbn [collect]. rewrite Hv. mstep. rewrite Hws. mstep.
  eexists. split; [done|]. split; [simpl; by f_equal|].
  intros k' w [[= -> ->]|?]%elem_of_cons; [|by apply Hw]. rewrite Hb, Ev. done.
Qed.

Lemma materialize_leads cs s s' : change_set_ok cs -> leads cs s s' ->
  exists cs', try_materialize key_leb (view_of s) cs = Ok cs' /\
    aggregator_delta_set cs' = ∅ /\ change_set_ok cs' /\ leads cs' s s' /\ events cs' = events cs.
Proof using bcs_laws.
  intros Hok Hl. unfold try_materialize.
  destruct (materialize_writes s s' (entries key_leb (aggregator_delta_set cs)))
    as (ws & -> & Hk & Hw).
  { intros k d Hd%elem_of_entries. pose proof (aggregators_ok _ Hok k) as Ha. pose proof (Hl k) as He. unfold effect in He.
    destruct (kind k) as [| |limit]; [naive_solver..|]. rewrite Hd in He. destruct Ha as [_ Ha]. by destruct (Ha d). }
  assert (NoDup ws.*1) as Hnd by (rewrite Hk; apply entries_keys_NoDup).
  assert (forall k, match (list_to_map ws : gmap StateKey WriteOp.t) !! k with
    | Some w => apply_op w (s k) = Some (s' k) /\ is_Some (aggregator_delta_set cs !! k)
    | None => aggregator_delta_set cs !! k = None end) as Hm.
  { intros k. destruct ((list_to_map ws : gmap StateKey WriteOp.t) !! k) as [w|] eqn:E.
    - apply elem_of_list_to_map in E; [|done]. split; [by apply Hw|]. rewrite <-(elem_of_entries_keys key_leb), <-Hk.
      apply list_elem_of_fmap. by exists (k, w).
    - apply not_elem_of_list_to_map in E. rewrite Hk, elem_of_entries_keys in E. by apply eq_None_not_Some. }
  mstep. eexists. split; [done|]. cbn. split; [done|]. split; [|split; [|done]].
  - split; cbn; [apply resources_ok, Hok|apply modules_ok, Hok|]. intros k. specialize (Hm k).
    pose proof (aggregators_ok _ Hok k) as Ha. rewrite lookup_empty, lookup_union.
    destruct (kind k) as [| |limit]; [| |split; [by right|done]]; destruct Ha as [Ea Ed];
      rewrite Ea; destruct (list_to_map ws !! k); [|done| |done]; rewrite Ed in Hm; by destruct Hm as [_ [? ?]].
  - intros k. specialize (Hm k). specialize (Hl k). unfold effect in *. cbn. rewrite lookup_empty, lookup_union.
    pose proof (aggregators_ok _ Hok k) as Ha. destruct (kind k); [done..|].
    destruct (list_to_map ws !! k) as [w|]; [|rewrite Hm in Hl; simpl in *; by rewrite (left_id None _)].
    destruct Hm as [Hm [d Hd]]. destruct Ha as [[->|?] _]; [done|congruence].
Qed.

(** What goes to storage. *)
Lemma storage_writes cs s s' k : change_set_ok cs -> aggregator_delta_set cs = ∅ -> leads cs s s' ->
  write_effect ((into_storage_change_set_unchecked cs).1 !! k) (s k) = Some (s' k).
Proof using Type.
  intros Hok Hd Hl. specialize (Hl k). unfold effect in Hl. unfold into_storage_change_set_unchecked. cbn.
  rewrite !lookup_union. pose proof (aggregators_ok _ Hok k) as Ha.
  assert (kind k <> Resource -> resource_write_set cs !! k = None) as Hr.
  { intros Hne. apply eq_None_not_Some. intros ?. by apply Hne, (resources_ok _ Hok). }
  assert (kind k <> Code -> module_write_set cs !! k = None) as Hm.
  { intros Hne. apply eq_None_not_Some. intros ?. by apply Hne, (modules_ok _ Hok). }
  destruct (kind k) as [| |limit].
  - destruct Ha as [-> _]. by rewrite Hm, !(left_id None _).
  - destruct Ha as [-> _]. by rewrite Hr, (left_id None _), (right_id None _).
  - rewrite Hm, Hr by done. rewrite Hd, lookup_empty in Hl. simpl in Hl. by rewrite !(right_id None _).
Qed.

(** When a change set leads from the state in storage to another, its deltas
    materialize without an error, and the write set that it then gives to storage
    makes of every item what the change set says. *)
Theorem materialized_writes cs s s' : change_set_ok cs -> leads cs s s' ->
  exists cs' ws, try_materialize key_leb (view_of s) cs = Ok cs' /\
    try_into_storage_change_set cs' = Ok (ws, events cs) /\
    forall k, write_effect (ws !! k) (s k) = Some (s' k).
Proof using bcs_laws.
  intros Hok Hl. destruct (materialize_leads cs s s' Hok Hl) as (cs' & ? & Hd & Hok' & Hl' & He).
  exists cs', (into_storage_change_set_unchecked cs').1. split; [done|]. split.
  - unfold try_into_storage_change_set. rewrite bool_decide_eq_true_2 by done. mstep. rewrite <-He. done.
  - intros k. by apply storage_writes.
Qed.

(** ** The view of the next session *)
Lemma find_entries {A} (m : gmap StateKey A) k :
  List.find (fun '(k', _) => bool_decide (k' = k)) (entries key_leb m) = (x ← m !! k; Some (k, x)).
Proof using Type.
  destruct (List.find _ (entries key_leb m)) as [[k' x]|] eqn:E.
  - apply List.find_some in E as [Hin Hk%bool_decide_eq_true_1]. subst k'.
    apply list_elem_of_In, elem_of_entries in Hin. by rewrite Hin.
  - destruct (m !! k) as [x|] eqn:Ex; [|done]. apply (elem_of_entries key_leb), list_elem_of_In in Ex.
    apply (List.find_none _ _ E) in Ex. by rewrite bool_decide_eq_true_2 in Ex.
Qed.

Lemma find_app {A} (f : A -> bool) l1 l2 : List.find f (l1 ++ l2) =
  match List.find f l1 with Some x => Some x | None => List.find f l2 end.
Proof using Type. induction l1 as [|x l1 IH]; [done|]. simpl. by destruct (f x). Qed.

Lemma state_value_bytes op : option_map StateValue.into_bytes (WriteOp.as_state_value op) = WriteOp.bytes op.
Proof using Type. by destruct op. Qed.

Lemma apply_op_bytes op slot r : apply_op op slot = Some r -> r = WriteOp.bytes op.
Proof using Type. unfold apply_op. destruct slot, (WriteOp.is_creation op); congruence. Qed.

Lemma try_into_write_op_ext d view view' (k : StateKey) : view k = view' k ->
  try_into_write_op d view k = try_into_write_op d view' k.
Proof using Type. intros E. unfold try_into_write_op. by rewrite E. Qed.

(** The write of a key, wherever it is. *)
Lemma find_write cs k : change_set_ok cs -> aggregator_delta_set cs !! k = None -> exists w,
  List.find (fun '(k', _) => bool_decide (k' = k)) (write_set_iter key_leb cs) = (x ← w; Some (k, x)) /\
  forall slot, effect cs k slot = write_effect w slot.
Proof using Type.
  intros Hok Hd. unfold write_set_iter, effect. rewrite !find_app, !find_entries, Hd.
  pose proof (resources_ok _ Hok k) as Hr. pose proof (modules_ok _ Hok k) as Hm. pose proof (aggregators_ok _ Hok k) as Ha.
  destruct (resource_write_set cs !! k) as [r|]; [rewrite Hr by done; by exists (Some r)|].
  destruct (module_write_set cs !! k) as [m|]; [rewrite Hm by done; by exists (Some m)|]. simpl.
  exists (aggregator_write_set cs !! k). split; [done|]. intros slot. destruct (kind k); [..|done]; by destruct Ha as [-> _].
Qed.

(** C37: the session that follows in the same transaction sees, over the storage, each
    item as the change set of the session before it leaves it, deltas included. *)
Theorem respawned_view cs (base : StateKey -> option StateValue.t) s s' k :
  change_set_ok cs -> (forall k, s k = option_map StateValue.into_bytes (base k)) -> leads cs s s' ->
  exists v, change_set_state_view key_leb (fun k => Ok (base k)) cs k = Ok v /\
    option_map StateValue.into_bytes v = s' k.
Proof using bcs_laws.
  intros Hok Hs Hl. unfold change_set_state_view. pose proof (aggregators_ok _ Hok k) as Ha.
  pose proof (Hl k) as He. destruct (aggregator_delta_set cs !! k) as [d|] eqn:Ed.
  - unfold effect in He. destruct (kind k) as [| |limit]; [naive_solver..|]. destruct Ha as [_ Ha].
    destruct (Ha d eq_refl) as [Hd _]. rewrite Ed in He.
    destruct (try_into_write_op_effect d s k (s' k) Hd He) as (v & Hv & -> & _).
    rewrite (try_into_write_op_ext d _ (view_of s)); [rewrite Hv; by eexists|].
    unfold view_of, get_state_value_u128. by rewrite Hs.
  - destruct (find_write cs k Hok Ed) as (w & -> & Hw). rewrite Hw in He. destruct w as [w|]; simpl in He |- *.
    + eexists. split; [done|]. rewrite state_value_bytes. symmetry. by eapply apply_op_bytes.
    + eexists. split; [done|]. rewrite <-Hs. congruence.
Qed.
End effects.

(** ** Examples *)
Module ChangeSetExample.
(** A [u128] as its 16 bytes, the lowest first. *)
Fixpoint le_bytes (n : nat) (v : Z) : list Z :=
  match n with
  | O => []
  | S n => v `mod` 256 :: le_bytes n (v / 256)
  end.
Fixpoint le_value (l : list Z) : Z :=
  match l with
  | [] => 0
  | b :: l => b + 256 * le_value l
  end.

Definition decode (l : list Z) : result Z :=
  if (length l =? 16)%nat && forallb (fun b => (0 <=? b) && (b <? 256)) l then Ok (le_value l)
  else Err "unexpected end of input"%string.

#[global] Instance bcs128 : Bcs128 := { to_bytes v := le_bytes 16 v; from_bytes l := decode l }.

Lemma le_bytes_range n v : Forall (fun b => 0 <= b < 256) (le_bytes n v) /\ length (le_bytes n v) = n.
Proof.
  revert v. induction n as [|n IH]; intros v; simpl; [by split|]. destruct (IH (v / 256)). split; [|by f_equal].
  constructor; [|done]. apply Z.mod_pos_bound. lia.
Qed.

Lemma le_value_bytes n v : 0 <= v < 256 ^ Z.of_nat n -> le_value (le_bytes n v) = v.
Proof.
  revert v. induction n as [|n IH]; intros v Hv; simpl; [simpl in Hv; lia|].
  rewrite Nat2Z.inj_succ, Z.pow_succ_r in Hv by lia. rewrite IH.
  - rewrite (Z.div_mod v 256) at 3 by lia. lia.
  - split; [apply Z.div_pos; lia|]. apply Z.div_lt_upper_bound; lia.
Qed.

Lemma le_value_range l : Forall (fun b => 0 <= b < 256) l -> 0 <= le_value l < 256 ^ Z.of_nat (length l).
Proof.
  induction 1 as [|b l Hb Hl IH]; simpl length; [simpl; lia|].
  rewrite Nat2Z.inj_succ, Z.pow_succ_r by lia. cbn [le_value]. lia.
Qed.

Lemma bytes_check l : forallb (fun b => (0 <=? b) && (b <? 256)) l = true <-> Forall (fun b => 0 <= b < 256) l.
Proof.
  rewrite forallb_forall, List.Forall_forall. split; intros Hl b Hb; specialize (Hl b Hb);
    rewrite andb_true_iff, Z.leb_le, Z.ltb_lt in *; done.
Qed.

#[global] Instance bcs128_laws : Bcs128Laws.
Proof.
  split.
  - intros v Hv. change (decode (le_bytes 16 v) = Ok v). unfold decode. destruct (le_bytes_range 16 v) as [Hr Hn].
    rewrite Hn, (proj2 (bytes_check _) Hr). cbn [Nat.eqb andb]. f_equal. by apply le_value_bytes.
  - intros l v Hd. change (decode l = Ok v) in Hd. unfold decode in Hd.
    destruct (Nat.eqb_spec (length l) 16) as [Hn|]; [|done].
    destruct (forallb _ l) eqn:Hb; [|done]. apply bytes_check in Hb. injection Hd as <-.
    apply le_value_range in Hb. by rewrite Hn in Hb.
Qed.

(** Three items: a resource, a module and a counter of at most 100. *)
Definition kind_of (k : option bool) : item :=
  match k with
  | None => Resource
  | Some false => Code
  | Some true => Counter 100
  end.
Definition any_order (x y : option bool) : bool := true.

(** The first session changes the resource, publishes the module and adds 30 to the
    counter; the second deletes the resource and takes 45 from the counter, which at
    one time was up by 20. *)
Definition first_session : VMChangeSet (option bool) Z :=
  {| resource_write_set := {[None := WriteOp.Modification [1; 2]]};
     module_write_set := {[Some false := WriteOp.Creation [3]]};
     aggregator_write_set := ∅;
     aggregator_delta_set := {[Some true := DeltaOp.delta_add 30 100]};
     events := [1] |}.
Definition second_session : VMChangeSet (option bool) Z :=
  {| resource_write_set := {[None := WriteOp.Deletion]};
     module_write_set := ∅;
     aggregator_write_set := ∅;
     aggregator_delta_set := {[Some true := DeltaOp.new (Minus 45) 100 20 45]};
     events := [2] |}.

Definition storage0 (k : option bool) : option (list Z) :=
  match k with None => Some [0] | Some false => None | Some true => Some (le_bytes 16 25) end.
Definition storage1 (k : option bool) : option (list Z) :=
  match k with None => Some [1; 2] | Some false => Some [3] | Some true => Some (le_bytes 16 55) end.
Definition storage2 (k : option bool) : option (list Z) :=
  match k with None => None | Some false => Some [3] | Some true => Some (le_bytes 16 10) end.

Lemma first_ok : change_set_ok kind_of first_session.
Proof.
  split; try by intros [[]|] [? ?].
  intros [[]|]; [|by split..]. split; [by left|]. intros x Hx.
  assert (x = DeltaOp.delta_add 30 100) as -> by (vm_compute in Hx; by injection Hx). split; [|done]. split; simpl; lia.
Qed.

Lemma second_ok : change_set_ok kind_of second_session.
Proof.
  split; try by intros [[]|] [? ?].
  intros [[]|]; [|by split..]. split; [by left|]. intros x Hx.
  assert (x = DeltaOp.new (Minus 45) 100 20 45) as -> by (vm_compute in Hx; by injection Hx). split; [|done]. split; simpl; lia.
Qed.

Lemma first_leads : leads kind_of first_session storage0 storage1.
Proof. by intros [[]|]. Qed.

Lemma second_leads : leads kind_of second_session storage1 storage2.
Proof. by intros [[]|]. Qed.

Lemma squash_composes_witness : exists cs,
  squash_additional_change_set any_order (fun _ => Ok tt) first_session second_session = Ok cs /\
  change_set_ok kind_of cs /\ leads kind_of cs storage0 storage2 /\ events cs = [1; 2].
Proof.
  exact (squash_composes any_order kind_of (fun _ => Ok tt) first_session second_session storage0 storage1 storage2
    first_ok second_ok first_leads second_leads).
Defined.

Lemma materialized_writes_witness : exists cs' ws,
  try_materialize any_order (view_of storage0) first_session = Ok cs' /\
  try_into_storage_change_set cs' = Ok (ws, [1]) /\
  forall k, write_effect (ws !! k) (storage0 k) = Some (storage1 k).
Proof.
  exact (materialized_writes any_order kind_of first_session storage0 storage1 first_ok first_leads).
Defined.

Lemma respawned_view_witness : exists v,
  change_set_state_view any_order (fun k => Ok (option_map StateValue.Legacy (storage0 k))) first_session (Some true) = Ok v /\
  option_map StateValue.into_bytes v = Some (le_bytes 16 55).
Proof.
  apply (respawned_view any_order kind_of first_session (fun k => option_map StateValue.Legacy (storage0 k)) storage0 storage1).
  - exact first_ok.
  - by intros [[]|].
  - exact first_leads.
Defined.
End ChangeSetExample.
