(* ===== verification/MVHashMap.v ===== *)
(** * The multi-version data structure of parallel execution

    src/aptos-move/mvhashmap: for each key the writes and deltas of the transactions
    of a block, by transaction index.  A transaction reads what the transactions
    before it wrote; deltas on the way are merged and applied to the write, to the
    value that a commit recorded, or to the base value from storage that they end
    in.  [UnsyncMap] is its counterpart for sequential execution.

    A method holds the lock of the key it works on, so each is one step.  The
    theorems compare a read with the sequential meaning of the entries below the
    reader ([seen]): every write and every delta applied in the order of the
    transactions. *)

From S2P Require Import Prelude Collections Aggregator ChangeSet.

(** ** types.rs *)
Definition TxnIndex : Type := Z.
Definition Incarnation : Type := Z.
Definition Version : Type := TxnIndex * Incarnation.

(** [txn_idx + 1] on a [u32]. *)
Definition u32_succ {E} (txn_idx : TxnIndex) : outcome E Z :=
  if txn_idx + 1 <? 2 ^ 32 then Ok (txn_idx + 1) else Panic.

Inductive Flag := Done | Estimate.
#[global] Instance flag_eq_dec : EqDecision Flag.
Proof. solve_decision. Defined.

Inductive MVDataError :=
  | NotFound
  | Unresolved (op : DeltaOp.t)
  | Dependency (txn_idx : TxnIndex)
  | DeltaApplicationFailure.

Inductive MVDataOutput (V : Type) :=
  | Resolved (value : Z)
  | Versioned (version : Version) (data : V).
#[global] Arguments Resolved {V}.
#[global] Arguments Versioned {V}.

Inductive MVModulesError :=
  | ModuleNotFound
  | ModuleDependency (txn_idx : TxnIndex).

(** ** versioned_data.rs *)
Section versioned_data.
Context {bcs : Bcs128} {V : Type} `{!TransactionWrite V}.

Inductive EntryCell :=
  | WriteCell (incarnation : Incarnation) (data : V)
  | DeltaCell (delta_op : DeltaOp.t) (shortcut : option Z).

Record Entry := {
  cell : EntryCell;
  flag : Flag }.

Definition new_write_from (incarnation : Incarnation) (data : V) : Entry :=
  {| cell := WriteCell incarnation data; flag := Done |}.
Definition new_delta_from (data : DeltaOp.t) : Entry :=
  {| cell := DeltaCell data None; flag := Done |}.
Definition mark_entry_estimate (self : Entry) : Entry := {| cell := cell self; flag := Estimate |}.

Definition record_delta_shortcut {E} (self : Entry) (value : Z) : outcome E Entry :=
  match cell self with
  | DeltaCell delta_op maybe_shortcut =>
      _ ← assert match maybe_shortcut with Some prev_value => value =? prev_value | None => true end;
      Ok {| cell := DeltaCell delta_op (Some value); flag := flag self |}
  | WriteCell _ _ => Panic
  end.

Record VersionedValue := {
  versioned_map : list (TxnIndex * Entry);
  aggregator_base_value : option Z }.

Definition new_versioned_value : VersionedValue := {| versioned_map := []; aggregator_base_value := None |}.

(** The accumulated delta applied to a value. *)
Definition apply_accumulated (accumulator : option DeltaOp.t) (value : Z) : outcome MVDataError (MVDataOutput V) :=
  match accumulator with
  | None => Err DeltaApplicationFailure
  | Some a => map_err (fun _ => DeltaApplicationFailure) (result ← DeltaOp.apply_to a value; Ok (Resolved result))
  end.

(** The loop of [read] over the entries below the reader, from the highest down.  The
    accumulator is nothing until a delta is met, then the merged delta, or nothing
    inside when a merge has failed. *)
Fixpoint read_loop (base : option Z) (iter : list (TxnIndex * Entry)) (accumulator : option (option DeltaOp.t)) :
    outcome MVDataError (MVDataOutput V) :=
  match iter with
  | [] =>
      match accumulator with
      | Some (Some accumulator) =>
          match base with
          | Some base_value => apply_accumulated (Some accumulator) base_value
          | None => Err (Unresolved accumulator)
          end
      | Some None => Err DeltaApplicationFailure
      | None => Err NotFound
      end
  | (idx, entry) :: iter =>
      if bool_decide (flag entry = Estimate) then Err (Dependency idx)
      else
        match cell entry, accumulator with
        | WriteCell incarnation data, None => Ok (Versioned (idx, incarnation) data)
        | WriteCell incarnation data, Some accumulator =>
            value ← from_write data;
            match value with
            | None => Ok (Versioned (idx, incarnation) data)
            | Some value => apply_accumulated accumulator value
            end
        | DeltaCell delta maybe_shortcut, Some accumulator =>
            match maybe_shortcut with
            | Some shortcut_value => apply_accumulated accumulator shortcut_value
            | None =>
                match accumulator with
                | None => read_loop base iter (Some None)
                | Some a =>
                    match DeltaOp.merge_with_previous_delta a delta with
                    | Ok a => read_loop base iter (Some (Some a))
                    | Err _ => read_loop base iter (Some None)
                    | Panic => Panic
                    end
                end
            end
        | DeltaCell delta maybe_shortcut, None =>
            match maybe_shortcut with
            | Some shortcut_value => Ok (Resolved shortcut_value)
            | None => read_loop base iter (Some (Some delta))
            end
        end
  end.

(** [versioned_map.range(0..txn_idx)]. *)
Definition below (txn_idx : TxnIndex) (m : list (TxnIndex * Entry)) : list (TxnIndex * Entry) :=
  List.filter (fun e => e.1 <? txn_idx) m.

Definition read (self : VersionedValue) (txn_idx : TxnIndex) : outcome MVDataError (MVDataOutput V) :=
  read_loop (aggregator_base_value self) (reverse (below txn_idx (versioned_map self))) None.

(** ** The map of all keys: each method works on the value of one key *)
Context {K : Type} `{!EqDecision K, !Countable K}.

Definition VersionedData : Type := gmap K VersionedValue.

Definition with_map (v : VersionedValue) (m : list (TxnIndex * Entry)) : VersionedValue :=
  {| versioned_map := m; aggregator_base_value := aggregator_base_value v |}.

Definition set_aggregator_base_value (key : K) (value : Z) : action VersionedData Empty_set unit := fun self =>
  match self !! key with
  | None => (self, Panic)
  | Some v =>
      let base := match aggregator_base_value v with Some base => base | None => value end in
      (<[key := {| versioned_map := versioned_map v; aggregator_base_value := Some base |}]> self,
       assert (base =? value))
  end.

Definition add_delta (key : K) (txn_idx : TxnIndex) (delta : DeltaOp.t) : action VersionedData Empty_set unit := fun self =>
  let v := default new_versioned_value (self !! key) in
  (<[key := with_map v (BTreeMap.insert (versioned_map v) txn_idx (new_delta_from delta))]> self, Ok tt).

Definition mark_estimate (key : K) (txn_idx : TxnIndex) : action VersionedData Empty_set unit := fun self =>
  match self !! key with
  | None => (self, Panic)
  | Some v =>
      match BTreeMap.get (versioned_map v) txn_idx with
      | None => (self, Panic)
      | Some entry =>
          (<[key := with_map v (BTreeMap.insert (versioned_map v) txn_idx (mark_entry_estimate entry))]> self, Ok tt)
      end
  end.

Definition delete_entry (key : K) (txn_idx : TxnIndex) : action VersionedData Empty_set unit := fun self =>
  match self !! key with
  | None => (self, Panic)
  | Some v =>
      (<[key := with_map v (BTreeMap.remove (versioned_map v) txn_idx)]> self,
       assert (bool_decide (is_Some (BTreeMap.get (versioned_map v) txn_idx))))
  end.

Definition fetch_data (self : VersionedData) (key : K) (txn_idx : TxnIndex) : outcome MVDataError (MVDataOutput V) :=
  match self !! key with
  | Some v => read v txn_idx
  | None => Err NotFound
  end.

Definition write (key : K) (version : Version) (data : V) : action VersionedData Empty_set unit := fun self =>
  let '(txn_idx, incarnation) := version in
  let v := default new_versioned_value (self !! key) in
  let prev_entry := BTreeMap.get (versioned_map v) txn_idx in
  (<[key := with_map v (BTreeMap.insert (versioned_map v) txn_idx (new_write_from incarnation data))]> self,
   assert match prev_entry with
     | Some entry => match cell entry with WriteCell i _ => i <? incarnation | DeltaCell _ _ => true end
     | None => true
     end).

(** The error is the delta that still needs a base value. *)
Definition materialize_delta (key : K) (txn_idx : TxnIndex) : action VersionedData DeltaOp.t Z := fun self =>
  match self !! key with
  | None => (self, Panic)
  | Some v =>
      match u32_succ txn_idx ≫= read v with
      | Ok (Resolved value) =>
          match BTreeMap.get (versioned_map v) txn_idx with
          | None => (self, Panic)
          | Some entry =>
              match record_delta_shortcut entry value with
              | Ok entry => (<[key := with_map v (BTreeMap.insert (versioned_map v) txn_idx entry)]> self, Ok value)
              | Err op => (self, Err op)
              | Panic => (self, Panic)
              end
          end
      | Err (Unresolved op) => (self, Err op)
      | _ => (self, Panic)
      end
  end.
End versioned_data.
#[global] Arguments EntryCell : clear implicits.
#[global] Arguments Entry : clear implicits.
#[global] Arguments VersionedValue : clear implicits.
#[global] Arguments VersionedData V K {_ _}.

(** ** versioned_modules.rs

    The hash of a module is that of its bytes; the executables are the loaded forms
    of modules, by hash. *)
Class ModuleHasher := {
  ModuleHash : Type;
  module_hash_eq :: EqDecision ModuleHash;
  module_hash_countable :: Countable ModuleHash;
  digest_module : list Z -> ModuleHash }.

Inductive ExecutableDescriptor `{!ModuleHasher} :=
  | Published (hash : ModuleHash)
  | Storage.

Section versioned_modules.
Context {hasher : ModuleHasher} {V X K : Type} `{!TransactionWrite V, !EqDecision K, !Countable K}.

Inductive MVModulesOutput :=
  | Executable (executable : X) (descriptor : ExecutableDescriptor)
  | Module_output (module : V) (hash : ModuleHash).

Record ModuleEntry := {
  module_flag : Flag;
  module : V;
  hash : ModuleHash }.

Record VersionedModule := {
  module_map : list (TxnIndex * ModuleEntry);
  executables : gmap ModuleHash X }.

Definition new_versioned_module : VersionedModule := {| module_map := []; executables := ∅ |}.

(** [module_hash] of utils.rs, also inlined in [Entry::new_write_from]. *)
Definition module_hash {E} (module : V) : outcome E ModuleHash :=
  bytes ← expect (extract_raw_bytes module);
  Ok (digest_module bytes).

Definition new_module_write {E} (module : V) : outcome E ModuleEntry :=
  hash ← module_hash module;
  Ok {| module_flag := Done; module := module; hash := hash |}.

Definition read_module (self : VersionedModule) (txn_idx : TxnIndex) : outcome MVModulesError (V * ModuleHash) :=
  match reverse (List.filter (fun e => e.1 <? txn_idx) (module_map self)) with
  | (idx, entry) :: _ =>
      if bool_decide (module_flag entry = Estimate) then Err (ModuleDependency idx)
      else Ok (module entry, hash entry)
  | [] => Err ModuleNotFound
  end.

Definition VersionedModules : Type := gmap K VersionedModule.

Definition mark_module_estimate (key : K) (txn_idx : TxnIndex) : action VersionedModules Empty_set unit := fun self =>
  match self !! key with
  | None => (self, Panic)
  | Some v =>
      match BTreeMap.get (module_map v) txn_idx with
      | None => (self, Panic)
      | Some entry =>
          (<[key := {| module_map := BTreeMap.insert (module_map v) txn_idx
                         {| module_flag := Estimate; module := module entry; hash := hash entry |};
                       executables := executables v |}]> self, Ok tt)
      end
  end.

Definition write_module (key : K) (txn_idx : TxnIndex) (data : V) : action VersionedModules Empty_set unit := fun self =>
  let v := default new_versioned_module (self !! key) in
  match new_module_write data with
  | Ok entry =>
      (<[key := {| module_map := BTreeMap.insert (module_map v) txn_idx entry; executables := executables v |}]> self, Ok tt)
  | Err e => (<[key := v]> self, Err e)
  | Panic => (<[key := v]> self, Panic)
  end.

Definition store_executable (key : K) (descriptor_hash : ModuleHash) (executable : X) :
    action VersionedModules Empty_set unit := fun self =>
  match self !! key with
  | None => (self, Panic)
  | Some v =>
      (<[key := {| module_map := module_map v;
                   executables := match executables v !! descriptor_hash with
                     | Some _ => executables v
                     | None => <[descriptor_hash := executable]> (executables v)
                     end |}]> self, Ok tt)
  end.

Definition fetch_module (self : VersionedModules) (key : K) (txn_idx : TxnIndex) : outcome MVModulesError MVModulesOutput :=
  match self !! key with
  | Some v =>
      '(module, hash) ← read_module v txn_idx;
      Ok match executables v !! hash with
         | Some x => Executable x (Published hash)
         | None => Module_output module hash
         end
  | None => Err ModuleNotFound
  end.

Definition delete_module (key : K) (txn_idx : TxnIndex) : action VersionedModules Empty_set unit := fun self =>
  match self !! key with
  | None => (self, Panic)
  | Some v =>
      (<[key := {| module_map := BTreeMap.remove (module_map v) txn_idx; executables := executables v |}]> self,
       assert (bool_decide (is_Some (BTreeMap.get (module_map v) txn_idx))))
  end.

(** ** unsync_map.rs *)
Record UnsyncMap := {
  unsync_map : gmap K (V * option ModuleHash);
  executable_cache : gmap ModuleHash X;
  executable_bytes : Z }.

Definition new_unsync_map : UnsyncMap :=
  {| unsync_map := ∅; executable_cache := ∅; executable_bytes := 0 |}.

Definition unsync_fetch_data (self : UnsyncMap) (key : K) : option V := option_map fst (unsync_map self !! key).

(** The hash is kept with the module.  [get_or_insert] computes its argument in any
    case. *)
Definition unsync_fetch_module (key : K) : action UnsyncMap Empty_set (option MVModulesOutput) := fun self =>
  match unsync_map self !! key with
  | None => (self, Ok None)
  | Some (v, cached) =>
      match module_hash v with
      | Ok computed =>
          let hash := default computed cached in
          ({| unsync_map := <[key := (v, Some hash)]> (unsync_map self);
              executable_cache := executable_cache self;
              executable_bytes := executable_bytes self |},
           Ok (Some match executable_cache self !! hash with
                    | None => Module_output v hash
                    | Some x => Executable x (Published hash)
                    end))
      | Err e => (self, Err e)
      | Panic => (self, Panic)
      end
  end.

Definition unsync_write (self : UnsyncMap) (key : K) (value : V) : UnsyncMap :=
  {| unsync_map := <[key := (value, None)]> (unsync_map self);
     executable_cache := executable_cache self;
     executable_bytes := executable_bytes self |}.

Definition unsync_store_executable (size_bytes : X -> Z) (descriptor_hash : ModuleHash) (executable : X) :
    action UnsyncMap Empty_set bool := fun self =>
  let size := size_bytes executable in
  let cache := <[descriptor_hash := executable]> (executable_cache self) in
  match executable_cache self !! descriptor_hash with
  | Some _ =>
      match u64_add (executable_bytes self) size with
      | Ok total =>
          ({| unsync_map := unsync_map self; executable_cache := cache; executable_bytes := total |}, Ok true)
      | Err e => (self, Err e)
      | Panic => ({| unsync_map := unsync_map self; executable_cache := cache; executable_bytes := executable_bytes self |}, Panic)
      end
  | None =>
      ({| unsync_map := unsync_map self; executable_cache := cache; executable_bytes := executable_bytes self |}, Ok false)
  end.

Definition executable_size (self : UnsyncMap) : Z := executable_bytes self.
End versioned_modules.

(** ** Sequential meaning *)
Section sequential.
Context {bcs : Bcs128} {bcs_laws : Bcs128Laws} {V : Type} `{!TransactionWrite V}.

(** What a transaction sees at a key: nothing, a write, an aggregator value, or a
    failed delta. *)
Inductive seen :=
  | Nothing
  | Written (version : Version) (data : V)
  | Value (v : Z)
  | Failed.

Definition of_delta (v : option Z) : seen := match v with Some v => Value v | None => Failed end.

(** The value in a write, when it holds one. *)
Definition value_of (data : V) : option Z :=
  match @from_write _ _ _ MVDataError data with Ok v => v | _ => None end.

(** An accumulated update on top of what is seen; [b] is the value in storage. *)
Definition on_top (b : Z) (s : seen) (f : Z -> option Z) : seen :=
  match s with
  | Nothing => of_delta (f b)
  | Written version data => match value_of data with Some v => of_delta (f v) | None => Written version data end
  | Value v => of_delta (f v)
  | Failed => Failed
  end.

Definition after (b : Z) (s : seen) (e : TxnIndex * Entry V) : seen :=
  match cell e.2 with
  | WriteCell incarnation data => Written (e.1, incarnation) data
  | DeltaCell d _ => on_top b s (meaning d)
  end.

(** All entries in order. *)
Definition sequentially (b : Z) (l : list (TxnIndex * Entry V)) : seen := foldl (after b) Nothing l.

(** What the result of a read stands for when [b] is in storage. *)
Definition outcome_seen (b : Z) (o : outcome MVDataError (MVDataOutput V)) : option seen :=
  match o with
  | Ok (Resolved v) => Some (Value v)
  | Ok (Versioned version data) => Some (Written version data)
  | Err NotFound => Some Nothing
  | Err (Unresolved d) => Some (of_delta (meaning d b))
  | Err DeltaApplicationFailure => Some Failed
  | Err (Dependency _) | Panic => None
  end.

(** An entry of an aggregator with the limit [limit]: a value that can be read, or a
    delta within that limit. *)
Definition entry_ok (limit : Z) (e : Entry V) : Prop :=
  match cell e with
  | WriteCell _ data => @from_write _ _ _ MVDataError data <> Panic
  | DeltaCell d _ => delta_ok d /\ DeltaOp.limit d = limit
  end.

Definition is_write (e : Entry V) : Prop := match cell e with WriteCell _ _ => True | DeltaCell _ _ => False end.

(** A key holds plain writes, or those of an aggregator. *)
Definition key_entries_ok (l : list (TxnIndex * Entry V)) : Prop :=
  Forall (fun e => is_write e.2) l \/ exists limit, Forall (fun e => entry_ok limit e.2) l.

(** The recorded values are those of the entries up to theirs. *)
Definition shortcuts_ok (b : Z) (l : list (TxnIndex * Entry V)) : Prop :=
  forall l1 i d v f l2, l = l1 ++ (i, {| cell := DeltaCell d (Some v); flag := f |}) :: l2 ->
    on_top b (sequentially b l1) (meaning d) = Value v.

#[local] Arguments apply_accumulated : simpl never.

Definition accumulated (a : option DeltaOp.t) (v : Z) : option Z :=
  match a with
  | Some d => meaning d v
  | None => None
  end.
Definition accumulator_ok (limit : Z) (a : option DeltaOp.t) : Prop :=
  match a with
  | Some d => delta_ok d /\ DeltaOp.limit d = limit
  | None => True
  end.

Lemma value_of_range data v : value_of data = Some v -> 0 <= v.
Proof using bcs_laws.
  unfold value_of, from_write. destruct (extract_raw_bytes data) as [bs|]; [|done].
  destruct (from_bytes bs) as [x|e|] eqn:E; simpl; [|done|done]. intros [= <-]. by apply from_bytes_range in E as [? _].
Qed.

Lemma of_delta_range limit d base v : delta_ok d -> DeltaOp.limit d = limit -> 0 <= base ->
  of_delta (meaning d base) = Value v -> 0 <= v.
Proof using Type.
  intros Hd _ Hb. destruct (meaning d base) as [w|] eqn:E; [|done]. intros [= <-]. by apply meaning_bounds in E as [? _].
Qed.

Lemma sequentially_app b l1 l2 : sequentially b (l1 ++ l2) = foldl (after b) (sequentially b l1) l2.
Proof using Type. apply foldl_app. Qed.

Lemma sequentially_range limit b l v : 0 <= b -> Forall (fun e => entry_ok limit e.2) l -> sequentially b l = Value v -> 0 <= v.
Proof using bcs_laws.
  intros Hb. revert v. induction l as [|[i e] l IH] using rev_ind; intros v Hl; [done|].
  rewrite Forall_app, Forall_singleton in Hl. destruct Hl as [Hl He]. rewrite sequentially_app. simpl.
  unfold after, entry_ok in *. simpl in *. destruct (cell e) as [inc data|d sc]; [done|]. destruct He as [Hd El]. unfold on_top.
  destruct (sequentially b l) as [|ver data|w|].
  - by eapply of_delta_range.
  - destruct (value_of data) as [x|] eqn:E; [|done]. eapply of_delta_range; [done..|]. by eapply value_of_range.
  - eapply of_delta_range; [done..|]. by apply IH.
  - done.
Qed.

Lemma apply_accumulated_seen limit b a v : accumulator_ok limit a -> 0 <= v ->
  outcome_seen b (apply_accumulated (V:=V) a v) = Some (of_delta (accumulated a v)).
Proof using Type.
  intros Ha Hv. destruct a as [d|]; [|done]. destruct Ha as [Hd _]. unfold apply_accumulated, accumulated.
  pose proof (apply_to_gives d v Hd Hv) as Hg. by destruct (DeltaOp.apply_to d v), (meaning d v); simpl in *; subst.
Qed.

(** An update of a delta and what is accumulated above it are one update. *)
Lemma on_top_compose limit b s d (f g : Z -> option Z) : 0 <= b -> (forall v, s = Value v -> 0 <= v) ->
  delta_ok d -> DeltaOp.limit d = limit -> (forall v, 0 <= v -> g v = (meaning d v ≫= f)) ->
  on_top b (on_top b s (meaning d)) f = on_top b s g.
Proof using bcs_laws.
  intros Hb Hs Hd El Hg. assert (forall v, 0 <= v -> on_top b (of_delta (meaning d v)) f = of_delta (g v)) as Hv.
  { intros v Hv. rewrite Hg by done. by destruct (meaning d v). }
  destruct s as [|ver data|v|]; simpl.
  - by apply Hv.
  - destruct (value_of data) as [v|] eqn:E; simpl; [by apply Hv; eapply value_of_range|by rewrite E].
  - apply Hv. by apply Hs.
  - done.
Qed.

Lemma shortcuts_ok_prefix b l1 l2 : shortcuts_ok b (l1 ++ l2) -> shortcuts_ok b l1.
Proof using Type.
  intros Hs l i d v f l' ->. apply (Hs l i d v f (l' ++ l2)). by rewrite <-app_assoc.
Qed.

Lemma read_loop_accumulated limit base b l a : 0 <= b -> base = None \/ base = Some b ->
  Forall (fun e => entry_ok limit e.2) l -> Forall (fun e => flag e.2 = Done) l -> shortcuts_ok b l ->
  accumulator_ok limit a ->
  outcome_seen b (read_loop base (reverse l) (Some a)) = Some (on_top b (sequentially b l) (accumulated a)).
Proof using bcs_laws.
  intros Hb Hbase. revert a. induction l as [|[i e] l IH] using rev_ind; intros a Hl Hf Hs Ha.
  { destruct a as [d|]; [|done]. destruct Hbase as [->| ->]; [done|].
    exact (apply_accumulated_seen limit b (Some d) b Ha Hb). }
  pose proof (shortcuts_ok_prefix _ _ _ Hs) as Hs'.
  rewrite reverse_app. rewrite Forall_app, Forall_singleton in Hl, Hf. destruct Hl as [Hl He], Hf as [Hf Hfe]. simpl in Hfe.
  rewrite sequentially_app. simpl. rewrite Hfe, bool_decide_eq_false_2 by done.
  destruct e as [c fl]. simpl in *. subst fl. unfold after, entry_ok in *. simpl in *. destruct c as [inc data|d sc].
  - destruct (from_write data) as [[v|]|err|] eqn:E; simpl; unfold value_of; rewrite ?E; try done.
    + eapply apply_accumulated_seen; [done|]. apply (value_of_range data). unfold value_of. by rewrite E.
    + unfold from_write in E. destruct (extract_raw_bytes data) as [bs|]; [|done]. by destruct (from_bytes bs).
  - destruct He as [Hd El]. destruct sc as [v|].
    { pose proof (Hs l i d v Done [] eq_refl) as Hv. rewrite Hv. simpl. eapply apply_accumulated_seen; [done|].
      eapply (sequentially_range limit b (l ++ [(i, {| cell := DeltaCell d (Some v); flag := Done |})])); [done| |].
      - rewrite Forall_app, Forall_singleton. done.
      - by rewrite sequentially_app. }
    assert (forall v, sequentially b l = Value v -> 0 <= v) as Hr by (intros; by eapply sequentially_range).
    destruct a as [a|].
    + destruct Ha as [Ha Ela]. pose proof (merge_gives a d Ha Hd ltac:(congruence)) as Hm.
      destruct (DeltaOp.merge_with_previous_delta a d) as [m|err|]; [| |done].
      * destruct Hm as (Hmo & Eml & Hmm). rewrite IH by (done || split; congruence || done). f_equal. symmetry.
        by eapply on_top_compose.
      * rewrite IH by done. f_equal. symmetry. eapply on_top_compose; [done..|]. intros v ?. symmetry. by apply Hm.
    + rewrite IH by done. f_equal. symmetry. eapply on_top_compose; [done..|]. intros v ?. by destruct (meaning d v).
Qed.

Lemma read_loop_sequential limit base b l : 0 <= b -> base = None \/ base = Some b ->
  Forall (fun e => entry_ok limit e.2) l -> Forall (fun e => flag e.2 = Done) l -> shortcuts_ok b l ->
  outcome_seen b (read_loop base (reverse l) None) = Some (sequentially b l).
Proof using bcs_laws.
  intros Hb Hbase. destruct l as [|[i e] l] using rev_ind; intros Hl Hf Hs; [done|]. clear IHl.
  pose proof (shortcuts_ok_prefix _ _ _ Hs) as Hs'.
  rewrite reverse_app. rewrite Forall_app, Forall_singleton in Hl, Hf. destruct Hl as [Hl He], Hf as [Hf Hfe]. simpl in Hfe.
  rewrite sequentially_app. simpl. rewrite Hfe, bool_decide_eq_false_2 by done.
  destruct e as [c fl]. simpl in *. subst fl. unfold after, entry_ok in *. simpl in *. destruct c as [inc data|d sc]; [done|].
  destruct He as [Hd El]. destruct sc as [v|]; [by rewrite (Hs l i d v Done [] eq_refl)|].
  by apply (read_loop_accumulated limit base b l (Some d)).
Qed.

(** Without deltas the topmost entry answers. *)
Lemma read_loop_writes base b l : Forall (fun e => is_write e.2) l -> Forall (fun e => flag e.2 = Done) l ->
  outcome_seen b (read_loop base (reverse l) None) = Some (sequentially b l).
Proof using Type.
  destruct l as [|[i e] l] using rev_ind; intros Hl Hf; [done|]. rewrite reverse_app, sequentially_app.
  rewrite Forall_app, Forall_singleton in Hl, Hf. destruct Hl as [_ He], Hf as [_ Hfe]. simpl in *.
  rewrite Hfe, bool_decide_eq_false_2 by done. unfold is_write, after in *. simpl. by destruct (cell e).
Qed.

Lemma read_sequential v b i : 0 <= b -> aggregator_base_value v = None \/ aggregator_base_value v = Some b ->
  key_entries_ok (below i (versioned_map v)) -> Forall (fun e => flag e.2 = Done) (below i (versioned_map v)) ->
  shortcuts_ok b (below i (versioned_map v)) ->
  outcome_seen b (read v i) = Some (sequentially b (below i (versioned_map v))).
Proof using bcs_laws.
  intros Hb Hbase [Hw|[limit Hl]] Hf Hs; [by apply read_loop_writes|by apply (read_loop_sequential limit)].
Qed.

(** ** Estimates

    A read goes on from a finished delta whose value is not recorded; it stops at
    everything else. *)
Definition passed_over (e : TxnIndex * Entry V) : Prop := flag e.2 = Done /\ exists d, cell e.2 = DeltaCell d None.
(** The entry of [j] is an estimate, and the read gets to it. *)
Definition meets_estimate (l : list (TxnIndex * Entry V)) (j : TxnIndex) : Prop :=
  exists rest e above, l = rest ++ (j, e) :: above /\ flag e = Estimate /\ Forall passed_over above.

Lemma from_write_not_err {E} (e : E) (data : V) : from_write data <> Err e.
Proof using Type. unfold from_write. destruct (extract_raw_bytes data) as [bs|]; [|done]. by destruct (from_bytes bs). Qed.

Lemma read_loop_met base iter a j : read_loop base iter a = Err (Dependency j) ->
  exists above e rest, iter = above ++ (j, e) :: rest /\ flag e = Estimate /\ Forall passed_over above.
Proof using Type.
  assert (forall (x : option DeltaOp.t) y, apply_accumulated (V:=V) x y <> Err (Dependency j)) as Happ.
  { intros [x|] y; unfold apply_accumulated; [|done]. by destruct (DeltaOp.apply_to x y). }
  revert a. induction iter as [|[i [c f]] iter IH]; intros a Hr; simpl in Hr.
  { destruct a as [[a|]|]; [|done|done]. destruct base; [by apply Happ in Hr|done]. }
  case_bool_decide as Ef; [injection Hr as ->; by exists [], {| cell := c; flag := f |}, iter|].
  assert (forall d a', c = DeltaCell d None -> read_loop base iter a' = Err (Dependency j) ->
    exists above e rest, (i, {| cell := c; flag := f |}) :: iter = above ++ (j, e) :: rest /\ flag e = Estimate /\ Forall passed_over above) as IH'.
  { intros d a' Ec H'. destruct (IH a' H') as (above & e & rest & -> & He & Ha). exists ((i, {| cell := c; flag := f |}) :: above), e, rest.
    split_and!; [done..|]. constructor; [|done]. split; [by destruct f|by exists d]. }
  destruct c as [inc data|d sc].
  - destruct a as [a|]; [|done]. destruct (from_write data) as [[y|]|err|] eqn:E; simpl in Hr; [by apply Happ in Hr|done| |done].
    by apply from_write_not_err in E.
  - destruct a as [a|]; (destruct sc; [try done; by apply Happ in Hr|]); [|by eapply IH'].
    destruct a as [a|]; [|by eapply IH']. destruct (DeltaOp.merge_with_previous_delta a d); [by eapply IH'..|done].
Qed.

Lemma read_loop_meets limit base rest j e above a : flag e = Estimate -> Forall passed_over above ->
  Forall (fun e => entry_ok limit e.2) above -> match a with Some a => accumulator_ok limit a | None => True end ->
  read_loop base (reverse (rest ++ (j, e) :: above)) a = Err (Dependency j).
Proof using Type.
  intros He. revert a. induction above as [|[i [c f]] above IH] using rev_ind; intros a Ha Hl Hacc.
  { rewrite reverse_app. simpl. by rewrite bool_decide_eq_true_2. }
  rewrite Forall_app, Forall_singleton in Ha, Hl. destruct Ha as [Ha [Hf [d Hc]]]. simpl in Hf, Hc. subst f c.
  destruct Hl as [Hl [Hd El]]. simpl in Hd, El. rewrite app_comm_cons, app_assoc, reverse_app. simpl.
  destruct a as [[x|]|]; [|by apply IH..]. destruct Hacc as [Hx Ex].
  pose proof (merge_gives x d Hx Hd ltac:(congruence)) as Hm.
  destruct (DeltaOp.merge_with_previous_delta x d) as [m|err|]; [|by apply IH|done].
  apply IH; [done..|]. destruct Hm as (? & ? & _). split; [done|congruence].
Qed.

Lemma read_meets_iff v i j : key_entries_ok (below i (versioned_map v)) ->
  read v i = Err (Dependency j) <-> meets_estimate (below i (versioned_map v)) j.
Proof using Type.
  intros Hl. unfold read. split.
  - intros (above & e & rest & E & He & Ha)%read_loop_met. exists (reverse rest), e, (reverse above).
    rewrite <-(reverse_involutive (below i (versioned_map v))), E, reverse_app, reverse_cons, <-app_assoc.
    split_and!; [done..|]. by apply Forall_reverse.
  - intros (rest & e & above & E & He & Ha). rewrite E in *. destruct Hl as [Hw|[limit Hl]].
    + rewrite Forall_app, Forall_cons in Hw. destruct Hw as (_ & _ & Hw). apply (read_loop_meets 0); [done..| |done].
      apply Forall_forall. intros x Hx. rewrite Forall_forall in Ha, Hw. destruct (Ha x Hx) as [_ [d Hd]]. specialize (Hw x Hx).
      unfold is_write in Hw. by rewrite Hd in Hw.
    + rewrite Forall_app, Forall_cons in Hl. by eapply read_loop_meets; [..|apply Hl|].
Qed.

(** A read that meets no estimate does not depend on which entries are estimates. *)
Definition finished (e : TxnIndex * Entry V) : TxnIndex * Entry V := (e.1, {| cell := cell e.2; flag := Done |}).

Lemma read_loop_finished base iter a : (forall j, read_loop base iter a <> Err (Dependency j)) ->
  read_loop base iter a = read_loop base (finished <$> iter) a.
Proof using Type.
  revert a. induction iter as [|[i [c f]] iter IH]; intros a Hr; [done|]. simpl in *.
  destruct f; [|by destruct (Hr i)]. destruct c as [inc data|d [sc|]]; [done|done|]. simpl in *.
  destruct a as [[a|]|]; [|by apply IH..]. by destruct (DeltaOp.merge_with_previous_delta a d); [apply IH..|].
Qed.

Lemma sequentially_finished b l : sequentially b (finished <$> l) = sequentially b l.
Proof using Type. unfold sequentially. generalize (@Nothing). induction l as [|e l IH]; intros s; [done|]. apply IH. Qed.

Lemma shortcuts_ok_finished b l : shortcuts_ok b l -> shortcuts_ok b (finished <$> l).
Proof using Type.
  intros Hs l1 i d v f l2 E. apply fmap_app_inv in E as (k1 & k2 & E1 & E2 & ->). destruct k2 as [|[i' [c f']] k2]; [done|].
  injection E2 as <- Ec _ _. simpl in Ec. subst. rewrite sequentially_finished. by apply (Hs k1 i d v f' k2).
Qed.

Lemma read_unmet v b i : 0 <= b -> aggregator_base_value v = None \/ aggregator_base_value v = Some b ->
  key_entries_ok (below i (versioned_map v)) -> shortcuts_ok b (below i (versioned_map v)) ->
  (forall j, ~ meets_estimate (below i (versioned_map v)) j) ->
  outcome_seen b (read v i) = Some (sequentially b (below i (versioned_map v))).
Proof using bcs_laws.
  intros Hb Hbase Hl Hs Hm. pose proof (fun j => read_meets_iff v i j Hl) as Hiff. unfold read in *.
  rewrite read_loop_finished by (intros j Hj; by apply (Hm j), Hiff). rewrite <-sequentially_finished, fmap_reverse.
  apply shortcuts_ok_finished in Hs. set (l := below i (versioned_map v)) in *.
  assert (Forall (fun e => flag e.2 = Done) (finished <$> l)) as Hf by (rewrite Forall_fmap; by apply Forall_true).
  destruct Hl as [Hl|[limit Hl]]; [apply read_loop_writes; [|done]|apply (read_loop_sequential limit); [done..| |done|done]].
  all: rewrite Forall_fmap; eapply Forall_impl; [exact Hl|]; by intros [? []].
Qed.

(** ** Entries below an index *)
Lemma below_insert i j (m : list (TxnIndex * Entry V)) e : i <= j -> below i (BTreeMap.insert m j e) = below i m.
Proof using Type.
  intros Hij. unfold below. induction m as [|[k e'] m IH]; simpl; [by rewrite (proj2 (Z.ltb_ge _ _)) by lia|].
  destruct (Z.ltb_spec j k); simpl; [by rewrite (proj2 (Z.ltb_ge j i)) by lia|].
  destruct (Z.eqb_spec j k) as [->|]; simpl; [by rewrite !(proj2 (Z.ltb_ge k i)) by lia|]. by rewrite IH.
Qed.

Lemma below_remove i j (m : list (TxnIndex * Entry V)) : i <= j -> below i (BTreeMap.remove m j) = below i m.
Proof using Type.
  intros Hij. unfold below, BTreeMap.remove. induction m as [|[k e'] m IH]; simpl; [done|].
  destruct (Z.eqb_spec k j) as [->|]; simpl; [by rewrite (proj2 (Z.ltb_ge j i)) by lia|]. by rewrite IH.
Qed.

Lemma elem_of_below i (m : list (TxnIndex * Entry V)) e : e ∈ below i m <-> e ∈ m /\ e.1 < i.
Proof using Type. unfold below. rewrite !list_elem_of_In, filter_In, Z.ltb_lt. done. Qed.

Lemma below_app i (l1 l2 : list (TxnIndex * Entry V)) : below i (l1 ++ l2) = below i l1 ++ below i l2.
Proof using Type. apply List.filter_app. Qed.

Lemma below_all i (l : list (TxnIndex * Entry V)) : (forall e, e ∈ l -> e.1 < i) -> below i l = l.
Proof using Type.
  induction l as [|e l IH]; intros Hl; [done|]. unfold below in *. simpl. rewrite (proj2 (Z.ltb_lt _ _)) by (apply Hl; by left).
  f_equal. apply IH. intros. apply Hl. by right.
Qed.

Lemma below_none i (l : list (TxnIndex * Entry V)) : (forall e, e ∈ l -> i <= e.1) -> below i l = [].
Proof using Type.
  induction l as [|e l IH]; intros Hl; [done|]. unfold below in *. simpl. rewrite (proj2 (Z.ltb_ge _ _)) by (apply Hl; by left).
  apply IH. intros. apply Hl. by right.
Qed.

Lemma ordered_split (m l1 : list (TxnIndex * Entry V)) j e l2 : BTreeMap.ordered m -> m = l1 ++ (j, e) :: l2 ->
  (forall x, x ∈ l1 -> x.1 < j) /\ (forall x, x ∈ l2 -> j < x.1).
Proof using Type.
  intros Ho ->. unfold BTreeMap.ordered in Ho. rewrite fmap_app, fmap_cons in Ho. split.
  - intros x Hx. apply (StronglySorted_app_1_elem_of Z.lt _ _ _ _ Ho); [|by left]. apply list_elem_of_fmap. by exists x.
  - apply StronglySorted_app_1_r, StronglySorted_inv in Ho as [_ Hf]. rewrite Forall_forall in Hf. intros x Hx. apply Hf.
    apply list_elem_of_fmap. by exists x.
Qed.

Lemma below_ordered i (m : list (TxnIndex * Entry V)) : BTreeMap.ordered m -> BTreeMap.ordered (below i m).
Proof using Type.
  induction m as [|[k e] m IH]; intros Ho; [done|]. pose proof (BTreeMap.ordered_cons_inv _ _ _ Ho) as [Hm Hlt].
  unfold below in *. simpl. destruct (k <? i); [|by apply IH]. unfold BTreeMap.ordered. rewrite fmap_cons. constructor; [by apply IH|].
  rewrite Forall_forall. intros k' ([k1 e1] & -> & Hin)%list_elem_of_fmap. apply (Hlt k1 e1).
  apply list_elem_of_In. apply list_elem_of_In, filter_In in Hin. tauto.
Qed.

Lemma below_below i j (m : list (TxnIndex * Entry V)) : j <= i -> below j (below i m) = below j m.
Proof using Type.
  intros Hji. unfold below. induction m as [|[k e] m IH]; simpl; [done|]. destruct (Z.ltb_spec k i); simpl; rewrite IH; [done|].
  by rewrite (proj2 (Z.ltb_ge k j)) by lia.
Qed.

Lemma below_prefix i (m l1 l2 : list (TxnIndex * Entry V)) j e : BTreeMap.ordered m ->
  below i m = l1 ++ (j, e) :: l2 -> l1 = below j m.
Proof using Type.
  intros Ho E. assert (j < i) as Hj.
  { assert ((j, e) ∈ below i m) as Hin%elem_of_below by (rewrite E; apply elem_of_app; right; by left). by destruct Hin. }
  rewrite <-(below_below i j) by lia. rewrite E. destruct (ordered_split _ _ _ _ _ (below_ordered i m Ho) E) as [H1 H2].
  change ((j, e) :: l2) with ([(j, e)] ++ l2). rewrite !below_app. rewrite (below_all j l1) by done.
  rewrite (below_none j [(j, e)]), (below_none j l2); [by rewrite !app_nil_r| |].
  - intros x Hx. specialize (H2 x Hx). lia.
  - intros x ->%list_elem_of_singleton. simpl. lia.
Qed.

Lemma below_succ i (m : list (TxnIndex * Entry V)) e : BTreeMap.ordered m -> BTreeMap.get m i = Some e ->
  below (i + 1) m = below i m ++ [(i, e)].
Proof using Type.
  intros Ho Hg%BTreeMap.get_elem_of; [|done]. apply list_elem_of_split in Hg as (l1 & l2 & E).
  destruct (ordered_split _ _ _ _ _ Ho E) as [H1 H2]. subst m.
  change ((i, e) :: l2) with ([(i, e)] ++ l2). rewrite !below_app.
  rewrite (below_none i [(i, e)]), (below_none i l2), (below_none (i + 1) l2), (below_all i l1), (below_all (i + 1) l1),
    (below_all (i + 1) [(i, e)]); [by rewrite !app_nil_r| ..];
    try (intros x Hx; specialize (H1 x Hx) || specialize (H2 x Hx); lia);
    intros x ->%list_elem_of_singleton; simpl; lia.
Qed.

(** ** Histories

    The executor works on entries of transactions that are not committed yet; it
    commits transactions in order, when their entries are no estimates, and then
    records the values of their deltas.  [stored] is the value of an aggregator in
    storage and [limit_of] its limit; other keys have none. *)
Context {K : Type} `{!EqDecision K, !Countable K} (stored : K -> Z) (limit_of : K -> option Z).

Inductive mv_op :=
  | OpWrite (key : K) (version : Version) (data : V)
  | OpDelta (key : K) (txn_idx : TxnIndex) (delta : DeltaOp.t)
  | OpEstimate (key : K) (txn_idx : TxnIndex)
  | OpDelete (key : K) (txn_idx : TxnIndex)
  | OpBase (key : K)
  | OpMaterialize (key : K) (txn_idx : TxnIndex)
  | OpCommit.

Definition mv_state : Type := VersionedData V K * TxnIndex.

Definition entries_of (data : VersionedData V K) (key : K) : list (TxnIndex * Entry V) :=
  match data !! key with Some v => versioned_map v | None => [] end.

Definition entry_fits (key : K) (e : Entry V) : Prop :=
  match limit_of key with
  | Some limit => entry_ok limit e
  | None => is_write e
  end.

(** What the executor keeps to. *)
Definition allowed (st : mv_state) (op : mv_op) : Prop :=
  match op with
  | OpWrite key (txn_idx, incarnation) data => st.2 <= txn_idx /\ entry_fits key (new_write_from incarnation data)
  | OpDelta key txn_idx delta => st.2 <= txn_idx /\ entry_fits key (new_delta_from delta)
  | OpEstimate _ txn_idx | OpDelete _ txn_idx => st.2 <= txn_idx
  | OpBase _ => True
  | OpMaterialize _ txn_idx => 0 <= txn_idx < st.2
  | OpCommit => forall key e, BTreeMap.get (entries_of st.1 key) st.2 = Some e -> flag e = Done
  end.

Definition perform (op : mv_op) (st : mv_state) : mv_state * outcome unit unit :=
  let quiet {E A} (r : VersionedData V K * outcome E A) :=
    ((r.1, st.2), match r.2 with Panic => Panic | _ => Ok tt end) in
  match op with
  | OpWrite key version data => quiet (write key version data st.1)
  | OpDelta key txn_idx delta => quiet (add_delta key txn_idx delta st.1)
  | OpEstimate key txn_idx => quiet (mark_estimate key txn_idx st.1)
  | OpDelete key txn_idx => quiet (delete_entry key txn_idx st.1)
  | OpBase key => quiet (set_aggregator_base_value key (stored key) st.1)
  | OpMaterialize key txn_idx => quiet (materialize_delta key txn_idx st.1)
  | OpCommit => ((st.1, st.2 + 1), Ok tt)
  end.

Inductive mv_reachable : mv_state -> Prop :=
  | mv_start : mv_reachable (∅, 0)
  | mv_step st op : mv_reachable st -> allowed st op -> mv_reachable (perform op st).1.

Record value_ok (key : K) (c : TxnIndex) (v : VersionedValue V) : Prop := {
  value_ordered : BTreeMap.ordered (versioned_map v);
  value_base : aggregator_base_value v = None \/ aggregator_base_value v = Some (stored key);
  value_entries i e : BTreeMap.get (versioned_map v) i = Some e -> entry_fits key e;
  value_done i e : BTreeMap.get (versioned_map v) i = Some e -> i < c -> flag e = Done;
  value_shortcuts i d x f : BTreeMap.get (versioned_map v) i = Some {| cell := DeltaCell d (Some x); flag := f |} ->
    i < c /\ on_top (stored key) (sequentially (stored key) (below i (versioned_map v))) (meaning d) = Value x }.

Definition mv_ok (st : mv_state) : Prop := forall key v, st.1 !! key = Some v -> value_ok key st.2 v.

Lemma value_entries_ok key c v i : value_ok key c v -> key_entries_ok (below i (versioned_map v)).
Proof using Type.
  intros Hv. assert (forall e, e ∈ below i (versioned_map v) -> entry_fits key e.2) as He.
  { intros [j e] [Hin _]%elem_of_below. eapply value_entries, BTreeMap.get_elem_of; [done|eapply value_ordered, Hv|done]. }
  unfold key_entries_ok, entry_fits in *. destruct (limit_of key) as [limit|]; [right; exists limit|left]; by apply Forall_forall.
Qed.

Lemma value_shortcuts_ok key c v i : value_ok key c v -> shortcuts_ok (stored key) (below i (versioned_map v)).
Proof using Type.
  intros Hv l1 j d x f l2 E. rewrite (below_prefix _ _ _ _ _ _ (value_ordered _ _ _ Hv) E).
  eapply value_shortcuts, BTreeMap.get_elem_of; [done|eapply value_ordered, Hv|].
  assert ((j, {| cell := DeltaCell d (Some x); flag := f |}) ∈ below i (versioned_map v)) as [? _]%elem_of_below; [|done].
  rewrite E. apply elem_of_app. right. by left.
Qed.

Lemma value_read key c v i : 0 <= stored key -> value_ok key c v ->
  Forall (fun e => flag e.2 = Done) (below i (versioned_map v)) ->
  outcome_seen (stored key) (read v i) = Some (sequentially (stored key) (below i (versioned_map v))).
Proof using bcs_laws.
  intros Hs Hv Hf. apply read_sequential; [done|apply Hv|by eapply value_entries_ok|done|by eapply value_shortcuts_ok].
Qed.

Lemma new_value_ok key c : value_ok key c new_versioned_value.
Proof using Type. split; simpl; try done; [constructor|by left]. Qed.

(** A change at an index that is not committed. *)
Lemma insert_ok key c v i e : c <= i -> value_ok key c v -> entry_fits key e ->
  match cell e with DeltaCell _ (Some _) => False | _ => True end ->
  value_ok key c (with_map v (BTreeMap.insert (versioned_map v) i e)).
Proof using Type.
  intros Hi Hv He Hn. split; simpl.
  - apply BTreeMap.insert_ordered, Hv.
  - apply Hv.
  - intros j e' Hg. rewrite BTreeMap.get_insert in Hg. destruct (Z.eqb_spec j i); [by injection Hg as <-|]. by eapply value_entries.
  - intros j e' Hg Hj. rewrite BTreeMap.get_insert in Hg. destruct (Z.eqb_spec j i); [lia|]. by eapply value_done.
  - intros j d x f Hg. rewrite BTreeMap.get_insert in Hg. destruct (Z.eqb_spec j i); [injection Hg as ->; done|].
    destruct (value_shortcuts _ _ _ Hv _ _ _ _ Hg) as [Hj E]. split; [done|]. by rewrite below_insert by lia.
Qed.

Lemma remove_ok key c v i : c <= i -> value_ok key c v ->
  value_ok key c (with_map v (BTreeMap.remove (versioned_map v) i)).
Proof using Type.
  intros Hi Hv. split; simpl.
  - apply BTreeMap.remove_ordered, Hv.
  - apply Hv.
  - intros j e' Hg. rewrite BTreeMap.get_remove in Hg. destruct (Z.eqb_spec j i); [done|]. by eapply value_entries.
  - intros j e' Hg Hj. rewrite BTreeMap.get_remove in Hg. destruct (Z.eqb_spec j i); [lia|]. by eapply value_done.
  - intros j d x f Hg. rewrite BTreeMap.get_remove in Hg. destruct (Z.eqb_spec j i); [done|].
    destruct (value_shortcuts _ _ _ Hv _ _ _ _ Hg) as [Hj E]. split; [done|]. by rewrite below_remove by lia.
Qed.

(** Recording a value does not change what the entries mean. *)
Lemma sequentially_record b j i (m : list (TxnIndex * Entry V)) d sc x f : BTreeMap.ordered m ->
  BTreeMap.get m i = Some {| cell := DeltaCell d sc; flag := f |} ->
  sequentially b (below j (BTreeMap.insert m i {| cell := DeltaCell d (Some x); flag := f |})) = sequentially b (below j m).
Proof using Type.
  intros Ho Hg. unfold sequentially. generalize Nothing as s.
  revert Ho Hg. induction m as [|[k e] m IH]; intros Ho Hg s; [done|]. simpl in Hg |- *.
  destruct (Z.eqb_spec i k) as [<-|Hne].
  - injection Hg as ->. rewrite Z.ltb_irrefl. unfold below. simpl. by destruct (i <? j).
  - apply BTreeMap.ordered_cons_inv in Ho as [Ho Hlt]. apply BTreeMap.get_elem_of in Hg as Hin; [|done].
    specialize (Hlt _ _ Hin). rewrite (proj2 (Z.ltb_ge _ _)) by lia. unfold below in *. simpl.
    destruct (k <? j); simpl; by apply IH.
Qed.

Lemma done_below key c v i : value_ok key c v -> i <= c -> Forall (fun e => flag e.2 = Done) (below i (versioned_map v)).
Proof using Type.
  intros Hv Hi. apply Forall_forall. intros [j e] [Hin Hj]%elem_of_below. simpl in Hj.
  eapply (value_done _ _ _ Hv j); [apply BTreeMap.get_elem_of; [apply Hv|done]|lia].
Qed.

Lemma record_ok key c v i d sc x f : 0 <= stored key -> i < c -> value_ok key c v ->
  BTreeMap.get (versioned_map v) i = Some {| cell := DeltaCell d sc; flag := f |} ->
  on_top (stored key) (sequentially (stored key) (below i (versioned_map v))) (meaning d) = Value x ->
  value_ok key c (with_map v (BTreeMap.insert (versioned_map v) i {| cell := DeltaCell d (Some x); flag := f |})).
Proof using Type.
  intros Hs Hi Hv Hg Ex. split; simpl.
  - apply BTreeMap.insert_ordered, Hv.
  - apply Hv.
  - intros j e' Hj. rewrite BTreeMap.get_insert in Hj. destruct (Z.eqb_spec j i); [|by eapply value_entries].
    injection Hj as <-. pose proof (value_entries _ _ _ Hv _ _ Hg) as He. unfold entry_fits in *. by destruct (limit_of key).
  - intros j e' Hj Hc. rewrite BTreeMap.get_insert in Hj. destruct (Z.eqb_spec j i); [|by eapply value_done].
    injection Hj as <-. by apply (value_done _ _ _ Hv _ _ Hg).
  - intros j d' x' f' Hj. rewrite BTreeMap.get_insert in Hj.
    rewrite (sequentially_record _ _ _ _ _ _ _ _ (value_ordered _ _ _ Hv) Hg). destruct (Z.eqb_spec j i) as [->|]; [|by eapply value_shortcuts].
    injection Hj as <- <- <-. done.
Qed.

Lemma mv_insert st key v : mv_ok st -> value_ok key st.2 v -> mv_ok (<[key := v]> st.1, st.2).
Proof using Type.
  intros Hst Hv key' v' Hl. simpl in *. apply (lookup_insert_Some (M:=gmap K)) in Hl as [[<- <-]|[_ ?]]; [done|by apply Hst].
Qed.

Lemma default_ok st key : mv_ok st -> value_ok key st.2 (default new_versioned_value (st.1 !! key)).
Proof using Type. intros Hst. destruct (st.1 !! key) eqn:E; [by apply Hst|apply new_value_ok]. Qed.

(** The entry and the value that a commit records. *)
Lemma materialize_run key c v i value entry : 0 <= stored key -> value_ok key c v -> 0 <= i < c ->
  read v (i + 1) = Ok (Resolved value) -> BTreeMap.get (versioned_map v) i = Some entry ->
  sequentially (stored key) (below (i + 1) (versioned_map v)) = Value value /\
  forall E entry', @record_delta_shortcut V E entry value = Ok entry' ->
    value_ok key c (with_map v (BTreeMap.insert (versioned_map v) i entry')).
Proof using bcs_laws.
  intros Hs Hv Hi Hr Hg. pose proof (value_read key c v (i + 1) Hs Hv ltac:(eapply done_below; [done|lia])) as Hq.
  rewrite Hr in Hq. injection Hq as Hq. split; [done|]. intros E entry' Hrec.
  rewrite (below_succ _ _ _ (value_ordered _ _ _ Hv) Hg), sequentially_app in Hq. simpl in Hq. unfold after in Hq. simpl in Hq.
  destruct entry as [[inc data|d sc] f]; [done|]. unfold record_delta_shortcut in Hrec. simpl in *.
  destruct sc as [y|]; [destruct (value =? y); [|done]|]; simpl in Hrec; injection Hrec as <-;
    (eapply record_ok; [done|lia|done|done|done]).
Qed.

Lemma perform_ok st op : (forall key, 0 <= stored key) -> mv_ok st -> allowed st op -> mv_ok (perform op st).1.
Proof using bcs_laws.
  intros Hs Hst Ha. destruct op as [key [i inc] data|key i d|key i|key i|key|key i|]; simpl in *.
  - destruct Ha as [Hi He]. apply mv_insert; [done|]. apply insert_ok; [done|by apply default_ok|done|done].
  - destruct Ha as [Hi He]. apply mv_insert; [done|]. apply insert_ok; [done|by apply default_ok|done|done].
  - unfold mark_estimate. destruct (st.1 !! key) as [v|] eqn:Ev; [|by destruct st]. pose proof (Hst _ _ Ev) as Hv.
    destruct (BTreeMap.get (versioned_map v) i) as [e|] eqn:Eg; [|by destruct st]. simpl. apply mv_insert; [done|].
    apply insert_ok; [done|done| |].
    + pose proof (value_entries _ _ _ Hv _ _ Eg) as He. unfold entry_fits in *. by destruct (limit_of key).
    + destruct e as [[?|d [x|]] f]; simpl; try done. destruct (value_shortcuts _ _ _ Hv _ _ _ _ Eg) as [? _]. lia.
  - unfold delete_entry. destruct (st.1 !! key) as [v|] eqn:Ev; [|by destruct st]. simpl. apply mv_insert; [done|].
    apply remove_ok; [done|]. by apply Hst.
  - unfold set_aggregator_base_value. destruct (st.1 !! key) as [v|] eqn:Ev; [|by destruct st]. simpl.
    apply mv_insert; [done|]. destruct (Hst _ _ Ev) as [H1 H2 H3 H4 H5]. split; simpl; try done.
    destruct H2 as [->| ->]; by right.
  - unfold materialize_delta. destruct (st.1 !! key) as [v|] eqn:Ev; [|by destruct st]. unfold u32_succ.
    destruct (i + 1 <? 2 ^ 32); mstep; [|by destruct st]. destruct (read v (i + 1)) as [[value|]|[]|] eqn:Er; try by destruct st.
    destruct (BTreeMap.get (versioned_map v) i) as [e|] eqn:Eg; [|by destruct st].
    destruct (materialize_run key st.2 v i value e (Hs key) (Hst _ _ Ev) Ha Er Eg) as [_ Hrec].
    destruct (record_delta_shortcut e value) as [e'| |] eqn:Erec; try by destruct st. simpl. apply mv_insert; [done|].
    by eapply Hrec.
  - intros key v Hl. simpl in *. destruct (Hst _ _ Hl) as [H1 H2 H3 H4 H5]. split; try done; simpl.
    + intros i e Hg Hi. destruct (Z.lt_trichotomy i st.2) as [?|[->|?]]; [by eapply H4| |lia].
      apply (Ha key). unfold entries_of. by rewrite Hl.
    + intros i d x f Hg. destruct (H5 _ _ _ _ Hg). split; [lia|done].
Qed.

Lemma mv_reachable_ok st : (forall key, 0 <= stored key) -> mv_reachable st -> mv_ok st.
Proof using bcs_laws. intros Hs. induction 1 as [|st op Hst IH Ha]; [by intros key v|by apply perform_ok]. Qed.

Lemma fetch_sequential st key i : (forall key, 0 <= stored key) -> mv_ok st ->
  Forall (fun e => flag e.2 = Done) (below i (entries_of st.1 key)) ->
  outcome_seen (stored key) (fetch_data st.1 key i) = Some (sequentially (stored key) (below i (entries_of st.1 key))).
Proof using bcs_laws.
  intros Hs Hst Hf. unfold fetch_data, entries_of in *. destruct (st.1 !! key) as [v|] eqn:Ev; [|done].
  eapply value_read; [done|by eapply Hst|done].
Qed.

Lemma done_below_commit st key i : mv_ok st -> i <= st.2 -> Forall (fun e => flag e.2 = Done) (below i (entries_of st.1 key)).
Proof using Type.
  intros Hst Hi. unfold entries_of. destruct (st.1 !! key) as [v|] eqn:Ev; [|done].
  eapply done_below; [by eapply Hst|done].
Qed.

(** C8: whatever writes, deltas, estimates, deletions, base values and commits the
    map has gone through, a read by transaction [i] reports a dependency on [j]
    exactly if it meets an estimate of [j]: all entries between them are finished
    deltas without a recorded value.  Otherwise it gives what the entries of the
    transactions below [i] mean in order: the last write, or the value that the
    deltas make of the last write or of the value in storage, or a failure when one
    of these deltas overflows or underflows on the way.  An unresolved read gives a
    delta that makes exactly that of the stored value.  The values recorded at commits
    and the merging of deltas from the top down are thus only shortcuts. *)
Theorem reads_are_sequential st key i : (forall key, 0 <= stored key) -> mv_reachable st ->
  let l := below i (entries_of st.1 key) in
  (forall j, fetch_data st.1 key i = Err (Dependency j) <-> meets_estimate l j) /\
  ((forall j, ~ meets_estimate l j) -> outcome_seen (stored key) (fetch_data st.1 key i) = Some (sequentially (stored key) l)).
Proof using bcs_laws.
  intros Hs Hst%mv_reachable_ok; [|done]. unfold fetch_data, entries_of. destruct (st.1 !! key) as [v|] eqn:Ev.
  - specialize (Hst _ _ Ev). split.
    + intros j. apply read_meets_iff. by eapply value_entries_ok.
    + apply read_unmet; [done|apply Hst|by eapply value_entries_ok|by eapply value_shortcuts_ok].
  - split; [|done]. intros j. split; [done|]. by intros ([|] & e & above & E & _).
Qed.

(** A version that a read gives is in the map. *)
Lemma read_loop_versioned base iter a j inc (data : V) : read_loop base iter a = Ok (Versioned (j, inc) data) ->
  exists f, (j, {| cell := WriteCell inc data; flag := f |}) ∈ iter.
Proof using Type.
  assert (forall (x : option DeltaOp.t) y, apply_accumulated x y <> Ok (Versioned (j, inc) data)) as Happ.
  { intros [x|] y; unfold apply_accumulated; [|done]. by destruct (DeltaOp.apply_to x y). }
  revert a. induction iter as [|[i e] iter IH]; intros a Hr; simpl in Hr.
  { destruct a as [[a|]|]; [|done|done]. destruct base; [by apply Happ in Hr|done]. }
  assert (forall a', read_loop base iter a' = Ok (Versioned (j, inc) data) ->
    exists f, (j, {| cell := WriteCell inc data; flag := f |}) ∈ (i, e) :: iter) as IH'.
  { intros a' H'. destruct (IH a' H') as [f ?]. exists f. by right. }
  destruct e as [c f]. simpl in Hr. destruct (bool_decide _); [done|]. destruct c as [inc' data'|d sc].
  - destruct a as [a|]; [|injection Hr as -> -> ->; exists f; by left].
    destruct (from_write data') as [[y|]|err|]; simpl in Hr; [by apply Happ in Hr| |done|done].
    injection Hr as -> -> ->. exists f. by left.
  - destruct a as [a|]; (destruct sc; [try done; by apply Happ in Hr|]); [|by apply IH' in Hr].
    destruct a as [a|]; [|by apply IH' in Hr]. destruct (DeltaOp.merge_with_previous_delta a d); [by apply IH' in Hr..|done].
Qed.

Lemma fetch_versioned st key i j inc (data : V) : mv_ok st -> fetch_data st.1 key i = Ok (Versioned (j, inc) data) ->
  exists f, BTreeMap.get (entries_of st.1 key) j = Some {| cell := WriteCell inc data; flag := f |}.
Proof using Type.
  intros Hst. unfold fetch_data, entries_of. destruct (st.1 !! key) as [v|] eqn:Ev; [|done]. intros Hr.
  apply read_loop_versioned in Hr as [f Hin]. exists f. apply elem_of_reverse, elem_of_below in Hin as [Hin _].
  by apply BTreeMap.get_elem_of; [eapply value_ordered, Hst|].
Qed.

(** Only aggregators have unresolved reads. *)
Lemma fetch_unresolved st key i op : mv_ok st -> fetch_data st.1 key i = Err (Unresolved op) -> limit_of key <> None.
Proof using Type.
  intros Hst. unfold fetch_data. destruct (st.1 !! key) as [v|] eqn:Ev; [|done]. intros Hr Hl.
  pose proof (Hst _ _ Ev) as Hv. unfold read in Hr.
  destruct (reverse (below i (versioned_map v))) as [|[j e] iter] eqn:E; [done|].
  assert ((j, e) ∈ below i (versioned_map v)) as [Hin _]%elem_of_below by (apply elem_of_reverse; rewrite E; by left).
  apply BTreeMap.get_elem_of in Hin; [|by eapply value_ordered]. pose proof (value_entries _ _ _ Hv _ _ Hin) as He.
  unfold entry_fits in He. rewrite Hl in He. unfold is_write in He. simpl in Hr.
  destruct (bool_decide _); [done|]. by destruct (cell e).
Qed.

(** The delta of an unresolved read is as good as those it comes from. *)
Lemma unresolved_ok limit base iter a op : Forall (fun e => entry_ok limit e.2) iter ->
  match a with Some a => accumulator_ok limit a | None => True end ->
  read_loop base iter a = Err (Unresolved op) -> delta_ok op /\ DeltaOp.limit op = limit.
Proof using Type.
  assert (forall (x : option DeltaOp.t) y, apply_accumulated (V:=V) x y <> Err (Unresolved op)) as Happ.
  { intros [x|] y; unfold apply_accumulated; [|done]. by destruct (DeltaOp.apply_to x y). }
  intros Hl. revert a. induction Hl as [|[j e] iter He Hl IH]; intros a Ha Hr; simpl in Hr.
  { destruct a as [[a|]|]; [|done|done]. destruct base; [by apply Happ in Hr|by injection Hr as <-]. }
  destruct (bool_decide _); [done|]. unfold entry_ok in He. simpl in He. destruct (cell e) as [inc data|d sc].
  - destruct a as [a|]; [|done]. destruct (from_write data) as [[y|]|err|] eqn:E; simpl in Hr; [by apply Happ in Hr|done| |done].
    by apply from_write_not_err in E.
  - destruct He as [Hd El]. destruct a as [a|]; (destruct sc; [try done; by apply Happ in Hr|]).
    + destruct a as [a|]; [|by apply (IH (Some None))]. destruct Ha as [Ha Ela].
      pose proof (merge_gives a d Ha Hd ltac:(congruence)) as Hm.
      destruct (DeltaOp.merge_with_previous_delta a d) as [m|err|]; [|by apply (IH (Some None))|done].
      destruct Hm as (? & ? & _). apply (IH (Some (Some m))); [|done]. split; [done|congruence].
    + by apply (IH (Some (Some d))).
Qed.

Lemma record_again E key c v i d sc f value : value_ok key c v ->
  BTreeMap.get (versioned_map v) i = Some {| cell := DeltaCell d sc; flag := f |} ->
  on_top (stored key) (sequentially (stored key) (below i (versioned_map v))) (meaning d) = Value value ->
  exists e, @record_delta_shortcut V E {| cell := DeltaCell d sc; flag := f |} value = Ok e.
Proof using Type.
  intros Hv Hg Hs. unfold record_delta_shortcut. simpl. destruct sc as [y|]; [|by eexists].
  destruct (value_shortcuts _ _ _ Hv _ _ _ _ Hg) as [_ Hy]. rewrite Hs in Hy. injection Hy as <-. rewrite Z.eqb_refl. by eexists.
Qed.

Lemma materialize_gives st key i d sc f : (forall key, 0 <= stored key) -> mv_ok st ->
  0 <= i < st.2 -> i + 1 < 2 ^ 32 ->
  BTreeMap.get (entries_of st.1 key) i = Some {| cell := DeltaCell d sc; flag := f |} ->
  match sequentially (stored key) (below (i + 1) (entries_of st.1 key)), (materialize_delta key i st.1).2 with
  | Value v, Ok v' => v' = v
  | Value v, Err op => delta_ok op /\ DeltaOp.apply_to op (stored key) = Ok v
  | Value _, Panic => False
  | Failed, Err op => delta_ok op /\ is_ok (DeltaOp.apply_to op (stored key)) = false
  | _, o => o = Panic
  end.
Proof using bcs_laws.
  intros Hs Hst Hi Hu Hg. unfold entries_of in *. unfold materialize_delta. destruct (st.1 !! key) as [v|] eqn:Ev; [|done].
  pose proof (Hst _ _ Ev) as Hv. unfold u32_succ. rewrite (proj2 (Z.ltb_lt _ _)) by done. mstep.
  pose proof (value_read key st.2 v (i + 1) (Hs key) Hv ltac:(eapply done_below; [done|lia])) as Hq.
  rewrite (below_succ _ _ _ (value_ordered _ _ _ Hv) Hg), sequentially_app in Hq |- *. simpl in Hq |- *. unfold after in *. simpl in *.
  destruct (read v (i + 1)) as [[value|]|[|op|?|]|] eqn:Er; simpl in Hq; try done; injection Hq as Hq; rewrite <-Hq; simpl; try done.
  - destruct (record_again DeltaOp.t key st.2 v i d sc f value) as [e He]; [done..|]. rewrite Hg, He. done.
  - assert (exists limit, delta_ok op /\ DeltaOp.limit op = limit) as (limit & Hop & _).
    { destruct (value_entries_ok key st.2 v (i + 1) Hv) as [Hw|[limit Hl]].
      - rewrite (below_succ _ _ _ (value_ordered _ _ _ Hv) Hg), Forall_app, Forall_singleton in Hw. by destruct Hw.
      - exists limit. eapply (unresolved_ok limit _ _ None); [|done|exact Er]. by apply Forall_reverse. }
    pose proof (apply_to_gives op (stored key) Hop (Hs key)) as Ho. destruct (meaning op (stored key)) as [w|]; simpl.
    + split; [done|]. by eapply gives_Ok.
    + destruct (DeltaOp.apply_to op (stored key)); done.
Qed.

(** C19: at a committed transaction's delta, materializing gives the value that all
    entries up to it mean, when they mean one; when the base value is not known yet,
    it gives back a delta that makes that value of the stored one.  It panics only
    when the deltas fail or the aggregator was deleted below. *)
Theorem materialized_delta_exact st key i d sc f : (forall key, 0 <= stored key) -> mv_reachable st ->
  0 <= i < st.2 -> i + 1 < 2 ^ 32 ->
  BTreeMap.get (entries_of st.1 key) i = Some {| cell := DeltaCell d sc; flag := f |} ->
  match sequentially (stored key) (below (i + 1) (entries_of st.1 key)), (materialize_delta key i st.1).2 with
  | Value v, Ok v' => v' = v
  | Value v, Err op => delta_ok op /\ DeltaOp.apply_to op (stored key) = Ok v
  | Value _, Panic => False
  | Failed, Err op => delta_ok op /\ is_ok (DeltaOp.apply_to op (stored key)) = false
  | _, o => o = Panic
  end.
Proof using bcs_laws. intros Hs Hst. apply materialize_gives; [done|by apply mv_reachable_ok]. Qed.
End sequential.

(** ** An example *)
Module MVHashMapExample.
Import ChangeSetExample.

(** One counter of at most 100 that is 25 in storage, and a plain key. *)
Definition in_storage (key : bool) : Z := if key then 25 else 0.
Definition limits (key : bool) : option Z := if key then Some 100 else None.

(** Transactions 0 and 1 add 30 to the counter and take 45; transaction 1 also writes
    the plain key, after an estimate.  Both are committed; the value of the first
    delta is recorded once the base value is known. *)
Definition ops : list (mv_op (V:=WriteOp.t) (K:=bool)) :=
  [OpDelta true 1 (DeltaOp.new (Minus 45) 100 20 45); OpWrite false (1, 0) (WriteOp.Creation [7]);
   OpDelta true 0 (DeltaOp.delta_add 30 100); OpEstimate false 1; OpCommit; OpMaterialize true 0; OpBase true;
   OpMaterialize true 0; OpWrite false (1, 1) (WriteOp.Creation [8]); OpCommit].

Fixpoint all_allowed (ops : list (mv_op (V:=WriteOp.t) (K:=bool))) (st : mv_state (V:=WriteOp.t) (K:=bool)) : Prop :=
  match ops with
  | [] => True
  | op :: ops => allowed limits st op /\ all_allowed ops (perform in_storage op st).1
  end.

Lemma mv_run st l : mv_reachable in_storage limits st -> all_allowed l st ->
  mv_reachable in_storage limits (foldl (fun st op => (perform in_storage op st).1) st l).
Proof. revert st. induction l as [|op l IH]; intros st Hst Ha; [done|]. destruct Ha. apply IH; [by apply mv_step|done]. Qed.

Definition final : mv_state (V:=WriteOp.t) (K:=bool) := foldl (fun st op => (perform in_storage op st).1) (∅, 0) ops.

Lemma final_reachable : mv_reachable in_storage limits final.
Proof.
  apply mv_run; [apply mv_start|]. cbn [all_allowed ops].
  split_and!; try done; try (by (split; [done|]; split; [split; simpl; lia|done])).
  all: intros [] e He; vm_compute in He; simplify_eq; done.
Qed.

Lemma storage_nonneg key : 0 <= in_storage key.
Proof. by destruct key. Qed.

(** A third transaction has written the counter, on top of an estimate of the second. *)
Definition estimated : mv_state (V:=WriteOp.t) (K:=bool) :=
  foldl (fun st op => (perform in_storage op st).1) (∅, 0)
    [OpDelta true 1 (DeltaOp.delta_add 30 100); OpEstimate true 1; OpWrite true (2, 0) (WriteOp.Creation (to_bytes 7));
     OpDelta true 3 (DeltaOp.delta_add 2 100)].

Lemma estimated_reachable : mv_reachable in_storage limits estimated.
Proof.
  apply mv_run; [apply mv_start|]. cbn [all_allowed].
  split_and!; try done; try (by (split; [done|]; split; [split; simpl; lia|done])).
Qed.

Lemma reads_are_sequential_witness :
  outcome_seen 25 (fetch_data final.1 true 2) = Some (Value 10) /\
  outcome_seen 25 (fetch_data estimated.1 true 4) = Some (Value 9) /\
  fetch_data estimated.1 true 2 = Err (Dependency 1).
Proof.
  split; [|split].
  - refine (proj2 (reads_are_sequential in_storage limits final true 2 storage_nonneg final_reachable) _).
    intros j Hj. apply (proj1 (reads_are_sequential in_storage limits final true 2 storage_nonneg final_reachable)) in Hj. discriminate Hj.
  - refine (proj2 (reads_are_sequential in_storage limits estimated true 4 storage_nonneg estimated_reachable) _).
    intros j Hj. apply (proj1 (reads_are_sequential in_storage limits estimated true 4 storage_nonneg estimated_reachable)) in Hj. discriminate Hj.
  - apply (proj1 (reads_are_sequential in_storage limits estimated true 2 storage_nonneg estimated_reachable)).
    exists [], {| cell := DeltaCell (DeltaOp.delta_add 30 100) None; flag := Estimate |}, []. split; [reflexivity|]. split; [reflexivity|constructor].
Defined.

Lemma materialized_delta_exact_witness : (materialize_delta true 1 final.1).2 = Ok 10.
Proof.
  pose proof (materialized_delta_exact in_storage limits final true 1 (DeltaOp.new (Minus 45) 100 20 45) None Done
    storage_nonneg final_reachable ltac:(vm_compute; split; [discriminate|reflexivity]) ltac:(reflexivity) ltac:(vm_compute; reflexivity)) as H.
  vm_compute in H |- *. exact (f_equal Ok H).
Defined.
End MVHashMapExample.
