(* ===== verification/BlockExecutor.v ===== *)
(** * Block execution

    src/aptos-move/block-executor: a block of transactions is executed in parallel
    on the multi-version map, each transaction as often as it takes, and committed in
    order; or sequentially on a map of the latest values.  The virtual machine is a
    parameter: a transaction is a program that reads keys and returns an output or an
    error ([prog]).

    [Sequential] is the loop of [execute_transactions_sequential].  The parallel
    execution is a transition system ([step]) whose steps are the accesses to shared
    data: a read, one write of an output, one mark of an abort, the record of an
    execution, the commit of a transaction, the value of a committed delta.  Steps of
    different transactions interleave freely.  Of the scheduler it keeps what the
    statuses of transactions say: one execution of a transaction at a time, a new
    incarnation each time, commits in order; and its promise that a transaction is
    committed only when its recorded reads validate.  [SchedulerSafety] proves that the
    scheduler keeps it. *)

From S2P Require Import Prelude Collections Aggregator ChangeSet MVHashMap.

(** ** fee_statement.rs *)
Module FeeStatement.
Record t := new {
  total_charge_gas_units : Z;
  execution_gas_units : Z;
  io_gas_units : Z;
  storage_fee_octas : Z;
  storage_fee_refund_octas : Z }.

Definition zero : t := new 0 0 0 0 0.

Definition add_fee_statement {E} (self other : t) : outcome E t :=
  total ← u64_add (total_charge_gas_units self) (total_charge_gas_units other);
  execution ← u64_add (execution_gas_units self) (execution_gas_units other);
  io ← u64_add (io_gas_units self) (io_gas_units other);
  storage ← u64_add (storage_fee_octas self) (storage_fee_octas other);
  refund ← u64_add (storage_fee_refund_octas self) (storage_fee_refund_octas other);
  Ok (new total execution io storage refund).
End FeeStatement.

(** ** task.rs *)
Inductive ExecutionStatus (T E : Type) :=
  | Success (output : T)
  | Abort (error : E)
  | SkipRest (output : T).
#[global] Arguments Success {T E}.
#[global] Arguments Abort {T E}.
#[global] Arguments SkipRest {T E}.

(** ** Types and parameters

    Keys, events, transaction statuses and errors are those of the virtual machine;
    the executables and hashes of modules belong to the caches. *)
Class ExecutorTypes := {
  K : Type;
  K_eq_dec :: EqDecision K;
  K_countable :: Countable K;
  Event : Type;
  Status : Type;
  Error : Type;
  X : Type;
  hasher :: ModuleHasher }.

(** ** output.rs *)
Record VMOutput `{!ExecutorTypes} := {
  change_set : VMChangeSet K Event;
  fee_statement : FeeStatement.t;
  status : Status }.

(** What goes to storage. *)
Record TransactionOutput `{!ExecutorTypes} := {
  write_set : gmap K WriteOp.t;
  output_events : list Event;
  gas_used : Z;
  output_status : Status }.

(** The order of keys, what is asked of statuses and events, the gas limit of a
    block, the storage below it, the output of a skipped transaction, and which keys
    are those of modules. *)
Class ExecutorConfig `{!ExecutorTypes} := {
  key_leb : K -> K -> bool;
  is_discarded : Status -> bool;
  should_restart_execution : list Event -> bool;
  maybe_block_gas_limit : option Z;
  base_view : K -> result (option StateValue.t);
  skip_output : TransactionOutput;
  is_module_path : K -> bool }.

Section executor.
Context {bcs : Bcs128} {types : ExecutorTypes} {config : ExecutorConfig}.

(** [VMOutput::try_materialize]. *)
Definition output_try_materialize (view : K -> result (option Z)) (self : VMOutput) : outcome VMStatus.t VMOutput :=
  if is_discarded (status self) || bool_decide (aggregator_delta_set (change_set self) = ∅) then Ok self
  else
    materialized ← try_materialize key_leb view (change_set self);
    Ok {| change_set := materialized; fee_statement := fee_statement self; status := status self |}.

Definition into_transaction_output_with_materialized_deltas {E} (self : VMOutput) (materialized_deltas : list (K * WriteOp.t)) :
    outcome E TransactionOutput :=
  _ ← assert (length materialized_deltas =? size (aggregator_delta_set (change_set self)))%nat;
  let cs := change_set self in
  let cs :=
    {| resource_write_set := resource_write_set cs; module_write_set := module_write_set cs;
       aggregator_write_set := foldl (fun m '(k, w) => <[k := w]> m) (aggregator_write_set cs) materialized_deltas;
       aggregator_delta_set := aggregator_delta_set cs; events := events cs |} in
  let '(ws, evs) := into_storage_change_set_unchecked cs in
  Ok {| write_set := ws; output_events := evs;
        gas_used := FeeStatement.total_charge_gas_units (fee_statement self); output_status := status self |}.

(** ** The virtual machine

    [execute_single_transaction] as a program over the state view. *)
Inductive prog :=
  | Ret (r : Error + VMOutput)
  | Get (key : K) (continue : result (option StateValue.t) -> prog).

Fixpoint run (view : K -> result (option StateValue.t)) (p : prog) : Error + VMOutput :=
  match p with
  | Ret r => r
  | Get key continue => run view (continue (view key))
  end.

(** The status that [execute_transaction] of vm_wrapper.rs gives a result. *)
Definition status_of (r : Error + VMOutput) : ExecutionStatus VMOutput Error :=
  match r with
  | inr output => if should_restart_execution (events (change_set output)) then SkipRest output else Success output
  | inl e => Abort e
  end.

(** The bytes of a view. *)
Definition view_bytes (view : K -> result (option StateValue.t)) (key : K) : result (option (list Z)) :=
  v ← view key;
  Ok (option_map StateValue.into_bytes v).

(** [execute_transaction] with deltas materialized, as in sequential execution. *)
Definition execute_transaction_materialized {E} (view : K -> result (option StateValue.t)) (p : prog) :
    outcome E (ExecutionStatus VMOutput Error) :=
  match run view p with
  | inr output =>
      output ← expect_ok (output_try_materialize (get_state_value_u128 (view_bytes view)) output);
      Ok (status_of (inr output))
  | inl e => Ok (Abort e)
  end.

Definition reaches_limit {E} (accumulated : FeeStatement.t) : outcome E bool :=
  match maybe_block_gas_limit with
  | Some per_block_gas_limit =>
      accumulated_non_storage_gas ←
        u64_add (FeeStatement.execution_gas_units accumulated) (FeeStatement.io_gas_units accumulated);
      Ok (per_block_gas_limit <=? accumulated_non_storage_gas)
  | None => Ok false
  end.

(** ** Sequential execution *)
Definition unsync : Type := UnsyncMap (V:=WriteOp.t) (X:=X) (K:=K).

(** [LatestView::get_state_value] on the sequential state. *)
Definition unsync_view (data_map : unsync) (state_key : K) : result (option StateValue.t) :=
  match unsync_fetch_data data_map state_key with
  | Some v => Ok (as_state_value v)
  | None => base_view state_key
  end.

(** The writes of an output, in the order in which they are applied. *)
Definition all_writes (output : VMOutput) : list (K * WriteOp.t) :=
  entries key_leb (resource_write_set (change_set output)) ++
  entries key_leb (aggregator_write_set (change_set output)) ++
  entries key_leb (module_write_set (change_set output)).
Definition apply_writes (output : VMOutput) (data_map : unsync) :
    unsync :=
  foldl (fun m '(key, write_op) => unsync_write m key write_op) data_map (all_writes output).

Fixpoint sequential_loop (block : list prog) (data_map : unsync)
    (accumulated : FeeStatement.t) : outcome Error (list TransactionOutput) :=
  match block with
  | [] => Ok []
  | txn :: block =>
      res ← execute_transaction_materialized (unsync_view data_map) txn;
      match res with
      | Abort err => Err err
      | Success output | SkipRest output =>
          let must_skip := match res with SkipRest _ => true | _ => false end in
          _ ← assert (bool_decide (aggregator_delta_set (change_set output) = ∅));
          accumulated ← FeeStatement.add_fee_statement accumulated (fee_statement output);
          committed ← into_transaction_output_with_materialized_deltas output [];
          if must_skip : bool then Ok [committed]
          else
            over ← reaches_limit accumulated;
            if over : bool then Ok [committed]
            else
              ret ← sequential_loop block (apply_writes output data_map) accumulated;
              Ok (committed :: ret)
      end
  end.

Definition execute_transactions_sequential (block : list prog) : outcome Error (list TransactionOutput) :=
  ret ← sequential_loop block new_unsync_map FeeStatement.zero;
  Ok (ret ++ replicate (length block - length ret) skip_output).

(** ** txn_last_input_output.rs

    The paths of modules are the keys themselves. *)
Inductive ReadKind :=
  | ReadVersion (txn_idx : TxnIndex) (incarnation : Incarnation)
  | ReadResolved (value : Z)
  | ReadStorage
  | ReadDeltaApplicationFailure
  | ReadModule.
#[global] Instance read_kind_eq_dec : EqDecision ReadKind.
Proof using Type. solve_decision. Defined.

Record ReadDescriptor := {
  access_path : K;
  read_kind : ReadKind }.

Definition validate_version (self : ReadDescriptor) (version : Version) : bool :=
  let '(txn_idx, incarnation) := version in
  bool_decide (read_kind self = ReadVersion txn_idx incarnation).
Definition validate_resolved (self : ReadDescriptor) (value : Z) : bool := bool_decide (read_kind self = ReadResolved value).
Definition validate_storage (self : ReadDescriptor) : bool :=
  bool_decide (read_kind self = ReadStorage) || bool_decide (read_kind self = ReadModule).
Definition validate_delta_application_failure (self : ReadDescriptor) : bool :=
  bool_decide (read_kind self = ReadDeltaApplicationFailure).

(** What [inputs] and [outputs] hold at each index; nothing before the first record. *)
Record TxnLastInputOutput := {
  inputs : gmap TxnIndex (list ReadDescriptor);
  outputs : gmap TxnIndex (ExecutionStatus VMOutput Error);
  module_writes : gset K;
  module_reads : gset K;
  module_read_write_intersection : bool }.

Definition new_last_input_output : TxnLastInputOutput :=
  {| inputs := ∅; outputs := ∅; module_writes := ∅; module_reads := ∅; module_read_write_intersection := false |}.

(** The set appended to, up to the first path that is in the other. *)
Fixpoint append_and_check (paths : list K) (set_to_append set_to_check : gset K) : gset K * bool :=
  match paths with
  | [] => (set_to_append, false)
  | path :: paths =>
      let set_to_append := {[path]} ∪ set_to_append in
      if bool_decide (path ∈ set_to_check) then (set_to_append, true)
      else append_and_check paths set_to_append set_to_check
  end.

Definition written_modules (output : ExecutionStatus VMOutput Error) : list K :=
  match output with
  | Success output | SkipRest output => (entries key_leb (module_write_set (change_set output))).*1
  | Abort _ => []
  end.
Definition read_modules (input : list ReadDescriptor) : list K :=
  access_path <$> List.filter (fun desc => bool_decide (read_kind desc = ReadModule)) input.

(** An error when a module was both read and written. *)
Definition record (txn_idx : TxnIndex) (input : list ReadDescriptor) (output : ExecutionStatus VMOutput Error) :
    action TxnLastInputOutput string unit := fun self =>
  let store (reads writes : gset K) :=
    {| inputs := <[txn_idx := input]> (inputs self); outputs := <[txn_idx := output]> (outputs self);
       module_writes := writes; module_reads := reads;
       module_read_write_intersection := module_read_write_intersection self |} in
  let fail (reads writes : gset K) :=
    ({| inputs := inputs self; outputs := outputs self; module_writes := writes; module_reads := reads;
        module_read_write_intersection := true |},
     Err "[BlockSTM]: Detect module r/w intersection, will fallback to sequential execution"%string) in
  if module_read_write_intersection self then (store (module_reads self) (module_writes self), Ok tt)
  else
    let '(reads, hit) := append_and_check (read_modules input) (module_reads self) (module_writes self) in
    if hit : bool then fail reads (module_writes self)
    else
      let '(writes, hit) := append_and_check (written_modules output) (module_writes self) reads in
      if hit : bool then fail reads writes else (store reads writes, Ok tt).

(** The keys written, and whether they are those of modules. *)
Definition modified_keys (self : TxnLastInputOutput) (txn_idx : TxnIndex) : list (K * bool) :=
  match outputs self !! txn_idx with
  | Some (Success t | SkipRest t) =>
      let cs := change_set t in
      ((fun k => (k, false)) <$> ((entries key_leb (resource_write_set cs)).*1 ++
        (entries key_leb (aggregator_write_set cs)).*1 ++ (entries key_leb (aggregator_delta_set cs)).*1)) ++
      ((fun k => (k, true)) <$> (entries key_leb (module_write_set cs)).*1)
  | _ => []
  end.

Definition delta_keys (self : TxnLastInputOutput) (txn_idx : TxnIndex) : list K :=
  match outputs self !! txn_idx with
  | Some (Success t | SkipRest t) => (entries key_leb (aggregator_delta_set (change_set t))).*1
  | _ => []
  end.

Definition fee_statement_of (output : ExecutionStatus VMOutput Error) : option FeeStatement.t :=
  match output with
  | Success output | SkipRest output => Some (fee_statement output)
  | Abort _ => None
  end.
Definition block_truncated (output : ExecutionStatus VMOutput Error) : bool :=
  match output with
  | SkipRest _ | Abort _ => true
  | Success _ => false
  end.
Definition update_to_skip_rest {E} (output : ExecutionStatus VMOutput Error) : outcome E (ExecutionStatus VMOutput Error) :=
  match output with
  | Success output => Ok (SkipRest output)
  | _ => Panic
  end.

(** ** executor.rs *)

(** The test of [validate] on one read, and on all. *)
Definition validate_read (versioned_cache : VersionedData WriteOp.t K) (idx_to_validate : TxnIndex) (r : ReadDescriptor) :
    outcome Empty_set bool :=
  match fetch_data versioned_cache (access_path r) idx_to_validate with
  | Ok (Versioned version _) => Ok (validate_version r version)
  | Ok (Resolved value) => Ok (validate_resolved r value)
  | Err (Dependency _) | Err (Unresolved _) => Ok false
  | Err NotFound => Ok (validate_storage r)
  | Err DeltaApplicationFailure => Ok (validate_delta_application_failure r)
  | Panic => Panic
  end.
Fixpoint validate_reads (versioned_cache : VersionedData WriteOp.t K) (idx_to_validate : TxnIndex) (read_set : list ReadDescriptor) :
    outcome Empty_set bool :=
  match read_set with
  | [] => Ok true
  | r :: read_set =>
      valid ← validate_read versioned_cache idx_to_validate r;
      if valid : bool then validate_reads versioned_cache idx_to_validate read_set else Ok false
  end.

(** The changes that an execution makes to the maps: the writes and deltas of its
    output, then the deletion of what the previous one wrote and it did not. *)
Inductive update :=
  | UWrite (key : K) (value : WriteOp.t)
  | UModule (key : K) (value : WriteOp.t)
  | UDelta (key : K) (delta : DeltaOp.t)
  | UDelete (key : K) (is_module : bool).

Definition update_key (u : update) : K :=
  match u with
  | UWrite key _ | UModule key _ | UDelta key _ | UDelete key _ => key
  end.

Definition output_updates (r : Error + VMOutput) : list update :=
  match r with
  | inr output =>
      let cs := change_set output in
      ((fun '(k, v) => UWrite k v) <$> entries key_leb (resource_write_set cs) ++ entries key_leb (aggregator_write_set cs)) ++
      ((fun '(k, v) => UModule k v) <$> entries key_leb (module_write_set cs)) ++
      ((fun '(k, d) => UDelta k d) <$> entries key_leb (aggregator_delta_set cs))
  | inl _ => []
  end.

Definition execution_updates (prev_modified_keys : list (K * bool)) (r : Error + VMOutput) : list update :=
  output_updates r ++
  ((fun '(k, is_module) => UDelete k is_module) <$>
    List.filter (fun '(k, _) => negb (bool_decide (k ∈ update_key <$> output_updates r))) prev_modified_keys).

(** Whether the execution wrote outside of what the previous one wrote; keys are
    removed as they are found. *)
Fixpoint outside_of (prev_modified_keys : list (K * bool)) (us : list update) : bool :=
  match us with
  | [] => false
  | u :: us =>
      negb (bool_decide (update_key u ∈ prev_modified_keys.*1)) ||
      outside_of (List.filter (fun e => negb (bool_decide (e.1 = update_key u))) prev_modified_keys) us
  end.
Definition updates_outside (prev_modified_keys : list (K * bool)) (r : Error + VMOutput) : bool :=
  outside_of prev_modified_keys (output_updates r).

Definition caches : Type := VersionedData WriteOp.t K * VersionedModules (V:=WriteOp.t) (X:=X) (K:=K).

Definition perform_update (version : Version) (u : update) (versioned_cache : caches) : caches * outcome Empty_set unit :=
  let '(data, modules) := versioned_cache in
  match u with
  | UWrite key value => let '(data, o) := write key version value data in ((data, modules), o)
  | UModule key value => let '(modules, o) := write_module key version.1 value modules in ((data, modules), o)
  | UDelta key delta => let '(data, o) := add_delta key version.1 delta data in ((data, modules), o)
  | UDelete key false => let '(data, o) := delete_entry key version.1 data in ((data, modules), o)
  | UDelete key true => let '(modules, o) := delete_module key version.1 modules in ((data, modules), o)
  end.

Definition perform_estimate (txn_idx : TxnIndex) (key : K) (is_module : bool) (versioned_cache : caches) :
    caches * outcome Empty_set unit :=
  let '(data, modules) := versioned_cache in
  if is_module then let '(modules, o) := mark_module_estimate key txn_idx modules in ((data, modules), o)
  else let '(data, o) := mark_estimate key txn_idx data in ((data, modules), o).

(** What [coordinator_commit_hook] does for a transaction once it is committed: the
    accumulated fees, the output's status and whether the block ends here. *)
Definition commit_status {E} (accumulated : FeeStatement.t) (output : ExecutionStatus VMOutput Error) :
    outcome E (FeeStatement.t * ExecutionStatus VMOutput Error) :=
  match fee_statement_of output with
  | Some fee_statement =>
      accumulated ← FeeStatement.add_fee_statement accumulated fee_statement;
      over ← reaches_limit accumulated;
      if over : bool then (output ← update_to_skip_rest output; Ok (accumulated, output))
      else Ok (accumulated, output)
  | None => Ok (accumulated, output)
  end.

(** A delta in [worker_commit_hook]: the value recorded for it, or that of the delta
    on the stored value. *)
Definition commit_delta {E} (k : K) (txn_idx : TxnIndex) (data : VersionedData WriteOp.t K) :
    VersionedData WriteOp.t K * outcome E Z :=
  match materialize_delta k txn_idx data with
  | (data, Ok value) => (data, Ok value)
  | (data, Err op) =>
      match get_state_value_u128 (view_bytes base_view) k with
      | Ok (Some storage_value) =>
          match set_aggregator_base_value k storage_value data with
          | (data, Ok _) => (data, expect_ok (DeltaOp.apply_to op storage_value))
          | (data, _) => (data, Panic)
          end
      | _ => (data, Panic)
      end
  | (data, Panic) => (data, Panic)
  end.

(** ** view.rs *)
Inductive ReadResult :=
  | RValue (v : WriteOp.t)
  | RU128 (v : Z)
  | RUnresolved
  | RExecutionHalted
  | RNone.

(** One turn of the loop of [ParallelState::fetch_data]: the result and the captured
    read.  There is none while the read waits for another transaction. *)
Definition fetch_captured (o : outcome MVDataError (MVDataOutput WriteOp.t)) : option (ReadResult * option ReadKind) :=
  match o with
  | Ok (Versioned (idx, incarnation) v) => Some (RValue v, Some (ReadVersion idx incarnation))
  | Ok (Resolved value) => Some (RU128 value, Some (ReadResolved value))
  | Err NotFound => Some (RNone, Some ReadStorage)
  | Err (Unresolved _) => Some (RUnresolved, None)
  | Err DeltaApplicationFailure => Some (RU128 0, Some ReadDeltaApplicationFailure)
  | Err (Dependency _) | Panic => None
  end.

(** The value that a resolved read gives to the virtual machine. *)
Definition read_answer (state_key : K) (r : ReadResult) : option (result (option StateValue.t)) :=
  match r with
  | RValue v => Some (Ok (as_state_value v))
  | RU128 v => Some (Ok (Some (StateValue.Legacy (serialize v))))
  | RExecutionHalted => Some (Err "Speculative error to halt BlockSTM early."%string)
  | RNone => Some (base_view state_key)
  | RUnresolved => None
  end.

(** A read of a module. *)
Definition module_answer (state_key : K) (o : outcome MVModulesError (MVModulesOutput (V:=WriteOp.t) (X:=X))) :
    option (result (option StateValue.t)) :=
  match o with
  | Ok (Module_output v _) => Some (Ok (as_state_value v))
  | Err (ModuleDependency _) => Some (Ok None)
  | Err ModuleNotFound => Some (base_view state_key)
  | Ok (Executable _ _) | Panic => None
  end.

(** ** Parallel execution *)

(** What a worker is doing with a transaction. *)
Inductive activity :=
  | Reading (incarnation : Incarnation) (p : prog) (captured_reads : list ReadDescriptor)
  | Updating (incarnation : Incarnation) (captured_reads : list ReadDescriptor) (r : Error + VMOutput) (todo : list update)
  | Aborting (todo : list (K * bool)).

(** The shared state.  A transaction that is not [active] has no worker on it;
    [next_incarnation] and [aborted] are what the scheduler's statuses say.
    [committing] are the deltas of committed transactions that still have to be
    written.  [history] and [published] are not in the code: all results of executions
    by version, and all writes of modules. *)
Record world := {
  cache : caches;
  last_input_output : TxnLastInputOutput;
  active : gmap TxnIndex activity;
  next_incarnation : gmap TxnIndex Incarnation;
  aborted : gset TxnIndex;
  commit_idx : TxnIndex;
  accumulated_fees : FeeStatement.t;
  halted : bool;
  committing : gmap TxnIndex (list K * list (K * WriteOp.t));
  committed_output : gmap TxnIndex TransactionOutput;
  history : gmap Version (Error + VMOutput);
  published : gset (K * TxnIndex) }.

Definition start_world : world :=
  {| cache := (∅, ∅); last_input_output := new_last_input_output; active := ∅; next_incarnation := ∅; aborted := ∅;
     commit_idx := 0; accumulated_fees := FeeStatement.zero; halted := false; committing := ∅; committed_output := ∅;
     history := ∅; published := ∅ |}.

Definition set_cache (c : caches) (w : world) : world :=
  {| cache := c; last_input_output := last_input_output w; active := active w; next_incarnation := next_incarnation w;
     aborted := aborted w; commit_idx := commit_idx w; accumulated_fees := accumulated_fees w; halted := halted w;
     committing := committing w; committed_output := committed_output w; history := history w; published := published w |}.
Definition set_io (io : TxnLastInputOutput) (w : world) : world :=
  {| cache := cache w; last_input_output := io; active := active w; next_incarnation := next_incarnation w;
     aborted := aborted w; commit_idx := commit_idx w; accumulated_fees := accumulated_fees w; halted := halted w;
     committing := committing w; committed_output := committed_output w; history := history w; published := published w |}.
Definition set_active (i : TxnIndex) (a : option activity) (w : world) : world :=
  {| cache := cache w; last_input_output := last_input_output w; active := partial_alter (fun _ => a) i (active w);
     next_incarnation := next_incarnation w; aborted := aborted w; commit_idx := commit_idx w;
     accumulated_fees := accumulated_fees w; halted := halted w; committing := committing w;
     committed_output := committed_output w; history := history w; published := published w |}.
Definition set_incarnation (i : TxnIndex) (inc : Incarnation) (w : world) : world :=
  {| cache := cache w; last_input_output := last_input_output w; active := active w;
     next_incarnation := <[i := inc]> (next_incarnation w); aborted := aborted w; commit_idx := commit_idx w;
     accumulated_fees := accumulated_fees w; halted := halted w; committing := committing w;
     committed_output := committed_output w; history := history w; published := published w |}.
Definition set_aborted (a : gset TxnIndex) (w : world) : world :=
  {| cache := cache w; last_input_output := last_input_output w; active := active w;
     next_incarnation := next_incarnation w; aborted := a; commit_idx := commit_idx w;
     accumulated_fees := accumulated_fees w; halted := halted w; committing := committing w;
     committed_output := committed_output w; history := history w; published := published w |}.
Definition set_commit (c : TxnIndex) (fees : FeeStatement.t) (stop : bool) (w : world) : world :=
  {| cache := cache w; last_input_output := last_input_output w; active := active w;
     next_incarnation := next_incarnation w; aborted := aborted w; commit_idx := c; accumulated_fees := fees; halted := stop;
     committing := committing w; committed_output := committed_output w; history := history w; published := published w |}.
Definition set_committing (i : TxnIndex) (x : option (list K * list (K * WriteOp.t))) (w : world) : world :=
  {| cache := cache w; last_input_output := last_input_output w; active := active w;
     next_incarnation := next_incarnation w; aborted := aborted w; commit_idx := commit_idx w;
     accumulated_fees := accumulated_fees w; halted := halted w; committing := partial_alter (fun _ => x) i (committing w);
     committed_output := committed_output w; history := history w; published := published w |}.
Definition set_committed_output (i : TxnIndex) (o : TransactionOutput) (w : world) : world :=
  {| cache := cache w; last_input_output := last_input_output w; active := active w;
     next_incarnation := next_incarnation w; aborted := aborted w; commit_idx := commit_idx w;
     accumulated_fees := accumulated_fees w; halted := halted w; committing := committing w;
     committed_output := <[i := o]> (committed_output w); history := history w; published := published w |}.
Definition set_history (v : Version) (r : Error + VMOutput) (w : world) : world :=
  {| cache := cache w; last_input_output := last_input_output w; active := active w;
     next_incarnation := next_incarnation w; aborted := aborted w; commit_idx := commit_idx w;
     accumulated_fees := accumulated_fees w; halted := halted w; committing := committing w;
     committed_output := committed_output w; history := <[v := r]> (history w); published := published w |}.
Definition set_published (k : K) (i : TxnIndex) (w : world) : world :=
  {| cache := cache w; last_input_output := last_input_output w; active := active w;
     next_incarnation := next_incarnation w; aborted := aborted w; commit_idx := commit_idx w;
     accumulated_fees := accumulated_fees w; halted := halted w; committing := committing w;
     committed_output := committed_output w; history := history w; published := {[(k, i)]} ∪ published w |}.

Context (block : list prog).

Definition txn (i : TxnIndex) : option prog := block !! Z.to_nat i.
Definition num_txns : TxnIndex := Z.of_nat (length block).

Definition set_output (i : TxnIndex) (o : ExecutionStatus VMOutput Error) (io : TxnLastInputOutput) : TxnLastInputOutput :=
  {| inputs := inputs io; outputs := <[i := o]> (outputs io); module_writes := module_writes io;
     module_reads := module_reads io; module_read_write_intersection := module_read_write_intersection io |}.

Inductive step : world -> world -> Prop :=
  (* [try_incarnate], when the transaction was never executed or is aborted *)
  | step_start w i p : commit_idx w <= i < num_txns -> txn i = Some p -> active w !! i = None ->
      outputs (last_input_output w) !! i = None \/ i ∈ aborted w ->
      let inc := default 0 (next_incarnation w !! i) in
      step w (set_active i (Some (Reading inc p [])) (set_incarnation i (inc + 1) w))
  (* a read of the state view: data, in the map or in storage *)
  | step_read w i inc key continue reads r kind a : active w !! i = Some (Reading inc (Get key continue) reads) ->
      is_module_path key = false -> fetch_captured (fetch_data (cache w).1 key i) = Some (r, Some kind) ->
      read_answer key r = Some a ->
      step w (set_active i (Some (Reading inc (continue a) (reads ++ [{| access_path := key; read_kind := kind |}]))) w)
  (* an unresolved read: the base value goes to the map and the read starts again *)
  | step_base w i inc key continue reads v data : active w !! i = Some (Reading inc (Get key continue) reads) ->
      is_module_path key = false -> fetch_captured (fetch_data (cache w).1 key i) = Some (RUnresolved, None) ->
      get_state_value_u128 (view_bytes base_view) key = Ok (Some v) ->
      set_aggregator_base_value key v (cache w).1 = (data, Ok tt) ->
      step w (set_cache (data, (cache w).2) w)
  (* an unresolved read without a base value in storage is an error, and not captured *)
  | step_missing w i inc key continue reads e : active w !! i = Some (Reading inc (Get key continue) reads) ->
      is_module_path key = false -> fetch_captured (fetch_data (cache w).1 key i) = Some (RUnresolved, None) ->
      match get_state_value_u128 (view_bytes base_view) key with Ok (Some _) => False | Ok None => True | Err e' => e = e' | Panic => False end ->
      step w (set_active i (Some (Reading inc (continue (Err e)) reads)) w)
  (* a read that met an estimate, and was waiting for another transaction when the execution was halted *)
  | step_halted w i inc key continue reads a : active w !! i = Some (Reading inc (Get key continue) reads) ->
      is_module_path key = false -> halted w || module_read_write_intersection (last_input_output w) = true ->
      read_answer key RExecutionHalted = Some a ->
      step w (set_active i (Some (Reading inc (continue a) reads)) w)
  (* a read of a module *)
  | step_module w i inc key continue reads a : active w !! i = Some (Reading inc (Get key continue) reads) ->
      is_module_path key = true -> module_answer key (fetch_module (cache w).2 key i) = Some a ->
      step w (set_active i (Some (Reading inc (continue a) (reads ++ [{| access_path := key; read_kind := ReadModule |}]))) w)
  (* the virtual machine is done *)
  | step_return w i inc r reads : active w !! i = Some (Reading inc (Ret r) reads) ->
      step w (set_active i (Some (Updating inc reads r
          (execution_updates (modified_keys (last_input_output w) i) r))) (set_history (i, inc) r w))
  (* one write, delta or deletion *)
  | step_update w i inc reads r u todo c : active w !! i = Some (Updating inc reads r (u :: todo)) ->
      perform_update (i, inc) u (cache w) = (c, Ok tt) ->
      step w (set_active i (Some (Updating inc reads r todo))
        (match u with UModule key _ => set_published key i | _ => id end (set_cache c w)))
  (* the execution is recorded; after an error the block is executed sequentially *)
  | step_record w i inc reads r io o : active w !! i = Some (Updating inc reads r []) ->
      record i reads (status_of r) (last_input_output w) = (io, o) ->
      step w (set_active i None (set_aborted (aborted w ∖ {[i]}) (set_io io w)))
  (* [try_abort] and the marks that follow *)
  | step_abort w i : commit_idx w <= i -> active w !! i = None -> is_Some (outputs (last_input_output w) !! i) ->
      i ∉ aborted w ->
      step w (set_active i (Some (Aborting (modified_keys (last_input_output w) i))) (set_aborted ({[i]} ∪ aborted w) w))
  | step_estimate w i key is_module todo c : active w !! i = Some (Aborting ((key, is_module) :: todo)) ->
      perform_estimate i key is_module (cache w) = (c, Ok tt) ->
      step w (set_active i (Some (Aborting todo)) (set_cache c w))
  | step_aborted w i : active w !! i = Some (Aborting []) -> step w (set_active i None w)
  (* [try_commit], unless the execution is halted, and the commit hook of the coordinator: the reads validate *)
  | step_commit w reads output fees output' : commit_idx w < num_txns -> halted w = false ->
      active w !! commit_idx w = None -> commit_idx w ∉ aborted w ->
      outputs (last_input_output w) !! commit_idx w = Some output ->
      inputs (last_input_output w) !! commit_idx w = Some reads ->
      validate_reads (cache w).1 (commit_idx w) reads = Ok true ->
      @commit_status Empty_set (accumulated_fees w) output = Ok (fees, output') ->
      step w (set_committing (commit_idx w) (Some (delta_keys (last_input_output w) (commit_idx w), []))
        (set_io (set_output (commit_idx w) output' (last_input_output w))
          (set_commit (commit_idx w + 1) fees (block_truncated output') w)))
  (* [worker_commit_hook] *)
  | step_delta w i key keys writes data v : committing w !! i = Some (key :: keys, writes) ->
      @commit_delta Empty_set key i (cache w).1 = (data, Ok v) ->
      step w (set_committing i (Some (keys, writes ++ [(key, WriteOp.Modification (serialize v))]))
        (set_cache (data, (cache w).2) w))
  | step_hook w i writes output committed : committing w !! i = Some ([], writes) ->
      match outputs (last_input_output w) !! i with Some (Success o | SkipRest o) => o = output | _ => False end ->
      @into_transaction_output_with_materialized_deltas Empty_set output writes = Ok committed ->
      step w (set_committing i None (set_committed_output i committed w)).

Inductive reachable : world -> Prop :=
  | reachable_start : reachable start_world
  | reachable_step w w' : reachable w -> step w w' -> reachable w'.

(** The results of the block once all workers are done. *)
Fixpoint parallel_loop (w : world) (idx : TxnIndex) (n : nat) : outcome Error (list TransactionOutput) :=
  match n with
  | O => Ok []
  | S n =>
      status ← expect (outputs (last_input_output w) !! idx);
      match status with
      | Success _ =>
          t ← expect (committed_output w !! idx);
          rest ← parallel_loop w (idx + 1) n;
          Ok (t :: rest)
      | SkipRest _ => t ← expect (committed_output w !! idx); Ok [t]
      | Abort err => Err err
      end
  end.
(** Nothing when the block has to be executed sequentially. *)
Definition parallel_results (w : world) : option (outcome Error (list TransactionOutput)) :=
  if module_read_write_intersection (last_input_output w) then None
  else Some (ret ← parallel_loop w 0 (length block); Ok (ret ++ replicate (length block - length ret) skip_output)).
End executor.
