(* ===== verification/SequentialState.v ===== *)
(** * The state of sequential execution

    What the entries of the multi-version map mean ([seen]) against the map of
    sequential execution: the two [corresponds], reads give the same answers, and
    applying a materialized output to the one map is adding the entries of the
    output to the other. *)

From S2P Require Import Prelude Collections Aggregator ChangeSet MVHashMap BlockExecutor.

Section sequential_state.
Context {bcs : Bcs128} {bcs_laws : Bcs128Laws} {types : ExecutorTypes} {config : ExecutorConfig}.
Context (kind : K -> item).

(** ** Assumptions on the block *)
Definition limit_of (k : K) : option Z := match kind k with Counter limit => Some limit | _ => None end.

(** The value of a counter in storage. *)
Definition stored (k : K) : Z :=
  match get_state_value_u128 (view_bytes base_view) k with Ok (Some v) => v | _ => 0 end.

Lemma stored_nonneg k : 0 <= stored k.
Proof using bcs_laws.
  unfold stored, get_state_value_u128. destruct (view_bytes base_view k) as [[b|]| |]; simpl; try done.
  destruct (from_bytes b) as [v| |] eqn:E; simpl; try done. by apply from_bytes_range in E as [? _].
Qed.

(** A result of the virtual machine that keeps to the kinds of keys; a discarded
    transaction changes nothing. *)
Definition result_ok (r : Error + VMOutput) : Prop :=
  match r with
  | inr o => change_set_ok kind (change_set o) /\
      (forall k w, aggregator_write_set (change_set o) !! k = Some w -> @from_write _ _ _ MVDataError w <> Panic) /\
      (is_discarded (status o) = true -> aggregator_delta_set (change_set o) = ∅)
  | inl _ => True
  end.

Inductive returns : prog -> Error + VMOutput -> Prop :=
  | returns_ret r : returns (Ret r) r
  | returns_get k continue a r : returns (continue a) r -> returns (Get k continue) r.

(** The write of an output to a key. *)
Definition write_of (o : VMOutput) (k : K) : option WriteOp.t :=
  match kind k with
  | Resource => resource_write_set (change_set o) !! k
  | Code => module_write_set (change_set o) !! k
  | Counter _ => aggregator_write_set (change_set o) !! k
  end.

Lemma lookup_by_kind o k : change_set_ok kind (change_set o) ->
  resource_write_set (change_set o) !! k = (match kind k with Resource => write_of o k | _ => None end) /\
  module_write_set (change_set o) !! k = (match kind k with Code => write_of o k | _ => None end) /\
  aggregator_write_set (change_set o) !! k = (match kind k with Counter _ => write_of o k | _ => None end) /\
  (counter kind k \/ aggregator_delta_set (change_set o) !! k = None).
Proof using Type.
  intros Hok. pose proof (aggregators_ok _ _ Hok k) as Ha. unfold write_of, counter.
  assert (kind k <> Resource -> resource_write_set (change_set o) !! k = None) as Hr.
  { intros Hne. apply eq_None_not_Some. intros ?. by apply Hne, (resources_ok _ _ Hok). }
  assert (kind k <> Code -> module_write_set (change_set o) !! k = None) as Hm.
  { intros Hne. apply eq_None_not_Some. intros ?. by apply Hne, (modules_ok _ _ Hok). }
  destruct (kind k); destruct_and?; split_and!; auto.
Qed.

(** ** The state of sequential execution *)
Lemma unsync_write_fetch (um : unsync) k w k' :
  unsync_fetch_data (unsync_write um k w) k' = if bool_decide (k' = k) then Some w else unsync_fetch_data um k'.
Proof using Type.
  unfold unsync_fetch_data, unsync_write. simpl. case_bool_decide as E.
  - subst. by rewrite lookup_insert_eq.
  - by rewrite lookup_insert_ne by done.
Qed.

Lemma fold_writes_fetch (l : list (K * WriteOp.t)) (um : unsync) k :
  unsync_fetch_data (foldl (fun m '(key, write_op) => unsync_write m key write_op) um l) k =
  match (list_to_map (reverse l) : gmap K WriteOp.t) !! k with Some w => Some w | None => unsync_fetch_data um k end.
Proof using Type.
  revert um. induction l as [|[k1 w1] l IH]; intros um; [simpl; by rewrite lookup_empty|].
  simpl. rewrite IH, reverse_cons, list_to_map_app, lookup_union, unsync_write_fetch. simpl.
  destruct (list_to_map (reverse l) !! k) as [w|]; simpl; [by destruct (_ !! k)|].
  rewrite (left_id None _). case_bool_decide as E; [subst; by rewrite lookup_insert_eq|].
  by rewrite lookup_insert_ne, lookup_empty by done.
Qed.

Lemma apply_writes_fetch o (um : unsync) k : change_set_ok kind (change_set o) ->
  unsync_fetch_data (apply_writes o um) k = match write_of o k with Some w => Some w | None => unsync_fetch_data um k end.
Proof using Type.
  intros Hok. unfold apply_writes. rewrite fold_writes_fetch.
  destruct (lookup_by_kind o k Hok) as (Hr & Hm & Ha & _).
  assert (forall w, (k, w) ∈ all_writes o <-> write_of o k = Some w) as Hin.
  { intros w. unfold all_writes. rewrite !elem_of_app, !elem_of_entries, Hr, Hm, Ha. unfold write_of.
    destruct (kind k); naive_solver. }
  destruct (list_to_map (reverse (all_writes o)) !! k) as [w|] eqn:E.
  - apply elem_of_list_to_map_2, elem_of_reverse, Hin in E. by rewrite E.
  - apply not_elem_of_list_to_map in E. destruct (write_of o k) as [w|] eqn:Ew; [|done]. exfalso. apply E.
    rewrite fmap_reverse, elem_of_reverse. apply list_elem_of_fmap. exists (k, w). split; [done|]. by apply Hin.
Qed.

(** ** What the map means and what sequential execution has *)
Definition corresponds (x : option WriteOp.t) (s : seen (V:=WriteOp.t)) : Prop :=
  match x, s with
  | None, Nothing => True
  | Some w, Written _ w' => w = w'
  | Some w, Value v => w = WriteOp.Modification (serialize v) /\ 0 <= v < 2 ^ 128
  | _, _ => False
  end.

(** The answer to a read: a failed delta reads as zero. *)
Definition answer_of (k : K) (s : seen (V:=WriteOp.t)) : result (option StateValue.t) :=
  match s with
  | Nothing => base_view k
  | Written _ w => Ok (as_state_value w)
  | Value v => Ok (Some (StateValue.Legacy (serialize v)))
  | Failed => Ok (Some (StateValue.Legacy (serialize 0)))
  end.

Lemma view_corresponds (um : unsync) k s : corresponds (unsync_fetch_data um k) s -> unsync_view um k = answer_of k s.
Proof using Type.
  unfold unsync_view, corresponds. destruct (unsync_fetch_data um k) as [w|], s; try done; [by intros ->|].
  intros [-> _]. done.
Qed.

(** The value that a delta finds. *)
Lemma value_corresponds (um : unsync) k s v : corresponds (unsync_fetch_data um k) s ->
  (s = Nothing -> get_state_value_u128 (view_bytes base_view) k = Ok (Some (stored k))) ->
  get_state_value_u128 (view_bytes (unsync_view um)) k = Ok (Some v) ->
  match s with
  | Nothing => v = stored k
  | Written _ w => value_of w = Some v
  | Value v' => v' = v
  | Failed => False
  end.
Proof using bcs_laws.
  intros Hc Hb Hv. unfold get_state_value_u128, view_bytes in Hv. rewrite (view_corresponds _ _ _ Hc) in Hv.
  destruct s as [|ver w|v'|]; simpl in Hv.
  - specialize (Hb eq_refl). unfold get_state_value_u128, view_bytes in Hb. rewrite Hb in Hv. congruence.
  - unfold value_of, from_write. simpl. destruct w; simpl in *; try done;
      (destruct (from_bytes data) eqn:E; simpl in *; try done; congruence).
  - destruct (unsync_fetch_data um k); [|done]. destruct Hc as [_ Hr]. unfold serialize in Hv.
    rewrite from_to_bytes in Hv by done. simpl in Hv. congruence.
  - by destruct (unsync_fetch_data um k).
Qed.

(** ** Materializing an output *)
Lemma collect_inv {E A B} (f : A -> outcome E B) l ws : collect f l = Ok ws -> Forall2 (fun x y => f x = Ok y) l ws.
Proof using Type.
  revert ws. induction l as [|x l IH]; intros ws Hc; simpl in Hc; [injection Hc as <-; constructor|].
  apply bind_Ok in Hc as (y & Hy & Hc). apply bind_Ok in Hc as (ws' & Hws & Hc). injection Hc as <-. constructor; auto.
Qed.

Definition delta_write (view : K -> result (option Z)) (k : K) (d : DeltaOp.t) (w : WriteOp.t) : Prop :=
  exists base v, view k = Ok (Some base) /\ DeltaOp.apply_to d base = Ok v /\ w = WriteOp.Modification (serialize v).

Lemma try_into_write_op_inv d view (k : K) w : try_into_write_op d view k = Ok w -> delta_write view k d w.
Proof using Type.
  unfold try_into_write_op. intros Hw. apply bind_Ok in Hw as (v & Hv & Hw). apply map_err_Ok in Hv. destruct v as [base|]; [|done].
  apply bind_Ok in Hw as (x & Hx & [= <-]). apply map_err_Ok in Hx. by exists base, x.
Qed.

Lemma materialized_writes_of view (ds : gmap K DeltaOp.t) ws :
  collect (fun '(k, d) => write ← try_into_write_op d view k; Ok (k, write)) (entries key_leb ds) = Ok ws ->
  forall k, match ds !! k with
    | Some d => exists w, (list_to_map ws : gmap K WriteOp.t) !! k = Some w /\ delta_write view k d w
    | None => (list_to_map ws : gmap K WriteOp.t) !! k = None
    end.
Proof using Type.
  intros Hc%collect_inv k.
  assert (ws.*1 = (entries key_leb ds).*1) as Hk.
  { clear k. revert Hc. generalize (entries key_leb ds) as l. induction 1 as [|[k d] [k' w] l ws Hx Hc IH]; [done|].
    rewrite !fmap_cons, IH. f_equal. by apply bind_Ok in Hx as (? & _ & [= <- _]). }
  destruct (ds !! k) as [d|] eqn:Ed.
  - apply (elem_of_entries key_leb) in Ed. apply list_elem_of_lookup in Ed as [n Hn].
    destruct (Forall2_lookup_l _ _ _ _ _ Hc Hn) as ([k' w] & Hn' & Hx). apply bind_Ok in Hx as (w' & Hw & [= <- <-]).
    exists w'. split; [|by apply try_into_write_op_inv]. apply elem_of_list_to_map.
    + rewrite Hk. apply entries_keys_NoDup.
    + apply list_elem_of_lookup. by exists n.
  - apply not_elem_of_list_to_map. rewrite Hk, elem_of_entries_keys, Ed. by intros [? ?].
Qed.

(** What a materialized output has of the original one. *)
Record materialized (view : K -> result (option Z)) (o o' : VMOutput) : Prop := {
  mat_fee : fee_statement o' = fee_statement o;
  mat_status : status o' = status o;
  mat_events : events (change_set o') = events (change_set o);
  mat_deltas : aggregator_delta_set (change_set o') = ∅;
  mat_resources : resource_write_set (change_set o') = resource_write_set (change_set o);
  mat_modules : module_write_set (change_set o') = module_write_set (change_set o);
  mat_writes k : match aggregator_delta_set (change_set o) !! k with
    | Some d => exists w, aggregator_write_set (change_set o') !! k = Some w /\ delta_write view k d w
    | None => aggregator_write_set (change_set o') !! k = aggregator_write_set (change_set o) !! k
    end }.

Lemma output_materialized view o o' : result_ok (inr o) -> output_try_materialize view o = Ok o' -> materialized view o o'.
Proof using Type.
  intros (_ & _ & Hdisc). unfold output_try_materialize.
  destruct (is_discarded (status o) || bool_decide (aggregator_delta_set (change_set o) = ∅)) eqn:E.
  - intros [= <-]. assert (aggregator_delta_set (change_set o) = ∅) as Hd.
    { apply orb_true_iff in E as [E|E]; [by apply Hdisc|by apply bool_decide_eq_true_1 in E]. }
    split; try done. intros k. by rewrite Hd, lookup_empty.
  - intros (cs & Hcs & [= <-])%bind_Ok. unfold try_materialize in Hcs. apply bind_Ok in Hcs as (ws & Hws & [= <-]).
    split; try done. intros k. simpl. rewrite lookup_union. pose proof (materialized_writes_of _ _ _ Hws k) as Hk.
    destruct (aggregator_delta_set (change_set o) !! k) as [d|].
    + destruct Hk as (w & -> & Hw). exists w. split; [by destruct (_ !! k)|done].
    + rewrite Hk. by rewrite (left_id None _).
Qed.

Lemma materialized_ok view o o' : result_ok (inr o) -> materialized view o o' -> change_set_ok kind (change_set o').
Proof using Type.
  intros (Hok & _ & _) Hm. split.
  - intros k. rewrite (mat_resources _ _ _ Hm). apply (resources_ok _ _ Hok).
  - intros k. rewrite (mat_modules _ _ _ Hm). apply (modules_ok _ _ Hok).
  - intros k. pose proof (aggregators_ok _ _ Hok k) as Ha. pose proof (mat_writes _ _ _ Hm k) as Hw.
    rewrite (mat_deltas _ _ _ Hm), lookup_empty. destruct (kind k).
    1,2: destruct Ha as [Ea Ed]; rewrite Ed in Hw; by rewrite Hw, Ea.
    split; [by right|done].
Qed.

Lemma materialized_write_of view o o' k : result_ok (inr o) -> materialized view o o' ->
  match aggregator_delta_set (change_set o) !! k with
  | Some d => exists w, write_of o' k = Some w /\ delta_write view k d w /\ counter kind k
  | None => write_of o' k = write_of o k
  end.
Proof using Type.
  intros (Hok & _ & _) Hm. pose proof (mat_writes _ _ _ Hm k) as Hw. unfold write_of.
  rewrite (mat_resources _ _ _ Hm), (mat_modules _ _ _ Hm). destruct (lookup_by_kind o k Hok) as (_ & _ & _ & Hd).
  unfold counter in *. destruct (aggregator_delta_set (change_set o) !! k) as [d|].
  - destruct Hd as [Hd|]; [|done]. destruct Hw as (w & -> & ?). exists w. by destruct (kind k).
  - by destruct (kind k).
Qed.

(** ** The entries of an output *)
Definition entry_for (inc : Incarnation) (r : Error + VMOutput) (k : K) : option (EntryCell WriteOp.t) :=
  match r with
  | inl _ => None
  | inr o =>
      match kind k with
      | Code => None
      | _ =>
          match write_of o k with
          | Some w => Some (WriteCell inc w)
          | None => d ← aggregator_delta_set (change_set o) !! k; Some (DeltaCell d None)
          end
      end
  end.

(** A cell without the value recorded in it. *)
Definition strip (c : EntryCell WriteOp.t) : EntryCell WriteOp.t :=
  match c with
  | WriteCell inc w => WriteCell inc w
  | DeltaCell d _ => DeltaCell d None
  end.

Definition after_cell (k : K) (s : seen) (i : TxnIndex) (c : option (EntryCell WriteOp.t)) : seen :=
  match c with
  | Some (WriteCell inc w) => Written (i, inc) w
  | Some (DeltaCell d _) => on_top (stored k) s (meaning d)
  | None => s
  end.

Lemma after_strip k s i (e : Entry WriteOp.t) : after (stored k) s (i, e) = after_cell k s i (Some (strip (cell e))).
Proof using Type. unfold after, strip. simpl. by destruct (cell e). Qed.

(** Every counter has a value in storage before the block. *)
Definition counters_stored : Prop :=
  forall k, counter kind k -> get_state_value_u128 (view_bytes base_view) k = Ok (Some (stored k)).

(** Committing an output keeps the correspondence. *)
Lemma commit_corresponds (um : unsync) k s i inc o o' : counters_stored -> result_ok (inr o) -> kind k <> Code ->
  materialized (get_state_value_u128 (view_bytes (unsync_view um))) o o' ->
  corresponds (unsync_fetch_data um k) s ->
  corresponds (unsync_fetch_data (apply_writes o' um) k) (after_cell k s i (entry_for inc (inr o) k)).
Proof using bcs_laws.
  intros Hst Hr Hk Hm Hc. rewrite apply_writes_fetch by by eapply materialized_ok.
  pose proof (materialized_write_of _ _ _ k Hr Hm) as Hw. destruct Hr as (Hok & _ & _).
  assert (entry_for inc (inr o) k = match write_of o k with Some w => Some (WriteCell inc w)
    | None => d ← aggregator_delta_set (change_set o) !! k; Some (DeltaCell d None) end) as ->.
  { simpl. by destruct (kind k). }
  destruct (aggregator_delta_set (change_set o) !! k) as [d|] eqn:Ed.
  - destruct Hw as (w & -> & (base & v & Hv & Ha & ->) & Hcnt).
    pose proof (aggregators_ok _ _ Hok k) as Hone. unfold counter in Hcnt. assert (write_of o k = None /\ delta_ok d) as [-> Hd].
    { unfold write_of. destruct (kind k); [done..|]. rewrite Ed in Hone. destruct Hone as [[?|?] Hd]; [|done].
      split; [done|]. by destruct (Hd d eq_refl). }
    simpl. pose proof (value_corresponds _ _ _ base Hc (fun _ => Hst k Hcnt) Hv) as Hval.
    assert (0 <= base) as Hbase.
    { unfold get_state_value_u128 in Hv. apply bind_Ok in Hv as ([bs|] & _ & Hv); [|done].
      apply bind_Ok in Hv as (x & Hx & [= <-]). by apply from_bytes_range in Hx as [? _]. }
    pose proof (gives_inv _ _ _ (apply_to_gives d base Hd Hbase) Ha) as Hmean.
    pose proof (meaning_bounds _ _ _ Hd Hbase Hmean). pose proof (delta_limit _ Hd).
    destruct s as [|ver w'|v'|]; simpl; subst; rewrite ?Hval, ?Hmean; simpl; try done; (split; [done|lia]).
  - rewrite Hw. destruct (write_of o k) as [w|]; done.
Qed.
End sequential_state.
