(* ===== verification/ParallelInvariant.v ===== *)
(** * The invariant of parallel execution

    What holds of every reachable state of the parallel executor as long as no module
    is both read and written.  The multi-version map holds what executions in the
    history wrote; a recorded execution is explained by the reads it captured; a
    committed one by what the transactions below it did ([ran]).  Facts of one
    transaction are kept by the steps of the others ([keeps], [same_txn]). *)

From S2P Require Import Prelude Collections Aggregator ChangeSet MVHashMap BlockExecutor SequentialState.

Section invariant.
Context {bcs : Bcs128} {bcs_laws : Bcs128Laws} {types : ExecutorTypes} {config : ExecutorConfig}.
Context (kind : K -> item) (block : list prog).

(** ** What is in the map *)
Definition data (w : world) : VersionedData WriteOp.t K := (cache w).1.
Definition entry_at (w : world) (k : K) (i : TxnIndex) : option (Entry WriteOp.t) := BTreeMap.get (entries_of (data w) k) i.
Definition cell_at (w : world) (k : K) (i : TxnIndex) : option (EntryCell WriteOp.t) := option_map (fun e => strip (cell e)) (entry_at w k i).
(** What transaction [i] finds at a key. *)
Definition value_at (w : world) (k : K) (i : TxnIndex) : seen := sequentially (stored k) (below i (entries_of (data w) k)).

(** The entry of an execution is in place. *)
Definition settled (w : world) (i : TxnIndex) (inc : Incarnation) (r : Error + VMOutput) (k : K) : Prop :=
  match entry_at w k i with
  | Some e => entry_for kind inc r k = Some (strip (cell e)) /\ flag e = Done
  | None => entry_for kind inc r k = None
  end.

Definition keys_in (w : world) (i : TxnIndex) : Prop :=
  forall k e, entry_at w k i = Some e -> (k, false) ∈ modified_keys (last_input_output w) i.

(** ** Reads and their answers *)

(** Where the answer to a captured read came from. *)
Definition explains (w : world) (i : TxnIndex) (desc : ReadDescriptor) (a : result (option StateValue.t)) : Prop :=
  let k := access_path desc in
  match read_kind desc with
  | ReadVersion j inc => is_module_path k = false /\ exists r v, history w !! (j, inc) = Some r /\
      entry_for kind inc r k = Some (WriteCell inc v) /\ a = Ok (as_state_value v)
  | ReadResolved v => is_module_path k = false /\ a = answer_of k (Value v)
  | ReadStorage => is_module_path k = false /\ a = answer_of k Nothing
  | ReadDeltaApplicationFailure => is_module_path k = false /\ a = answer_of k Failed
  | ReadModule => is_module_path k = true /\ (a = base_view k \/ exists j, j < i /\ (k, j) ∈ published w)
  end.

(** An execution that has captured these reads. *)
Inductive trace (w : world) (i : TxnIndex) (p : prog) : list ReadDescriptor -> prog -> Prop :=
  | trace_start : trace w i p [] p
  | trace_read reads desc continue a : trace w i p reads (Get (access_path desc) continue) -> explains w i desc a ->
      trace w i p (reads ++ [desc]) (continue a).

(** Reads of a halted execution need no explanation, it is not committed. *)
Definition traced (w : world) (i : TxnIndex) (reads : list ReadDescriptor) (p : prog) : Prop :=
  halted w = true \/ exists p0, txn block i = Some p0 /\ trace w i p0 reads p.

(** An execution whose reads have the answers of [V]. *)
Inductive ran (V : K -> result (option StateValue.t) -> Prop) : prog -> Error + VMOutput -> Prop :=
  | ran_ret r : ran V (Ret r) r
  | ran_get k continue a r : V k a -> ran V (continue a) r -> ran V (Get k continue) r.

(** What transaction [i] reads once those below it are committed. *)
Definition reads_as (w : world) (i : TxnIndex) (k : K) (a : result (option StateValue.t)) : Prop :=
  if is_module_path k then a = base_view k /\ k ∈ module_reads (last_input_output w)
  else a = answer_of k (value_at w k i).

Lemma ran_run V view p r : (forall k a, V k a -> view k = a) -> ran V p r -> run view p = r.
Proof. intros HV. induction 1 as [|k continue a r Ha Hr IH]; simpl; [done|]. by rewrite (HV k a Ha). Qed.

Lemma ran_mono (V V' : K -> result (option StateValue.t) -> Prop) p r : (forall k a, V k a -> V' k a) -> ran V p r -> ran V' p r.
Proof. intros HV. induction 1; econstructor; eauto. Qed.

Lemma trace_ran w i p reads q (V : K -> result (option StateValue.t) -> Prop) r : trace w i p reads q ->
  (forall desc a, desc ∈ reads -> explains w i desc a -> V (access_path desc) a) -> ran V q r -> ran V p r.
Proof.
  induction 1 as [|reads desc continue a Ht IH He]; intros HV Hr; [done|]. apply IH.
  - intros desc' a' Hin. apply HV. apply elem_of_app. by left.
  - econstructor; [|done]. apply HV; [|done]. apply elem_of_app. right. by left.
Qed.

(** ** One transaction *)
Definition next_of (w : world) (i : TxnIndex) : Incarnation := default 0 (next_incarnation w !! i).

Definition fits (inc : Incarnation) (r : Error + VMOutput) (u : update) : Prop :=
  match u with
  | UWrite k v => entry_for kind inc r k = Some (WriteCell inc v)
  | UDelta k d => entry_for kind inc r k = Some (DeltaCell d None)
  | UDelete k false => entry_for kind inc r k = None
  | UModule k _ => k ∈ written_modules (status_of r)
  | UDelete k true => True
  end.
Definition data_key (u : update) : option K :=
  match u with
  | UWrite k _ | UDelta k _ | UDelete k false => Some k
  | _ => None
  end.

(** The last execution of a transaction that is executed and not aborted. *)
Record recorded (w : world) (i : TxnIndex) (inc : Incarnation) (r : Error + VMOutput) (reads : list ReadDescriptor)
    (s : ExecutionStatus VMOutput Error) : Prop := {
  rec_inputs : inputs (last_input_output w) !! i = Some reads;
  rec_status : s = status_of r;
  rec_history : history w !! (i, inc) = Some r;
  rec_ok : result_ok kind r;
  rec_trace : traced w i reads (Ret r);
  rec_settled k : kind k <> Code -> settled w i inc r k;
  rec_reads k : k ∈ read_modules reads -> k ∈ module_reads (last_input_output w);
  rec_writes k : k ∈ written_modules s -> k ∈ module_writes (last_input_output w) }.

Definition txn_inv (w : world) (i : TxnIndex) : Prop :=
  match active w !! i with
  | Some (Reading inc p reads) => next_of w i = inc + 1 /\ history w !! (i, inc) = None /\
      (forall r, returns p r -> result_ok kind r) /\ keys_in w i /\ traced w i reads p
  | Some (Updating inc reads r todo) => history w !! (i, inc) = Some r /\ result_ok kind r /\ traced w i reads (Ret r) /\
      Forall (fits inc r) todo /\
      forall k, kind k <> Code -> (exists u, u ∈ todo /\ data_key u = Some k) \/ settled w i inc r k
  | Some (Aborting _) => i ∈ aborted w /\ keys_in w i
  | None => keys_in w i /\ forall s, i ∉ aborted w -> outputs (last_input_output w) !! i = Some s ->
      exists inc r reads, recorded w i inc r reads s
  end.

(** ** Committed transactions *)
Record committed_txn (w : world) (i : TxnIndex) (r : Error + VMOutput) : Prop := {
  com_ok : result_ok kind r;
  com_ran : exists p, txn block i = Some p /\ ran (reads_as w i) p r;
  com_cells : exists inc, forall k, kind k <> Code -> cell_at w k i = entry_for kind inc r k;
  com_writes k : k ∈ written_modules (status_of r) -> k ∈ module_writes (last_input_output w) }.

(** The first [n] commits, with the accumulated fees and whether the last ends the
    block. *)
Inductive commits (w : world) : TxnIndex -> FeeStatement.t -> bool -> Prop :=
  | commits_start : commits w 0 FeeStatement.zero false
  | commits_next n fees r fees' s : commits w n fees false -> 0 <= n -> committed_txn w n r ->
      @commit_status _ _ Empty_set fees (status_of r) = Ok (fees', s) -> outputs (last_input_output w) !! n = Some s ->
      commits w (n + 1) fees' (block_truncated s).

(** The value written for the delta of a committed transaction. *)
Definition materializes (w : world) (i : TxnIndex) (k : K) (write : K * WriteOp.t) : Prop :=
  write.1 = k /\ exists v, write.2 = WriteOp.Modification (serialize v) /\ value_at w k (i + 1) = Value v.

Record hook_inv (w : world) (i : TxnIndex) : Prop := {
  hook_committing keys writes : committing w !! i = Some (keys, writes) ->
    exists done, delta_keys (last_input_output w) i = done ++ keys /\ Forall2 (materializes w i) done writes;
  hook_output out : committed_output w !! i = Some out ->
    exists o writes, (outputs (last_input_output w) !! i = Some (Success o) \/ outputs (last_input_output w) !! i = Some (SkipRest o)) /\
      Forall2 (materializes w i) (delta_keys (last_input_output w) i) writes /\
      @into_transaction_output_with_materialized_deltas _ Empty_set o writes = Ok out }.

(** ** The whole state *)
Record inv (w : world) : Prop := {
  inv_map : mv_ok stored (limit_of kind) (data w, commit_idx w);
  inv_commit : 0 <= commit_idx w <= num_txns block;
  inv_active (i : TxnIndex) a : active w !! i = Some a -> commit_idx w <= i < num_txns block;
  inv_outputs (i : TxnIndex) s : outputs (last_input_output w) !! i = Some s -> 0 <= i < num_txns block;
  inv_history (i : TxnIndex) (inc : Incarnation) r : history w !! (i, inc) = Some r -> 0 <= i /\ inc < next_of w i;
  inv_entries k (j : TxnIndex) e : entry_at w k j = Some e ->
    exists (inc : Incarnation) r, history w !! (j, inc) = Some r /\ entry_for kind inc r k = Some (strip (cell e));
  inv_txn (i : TxnIndex) : commit_idx w <= i -> txn_inv w i;
  inv_modules k : k ∈ module_reads (last_input_output w) -> k ∉ module_writes (last_input_output w);
  inv_published k (j : TxnIndex) : (k, j) ∈ published w -> k ∈ module_writes (last_input_output w) \/
    exists inc reads r todo, active w !! j = Some (Updating inc reads r todo) /\ k ∈ written_modules (status_of r);
  inv_module_cache k v (j : TxnIndex) e : (cache w).2 !! k = Some v -> (j, e) ∈ module_map v -> (k, j) ∈ published w;
  inv_hooks (i : TxnIndex) : is_Some (committing w !! i) \/ is_Some (committed_output w !! i) -> 0 <= i < commit_idx w;
  inv_commits : commits w (commit_idx w) (accumulated_fees w) (halted w);
  inv_hook (i : TxnIndex) : 0 <= i < commit_idx w -> hook_inv w i }.

(** ** Frames *)

(** What every step keeps. *)
Record keeps (w w' : world) : Prop := {
  keep_history : history w ⊆ history w';
  keep_published : published w ⊆ published w';
  keep_reads : module_reads (last_input_output w) ⊆ module_reads (last_input_output w');
  keep_writes : module_writes (last_input_output w) ⊆ module_writes (last_input_output w');
  keep_halted : halted w = true -> halted w' = true;
  keep_values k (i : TxnIndex) : i <= commit_idx w -> value_at w' k i = value_at w k i;
  keep_cells k (i : TxnIndex) : i < commit_idx w -> cell_at w' k i = cell_at w k i;
  keep_outputs (i : TxnIndex) : i < commit_idx w -> outputs (last_input_output w') !! i = outputs (last_input_output w) !! i }.

(** A transaction that a step does not touch. *)
Record same_txn (w w' : world) (i : TxnIndex) : Prop := {
  same_active : active w' !! i = active w !! i;
  same_outputs : outputs (last_input_output w') !! i = outputs (last_input_output w) !! i;
  same_inputs : inputs (last_input_output w') !! i = inputs (last_input_output w) !! i;
  same_aborted : i ∈ aborted w' <-> i ∈ aborted w;
  same_next : next_of w' i = next_of w i;
  same_history (inc : Incarnation) : history w' !! (i, inc) = history w !! (i, inc);
  same_entry k : entry_at w' k i = entry_at w k i }.

Lemma explains_keeps w w' i desc a : keeps w w' -> explains w i desc a -> explains w' i desc a.
Proof.
  intros Hk. unfold explains. destruct (read_kind desc); try done.
  - intros (? & r & v & Hh & He & Ha). split; [done|]. exists r, v. split_and!; [|done|done].
    by eapply lookup_weaken, keep_history.
  - intros (? & [?|(j & ? & Hp)]); (split; [done|]); [by left|]. right. exists j. split; [done|]. by apply (keep_published _ _ Hk).
Qed.

Lemma traced_keeps w w' i reads p : keeps w w' -> traced w i reads p -> traced w' i reads p.
Proof.
  intros Hk [?|(p0 & ? & Ht)]; [left; by apply (keep_halted _ _ Hk)|]. right. exists p0. split; [done|].
  induction Ht; [constructor|]. econstructor; [done|]. by eapply explains_keeps.
Qed.

Lemma settled_same w w' i inc r k : entry_at w' k i = entry_at w k i -> settled w i inc r k -> settled w' i inc r k.
Proof. unfold settled. by intros ->. Qed.

Lemma keys_in_same w w' i : same_txn w w' i -> keys_in w i -> keys_in w' i.
Proof.
  intros Hs Hk k e He. rewrite (same_entry _ _ _ Hs) in He. specialize (Hk k e He). unfold modified_keys in *.
  by rewrite (same_outputs _ _ _ Hs).
Qed.

Lemma recorded_keeps w w' i inc r reads s : keeps w w' -> same_txn w w' i ->
  recorded w i inc r reads s -> recorded w' i inc r reads s.
Proof.
  intros Hk Hs [H1 H2 H3 H4 H5 H6 H7 H8]. split; try done.
  - by rewrite (same_inputs _ _ _ Hs).
  - by rewrite (same_history _ _ _ Hs).
  - by eapply traced_keeps.
  - intros k Hc. eapply settled_same; [apply (same_entry _ _ _ Hs)|by apply H6].
  - intros k Hin. by apply (keep_reads _ _ Hk), H7.
  - intros k Hin. by apply (keep_writes _ _ Hk), H8.
Qed.

Lemma txn_inv_keeps w w' i : keeps w w' -> same_txn w w' i -> txn_inv w i -> txn_inv w' i.
Proof.
  intros Hk Hs. unfold txn_inv. rewrite (same_active _ _ _ Hs).
  destruct (active w !! i) as [[inc p reads|inc reads r todo|todo]|].
  - intros (? & ? & ? & ? & ?). rewrite (same_next _ _ _ Hs), (same_history _ _ _ Hs). split_and!; try done; [by eapply keys_in_same|by eapply traced_keeps].
  - intros (? & ? & ? & ? & Hset). rewrite (same_history _ _ _ Hs). split_and!; try done; [by eapply traced_keeps|].
    intros k Hc. destruct (Hset k Hc); [by left|]. right. eapply settled_same; [apply (same_entry _ _ _ Hs)|done].
  - intros [? ?]. split; [by apply (same_aborted _ _ _ Hs)|by eapply keys_in_same].
  - intros [? Hrec]. split; [by eapply keys_in_same|]. intros s Ha Ho. rewrite (same_outputs _ _ _ Hs) in Ho.
    destruct (Hrec s) as (inc & r & reads & ?); [by rewrite <-(same_aborted _ _ _ Hs)|done|].
    exists inc, r, reads. by eapply recorded_keeps.
Qed.

Lemma committed_keeps w w' (i : TxnIndex) r : keeps w w' -> i < commit_idx w -> committed_txn w i r -> committed_txn w' i r.
Proof.
  intros Hk Hi [H1 (p & Hp & Hran) (inc & H3) H4]. split; [done| | |].
  - exists p. split; [done|]. eapply ran_mono; [|done]. intros k a. unfold reads_as. destruct (is_module_path k).
    + intros [? ?]. split; [done|]. by apply (keep_reads _ _ Hk).
    + by rewrite (keep_values _ _ Hk) by lia.
  - exists inc. intros k Hc. rewrite (keep_cells _ _ Hk) by done. by apply H3.
  - intros k Hin. by apply (keep_writes _ _ Hk), H4.
Qed.

Lemma commits_keeps w w' n fees stop : keeps w w' -> n <= commit_idx w -> commits w n fees stop -> commits w' n fees stop.
Proof.
  intros Hk Hn Hc. induction Hc as [|n fees r fees' s Hc IH Hn0 Hr Hs Ho]; [constructor|].
  eapply commits_next; [apply IH; lia|done|eapply committed_keeps; [done|lia|done]|done|].
  by rewrite (keep_outputs _ _ Hk) by lia.
Qed.

Lemma materializes_keeps w w' (i : TxnIndex) k write : keeps w w' -> i < commit_idx w -> materializes w i k write -> materializes w' i k write.
Proof. intros Hk Hi (? & v & ? & Hv). split; [done|]. exists v. split; [done|]. by rewrite (keep_values _ _ Hk) by lia. Qed.

Lemma delta_keys_keeps w w' (i : TxnIndex) : keeps w w' -> i < commit_idx w ->
  delta_keys (last_input_output w') i = delta_keys (last_input_output w) i.
Proof. intros Hk Hi. unfold delta_keys. by rewrite (keep_outputs _ _ Hk) by done. Qed.

Lemma hook_keeps w w' (i : TxnIndex) : keeps w w' -> i < commit_idx w -> committing w' !! i = committing w !! i ->
  committed_output w' !! i = committed_output w !! i -> hook_inv w i -> hook_inv w' i.
Proof.
  intros Hk Hi Hc Ho [H1 H2]. split; rewrite (delta_keys_keeps _ _ _ Hk Hi).
  - intros keys writes Hw. rewrite Hc in Hw. destruct (H1 _ _ Hw) as (done & ? & Hf). exists done. split; [by assumption|].
    eapply Forall2_impl; [exact Hf|]. intros. by eapply materializes_keeps.
  - intros out Hout. rewrite Ho in Hout. destruct (H2 _ Hout) as (o & writes & Hoo & Hf & ?). exists o, writes. rewrite (keep_outputs _ _ Hk i Hi).
    split_and!; [done| |done]. eapply Forall2_impl; [exact Hf|]. intros. by eapply materializes_keeps.
Qed.

(** ** Steps of one transaction *)
Lemma inv_local w w' (i : TxnIndex) : inv w -> keeps w w' ->
  commit_idx w' = commit_idx w -> halted w' = halted w -> accumulated_fees w' = accumulated_fees w ->
  committing w' = committing w -> committed_output w' = committed_output w ->
  (forall j : TxnIndex, j <> i -> same_txn w w' j) ->
  mv_ok stored (limit_of kind) (data w', commit_idx w) ->
  (forall a, active w' !! i = Some a -> commit_idx w <= i < num_txns block) ->
  (forall s, outputs (last_input_output w') !! i = Some s -> 0 <= i < num_txns block) ->
  (forall (inc : Incarnation) r, history w' !! (i, inc) = Some r -> 0 <= i /\ inc < next_of w' i) ->
  (forall k e, entry_at w' k i = Some e ->
    exists (inc : Incarnation) r, history w' !! (i, inc) = Some r /\ entry_for kind inc r k = Some (strip (cell e))) ->
  (commit_idx w <= i -> txn_inv w' i) ->
  (forall k, k ∈ module_reads (last_input_output w') -> k ∉ module_writes (last_input_output w')) ->
  (forall k j, (k, j) ∈ published w' -> (k, j) ∈ published w \/
    j = i /\ exists inc reads r todo, active w' !! i = Some (Updating inc reads r todo) /\ k ∈ written_modules (status_of r)) ->
  (forall inc reads r todo, active w !! i = Some (Updating inc reads r todo) ->
    (forall k, k ∈ written_modules (status_of r) -> k ∈ module_writes (last_input_output w')) \/
    exists inc' reads' todo', active w' !! i = Some (Updating inc' reads' r todo')) ->
  (forall k v j e, (cache w').2 !! k = Some v -> (j, e) ∈ module_map v -> (k, j) ∈ published w') ->
  inv w'.
Proof.
  intros Hw Hk Ec Eh Ef Eg Eo Hsame Hmv Hact Hout Hhis Hent Htxn Hmod Hpub Hupd Hmc.
  split; rewrite ?Ec; try done.
  - apply (inv_commit _ Hw).
  - intros j a Hj. destruct (decide (j = i)) as [->|Hne]; [by eapply Hact|].
    rewrite (same_active _ _ _ (Hsame j Hne)) in Hj. by eapply inv_active.
  - intros j s Hj. destruct (decide (j = i)) as [->|Hne]; [by eapply Hout|].
    rewrite (same_outputs _ _ _ (Hsame j Hne)) in Hj. by eapply inv_outputs.
  - intros j inc r Hj. destruct (decide (j = i)) as [->|Hne]; [by eapply Hhis|].
    rewrite (same_history _ _ _ (Hsame j Hne)) in Hj. rewrite (same_next _ _ _ (Hsame j Hne)). by eapply inv_history.
  - intros k j e Hj. destruct (decide (j = i)) as [->|Hne]; [by eapply Hent|].
    rewrite (same_entry _ _ _ (Hsame j Hne)) in Hj. destruct (inv_entries _ Hw _ _ _ Hj) as (inc & r & ? & ?).
    exists inc, r. split; [by rewrite (same_history _ _ _ (Hsame j Hne))|done].
  - intros j Hj. destruct (decide (j = i)) as [->|Hne]; [by apply Htxn|].
    eapply txn_inv_keeps; [done|by apply Hsame|by apply (inv_txn _ Hw)].
  - intros k j [Hp|[-> ?]]%Hpub; [|by right]. destruct (inv_published _ Hw _ _ Hp) as [?|(inc & reads & r & todo & Ha & Hin)].
    { left. by apply (keep_writes _ _ Hk). }
    destruct (decide (j = i)) as [->|Hne].
    + destruct (Hupd _ _ _ _ Ha) as [?|(inc' & reads' & todo' & ?)]; [left; auto|right; by exists inc', reads', r, todo'].
    + right. exists inc, reads, r, todo. by rewrite (same_active _ _ _ (Hsame j Hne)).
  - rewrite Eg, Eo. apply (inv_hooks _ Hw).
  - rewrite Eh, Ef. eapply commits_keeps; [done|lia|apply (inv_commits _ Hw)].
  - intros j Hj. eapply hook_keeps; [done|lia|by rewrite Eg|by rewrite Eo|by apply Hw].
Qed.

Lemma keeps_data w w' : data w' = data w -> history w ⊆ history w' -> published w ⊆ published w' ->
  module_reads (last_input_output w) ⊆ module_reads (last_input_output w') ->
  module_writes (last_input_output w) ⊆ module_writes (last_input_output w') -> (halted w = true -> halted w' = true) ->
  (forall i : TxnIndex, i < commit_idx w -> outputs (last_input_output w') !! i = outputs (last_input_output w) !! i) -> keeps w w'.
Proof.
  intros Ed. intros. split; try done.
  - intros k i Hi. unfold value_at. by rewrite Ed.
  - intros k i Hi. unfold cell_at, entry_at. by rewrite Ed.
Qed.

(** A step that only changes what a worker does. *)
Lemma inv_quiet w w' (i : TxnIndex) : inv w -> cache w' = cache w -> last_input_output w' = last_input_output w ->
  commit_idx w' = commit_idx w -> halted w' = halted w -> accumulated_fees w' = accumulated_fees w ->
  committing w' = committing w -> committed_output w' = committed_output w -> published w' = published w ->
  history w ⊆ history w' ->
  (forall j : TxnIndex, j <> i -> active w' !! j = active w !! j /\ (j ∈ aborted w' <-> j ∈ aborted w) /\ next_of w' j = next_of w j /\
    forall inc : Incarnation, history w' !! (j, inc) = history w !! (j, inc)) ->
  commit_idx w <= i < num_txns block ->
  (forall (inc : Incarnation) r, history w' !! (i, inc) = Some r -> 0 <= i /\ inc < next_of w' i) -> txn_inv w' i ->
  (forall inc reads r todo, active w !! i <> Some (Updating inc reads r todo)) -> inv w'.
Proof.
  intros Hw Ecache Eio Ec Eh Ef Eg Eo Ep Hhis Hsame Hi Hnext Htxn Hupd.
  assert (data w' = data w) as Ed by (unfold data; by rewrite Ecache).
  apply (inv_local w w' i); rewrite ?Eio, ?Ep, ?Ecache, ?Ed; try done.
  - apply keeps_data; rewrite ?Eio, ?Ep; try done. by rewrite Eh.
  - intros j Hj. destruct (Hsame j Hj) as (? & ? & ? & ?). split; rewrite ?Eio; try done. intros k. unfold entry_at. by rewrite Ed.
  - apply (inv_map _ Hw).
  - intros s Hs. by eapply inv_outputs.
  - intros k e. unfold entry_at. rewrite Ed. intros He. destruct (inv_entries _ Hw _ _ _ He) as (inc & r & Hr & ?).
    exists inc, r. split; [by eapply lookup_weaken|done].
  - apply (inv_modules _ Hw).
  - intros k j Hkj. by left.
  - intros inc reads r todo Ha. by apply Hupd in Ha.
  - apply (inv_module_cache _ Hw).
Qed.

(** ** Assumptions

    The kind of a key says whether it is a module; every counter has a value in
    storage; whatever the transactions of the block read, what they return keeps to
    the kinds. *)
Context (module_kind : forall k, is_module_path k = true <-> kind k = Code).
Context (counters_in_storage : counters_stored kind).
Context (block_ok : forall p r, p ∈ block -> returns p r -> result_ok kind r).

Lemma no_module_kind k : is_module_path k = false -> kind k <> Code.
Proof. intros E Hc. apply module_kind in Hc. congruence. Qed.

Lemma active_set w (i : TxnIndex) a : active (set_active i a w) !! i = a.
Proof. simpl. by rewrite lookup_partial_alter_eq. Qed.

Lemma active_set_ne w (i : TxnIndex) a (j : TxnIndex) : j <> i -> active (set_active i a w) !! j = active w !! j.
Proof. intros. simpl. by rewrite lookup_partial_alter_ne by done. Qed.

Lemma txn_in_block (i : TxnIndex) p : txn block i = Some p -> p ∈ block.
Proof. apply list_elem_of_lookup_2. Qed.

(** ** Executing *)
Lemma start_inv w (i : TxnIndex) p : inv w -> commit_idx w <= i < num_txns block -> txn block i = Some p -> active w !! i = None ->
  inv (set_active i (Some (Reading (next_of w i) p [])) (set_incarnation i (next_of w i + 1) w)).
Proof.
  intros Hw Hi Hp Ha. set (w' := set_active _ _ _).
  assert (next_of w' i = next_of w i + 1) as Hnext by (unfold next_of at 1; simpl; by rewrite lookup_insert_eq).
  apply (inv_quiet w w' i); try done.
  - intros j Hj. split_and!; try done; [unfold w'; by rewrite active_set_ne|]. unfold next_of. simpl. by rewrite lookup_insert_ne.
  - intros inc r Hr. rewrite Hnext. pose proof (inv_history _ Hw _ _ _ Hr). lia.
  - unfold txn_inv. unfold w' at 1. rewrite active_set. split_and!; [done| | | |].
    + simpl. apply eq_None_not_Some. intros [r Hr%(inv_history _ Hw)]. lia.
    + intros r. apply block_ok. by eapply txn_in_block.
    + pose proof (inv_txn _ Hw i (proj1 Hi)) as Ht. unfold txn_inv in Ht. rewrite Ha in Ht. apply Ht.
    + right. exists p. split; [done|]. constructor.
  - intros inc reads r todo. by rewrite Ha.
Qed.

Lemma reading_inv w (i : TxnIndex) inc p reads p' reads' : inv w -> active w !! i = Some (Reading inc p reads) ->
  (forall r, returns p' r -> returns p r) -> (traced w i reads p -> traced w i reads' p') ->
  inv (set_active i (Some (Reading inc p' reads')) w).
Proof.
  intros Hw Ha Hret Htr. pose proof (inv_active _ Hw _ _ Ha) as Hi. pose proof (inv_txn _ Hw i (proj1 Hi)) as Ht.
  unfold txn_inv in Ht. rewrite Ha in Ht. destruct Ht as (H1 & H2 & H3 & H4 & H5). set (w' := set_active _ _ _).
  apply (inv_quiet w w' i); try done.
  - intros j Hj. split_and!; try done. by apply active_set_ne.
  - apply (inv_history _ Hw).
  - unfold txn_inv. unfold w' at 1. rewrite active_set. split_and!; try done; [auto|].
    apply (traced_keeps w); [by apply keeps_data|auto].
  - intros inc' reads1 r todo. by rewrite Ha.
Qed.

Lemma entry_for_write inc r k inc' v : entry_for kind inc r k = Some (WriteCell inc' v) -> inc' = inc.
Proof.
  unfold entry_for. destruct r as [|o]; [done|]. destruct (kind k); try done; (destruct (write_of kind o k);
    [by intros [= <- _]|]; by destruct (aggregator_delta_set (change_set o) !! k)).
Qed.

Lemma read_explained w (i : TxnIndex) key r rk a : inv w -> is_module_path key = false ->
  fetch_captured (fetch_data (data w) key i) = Some (r, Some rk) -> read_answer key r = Some a ->
  explains w i {| access_path := key; read_kind := rk |} a.
Proof.
  intros Hw Hm Hf Ha. destruct (fetch_data (data w) key i) as [[v|[j inc] v]|[|op|j|]|] eqn:E; simpl in Hf; simplify_eq; simpl in Ha;
    injection Ha as <-; (split; [done|]); try done.
  destruct (fetch_versioned _ _ (data w, commit_idx w) _ _ _ _ _ (inv_map _ Hw) E) as [f Hg].
  destruct (inv_entries _ Hw _ _ _ Hg) as (inc' & r & Hr & He). simpl in He. pose proof (entry_for_write _ _ _ _ _ He) as ->.
  by exists r, v.
Qed.

Lemma read_inv w (i : TxnIndex) inc key continue reads r rk a : inv w ->
  active w !! i = Some (Reading inc (Get key continue) reads) -> is_module_path key = false ->
  fetch_captured (fetch_data (data w) key i) = Some (r, Some rk) -> read_answer key r = Some a ->
  inv (set_active i (Some (Reading inc (continue a) (reads ++ [{| access_path := key; read_kind := rk |}]))) w).
Proof.
  intros Hw Ha Hm Hf Hr. eapply reading_inv; [done|done| |].
  - intros r'. apply returns_get.
  - intros [?|(p0 & ? & ?)]; [by left|]. right. exists p0. split; [done|]. eapply (trace_read _ _ _ _ {| access_path := key; read_kind := rk |}); [done|].
    by eapply read_explained.
Qed.

Lemma module_inv w (i : TxnIndex) inc key continue reads a : inv w ->
  active w !! i = Some (Reading inc (Get key continue) reads) -> is_module_path key = true ->
  module_answer key (fetch_module (cache w).2 key i) = Some a ->
  inv (set_active i (Some (Reading inc (continue a) (reads ++ [{| access_path := key; read_kind := ReadModule |}]))) w).
Proof.
  intros Hw Ha Hm Hf. eapply reading_inv; [done|done| |].
  { intros r'. apply returns_get. }
  intros [?|(p0 & ? & ?)]; [by left|]. right. exists p0. split; [done|].
  eapply (trace_read _ _ _ _ {| access_path := key; read_kind := ReadModule |}); [done|]. split; [done|].
  unfold fetch_module in Hf. destruct ((cache w).2 !! key) as [v|] eqn:Ev; [|simpl in Hf; injection Hf as <-; by left].
  unfold read_module in Hf. destruct (reverse _) as [|[j e] l] eqn:El; simpl in Hf; [injection Hf as <-; by left|]. right. exists j.
  assert ((j, e) ∈ List.filter (fun e => e.1 <? i) (module_map v)) as Hin by (apply elem_of_reverse; rewrite El; by left).
  apply list_elem_of_In, filter_In in Hin as [Hin Hlt]. apply list_elem_of_In in Hin.
  split; [by apply Z.ltb_lt in Hlt|]. by eapply inv_module_cache.
Qed.

Lemma no_missing_base w (i : TxnIndex) key : inv w -> fetch_captured (fetch_data (data w) key i) = Some (RUnresolved, None) ->
  get_state_value_u128 (view_bytes base_view) key = Ok (Some (stored key)).
Proof.
  intros Hw Hf. apply counters_in_storage. destruct (fetch_data (data w) key i) as [[v|[j inc] v]|[|op|j|]|] eqn:E; simpl in Hf; simplify_eq.
  pose proof (fetch_unresolved _ _ (data w, commit_idx w) _ _ _ (inv_map _ Hw) E) as Hl. unfold limit_of, counter in *. by destruct (kind key).
Qed.

(** ** The updates of an execution *)
Lemma entry_for_output inc o k : kind k <> Code -> entry_for kind inc (inr o) k =
  match write_of kind o k with Some w => Some (WriteCell inc w) | None => d ← aggregator_delta_set (change_set o) !! k; Some (DeltaCell d None) end.
Proof. intros Hk. simpl. by destruct (kind k). Qed.

Lemma output_fits inc r : result_ok kind r -> Forall (fits inc r) (output_updates r).
Proof.
  destruct r as [|o]; [by constructor|]. intros (Hok & _). unfold output_updates. rewrite !Forall_app, !Forall_fmap, !Forall_forall. split_and!.
  - intros [k v] Hin. simpl. destruct (lookup_by_kind kind o k Hok) as (Hr & _ & Ha & _).
    apply elem_of_app in Hin as [Hin|Hin]; apply elem_of_entries in Hin; rewrite ?Hr, ?Ha in Hin; destruct (kind k); try done; by rewrite Hin.
  - intros [k v] Hin. apply elem_of_entries in Hin. simpl.
    destruct (should_restart_execution _); simpl; apply elem_of_entries_keys; by exists v.
  - intros [k d] Hin. apply elem_of_entries in Hin. simpl. pose proof (aggregators_ok _ _ Hok k) as Ha. unfold write_of.
    destruct (kind k); [naive_solver..|]. destruct Ha as [[Hn|Hn] _]; [by rewrite Hn, Hin|congruence].
Qed.

Lemma output_covers inc r k : result_ok kind r -> entry_for kind inc r k <> None -> exists u, u ∈ output_updates r /\ data_key u = Some k.
Proof.
  destruct r as [|o]; [done|]. intros (Hok & _) He. assert (kind k <> Code) as Hk by (intros E; simpl in He; by rewrite E in He).
  rewrite entry_for_output in He by done. destruct (lookup_by_kind kind o k Hok) as (Hr & _ & Ha & _). unfold output_updates.
  destruct (write_of kind o k) as [v|] eqn:Ew.
  - exists (UWrite k v). split; [|done]. apply elem_of_app. left. apply list_elem_of_fmap. exists (k, v). split; [done|].
    apply elem_of_app. rewrite !elem_of_entries, Hr, Ha. destruct (kind k); [by left|done|by right].
  - destruct (aggregator_delta_set (change_set o) !! k) as [d|] eqn:Ed; [|done]. exists (UDelta k d). split; [|done].
    apply elem_of_app. right. apply elem_of_app. right. apply list_elem_of_fmap. exists (k, d). split; [done|]. by apply elem_of_entries.
Qed.

Lemma output_data_key r u : result_ok kind r -> u ∈ output_updates r -> kind (update_key u) <> Code -> data_key u = Some (update_key u).
Proof.
  destruct r as [|o]; [by intros _ ?%not_elem_of_nil|]. intros (Hok & _). unfold output_updates. rewrite !elem_of_app.
  intros [Hu|[Hu|Hu]]; apply list_elem_of_fmap in Hu as ([k v] & -> & Hin); simpl; try done.
  intros Hk. destruct Hk. apply (modules_ok _ _ Hok). apply elem_of_entries in Hin. by exists v.
Qed.

Lemma updates_fit inc prev r : result_ok kind r -> Forall (fits inc r) (execution_updates prev r).
Proof.
  intros Hr. unfold execution_updates. apply Forall_app. split; [by apply output_fits|]. apply Forall_fmap, Forall_forall.
  intros [k m] Hin. apply list_elem_of_In, filter_In in Hin as [_ Hn]. destruct m; [done|]. simpl.
  destruct (decide (entry_for kind inc r k = None)) as [?|Hne]; [done|]. exfalso.
  destruct (output_covers inc r k Hr Hne) as (u & Hu & Hk). apply negb_true_iff, bool_decide_eq_false_1 in Hn. apply Hn.
  apply list_elem_of_fmap. exists u. split; [|done]. by destruct u as [| | |? []]; simpl in *; simplify_eq.
Qed.

Lemma updates_cover inc prev r k : result_ok kind r -> kind k <> Code -> entry_for kind inc r k <> None \/ (k, false) ∈ prev ->
  exists u, u ∈ execution_updates prev r /\ data_key u = Some k.
Proof.
  intros Hr Hk Hor. unfold execution_updates. assert ((exists u, u ∈ output_updates r /\ data_key u = Some k) \/ (k, false) ∈ prev) as [(u & ? & ?)|Hp].
  { destruct Hor as [?|?]; [left; by eapply output_covers|by right]. }
  { exists u. split; [|done]. apply elem_of_app. by left. }
  destruct (decide (k ∈ update_key <$> output_updates r)) as [Hin|Hn].
  - apply list_elem_of_fmap in Hin as (u & -> & Hu). exists u. split; [apply elem_of_app; by left|by eapply output_data_key].
  - exists (UDelete k false). split; [|done]. apply elem_of_app. right. apply list_elem_of_fmap. exists (k, false). split; [done|].
    apply list_elem_of_In, filter_In. split; [by apply list_elem_of_In|]. by rewrite bool_decide_eq_false_2.
Qed.

Lemma return_inv w (i : TxnIndex) inc r reads : inv w -> active w !! i = Some (Reading inc (Ret r) reads) ->
  inv (set_active i (Some (Updating inc reads r (execution_updates (modified_keys (last_input_output w) i) r))) (set_history (i, inc) r w)).
Proof.
  intros Hw Ha. pose proof (inv_active _ Hw _ _ Ha) as Hi. pose proof (inv_txn _ Hw i (proj1 Hi)) as Ht.
  unfold txn_inv in Ht. rewrite Ha in Ht. destruct Ht as (Hn & Hh & Hret & Hkeys & Htr). set (w' := set_active _ _ _).
  assert (history w ⊆ history w') as Hsub by (by apply insert_subseteq).
  assert (result_ok kind r) as Hok by (apply Hret; constructor).
  apply (inv_quiet w w' i); try done.
  - intros j Hj. split_and!; try done; [unfold w'; by rewrite active_set_ne|]. intros inc'. simpl. rewrite lookup_insert_ne; [done|congruence].
  - intros inc' r' Hr'. simpl in Hr'. change (next_of w' i) with (next_of w i). apply lookup_insert_Some in Hr' as [[E _]|[_ Hr']]; [|by eapply inv_history].
    injection E as <-. pose proof (inv_commit _ Hw). lia.
  - unfold txn_inv. unfold w' at 1. rewrite active_set. split_and!; [simpl; by rewrite lookup_insert_eq|done| |by apply updates_fit|].
    + apply (traced_keeps w); [by apply keeps_data|done].
    + intros k Hk. destruct (entry_at w k i) as [e|] eqn:Ee; [left; apply (updates_cover inc); [done|done|right; by eapply Hkeys]|].
      destruct (decide (entry_for kind inc r k = None)) as [En|En]; [|left; apply (updates_cover inc); [done|done|by left]].
      right. unfold settled. change (entry_at w' k i) with (entry_at w k i). by rewrite Ee.
  - intros inc' reads1 r' todo. by rewrite Ha.
Qed.

(** ** Aborting *)
Lemma abort_inv w (i : TxnIndex) : inv w -> commit_idx w <= i -> active w !! i = None -> is_Some (outputs (last_input_output w) !! i) ->
  inv (set_active i (Some (Aborting (modified_keys (last_input_output w) i))) (set_aborted ({[i]} ∪ aborted w) w)).
Proof.
  intros Hw Hi Ha [s Hs]. pose proof (inv_outputs _ Hw _ _ Hs). pose proof (inv_txn _ Hw i Hi) as Ht.
  unfold txn_inv in Ht. rewrite Ha in Ht. destruct Ht as [Hk _]. set (w' := set_active _ _ _).
  apply (inv_quiet w w' i); try done.
  - intros j Hj. split_and!; try done; [unfold w'; by rewrite active_set_ne|]. simpl. rewrite elem_of_union, elem_of_singleton. tauto.
  - lia.
  - apply (inv_history _ Hw).
  - unfold txn_inv. unfold w' at 1. rewrite active_set. split; [|done]. simpl. rewrite elem_of_union, elem_of_singleton. by left.
  - intros inc reads r todo. by rewrite Ha.
Qed.

Lemma aborted_inv w (i : TxnIndex) : inv w -> active w !! i = Some (Aborting []) -> inv (set_active i None w).
Proof.
  intros Hw Ha. pose proof (inv_active _ Hw _ _ Ha) as Hi. pose proof (inv_txn _ Hw i (proj1 Hi)) as Ht.
  unfold txn_inv in Ht. rewrite Ha in Ht. destruct Ht as [Hab Hk]. set (w' := set_active _ _ _).
  apply (inv_quiet w w' i); try done.
  - intros j Hj. split_and!; try done. by apply active_set_ne.
  - apply (inv_history _ Hw).
  - unfold txn_inv. unfold w' at 1. rewrite active_set. split; [done|]. intros s Hn. by destruct Hn.
  - intros inc reads r todo. by rewrite Ha.
Qed.

(** ** Changes of the map *)

(** The entry of transaction [i] at a key is changed, and nothing else. *)
Record puts (d d' : VersionedData WriteOp.t K) (k0 : K) (i : TxnIndex) (new : option (Entry WriteOp.t)) : Prop := {
  puts_get k (j : TxnIndex) : BTreeMap.get (entries_of d' k) j =
    if bool_decide (k = k0 /\ j = i) then new else BTreeMap.get (entries_of d k) j;
  puts_below k (j : TxnIndex) : j <= i -> below j (entries_of d' k) = below j (entries_of d k) }.

Lemma entries_put (d : VersionedData WriteOp.t K) k0 v k :
  entries_of (<[k0 := v]> d) k = if bool_decide (k = k0) then versioned_map v else entries_of d k.
Proof.
  assert ((<[k0 := v]> d : gmap K (VersionedValue WriteOp.t)) !! k = if bool_decide (k = k0) then Some v else d !! k) as E.
  { case_bool_decide; [subst; apply (lookup_insert_eq (M:=gmap K))|by apply (lookup_insert_ne (M:=gmap K))]. }
  unfold entries_of, VersionedData in *. case_bool_decide; by rewrite E.
Qed.

Lemma insert_puts (d : VersionedData WriteOp.t K) k0 v (i : TxnIndex) e : versioned_map v = BTreeMap.insert (entries_of d k0) i e ->
  puts d (<[k0 := v]> d) k0 i (Some e).
Proof.
  intros Ev. split; intros k j; rewrite entries_put, Ev.
  - case_bool_decide as E; [subst|by rewrite bool_decide_eq_false_2 by tauto]. rewrite BTreeMap.get_insert.
    destruct (Z.eqb_spec j i) as [->|]; [by rewrite bool_decide_eq_true_2|by rewrite bool_decide_eq_false_2 by tauto].
  - intros Hj. case_bool_decide as E; [subst|done]. by apply below_insert.
Qed.

Lemma remove_puts (d : VersionedData WriteOp.t K) k0 v (i : TxnIndex) : versioned_map v = BTreeMap.remove (entries_of d k0) i ->
  puts d (<[k0 := v]> d) k0 i None.
Proof.
  intros Ev. split; intros k j; rewrite entries_put, Ev.
  - case_bool_decide as E; [subst|by rewrite bool_decide_eq_false_2 by tauto]. rewrite BTreeMap.get_remove.
    destruct (Z.eqb_spec j i) as [->|]; [by rewrite bool_decide_eq_true_2|by rewrite bool_decide_eq_false_2 by tauto].
  - intros Hj. case_bool_decide as E; [subst|done]. by apply below_remove.
Qed.

Lemma entries_default (d : VersionedData WriteOp.t K) k : versioned_map (default new_versioned_value (d !! k)) = entries_of d k.
Proof. unfold entries_of. by destruct (d !! k). Qed.

Lemma write_puts k (i : TxnIndex) inc v (d : VersionedData WriteOp.t K) :
  puts d (write k (i, inc) v d).1 k i (Some (new_write_from inc v)).
Proof. apply insert_puts. simpl. by rewrite entries_default. Qed.

Lemma add_delta_puts k (i : TxnIndex) x (d : VersionedData WriteOp.t K) : puts d (add_delta k i x d).1 k i (Some (new_delta_from x)).
Proof. apply insert_puts. simpl. by rewrite entries_default. Qed.

Lemma delete_puts k (i : TxnIndex) (d d' : VersionedData WriteOp.t K) : delete_entry k i d = (d', Ok tt) -> puts d d' k i None.
Proof.
  unfold delete_entry. destruct (d !! k) as [v|] eqn:Ev; [|done]. intros [= <- _]. apply remove_puts. simpl. unfold entries_of. by rewrite Ev.
Qed.

Lemma estimate_puts k (i : TxnIndex) (d d' : VersionedData WriteOp.t K) : mark_estimate k i d = (d', Ok tt) ->
  exists e, BTreeMap.get (entries_of d k) i = Some e /\ puts d d' k i (Some (mark_entry_estimate e)).
Proof.
  unfold mark_estimate, entries_of. destruct (d !! k) as [v|] eqn:Ev; [|done].
  destruct (BTreeMap.get (versioned_map v) i) as [e|] eqn:Ee; [|done]. intros [= <-]. exists e. split; [done|].
  apply insert_puts. simpl. unfold entries_of. by rewrite Ev.
Qed.

(** What is still to do when a worker makes a change. *)
Lemma put_inv w (i : TxnIndex) d' k0 new a : inv w -> is_Some (active w !! i) -> puts (data w) d' k0 i new ->
  mv_ok stored (limit_of kind) (d', commit_idx w) ->
  (forall e, new = Some e -> exists (inc : Incarnation) r, history w !! (i, inc) = Some r /\ entry_for kind inc r k0 = Some (strip (cell e))) ->
  (forall inc reads r todo, active w !! i = Some (Updating inc reads r todo) -> exists todo', a = Updating inc reads r todo') ->
  let w' := set_active i (Some a) (set_cache (d', (cache w).2) w) in
  (keeps w w' -> (forall k, entry_at w' k i = if bool_decide (k = k0) then new else entry_at w k i) -> txn_inv w' i) -> inv w'.
Proof.
  intros Hw [a0 Ha] [Hget Hbelow] Hmv Hnew Hupd w' Htxn. pose proof (inv_active _ Hw _ _ Ha) as Hi.
  assert (forall k (j : TxnIndex), j <> i -> entry_at w' k j = entry_at w k j) as Hne.
  { intros k j Hj. unfold entry_at. simpl. rewrite Hget. rewrite bool_decide_eq_false_2; [done|tauto]. }
  assert (forall k, entry_at w' k i = if bool_decide (k = k0) then new else entry_at w k i) as Heq.
  { intros k. unfold entry_at. simpl. rewrite Hget. case_bool_decide as E; case_bool_decide; tauto. }
  assert (keeps w w') as Hk.
  { split; try done.
    - intros k j Hj. unfold value_at. simpl. rewrite Hbelow; [done|lia].
    - intros k j Hj. unfold cell_at. rewrite Hne; [done|lia]. }
  apply (inv_local w w' i); try done.
  - intros j Hj. split; try done; [unfold w'; by rewrite active_set_ne|]. intros k. by apply Hne.
  - apply (inv_outputs _ Hw).
  - apply (inv_history _ Hw).
  - intros k e. rewrite Heq. case_bool_decide as E; [subst; by apply Hnew|by apply (inv_entries _ Hw)].
  - auto.
  - apply (inv_modules _ Hw).
  - intros k j Hj. by left.
  - intros inc reads r todo Hr. right. destruct (Hupd _ _ _ _ Hr) as [todo' ->]. exists inc, reads, todo'. unfold w'. by rewrite active_set.
  - apply (inv_module_cache _ Hw).
Qed.

(** ** Updating *)
Definition done_entry (c : EntryCell WriteOp.t) : Entry WriteOp.t := {| cell := c; flag := Done |}.

Lemma entry_for_fits inc r k c : result_ok kind r -> entry_for kind inc r k = Some c -> entry_fits (limit_of kind) k (done_entry c).
Proof.
  destruct r as [|o]; [done|]. intros (Hok & Hw & _) He. unfold entry_fits, limit_of. pose proof (aggregators_ok _ _ Hok k) as Ha.
  simpl in He. unfold write_of in He. destruct (kind k) as [| |limit] eqn:Ek; [|done|].
  - destruct Ha as [_ Hd]. rewrite Hd in He. destruct (resource_write_set _ !! k); [by injection He as <-|done].
  - destruct Ha as [_ Hd]. destruct (aggregator_write_set _ !! k) as [v|] eqn:Ev; [injection He as <-; by apply (Hw k)|].
    destruct (aggregator_delta_set _ !! k) as [d|]; [|done]. injection He as <-. by apply Hd.
Qed.

Lemma entry_for_strip inc r k c : entry_for kind inc r k = Some c -> strip c = c.
Proof.
  destruct r as [|o]; [done|]. simpl. destruct (kind k); try done;
    (destruct (write_of kind o k); [by intros [= <-]|]; by destruct (aggregator_delta_set _ !! k); simpl; intros; simplify_eq).
Qed.

(** A change to the data leaves what the execution has at the key. *)
Lemma update_puts w (i : TxnIndex) inc r u k0 c : inv w -> commit_idx w <= i -> result_ok kind r -> fits inc r u -> data_key u = Some k0 ->
  perform_update (i, inc) u (cache w) = (c, Ok tt) ->
  c.2 = (cache w).2 /\ puts (data w) c.1 k0 i (option_map done_entry (entry_for kind inc r k0)) /\
  mv_ok stored (limit_of kind) (c.1, commit_idx w).
Proof.
  intros Hw Hi Hr Hf Hk Hp. assert (forall op, allowed (limit_of kind) (data w, commit_idx w) op ->
    mv_ok stored (limit_of kind) (perform stored op (data w, commit_idx w)).1) as Hok.
  { intros op. apply perform_ok; [apply stored_nonneg|apply (inv_map _ Hw)]. }
  unfold data in *. destruct (cache w) as [d m]. simpl in Hok |- *.
  destruct u as [k v|k v|k x|k []]; simpl in Hf, Hk; try done; injection Hk as ->; rewrite Hf; simpl in Hp;
    [injection Hp as <- _|injection Hp as <-|destruct (delete_entry k0 i d) as [d' o] eqn:E; injection Hp as <- ->]; simpl; (split; [done|]).
  - split; [apply write_puts|]. apply (Hok (OpWrite k0 (i, inc) v)). split; [done|]. by eapply entry_for_fits.
  - split; [apply add_delta_puts|]. apply (Hok (OpDelta k0 i x)). split; [done|]. by eapply entry_for_fits.
  - split; [by apply delete_puts|].
    pose proof (Hok (OpDelete k0 i) Hi) as Hd. simpl in Hd. by rewrite E in Hd.
Qed.

Lemma update_data_inv w (i : TxnIndex) inc reads r u k0 todo c : inv w -> active w !! i = Some (Updating inc reads r (u :: todo)) ->
  data_key u = Some k0 -> perform_update (i, inc) u (cache w) = (c, Ok tt) ->
  inv (set_active i (Some (Updating inc reads r todo)) (set_cache c w)).
Proof.
  intros Hw Ha Hk Hp. pose proof (inv_active _ Hw _ _ Ha) as Hi. pose proof (inv_txn _ Hw i (proj1 Hi)) as Ht.
  unfold txn_inv in Ht. rewrite Ha in Ht. destruct Ht as (Hh & Hok & Htr & [Hfit Hfits]%Forall_cons & Hset).
  destruct (update_puts _ _ _ _ _ _ _ Hw (proj1 Hi) Hok Hfit Hk Hp) as (Ec & Hputs & Hmv). rewrite (surjective_pairing c), Ec.
  eapply put_inv; [done|by eexists|done|done| | |].
  - intros e He. destruct (entry_for kind inc r k0) as [x|] eqn:E; [|done]. injection He as <-. exists inc, r. split; [done|].
    simpl. by rewrite (entry_for_strip _ _ _ _ E).
  - intros inc' reads' r' todo'. rewrite Ha. intros [= <- <- <- <-]. by eexists.
  - set (w' := set_active _ _ _). intros Hkeep Hentry. unfold txn_inv. unfold w' at 1. rewrite active_set. split_and!; try done.
    { by eapply traced_keeps. }
    intros k Hc. destruct (decide (k = k0)) as [->|Hne].
    + right. unfold settled. rewrite Hentry, bool_decide_eq_true_2 by done. destruct (entry_for kind inc r k0) as [x|] eqn:E; [|done]. simpl.
      by rewrite (entry_for_strip _ _ _ _ E).
    + destruct (Hset k Hc) as [(u' & [->|?]%elem_of_cons & ?)|Hs]; [congruence|left; by exists u'|]. right.
      eapply settled_same; [|done]. by rewrite Hentry, bool_decide_eq_false_2.
Qed.

(** A step on the modules. *)
Lemma modules_inv w w' (i : TxnIndex) a : inv w -> active w !! i = Some a -> data w' = data w ->
  last_input_output w' = last_input_output w -> commit_idx w' = commit_idx w -> halted w' = halted w ->
  accumulated_fees w' = accumulated_fees w -> committing w' = committing w -> committed_output w' = committed_output w ->
  history w' = history w -> aborted w' = aborted w -> next_incarnation w' = next_incarnation w ->
  (forall j : TxnIndex, j <> i -> active w' !! j = active w !! j) -> published w ⊆ published w' ->
  (keeps w w' -> txn_inv w' i) ->
  (forall k j, (k, j) ∈ published w' -> (k, j) ∈ published w \/
    j = i /\ exists inc reads r todo, active w' !! i = Some (Updating inc reads r todo) /\ k ∈ written_modules (status_of r)) ->
  (forall inc reads r todo, a = Updating inc reads r todo -> exists inc' reads' todo', active w' !! i = Some (Updating inc' reads' r todo')) ->
  (forall k v j e, (cache w').2 !! k = Some v -> (j, e) ∈ module_map v -> (k, j) ∈ published w') -> inv w'.
Proof.
  intros Hw Ha Ed Eio Ec Eh Ef Eg Eo Ehis Eab En Hact Hsub Htxn Hpub Hupd Hmc.
  assert (forall k j, entry_at w' k j = entry_at w k j) as He by (intros; unfold entry_at; by rewrite Ed).
  assert (keeps w w') as Hk by (apply keeps_data; rewrite ?Eio, ?Ehis, ?Eh; done).
  apply (inv_local w w' i); rewrite ?Eio; try done.
  - intros j Hj. split; rewrite ?Eio, ?Ehis, ?Eab; try done; [by apply Hact|unfold next_of; by rewrite En].
  - rewrite Ed. apply (inv_map _ Hw).
  - intros ? _. by apply (inv_active _ Hw _ _ Ha).
  - apply (inv_outputs _ Hw).
  - unfold next_of. rewrite Ehis, En. apply (inv_history _ Hw).
  - intros k e. rewrite He, Ehis. apply (inv_entries _ Hw).
  - auto.
  - apply (inv_modules _ Hw).
  - intros inc reads r todo Hr. right. apply (Hupd inc reads r todo). congruence.
Qed.

Lemma modules_put (m : VersionedModules (V:=WriteOp.t) (X:=X) (K:=K)) k0 v k v' :
  (<[k0 := v]> m : gmap K _) !! k = Some v' -> k = k0 /\ v' = v \/ m !! k = Some v'.
Proof. intros Hl. apply (lookup_insert_Some (M:=gmap K)) in Hl as [[-> ->]|[_ ?]]; [by left|by right]. Qed.

Lemma update_module_inv w (i : TxnIndex) inc reads r u todo c : inv w -> active w !! i = Some (Updating inc reads r (u :: todo)) ->
  data_key u = None -> perform_update (i, inc) u (cache w) = (c, Ok tt) ->
  inv (set_active i (Some (Updating inc reads r todo)) (match u with UModule key _ => set_published key i | _ => id end (set_cache c w))).
Proof.
  intros Hw Ha Hk Hp. pose proof (inv_active _ Hw _ _ Ha) as Hi. pose proof (inv_txn _ Hw i (proj1 Hi)) as Ht.
  unfold txn_inv in Ht. rewrite Ha in Ht. destruct Ht as (Hh & Hok & Htr & [Hfit Hfits]%Forall_cons & Hset). set (w' := set_active _ _ _).
  assert (c.1 = data w /\ forall k v j e, c.2 !! k = Some v -> (j, e) ∈ module_map v -> (k, j) ∈ published w') as [Ec Hmc].
  { pose proof (inv_module_cache _ Hw) as Hmc. unfold data, w' in *. clear w'. destruct (cache w) as [d m]. simpl in Hmc.
    destruct u as [k v|k v|k x|k []]; simpl in Hk; try done; simpl in Hp |- *.
    - unfold write_module in Hp. destruct (new_module_write v) as [en| |]; simplify_eq. split; [done|]. simpl.
      intros k' v' j e [[-> ->]|Hl]%modules_put Hin; [|apply elem_of_union; right; by eapply Hmc]. simpl in Hin.
      apply BTreeMap.insert_elem in Hin as [Hin|Hin]; [injection Hin as -> _; apply elem_of_union; left; by apply elem_of_singleton|].
      apply elem_of_union; right. destruct (m !! k) as [v0|] eqn:E; [by eapply Hmc|]. by apply not_elem_of_nil in Hin.
    - unfold delete_module in Hp. destruct (m !! k) as [v0|] eqn:E; [|done]. injection Hp as <- _. split; [done|].
      intros k' v' j e [[-> ->]|Hl]%modules_put Hin; [|by eapply Hmc]. simpl in Hin. eapply Hmc; [done|].
      apply list_elem_of_In, filter_In in Hin as [Hin _]. by apply list_elem_of_In. }
  assert (active w' = partial_alter (fun _ => Some (Updating inc reads r todo)) i (active w)) as Eact by (by destruct u as [| | |? []]).
  assert (active w' !! i = Some (Updating inc reads r todo)) as Eact' by (by rewrite Eact, lookup_partial_alter_eq).
  apply (modules_inv w w' i (Updating inc reads r (u :: todo))); try done; try by destruct u as [| | |? []].
  - intros j Hj. by rewrite Eact, lookup_partial_alter_ne.
  - destruct u; simpl; set_solver.
  - intros Hkeep. unfold txn_inv. rewrite Eact'. assert (history w' = history w) as -> by (by destruct u as [| | |? []]).
    split_and!; try done; [by eapply traced_keeps|]. intros k Hc. destruct (Hset k Hc) as [(u' & [->|?]%elem_of_cons & ?)|Hs]; [congruence|left; by exists u'|].
    right. eapply settled_same; [|done]. unfold entry_at, data. by destruct u as [| | |? []]; simpl; rewrite Ec.
  - rewrite Eact'. intros k j Hin. assert ((k, j) ∈ published w \/ exists v, u = UModule k v /\ j = i) as [?|(v & -> & ->)].
    { destruct u; simpl in Hin; try by left. apply elem_of_union in Hin as [Hin%elem_of_singleton|?]; [|by left].
      right. injection Hin as -> ->. by eexists. }
    + by left.
    + right. split; [done|]. by exists inc, reads, r, todo.
  - intros inc' reads' r' todo' [= <- <- <- <-]. rewrite Eact'. by eexists _, _, _.
Qed.

Lemma update_inv w (i : TxnIndex) inc reads r u todo c : inv w -> active w !! i = Some (Updating inc reads r (u :: todo)) ->
  perform_update (i, inc) u (cache w) = (c, Ok tt) ->
  inv (set_active i (Some (Updating inc reads r todo)) (match u with UModule key _ => set_published key i | _ => id end (set_cache c w))).
Proof.
  intros Hw Ha Hp. destruct (data_key u) as [k|] eqn:Ek; [|by eapply update_module_inv].
  pose proof (update_data_inv _ _ _ _ _ _ _ _ _ Hw Ha Ek Hp). by destruct u.
Qed.

(** ** Marking estimates *)
Lemma estimate_data_inv w (i : TxnIndex) k todo c : inv w -> active w !! i = Some (Aborting ((k, false) :: todo)) ->
  perform_estimate i k false (cache w) = (c, Ok tt) -> inv (set_active i (Some (Aborting todo)) (set_cache c w)).
Proof.
  intros Hw Ha Hp. pose proof (inv_active _ Hw _ _ Ha) as Hi. pose proof (inv_txn _ Hw i (proj1 Hi)) as Ht.
  unfold txn_inv in Ht. rewrite Ha in Ht. destruct Ht as [Hab Hkeys].
  assert (exists d', mark_estimate k i (data w) = (d', Ok tt) /\ c = (d', (cache w).2)) as (d' & Hm & ->).
  { unfold data. destruct (cache w) as [d m]. simpl in Hp |- *. destruct (mark_estimate k i d) as [d' o]. simplify_eq. by eexists. }
  destruct (estimate_puts _ _ _ _ Hm) as (e & He & Hputs). eapply put_inv; [done|by eexists|done| | | |].
  - pose proof (perform_ok _ _ _ (OpEstimate k i) stored_nonneg (inv_map _ Hw) (proj1 Hi)) as Hok. simpl in Hok. by rewrite Hm in Hok.
  - intros e' [= <-]. apply (inv_entries _ Hw _ _ _ He).
  - intros inc reads r todo'. by rewrite Ha.
  - set (w' := set_active _ _ _). intros Hkeep Hentry. unfold txn_inv. unfold w' at 1. rewrite active_set. split; [done|].
    intros k' e'. rewrite Hentry. case_bool_decide as E; [|apply Hkeys]. subst. intros _. by apply (Hkeys _ e).
Qed.

Lemma estimate_module_inv w (i : TxnIndex) k todo c : inv w -> active w !! i = Some (Aborting ((k, true) :: todo)) ->
  perform_estimate i k true (cache w) = (c, Ok tt) -> inv (set_active i (Some (Aborting todo)) (set_cache c w)).
Proof.
  intros Hw Ha Hp. pose proof (inv_active _ Hw _ _ Ha) as Hi. pose proof (inv_txn _ Hw i (proj1 Hi)) as Ht.
  unfold txn_inv in Ht. rewrite Ha in Ht. destruct Ht as [Hab Hkeys]. set (w' := set_active _ _ _).
  assert (c.1 = data w /\ forall k v j e, c.2 !! k = Some v -> (j, e) ∈ module_map v -> (k, j) ∈ published w) as [Ec Hmc].
  { pose proof (inv_module_cache _ Hw) as Hmc. unfold data. destruct (cache w) as [d m]. simpl in Hmc, Hp |- *. unfold mark_module_estimate in Hp.
    destruct (m !! k) as [v0|] eqn:Ev; [|done]. destruct (BTreeMap.get (module_map v0) i) as [e0|] eqn:Ee; [|done]. simplify_eq. split; [done|].
    intros k' v' j e [[-> ->]|Hl]%modules_put Hin; [|by eapply Hmc]. simpl in Hin.
    apply BTreeMap.insert_elem in Hin as [Hin|Hin]; [|by eapply Hmc]. injection Hin as -> _. eapply Hmc; [done|]. by apply BTreeMap.get_in. }
  assert (data w' = data w) as Ed by (unfold data, w'; done).
  apply (modules_inv w w' i (Aborting ((k, true) :: todo))); try done.
  - intros j Hj. unfold w'. by rewrite active_set_ne.
  - intros Hkeep. unfold txn_inv. unfold w' at 1. rewrite active_set. split; [done|]. intros k' e. unfold entry_at. rewrite Ed. apply Hkeys.
  - intros k' j ?. by left.
Qed.

Lemma estimate_inv w (i : TxnIndex) k m todo c : inv w -> active w !! i = Some (Aborting ((k, m) :: todo)) ->
  perform_estimate i k m (cache w) = (c, Ok tt) -> inv (set_active i (Some (Aborting todo)) (set_cache c w)).
Proof. destruct m; [apply estimate_module_inv|apply estimate_data_inv]. Qed.

(** ** Base values and recorded values *)

(** The map is changed, but not what it means. *)
Record restates (w : world) (d' : VersionedData WriteOp.t K) : Prop := {
  restates_ok : mv_ok stored (limit_of kind) (d', commit_idx w);
  restates_value k (j : TxnIndex) : sequentially (stored k) (below j (entries_of d' k)) = value_at w k j;
  restates_cell k (j : TxnIndex) : option_map (fun e => strip (cell e)) (BTreeMap.get (entries_of d' k) j) = cell_at w k j;
  restates_entry k (j : TxnIndex) : commit_idx w <= j -> BTreeMap.get (entries_of d' k) j = entry_at w k j }.

Lemma restates_keeps w d' : restates w d' -> keeps w (set_cache (d', (cache w).2) w).
Proof. intros [_ Hv Hc _]. split; try done; intros k j _; [apply Hv|apply Hc]. Qed.

Lemma restates_inv w d' : inv w -> restates w d' -> inv (set_cache (d', (cache w).2) w).
Proof.
  intros Hw Hr. pose proof (restates_keeps _ _ Hr) as Hk. set (w' := set_cache _ _) in *. destruct Hr as [Hok Hv Hc He].
  split; try done; try apply Hw.
  - intros k j e Hj. pose proof (Hc k j) as Hkj. change (BTreeMap.get (entries_of d' k) j) with (entry_at w' k j) in Hkj.
    rewrite Hj in Hkj. unfold cell_at in Hkj. destruct (entry_at w k j) as [e0|] eqn:E; [|done]. injection Hkj as ->. by apply (inv_entries _ Hw).
  - intros i Hi. apply (txn_inv_keeps w); [done| |by apply Hw]. split; try done. intros k. by apply He.
  - eapply commits_keeps; [done|simpl; lia|apply (inv_commits _ Hw)].
  - intros j Hj. eapply hook_keeps; [done|simpl in Hj; lia|done|done|by apply Hw].
Qed.

Lemma base_restates w k d' : inv w -> get_state_value_u128 (view_bytes base_view) k = Ok (Some (stored k)) ->
  set_aggregator_base_value k (stored k) (data w) = (d', Ok tt) -> restates w d'.
Proof.
  intros Hw Hs Hb. assert (forall k', entries_of d' k' = entries_of (data w) k') as He.
  { intros k'. unfold set_aggregator_base_value in Hb. destruct (data w !! k) as [v|] eqn:Ev; [|done]. injection Hb as <- _.
    rewrite entries_put. case_bool_decide as E; [|done]. subst. unfold entries_of. by rewrite Ev. }
  split; intros; rewrite ?He; try done.
  pose proof (perform_ok _ _ _ (OpBase k) stored_nonneg (inv_map _ Hw) I) as Hok. simpl in Hok. by rewrite Hb in Hok.
Qed.

Lemma base_inv w k v d' (i : TxnIndex) : inv w -> fetch_captured (fetch_data (data w) k i) = Some (RUnresolved, None) ->
  get_state_value_u128 (view_bytes base_view) k = Ok (Some v) -> set_aggregator_base_value k v (data w) = (d', Ok tt) ->
  inv (set_cache (d', (cache w).2) w).
Proof.
  intros Hw Hf Hv Hb. pose proof (no_missing_base _ _ _ Hw Hf) as Hs. assert (v = stored k) as -> by congruence.
  apply restates_inv; [done|]. by eapply base_restates.
Qed.

Lemma materialize_restates w k (i : TxnIndex) : inv w -> 0 <= i < commit_idx w -> restates w (materialize_delta k i (data w)).1.
Proof.
  intros Hw Hi. assert (restates w (data w)) as Hsame by (split; try done; apply (inv_map _ Hw)).
  pose proof (perform_ok _ _ _ (OpMaterialize k i) stored_nonneg (inv_map _ Hw) Hi) as Hok. simpl in Hok. revert Hok.
  unfold materialize_delta. destruct (data w !! k) as [v|] eqn:Ev; [|done].
  destruct (u32_succ i ≫= read v) as [[x|]|[]|]; try done.
  destruct (BTreeMap.get (versioned_map v) i) as [e|] eqn:Ee; [|done].
  destruct (record_delta_shortcut e x) as [e'| |] eqn:Er; try done. intros Hok. simpl in Hok |- *.
  assert (entries_of (data w) k = versioned_map v) as Em by (unfold entries_of; by rewrite Ev).
  unfold record_delta_shortcut in Er. destruct e as [[|d sc] f]; [done|]. simpl in Er. apply bind_Ok in Er as (? & _ & [= <-]).
  split; [done|..]; intros k' j; unfold value_at, cell_at, entry_at; rewrite entries_put; (case_bool_decide as E; [subst k'; rewrite Em; simpl|done]).
  - rewrite (sequentially_record _ _ _ _ _ _ _ _ (value_ordered _ _ _ _ _ (inv_map _ Hw _ _ Ev)) Ee). done.
  - rewrite BTreeMap.get_insert. destruct (Z.eqb_spec j i) as [->|]; [|done]. by rewrite Ee.
  - intros Hj. rewrite BTreeMap.get_insert. destruct (Z.eqb_spec j i) as [->|]; [|done]. lia.
Qed.

(** ** The hook of a committed transaction *)
Definition output_in (s : ExecutionStatus VMOutput Error) : option VMOutput :=
  match s with Success o | SkipRest o => Some o | Abort _ => None end.

Lemma status_output r : output_in (status_of r) = match r with inr o => Some o | inl _ => None end.
Proof. destruct r as [|o]; simpl; [done|]. by destruct (should_restart_execution _). Qed.

Lemma commit_status_output fees s fees' s' : @commit_status _ _ Empty_set fees s = Ok (fees', s') -> output_in s' = output_in s.
Proof.
  unfold commit_status. destruct (fee_statement_of s) as [f|]; [|by intros [= _ <-]]. intros (f1 & _ & H)%bind_Ok.
  apply bind_Ok in H as (over & _ & H). destruct over; [|by injection H as _ <-]. apply bind_Ok in H as (o & Ho & [= _ <-]).
  by destruct s; simpl in Ho; simplify_eq.
Qed.

Lemma output_in_io (io : TxnLastInputOutput) (i : TxnIndex) s : outputs io !! i = Some s ->
  delta_keys io i = match output_in s with Some o => (entries key_leb (aggregator_delta_set (change_set o))).*1 | None => [] end.
Proof. unfold delta_keys. intros ->. by destruct s. Qed.

Lemma commits_txn w n fees stop (i : TxnIndex) : commits w n fees stop -> 0 <= i < n ->
  exists r s, committed_txn w i r /\ outputs (last_input_output w) !! i = Some s /\ output_in s = output_in (status_of r).
Proof.
  induction 1 as [|n fees r fees' s Hc IH Hn0 Hr Hs Ho]; intros Hi; [lia|]. destruct (decide (i = n)) as [->|]; [|apply IH; lia].
  exists r, s. split_and!; [done|done|]. by eapply commit_status_output.
Qed.

(** The entry of a delta of a committed transaction. *)
Lemma delta_entry w n fees stop (i : TxnIndex) k : commits w n fees stop -> 0 <= i < n -> k ∈ delta_keys (last_input_output w) i ->
  counter kind k /\ exists d sc f, entry_at w k i = Some {| cell := DeltaCell d sc; flag := f |}.
Proof.
  intros Hc Hi Hk. destruct (commits_txn _ _ _ _ _ Hc Hi) as (r & s & [Hok _ (inc & Hcells) _] & Ho & Eo).
  rewrite (output_in_io _ _ _ Ho), Eo, status_output in Hk. destruct r as [|o]; [by apply not_elem_of_nil in Hk|].
  apply elem_of_entries_keys in Hk as [d Hd]. destruct Hok as (Hok & _ & _). destruct (lookup_by_kind kind o k Hok) as (_ & _ & _ & [Hcnt|Hn]); [|congruence].
  split; [done|]. assert (kind k <> Code) as Hcode by (unfold counter in Hcnt; by destruct (kind k)). specialize (Hcells k Hcode).
  rewrite entry_for_output in Hcells by done. pose proof (aggregators_ok _ _ Hok k) as Ha. unfold write_of, counter in *.
  destruct (kind k); [done..|]. destruct Ha as [[Ha|?] _]; [|congruence]. rewrite Ha, Hd in Hcells. unfold cell_at in Hcells.
  destruct (entry_at w k i) as [[[|d' sc] f]|]; [done| |done]. by exists d', sc, f.
Qed.

Lemma commit_delta_restates w (i : TxnIndex) k d' v : inv w -> 0 <= i < commit_idx w ->
  @commit_delta _ _ _ Empty_set k i (data w) = (d', Ok v) -> restates w d'.
Proof.
  intros Hw Hi Hd. pose proof (materialize_restates w k i Hw Hi) as Hres. unfold commit_delta in Hd.
  destruct (materialize_delta k i (data w)) as [d1 [y|op|]] eqn:Ed; simpl in Hres; [by injection Hd as <- <-| |done].
  destruct (get_state_value_u128 (view_bytes base_view) k) as [[b|]| |] eqn:Es; try done.
  assert (b = stored k) as -> by (unfold stored; by rewrite Es).
  destruct (set_aggregator_base_value k (stored k) d1) as [d2 [[]| |]] eqn:Eb; [|done..]. injection Hd as <- _.
  pose proof (base_restates (set_cache (d1, (cache w).2) w) k d2 (restates_inv _ _ Hw Hres) Es Eb) as [H1 H2 H3 H4].
  destruct Hres as [_ G2 G3 G4]. split; intros; rewrite ?H2, ?H3; [done|apply G2|apply G3|].
  rewrite H4 by done. by apply G4.
Qed.

Lemma commit_delta_value w (i : TxnIndex) k d' v : inv w -> 0 <= i < commit_idx w ->
  k ∈ delta_keys (last_input_output w) i -> @commit_delta _ _ _ Empty_set k i (data w) = (d', Ok v) -> value_at w k (i + 1) = Value v.
Proof.
  intros Hw Hi Hk Hd. destruct (delta_entry _ _ _ _ _ _ (inv_commits _ Hw) Hi Hk) as (Hcnt & x & sc & f & He). assert (i + 1 < 2 ^ 32) as Hu.
  { destruct (Z.lt_ge_cases (i + 1) (2 ^ 32)) as [?|Hge]; [done|]. unfold commit_delta, materialize_delta, u32_succ in Hd.
    rewrite (proj2 (Z.ltb_ge _ _)) in Hd by done. by destruct (data w !! k). }
  pose proof (materialize_gives stored (limit_of kind) (data w, commit_idx w) k i x sc f stored_nonneg (inv_map _ Hw) Hi Hu He) as Hm.
  simpl in Hm. change (sequentially _ _) with (value_at w k (i + 1)) in Hm. unfold commit_delta in Hd.
  destruct (materialize_delta k i (data w)) as [d1 [y|op|]] eqn:Ed; simpl in Hm; [..|done].
  - injection Hd as _ <-. destruct (value_at w k (i + 1)); by simplify_eq.
  - rewrite (counters_in_storage k Hcnt) in Hd.
    destruct (set_aggregator_base_value k (stored k) d1) as [d2 [[]| |]]; [|done..]. injection Hd as _ Hv.
    destruct (value_at w k (i + 1)); simplify_eq; destruct Hm as [_ Hm]; [rewrite Hm in Hv; by injection Hv as <-|].
    by destruct (DeltaOp.apply_to op (stored k)).
Qed.

(** A step of the hook of transaction [i]. *)
Lemma hook_step_inv w w' (i : TxnIndex) : inv w -> 0 <= i < commit_idx w -> cache w' = cache w ->
  last_input_output w' = last_input_output w -> active w' = active w -> next_incarnation w' = next_incarnation w ->
  aborted w' = aborted w -> commit_idx w' = commit_idx w -> accumulated_fees w' = accumulated_fees w -> halted w' = halted w ->
  history w' = history w -> published w' = published w ->
  (forall j : TxnIndex, j <> i -> committing w' !! j = committing w !! j /\ committed_output w' !! j = committed_output w !! j) ->
  (keeps w w' -> hook_inv w i -> hook_inv w' i) -> inv w'.
Proof.
  intros Hw Hi Ec Eio Ea En Eab Eci Ef Eh Ehis Ep Hne Hhook.
  assert (data w' = data w) as Ed by (unfold data; by rewrite Ec).
  assert (forall k j, entry_at w' k j = entry_at w k j) as He by (intros; unfold entry_at; by rewrite Ed).
  assert (keeps w w') as Hk by (apply keeps_data; rewrite ?Eio, ?Ehis, ?Ep, ?Eh; done).
  split; rewrite ?Ed, ?Eci, ?Ea, ?Eio, ?Ehis, ?Ep, ?Ec, ?Eh, ?Ef; try apply Hw.
  - intros j inc r. unfold next_of. rewrite En. apply (inv_history _ Hw).
  - intros k j e. rewrite He. apply (inv_entries _ Hw).
  - intros j Hj. apply (txn_inv_keeps w); [done| |by apply Hw]. split; rewrite ?Ea, ?Eio, ?Eab, ?Ehis; try done. unfold next_of. by rewrite En.
  - intros j Hj. destruct (decide (j = i)) as [->|Hji]; [done|]. destruct (Hne j Hji) as [E1 E2]. rewrite E1, E2 in Hj. by apply Hw.
  - eapply commits_keeps; [done|lia|apply (inv_commits _ Hw)].
  - intros j Hj. destruct (decide (j = i)) as [->|Hji]; [apply Hhook; [done|by apply Hw]|]. destruct (Hne j Hji) as [E1 E2].
    eapply hook_keeps; [done|lia|done|done|by apply Hw].
Qed.

Lemma committing_set w (i : TxnIndex) x : committing (set_committing i x w) !! i = x.
Proof. simpl. by rewrite lookup_partial_alter_eq. Qed.

Lemma committing_set_ne w (i : TxnIndex) x (j : TxnIndex) : j <> i -> committing (set_committing i x w) !! j = committing w !! j.
Proof. intros. simpl. by rewrite lookup_partial_alter_ne by done. Qed.

Lemma delta_inv w (i : TxnIndex) k keys writes d' v : inv w -> committing w !! i = Some (k :: keys, writes) ->
  @commit_delta _ _ _ Empty_set k i (data w) = (d', Ok v) ->
  inv (set_committing i (Some (keys, writes ++ [(k, WriteOp.Modification (serialize v))])) (set_cache (d', (cache w).2) w)).
Proof.
  intros Hw Hc Hd. assert (0 <= i < commit_idx w) as Hi by (apply (inv_hooks _ Hw); left; by eexists).
  pose proof (commit_delta_restates _ _ _ _ _ Hw Hi Hd) as Hr. set (w1 := set_cache _ _). set (w' := set_committing _ _ _).
  assert (inv w1) as Hw1 by (by apply restates_inv). assert (keeps w w1) as Hk1 by (by apply restates_keeps).
  apply (hook_step_inv w1 w' i); try done.
  - intros j Hj. split; [by apply committing_set_ne|done].
  - intros Hk [H1 H2]. destruct (H1 _ _ Hc) as (done & Ed & Hf). split.
    + intros keys' writes'. unfold w'. rewrite committing_set. intros [= <- <-]. exists (done ++ [k]).
      change (last_input_output w') with (last_input_output w1). split; [by rewrite <-app_assoc|]. apply Forall2_app.
      { eapply Forall2_impl; [exact Hf|]. intros. eapply materializes_keeps; [exact Hk|apply Hi|by assumption]. }
      constructor; [|constructor]. split; [by reflexivity|]. exists v. split; [by reflexivity|].
      assert (k ∈ delta_keys (last_input_output w) i) as Hin by (change (last_input_output w) with (last_input_output w1); rewrite Ed; set_solver).
      rewrite (keep_values _ _ Hk), (keep_values _ _ Hk1) by (simpl in *; lia).
      eapply commit_delta_value; [exact Hw|exact Hi|exact Hin|exact Hd].
    + intros out Hout. destruct (H2 out Hout) as (o & ws & Ho & Hfo & ?). exists o, ws. split_and!; [by assumption| |by assumption].
      eapply Forall2_impl; [exact Hfo|]. intros. eapply materializes_keeps; [exact Hk|apply Hi|by assumption].
Qed.

Lemma output_inv w (i : TxnIndex) writes o out : inv w -> committing w !! i = Some ([], writes) ->
  match outputs (last_input_output w) !! i with Some (Success o' | SkipRest o') => o' = o | _ => False end ->
  @into_transaction_output_with_materialized_deltas _ Empty_set o writes = Ok out ->
  inv (set_committing i None (set_committed_output i out w)).
Proof.
  intros Hw Hc Ho Hout. assert (0 <= i < commit_idx w) as Hi by (apply (inv_hooks _ Hw); left; by eexists). set (w' := set_committing _ _ _).
  apply (hook_step_inv w w' i); try done.
  - intros j Hj. split; [unfold w'; by rewrite committing_set_ne|]. simpl. by rewrite lookup_insert_ne.
  - intros Hk [H1 _]. destruct (H1 _ _ Hc) as (done & Ed & Hf). split.
    + intros keys' writes'. unfold w'. by rewrite committing_set.
    + intros out' Hout'. simpl in Hout'. rewrite lookup_insert_eq in Hout'. injection Hout' as <-. exists o, writes. split_and!; [| |by assumption].
      * change (last_input_output w') with (last_input_output w). destruct (outputs (last_input_output w) !! i) as [[]|];
          [subst; by left|destruct Ho|subst; by right|destruct Ho].
      * change (last_input_output w') with (last_input_output w). rewrite Ed, app_nil_r. eapply Forall2_impl; [exact Hf|].
        intros. eapply materializes_keeps; [exact Hk|apply Hi|by assumption].
Qed.

(** ** Recording *)
Lemma append_and_check_inv paths (a c : gset K) a' : append_and_check paths a c = (a', false) ->
  (forall k, k ∈ a' <-> k ∈ paths \/ k ∈ a) /\ forall k, k ∈ paths -> k ∉ c.
Proof using Type.
  revert a. induction paths as [|x paths IH]; intros a; simpl.
  - intros [= <-]. split; intros k; rewrite elem_of_nil; tauto.
  - case_bool_decide as E; [done|]. intros [H1 H2]%IH. split; intros k; rewrite elem_of_cons.
    + rewrite H1, elem_of_union, elem_of_singleton. tauto.
    + intros [->|?]; [done|by apply H2].
Qed.

(** A record that finds no module read and written. *)
Lemma record_inversion (i : TxnIndex) reads s (io io' : TxnLastInputOutput) o : record i reads s io = (io', o) ->
  module_read_write_intersection io' = false ->
  (forall k, k ∈ module_reads io -> k ∉ module_writes io) ->
  inputs io' = <[i := reads]> (inputs io) /\ outputs io' = <[i := s]> (outputs io) /\
  (forall k, k ∈ module_reads io' <-> k ∈ read_modules reads \/ k ∈ module_reads io) /\
  (forall k, k ∈ module_writes io' <-> k ∈ written_modules s \/ k ∈ module_writes io) /\
  forall k, k ∈ module_reads io' -> k ∉ module_writes io'.
Proof using Type.
  unfold record. destruct (module_read_write_intersection io) eqn:Ef; [intros [= <- _]; simpl; congruence|].
  destruct (append_and_check (read_modules reads) _ _) as [rs []] eqn:Er; [by intros [= <- _]|].
  destruct (append_and_check (written_modules s) _ _) as [ws []] eqn:Ew; [by intros [= <- _]|].
  intros [= <- _] _ Hd. simpl. apply append_and_check_inv in Er as [Hr1 Hr2]. apply append_and_check_inv in Ew as [Hw1 Hw2].
  split_and!; try done. intros k Hk [?|?]%Hw1; [by apply (Hw2 k)|]. apply Hr1 in Hk as [Hk|Hk]; [by apply (Hr2 k)|by apply (Hd k)].
Qed.

Lemma entry_modified inc r k (io : TxnLastInputOutput) (i : TxnIndex) : outputs io !! i = Some (status_of r) -> result_ok kind r ->
  entry_for kind inc r k <> None -> (k, false) ∈ modified_keys io i.
Proof.
  intros Ho Hok He. destruct r as [|o]; [done|]. unfold modified_keys. rewrite Ho.
  assert (k ∈ (entries key_leb (resource_write_set (change_set o))).*1 ++ (entries key_leb (aggregator_write_set (change_set o))).*1 ++
    (entries key_leb (aggregator_delta_set (change_set o))).*1) as Hin.
  { rewrite !elem_of_app, !elem_of_entries_keys. destruct Hok as (Hok & _). destruct (lookup_by_kind kind o k Hok) as (Hr & _ & Ha & _).
    rewrite Hr, Ha. simpl in He. destruct (kind k); [|done|]; (destruct (write_of kind o k); [naive_solver|]);
      (destruct (aggregator_delta_set (change_set o) !! k); [naive_solver|done]). }
  simpl. destruct (should_restart_execution _); apply elem_of_app; left; apply list_elem_of_fmap; by exists k.
Qed.

Lemma entry_not_code inc r k c : entry_for kind inc r k = Some c -> kind k <> Code.
Proof. destruct r as [|o]; [done|]. simpl. by destruct (kind k). Qed.

Lemma record_inv w (i : TxnIndex) inc reads r io o : inv w -> active w !! i = Some (Updating inc reads r []) ->
  record i reads (status_of r) (last_input_output w) = (io, o) -> module_read_write_intersection io = false ->
  inv (set_active i None (set_aborted (aborted w ∖ {[i]}) (set_io io w))).
Proof.
  intros Hw Ha Hrec Hflag. pose proof (inv_active _ Hw _ _ Ha) as Hi. pose proof (inv_txn _ Hw i (proj1 Hi)) as Ht.
  unfold txn_inv in Ht. rewrite Ha in Ht. destruct Ht as (Hh & Hok & Htr & _ & Hset0). set (w' := set_active _ _ _).
  assert (forall k, kind k <> Code -> settled w i inc r k) as Hset.
  { intros k Hc. destruct (Hset0 k Hc) as [(u & Hu & _)|?]; [by apply not_elem_of_nil in Hu|done]. }
  destruct (record_inversion _ _ _ _ _ _ Hrec Hflag (inv_modules _ Hw)) as (Hin & Hout & Hreads & Hwrites & Hdisj).
  assert (keeps w w') as Hk.
  { apply keeps_data; simpl; try done; [intros k; rewrite Hreads; by right|intros k; rewrite Hwrites; by right|].
    intros j Hj. rewrite Hout, lookup_insert_ne by lia. done. }
  pose proof (inv_commit _ Hw). apply (inv_local w w' i); try done.
  - intros j Hj. split; simpl; rewrite ?Hin, ?Hout; rewrite ?lookup_insert_ne, ?lookup_partial_alter_ne by done; try done. set_solver.
  - apply (inv_map _ Hw).
  - intros s _. lia.
  - apply (inv_history _ Hw).
  - intros k e. apply (inv_entries _ Hw).
  - intros _. unfold txn_inv. unfold w' at 1. rewrite active_set. assert (outputs io !! i = Some (status_of r)) as Ho by (by rewrite Hout, lookup_insert_eq).
    split.
    + intros k e He. change (entry_at w' k i) with (entry_at w k i) in He. destruct (inv_entries _ Hw _ _ _ He) as (inc' & r' & _ & Hc%entry_not_code).
      apply (entry_modified inc r); [done|done|]. specialize (Hset k Hc). unfold settled in Hset. rewrite He in Hset. by destruct Hset as [-> _].
    + intros s _ Hs. simpl in Hs. rewrite Ho in Hs. injection Hs as <-. exists inc, r, reads. split; try done.
      * simpl. by rewrite Hin, lookup_insert_eq.
      * by eapply traced_keeps.
      * intros k ?. apply Hreads. by left.
      * intros k ?. apply Hwrites. by left.
  - intros k j Hp. by left.
  - intros inc' reads' r' todo. rewrite Ha. intros [= <- <- <- <-]. left. intros k ?. apply Hwrites. by left.
  - apply (inv_module_cache _ Hw).
Qed.

(** ** Committing *)
Lemma validated_data w (i : TxnIndex) desc a : inv w -> i <= commit_idx w -> is_module_path (access_path desc) = false ->
  validate_read (data w) i desc = Ok true -> explains w i desc a -> a = answer_of (access_path desc) (value_at w (access_path desc) i).
Proof.
  intros Hw Hi Hm Hv He. set (k := access_path desc) in *.
  pose proof (fetch_sequential stored (limit_of kind) (data w, commit_idx w) k i stored_nonneg (inv_map _ Hw)
    (done_below_commit _ _ _ _ _ (inv_map _ Hw) Hi)) as Hs. change (sequentially _ _) with (value_at w k i) in Hs. simpl in Hs.
  unfold validate_read in Hv. fold k in Hv. unfold explains in He. fold k in He.
  destruct (fetch_data (data w) k i) as [[v|[j inc] v]|[|op|j|]|] eqn:Ef; simpl in Hs; try done; injection Hs as <-; injection Hv as Hv.
  - unfold validate_resolved in Hv. apply bool_decide_eq_true_1 in Hv. rewrite Hv in He. by destruct He.
  - unfold validate_version in Hv. apply bool_decide_eq_true_1 in Hv. rewrite Hv in He. destruct He as (_ & r & v' & Hr & Hen & ->).
    destruct (fetch_versioned _ _ (data w, commit_idx w) _ _ _ _ _ (inv_map _ Hw) Ef) as [f Hg].
    destruct (inv_entries _ Hw _ _ _ Hg) as (inc' & r' & Hr' & He'). simpl in He'. pose proof (entry_for_write _ _ _ _ _ He') as ->.
    rewrite Hr in Hr'. injection Hr' as <-. rewrite Hen in He'. by injection He' as <-.
  - unfold validate_storage in Hv. apply orb_true_iff in Hv as [Hv|Hv]; apply bool_decide_eq_true_1 in Hv; rewrite Hv in He; destruct He as [Hm' He]; [done|].
    congruence.
  - unfold validate_delta_application_failure in Hv. apply bool_decide_eq_true_1 in Hv. rewrite Hv in He. by destruct He.
Qed.

Lemma validated_read w desc a : inv w -> validate_read (data w) (commit_idx w) desc = Ok true -> explains w (commit_idx w) desc a ->
  (read_kind desc = ReadModule -> access_path desc ∈ module_reads (last_input_output w)) -> reads_as w (commit_idx w) (access_path desc) a.
Proof.
  intros Hw Hv He Hmod. unfold reads_as. destruct (is_module_path (access_path desc)) eqn:Hm; [|eapply validated_data; try done; lia].
  unfold explains in He. rewrite Hm in He. destruct (read_kind desc); try by destruct He. specialize (Hmod eq_refl). split; [|done].
  destruct He as [_ [?|(j & Hj & Hp)]]; [done|]. exfalso. destruct (inv_published _ Hw _ _ Hp) as [Hin|(inc & reads & r & todo & Ha & _)].
  - by eapply (inv_modules _ Hw).
  - pose proof (inv_active _ Hw _ _ Ha). lia.
Qed.

Lemma validate_reads_each d (i : TxnIndex) reads desc : validate_reads d i reads = Ok true -> desc ∈ reads -> validate_read d i desc = Ok true.
Proof.
  intros Hv Hin. induction reads as [|x reads IH]; [by apply not_elem_of_nil in Hin|]. simpl in Hv. apply bind_Ok in Hv as ([] & Hx & Hv); [|done].
  apply elem_of_cons in Hin as [->|]; auto.
Qed.

Lemma commit_txn w inc r reads s : inv w -> halted w = false -> recorded w (commit_idx w) inc r reads s ->
  validate_reads (data w) (commit_idx w) reads = Ok true -> committed_txn w (commit_idx w) r.
Proof.
  intros Hw Hh [H1 H2 H3 H4 H5 H6 H7 H8] Hv. split; [done| | |by subst].
  - destruct H5 as [?|(p & Hp & Ht)]; [congruence|]. exists p. split; [done|]. eapply trace_ran; [done| |constructor].
    intros desc a Hin He. apply validated_read; [done|by eapply validate_reads_each|done|]. intros Hk. apply H7.
    apply list_elem_of_fmap. exists desc. split; [done|]. apply list_elem_of_In, filter_In. split; [by apply list_elem_of_In|].
    by apply bool_decide_eq_true_2.
  - exists inc. intros k Hc. specialize (H6 k Hc). unfold settled, cell_at in *. destruct (entry_at w k (commit_idx w)); [|done].
    by destruct H6 as [-> _].
Qed.

Lemma committed_same w w' (i : TxnIndex) r : data w' = data w -> module_reads (last_input_output w') = module_reads (last_input_output w) ->
  module_writes (last_input_output w') = module_writes (last_input_output w) -> committed_txn w i r -> committed_txn w' i r.
Proof.
  intros Ed Er Ew [H1 (p & Hp & Hran) (inc & H3) H4]. split; rewrite ?Ew; try done.
  - exists p. split; [done|]. eapply ran_mono; [|done]. intros k a. unfold reads_as, value_at. by rewrite Ed, Er.
  - exists inc. intros k Hc. unfold cell_at, entry_at. rewrite Ed. by apply H3.
Qed.

Section commit_step.
Context (w : world) (inc : Incarnation) (r : Error + VMOutput) (reads : list ReadDescriptor) (s s' : ExecutionStatus VMOutput Error) (fees : FeeStatement.t).
Context (Hw : inv w) (Hlt : commit_idx w < num_txns block) (Hgoing : halted w = false) (Hidle : active w !! commit_idx w = None).
Context (Hout : outputs (last_input_output w) !! commit_idx w = Some s) (Hrec : recorded w (commit_idx w) inc r reads s).
Context (Hval : validate_reads (data w) (commit_idx w) reads = Ok true).
Context (Hstatus : @commit_status _ _ Empty_set (accumulated_fees w) s = Ok (fees, s')).

Let c := commit_idx w.
Let w' := set_committing c (Some (delta_keys (last_input_output w) c, []))
  (set_io (set_output c s' (last_input_output w)) (set_commit (c + 1) fees (block_truncated s') w)).

Lemma commit_keeps : keeps w w'.
Proof. apply keeps_data; try done; [by rewrite Hgoing|]. intros j Hj. simpl. by rewrite lookup_insert_ne by (unfold c; lia). Qed.

Lemma commit_map : mv_ok stored (limit_of kind) (data w, c + 1).
Proof.
  apply (perform_ok stored (limit_of kind) (data w, c) OpCommit stored_nonneg (inv_map _ Hw)). intros k e He. simpl in He.
  destruct (inv_entries _ Hw k c e He) as (inc' & r' & _ & Hc%entry_not_code). pose proof (rec_settled _ _ _ _ _ _ Hrec k Hc) as Hs.
  unfold settled, entry_at in Hs. fold c in Hs. rewrite He in Hs. apply Hs.
Qed.

Lemma commit_delta_keys : delta_keys (last_input_output w') c = delta_keys (last_input_output w) c.
Proof.
  rewrite (output_in_io _ c s'), (output_in_io _ c s); [|done|simpl; by rewrite lookup_insert_eq].
  by rewrite (commit_status_output _ _ _ _ Hstatus).
Qed.

Lemma commit_new_hook : hook_inv w' c.
Proof.
  split.
  - intros keys writes. unfold w' at 1. rewrite committing_set. intros [= <- <-]. exists []. split; [by rewrite commit_delta_keys|constructor].
  - intros out Ho. simpl in Ho. assert (0 <= c < commit_idx w) as Hc by (apply (inv_hooks _ Hw); right; by eexists). unfold c in Hc. lia.
Qed.

Lemma commit_commits : commits w' (c + 1) fees (block_truncated s').
Proof.
  pose proof (inv_commits _ Hw) as Hc. rewrite Hgoing in Hc. eapply commits_next; [eapply commits_keeps; [apply commit_keeps|unfold c; lia|done]| | | |].
  - apply (inv_commit _ Hw).
  - apply (committed_same w); [done..|]. by eapply commit_txn.
  - by rewrite <-(rec_status _ _ _ _ _ _ Hrec).
  - simpl. by rewrite lookup_insert_eq.
Qed.

Lemma commit_inv : inv w'.
Proof.
  pose proof (inv_commit _ Hw). split; try (by apply Hw).
  - apply commit_map.
  - simpl. unfold c. lia.
  - intros j a Ha. pose proof (inv_active _ Hw j a Ha). assert (j <> c) by (intros ->; simpl in Ha; unfold c in Ha; congruence).
    simpl. unfold c in *. lia.
  - intros j s0 Hs. simpl in Hs. apply lookup_insert_Some in Hs as [[<- _]|[_ Hs]]; [unfold c; lia|]. by eapply inv_outputs.
  - intros j Hj. simpl in Hj. apply (txn_inv_keeps w); [apply commit_keeps| |apply (inv_txn _ Hw); unfold c in *; lia].
    split; try done. simpl. rewrite lookup_insert_ne by lia. done.
  - intros j Hj. simpl in Hj |- *. destruct (decide (j = c)) as [->|Hne]; [unfold c; lia|]. rewrite lookup_partial_alter_ne in Hj by done.
    pose proof (inv_hooks _ Hw j Hj). unfold c. lia.
  - apply commit_commits.
  - intros j Hj. simpl in Hj. destruct (decide (j = c)) as [->|]; [apply commit_new_hook|]. assert (0 <= j < commit_idx w) by (unfold c in *; lia).
    eapply hook_keeps; [apply commit_keeps|lia| |done|by apply Hw]. unfold w'. by rewrite committing_set_ne.
Qed.
End commit_step.

Lemma commit_step_inv w reads s fees s' : inv w -> commit_idx w < num_txns block -> halted w = false -> active w !! commit_idx w = None ->
  commit_idx w ∉ aborted w -> outputs (last_input_output w) !! commit_idx w = Some s -> inputs (last_input_output w) !! commit_idx w = Some reads ->
  validate_reads (data w) (commit_idx w) reads = Ok true -> @commit_status _ _ Empty_set (accumulated_fees w) s = Ok (fees, s') ->
  inv (set_committing (commit_idx w) (Some (delta_keys (last_input_output w) (commit_idx w), []))
    (set_io (set_output (commit_idx w) s' (last_input_output w)) (set_commit (commit_idx w + 1) fees (block_truncated s') w))).
Proof.
  intros Hw Hlt Hg Ha Hn Ho Hin Hv Hs. pose proof (inv_txn _ Hw (commit_idx w) ltac:(lia)) as Ht. unfold txn_inv in Ht. rewrite Ha in Ht.
  destruct Ht as [_ Ht]. destruct (Ht s Hn Ho) as (inc & r & reads' & Hrec). pose proof (rec_inputs _ _ _ _ _ _ Hrec) as Hin'.
  rewrite Hin in Hin'. injection Hin' as <-. by eapply commit_inv.
Qed.

(** ** All steps *)
Definition fell_back (w : world) : bool := module_read_write_intersection (last_input_output w).

Lemma halted_inv w (i : TxnIndex) inc key continue reads a : inv w -> active w !! i = Some (Reading inc (Get key continue) reads) ->
  halted w = true -> inv (set_active i (Some (Reading inc (continue a) reads)) w).
Proof. intros Hw Ha Hh. eapply reading_inv; [done|done|intros r; apply returns_get|]. intros _. by left. Qed.

Lemma step_fell_back w w' : step block w w' -> fell_back w = true -> fell_back w' = true.
Proof.
  destruct 1 as [| | | | | | |w i inc reads r u todo c Ha Hp|w i inc reads r io o Ha Hr| | | | | |]; try done.
  - by destruct u as [| | |? []].
  - unfold fell_back. simpl. unfold record in Hr. intros E. rewrite E in Hr. by injection Hr as <- _.
Qed.

Lemma step_inv w w' : step block w w' -> fell_back w' = false -> inv w -> inv w'.
Proof.
  destruct 1 as [w i p|w i inc key continue reads r rk a|w i inc key continue reads v d Ha Hm Hf Hv Hb|w i inc key continue reads e Ha Hm Hf He
    |w i inc key continue reads a Ha Hm Hh|w i inc key continue reads a|w i inc r reads|w i inc reads r u todo c|w i inc reads r io o
    |w i|w i key m todo c|w i|w reads s fees s'|w i key keys writes d v|w i writes o out]; intros Hflag Hw.
  - by apply start_inv.
  - by eapply read_inv.
  - by eapply base_inv.
  - by rewrite (no_missing_base _ _ _ Hw Hf) in He.
  - eapply halted_inv; [done|done|]. unfold fell_back in Hflag. simpl in Hflag. rewrite Hflag, orb_false_r in Hh. done.
  - by eapply module_inv.
  - by apply return_inv.
  - by apply update_inv.
  - by eapply record_inv.
  - by apply abort_inv.
  - by eapply estimate_inv.
  - by apply aborted_inv.
  - by eapply commit_step_inv.
  - by apply delta_inv.
  - by eapply output_inv.
Qed.

Lemma start_world_inv : inv start_world.
Proof.
  split; try done; simpl.
  - unfold num_txns. lia.
  - by intros i [[? H]|[? H]].
  - constructor.
Qed.

Lemma reachable_inv w : reachable block w -> fell_back w = false -> inv w.
Proof.
  induction 1 as [|w w' Hr IH Hs]; intros Hf; [apply start_world_inv|]. eapply step_inv; [done|done|]. apply IH.
  destruct (fell_back w) eqn:E; [|done]. by rewrite (step_fell_back _ _ Hs E) in Hf.
Qed.
End invariant.
