(* ===== verification/BlockSTM.v ===== *)
(** * Parallel execution is sequential execution

    A finished parallel execution of a block, in which no module was both read and
    written, gives exactly the results of sequential execution: the commits of
    [ParallelInvariant] are followed by the loop of [execute_transactions_sequential]. *)

From S2P Require Import Prelude Collections Aggregator ChangeSet MVHashMap BlockExecutor SequentialState ParallelInvariant.

Section block_stm.
Context {bcs : Bcs128} {bcs_laws : Bcs128Laws} {types : ExecutorTypes} {config : ExecutorConfig}.
Context (kind : K -> item) (block : list prog).
Context (module_kind : forall k, is_module_path k = true <-> kind k = Code).
Context (counters_in_storage : counters_stored kind).

(** ** What a transaction adds to the values *)
Lemma below_succ_none (m : list (TxnIndex * Entry WriteOp.t)) (i : TxnIndex) : BTreeMap.get m i = None -> below (i + 1) m = below i m.
Proof.
  unfold below. induction m as [|[j e] m IH]; [done|]. simpl. destruct (Z.eqb_spec i j) as [->|Hne]; [done|]. intros Hg. rewrite (IH Hg).
  destruct (Z.ltb_spec j (i + 1)), (Z.ltb_spec j i); try done; lia.
Qed.

Lemma entries_ordered w k : inv kind block w -> BTreeMap.ordered (entries_of (data w) k).
Proof.
  intros Hw. unfold entries_of. destruct (data w !! k) as [v|] eqn:Ev; [|constructor]. apply (value_ordered _ _ _ _ _ (inv_map _ _ _ Hw _ _ Ev)).
Qed.

Lemma value_succ w k (i : TxnIndex) : inv kind block w -> value_at w k (i + 1) = after_cell k (value_at w k i) i (cell_at w k i).
Proof.
  intros Hw. unfold value_at, cell_at, entry_at. destruct (BTreeMap.get (entries_of (data w) k) i) as [e|] eqn:Ee; [|by rewrite below_succ_none].
  rewrite (below_succ _ _ _ (entries_ordered _ _ Hw) Ee), sequentially_app. cbn [foldl]. by rewrite after_strip.
Qed.

(** ** Materializing *)

(** A delta that has a value for the readers above has that value in sequential
    execution. *)
Lemma delta_executes (um : unsync) k s d v : counter kind k -> delta_ok d -> corresponds (unsync_fetch_data um k) s ->
  on_top (stored k) s (meaning d) = Value v ->
  try_into_write_op d (get_state_value_u128 (view_bytes (unsync_view um))) k = Ok (WriteOp.Modification (serialize v)).
Proof.
  intros Hk Hd Hc Hv. assert (exists base, get_state_value_u128 (view_bytes (unsync_view um)) k = Ok (Some base) /\ meaning d base = Some v) as (base & Hb & Hm).
  { assert (forall x, of_delta (V:=WriteOp.t) (meaning d x) = Value v -> meaning d x = Some v) as Hof.
    { intros x. unfold of_delta. destruct (meaning d x); congruence. }
    unfold get_state_value_u128, view_bytes. rewrite (view_corresponds _ _ _ Hc). destruct s as [|ver w|v'|]; simpl in Hv |- *; [| | |done].
    - exists (stored k). split; [apply (counters_in_storage k Hk)|auto].
    - destruct (value_of w) as [b|] eqn:Eb; [|done]. exists b. split; [|auto]. unfold value_of, from_write in Eb. simpl in Eb.
      destruct w; simpl in Eb |- *; try done; (destruct (from_bytes data); simpl in Eb |- *; congruence).
    - exists v'. split; [|auto]. destruct (unsync_fetch_data um k); [|done]. destruct Hc as [_ Hr]. simpl.
      unfold serialize. by rewrite from_to_bytes. }
  unfold try_into_write_op. rewrite Hb. simpl. assert (0 <= base) as Hbase.
  { unfold get_state_value_u128 in Hb. apply bind_Ok in Hb as ([bs|] & _ & Hb); [|done].
    apply bind_Ok in Hb as (x & Hx & [= <-]). by apply from_bytes_range in Hx as [? _]. }
  by rewrite (gives_Ok _ _ _ (apply_to_gives d base Hd Hbase) Hm).
Qed.

Lemma collect_all {E A B} (f : A -> outcome E B) l ys : Forall2 (fun x y => f x = Ok y) l ys -> collect f l = Ok ys.
Proof. induction 1 as [|x y l ys Hx _ IH]; simpl; [done|]. by rewrite Hx, IH. Qed.

Lemma fold_insert (l : list (K * WriteOp.t)) (m : gmap K WriteOp.t) : NoDup l.*1 ->
  foldl (fun m '(k, w) => <[k := w]> m) m l = list_to_map l ∪ m.
Proof.
  revert m. induction l as [|[k w] l IH]; intros m Hn; simpl; [by rewrite (left_id ∅ _)|]. apply NoDup_cons in Hn as [Hk Hn].
  rewrite IH by done. rewrite <-insert_union_l, <-insert_union_r; [done|]. by apply not_elem_of_list_to_map.
Qed.

(** The writes of deltas by key. *)
Definition writes_values (value : K -> Z -> Prop) : list K -> list (K * WriteOp.t) -> Prop :=
  Forall2 (fun k w => w.1 = k /\ exists v, w.2 = WriteOp.Modification (serialize v) /\ value k v).

Lemma writes_keys value ks ws : writes_values value ks ws -> ws.*1 = ks.
Proof. induction 1 as [|k [k' w] ks ws [<- _] _ IH]; simpl; [done|]. by f_equal. Qed.

Lemma writes_collected view value (l : list (K * DeltaOp.t)) ws : writes_values value l.*1 ws ->
  (forall k d v, (k, d) ∈ l -> value k v -> try_into_write_op d view k = Ok (WriteOp.Modification (serialize v))) ->
  collect (fun '(k, d) => write ← try_into_write_op d view k; Ok (k, write)) l = Ok ws.
Proof.
  intros Hws Hv. apply collect_all. revert ws Hws. induction l as [|[k d] l IH]; intros ws Hws; [inversion Hws; constructor|].
  inversion Hws as [|? [k' w] ? ws' [<- (v & Ew & Hval)] Hws']. subst. simpl in Ew. subst. constructor.
  - rewrite (Hv _ d v); [done|by left|done].
  - apply IH; [|done]. intros k0 d0 v0 Hin. apply Hv. by right.
Qed.

(** The output of sequential execution is that of the commit hook. *)
Lemma materializes_same (um : unsync) o writes out (value : K -> Z -> Prop) : result_ok kind (inr o) ->
  writes_values value (entries key_leb (aggregator_delta_set (change_set o))).*1 writes ->
  (forall k d v, aggregator_delta_set (change_set o) !! k = Some d -> value k v ->
    try_into_write_op d (get_state_value_u128 (view_bytes (unsync_view um))) k = Ok (WriteOp.Modification (serialize v))) ->
  @into_transaction_output_with_materialized_deltas _ Empty_set o writes = Ok out ->
  exists o', output_try_materialize (get_state_value_u128 (view_bytes (unsync_view um))) o = Ok o' /\
    @into_transaction_output_with_materialized_deltas _ Error o' [] = Ok out.
Proof.
  intros Hok Hws Hv Hout. set (view := get_state_value_u128 _) in *.
  assert (exists o', output_try_materialize view o = Ok o' /\
    aggregator_write_set (change_set o') = list_to_map writes ∪ aggregator_write_set (change_set o)) as (o' & Ho' & Ha).
  { unfold output_try_materialize. destruct (is_discarded (status o) || bool_decide (aggregator_delta_set (change_set o) = ∅)) eqn:E.
    - exists o. split; [done|]. assert (aggregator_delta_set (change_set o) = ∅) as Hd.
      { destruct Hok as (_ & _ & Hdisc). apply orb_true_iff in E as [E|E]; [by apply Hdisc|by apply bool_decide_eq_true_1 in E]. }
      rewrite Hd in Hws. replace (entries key_leb ∅).*1 with (@nil K) in Hws by done. inversion Hws. simpl. by rewrite (left_id ∅ _).
    - unfold try_materialize. rewrite (writes_collected view value _ writes Hws); [simpl; by eexists|].
      intros k d v Hin%elem_of_entries. by apply Hv. }
  exists o'. split; [done|]. pose proof (output_materialized _ _ _ _ Hok Ho') as [H1 H2 H3 H4 H5 H6 _].
  unfold into_transaction_output_with_materialized_deltas in *. apply bind_Ok in Hout as (_ & _ & [= <-]). rewrite H4, H1, H2. simpl.
  unfold into_storage_change_set_unchecked. simpl. rewrite Ha, H3, H5, H6, fold_insert; [done|].
  rewrite (writes_keys _ _ _ Hws). apply entries_keys_NoDup.
Qed.

(** ** Fees *)
Lemma u64_add_any E a b c : @u64_add Empty_set a b = Ok c -> @u64_add E a b = Ok c.
Proof. unfold u64_add. destruct (_ <? _); [by intros [= <-]|done]. Qed.

Lemma add_fee_any E fees fee fees' : @FeeStatement.add_fee_statement Empty_set fees fee = Ok fees' -> @FeeStatement.add_fee_statement E fees fee = Ok fees'.
Proof.
  unfold FeeStatement.add_fee_statement. intros (a & Ha & (b & Hb & (c & Hc & (d & Hd & (e & He & [= <-])%bind_Ok)%bind_Ok)%bind_Ok)%bind_Ok)%bind_Ok.
  by rewrite (u64_add_any E _ _ _ Ha), (u64_add_any E _ _ _ Hb), (u64_add_any E _ _ _ Hc), (u64_add_any E _ _ _ Hd), (u64_add_any E _ _ _ He).
Qed.

Lemma reaches_limit_any E fees b : @reaches_limit _ _ Empty_set fees = Ok b -> @reaches_limit _ _ E fees = Ok b.
Proof.
  unfold reaches_limit. destruct maybe_block_gas_limit; [|by intros [= <-]]. intros (a & Ha & [= <-])%bind_Ok. by rewrite (u64_add_any E _ _ _ Ha).
Qed.

Lemma commit_status_inv fees o fees' s : @commit_status _ _ Empty_set fees (status_of (inr o)) = Ok (fees', s) ->
  @FeeStatement.add_fee_statement Empty_set fees (fee_statement o) = Ok fees' /\
  (should_restart_execution (events (change_set o)) = true /\ s = SkipRest o \/
   should_restart_execution (events (change_set o)) = false /\
     exists over, @reaches_limit _ _ Empty_set fees' = Ok over /\ s = if over : bool then SkipRest o else Success o).
Proof.
  unfold commit_status. simpl. destruct (should_restart_execution _); simpl; intros (f & Hf & (over & Hover & H)%bind_Ok)%bind_Ok;
    destruct over; simpl in H; simplify_eq; (split; [done|]); [by left|right; split; [done|]; by eexists..].
Qed.

(** ** Sequential execution along the commits *)

(** The state of sequential execution before transaction [n]. *)
Record simulates (w : world) (n : TxnIndex) (um : unsync) : Prop := {
  sim_data k : kind k <> Code -> corresponds (unsync_fetch_data um k) (value_at w k n);
  sim_modules k : kind k = Code -> unsync_fetch_data um k <> None -> k ∈ module_writes (last_input_output w) }.

Lemma simulates_start w : inv kind block w -> simulates w 0 new_unsync_map.
Proof.
  intros Hw. split; intros k Hk; [|by intros []]. unfold value_at. rewrite below_none; [done|]. intros [j e] Hin. simpl.
  apply BTreeMap.get_elem_of in Hin; [|by apply entries_ordered]. destruct (inv_entries _ _ _ Hw _ _ _ Hin) as (inc & r & Hr & _).
  by destruct (inv_history _ _ _ Hw _ _ _ Hr).
Qed.

Lemma simulates_run w n um p r : inv kind block w -> simulates w n um -> ran (reads_as w n) p r -> run (unsync_view um) p = r.
Proof.
  intros Hw Hs. apply ran_run. intros k a. unfold reads_as. destruct (is_module_path k) eqn:Ek.
  - intros [-> Hr]. unfold unsync_view. destruct (unsync_fetch_data um k) eqn:Eu; [|done]. exfalso. eapply (inv_modules _ _ _ Hw); [done|].
    apply (sim_modules _ _ _ Hs); [by apply module_kind|congruence].
  - intros ->. apply view_corresponds, (sim_data _ _ _ Hs). intros Hc%module_kind. congruence.
Qed.

Lemma simulates_next w (n : TxnIndex) um o o' : inv kind block w -> simulates w n um -> committed_txn kind block w n (inr o) ->
  output_try_materialize (get_state_value_u128 (view_bytes (unsync_view um))) o = Ok o' -> simulates w (n + 1) (apply_writes o' um).
Proof.
  intros Hw Hs [Hok _ (inc & Hcells) Hwrites] Ho'. pose proof (output_materialized _ _ _ _ Hok Ho') as Hm.
  pose proof (materialized_ok _ _ _ _ Hok Hm) as Hok'. split; intros k Hk.
  - rewrite (value_succ _ _ _ Hw), Hcells by done. eapply commit_corresponds; try done. by apply (sim_data _ _ _ Hs).
  - rewrite (apply_writes_fetch kind) by done. unfold write_of. rewrite Hk, (mat_modules _ _ _ Hm).
    destruct (module_write_set (change_set o) !! k) as [x|] eqn:Ex; [|by apply (sim_modules _ _ _ Hs)]. intros _. apply Hwrites.
    simpl. destruct (should_restart_execution _); simpl; apply elem_of_entries_keys; by exists x.
Qed.

(** The values that the commit hook wrote are those that sequential execution finds. *)
Lemma delta_value w (n : TxnIndex) um o k d v : inv kind block w -> simulates w n um -> committed_txn kind block w n (inr o) ->
  aggregator_delta_set (change_set o) !! k = Some d -> value_at w k (n + 1) = Value v ->
  try_into_write_op d (get_state_value_u128 (view_bytes (unsync_view um))) k = Ok (WriteOp.Modification (serialize v)).
Proof.
  intros Hw Hs [(Hok & _ & _) _ (inc & Hcells) _] Hd Hv. destruct (lookup_by_kind kind o k Hok) as (_ & _ & _ & [Hcnt|]); [|congruence].
  pose proof (aggregators_ok _ _ Hok k) as Ha. assert (kind k <> Code) as Hc by (unfold counter in Hcnt; by destruct (kind k)).
  pose proof (sim_data _ _ _ Hs k Hc) as Hsim. rewrite (value_succ _ _ _ Hw), Hcells, entry_for_output in Hv by done. unfold write_of in Hv. pose proof Hcnt as Hcnt'. unfold counter in Hcnt'.
  destruct (kind k) as [| |limit]; [done..|]. destruct Ha as [[Ha|?] Hone]; [|congruence]. rewrite Ha, Hd in Hv. simpl in Hv.
  destruct (Hone d Hd) as [Hdok _]. eapply delta_executes; done.
Qed.

(** A committed transaction in the loop of sequential execution. *)
Lemma txn_executes w (n : TxnIndex) um r fees fees' s p rest : inv kind block w -> simulates w n um -> committed_txn kind block w n r ->
  txn block n = Some p -> @commit_status _ _ Empty_set fees (status_of r) = Ok (fees', s) -> outputs (last_input_output w) !! n = Some s ->
  hook_inv w n -> (output_in s <> None -> is_Some (committed_output w !! n)) ->
  match s with
  | Abort e => sequential_loop (p :: rest) um fees = Err e
  | SkipRest _ => exists out, committed_output w !! n = Some out /\ sequential_loop (p :: rest) um fees = Ok [out]
  | Success _ => exists out um', committed_output w !! n = Some out /\ simulates w (n + 1) um' /\
      sequential_loop (p :: rest) um fees = (ret ← sequential_loop rest um' fees'; Ok (out :: ret))
  end.
Proof.
  intros Hw Hs Hr Hp Hst Hout Hhook Hdone. destruct (com_ran _ _ _ _ _ Hr) as (p' & Hp' & Hran). rewrite Hp in Hp'. injection Hp' as <-.
  pose proof (simulates_run _ _ _ _ _ Hw Hs Hran) as Hrun. cbn [sequential_loop]. unfold execute_transaction_materialized. rewrite Hrun.
  pose proof (commit_status_output _ _ _ _ Hst) as Eo. rewrite status_output in Eo.
  destruct r as [e|o]; [simpl in Hst; by injection Hst as _ <-|]. destruct (Hdone ltac:(by rewrite Eo)) as [out Hco].
  destruct (hook_output _ _ Hhook _ Hco) as (o2 & writes & Ho2 & Hws & Hinto). rewrite Hout in Ho2.
  assert (o2 = o) as -> by (destruct Ho2 as [[= ->]|[= ->]]; simpl in Eo; congruence). rewrite (output_in_io _ _ _ Hout), Eo in Hws.
  destruct (materializes_same um o writes out (fun k v => value_at w k (n + 1) = Value v) (com_ok _ _ _ _ _ Hr) Hws) as (o' & Ho' & Hinto');
    [intros; by eapply delta_value|done|]. pose proof (output_materialized _ _ _ _ (com_ok _ _ _ _ _ Hr) Ho') as [H1 H2 H3 H4 _ _ _].
  pose proof (simulates_next _ _ _ _ _ Hw Hs Hr Ho') as Hnext.
  destruct (commit_status_inv _ _ _ _ Hst) as (Hfee%(add_fee_any Error) & Hcase).
  rewrite Ho'. simpl. rewrite H3. destruct Hcase as [[-> ->]|(-> & over & Hover%(reaches_limit_any Error) & ->)].
  - exists out. split; [done|]. rewrite H1, H4, bool_decide_eq_true_2, Hfee by done. simpl. by rewrite Hinto'.
  - rewrite H1, H4, bool_decide_eq_true_2, Hfee by done. simpl. rewrite Hinto'. simpl. rewrite Hover. destruct over; [by exists out|].
    by exists out, (apply_writes o' um).
Qed.

(** ** The whole block *)
Lemma txn_drop (n : TxnIndex) p : 0 <= n -> txn block n = Some p ->
  drop (Z.to_nat n) block = p :: drop (Z.to_nat (n + 1)) block /\ (length block - Z.to_nat n = S (length block - Z.to_nat (n + 1)))%nat.
Proof.
  intros Hn Hp. unfold txn in Hp. rewrite (drop_S _ p) by done. apply lookup_lt_Some in Hp.
  replace (Z.to_nat (n + 1)) with (S (Z.to_nat n)) by lia. split; [done|lia].
Qed.

(** All commits so far are those of sequential execution. *)
Definition followed (w : world) (n : TxnIndex) (fees : FeeStatement.t) : Prop := exists um outs, simulates w n um /\
  sequential_loop block new_unsync_map FeeStatement.zero = (ret ← sequential_loop (drop (Z.to_nat n) block) um fees; Ok (outs ++ ret)) /\
  parallel_loop w 0 (length block) = (ret ← parallel_loop w n (length block - Z.to_nat n); Ok (outs ++ ret)).

Lemma commits_follow w n fees stop : inv kind block w -> commits kind block w n fees stop ->
  (forall i : TxnIndex, 0 <= i < n -> hook_inv w i) ->
  (forall (i : TxnIndex) s, i < n -> outputs (last_input_output w) !! i = Some s -> output_in s <> None -> is_Some (committed_output w !! i)) ->
  if stop : bool then sequential_loop block new_unsync_map FeeStatement.zero = parallel_loop w 0 (length block) else followed w n fees.
Proof.
  intros Hw. induction 1 as [|n fees r fees' s Hc IH Hn Hr Hst Hout]; intros Hhook Hdone.
  - exists new_unsync_map, []. split_and!; [by apply simulates_start|..].
    + rewrite drop_0. by destruct (sequential_loop _ _ _).
    + rewrite Nat.sub_0_r. by destruct (parallel_loop _ _ _).
  - destruct IH as (um & outs & Hs & Hseq & Hpar); [intros; apply Hhook; lia|intros i s' ?; apply Hdone; lia|].
    destruct (com_ran _ _ _ _ _ Hr) as (p & Hp & _). destruct (txn_drop _ _ Hn Hp) as [Ed El].
    pose proof (txn_executes w n um r fees fees' s p (drop (Z.to_nat (n + 1)) block) Hw Hs Hr Hp Hst Hout (Hhook n ltac:(lia))
      (Hdone n s ltac:(lia) Hout)) as Hexec.
    rewrite Ed in Hseq. rewrite El in Hpar. cbn [parallel_loop] in Hpar. rewrite Hout in Hpar. cbn [expect] in Hpar.
    rewrite bind_ret in Hpar. destruct s as [o|e|o]; simpl.
    + destruct Hexec as (out & um' & Ho & Hs' & Hexec). rewrite Hexec in Hseq. rewrite Ho in Hpar. simpl in Hpar.
      exists um', (outs ++ [out]). split_and!; [done| |].
      * rewrite Hseq. destruct (sequential_loop (drop (Z.to_nat (n + 1)) block) um' fees'); simpl; [by rewrite <-app_assoc|done..].
      * rewrite Hpar. destruct (parallel_loop w (n + 1) _); simpl; [by rewrite <-app_assoc|done..].
    + by rewrite Hseq, Hpar, Hexec.
    + destruct Hexec as (out & Ho & Hexec). rewrite Hexec in Hseq. rewrite Ho in Hpar. by rewrite Hseq, Hpar.
Qed.

(** All transactions are committed, or a commit has ended the block, and the commit
    hooks are done. *)
Definition finished (w : world) : Prop := (halted w = true \/ commit_idx w = num_txns block) /\
  forall (i : TxnIndex) s, i < commit_idx w -> outputs (last_input_output w) !! i = Some s -> output_in s <> None ->
    is_Some (committed_output w !! i).

Lemma finished_sequential w : inv kind block w -> finished w ->
  parallel_loop w 0 (length block) = sequential_loop block new_unsync_map FeeStatement.zero.
Proof.
  intros Hw [Hend Hdone]. pose proof (commits_follow _ _ _ _ Hw (inv_commits _ _ _ Hw) (inv_hook _ _ _ Hw) Hdone) as Hf.
  destruct (halted w); [done|]. destruct Hend as [?|Hend]; [done|]. destruct Hf as (um & outs & _ & Hseq & Hpar).
  assert (Z.to_nat (commit_idx w) = length block) as E by (rewrite Hend; unfold num_txns; lia).
  rewrite E, drop_all in Hseq. rewrite E, Nat.sub_diag in Hpar. by rewrite Hseq, Hpar.
Qed.

End block_stm.

(** C6: a finished parallel execution of a block gives the results of sequential
    execution: the same outputs of transactions, or the same error, for every
    interleaving of the executions, aborts, commits and commit hooks.  The
    exception is a block in which a module is read and written, for which parallel
    execution gives no result.  The side conditions are on the keys, each of which is
    that of a resource, a module or a counter: the module keys are those
    [is_module_path] recognizes; every counter has a value in storage before the
    block ([counters_stored]), so that blocks that create a counter are not covered;
    and, whatever a transaction of the block reads, its output writes and adds to keys
    according to their kinds, counters being written as 128-bit integers, and a
    discarded transaction adds to none. *)
Theorem parallel_is_sequential `{Bcs128} `{!Bcs128Laws} `{ExecutorTypes} `{!ExecutorConfig}
    (kind : K -> item) (block : list prog) (w : world) :
  (forall k, is_module_path k = true <-> kind k = Code) ->
  counters_stored kind ->
  (forall p r, p ∈ block -> returns p r -> result_ok kind r) ->
  reachable block w -> finished block w ->
  parallel_results block w = if fell_back w then None else Some (execute_transactions_sequential block).
Proof.
  intros Hm Hc Hok Hr Hf. unfold parallel_results. fold (fell_back w). destruct (fell_back w) eqn:E; [done|].
  pose proof (reachable_inv kind block Hm Hc Hok w Hr E) as Hw. by rewrite (finished_sequential kind block Hm Hc _ Hw Hf).
Qed.
