(* ===== verification/Schedules.v ===== *)
(** * Schedules of parallel execution

    The steps of [BlockExecutor] as a function of what the workers choose to do next
    ([act]), so that an interleaving is a list of choices; and a block of three
    transactions, executed in parallel by such a schedule. *)

From S2P Require Import Prelude Collections Aggregator ChangeSet MVHashMap BlockExecutor SequentialState ParallelInvariant BlockSTM.

Section schedules.
Context {bcs : Bcs128} {types : ExecutorTypes} {config : ExecutorConfig}.
Context (block : list prog).

(** A worker takes up a transaction, goes on with it, or aborts it; the next
    transaction is committed; the commit hook of one goes on. *)
Inductive choice :=
  | Start (i : TxnIndex)
  | Turn (i : TxnIndex)
  | TryAbort (i : TxnIndex)
  | TryCommit
  | Hook (i : TxnIndex).

Definition guarded (b : bool) (w : world) : option world := if b then Some w else None.

Definition idle (w : world) (i : TxnIndex) : bool := match active w !! i with None => true | Some _ => false end.

Definition executed (w : world) (i : TxnIndex) : bool := match outputs (last_input_output w) !! i with None => false | Some _ => true end.

Definition start (w : world) (i : TxnIndex) : option world :=
  p ← txn block i;
  let inc := default 0 (next_incarnation w !! i) in
  guarded ((commit_idx w <=? i) && (i <? num_txns block) && idle w i && (negb (executed w i) || bool_decide (i ∈ aborted w)))
    (set_active i (Some (Reading inc p [])) (set_incarnation i (inc + 1) w)).

Definition turn_read (w : world) (i : TxnIndex) (inc : Incarnation) (key : K) (continue : result (option StateValue.t) -> prog)
    (reads : list ReadDescriptor) : option world :=
  let go a reads := Some (set_active i (Some (Reading inc (continue a) reads)) w) in
  if is_module_path key then
    a ← module_answer key (fetch_module (cache w).2 key i);
    go a (reads ++ [{| access_path := key; read_kind := ReadModule |}])
  else
    match fetch_captured (fetch_data (cache w).1 key i) with
    | Some (r, Some kind) => a ← read_answer key r; go a (reads ++ [{| access_path := key; read_kind := kind |}])
    | Some (RUnresolved, None) =>
        match get_state_value_u128 (view_bytes base_view) key with
        | Ok (Some v) =>
            match set_aggregator_base_value key v (cache w).1 with
            | (data, Ok _) => Some (set_cache (data, (cache w).2) w)
            | _ => None
            end
        | Ok None => go (Err "Could not find state value"%string) reads
        | Err e => go (Err e) reads
        | Panic => None
        end
    | _ => None
    end.

(** A read that was waiting when the execution was halted. *)
Definition halt_read (w : world) (i : TxnIndex) : option world :=
  match active w !! i with
  | Some (Reading inc (Get key continue) reads) =>
      a ← read_answer key RExecutionHalted;
      if is_module_path key then None else Some (set_active i (Some (Reading inc (continue a) reads)) w)
  | _ => None
  end.

Definition turn (w : world) (i : TxnIndex) : option world :=
  match active w !! i with
  | Some (Reading inc (Get key continue) reads) => turn_read w i inc key continue reads
  | Some (Reading inc (Ret r) reads) =>
      Some (set_active i (Some (Updating inc reads r (execution_updates (modified_keys (last_input_output w) i) r))) (set_history (i, inc) r w))
  | Some (Updating inc reads r (u :: todo)) =>
      match perform_update (i, inc) u (cache w) with
      | (c, Ok _) => Some (set_active i (Some (Updating inc reads r todo))
          (match u with UModule key _ => set_published key i | _ => id end (set_cache c w)))
      | _ => None
      end
  | Some (Updating inc reads r []) =>
      let '(io, _) := record i reads (status_of r) (last_input_output w) in
      Some (set_active i None (set_aborted (aborted w ∖ {[i]}) (set_io io w)))
  | Some (Aborting ((key, is_module) :: todo)) =>
      match perform_estimate i key is_module (cache w) with
      | (c, Ok _) => Some (set_active i (Some (Aborting todo)) (set_cache c w))
      | _ => None
      end
  | Some (Aborting []) => Some (set_active i None w)
  | None => None
  end.

Definition try_abort (w : world) (i : TxnIndex) : option world :=
  _ ← outputs (last_input_output w) !! i;
  guarded ((commit_idx w <=? i) && idle w i && negb (bool_decide (i ∈ aborted w)))
    (set_active i (Some (Aborting (modified_keys (last_input_output w) i))) (set_aborted ({[i]} ∪ aborted w) w)).

Definition try_commit (w : world) : option world :=
  let c := commit_idx w in
  output ← outputs (last_input_output w) !! c;
  reads ← inputs (last_input_output w) !! c;
  match validate_reads (cache w).1 c reads, @commit_status _ _ Empty_set (accumulated_fees w) output with
  | Ok true, Ok (fees, output') =>
      guarded ((c <? num_txns block) && negb (halted w) && idle w c && negb (bool_decide (c ∈ aborted w)))
        (set_committing c (Some (delta_keys (last_input_output w) c, []))
          (set_io (set_output c output' (last_input_output w)) (set_commit (c + 1) fees (block_truncated output') w)))
  | _, _ => None
  end.

Definition hook (w : world) (i : TxnIndex) : option world :=
  match committing w !! i with
  | Some (key :: keys, writes) =>
      match @commit_delta _ _ _ Empty_set key i (cache w).1 with
      | (data, Ok v) => Some (set_committing i (Some (keys, writes ++ [(key, WriteOp.Modification (serialize v))])) (set_cache (data, (cache w).2) w))
      | _ => None
      end
  | Some ([], writes) =>
      match outputs (last_input_output w) !! i with
      | Some (Success o | SkipRest o) =>
          match @into_transaction_output_with_materialized_deltas _ Empty_set o writes with
          | Ok committed => Some (set_committing i None (set_committed_output i committed w))
          | _ => None
          end
      | _ => None
      end
  | None => None
  end.

Definition act (w : world) (c : choice) : option world :=
  match c with
  | Start i => start w i
  | Turn i => turn w i
  | TryAbort i => try_abort w i
  | TryCommit => try_commit w
  | Hook i => hook w i
  end.

Fixpoint acts (w : world) (l : list choice) : option world :=
  match l with
  | [] => Some w
  | c :: l => w ← act w c; acts w l
  end.

Lemma guarded_Some b w w' : guarded b w = Some w' -> b = true /\ w' = w.
Proof. unfold guarded. destruct b; [by intros [= <-]|done]. Qed.

Lemma idle_None w i : idle w i = true -> active w !! i = None.
Proof. unfold idle. by destruct (active w !! i). Qed.

Lemma not_executed w i : negb (executed w i) = true -> outputs (last_input_output w) !! i = None.
Proof. unfold executed. by destruct (outputs (last_input_output w) !! i). Qed.

Lemma turn_read_step w i inc key continue reads w' : active w !! i = Some (Reading inc (Get key continue) reads) ->
  turn_read w i inc key continue reads = Some w' -> step block w w'.
Proof.
  intros Ha. unfold turn_read. destruct (is_module_path key) eqn:Em.
  - destruct (module_answer _ _) as [a|] eqn:E; simpl; [|done]. intros [= <-]. by eapply step_module.
  - destruct (fetch_captured _) as [[r [rk|]]|] eqn:Ef.
    + destruct r; simpl; try done; intros [= <-]; by eapply step_read.
    + destruct r; try done. destruct (get_state_value_u128 _ key) as [[v|]|e|] eqn:Eg; try done.
      * destruct (set_aggregator_base_value key v _) as [d [[]| |]] eqn:Eb; try done. intros [= <-]. by eapply step_base.
      * intros [= <-]. eapply step_missing; try done. by rewrite Eg.
      * intros [= <-]. eapply step_missing; try done. by rewrite Eg.
    + done.
Qed.

Lemma halt_read_step w i w' : halted w || module_read_write_intersection (last_input_output w) = true -> halt_read w i = Some w' -> step block w w'.
Proof.
  intros Hh. unfold halt_read. destruct (active w !! i) as [[inc [r|key continue] reads| |]|] eqn:Ha; try done. simpl.
  destruct (is_module_path key) eqn:Em; [done|]. intros [= <-]. by eapply step_halted.
Qed.

Lemma turn_step w i w' : turn w i = Some w' -> step block w w'.
Proof.
  unfold turn. destruct (active w !! i) as [[inc [r|key continue] reads|inc reads r [|u todo]|[|[key m] todo]]|] eqn:Ha; [| | | | | |done].
  - intros [= <-]. by apply step_return.
  - by eapply turn_read_step.
  - destruct (record i reads (status_of r) (last_input_output w)) as [io o] eqn:Er. intros [= <-]. by eapply step_record.
  - destruct (perform_update _ _ _) as [c [[]| |]] eqn:Ep; try done. intros [= <-]. by eapply step_update.
  - intros [= <-]. by apply step_aborted.
  - destruct (perform_estimate _ _ _ _) as [c [[]| |]] eqn:Ep; try done. intros [= <-]. by eapply step_estimate.
Qed.

Lemma hook_step w i w' : hook w i = Some w' -> step block w w'.
Proof.
  unfold hook. destruct (committing w !! i) as [[[|key keys] writes]|] eqn:Ec; [..|done].
  - destruct (outputs _ !! i) as [[o| |o]|] eqn:Eo; try done; (destruct (into_transaction_output_with_materialized_deltas o writes) eqn:Ei; try done);
      intros [= <-]; (eapply step_hook; [done| |done]; by rewrite Eo).
  - destruct (commit_delta _ _ _) as [d [v| |]] eqn:Ed; try done. intros [= <-]. by eapply step_delta.
Qed.

(** What a schedule does are steps. *)
Lemma act_step w c w' : act w c = Some w' -> step block w w'.
Proof.
  destruct c as [i|i|i| |i]; simpl; [|apply turn_step| | |apply hook_step].
  - unfold start. destruct (txn block i) as [p|] eqn:Ep; simpl; [|done]. intros [Hb ->]%guarded_Some.
    apply andb_true_iff in Hb as [[[Hc Hn]%andb_true_iff Hi%idle_None]%andb_true_iff Ho]. apply step_start; [lia|done|done|].
    apply orb_true_iff in Ho as [Ho|Ho]; [left; by apply not_executed|right; by apply bool_decide_eq_true_1 in Ho].
  - unfold try_abort. destruct (outputs _ !! i) as [s|] eqn:Es; simpl; [|done]. intros [Hb ->]%guarded_Some.
    apply andb_true_iff in Hb as [[Hc Hi%idle_None]%andb_true_iff Ha%negb_true_iff%bool_decide_eq_false_1]. apply step_abort; [lia|done| |done]. by eexists.
  - unfold try_commit. destruct (outputs _ !! _) as [s|] eqn:Es; simpl; [|done]. destruct (inputs _ !! _) as [reads|] eqn:Er; simpl; [|done].
    destruct (validate_reads _ _ _) as [[]| |] eqn:Ev; try done. destruct (commit_status _ _) as [[fees s']| |] eqn:Ec; try done.
    intros [Hb ->]%guarded_Some. apply andb_true_iff in Hb as [[[Hn Hh%negb_true_iff]%andb_true_iff Hi%idle_None]%andb_true_iff Ha%negb_true_iff%bool_decide_eq_false_1].
    eapply step_commit; try done. lia.
Qed.

Lemma acts_reachable w l w' : reachable block w -> acts w l = Some w' -> reachable block w'.
Proof.
  revert w. induction l as [|c l IH]; intros w Hw; simpl; [by intros [= <-]|]. destruct (act w c) as [w1|] eqn:E; simpl; [|done].
  apply IH. eapply reachable_step; [done|]. by eapply act_step.
Qed.

(** All that was recorded is committed, as a test. *)
Definition hooked (w : world) : bool :=
  forallb (fun x => match committed_output w !! x.1 with Some _ => true | None => false end) (map_to_list (outputs (last_input_output w))).

Lemma hooked_committed w (i : TxnIndex) s : hooked w = true -> outputs (last_input_output w) !! i = Some s -> is_Some (committed_output w !! i).
Proof.
  unfold hooked. rewrite forallb_forall. intros Hh Hs%elem_of_map_to_list%list_elem_of_In. specialize (Hh _ Hs). simpl in Hh.
  destruct (committed_output w !! i); [by eexists|done].
Qed.

Lemma acts_default l : match acts start_world l with Some _ => true | None => false end = true -> reachable block (default start_world (acts start_world l)).
Proof.
  destruct (acts start_world l) as [w|] eqn:E; [|done]. intros _. simpl. eapply acts_reachable; [constructor|done].
Qed.
End schedules.

(** ** An example *)
Module SchedulesExample.
Import ChangeSetExample.

#[global] Instance plain_hasher : ModuleHasher := { ModuleHash := list Z; digest_module b := b }.
#[global] Instance plain_types : ExecutorTypes :=
  { K := option bool; Event := bool; Status := bool; Error := unit; X := unit; hasher := plain_hasher }.

Definition nothing_written : TransactionOutput := {| write_set := ∅; output_events := []; gas_used := 0; output_status := true |}.

(** The resource is not in storage, the counter is 25. *)
Definition in_base (k : option bool) : result (option StateValue.t) :=
  match k with
  | None => Ok None
  | Some false => Ok (Some (StateValue.Legacy [1]))
  | Some true => Ok (Some (StateValue.Legacy (le_bytes 16 25)))
  end.

#[global] Instance plain_config : ExecutorConfig :=
  { key_leb := any_order; is_discarded s := s; should_restart_execution evs := existsb id evs; maybe_block_gas_limit := Some 1000;
    base_view := in_base; skip_output := nothing_written; is_module_path k := bool_decide (k = Some false) }.

Definition output_of (resources : gmap (option bool) WriteOp.t) (deltas : gmap (option bool) DeltaOp.t) : VMOutput :=
  {| change_set := {| resource_write_set := resources; module_write_set := ∅; aggregator_write_set := ∅; aggregator_delta_set := deltas; events := [false] |};
     fee_statement := FeeStatement.new 5 3 1 1 0; status := false |}.

Definition bytes_of (a : result (option StateValue.t)) : list Z :=
  match a with Ok (Some v) => StateValue.into_bytes v | _ => [] end.

(** The first transaction adds 30 to the counter; the second reads the module and the
    counter and writes the first byte of the counter to the resource; the third adds
    10 to the counter when there is a resource. *)
Definition adder : prog := Ret (inr (output_of ∅ {[Some true := DeltaOp.delta_add 30 100]})).
Definition copier : prog :=
  Get (Some false) (fun _ => Get (Some true) (fun a => Ret (inr (output_of {[None := WriteOp.Creation (take 1 (bytes_of a))]} ∅)))).
Definition bonus : prog :=
  Get None (fun a => match bytes_of a with
    | [] => Ret (inl tt)
    | _ => Ret (inr (output_of ∅ {[Some true := DeltaOp.delta_add 10 100]}))
    end).
Definition three : list prog := [adder; copier; bonus].

(** The second transaction runs first and sees the counter of storage, the third sees
    its write.  Then the first one is executed and committed; the second is aborted,
    executed again and committed, and so is the third. *)
Definition whole (i : TxnIndex) (n : nat) : list choice := Start i :: replicate n (Turn i).
Definition schedule : list choice :=
  whole 1 5 ++ whole 2 4 ++ whole 0 3 ++ [TryCommit] ++ TryAbort 1 :: replicate 2 (Turn 1) ++ whole 1 6 ++ [Hook 0] ++ [TryCommit] ++
  TryAbort 2 :: replicate 2 (Turn 2) ++ whole 2 4 ++ [Hook 0; TryCommit; Hook 1; Hook 2; Hook 2].

Definition final_world : world := default start_world (acts three start_world schedule).

Lemma output_of_ok resources deltas : (forall k, is_Some (resources !! k) -> k = None) -> (forall k d, deltas !! k = Some d -> k = Some true /\
  delta_ok d /\ DeltaOp.limit d = 100) -> result_ok kind_of (inr (output_of resources deltas)).
Proof.
  intros Hr Hd. split_and!; [|by intros|done]. split; simpl.
  - by intros k ->%Hr.
  - by intros k [? ?].
  - intros k. assert (deltas !! k <> None -> k = Some true) as Hk.
    { destruct (deltas !! k) as [d|] eqn:E; [|done]. intros _. by destruct (Hd k d E). }
    destruct k as [[]|]; simpl; [split; [by left|]; intros x Hx; by destruct (Hd _ _ Hx) as (_ & ? & ?)|..];
      (split; [done|]; destruct (deltas !! _); [by discriminate Hk|done]).
Qed.

Lemma delta_add_ok (v : Z) k d : 0 <= v -> ({[Some true := DeltaOp.delta_add v 100]} : gmap (option bool) DeltaOp.t) !! k = Some d ->
  k = Some true /\ delta_ok d /\ DeltaOp.limit d = 100.
Proof. intros Hv [<- <-]%lookup_singleton_Some. split; [done|]. split; [|done]. split; simpl; lia. Qed.

Lemma three_ok p r : p ∈ three -> returns p r -> result_ok kind_of r.
Proof.
  unfold three. rewrite !elem_of_cons, elem_of_nil. intros [->|[->|[->|[]]]] Hr.
  - inversion Hr. apply output_of_ok; [by intros ? [? ?]|]. intros ? ?. by apply delta_add_ok.
  - inversion Hr as [|? ? a ? Hr1]. inversion Hr1 as [|? ? b ? Hr2]. inversion Hr2. apply output_of_ok; [|done].
    by intros ? [? [<- _]%lookup_singleton_Some].
  - inversion Hr as [|? ? a ? Hr1]. destruct (bytes_of a); inversion Hr1; [done|]. apply output_of_ok; [by intros ? [? ?]|].
    intros ? ?. by apply delta_add_ok.
Qed.

Lemma schedule_reachable : reachable three final_world.
Proof. apply acts_default. by vm_compute. Qed.

Lemma schedule_finished : finished three final_world.
Proof. split; [right; by vm_compute|]. intros i s _ Hs _. eapply hooked_committed; [|done]. by vm_compute. Qed.

Lemma three_modules (k : option bool) : is_module_path k = true <-> kind_of k = Code.
Proof. simpl. rewrite bool_decide_eq_true. by destruct k as [[]|]. Qed.

Lemma three_counters : counters_stored kind_of.
Proof. by intros [[]|]. Qed.

Lemma schedule_kept : fell_back final_world = false.
Proof. by vm_compute. Qed.

Lemma parallel_is_sequential_witness :
  parallel_results three final_world = Some (execute_transactions_sequential three) /\
  exists outs, parallel_results three final_world = Some (Ok outs) /\ length outs = 3%nat.
Proof.
  split.
  - transitivity (if fell_back final_world then None else Some (execute_transactions_sequential three)); [|rewrite schedule_kept; reflexivity].
    exact (parallel_is_sequential kind_of three final_world three_modules three_counters three_ok schedule_reachable schedule_finished).
  - eexists. split; [vm_compute; reflexivity|reflexivity].
Defined.
End SchedulesExample.
