(* ===== verification/Scheduler.v ===== *)
(** * The scheduler of parallel execution

    src/aptos-move/block-executor/src/scheduler.rs: statuses of transactions, waves of
    validations and the shared indices from which workers take their tasks.  A vector
    of locks is a map; what is not in a map is as at the start.  A definition is what
    a thread does while it holds the locks it needs, or one access to an atomic
    variable; methods that do more are put together in [ScheduledExecution]. *)

From S2P Require Import Prelude Collections MVHashMap.

Module Scheduler.
Definition Wave := Z.

Inductive DependencyStatus :=
  | Unresolved
  | Resolved
  | ExecutionHalted.

(** The condition variable of a wakeup is that of the transaction. *)
Inductive ExecutionTaskType :=
  | Execution
  | Wakeup.

Inductive ExecutionStatus :=
  | Ready (incarnation : Incarnation) (task : ExecutionTaskType)
  | Executing (incarnation : Incarnation)
  | Suspended (incarnation : Incarnation)
  | Executed (incarnation : Incarnation)
  | Committed (incarnation : Incarnation)
  | Aborting (incarnation : Incarnation)
  | Halted.

#[global] Instance DependencyStatus_eq_dec : EqDecision DependencyStatus.
Proof. solve_decision. Defined.
#[global] Instance ExecutionTaskType_eq_dec : EqDecision ExecutionTaskType.
Proof. solve_decision. Defined.
#[global] Instance ExecutionStatus_eq_dec : EqDecision ExecutionStatus.
Proof. solve_decision. Defined.

Record ValidationStatus := {
  max_triggered_wave : Wave;
  required_wave : Wave;
  maybe_max_validated_wave : option Wave }.

Definition new_validation_status : ValidationStatus :=
  {| max_triggered_wave := 0; required_wave := 0; maybe_max_validated_wave := None |}.

(** [condvars] are the condition variables of the executions that wait. *)
Record t := {
  num_txns : TxnIndex;
  txn_dependency : gmap TxnIndex (list TxnIndex);
  execution_status : gmap TxnIndex ExecutionStatus;
  validation_status : gmap TxnIndex ValidationStatus;
  commit_state : TxnIndex * Wave;
  execution_idx : TxnIndex;
  validation_idx : TxnIndex * Wave;
  done_marker : bool;
  condvars : gmap TxnIndex DependencyStatus }.

Definition new (num_txns : TxnIndex) : t :=
  {| num_txns := num_txns; txn_dependency := ∅; execution_status := ∅; validation_status := ∅; commit_state := (0, 0);
     execution_idx := 0; validation_idx := (0, 0); done_marker := false; condvars := ∅ |}.

Definition status (s : t) (i : TxnIndex) : ExecutionStatus := default (Ready 0 Execution) (execution_status s !! i).
Definition validation (s : t) (i : TxnIndex) : ValidationStatus := default new_validation_status (validation_status s !! i).
Definition dependencies (s : t) (i : TxnIndex) : list TxnIndex := default [] (txn_dependency s !! i).

Definition set_status (i : TxnIndex) (x : ExecutionStatus) (s : t) : t :=
  {| num_txns := num_txns s; txn_dependency := txn_dependency s; execution_status := <[i := x]> (execution_status s);
     validation_status := validation_status s; commit_state := commit_state s; execution_idx := execution_idx s;
     validation_idx := validation_idx s; done_marker := done_marker s; condvars := condvars s |}.
Definition set_validation (i : TxnIndex) (x : ValidationStatus) (s : t) : t :=
  {| num_txns := num_txns s; txn_dependency := txn_dependency s; execution_status := execution_status s;
     validation_status := <[i := x]> (validation_status s); commit_state := commit_state s; execution_idx := execution_idx s;
     validation_idx := validation_idx s; done_marker := done_marker s; condvars := condvars s |}.
Definition set_dependencies (i : TxnIndex) (x : list TxnIndex) (s : t) : t :=
  {| num_txns := num_txns s; txn_dependency := <[i := x]> (txn_dependency s); execution_status := execution_status s;
     validation_status := validation_status s; commit_state := commit_state s; execution_idx := execution_idx s;
     validation_idx := validation_idx s; done_marker := done_marker s; condvars := condvars s |}.
Definition set_indices (x : TxnIndex) (v : TxnIndex * Wave) (s : t) : t :=
  {| num_txns := num_txns s; txn_dependency := txn_dependency s; execution_status := execution_status s;
     validation_status := validation_status s; commit_state := commit_state s; execution_idx := x;
     validation_idx := v; done_marker := done_marker s; condvars := condvars s |}.
Definition set_commit_state (x : TxnIndex * Wave) (done : bool) (s : t) : t :=
  {| num_txns := num_txns s; txn_dependency := txn_dependency s; execution_status := execution_status s;
     validation_status := validation_status s; commit_state := x; execution_idx := execution_idx s;
     validation_idx := validation_idx s; done_marker := done; condvars := condvars s |}.
Definition set_condvar (i : TxnIndex) (x : option DependencyStatus) (s : t) : t :=
  {| num_txns := num_txns s; txn_dependency := txn_dependency s; execution_status := execution_status s;
     validation_status := validation_status s; commit_state := commit_state s; execution_idx := execution_idx s;
     validation_idx := validation_idx s; done_marker := done_marker s; condvars := partial_alter (fun _ => x) i (condvars s) |}.

(** ** The packed validation index *)
Definition pack_validation_idx (v : TxnIndex * Wave) : Z := Z.lor v.1 (Z.shiftl v.2 32).
Definition unpack_validation_idx (validation_idx : Z) : TxnIndex * Wave :=
  (Z.land validation_idx (2 ^ 32 - 1), Z.shiftr validation_idx 32).

(** ** Statuses *)

(** An index is a [u32], it is not negative. *)
Definition try_incarnate (txn_idx : TxnIndex) (s : t) : t * option (Incarnation * ExecutionTaskType) :=
  if (txn_idx <? 0) || (num_txns s <=? txn_idx) then (s, None)
  else
    match status s txn_idx with
    | Ready incarnation execution_task_type => (set_status txn_idx (Executing incarnation) s, Some (incarnation, execution_task_type))
    | _ => (s, None)
    end.

Definition is_executed (txn_idx : TxnIndex) (include_committed : bool) (s : t) : option Incarnation :=
  match status s txn_idx with
  | Executed incarnation => Some incarnation
  | Committed incarnation => if include_committed then Some incarnation else None
  | _ => None
  end.

Definition never_executed (txn_idx : TxnIndex) (s : t) : bool :=
  match status s txn_idx with
  | Ready incarnation _ | Executing incarnation | Suspended incarnation => incarnation =? 0
  | _ => false
  end.

(** With a new condition variable. *)
Definition suspend (txn_idx : TxnIndex) : action t Empty_set bool := fun s =>
  match status s txn_idx with
  | Executing incarnation => (set_condvar txn_idx (Some Unresolved) (set_status txn_idx (Suspended incarnation) s), Ok true)
  | Halted => (s, Ok false)
  | _ => (s, Panic)
  end.

Definition resume (txn_idx : TxnIndex) : action t Empty_set unit := fun s =>
  match status s txn_idx with
  | Halted => (s, Ok tt)
  | Suspended incarnation => (set_status txn_idx (Ready incarnation Wakeup) s, Ok tt)
  | _ => (s, Panic)
  end.

Definition set_executed_status (txn_idx : TxnIndex) (incarnation : Incarnation) (s : t) : t :=
  match status s txn_idx with
  | Halted => s
  | _ => set_status txn_idx (Executed incarnation) s
  end.

Definition set_aborted_status (txn_idx : TxnIndex) (incarnation : Incarnation) (s : t) : t :=
  match status s txn_idx with
  | Halted => s
  | _ => set_status txn_idx (Ready (incarnation + 1) Execution) s
  end.

Definition try_abort (txn_idx : TxnIndex) (incarnation : Incarnation) (s : t) : t * bool :=
  match status s txn_idx with
  | Executed i => if i =? incarnation then (set_status txn_idx (Aborting incarnation) s, true) else (s, false)
  | _ => (s, false)
  end.

(** ** Dependencies *)
Inductive DependencyResult :=
  | Dependency
  | DependencyResolved
  | DependencyHalted.

Definition wait_for_dependency (txn_idx dep_txn_idx : TxnIndex) : action t Empty_set DependencyResult := fun s =>
  match is_executed dep_txn_idx true s with
  | Some _ => (s, Ok DependencyResolved)
  | None =>
      match suspend txn_idx s with
      | (s, Ok true) => (set_dependencies dep_txn_idx (dependencies s dep_txn_idx ++ [txn_idx]) s, Ok Dependency)
      | (s, Ok false) => (s, Ok DependencyHalted)
      | (s, Err e) => (s, Err e)
      | (s, Panic) => (s, Panic)
      end
  end.

(** ** Tasks *)

(** The test of [next_task] for a validation task. *)
Definition prefer_validate (s : t) : bool :=
  let idx_to_validate := (validation_idx s).1 in
  (idx_to_validate <? Z.min (execution_idx s) (num_txns s)) && negb (never_executed idx_to_validate s).

(** [compare_exchange] on the validation index. *)
Definition exchange_validation_idx (old new : TxnIndex * Wave) (s : t) : option t :=
  if bool_decide (validation_idx s = old) then Some (set_indices (execution_idx s) new s) else None.

(** The update of [decrease_validation_idx], before it is tried to store the new
    index. *)
Definition trigger_wave (target_idx : TxnIndex) (wave : Wave) (s : t) : t :=
  let v := validation s target_idx in
  set_validation target_idx
    {| max_triggered_wave := Z.max (max_triggered_wave v) (wave + 1); required_wave := required_wave v;
       maybe_max_validated_wave := maybe_max_validated_wave v |} s.

Definition require_wave (txn_idx : TxnIndex) (wave : Wave) (s : t) : t :=
  let v := validation s txn_idx in
  set_validation txn_idx
    {| max_triggered_wave := max_triggered_wave v; required_wave := wave; maybe_max_validated_wave := maybe_max_validated_wave v |} s.

Definition finish_validation (txn_idx : TxnIndex) (wave : Wave) (s : t) : t :=
  let v := validation s txn_idx in
  set_validation txn_idx
    {| max_triggered_wave := max_triggered_wave v; required_wave := required_wave v;
       maybe_max_validated_wave := Some match maybe_max_validated_wave v with Some prev_wave => Z.max prev_wave wave | None => wave end |} s.

(** ** Commits *)

(** When the lock of the validation status can be read. *)
Definition try_commit (s : t) : t * option TxnIndex :=
  let '(commit_idx, commit_wave) := commit_state s in
  let validation_status := validation s commit_idx in
  match status s commit_idx with
  | Executed incarnation =>
      let commit_wave := Z.max commit_wave (max_triggered_wave validation_status) in
      match maybe_max_validated_wave validation_status with
      | Some validated_wave =>
          if Z.max commit_wave (required_wave validation_status) <=? validated_wave then
            let done := if commit_idx + 1 =? num_txns s then true else done_marker s in
            (set_commit_state (commit_idx + 1, commit_wave) done (set_status commit_idx (Committed incarnation) s), Some commit_idx)
          else (set_commit_state (commit_idx, commit_wave) (done_marker s) s, None)
      | None => (set_commit_state (commit_idx, commit_wave) (done_marker s) s, None)
      end
  | _ => (s, None)
  end.

(** ** Halting *)
Definition set_done (s : t) : t := set_commit_state (commit_state s) true s.

Definition resolve_condvar (txn_idx : TxnIndex) (s : t) : t :=
  let s :=
    match status s txn_idx with
    | Suspended _ | Ready _ Wakeup => set_condvar txn_idx (Some ExecutionHalted) s
    | _ => s
    end in
  set_status txn_idx Halted s.

(** ** The packed index is the pair *)
Lemma unpack_pack (idx : TxnIndex) (wave : Wave) : 0 <= idx < 2 ^ 32 -> unpack_validation_idx (pack_validation_idx (idx, wave)) = (idx, wave).
Proof.
  intros Hi. unfold unpack_validation_idx, pack_validation_idx. cbn [fst snd]. f_equal.
  - change (2 ^ 32 - 1) with (Z.ones 32). rewrite Z.land_lor_distr_l, !Z.land_ones by lia. rewrite Z.shiftl_mul_pow2 by lia.
    rewrite Z_mod_mult, Z.lor_0_r. by apply Z.mod_small.
  - rewrite Z.shiftr_lor, Z.shiftr_shiftl_l, Z.sub_diag, Z.shiftl_0_r by lia. rewrite Z.shiftr_div_pow2, Z.div_small by lia. apply Z.lor_0_l.
Qed.
End Scheduler.
