(* ===== verification/ReadStability.v ===== *)
(** * Reads that stay valid

    A read of the multi-version map that is valid can become invalid only through a
    transaction below the reader that is being aborted, or whose execution writes a
    key that its previous one did not write ([valid_stays]): the other changes are
    made to entries that are marked as estimates, which no valid read has passed.
    These are the changes after which the scheduler lets transactions be validated
    again. *)

From S2P Require Import Prelude Collections Aggregator ChangeSet MVHashMap BlockExecutor SequentialState ParallelInvariant.

Section reads.
Context {bcs : Bcs128}.

(** ** Entries between two transactions *)
Definition between (j i : TxnIndex) (m : list (TxnIndex * Entry WriteOp.t)) : list (TxnIndex * Entry WriteOp.t) :=
  List.filter (fun e => (j <? e.1) && (e.1 <? i)) m.

Lemma below_between (j i : TxnIndex) (m : list (TxnIndex * Entry WriteOp.t)) : BTreeMap.ordered m -> j < i ->
  below i m = below (j + 1) m ++ between j i m.
Proof.
  intros Ho Hji. unfold below, between. induction m as [|[k e] m IH]; [done|]. apply BTreeMap.ordered_cons_inv in Ho as [Ho Hlt]. simpl.
  specialize (IH Ho). destruct (Z.ltb_spec k (j + 1)).
  - rewrite (proj2 (Z.ltb_lt k i)), (proj2 (Z.ltb_ge j k)) by lia. simpl. by rewrite IH.
  - rewrite (proj2 (Z.ltb_lt j k)) by lia. assert (List.filter (fun e => e.1 <? j + 1) m = []) as Hn.
    { apply (below_none (j + 1) m). intros [k' e'] Hin. specialize (Hlt _ _ Hin). simpl. lia. }
    rewrite IH, Hn. simpl. by destruct (k <? i).
Qed.

Lemma between_insert (j i : TxnIndex) (m : list (TxnIndex * Entry WriteOp.t)) e : between j i (BTreeMap.insert m j e) = between j i m.
Proof.
  unfold between. induction m as [|[k x] m IH]; simpl; [by rewrite Z.ltb_irrefl|].
  destruct (Z.ltb_spec j k); simpl; [by rewrite Z.ltb_irrefl, (proj2 (Z.ltb_lt j k)) by done|].
  destruct (Z.eqb_spec j k) as [->|]; simpl; [by rewrite !Z.ltb_irrefl|]. by rewrite IH, (proj2 (Z.ltb_ge j k)) by done.
Qed.

Lemma between_remove (j i : TxnIndex) (m : list (TxnIndex * Entry WriteOp.t)) : between j i (BTreeMap.remove m j) = between j i m.
Proof.
  unfold between, BTreeMap.remove. induction m as [|[k x] m IH]; simpl; [done|]. destruct (Z.eqb_spec k j) as [->|]; simpl; [by rewrite Z.ltb_irrefl|].
  by rewrite IH.
Qed.

(** ** The loop of a read *)

(** The loop ends within a prefix, or it goes on below it when there is no estimate
    in it. *)
Lemma read_loop_prefix base (l : list (TxnIndex * Entry WriteOp.t)) a :
  (exists r, forall l', read_loop base (l ++ l') a = r) \/
  (Forall (fun e => flag e.2 = Done) l /\ exists a', forall l', read_loop base (l ++ l') a = read_loop base l' a').
Proof.
  revert a. induction l as [|[j e] l IH]; intros a; [right; split; [done|by exists a]|]. simpl.
  case_bool_decide as Ef; [left; by eexists|]. assert (flag e = Done) as Hd by (by destruct (flag e)).
  assert (forall a', (exists r, forall l', read_loop base (l ++ l') a' = r) \/
    (Forall (fun e => flag e.2 = Done) ((j, e) :: l) /\ exists a'', forall l', read_loop base (l ++ l') a' = read_loop base l' a'')) as IH'.
  { intros a'. destruct (IH a') as [?|[? ?]]; [by left|]. right. split; [by constructor|done]. }
  destruct (cell e) as [inc data|d [x|]], a as [[a|]|]; try (left; by eexists); try apply IH'.
  destruct (DeltaOp.merge_with_previous_delta a d); [apply IH'..|left; by eexists].
Qed.

(** The base value only matters to unresolved reads. *)
Lemma read_loop_base b (l : list (TxnIndex * Entry WriteOp.t)) a : (forall op, read_loop None l a <> Err (Unresolved op)) ->
  read_loop (Some b) l a = read_loop None l a.
Proof.
  revert a. induction l as [|[j e] l IH]; intros a Hn; simpl in Hn |- *.
  - destruct a as [[a|]|]; [by destruct (Hn a)|done|done].
  - destruct (bool_decide _); [done|]. destruct (cell e) as [inc data|d [x|]], a as [[a|]|]; try done; try by apply IH.
    destruct (DeltaOp.merge_with_previous_delta a d); [by apply IH..|done].
Qed.

(** Below an estimate that a read has not met, the entries do not matter. *)
Lemma read_above_estimate base (m m' : list (TxnIndex * Entry WriteOp.t)) (j i : TxnIndex) e : BTreeMap.ordered m -> BTreeMap.ordered m' -> j < i ->
  BTreeMap.get m j = Some e -> flag e = Estimate -> between j i m' = between j i m ->
  read_loop base (reverse (below i m)) None <> Err (Dependency j) ->
  read_loop base (reverse (below i m')) None = read_loop base (reverse (below i m)) None.
Proof.
  intros Ho Ho' Hji Hg Hf Hb. rewrite (below_between j i m), (below_between j i m'), Hb, !reverse_app by done. intros Hne.
  destruct (read_loop_prefix base (reverse (between j i m)) None) as [[r Hr]|[_ [a Ha]]]; [by rewrite !Hr|].
  destruct Hne. rewrite Ha, (below_succ j m e) by done. rewrite reverse_app. simpl. by rewrite Hf, bool_decide_eq_true_2.
Qed.

(** An entry with a recorded value ends every read that gets to it. *)
Lemma read_loop_shortcut base (j : TxnIndex) d x f (l : list (TxnIndex * Entry WriteOp.t)) a : f = Done ->
  forall op, read_loop base ((j, {| cell := DeltaCell d (Some x); flag := f |}) :: l) a <> Err (Unresolved op).
Proof.
  intros -> op. simpl. destruct a as [a|]; [|done]. unfold apply_accumulated. destruct a as [a|]; [|done]. by destruct (DeltaOp.apply_to a x).
Qed.
End reads.

Section validity.
Context {bcs : Bcs128} {bcs_laws : Bcs128Laws} {types : ExecutorTypes} {config : ExecutorConfig}.
Context (kind : K -> item) (block : list prog).

(** ** Valid reads *)
Definition valid (d : VersionedData WriteOp.t K) (i : TxnIndex) (r : ReadDescriptor) : Prop := validate_read d i r = Ok true.

Lemma valid_fetch d d' (i : TxnIndex) r : fetch_data d' (access_path r) i = fetch_data d (access_path r) i -> valid d i r -> valid d' i r.
Proof. unfold valid, validate_read. by intros ->. Qed.

Lemma valid_no_dependency d (i : TxnIndex) r j : valid d i r -> fetch_data d (access_path r) i <> Err (Dependency j).
Proof. unfold valid, validate_read. intros Hv E. by rewrite E in Hv. Qed.

Lemma valid_resolved d (i : TxnIndex) r op : valid d i r -> fetch_data d (access_path r) i <> Err (Unresolved op).
Proof. unfold valid, validate_read. intros Hv E. by rewrite E in Hv. Qed.

(** The value at a key is replaced. *)
Lemma fetch_put (d : VersionedData WriteOp.t K) k0 v k (i : TxnIndex) :
  fetch_data (<[k0 := v]> d) k i = if bool_decide (k = k0) then read v i else fetch_data d k i.
Proof.
  assert ((<[k0 := v]> d : gmap K (VersionedValue WriteOp.t)) !! k = if bool_decide (k = k0) then Some v else d !! k) as E.
  { case_bool_decide; [subst; apply (lookup_insert_eq (M:=gmap K))|by apply (lookup_insert_ne (M:=gmap K))]. }
  unfold fetch_data, VersionedData in *. case_bool_decide; by rewrite E.
Qed.

Lemma fetch_default (d : VersionedData WriteOp.t K) k (i : TxnIndex) : fetch_data d k i = read (default new_versioned_value (d !! k)) i.
Proof. unfold fetch_data. by destruct (d !! k). Qed.

(** A change that leaves the entries below a reader, or is below an estimate that
    the reader has not met, does not change what is read. *)
Lemma fetch_change (d : VersionedData WriteOp.t K) k0 m' (j i : TxnIndex) : let v := default new_versioned_value (d !! k0) in
  BTreeMap.ordered (versioned_map v) -> BTreeMap.ordered m' ->
  (i <= j -> below i m' = below i (versioned_map v)) -> between j i m' = between j i (versioned_map v) ->
  (exists e, BTreeMap.get (versioned_map v) j = Some e /\ flag e = Estimate) \/ i <= j ->
  fetch_data d k0 i <> Err (Dependency j) -> forall k, fetch_data (<[k0 := with_map v m']> d) k i = fetch_data d k i.
Proof.
  intros v Ho Ho' Hb Hbt He Hn k. rewrite fetch_put. case_bool_decide as E; [subst k|done]. rewrite fetch_default in Hn |- *. fold v in Hn |- *.
  unfold read in *. simpl. destruct (Z.lt_ge_cases j i) as [Hlt|Hge]; [|by rewrite Hb]. destruct He as [(e & Hg & Hf)|]; [|lia].
  by eapply read_above_estimate.
Qed.

(** ** Estimates *)
Definition estimated (w : world) (i : TxnIndex) : Prop := forall k e, entry_at w k i = Some e -> flag e = Estimate.

Definition outside (w : world) (i : TxnIndex) (r : Error + VMOutput) : bool := updates_outside (modified_keys (last_input_output w) i) r.

(** What is estimated of a transaction that is not committed: everything between an
    abort and the updates of the next execution, and then what is still to update.
    What the next execution finds not written is outside of the previous one. *)
Record est_txn (w : world) (i : TxnIndex) : Prop := {
  est_prev s o : outputs (last_input_output w) !! i = Some s -> output_in s = Some o -> result_ok kind (inr o);
  est_back k : match active w !! i with Some (Updating _ _ _ _) => False | _ => True end ->
    (k, false) ∈ modified_keys (last_input_output w) i -> is_Some (entry_at w k i);
  est_flags : match active w !! i with
    | Some (Reading _ _ _) => estimated w i
    | Some (Updating _ _ r todo) => NoDup (omap data_key todo) /\ forall k, k ∈ omap data_key todo ->
        match entry_at w k i with Some e => flag e = Estimate | None => outside w i r = true end
    | Some (Aborting todo) => forall k e, entry_at w k i = Some e -> flag e = Estimate \/ (k, false) ∈ todo
    | None => i ∈ aborted w -> estimated w i
    end }.
Definition est (w : world) : Prop := forall i : TxnIndex, commit_idx w <= i -> est_txn w i.

(** A step of one transaction. *)
Lemma est_local w w' (i : TxnIndex) : est w -> commit_idx w' = commit_idx w ->
  (forall j : TxnIndex, j <> i -> active w' !! j = active w !! j /\
    outputs (last_input_output w') !! j = outputs (last_input_output w) !! j /\ (j ∈ aborted w' <-> j ∈ aborted w) /\
    forall k, entry_at w' k j = entry_at w k j) ->
  (commit_idx w <= i -> est_txn w i -> est_txn w' i) -> est w'.
Proof.
  intros He Ec Hne Hi j Hj. rewrite Ec in Hj. destruct (decide (j = i)) as [->|Hji]; [by apply Hi, He|].
  destruct (Hne j Hji) as (Ea & Eo & Eab & Een). destruct (He j Hj) as [H1 H2 H3].
  assert (modified_keys (last_input_output w') j = modified_keys (last_input_output w) j) as Em by (unfold modified_keys; by rewrite Eo).
  split.
  - intros s o. rewrite Eo. apply H1.
  - intros k. rewrite Ea, Em, Een. apply H2.
  - rewrite Ea. unfold estimated, outside in *. rewrite Em. destruct (active w !! j) as [[| |]|].
    + intros k e. rewrite Een. apply H3.
    + destruct H3 as [? H3]. split; [done|]. intros k Hk. rewrite Een. by apply H3.
    + intros k e. rewrite Een. apply H3.
    + rewrite Eab. intros Hab k e. rewrite Een. by apply H3.
Qed.

(** ** The keys of updates *)
Definition data_keys (o : VMOutput) : list K :=
  (entries key_leb (resource_write_set (change_set o))).*1 ++ (entries key_leb (aggregator_write_set (change_set o))).*1 ++
  (entries key_leb (aggregator_delta_set (change_set o))).*1.

Lemma data_keys_elem o k : change_set_ok kind (change_set o) ->
  k ∈ data_keys o <-> is_Some (resource_write_set (change_set o) !! k) \/ is_Some (aggregator_write_set (change_set o) !! k) \/
    is_Some (aggregator_delta_set (change_set o) !! k).
Proof. intros Hok. unfold data_keys. by rewrite !elem_of_app, !elem_of_entries_keys. Qed.

Lemma data_keys_kind o k : change_set_ok kind (change_set o) -> k ∈ data_keys o -> kind k <> Code.
Proof.
  intros Hok. rewrite data_keys_elem by done. destruct (lookup_by_kind kind o k Hok) as (-> & _ & -> & Hd). unfold counter in Hd.
  intros [[? H]|[[? H]|[? H]]] E; rewrite E in *; try done. destruct Hd as [?|Hd]; [done|]. by rewrite Hd in H.
Qed.

Lemma data_keys_NoDup o : change_set_ok kind (change_set o) -> NoDup (data_keys o).
Proof.
  intros Hok. unfold data_keys. apply NoDup_app. split; [apply entries_keys_NoDup|]. split.
  - intros k Hk. apply elem_of_entries_keys in Hk as [? Hk]. pose proof (resources_ok _ _ Hok k ltac:(by eexists)) as Ek.
    pose proof (aggregators_ok _ _ Hok k) as Ha. rewrite Ek in Ha. destruct Ha as [E1 E2].
    rewrite elem_of_app, !elem_of_entries_keys, E1, E2. by intros [[? ?]|[? ?]].
  - apply NoDup_app. split; [apply entries_keys_NoDup|]. split; [|apply entries_keys_NoDup].
    intros k Hk. apply elem_of_entries_keys in Hk as [? Hk]. rewrite elem_of_entries_keys. intros [? Hd].
    pose proof (aggregators_ok _ _ Hok k) as Ha. destruct (kind k); [naive_solver..|]. destruct Ha as [[?|?] _]; congruence.
Qed.

Lemma modified_keys_data (io : TxnLastInputOutput) (i : TxnIndex) k : (k, false) ∈ modified_keys io i <->
  exists s o, outputs io !! i = Some s /\ output_in s = Some o /\ k ∈ data_keys o.
Proof.
  unfold modified_keys. split.
  - destruct (outputs io !! i) as [[o|e|o]|]; try (by intros ?%not_elem_of_nil);
      (intros [Hin|Hin]%elem_of_app; apply list_elem_of_fmap in Hin as (k' & [= <-] & Hin); by eexists _, o).
  - intros (s & o & -> & Eo & Hk). destruct s; simpl in Eo; simplify_eq; apply elem_of_app; left; apply list_elem_of_fmap; by exists k.
Qed.

Lemma modified_keys_module (io : TxnLastInputOutput) (i : TxnIndex) k : (k, true) ∈ modified_keys io i ->
  exists s o, outputs io !! i = Some s /\ output_in s = Some o /\ is_Some (module_write_set (change_set o) !! k).
Proof.
  unfold modified_keys. destruct (outputs io !! i) as [[o|e|o]|]; try (by intros ?%not_elem_of_nil);
    (intros [Hin|Hin]%elem_of_app; apply list_elem_of_fmap in Hin as (k' & [= <-] & Hin); apply elem_of_entries_keys in Hin; by eexists _, o).
Qed.

Lemma omap_output_updates o : omap data_key (output_updates (inr o)) = data_keys o.
Proof.
  unfold output_updates, data_keys. rewrite fmap_app, !omap_app.
  assert (forall l : list (K * WriteOp.t), omap data_key ((fun '(k, v) => UWrite k v) <$> l) = l.*1) as Hw.
  { induction l as [|[k v] l IH]; [done|]. rewrite !fmap_cons. simpl. by f_equal. }
  assert (forall l : list (K * WriteOp.t), omap data_key ((fun '(k, v) => UModule k v) <$> l) = []) as Hm by (by induction l as [|[k v] l IH]).
  assert (forall l : list (K * DeltaOp.t), omap data_key ((fun '(k, v) => UDelta k v) <$> l) = l.*1) as Hd.
  { induction l as [|[k v] l IH]; [done|]. rewrite !fmap_cons. simpl. by f_equal. }
  by rewrite !Hw, Hm, Hd, <-app_assoc.
Qed.

Lemma omap_deletes (P : K * bool -> bool) (l : list (K * bool)) :
  NoDup (omap (fun '(k, m) => if m : bool then None else Some k) l) ->
  NoDup (omap data_key ((fun '(k, m) => UDelete k m) <$> List.filter P l)).
Proof.
  induction l as [|[k m] l IH]; [done|]. simpl. intros Hn.
  assert (forall k, k ∈ omap data_key ((fun '(k, m) => UDelete k m) <$> List.filter P l) ->
    k ∈ omap (fun '(k, m) => if m : bool then None else Some k) l) as Hin.
  { intros k' (u & Hu & Hk)%list_elem_of_omap. apply list_elem_of_fmap in Hu as ([k1 m1] & -> & Hu). apply list_elem_of_In, filter_In in Hu as [Hu _].
    apply list_elem_of_In in Hu. apply list_elem_of_omap. exists (k1, m1). split; [done|]. by destruct m1. }
  destruct m; [destruct (P _); by apply IH|]. apply NoDup_cons in Hn as [Hn Hl]. destruct (P _); [|by apply IH]. simpl.
  apply NoDup_cons. split; [|by apply IH]. by intros ?%Hin.
Qed.

Lemma modified_keys_NoDup (io : TxnLastInputOutput) (i : TxnIndex) :
  (forall s o, outputs io !! i = Some s -> output_in s = Some o -> change_set_ok kind (change_set o)) ->
  NoDup (omap (fun '(k, m) => if m : bool then None else Some k) (modified_keys io i)).
Proof.
  intros Hok. assert (forall o, omap (fun '(k, m) => if m : bool then None else Some k) (((fun k => (k, false)) <$> data_keys o) ++
    ((fun k => (k, true)) <$> (entries key_leb (module_write_set (change_set o))).*1)) = data_keys o) as E.
  { intros o. rewrite omap_app. transitivity (data_keys o ++ []); [|apply app_nil_r]. f_equal.
    - induction (data_keys o) as [|k l IH]; [done|]. simpl. by f_equal.
    - by induction ((entries key_leb (module_write_set (change_set o))).*1) as [|k l IH]. }
  unfold modified_keys. destruct (outputs io !! i) as [[o|e|o]|]; try constructor; fold (data_keys o); rewrite E; apply data_keys_NoDup; by eapply Hok.
Qed.

Lemma updates_NoDup (io : TxnLastInputOutput) (i : TxnIndex) r : result_ok kind r ->
  (forall s o, outputs io !! i = Some s -> output_in s = Some o -> change_set_ok kind (change_set o)) ->
  NoDup (omap data_key (execution_updates (modified_keys io i) r)).
Proof.
  intros Hr Hok. unfold execution_updates. rewrite omap_app, NoDup_app. split_and!.
  - destruct r as [|o]; [constructor|]. rewrite omap_output_updates. apply data_keys_NoDup. apply Hr.
  - intros k (u & Hu & Hk)%list_elem_of_omap (u' & Hu' & Hk')%list_elem_of_omap. apply list_elem_of_fmap in Hu' as ([k1 m] & -> & Hin).
    apply list_elem_of_In, filter_In in Hin as [_ Hn]. apply negb_true_iff, bool_decide_eq_false_1 in Hn. destruct m; simpl in Hk'; simplify_eq.
    apply Hn, list_elem_of_fmap. exists u. split; [|done]. by destruct u as [| | |? []]; simpl in *; simplify_eq.
  - by apply omap_deletes, modified_keys_NoDup.
Qed.

(** ** Estimates are kept *)
Lemma est_same w w' : est w -> commit_idx w' = commit_idx w -> active w' = active w ->
  outputs (last_input_output w') = outputs (last_input_output w) -> aborted w' = aborted w ->
  (forall k (j : TxnIndex), commit_idx w <= j -> entry_at w' k j = entry_at w k j) -> est w'.
Proof.
  intros He Ec Ea Eo Eab Een j Hj. rewrite Ec in Hj. destruct (He j Hj) as [H1 H2 H3].
  assert (modified_keys (last_input_output w') j = modified_keys (last_input_output w) j) as Em by (unfold modified_keys; by rewrite Eo).
  split; [by rewrite Eo|intros k; rewrite Ea, Em, Een by done; apply H2|]. rewrite Ea, Eab. unfold estimated, outside in *. rewrite Em.
  destruct (active w !! j) as [[| |]|]; [|destruct H3 as [? H3]; split; [done|]; intros k; rewrite Een by done; apply H3|..];
    intros; eapply H3; try done; by rewrite <-Een.
Qed.

Lemma est_reading w (i : TxnIndex) inc p reads inc' p' reads' : est w -> active w !! i = Some (Reading inc p reads) ->
  est (set_active i (Some (Reading inc' p' reads')) w).
Proof.
  intros He Ha. apply (est_local w _ i); [done|done| |].
  - intros j Hj. split; [by apply active_set_ne|done].
  - intros Hi [H1 H2 H3]. rewrite Ha in H2, H3. split; [done| |]; rewrite active_set; [exact H2|exact H3].
Qed.

Lemma est_start w (i : TxnIndex) p inc : inv kind block w -> est w -> commit_idx w <= i -> active w !! i = None ->
  outputs (last_input_output w) !! i = None \/ i ∈ aborted w -> est (set_active i (Some (Reading inc p [])) (set_incarnation i (inc + 1) w)).
Proof.
  intros Hw He Hc Ha Ho. apply (est_local w _ i); [done|done| |].
  - intros j Hj. split; [by rewrite active_set_ne|done].
  - intros Hi [H1 H2 H3]. rewrite Ha in H2, H3. split; [done| |]; rewrite active_set; [exact H2|]. destruct Ho as [Ho|Ho]; [|by apply H3].
    intros k e Hk. pose proof (inv_txn _ _ _ Hw i Hc) as Ht. unfold txn_inv in Ht. rewrite Ha in Ht. destruct Ht as [Ht _].
    apply Ht in Hk. unfold modified_keys in Hk. rewrite Ho in Hk. by apply not_elem_of_nil in Hk.
Qed.

Lemma est_prev_ok w (i : TxnIndex) : est_txn w i ->
  forall s o, outputs (last_input_output w) !! i = Some s -> output_in s = Some o -> change_set_ok kind (change_set o).
Proof. intros He s o Hs Ho. apply (est_prev _ _ He _ _ Hs Ho). Qed.

Lemma outside_found (prev : list (K * bool)) us u : u ∈ us -> update_key u ∉ prev.*1 -> outside_of prev us = true.
Proof using Type.
  revert prev. induction us as [|u' us IH]; intros prev Hu Hn; [by apply not_elem_of_nil in Hu|]. simpl. apply orb_true_iff.
  apply elem_of_cons in Hu as [->|Hu]; [left; by apply negb_true_iff, bool_decide_eq_false_2|right]. apply IH; [done|].
  intros ([k m] & E & Hin)%list_elem_of_fmap. apply Hn, list_elem_of_fmap. exists (k, m). split; [done|].
  apply list_elem_of_In, filter_In in Hin as [Hin _]. by apply list_elem_of_In.
Qed.

Lemma est_return w (i : TxnIndex) inc r reads : inv kind block w -> est w -> active w !! i = Some (Reading inc (Ret r) reads) ->
  est (set_active i (Some (Updating inc reads r (execution_updates (modified_keys (last_input_output w) i) r))) (set_history (i, inc) r w)).
Proof.
  intros Hw He Ha. set (w' := set_active _ _ _). apply (est_local w w' i); [done|done| |].
  { intros j Hj. split; [unfold w'; by rewrite active_set_ne|done]. }
  intros Hi Hest. pose proof (est_prev_ok _ _ Hest) as Hok. destruct Hest as [H1 H2 H3]. rewrite Ha in H2, H3.
  assert (result_ok kind r) as Hr.
  { pose proof (inv_txn _ _ _ Hw i Hi) as Ht. unfold txn_inv in Ht. rewrite Ha in Ht. destruct Ht as (_ & _ & Ht & _). apply Ht. constructor. }
  split; [done| |]; unfold w'; rewrite active_set; [done|]. split; [by apply updates_NoDup|]. intros k Hk.
  change (entry_at (set_active _ _ _) k i) with (entry_at w k i). destruct (entry_at w k i) as [e|] eqn:Ee; [by eapply H3|].
  assert (forall m, (k, m) ∈ modified_keys (last_input_output w) i -> m = true /\ kind k = Code) as Hprev.
  { intros [] Hin; [|by destruct (H2 k I Hin); congruence]. split; [done|]. apply modified_keys_module in Hin as (s & o & Hs & Ho & Hin).
    by apply (modules_ok _ _ (Hok s o Hs Ho)). }
  change (updates_outside (modified_keys (last_input_output w) i) r = true). unfold updates_outside.
  unfold execution_updates in Hk. rewrite omap_app in Hk. apply elem_of_app in Hk as [Hk|Hk].
  - destruct r as [|o]; [by apply not_elem_of_nil in Hk|]. assert (kind k <> Code) as Hc.
    { rewrite omap_output_updates in Hk. eapply data_keys_kind; [apply Hr|done]. }
    apply list_elem_of_omap in Hk as (u & Hu & Hk). apply (outside_found _ _ u Hu). assert (update_key u = k) as -> by (by destruct u as [| | |? []]; simpl in *; simplify_eq).
    intros ([k' m] & -> & Hin)%list_elem_of_fmap. by destruct (Hprev m Hin).
  - apply list_elem_of_omap in Hk as (u & Hu & Hk). apply list_elem_of_fmap in Hu as ([k' m] & -> & Hin).
    apply list_elem_of_In, filter_In in Hin as [Hin _]. apply list_elem_of_In in Hin. destruct m; simpl in Hk; simplify_eq.
    destruct (Hprev false Hin). done.
Qed.

Lemma est_update w (i : TxnIndex) inc reads r u todo c : inv kind block w -> est w -> active w !! i = Some (Updating inc reads r (u :: todo)) ->
  perform_update (i, inc) u (cache w) = (c, Ok tt) ->
  est (set_active i (Some (Updating inc reads r todo)) (match u with UModule key _ => set_published key i | _ => id end (set_cache c w))).
Proof.
  intros Hw He Ha Hp. set (w' := set_active _ _ _). pose proof (inv_active _ _ _ Hw _ _ Ha) as Hi. pose proof (inv_txn _ _ _ Hw i (proj1 Hi)) as Ht.
  unfold txn_inv in Ht. rewrite Ha in Ht. destruct Ht as (_ & Hok & _ & [Hfit _]%Forall_cons & _).
  assert (active w' = partial_alter (fun _ => Some (Updating inc reads r todo)) i (active w)) as Eact by (by destruct u as [| | |? []]).
  assert (last_input_output w' = last_input_output w) as Eio by (by destruct u as [| | |? []]).
  assert (data w' = c.1) as Ed by (by destruct u as [| | |? []]).
  assert (forall k (j : TxnIndex), j <> i \/ data_key u <> Some k -> entry_at w' k j = entry_at w k j) as Hsame.
  { intros k j Hkj. unfold entry_at. rewrite Ed. destruct (data_key u) as [k0|] eqn:Ek.
    - destruct (update_puts _ _ _ _ _ _ _ _ _ Hw (proj1 Hi) Hok Hfit Ek Hp) as (_ & [Hg _] & _). rewrite Hg, bool_decide_eq_false_2; [done|].
      intros [-> ->]. by destruct Hkj.
    - f_equal. f_equal. unfold data. destruct (cache w) as [d m]. destruct u as [| | |? []]; simpl in Hp, Ek; try done.
      + by destruct (write_module _ _ _ _) as [m' o]; simplify_eq.
      + by destruct (delete_module _ _ _) as [m' o]; simplify_eq. }
  apply (est_local w w' i); [done|by destruct u as [| | |? []]| |].
  - intros j Hj. rewrite Eact, lookup_partial_alter_ne, Eio by done. split_and!; [done|done|by destruct u as [| | |? []]|]. intros k. apply Hsame. by left.
  - intros _ [H1 H2 H3]. rewrite Ha in H3. destruct H3 as [Hnd H3]. split; rewrite ?Eact, ?lookup_partial_alter_eq, ?Eio; [done|done|].
    assert (NoDup (omap data_key todo) /\ forall k, k ∈ omap data_key todo -> data_key u <> Some k /\ k ∈ omap data_key (u :: todo)) as [Hnd' Hk].
    { simpl in Hnd |- *. destruct (data_key u) as [k0|]; [|done]. apply NoDup_cons in Hnd as [Hn Hnd]. split; [done|]. intros k Hk. split; [|by right].
      intros [= ->]. done. }
    split; [done|]. intros k [Hne Hin]%Hk. unfold outside. rewrite Hsame, Eio by (by right). by apply H3.
Qed.

Lemma entry_for_data_key inc o k : result_ok kind (inr o) -> k ∈ data_keys o -> entry_for kind inc (inr o) k <> None.
Proof.
  intros (Hok & _) Hk. pose proof (data_keys_kind _ _ Hok Hk) as Hc. rewrite entry_for_output by done. apply data_keys_elem in Hk; [|done].
  destruct (lookup_by_kind kind o k Hok) as (Hr & _ & Ha & _). rewrite Hr, Ha in Hk. destruct (write_of kind o k); [done|].
  destruct (aggregator_delta_set (change_set o) !! k); [done|]. destruct (kind k); naive_solver.
Qed.

Lemma est_record w (i : TxnIndex) inc reads r io o : inv kind block w -> est w -> active w !! i = Some (Updating inc reads r []) ->
  record i reads (status_of r) (last_input_output w) = (io, o) -> module_read_write_intersection io = false ->
  est (set_active i None (set_aborted (aborted w ∖ {[i]}) (set_io io w))).
Proof.
  intros Hw He Ha Hrec Hflag. set (w' := set_active _ _ _). destruct (record_inversion _ _ _ _ _ _ Hrec Hflag (inv_modules _ _ _ Hw)) as (_ & Hout & _).
  pose proof (inv_active _ _ _ Hw _ _ Ha) as Hi. pose proof (inv_txn _ _ _ Hw i (proj1 Hi)) as Ht.
  unfold txn_inv in Ht. rewrite Ha in Ht. destruct Ht as (_ & Hok & _ & _ & Hset). apply (est_local w w' i); [done|done| |].
  - intros j Hj. split; [unfold w'; by rewrite active_set_ne|]. simpl. rewrite Hout, lookup_insert_ne by done. split_and!; [done|set_solver|done].
  - intros _ _. split.
    + intros s o'. simpl. rewrite Hout, lookup_insert_eq. intros [= <-]. rewrite status_output. destruct r; [done|]. by intros [= <-].
    + unfold w' at 1. rewrite active_set. intros k _ (s & o' & Hs & Ho & Hk)%modified_keys_data. simpl in Hs. rewrite Hout, lookup_insert_eq in Hs.
      injection Hs as <-. rewrite status_output in Ho. destruct r as [|o1]; [done|]. injection Ho as <-.
      destruct (Hset k (data_keys_kind _ _ (proj1 Hok) Hk)) as [(u & Hu & _)|Hs]; [by apply not_elem_of_nil in Hu|]. unfold settled in Hs.
      change (is_Some (entry_at w k i)). destruct (entry_at w k i); [by eexists|]. by apply entry_for_data_key in Hs.
    + unfold w' at 1. rewrite active_set. simpl. set_solver.
Qed.

Lemma est_abort w (i : TxnIndex) : inv kind block w -> est w -> active w !! i = None ->
  est (set_active i (Some (Aborting (modified_keys (last_input_output w) i))) (set_aborted ({[i]} ∪ aborted w) w)).
Proof.
  intros Hw He Ha. set (w' := set_active _ _ _). apply (est_local w w' i); [done|done| |].
  - intros j Hj. split; [unfold w'; by rewrite active_set_ne|]. split_and!; [done|simpl; set_solver|done].
  - intros Hi [H1 H2 H3]. rewrite Ha in H2. pose proof (inv_txn _ _ _ Hw i Hi) as Ht. unfold txn_inv in Ht. rewrite Ha in Ht. destruct Ht as [Ht _].
    split; [done| |]; unfold w' at 1; rewrite active_set; [exact H2|]. intros k e Hk. right. by apply (Ht k e).
Qed.

Lemma est_estimate w (i : TxnIndex) k m todo c : inv kind block w -> est w -> active w !! i = Some (Aborting ((k, m) :: todo)) ->
  perform_estimate i k m (cache w) = (c, Ok tt) -> est (set_active i (Some (Aborting todo)) (set_cache c w)).
Proof.
  intros Hw He Ha Hp. set (w' := set_active _ _ _).
  assert (exists e', forall k' j, entry_at w' k' j = if bool_decide (m = false /\ k' = k /\ j = i) then Some (mark_entry_estimate e') else entry_at w k' j) as [e' Hen].
  { unfold entry_at, w', data. simpl. destruct (cache w) as [d ms]. simpl in Hp |- *. destruct m.
    - exists (new_delta_from (DeltaOp.delta_add 0 0)). intros k' j. destruct (mark_module_estimate k i ms) as [m' o]. by injection Hp as <- _.
    - destruct (mark_estimate k i d) as [d' o] eqn:E. injection Hp as <- ->. destruct (estimate_puts _ _ _ _ E) as (e & _ & [Hg _]). exists e.
      intros k' j. simpl. rewrite Hg. case_bool_decide; case_bool_decide; tauto. }
  apply (est_local w w' i); [done|done| |].
  - intros j Hj. split; [unfold w'; by rewrite active_set_ne|]. split_and!; [done|done|]. intros k'. rewrite Hen, bool_decide_eq_false_2; [done|]. tauto.
  - intros _ [H1 H2 H3]. rewrite Ha in H2, H3. split; [done| |]; unfold w' at 1; rewrite active_set.
    + intros k' _ Hin. rewrite Hen. case_bool_decide; [by eexists|]. by apply H2.
    + intros k' x. rewrite Hen. case_bool_decide as E; [intros [= <-]; by left|]. intros Hx.
      destruct (H3 k' x Hx) as [?|[[= -> <-]|?]%elem_of_cons]; [by left|tauto|by right].
Qed.

Lemma est_aborted w (i : TxnIndex) : est w -> active w !! i = Some (Aborting []) -> est (set_active i None w).
Proof.
  intros He Ha. set (w' := set_active _ _ _). apply (est_local w w' i); [done|done| |].
  - intros j Hj. split; [by apply active_set_ne|done].
  - intros _ [H1 H2 H3]. rewrite Ha in H2, H3. split; [done| |]; unfold w' at 1; rewrite active_set; [exact H2|]. intros _ k e Hk.
    destruct (H3 k e Hk) as [?|Hn]; [done|]. by apply not_elem_of_nil in Hn.
Qed.

Lemma est_commit w fees s' x stop : est w ->
  est (set_committing (commit_idx w) x (set_io (set_output (commit_idx w) s' (last_input_output w)) (set_commit (commit_idx w + 1) fees stop w))).
Proof.
  intros He j Hj. simpl in Hj. destruct (He j ltac:(lia)) as [H1 H2 H3]. set (w' := set_committing _ _ _).
  assert (outputs (last_input_output w') !! j = outputs (last_input_output w) !! j) as Eo by (simpl; rewrite lookup_insert_ne by lia; done).
  assert (modified_keys (last_input_output w') j = modified_keys (last_input_output w) j) as Em by (unfold modified_keys; by rewrite Eo).
  split; rewrite ?Eo, ?Em; [done|done|]. unfold outside. rewrite Em. exact H3.
Qed.

(** ** Changes that keep reads valid *)
Lemma valid_base (d d' : VersionedData WriteOp.t K) k v (i : TxnIndex) r : set_aggregator_base_value k v d = (d', Ok tt) -> valid d i r -> valid d' i r.
Proof.
  intros Hs Hv. unfold set_aggregator_base_value in Hs. destruct (d !! k) as [x|] eqn:Ex; [|done]. injection Hs as <- _.
  apply (valid_fetch d); [|done]. rewrite fetch_put. case_bool_decide as E; [|done].
  assert (fetch_data d (access_path r) i = read x i) as Hf by (rewrite E; unfold fetch_data; by rewrite Ex).
  pose proof (fun op => valid_resolved d i r op Hv) as Hr. rewrite Hf in Hr |- *. unfold read in *. simpl.
  destruct (aggregator_base_value x); [done|]. by apply read_loop_base.
Qed.

Lemma value_map_ordered w k : inv kind block w -> BTreeMap.ordered (versioned_map (default new_versioned_value (data w !! k))).
Proof.
  intros Hw. destruct (data w !! k) as [v|] eqn:Ev; [|constructor]. apply (value_ordered _ _ _ _ _ (inv_map _ _ _ Hw _ _ Ev)).
Qed.

(** One entry is changed, that was an estimate or is not below the reader. *)
Lemma valid_change w k0 m' (j i : TxnIndex) r : inv kind block w -> let m := versioned_map (default new_versioned_value (data w !! k0)) in
  (exists e, m' = BTreeMap.insert m j e) \/ m' = BTreeMap.remove m j ->
  (exists e, entry_at w k0 j = Some e /\ flag e = Estimate) \/ i <= j ->
  valid (data w) i r -> valid (<[k0 := with_map (default new_versioned_value (data w !! k0)) m']> (data w)) i r.
Proof.
  intros Hw m Hm He Hv. pose proof (value_map_ordered w k0 Hw) as Ho. fold m in Ho. apply (valid_fetch (data w)); [|done].
  destruct (decide (access_path r = k0)) as [<-|Hne]; [|by rewrite fetch_put, bool_decide_eq_false_2].
  apply (fetch_change (data w) (access_path r) m' j i); fold m; [done| | | | |by apply valid_no_dependency].
  - destruct Hm as [[e ->]| ->]; [by apply BTreeMap.insert_ordered|by apply BTreeMap.remove_ordered].
  - intros Hij. destruct Hm as [[e ->]| ->]; [by apply below_insert|by apply below_remove].
  - destruct Hm as [[e ->]| ->]; [apply between_insert|apply between_remove].
  - destruct He as [(e & He & Hf)|?]; [left|by right]. exists e. split; [|done]. unfold entry_at in He. by rewrite <-entries_default in He.
Qed.

Lemma outcome_seen_inj b (o o' : outcome MVDataError (MVDataOutput WriteOp.t)) s : outcome_seen b o = Some s -> outcome_seen b o' = Some s ->
  (forall op, o <> Err (Unresolved op)) -> (forall op, o' <> Err (Unresolved op)) -> o = o'.
Proof.
  intros Hs Hs' Hn Hn'. destruct o as [[]|[]|], o' as [[]|[]|]; simpl in Hs, Hs'; simplify_eq; try done; try (by edestruct Hn); try (by edestruct Hn').
Qed.

Lemma valid_materialize w k (i0 i : TxnIndex) r : inv kind block w -> 0 <= i0 < commit_idx w -> valid (data w) i r ->
  valid (materialize_delta k i0 (data w)).1 i r.
Proof.
  intros Hw Hi0 Hv. pose proof (materialize_restates kind block w k i0 Hw Hi0) as Hres. revert Hres.
  unfold materialize_delta. destruct (data w !! k) as [v|] eqn:Ev; [|done]. destruct (u32_succ i0 ≫= read v) as [[x|]|[]|]; try done.
  destruct (BTreeMap.get (versioned_map v) i0) as [e|] eqn:Ee; [|done]. destruct (record_delta_shortcut e x) as [e'| |] eqn:Er; try done.
  cbn [fst]. intros [Hok Hval _ _]. set (d' := <[k := _]> (data w)) in *.
  pose proof (value_ordered _ _ _ _ _ (inv_map _ _ _ Hw _ _ Ev)) as Ho. pose proof (value_done _ _ _ _ _ (inv_map _ _ _ Hw _ _ Ev) _ _ Ee (proj2 Hi0)) as Hdone.
  apply (valid_fetch (data w)); [|done]. unfold d'. rewrite fetch_put. case_bool_decide as E; [|done].
  assert (fetch_data (data w) (access_path r) i = read v i) as Hf by (rewrite E; unfold fetch_data; by rewrite Ev). rewrite Hf.
  destruct (Z.le_gt_cases i i0) as [Hle|Hgt]; [unfold read; simpl; by rewrite below_insert|].
  assert (exists d, e' = {| cell := DeltaCell d (Some x); flag := flag e |}) as [d ->].
  { unfold record_delta_shortcut in Er. destruct (cell e); [done|]. apply bind_Ok in Er as (_ & _ & [= <-]). by eexists. }
  set (m' := BTreeMap.insert (versioned_map v) i0 _) in *.
  assert (BTreeMap.ordered m') as Ho' by (by apply BTreeMap.insert_ordered).
  assert (between i0 i m' = between i0 i (versioned_map v)) as Hbt by apply between_insert.
  assert (below (i0 + 1) m' = below i0 m' ++ [(i0, {| cell := DeltaCell d (Some x); flag := flag e |})]) as Hm'.
  { apply below_succ; [done|]. unfold m'. by rewrite BTreeMap.get_insert, Z.eqb_refl. }
  destruct (read_loop_prefix (aggregator_base_value v) (reverse (between i0 i (versioned_map v))) None) as [[res Hend]|[Hd [a Ha]]].
  { unfold read. simpl. rewrite (below_between i0 i m'), (below_between i0 i (versioned_map v)), !reverse_app by done.
    by rewrite Hbt, !Hend. }
  assert (Forall (fun e => flag e.2 = Done) (between i0 i (versioned_map v))) as Hd' by (by apply Forall_reverse in Hd; rewrite reverse_involutive in Hd).
  assert (forall dx, mv_ok stored (limit_of kind) (dx, commit_idx w) -> between i0 i (entries_of dx k) = between i0 i (versioned_map v) ->
    BTreeMap.ordered (entries_of dx k) -> outcome_seen (stored k) (fetch_data dx k i) = Some (sequentially (stored k) (below i (entries_of dx k)))) as Hseq.
  { intros dx Hdx Hbx Hox. apply (fetch_sequential _ (limit_of kind) (dx, commit_idx w)); [apply stored_nonneg|done|]. simpl.
    rewrite (below_between i0 i) by done. rewrite Hbx, Forall_app. split; [|done].
    apply (done_below_commit stored (limit_of kind) (dx, commit_idx w) k (i0 + 1)); [done|simpl; lia]. }
  assert (entries_of (data w) k = versioned_map v) as E1 by (unfold entries_of; by rewrite Ev).
  assert (entries_of d' k = m') as E2 by (unfold d'; rewrite entries_put; by rewrite bool_decide_eq_true_2).
  pose proof (Hseq (data w) (inv_map _ _ _ Hw) ltac:(by rewrite E1) ltac:(by rewrite E1)) as S1.
  pose proof (Hseq d' Hok ltac:(by rewrite E2) ltac:(by rewrite E2)) as S2. rewrite (Hval k i) in S2. fold (value_at w k i) in S1.
  unfold d' in S2. rewrite fetch_put, bool_decide_eq_true_2 in S2 by done. rewrite <-E, Hf in S1.
  eapply outcome_seen_inj; [exact S2|rewrite <-E; exact S1| |].
  - intros op. unfold read. simpl. rewrite (below_between i0 i m'), reverse_app, Hbt, Ha, Hm', reverse_app by done. rewrite Hdone.
    by apply (read_loop_shortcut (aggregator_base_value v) i0 d x Done (reverse (below i0 m'))).
  - intros op. rewrite <-Hf. by apply valid_resolved.
Qed.

(** A transaction that may still make reads above it invalid: it is being aborted, or
    its updates are outside of what its previous execution wrote. *)
Definition unsettled (w : world) (j : TxnIndex) : Prop :=
  match active w !! j with
  | Some (Aborting _) => True
  | Some (Updating _ _ r _) => outside w j r = true
  | _ => False
  end.

Lemma update_changes w (j : TxnIndex) inc u k0 c : data_key u = Some k0 -> perform_update (j, inc) u (cache w) = (c, Ok tt) ->
  let m := versioned_map (default new_versioned_value (data w !! k0)) in
  exists m', ((exists e, m' = BTreeMap.insert m j e) \/ m' = BTreeMap.remove m j) /\
    c.1 = <[k0 := with_map (default new_versioned_value (data w !! k0)) m']> (data w).
Proof.
  unfold data. destruct (cache w) as [d ms]. destruct u as [k v|k v|k x|k []]; intros Hk Hp; simpl in Hk; simplify_eq; simpl in Hp |- *.
  - injection Hp as <- _. eexists. split; [left; by eexists|done].
  - injection Hp as <-. eexists. split; [left; by eexists|done].
  - destruct (delete_entry k0 j d) as [d' o] eqn:E. injection Hp as <- ->. unfold delete_entry in E.
    destruct (d !! k0) as [v|] eqn:Ev; [|done]. injection E as <- _. eexists. split; [by right|done].
Qed.

Lemma valid_update w (j i : TxnIndex) inc reads r0 u todo c r : inv kind block w -> est w -> active w !! j = Some (Updating inc reads r0 (u :: todo)) ->
  perform_update (j, inc) u (cache w) = (c, Ok tt) -> valid (data w) i r -> valid c.1 i r \/ 0 <= j < i /\ unsettled w j.
Proof.
  intros Hw He Ha Hp Hv. pose proof (inv_active _ _ _ Hw _ _ Ha) as Hj. pose proof (inv_commit _ _ _ Hw). destruct (data_key u) as [k0|] eqn:Ek.
  - destruct (update_changes _ _ _ _ _ _ Ek Hp) as (m' & Hm & ->). destruct (Z.lt_ge_cases j i) as [Hlt|Hge]; [|left; eapply valid_change; try done; by right].
    pose proof (est_flags _ _ (He j (proj1 Hj))) as Hf. rewrite Ha in Hf. destruct Hf as [_ Hf]. specialize (Hf k0). simpl in Hf. rewrite Ek in Hf.
    specialize (Hf ltac:(by left)). destruct (entry_at w k0 j) as [e|] eqn:Ee.
    + left. eapply valid_change; try done. left. by exists e.
    + right. split; [lia|]. unfold unsettled. by rewrite Ha.
  - left. assert (c.1 = data w) as ->; [|done]. unfold data. destruct (cache w) as [d ms]. destruct u as [| | |? []]; simpl in Hp, Ek; try done.
    + by destruct (write_module _ _ _ _) as [m' o]; simplify_eq.
    + by destruct (delete_module _ _ _) as [m' o]; simplify_eq.
Qed.

Lemma valid_estimate w (j i : TxnIndex) k m todo c r : inv kind block w -> active w !! j = Some (Aborting ((k, m) :: todo)) ->
  perform_estimate j k m (cache w) = (c, Ok tt) -> valid (data w) i r -> valid c.1 i r \/ 0 <= j < i /\ unsettled w j.
Proof.
  intros Hw Ha Hp Hv. pose proof (inv_active _ _ _ Hw _ _ Ha) as Hj. pose proof (inv_commit _ _ _ Hw).
  destruct (Z.lt_ge_cases j i) as [Hlt|Hge]; [right; split; [lia|]; unfold unsettled; by rewrite Ha|]. left.
  pose proof (valid_change w k) as Hch. unfold data in *. destruct (cache w) as [d ms] eqn:Ec. destruct m; simpl in Hp.
  - destruct (mark_module_estimate k j ms) as [m' o]. by injection Hp as <- _.
  - destruct (mark_estimate k j d) as [d' o] eqn:E. injection Hp as <- ->. unfold mark_estimate in E. simpl in Hch.
    destruct (d !! k) as [v|] eqn:Ev; [|done]. destruct (BTreeMap.get (versioned_map v) j) as [e|]; [|done]. injection E as <-.
    apply (Hch _ j i); [done|left; by eexists|by right|done].
Qed.

Context (module_kind : forall k, is_module_path k = true <-> kind k = Code).
Context (counters_in_storage : counters_stored kind).
Context (block_ok : forall p r, p ∈ block -> returns p r -> result_ok kind r).

Lemma valid_delta w (i0 i : TxnIndex) k d' v r : inv kind block w -> 0 <= i0 < commit_idx w ->
  @commit_delta _ _ _ Empty_set k i0 (data w) = (d', Ok v) -> valid (data w) i r -> valid d' i r.
Proof.
  intros Hw Hi Hd Hv. pose proof (valid_materialize w k i0 i r Hw Hi Hv) as Hm. unfold commit_delta in Hd.
  destruct (materialize_delta k i0 (data w)) as [d1 [y|op|]]; [by injection Hd as <- <-| |done].
  destruct (get_state_value_u128 (view_bytes base_view) k) as [[b|]| |]; try done.
  destruct (set_aggregator_base_value k b d1) as [d2 [[]| |]] eqn:Eb; [|done..]. injection Hd as <- _. by eapply valid_base.
Qed.

(** A step makes a read invalid only when a transaction below the reader is unsettled. *)
Lemma valid_stays w w' (i : TxnIndex) r : inv kind block w -> est w -> step block w w' -> valid (data w) i r ->
  valid (data w') i r \/ exists j, 0 <= j < i /\ unsettled w j.
Proof.
  intros Hw He Hs Hv. destruct Hs as [| |w i' inc key continue reads v d Ha Hm Hf Hg Hb| | | | |w j inc reads r0 u todo c Ha Hp| | |w j key m todo c Ha Hp| | |
    w j key keys writes d v Hc Hd|]; try (by left).
  - left. by eapply valid_base.
  - destruct (valid_update _ _ i _ _ _ _ _ _ r Hw He Ha Hp Hv) as [?|?]; [left; by destruct u as [| | |? []]|right; by exists j].
  - destruct (valid_estimate _ _ i _ _ _ _ r Hw Ha Hp Hv) as [?|?]; [by left|right; by exists j].
  - left. assert (0 <= j < commit_idx w) as Hj by (apply (inv_hooks _ _ _ Hw); left; by eexists). by eapply valid_delta.
Qed.

Lemma est_step w w' : inv kind block w -> est w -> step block w w' -> fell_back w' = false -> est w'.
Proof.
  intros Hw He Hs Hflag. destruct Hs as [w i p Hi Hp Ha Ho|w i inc key continue reads r rk a Ha|w i inc key continue reads v d Ha Hm Hf Hv Hb
    |w i inc key continue reads e Ha|w i inc key continue reads a Ha|w i inc key continue reads a Ha|w i inc r reads|w i inc reads r u todo c
    |w i inc reads r io o|w i|w i key m todo c|w i|w reads s fees s'|w i key keys writes d v Hc Hd|w i writes o out].
  - apply est_start; try done. apply Hi.
  - by eapply est_reading.
  - apply (est_same w); try done. intros k j Hj. pose proof (no_missing_base kind block counters_in_storage _ _ _ Hw Hf) as Hst.
    assert (v = stored key) as -> by congruence. apply (restates_entry kind w d); [|done]. by eapply base_restates.
  - by eapply est_reading.
  - by eapply est_reading.
  - by eapply est_reading.
  - by apply est_return.
  - by apply est_update.
  - by eapply est_record.
  - by apply est_abort.
  - by eapply est_estimate.
  - by apply est_aborted.
  - by apply est_commit.
  - apply (est_same w); try done. intros k j Hj. assert (0 <= i < commit_idx w) as Hi by (apply (inv_hooks _ _ _ Hw); left; by eexists).
    apply (restates_entry kind w d); [|done]. by eapply commit_delta_restates.
  - by apply (est_same w).
Qed.

Lemma est_start_world : est start_world.
Proof.
  intros i _. split; [done| |assert (active start_world !! i = None) as -> by apply lookup_empty; by intros _ k e].
  intros k _ (s & o & Hs & _)%modified_keys_data. done.
Qed.
End validity.
