(* ===== verification/ScheduledExecution.v ===== *)
(** * Parallel execution under the scheduler

    The workers of src/aptos-move/block-executor/src/executor.rs with the scheduler
    that hands out their tasks.  The shared data is the [world] of [BlockExecutor];
    here nothing is assumed of when a transaction is executed, aborted or committed,
    it is what the scheduler says.  A choice is a step of one of the workers, between
    two accesses to shared data: [finish_execution], [finish_abort],
    [decrease_validation_idx] and [validate] are sequences of such steps.  The commit
    of a transaction with what [coordinator_commit_hook] does for it is one step, and
    so are the loads with which [next_task] chooses a task. *)

From S2P Require Import Prelude Collections Aggregator ChangeSet MVHashMap BlockExecutor Schedules Scheduler.

Section scheduled.
Context {bcs : Bcs128} {types : ExecutorTypes} {config : ExecutorConfig}.
Context (block : list prog).

(** ** What workers are doing *)

(** Where [decrease_validation_idx] is: about to load the index, to update the
    validation status of the target, or to store a new index in place of the loaded
    one. *)
Inductive decreasing :=
  | DLoad
  | DTrigger (loaded : TxnIndex * Scheduler.Wave)
  | DSwap (loaded : TxnIndex * Scheduler.Wave).

(** Where [finish_execution] is; from [XTake] on it holds the lock of the validation
    status. *)
Inductive exec_stage :=
  | XLock
  | XTake
  | XResume (deps : list TxnIndex) (min_dep : option TxnIndex)
  | XLoad
  | XDecrease (cur_wave : Scheduler.Wave) (d : decreasing)
  | XRequire (wave : Scheduler.Wave).

(** Where an abort is: marking estimates, about to call [finish_abort], or in it with
    the lock of the validation status. *)
Inductive abort_stage :=
  | AMark
  | ALock
  | ADecrease (d : decreasing).

(** A validation: an index that [next_task] has seen, one that was claimed, a task,
    reads that are still to be checked, a read that is not valid, the end of a
    validation whose abort came too late. *)
Inductive vtask :=
  | VPicked (idx : TxnIndex) (wave : Scheduler.Wave)
  | VClaimed (idx : TxnIndex) (wave : Scheduler.Wave)
  | VTask (txn_idx : TxnIndex) (incarnation : Incarnation) (wave : Scheduler.Wave)
  | VCheck (txn_idx : TxnIndex) (incarnation : Incarnation) (wave : Scheduler.Wave) (todo : list ReadDescriptor)
  | VInvalid (txn_idx : TxnIndex) (incarnation : Incarnation) (wave : Scheduler.Wave)
  | VFinish (txn_idx : TxnIndex) (wave : Scheduler.Wave).

(** [finishing] are the calls of [finish_execution], with the incarnation and whether
    it wrote outside of what the previous one wrote; [aborts] are the aborts, and
    [rechecks] those that are about to load the execution index.  [claims] is how many
    workers are about to increment the execution index, [picks] are indices for which
    [try_incarnate] is about to be called, [wakes] wakeup tasks, [asking] dependencies
    that a read has met, and [halting] is where [halt] is, with whether the
    coordinator has called it. *)
Record system := {
  world_of : world;
  scheduler : Scheduler.t;
  finishing : gmap TxnIndex (Incarnation * bool * exec_stage);
  aborts : gmap TxnIndex (Incarnation * abort_stage);
  tasks : list vtask;
  rechecks : list TxnIndex;
  claims : nat;
  picks : list TxnIndex;
  wakes : list TxnIndex;
  asking : gmap TxnIndex TxnIndex;
  halting : option (bool * TxnIndex) }.

Definition start_system : system :=
  {| world_of := start_world; scheduler := Scheduler.new (num_txns block); finishing := ∅; aborts := ∅; tasks := []; rechecks := [];
     claims := 0; picks := []; wakes := []; asking := ∅; halting := None |}.

Definition set_world (w : world) (S : system) : system :=
  {| world_of := w; scheduler := scheduler S; finishing := finishing S; aborts := aborts S; tasks := tasks S; rechecks := rechecks S;
     claims := claims S; picks := picks S; wakes := wakes S; asking := asking S; halting := halting S |}.
Definition set_scheduler (s : Scheduler.t) (S : system) : system :=
  {| world_of := world_of S; scheduler := s; finishing := finishing S; aborts := aborts S; tasks := tasks S; rechecks := rechecks S;
     claims := claims S; picks := picks S; wakes := wakes S; asking := asking S; halting := halting S |}.
Definition set_finishing (i : TxnIndex) (x : option (Incarnation * bool * exec_stage)) (S : system) : system :=
  {| world_of := world_of S; scheduler := scheduler S; finishing := partial_alter (fun _ => x) i (finishing S); aborts := aborts S;
     tasks := tasks S; rechecks := rechecks S; claims := claims S; picks := picks S; wakes := wakes S; asking := asking S;
     halting := halting S |}.
Definition set_abort (i : TxnIndex) (x : option (Incarnation * abort_stage)) (S : system) : system :=
  {| world_of := world_of S; scheduler := scheduler S; finishing := finishing S; aborts := partial_alter (fun _ => x) i (aborts S);
     tasks := tasks S; rechecks := rechecks S; claims := claims S; picks := picks S; wakes := wakes S; asking := asking S;
     halting := halting S |}.
Definition set_tasks (l : list vtask) (S : system) : system :=
  {| world_of := world_of S; scheduler := scheduler S; finishing := finishing S; aborts := aborts S; tasks := l;
     rechecks := rechecks S; claims := claims S; picks := picks S; wakes := wakes S; asking := asking S; halting := halting S |}.
Definition set_rechecks (l : list TxnIndex) (S : system) : system :=
  {| world_of := world_of S; scheduler := scheduler S; finishing := finishing S; aborts := aborts S; tasks := tasks S; rechecks := l;
     claims := claims S; picks := picks S; wakes := wakes S; asking := asking S; halting := halting S |}.
Definition set_claims (n : nat) (S : system) : system :=
  {| world_of := world_of S; scheduler := scheduler S; finishing := finishing S; aborts := aborts S; tasks := tasks S;
     rechecks := rechecks S; claims := n; picks := picks S; wakes := wakes S; asking := asking S; halting := halting S |}.
Definition set_picks (l : list TxnIndex) (S : system) : system :=
  {| world_of := world_of S; scheduler := scheduler S; finishing := finishing S; aborts := aborts S; tasks := tasks S;
     rechecks := rechecks S; claims := claims S; picks := l; wakes := wakes S; asking := asking S; halting := halting S |}.
Definition set_wakes (l : list TxnIndex) (S : system) : system :=
  {| world_of := world_of S; scheduler := scheduler S; finishing := finishing S; aborts := aborts S; tasks := tasks S;
     rechecks := rechecks S; claims := claims S; picks := picks S; wakes := l; asking := asking S; halting := halting S |}.
Definition set_asking (i : TxnIndex) (j : option TxnIndex) (S : system) : system :=
  {| world_of := world_of S; scheduler := scheduler S; finishing := finishing S; aborts := aborts S; tasks := tasks S;
     rechecks := rechecks S; claims := claims S; picks := picks S; wakes := wakes S;
     asking := partial_alter (fun _ => j) i (asking S); halting := halting S |}.
Definition set_halting (h : option (bool * TxnIndex)) (S : system) : system :=
  {| world_of := world_of S; scheduler := scheduler S; finishing := finishing S; aborts := aborts S; tasks := tasks S;
     rechecks := rechecks S; claims := claims S; picks := picks S; wakes := wakes S; asking := asking S; halting := h |}.

(** Whether the write lock of a validation status is held. *)
Definition locked_by_finish (S : system) (i : TxnIndex) : bool :=
  match finishing S !! i with None | Some (_, XLock) => false | Some _ => true end.
Definition locked_by_abort (S : system) (i : TxnIndex) : bool :=
  match aborts S !! i with Some (_, ADecrease _) => true | _ => false end.
Definition locked (S : system) (i : TxnIndex) : bool := locked_by_finish S i || locked_by_abort S i.

(** ** The methods of the scheduler in steps *)

(** A step of [decrease_validation_idx]: it goes on, or ends with the new wave, if
    there is one. *)
Definition decrease (target_locked : bool) (target_idx : TxnIndex) (d : decreasing) (s : Scheduler.t) :
    option (Scheduler.t * (decreasing + option Scheduler.Wave)) :=
  match d with
  | DLoad =>
      if Scheduler.num_txns s <=? target_idx then Some (s, inr None)
      else
        let '(txn_idx, wave) := Scheduler.validation_idx s in
        if target_idx <? txn_idx then Some (s, inl (DTrigger (txn_idx, wave))) else Some (s, inr None)
  | DTrigger (txn_idx, wave) =>
      if negb target_locked && (wave + 1 <? 2 ^ 32) then Some (Scheduler.trigger_wave target_idx wave s, inl (DSwap (txn_idx, wave))) else None
  | DSwap (txn_idx, wave) =>
      match Scheduler.exchange_validation_idx (txn_idx, wave) (target_idx, wave + 1) s with
      | Some s => Some (s, inr (Some (wave + 1)))
      | None => Some (s, inl DLoad)
      end
  end.

(** A step of [finish_execution]. *)
Definition finish_execution (S : system) (i : TxnIndex) : option system :=
  let s := scheduler S in
  '(inc, suffix, st) ← finishing S !! i;
  let go st s := Some (set_finishing i (Some (inc, suffix, st)) (set_scheduler s S)) in
  match st with
  | XLock => if locked_by_abort S i then None else go XTake (Scheduler.set_executed_status i inc s)
  | XTake => go (XResume (Scheduler.dependencies s i) None) (Scheduler.set_dependencies i [] s)
  | XResume (dep :: deps) min_dep =>
      match Scheduler.resume dep s with
      | (s, Ok _) => go (XResume deps (Some match min_dep with Some m => Z.min m dep | None => dep end)) s
      | _ => None
      end
  | XResume [] min_dep =>
      go XLoad match min_dep with
        | Some target => Scheduler.set_indices (Z.min (Scheduler.execution_idx s) target) (Scheduler.validation_idx s) s
        | None => s
        end
  | XLoad =>
      let '(cur_val_idx, cur_wave) := Scheduler.validation_idx s in
      if i <? cur_val_idx then go (if suffix : bool then XDecrease cur_wave DLoad else XRequire cur_wave) s
      else Some (set_finishing i None S)
  | XDecrease cur_wave d =>
      match decrease (locked S (i + 1)) (i + 1) d s with
      | Some (s, inl d) => go (XDecrease cur_wave d) s
      | Some (s, inr wave) => go (XRequire (default cur_wave wave)) s
      | None => None
      end
  | XRequire wave => Some (set_finishing i None (set_tasks (VTask i inc wave :: tasks S) (set_scheduler (Scheduler.require_wave i wave s) S)))
  end.

(** A step of [finish_abort]. *)
Definition finish_abort (S : system) (i : TxnIndex) : option system :=
  let s := scheduler S in
  '(inc, st) ← aborts S !! i;
  match st with
  | AMark => None
  | ALock =>
      if locked_by_finish S i then None
      else Some (set_abort i (Some (inc, ADecrease DLoad)) (set_scheduler (Scheduler.set_aborted_status i inc s) S))
  | ADecrease d =>
      match decrease (locked S (i + 1)) (i + 1) d s with
      | Some (s, inl d) => Some (set_abort i (Some (inc, ADecrease d)) (set_scheduler s S))
      | Some (s, inr _) =>
          Some (set_abort i None (set_rechecks (i :: rechecks S) (set_scheduler s S)))
      | None => None
      end
  end.

(** The end of [finish_abort]: a new incarnation, if the execution index is higher; [l]
    are the other ones. *)
Definition recheck (S : system) (i : TxnIndex) (l : list TxnIndex) : option system :=
  Some (set_rechecks l (if i <? Scheduler.execution_idx (scheduler S) then set_picks (i :: picks S) S else S)).

(** ** Validation *)
Definition aborted_world (w : world) (i : TxnIndex) : world :=
  set_active i (Some (Aborting (modified_keys (last_input_output w) i))) (set_aborted ({[i]} ∪ aborted w) w).

(** A step of a validation; [l] are the other ones. *)
Definition validate (S : system) (t : vtask) (l : list vtask) : option system :=
  let s := scheduler S in
  let go t := Some (set_tasks (t :: l) S) in
  match t with
  | VPicked idx wave =>
      match Scheduler.exchange_validation_idx (idx, wave) (idx + 1, wave) s with
      | Some s => Some (set_tasks (VClaimed idx wave :: l) (set_scheduler s S))
      | None => Some (set_tasks l S)
      end
  | VClaimed idx wave =>
      match Scheduler.is_executed idx false s with
      | Some inc => go (VTask idx inc wave)
      | None => Some (set_tasks l S)
      end
  | VTask i inc wave => reads ← inputs (last_input_output (world_of S)) !! i; go (VCheck i inc wave reads)
  | VCheck i inc wave (r :: todo) =>
      match validate_read (cache (world_of S)).1 i r with
      | Ok true => go (VCheck i inc wave todo)
      | Ok false => go (VInvalid i inc wave)
      | _ => None
      end
  | VCheck i _ wave [] | VFinish i wave =>
      if locked S i then None else Some (set_tasks l (set_scheduler (Scheduler.finish_validation i wave s) S))
  | VInvalid i inc wave =>
      match Scheduler.try_abort i inc s with
      | (s, true) => Some (set_tasks l (set_abort i (Some (inc, AMark)) (set_world (aborted_world (world_of S) i) (set_scheduler s S))))
      | (_, false) => go (VFinish i wave)
      end
  end.

(** ** Execution *)
Definition started_world (w : world) (i : TxnIndex) (inc : Incarnation) (p : prog) : world :=
  set_active i (Some (Reading inc p [])) (set_incarnation i (inc + 1) w).

(** [try_incarnate] for an index that was picked; [l] are the other ones. *)
Definition incarnate (S : system) (i : TxnIndex) (l : list TxnIndex) : option system :=
  match Scheduler.try_incarnate i (scheduler S) with
  | (s, Some (inc, Scheduler.Execution)) => p ← txn block i; Some (set_picks l (set_world (started_world (world_of S) i inc p) (set_scheduler s S)))
  | (s, Some (_, Scheduler.Wakeup)) => Some (set_picks l (set_wakes (i :: wakes S) (set_scheduler s S)))
  | (s, None) => Some (set_picks l S)
  end.

Definition wake (S : system) (i : TxnIndex) (l : list TxnIndex) : option system :=
  let s := scheduler S in
  Some (set_wakes l (match Scheduler.condvars s !! i with
    | Some _ => set_scheduler (Scheduler.set_condvar i (Some Scheduler.Resolved) s) S
    | None => S
    end)).

(** The read of a key that another transaction is expected to write. *)
Definition meets_dependency (w : world) (i : TxnIndex) : option TxnIndex :=
  match active w !! i with
  | Some (Reading _ (Get key _) _) =>
      if is_module_path key then None
      else match fetch_data (cache w).1 key i with Err (Dependency j) => Some j | _ => None end
  | _ => None
  end.

(** [halt] called by a worker: the first call resolves the condition variables. *)
Definition halt (coordinator : bool) (S : system) : system :=
  if Scheduler.done_marker (scheduler S) then S
  else set_halting (Some (coordinator, 0)) (set_scheduler (Scheduler.set_done (scheduler S)) S).

(** A step of [execute] that changes the shared data, and what follows. *)
Definition execute (S : system) (i : TxnIndex) : option system :=
  let w := world_of S in
  w' ← turn w i;
  match active w !! i with
  | Some (Updating inc reads r []) =>
      match (record i reads (status_of r) (last_input_output w)).2 with
      | Ok _ => Some (set_finishing i (Some (inc, updates_outside (modified_keys (last_input_output w) i) r, XLock)) (set_world w' S))
      | _ => Some (halt false (set_world w' S))
      end
  | Some (Aborting []) =>
      '(inc, _) ← aborts S !! i;
      Some (set_abort i (Some (inc, ALock)) (set_world w' S))
  | _ => Some (set_world w' S)
  end.

(** A step of the worker that executes or aborts a transaction. *)
Definition work (S : system) (i : TxnIndex) : option system :=
  let w := world_of S in
  let s := scheduler S in
  match Scheduler.condvars s !! i with
  | Some Scheduler.Unresolved => None
  | Some Scheduler.Resolved => Some (set_scheduler (Scheduler.set_condvar i None s) S)
  | Some Scheduler.ExecutionHalted => w ← halt_read w i; Some (set_world w (set_scheduler (Scheduler.set_condvar i None s) S))
  | None =>
      match asking S !! i with
      | Some j =>
          match Scheduler.wait_for_dependency i j s with
          | (s, Ok Scheduler.DependencyHalted) => w ← halt_read w i; Some (set_world w (set_asking i None (set_scheduler s S)))
          | (s, Ok _) => Some (set_asking i None (set_scheduler s S))
          | _ => None
          end
      | None =>
          match meets_dependency w i with
          | Some j => Some (set_asking i (Some j) S)
          | None => execute S i
          end
      end
  end.

(** ** Commits *)
Definition committed_world (w : world) (c : TxnIndex) (fees : FeeStatement.t) (output' : ExecutionStatus VMOutput Error) : world :=
  set_committing c (Some (delta_keys (last_input_output w) c, []))
    (set_io (set_output c output' (last_input_output w)) (set_commit (c + 1) fees (block_truncated output') w)).

Definition commit (S : system) : option system :=
  let w := world_of S in
  let c := (Scheduler.commit_state (scheduler S)).1 in
  if match halting S with Some (true, _) => true | _ => false end || locked S c || negb (c <? num_txns block) then None
  else
    match Scheduler.try_commit (scheduler S) with
    | (s, None) => Some (set_scheduler s S)
    | (s, Some c) =>
        output ← outputs (last_input_output w) !! c;
        match @commit_status _ _ Empty_set (accumulated_fees w) output with
        | Ok (fees, output') =>
            let S := set_world (committed_world w c fees output') (set_scheduler s S) in
            Some (if (c + 1 =? num_txns block) || block_truncated output' then halt true S else S)
        | _ => None
        end
    end.

Definition halt_step (S : system) : option system :=
  '(coordinator, n) ← halting S;
  if n <? num_txns block then Some (set_halting (Some (coordinator, n + 1)) (set_scheduler (Scheduler.resolve_condvar n (scheduler S)) S))
  else Some (set_halting None S).

(** ** Tasks *)
Definition next_task (S : system) : option system :=
  let s := scheduler S in
  if Scheduler.done_marker s then None
  else if Scheduler.prefer_validate s then
    let '(idx, wave) := Scheduler.validation_idx s in Some (set_tasks (VPicked idx wave :: tasks S) S)
  else if Scheduler.execution_idx s <? num_txns block then Some (set_claims (claims S + 1) S)
  else Some S.

(** [try_execute_next_version], before [try_incarnate]. *)
Definition claim (S : system) : option system :=
  match claims S with
  | O => None
  | S n =>
      let s := scheduler S in
      let idx := Scheduler.execution_idx s in
      Some (set_claims n (set_picks (idx :: picks S) (set_scheduler (Scheduler.set_indices (idx + 1) (Scheduler.validation_idx s) s) S)))
  end.

(** ** The system *)
Inductive move :=
  | NextTask
  | Validate (n : nat)
  | Claim
  | Recheck (n : nat)
  | Incarnate (n : nat)
  | Wake (n : nat)
  | Work (i : TxnIndex)
  | FinishExecution (i : TxnIndex)
  | FinishAbort (i : TxnIndex)
  | Commit
  | CommitHook (i : TxnIndex)
  | HaltStep.

Definition others {A} (n : nat) (l : list A) : list A := take n l ++ drop (S n) l.

Definition make (S : system) (m : move) : option system :=
  match m with
  | NextTask => next_task S
  | Validate n => t ← tasks S !! n; validate S t (others n (tasks S))
  | Claim => claim S
  | Recheck n => i ← rechecks S !! n; recheck S i (others n (rechecks S))
  | Incarnate n => i ← picks S !! n; incarnate S i (others n (picks S))
  | Wake n => i ← wakes S !! n; wake S i (others n (wakes S))
  | Work i => work S i
  | FinishExecution i => finish_execution S i
  | FinishAbort i => finish_abort S i
  | Commit => commit S
  | CommitHook i => w ← hook (world_of S) i; Some (set_world w S)
  | HaltStep => halt_step S
  end.

Fixpoint makes (S : system) (l : list move) : option system :=
  match l with
  | [] => Some S
  | m :: l => S ← make S m; makes S l
  end.

Inductive scheduled : system -> Prop :=
  | scheduled_start : scheduled start_system
  | scheduled_make S m S' : scheduled S -> make S m = Some S' -> scheduled S'.
End scheduled.
