(* ===== verification/SchedulerSafety.v ===== *)
(** * The scheduler keeps its promises

    Under the scheduler, workers make steps of the transition system of
    [BlockExecutor] only: a transaction is executed when no other worker is at it, and
    it is committed when the reads of its last execution are valid.  The argument is
    about waves.  A validation belongs to the wave in which its index was claimed.
    Whenever a transaction has become such that reads above it may not be valid any
    more, [decrease_validation_idx] makes all earlier validations above it [stale]:
    their waves are below one that was triggered at or below the transactions they
    are for.  A transaction with a validation that is not stale has reads that hold,
    whether it was valid or came too late to abort the transaction ([tv]). *)

From S2P Require Import Prelude Collections Aggregator ChangeSet MVHashMap BlockExecutor SequentialState ParallelInvariant ReadStability BlockSTM Schedules Scheduler ScheduledExecution.

Section safety.
Context {bcs : Bcs128} {bcs_laws : Bcs128Laws} {types : ExecutorTypes} {config : ExecutorConfig}.
Context (kind : K -> item) (block : list prog).

(** ** Waves *)
Definition triggered (s : Scheduler.t) (j : TxnIndex) : Scheduler.Wave := Scheduler.max_triggered_wave (Scheduler.validation s j).
Definition validated (s : Scheduler.t) (i : TxnIndex) : option Scheduler.Wave := Scheduler.maybe_max_validated_wave (Scheduler.validation s i).

(** A wave is stale for a transaction when a later one was triggered at or below it. *)
Definition stale (s : Scheduler.t) (i : TxnIndex) (v : Scheduler.Wave) : Prop := exists j, 0 <= j <= i /\ v < triggered s j.

(** The validation index has passed a transaction in a wave. *)
Definition passed (s : Scheduler.t) (i : TxnIndex) (v : Scheduler.Wave) : Prop :=
  0 <= v /\ (v < (Scheduler.validation_idx s).2 \/ v = (Scheduler.validation_idx s).2 /\ i < (Scheduler.validation_idx s).1).

(** A new index is about to be stored: its wave is triggered. *)
Definition swapping (s : Scheduler.t) (target : TxnIndex) (d : decreasing) : Prop :=
  match d with DSwap loaded => loaded.2 + 1 <= triggered s target | _ => True end.

Definition task_wave (t : vtask) : option (TxnIndex * Scheduler.Wave) :=
  match t with
  | VPicked _ _ => None
  | VClaimed i v | VTask i _ v | VCheck i _ v _ | VInvalid i _ v | VFinish i v => Some (i, v)
  end.

Definition version_of (t : vtask) : option Version :=
  match t with
  | VTask i inc _ | VCheck i inc _ _ | VInvalid i inc _ => Some (i, inc)
  | VPicked _ _ | VClaimed _ _ | VFinish _ _ => None
  end.

Definition finishing_ok (s : Scheduler.t) (i : TxnIndex) (st : exec_stage) : Prop :=
  match st with
  | XDecrease v d => passed s i v /\ swapping s (i + 1) d
  | XRequire v => passed s i v
  | _ => True
  end.
Definition abort_ok (s : Scheduler.t) (i : TxnIndex) (st : abort_stage) : Prop :=
  match st with ADecrease d => swapping s (i + 1) d | _ => True end.

(** The wave of the validation index is the first one or was triggered at or below it. *)
Definition index_ok (s : Scheduler.t) : Prop := 0 <= (Scheduler.validation_idx s).1 /\ 0 <= (Scheduler.validation_idx s).2 /\
  ((Scheduler.validation_idx s).2 = 0 \/ exists t, 0 <= t <= (Scheduler.validation_idx s).1 /\ (Scheduler.validation_idx s).2 <= triggered s t).

Record waves (S : system) : Prop := {
  wv_index : index_ok (scheduler S);
  wv_tasks t i v : t ∈ tasks S -> task_wave t = Some (i, v) -> passed (scheduler S) i v;
  wv_validated i v : validated (scheduler S) i = Some v -> passed (scheduler S) i v;
  wv_finishing (i : TxnIndex) x st : finishing S !! i = Some (x, st) -> 0 <= i /\ finishing_ok (scheduler S) i st;
  wv_aborts (i : TxnIndex) x st : aborts S !! i = Some (x, st) -> 0 <= i /\ abort_ok (scheduler S) i st }.

(** ** Statuses and the shared data *)
Definition working (w : world) (i : TxnIndex) (inc : Incarnation) : Prop :=
  (exists p reads, active w !! i = Some (Reading inc p reads)) \/ exists reads r todo, active w !! i = Some (Updating inc reads r todo).

Definition idle_executed (w : world) (i : TxnIndex) : Prop :=
  commit_idx w <= i /\ active w !! i = None /\ i ∉ aborted w /\ is_Some (outputs (last_input_output w) !! i) /\ is_Some (inputs (last_input_output w) !! i).

(** [finish_execution] of this incarnation, after the status was set. *)
Definition late (x : option (Incarnation * bool * exec_stage)) (inc : Incarnation) : Prop :=
  x = None \/ exists suffix st, x = Some (inc, suffix, st) /\ st <> XLock.
(** The end of the abort before this incarnation. *)
Definition earlier (x : option (Incarnation * abort_stage)) (inc : Incarnation) : Prop :=
  x = None \/ exists d, x = Some (inc - 1, ADecrease d).

Definition running (S : system) (i : TxnIndex) (inc : Incarnation) : Prop :=
  earlier (aborts S !! i) inc /\ next_of (world_of S) i = inc + 1 /\
  (finishing S !! i = None /\ working (world_of S) i inc \/
   (exists suffix, finishing S !! i = Some (inc, suffix, XLock)) /\ idle_executed (world_of S) i).

Definition link (S : system) (i : TxnIndex) : Prop :=
  let w := world_of S in
  match Scheduler.status (scheduler S) i with
  | Scheduler.Ready inc Scheduler.Execution => active w !! i = None /\ finishing S !! i = None /\ earlier (aborts S !! i) inc /\
      next_of w i = inc /\ (0 <= i -> commit_idx w <= i) /\ (outputs (last_input_output w) !! i = None \/ i ∈ aborted w)
  | Scheduler.Ready inc Scheduler.Wakeup | Scheduler.Executing inc | Scheduler.Suspended inc => running S i inc
  | Scheduler.Executed inc => aborts S !! i = None /\ late (finishing S !! i) inc /\ next_of w i = inc + 1 /\ idle_executed w i
  | Scheduler.Aborting inc => late (finishing S !! i) inc /\ next_of w i = inc + 1 /\ i ∈ aborted w /\ commit_idx w <= i /\
      (aborts S !! i = Some (inc, AMark) /\ (exists todo, active w !! i = Some (Aborting todo)) \/ aborts S !! i = Some (inc, ALock) /\ active w !! i = None)
  | Scheduler.Committed _ => finishing S !! i = None /\ aborts S !! i = None /\ active w !! i = None /\ 0 <= i < commit_idx w
  | Scheduler.Halted => True
  end.

(** Validations are for incarnations that were executed. *)
Definition executed_before (s : Scheduler.t) (i : TxnIndex) (inc : Incarnation) : Prop :=
  match Scheduler.status s i with
  | Scheduler.Ready n _ | Scheduler.Executing n | Scheduler.Suspended n => inc < n
  | Scheduler.Executed n | Scheduler.Aborting n | Scheduler.Committed n => inc <= n
  | Scheduler.Halted => True
  end.

(** ** Reads that hold *)

(** A transaction after which those above it will be validated again. *)
Definition pending (S : system) (j : TxnIndex) : Prop :=
  unsettled (world_of S) j \/ is_Some (aborts S !! j) \/
  exists inc st, finishing S !! j = Some (inc, true, st) /\ match st with XRequire _ => False | _ => True end.

Definition holds (S : system) (i : TxnIndex) (r : ReadDescriptor) : Prop :=
  valid (data (world_of S)) i r \/ exists j, 0 <= j < i /\ pending S j.

(** The reads of the last execution that was not aborted. *)
Definition live_reads (w : world) (i : TxnIndex) : list ReadDescriptor :=
  match active w !! i with
  | Some (Reading _ _ reads) | Some (Updating _ reads _ _) => reads
  | Some (Aborting _) => []
  | None => if bool_decide (i ∈ aborted w) then [] else default [] (inputs (last_input_output w) !! i)
  end.
Definition good (S : system) (i : TxnIndex) : Prop := forall r, r ∈ live_reads (world_of S) i -> holds S i r.

Definition task_ok (S : system) (t : vtask) : Prop :=
  match t with
  | VPicked _ _ | VClaimed _ _ => True
  | VTask i inc _ | VInvalid i inc _ => Scheduler.status (scheduler S) i <> Scheduler.Executed inc -> good S i
  | VCheck i inc _ todo =>
      (Scheduler.status (scheduler S) i <> Scheduler.Executed inc -> good S i) /\
      (Scheduler.status (scheduler S) i = Scheduler.Executed inc ->
        exists checked, inputs (last_input_output (world_of S)) !! i = Some (checked ++ todo) /\ forall r, r ∈ checked -> holds S i r)
  | VFinish i _ => good S i
  end.

(** What validations that are not stale say. *)
Definition tv (S : system) (i : TxnIndex) : Prop :=
  (forall v, validated (scheduler S) i = Some v -> ~ stale (scheduler S) i v -> good S i) /\
  forall t v, t ∈ tasks S -> task_wave t = Some (i, v) -> ~ stale (scheduler S) i v -> task_ok S t.

(** ** The whole system *)
Record sinv (S : system) : Prop := {
  si_reach : reachable block (world_of S);
  si_est : est kind (world_of S);
  si_num : Scheduler.num_txns (scheduler S) = num_txns block;
  si_link i : link S i;
  si_bound t i inc : t ∈ tasks S -> version_of t = Some (i, inc) -> executed_before (scheduler S) i inc;
  si_waves : waves S;
  si_commit : (Scheduler.commit_state (scheduler S)).1 = commit_idx (world_of S);
  si_commit_wave : Scheduler.done_marker (scheduler S) = false ->
    forall j : TxnIndex, 0 <= j < commit_idx (world_of S) -> triggered (scheduler S) j <= (Scheduler.commit_state (scheduler S)).2;
  si_tv : Scheduler.done_marker (scheduler S) = false -> forall i, i < num_txns block -> tv S i;
  si_halted : (exists i : TxnIndex, Scheduler.status (scheduler S) i = Scheduler.Halted \/ Scheduler.condvars (scheduler S) !! i = Some Scheduler.ExecutionHalted) ->
    halted (world_of S) = true;
  si_going : Scheduler.done_marker (scheduler S) = false -> halted (world_of S) = false;
  si_halting called n : halting S = Some (called, n) ->
    called = true /\ halted (world_of S) = true /\ Scheduler.done_marker (scheduler S) = true;
  si_done : Scheduler.done_marker (scheduler S) = true -> commit_idx (world_of S) = num_txns block \/
    halted (world_of S) = true /\ ((exists n, halting S = Some (true, n) /\ forall i, 0 <= i < n -> Scheduler.status (scheduler S) i = Scheduler.Halted) \/
      halting S = None /\ forall i, 0 <= i < num_txns block -> Scheduler.status (scheduler S) i = Scheduler.Halted) }.

(** ** Setters *)
Lemma status_set s (i : TxnIndex) x (j : TxnIndex) :
  Scheduler.status (Scheduler.set_status i x s) j = if bool_decide (j = i) then x else Scheduler.status s j.
Proof using Type.
  unfold Scheduler.status. simpl. case_bool_decide as E; [subst; by rewrite lookup_insert_eq|by rewrite lookup_insert_ne].
Qed.

Lemma validation_set s (i : TxnIndex) x (j : TxnIndex) :
  Scheduler.validation (Scheduler.set_validation i x s) j = if bool_decide (j = i) then x else Scheduler.validation s j.
Proof using Type.
  unfold Scheduler.validation. simpl. case_bool_decide as E; [subst; by rewrite lookup_insert_eq|by rewrite lookup_insert_ne].
Qed.

Lemma partial_set {A} (m : gmap TxnIndex A) (i : TxnIndex) x (j : TxnIndex) :
  partial_alter (fun _ => x) i m !! j = if bool_decide (j = i) then x else m !! j.
Proof using Type. case_bool_decide as E; [subst; by rewrite lookup_partial_alter_eq|by rewrite lookup_partial_alter_ne]. Qed.

Lemma others_in {A} (n : nat) (l : list A) x : x ∈ others n l -> x ∈ l.
Proof using Type. unfold others. intros [Hx|Hx]%elem_of_app; [by eapply subseteq_take|by eapply subseteq_drop]. Qed.

(** ** Frames *)

(** A transaction that a step of the shared data does not touch. *)
Record untouched (w w' : world) (i : TxnIndex) : Prop := {
  un_active : active w' !! i = active w !! i;
  un_outputs : outputs (last_input_output w') !! i = outputs (last_input_output w) !! i;
  un_inputs : inputs (last_input_output w') !! i = inputs (last_input_output w) !! i;
  un_aborted : i ∈ aborted w' <-> i ∈ aborted w;
  un_next : next_of w' i = next_of w i }.

Lemma untouched_refl w i : untouched w w i.
Proof using Type. by split. Qed.

Lemma untouched_reads w w' i : untouched w w' i -> live_reads w' i = live_reads w i.
Proof using Type.
  intros [E1 _ E3 E4 _]. unfold live_reads. rewrite E1, E3. destruct (active w !! i) as [[]|]; try done. by rewrite (bool_decide_ext _ _ E4).
Qed.

Lemma untouched_unsettled w w' i : untouched w w' i -> unsettled w i -> unsettled w' i.
Proof using Type. intros [E1 E2 _ _ _]. unfold unsettled, outside, modified_keys. by rewrite E1, E2. Qed.

Lemma link_frame S S' (i : TxnIndex) : untouched (world_of S) (world_of S') i ->
  (commit_idx (world_of S) <= i -> commit_idx (world_of S') <= i) -> commit_idx (world_of S) <= commit_idx (world_of S') ->
  Scheduler.status (scheduler S') i = Scheduler.status (scheduler S) i ->
  finishing S' !! i = finishing S !! i -> aborts S' !! i = aborts S !! i -> link S i -> link S' i.
Proof using Type.
  intros [Ea Eo Ei Eab En] Hc1 Hc2 Es Ef Eb. unfold link. rewrite Es, Ef, Eb.
  assert (forall inc, running S i inc -> running S' i inc) as Hrun.
  { intros inc. unfold running, working, idle_executed. rewrite Ef, Eb, En, Ea, Eo, Ei. naive_solver. }
  destruct (Scheduler.status (scheduler S) i) as [inc []|inc|inc|inc|inc|inc|]; auto; unfold idle_executed; rewrite ?En, ?Ea, ?Eo, ?Ei, ?Eab; naive_solver lia.
Qed.

Lemma pending_frame S S' (j : TxnIndex) : untouched (world_of S) (world_of S') j -> finishing S' !! j = finishing S !! j -> aborts S' !! j = aborts S !! j ->
  pending S j -> pending S' j.
Proof using Type. intros Hu Ef Ea. unfold pending. rewrite Ef, Ea. intros [H|H]; [left; by eapply untouched_unsettled|by right]. Qed.

Record advances (s s' : Scheduler.t) : Prop := {
  adv_triggered j : triggered s j <= triggered s' j;
  adv_passed i v : passed s i v -> passed s' i v }.

Lemma wave_advances_refl s : advances s s.
Proof using Type. split; [done|auto]. Qed.

Lemma advances_index s s' : Scheduler.validation_idx s' = Scheduler.validation_idx s -> (forall j, triggered s j <= triggered s' j) -> advances s s'.
Proof using Type. intros E Ht. split; [done|]. intros i v. unfold passed. by rewrite E. Qed.

Lemma advances_stale s s' i v : advances s s' -> stale s i v -> stale s' i v.
Proof using Type. intros Ha (j & Hj & Hv). exists j. split; [done|]. pose proof (adv_triggered _ _ Ha j). lia. Qed.

Lemma advances_swapping s s' i d : advances s s' -> swapping s i d -> swapping s' i d.
Proof using Type. intros Ha. destruct d as [|l|l]; [done|done|]. simpl. pose proof (adv_triggered _ _ Ha i). lia. Qed.

Lemma advances_index_ok s s' : Scheduler.validation_idx s' = Scheduler.validation_idx s -> (forall j, triggered s j <= triggered s' j) ->
  index_ok s -> index_ok s'.
Proof using Type.
  intros E Ht. unfold index_ok. rewrite E. intros (? & ? & [?|(t & ? & ?)]); split_and!; [done|done|by left|done|done|]. right. exists t. specialize (Ht t). lia.
Qed.

Lemma waves_step S S' : waves S -> advances (scheduler S) (scheduler S') -> index_ok (scheduler S') ->
  (forall t i v, t ∈ tasks S' -> task_wave t = Some (i, v) -> t ∈ tasks S \/ passed (scheduler S') i v) ->
  (forall i v, validated (scheduler S') i = Some v -> validated (scheduler S) i = Some v \/ passed (scheduler S') i v) ->
  (forall i : TxnIndex, finishing S' !! i = finishing S !! i \/ forall x st, finishing S' !! i = Some (x, st) -> 0 <= i /\ finishing_ok (scheduler S') i st) ->
  (forall i : TxnIndex, aborts S' !! i = aborts S !! i \/ forall x st, aborts S' !! i = Some (x, st) -> 0 <= i /\ abort_ok (scheduler S') i st) -> waves S'.
Proof using Type.
  intros [H1 H2 H3 H4 H5] Ha Hi Ht Hv Hf Hb. split; [done| | | |].
  - intros t i v Hin Hw. destruct (Ht t i v Hin Hw) as [?|?]; [|done]. eapply adv_passed; eauto.
  - intros i v Hw. destruct (Hv i v Hw) as [?|?]; [|done]. eapply adv_passed; eauto.
  - intros i x st Hw. destruct (Hf i) as [E|?]; [|eauto]. rewrite E in Hw. destruct (H4 _ _ _ Hw) as [? Hok]. split; [done|].
    destruct st; try done; simpl in Hok |- *; [|by eapply adv_passed]. destruct Hok. split; [by eapply adv_passed|by eapply advances_swapping].
  - intros i x st Hw. destruct (Hb i) as [E|?]; [|eauto]. rewrite E in Hw. destruct (H5 _ _ _ Hw) as [? Hok]. split; [done|].
    destruct st; try done. by eapply advances_swapping.
Qed.

(** ** Validations that are kept *)
Lemma holds_same S S' i r : data (world_of S') = data (world_of S) -> (forall j : TxnIndex, 0 <= j < i -> pending S j -> pending S' j) -> holds S i r -> holds S' i r.
Proof using Type. intros Ed Hp [H|(j & Hj & H)]; [left; by rewrite Ed|right; exists j; split; [done|by apply Hp]]. Qed.

Lemma good_keep S S' i : live_reads (world_of S') i = live_reads (world_of S) i -> (forall r, holds S i r -> holds S' i r) -> good S i -> good S' i.
Proof using Type. unfold good. intros ->. auto. Qed.

Lemma tv_keep S S' (i : TxnIndex) : tv S i -> advances (scheduler S) (scheduler S') -> (good S i -> good S' i) ->
  (forall t inc, t ∈ tasks S -> version_of t = Some (i, inc) ->
    (Scheduler.status (scheduler S') i = Scheduler.Executed inc -> Scheduler.status (scheduler S) i = Scheduler.Executed inc /\
      inputs (last_input_output (world_of S')) !! i = inputs (last_input_output (world_of S)) !! i /\ forall r, holds S i r -> holds S' i r) /\
    (Scheduler.status (scheduler S') i <> Scheduler.Executed inc -> Scheduler.status (scheduler S) i <> Scheduler.Executed inc \/ good S' i)) ->
  (forall v, validated (scheduler S') i = Some v -> validated (scheduler S) i = Some v \/ (~ stale (scheduler S') i v -> good S' i)) ->
  (forall t v, t ∈ tasks S' -> task_wave t = Some (i, v) -> t ∈ tasks S \/ (~ stale (scheduler S') i v -> task_ok S' t)) -> tv S' i.
Proof using Type.
  intros [H1 H2] Ha Hg Hst Hv Ht. split.
  - intros v Hval Hns. destruct (Hv v Hval) as [Hval'|?]; [|auto]. apply Hg, (H1 v Hval'). intros Hs. by apply Hns, (advances_stale (scheduler S)).
  - intros t v Hin Hw Hns. destruct (Ht t v Hin Hw) as [Hin'|?]; [|auto].
    assert (~ stale (scheduler S) i v) as Hns' by (intros Hs; by apply Hns, (advances_stale (scheduler S))).
    specialize (H2 t v Hin' Hw Hns'). specialize (Hst t).
    destruct t as [|idx|idx inc|idx inc v' todo|idx inc|idx]; try done; simpl in Hw; injection Hw as -> ->; simpl in H2 |- *;
      try (destruct (Hst _ Hin' eq_refl) as [Hst1 Hst2]); try (intros E; destruct (Hst2 E); auto); [|auto].
    destruct H2 as [H2 H3]. split; [intros E; destruct (Hst2 E); auto|].
    intros E. destruct (Hst1 E) as (E' & Ei & Hh). rewrite Ei. destruct (H3 E') as (checked & ? & ?). exists checked. auto.
Qed.

Lemma tv_good S i : good S i -> (forall inc, Scheduler.status (scheduler S) i <> Scheduler.Executed inc) -> tv S i.
Proof using Type.
  intros Hg Hn. split; [done|]. intros t v Hin Hw _. destruct t as [|idx|idx inc|idx inc v' todo|idx inc|idx]; try done; simpl in Hw; injection Hw as -> ->; simpl; try done.
  split; [done|]. intros E. by apply Hn in E.
Qed.

(** All validations of a transaction are stale. *)
Lemma tv_stale S i : (forall v, passed (scheduler S) i v -> stale (scheduler S) i v) -> waves S -> tv S i.
Proof using Type.
  intros Hs Hw. split.
  - intros v Hv Hns. destruct Hns. apply Hs. by eapply wv_validated.
  - intros t v Hin Ht Hns. destruct Hns. apply Hs. by eapply wv_tasks.
Qed.

(** ** Steps that leave the shared data *)
Lemma sinv_calm S S' : sinv S -> world_of S' = world_of S ->
  Scheduler.num_txns (scheduler S') = Scheduler.num_txns (scheduler S) ->
  (Scheduler.commit_state (scheduler S')).1 = (Scheduler.commit_state (scheduler S)).1 ->
  Scheduler.done_marker (scheduler S') = Scheduler.done_marker (scheduler S) -> halting S' = halting S ->
  (forall i : TxnIndex, Scheduler.condvars (scheduler S') !! i = Some Scheduler.ExecutionHalted -> Scheduler.condvars (scheduler S) !! i = Some Scheduler.ExecutionHalted) ->
  (forall i, Scheduler.status (scheduler S') i = Scheduler.Halted <-> Scheduler.status (scheduler S) i = Scheduler.Halted) ->
  (forall i, link S' i) ->
  (forall t i inc, t ∈ tasks S' -> version_of t = Some (i, inc) -> executed_before (scheduler S') i inc) ->
  waves S' ->
  (Scheduler.done_marker (scheduler S) = false -> forall j : TxnIndex, 0 <= j < commit_idx (world_of S) ->
    triggered (scheduler S) j <= (Scheduler.commit_state (scheduler S)).2 -> triggered (scheduler S') j <= (Scheduler.commit_state (scheduler S')).2) ->
  (Scheduler.done_marker (scheduler S) = false -> forall i, i < num_txns block -> tv S i -> tv S' i) -> sinv S'.
Proof using Type.
  intros Hs Ew En Ec Ed Eh Hcv Hst Hl Hb Hwv Hcw Htv. destruct Hs. split; rewrite ?Ew, ?En, ?Ec, ?Ed, ?Eh; auto.
  - intros (i & [?%Hst|?%Hcv]); apply si_halted0; exists i; auto.
  - intros E. destruct (si_done0 E) as [?|(? & [(n & ? & ?)|[? ?]])]; [by left| |]; right; split; try done; [left; exists n|right]; split; try done; intros;
      apply Hst; auto.
Qed.

(** Nothing that a status depends on has changed. *)
Lemma link_calm S S' (i : TxnIndex) : world_of S' = world_of S -> Scheduler.status (scheduler S') i = Scheduler.status (scheduler S) i ->
  finishing S' !! i = finishing S !! i -> aborts S' !! i = aborts S !! i -> link S i -> link S' i.
Proof using Type. intros Ew. apply link_frame; rewrite Ew; [apply untouched_refl|done|done]. Qed.

Lemma pending_calm S S' (j : TxnIndex) : world_of S' = world_of S -> finishing S' !! j = finishing S !! j -> aborts S' !! j = aborts S !! j -> pending S j -> pending S' j.
Proof using Type. intros Ew. apply pending_frame. rewrite Ew. apply untouched_refl. Qed.

Lemma tv_calm S S' (i : TxnIndex) : world_of S' = world_of S -> advances (scheduler S) (scheduler S') ->
  (forall j : TxnIndex, 0 <= j < i -> pending S j -> pending S' j) ->
  (forall t inc, t ∈ tasks S -> version_of t = Some (i, inc) ->
    Scheduler.status (scheduler S') i = Scheduler.Executed inc <-> Scheduler.status (scheduler S) i = Scheduler.Executed inc) ->
  (forall v, validated (scheduler S') i = Some v -> validated (scheduler S) i = Some v \/ (~ stale (scheduler S') i v -> good S' i)) ->
  (forall t v, t ∈ tasks S' -> task_wave t = Some (i, v) -> t ∈ tasks S \/ (~ stale (scheduler S') i v -> task_ok S' t)) -> tv S i -> tv S' i.
Proof using Type.
  intros Ew Ha Hp Hst Hv Ht H. assert (forall r, holds S i r -> holds S' i r) as Hh by (intros r; apply holds_same; [by rewrite Ew|done]).
  apply (tv_keep S); try done.
  - apply good_keep; [by rewrite Ew|done].
  - intros t inc Hin Hver. specialize (Hst t inc Hin Hver). rewrite Ew. naive_solver.
Qed.

(** Nor have validations. *)
Lemma sinv_quiet S S' : sinv S -> world_of S' = world_of S ->
  Scheduler.num_txns (scheduler S') = Scheduler.num_txns (scheduler S) ->
  Scheduler.commit_state (scheduler S') = Scheduler.commit_state (scheduler S) ->
  Scheduler.done_marker (scheduler S') = Scheduler.done_marker (scheduler S) -> halting S' = halting S ->
  (forall i : TxnIndex, Scheduler.condvars (scheduler S') !! i = Some Scheduler.ExecutionHalted -> Scheduler.condvars (scheduler S) !! i = Some Scheduler.ExecutionHalted) ->
  Scheduler.validation_idx (scheduler S') = Scheduler.validation_idx (scheduler S) ->
  (forall i, triggered (scheduler S') i = triggered (scheduler S) i /\ validated (scheduler S') i = validated (scheduler S) i) ->
  (forall t, t ∈ tasks S' -> t ∈ tasks S \/ task_wave t = None) ->
  (forall i : TxnIndex, aborts S' !! i = aborts S !! i) ->
  (forall (i : TxnIndex) x st, finishing S' !! i = Some (x, st) -> finishing_ok (scheduler S') i st /\ (finishing S !! i = finishing S' !! i \/ 0 <= i)) ->
  (forall i, Scheduler.status (scheduler S') i = Scheduler.Halted <-> Scheduler.status (scheduler S) i = Scheduler.Halted) ->
  (forall i inc, Scheduler.status (scheduler S') i = Scheduler.Executed inc <-> Scheduler.status (scheduler S) i = Scheduler.Executed inc) ->
  (forall i inc, executed_before (scheduler S) i inc -> executed_before (scheduler S') i inc) ->
  (forall i, link S' i) -> (forall j : TxnIndex, 0 <= j -> pending S j -> pending S' j) -> sinv S'.
Proof using Type.
  intros Hs Ew En Ec Ed Eh Hcv Ei Htr Ht Hab Hf Hh Hex Hb Hl Hp.
  assert (advances (scheduler S) (scheduler S')) as Ha by (apply advances_index; [done|]; intros j; destruct (Htr j); lia).
  apply (sinv_calm S); try done; try (by rewrite Ec).
  - intros t i inc Hin Hver. destruct (Ht t Hin) as [?|E]; [|by destruct t]. apply Hb. by eapply si_bound.
  - apply (waves_step S); try done.
    + apply si_waves, Hs.
    + eapply advances_index_ok; [done| |apply wv_index, si_waves, Hs]. intros j. destruct (Htr j). lia.
    + intros t i v Hin Hw. destruct (Ht t Hin) as [?|E]; [by left|congruence].
    + intros i v. rewrite (proj2 (Htr i)). by left.
    + intros i. right. intros x st E. destruct (Hf _ _ _ E) as [Hok [E'|?]]; [|done]. split; [|done]. rewrite E in E'.
      by eapply (wv_finishing _ (si_waves _ Hs)).
    + intros i. by left.
  - intros _ j Hj. rewrite (proj1 (Htr j)), Ec. done.
  - intros _ i Hi. apply tv_calm; try done; [naive_solver| |].
    + intros v. rewrite (proj2 (Htr i)). by left.
    + intros t v Hin Hw. destruct (Ht t Hin) as [?|E]; [by left|congruence].
Qed.

(** When jobs and statuses are the same too. *)
Lemma sinv_aside S S' : sinv S -> world_of S' = world_of S ->
  Scheduler.num_txns (scheduler S') = Scheduler.num_txns (scheduler S) ->
  Scheduler.commit_state (scheduler S') = Scheduler.commit_state (scheduler S) ->
  Scheduler.done_marker (scheduler S') = Scheduler.done_marker (scheduler S) -> halting S' = halting S ->
  (forall i : TxnIndex, Scheduler.condvars (scheduler S') !! i = Some Scheduler.ExecutionHalted -> Scheduler.condvars (scheduler S) !! i = Some Scheduler.ExecutionHalted) ->
  Scheduler.validation_idx (scheduler S') = Scheduler.validation_idx (scheduler S) ->
  Scheduler.validation_status (scheduler S') = Scheduler.validation_status (scheduler S) ->
  Scheduler.execution_status (scheduler S') = Scheduler.execution_status (scheduler S) ->
  (forall t, t ∈ tasks S' -> t ∈ tasks S \/ task_wave t = None) -> finishing S' = finishing S -> aborts S' = aborts S -> sinv S'.
Proof using Type.
  intros Hs Ew En Ec Ed Eh Hcv Ei Ev Ex Ht Ef Ea.
  assert (forall i, Scheduler.status (scheduler S') i = Scheduler.status (scheduler S) i) as Est by (intros i; unfold Scheduler.status; by rewrite Ex).
  assert (forall i, Scheduler.validation (scheduler S') i = Scheduler.validation (scheduler S) i) as Eval by (intros i; unfold Scheduler.validation; by rewrite Ev).
  apply (sinv_quiet S); try done.
  - intros i. unfold triggered, validated. by rewrite Eval.
  - intros i. by rewrite Ea.
  - intros i x st E. rewrite Ef in E |- *. split; [|by left]. pose proof (wv_finishing _ (si_waves _ Hs) _ _ _ E) as [_ Hok].
    destruct st; try done; simpl in Hok |- *; unfold passed, swapping, triggered in *; by rewrite ?Ei, ?Eval.
  - intros i. by rewrite Est.
  - intros i inc. by rewrite Est.
  - intros i inc. unfold executed_before. by rewrite Est.
  - intros i. apply (link_calm S); [done|done|by rewrite Ef|by rewrite Ea|apply si_link, Hs].
  - intros j _. apply pending_calm; [done|by rewrite Ef|by rewrite Ea].
Qed.

Lemma next_task_sinv S S' : sinv S -> next_task block S = Some S' -> sinv S'.
Proof using Type.
  intros Hs. unfold next_task. destruct (Scheduler.done_marker (scheduler S)) eqn:Ed; [done|]. destruct (Scheduler.prefer_validate (scheduler S)).
  - destruct (Scheduler.validation_idx (scheduler S)) as [idx wave] eqn:Ei. intros [= <-]. apply (sinv_aside S); try done.
    intros t [->|?]%elem_of_cons; [by right|by left].
  - destruct (_ <? _); intros [= <-]; [|done]. apply (sinv_aside S); simpl; auto.
Qed.

Lemma claim_index_sinv S S' : sinv S -> claim S = Some S' -> sinv S'.
Proof using Type. intros Hs. unfold claim. destruct (claims S); [done|]. intros [= <-]. apply (sinv_aside S); simpl; auto. Qed.

Lemma recheck_sinv S i l S' : sinv S -> recheck S i l = Some S' -> sinv S'.
Proof using Type. intros Hs. unfold recheck. intros [= <-]. destruct (_ <? _); apply (sinv_aside S); simpl; auto. Qed.

Lemma wake_sinv S i l S' : sinv S -> wake S i l = Some S' -> sinv S'.
Proof using Type.
  intros Hs. unfold wake. intros [= <-]. destruct (Scheduler.condvars (scheduler S) !! i) eqn:E; apply (sinv_aside S); simpl; auto.
  intros j. rewrite partial_set. by case_bool_decide.
Qed.

(** Waiting is no change of who is at a transaction. *)
Lemma status_move_sinv S s i x y : sinv S -> s = Scheduler.set_status i y (scheduler S) -> Scheduler.status (scheduler S) i = x ->
  (exists inc, (x = Scheduler.Executing inc /\ y = Scheduler.Suspended inc) \/ (x = Scheduler.Suspended inc /\ y = Scheduler.Ready inc Scheduler.Wakeup) \/
    (x = Scheduler.Ready inc Scheduler.Wakeup /\ y = Scheduler.Executing inc)) -> sinv (set_scheduler s S).
Proof using Type.
  intros Hs -> Ex (inc & Hxy).
  assert (forall j, Scheduler.status (Scheduler.set_status i y (scheduler S)) j = Scheduler.status (scheduler S) j \/
    j = i /\ Scheduler.status (Scheduler.set_status i y (scheduler S)) j = y) as Hst by (intros j; rewrite status_set; case_bool_decide; auto).
  assert (forall P : Scheduler.ExecutionStatus -> Prop, (P x <-> P y) -> forall j,
    P (Scheduler.status (Scheduler.set_status i y (scheduler S)) j) <-> P (Scheduler.status (scheduler S) j)) as Hall.
  { intros P HP j. destruct (Hst j) as [->|[-> ->]]; [done|]. by rewrite Ex. }
  apply (sinv_quiet S); try done; simpl; auto.
  - intros j z st E. split; [|by left]. by eapply (wv_finishing _ (si_waves _ Hs)).
  - apply (Hall (fun z => z = Scheduler.Halted)). destruct Hxy as [[-> ->]|[[-> ->]|[-> ->]]]; done.
  - intros j inc'. apply (Hall (fun z => z = Scheduler.Executed inc')). destruct Hxy as [[-> ->]|[[-> ->]|[-> ->]]]; done.
  - intros j inc'. unfold executed_before. simpl. destruct (Hst j) as [->|[-> ->]]; [done|]. rewrite Ex. destruct Hxy as [[-> ->]|[[-> ->]|[-> ->]]]; done.
  - intros j. pose proof (si_link _ Hs j) as Hl. destruct (Hst j) as [E|[-> E]]; [by apply (link_calm S)|]. unfold link in *. simpl. rewrite E. rewrite Ex in Hl.
    destruct Hxy as [[-> ->]|[[-> ->]|[-> ->]]]; exact Hl.
Qed.

(** ** Steps of the shared data *)
Context (module_kind : forall k, is_module_path k = true <-> kind k = Code).
Context (counters_in_storage : counters_stored kind).
Context (block_ok : forall p r, p ∈ block -> returns p r -> result_ok kind r).

Lemma sinv_inv S : sinv S -> fell_back (world_of S) = false -> inv kind block (world_of S).
Proof. intros Hs Hf. apply reachable_inv; try done. apply Hs. Qed.

Lemma sinv_step S w' : sinv S -> step block (world_of S) w' -> fell_back w' = false ->
  inv kind block (world_of S) /\ reachable block w' /\ est kind w'.
Proof.
  intros Hs Hst Hf. assert (fell_back (world_of S) = false) as Hf0.
  { destruct (fell_back (world_of S)) eqn:E; [|done]. by rewrite (step_fell_back _ _ _ Hst E) in Hf. }
  pose proof (sinv_inv _ Hs Hf0) as Hw. split_and!; [done| |].
  - eapply reachable_step; [apply Hs|done].
  - eapply est_step; try done. apply Hs.
Qed.

(** Only a transaction below the reader can make a read invalid. *)
Lemma holds_step S S' (i : TxnIndex) r : sinv S -> step block (world_of S) (world_of S') -> fell_back (world_of S') = false ->
  (forall j : TxnIndex, 0 <= j < i -> pending S j -> pending S' j) -> holds S i r -> holds S' i r.
Proof.
  intros Hs Hst Hf Hp [Hv|(j & Hj & H)]; [|right; exists j; auto]. destruct (sinv_step _ _ Hs Hst Hf) as (Hw & _ & _).
  destruct (valid_stays kind block _ _ i r Hw (si_est _ Hs) Hst Hv) as [?|(j & Hj & Hu)]; [by left|].
  right. exists j. split; [done|]. apply Hp; [done|]. by left.
Qed.

(** A step of one transaction. *)
Lemma sinv_touch S S' (k : TxnIndex) : let s := scheduler S in let s' := scheduler S' in let w := world_of S in let w' := world_of S' in
  sinv S -> step block w w' -> fell_back w' = false -> commit_idx w' = commit_idx w -> halted w' = halted w ->
  (forall i : TxnIndex, i <> k -> untouched w w' i /\ Scheduler.status s' i = Scheduler.status s i /\ finishing S' !! i = finishing S !! i /\ aborts S' !! i = aborts S !! i) ->
  Scheduler.num_txns s' = Scheduler.num_txns s -> Scheduler.commit_state s' = Scheduler.commit_state s ->
  Scheduler.done_marker s' = Scheduler.done_marker s -> halting S' = halting S ->
  (forall i : TxnIndex, Scheduler.condvars s' !! i = Some Scheduler.ExecutionHalted -> Scheduler.condvars s !! i = Some Scheduler.ExecutionHalted) ->
  Scheduler.validation_idx s' = Scheduler.validation_idx s -> Scheduler.validation_status s' = Scheduler.validation_status s ->
  (forall t, t ∈ tasks S' -> t ∈ tasks S) ->
  (Scheduler.status s' k = Scheduler.Halted <-> Scheduler.status s k = Scheduler.Halted) ->
  (forall inc, executed_before s k inc -> executed_before s' k inc) -> link S' k ->
  (finishing S' !! k = finishing S !! k \/ forall x st, finishing S' !! k = Some (x, st) -> 0 <= k /\ finishing_ok s' k st) ->
  (aborts S' !! k = aborts S !! k \/ forall x st, aborts S' !! k = Some (x, st) -> 0 <= k /\ abort_ok s' k st) ->
  (Scheduler.done_marker s = false -> pending S k -> pending S' k) ->
  (Scheduler.done_marker s = false -> k < num_txns block -> (forall r, holds S k r -> holds S' k r) -> tv S k -> tv S' k) -> sinv S'.
Proof.
  intros s s' w w' Hs Hst Hf Ec Eh Hoth En Ecs Ed Ehl Hcv Ei Ev Ht Hkh Hkb Hkl Hkf Hka Hkp Hktv.
  destruct (sinv_step _ _ Hs Hst Hf) as (Hw & Hr & He).
  assert (forall i, Scheduler.validation s' i = Scheduler.validation s i) as Eval by (intros i; unfold Scheduler.validation; by rewrite Ev).
  assert (forall i, triggered s' i = triggered s i /\ validated s' i = validated s i) as Htr by (intros i; unfold triggered, validated; by rewrite Eval).
  assert (advances s s') as Ha by (apply advances_index; [done|]; intros j; destruct (Htr j); lia).
  assert (Scheduler.done_marker s = false -> forall j, pending S j -> pending S' j) as Hp.
  { intros Hd j. destruct (decide (j = k)) as [->|Hne]; [auto|]. destruct (Hoth j Hne) as (Hu & _ & E1 & E2). by apply pending_frame. }
  assert (Scheduler.done_marker s = false -> forall i r, holds S i r -> holds S' i r) as Hh by (intros Hd i r; apply holds_step; auto).
  assert (forall i, Scheduler.status s' i = Scheduler.Halted <-> Scheduler.status s i = Scheduler.Halted) as Hhs.
  { intros i. destruct (decide (i = k)) as [->|Hne]; [done|]. destruct (Hoth i Hne) as (_ & E & _). by rewrite E. }
  split; fold s' w'; rewrite ?Ec, ?Eh, ?En, ?Ecs, ?Ed, ?Ehl; try done; try (by apply Hs).
  - intros i. destruct (decide (i = k)) as [->|Hne]; [done|]. destruct (Hoth i Hne) as (Hu & E & E1 & E2).
    apply (link_frame S); try done; [by fold w w'; rewrite Ec..|apply Hs].
  - intros t i inc Hin Hver. pose proof (si_bound _ Hs t i inc (Ht t Hin) Hver) as Hb. destruct (decide (i = k)) as [->|Hne]; [by apply Hkb|].
    destruct (Hoth i Hne) as (_ & E & _). unfold executed_before in *. by rewrite E.
  - apply (waves_step S); try done; [apply Hs| | | | |].
    + eapply advances_index_ok; [done| |apply wv_index, si_waves, Hs]. intros j. destruct (Htr j). fold s s'. lia.
    + intros t i v Hin _. left. auto.
    + intros i v. fold s s'. rewrite (proj2 (Htr i)). by left.
    + intros i. destruct (decide (i = k)) as [->|Hne]; [done|]. destruct (Hoth i Hne) as (_ & _ & E1 & E2). by left.
    + intros i. destruct (decide (i = k)) as [->|Hne]; [done|]. destruct (Hoth i Hne) as (_ & _ & E1 & E2). by left.
  - intros E j Hj. rewrite (proj1 (Htr j)). by apply Hs.
  - intros E i Hi. pose proof (si_tv _ Hs E i Hi) as Htv. destruct (decide (i = k)) as [->|Hne]; [apply Hktv; auto|].
    destruct (Hoth i Hne) as (Hu & Es & _). specialize (Hh E). apply (tv_keep S); try done.
    + apply good_keep; [by apply untouched_reads|auto].
    + intros t inc _ _. fold s s' w w'. rewrite Es, (un_inputs _ _ _ Hu). naive_solver.
    + intros v. fold s s'. rewrite (proj2 (Htr i)). by left.
    + intros t v Hin _. left. auto.
  - intros (i & [?%Hhs|?%Hcv]); apply (si_halted _ Hs); exists i; auto.
  - intros E. destruct (si_done _ Hs E) as [?|(? & [(n & ? & ?)|[? ?]])]; [by left| |]; right; split; try done; [left; exists n|right]; split; try done; intros;
      apply Hhs; auto.
Qed.

Lemma set_active_untouched w (k : TxnIndex) a w1 : w1 = set_active k a w -> forall i, i <> k -> untouched w w1 i.
Proof using Type. intros -> i Hi. split; try done. by rewrite active_set_ne. Qed.

Lemma pending_jobs S S' (j : TxnIndex) : ~ unsettled (world_of S) j -> finishing S' !! j = finishing S !! j -> aborts S' !! j = aborts S !! j ->
  pending S j -> pending S' j.
Proof using Type. intros Hn Ef Ea. unfold pending. rewrite Ef, Ea. intros [?|H]; [done|by right]. Qed.

Lemma incarnate_sinv S (i : TxnIndex) l S' : sinv S -> incarnate block S i l = Some S' -> fell_back (world_of S') = false -> sinv S'.
Proof.
  intros Hs. unfold incarnate, Scheduler.try_incarnate. rewrite (si_num _ Hs). destruct (_ || _) eqn:Ern; [intros [= <-] _; apply (sinv_aside S); simpl; auto|].
  apply orb_false_iff in Ern as [Hi0%Z.ltb_ge Hin%Z.leb_gt]. pose proof (si_link _ Hs i) as Hl. unfold link in Hl.
  destruct (Scheduler.status (scheduler S) i) as [inc []| | | | | |] eqn:Est; try solve [intros [= <-] _; apply (sinv_aside S); simpl; auto].
  - destruct (txn block i) as [p|] eqn:Ep; simpl; [|done]. intros [= <-] Hf. destruct Hl as (Ha & Hfi & Hea & Hn & Hc & Ho).
    assert (forall j, untouched (world_of S) (started_world (world_of S) i inc p) j \/ j = i) as Hun.
    { intros j. destruct (decide (j = i)) as [->|]; [by right|left]. split; try done; [unfold started_world; by rewrite active_set_ne|].
      unfold next_of. simpl. by rewrite lookup_insert_ne. }
    apply (sinv_touch S _ i); try done; simpl.
    + unfold started_world. rewrite <-Hn. apply step_start; try done. auto.
    + intros j Hj. rewrite status_set, bool_decide_eq_false_2 by done. by destruct (Hun j).
    + rewrite status_set, bool_decide_eq_true_2 by done. by rewrite Est.
    + intros inc'. unfold executed_before. rewrite status_set, bool_decide_eq_true_2 by done. by rewrite Est.
    + unfold link. simpl. rewrite status_set, bool_decide_eq_true_2 by done. split_and!; [done| |].
      * unfold next_of. simpl. by rewrite lookup_insert_eq.
      * left. split; [done|]. left. exists p, []. apply active_set.
    + by left.
    + by left.
    + intros _. apply pending_jobs; [|done|done]. unfold unsettled. rewrite Ha. auto.
    + intros _ _ _ _. apply tv_good.
      * intros r. unfold live_reads. simpl. rewrite lookup_partial_alter_eq. by intros ?%not_elem_of_nil.
      * intros inc'. simpl. rewrite status_set, bool_decide_eq_true_2 by done. done.
  - intros [= <-] _. apply (sinv_aside (set_scheduler (Scheduler.set_status i (Scheduler.Executing inc) (scheduler S)) S)); simpl; auto.
    eapply status_move_sinv; [done|done|exact Est|]. exists inc. auto.
Qed.

Lemma hook_sinv S (i : TxnIndex) w' : sinv S -> hook (world_of S) i = Some w' -> fell_back w' = false -> sinv (set_world w' S).
Proof.
  intros Hs Hk Hf. assert (forall j, untouched (world_of S) w' j /\ commit_idx w' = commit_idx (world_of S) /\ halted w' = halted (world_of S)) as Hun.
  { intros j. revert Hk. unfold hook. destruct (committing _ !! i) as [[[|key keys] writes]|]; [| |done].
    - destruct (outputs _ !! i) as [[o| |o]|]; try done; destruct (into_transaction_output_with_materialized_deltas o writes); try done; by intros [= <-].
    - destruct (commit_delta _ _ _) as [d [v| |]]; try done. by intros [= <-]. }
  apply hook_step with (block := block) in Hk. apply (sinv_touch S _ i); try done; simpl; try (by apply Hun).
  - intros j _. split; [apply Hun|done].
  - destruct (Hun i) as (H1 & E1 & _). apply (link_frame S); try done; [by simpl; rewrite E1..|apply Hs].
  - by left.
  - by left.
  - intros _. apply pending_frame; [apply Hun|done|done].
  - intros _ _ Hh Htv. destruct (Hun i) as (H1 & _). apply (tv_keep S); simpl; try done; try (intros; by left).
    + apply good_keep; [by apply untouched_reads|done].
    + intros t inc _ _. rewrite (un_inputs _ _ _ H1). naive_solver.
Qed.

(** ** Executions *)
Definition runs (x : Scheduler.ExecutionStatus) (inc : Incarnation) : Prop :=
  x = Scheduler.Ready inc Scheduler.Wakeup \/ x = Scheduler.Executing inc \/ x = Scheduler.Suspended inc.

Lemma runs_link S (i : TxnIndex) inc : runs (Scheduler.status (scheduler S) i) inc -> link S i <-> running S i inc.
Proof using Type. unfold link. by intros [->|[->| ->]]. Qed.

Lemma working_inj w (i : TxnIndex) inc inc' : working w i inc -> working w i inc' -> inc' = inc.
Proof using Type. clear module_kind counters_in_storage block_ok. unfold working. naive_solver. Qed.

Lemma working_status S (i : TxnIndex) inc : link S i -> working (world_of S) i inc ->
  Scheduler.status (scheduler S) i = Scheduler.Halted \/ runs (Scheduler.status (scheduler S) i) inc /\ running S i inc /\ finishing S !! i = None.
Proof using Type.
  clear module_kind counters_in_storage block_ok. intros Hl Hw. assert (active (world_of S) !! i <> None) as Hn by (unfold working in Hw; naive_solver).
  assert (forall n, running S i n -> n = inc /\ running S i inc /\ finishing S !! i = None) as Hrun.
  { intros n Hr. assert (working (world_of S) i n /\ finishing S !! i = None) as [Hw' Hf].
    { destruct Hr as (_ & _ & [[Hf Hw']|(_ & _ & ? & _)]); [done|by destruct Hn]. }
    by rewrite (working_inj _ _ _ _ Hw Hw') in *. }
  unfold link, runs in *. destruct (Scheduler.status (scheduler S) i) as [n []|n|n|n|n|n|]; [naive_solver|..|by left].
  all: try (right; destruct (Hrun n Hl) as (-> & ?); by auto).
  - destruct Hl as (_ & _ & _ & _ & ? & _). by destruct Hn.
  - by destruct Hl as (_ & _ & ? & _).
  - destruct Hl as (_ & _ & _ & _ & [[_ [todo E]]|[_ ?]]); [|by destruct Hn]. unfold working in Hw. rewrite E in Hw. naive_solver.
Qed.

Lemma working_sinv S w' (i : TxnIndex) inc : sinv S -> step block (world_of S) w' -> fell_back w' = false ->
  commit_idx w' = commit_idx (world_of S) -> halted w' = halted (world_of S) ->
  (forall j : TxnIndex, j <> i -> untouched (world_of S) w' j) -> next_of w' i = next_of (world_of S) i ->
  working (world_of S) i inc -> working w' i inc -> (unsettled (world_of S) i -> unsettled w' i) ->
  (halted w' = false -> forall r, r ∈ live_reads w' i -> r ∈ live_reads (world_of S) i \/ valid (data w') i r) -> sinv (set_world w' S).
Proof.
  intros Hs Hst Hf Ec Eh Hoth En Hw Hw' Hun Hreads. pose proof (working_status _ _ _ (si_link _ Hs i) Hw) as Hstat.
  apply (sinv_touch S _ i); try done; simpl; try (by left); auto.
  - destruct Hstat as [E|(Hr & (He & Hn & _) & Hfi)]; [unfold link; simpl; by rewrite E|]. apply (runs_link (set_world w' S) i inc Hr). split_and!; [done|by simpl; rewrite En|].
    left. by split.
  - intros _ [H|H]; [left; auto|by right].
  - intros Hd _ Hh Htv. apply (tv_keep S); simpl; try done; try (intros; by left).
    + intros Hg r Hr. destruct (Hreads ltac:(rewrite Eh; by apply Hs) r Hr) as [?|?]; [|by left]. auto.
    + intros t n _ _. destruct Hstat as [->|(Hr & _)]; [naive_solver|]. destruct Hr as [->|[->| ->]]; naive_solver.
Qed.

Lemma halt_read_sinv S (i : TxnIndex) w' : sinv S -> halted (world_of S) = true -> halt_read (world_of S) i = Some w' -> fell_back w' = false ->
  sinv (set_world w' S).
Proof.
  intros Hs Hh Hr Hf. pose proof Hr as Hst. apply halt_read_step with (block := block) in Hst; [|by rewrite Hh]. revert Hr. unfold halt_read.
  destruct (active (world_of S) !! i) as [[inc [r|key continue] reads| |]|] eqn:Ha; try done. simpl. destruct (is_module_path key); [done|]. intros E.
  injection E as E. subst w'. eapply (working_sinv S _ i inc); try done.
  - by apply set_active_untouched with (1 := eq_refl).
  - left. eauto.
  - left. eexists _, _. apply active_set.
  - unfold unsettled. by rewrite Ha.
  - simpl. congruence.
Qed.

(** What was just read is valid. *)
Lemma read_valid (d : VersionedData WriteOp.t K) key (i : TxnIndex) r rk : fetch_captured (fetch_data d key i) = Some (r, Some rk) ->
  valid d i {| access_path := key; read_kind := rk |}.
Proof using Type.
  unfold valid, validate_read. simpl. destruct (fetch_data d key i) as [[v|[idx inc] v]|[]|]; simpl; try done; intros [= <- <-]; f_equal;
    unfold validate_version, validate_resolved, validate_storage, validate_delta_application_failure; simpl; by rewrite bool_decide_eq_true_2.
Qed.

Lemma module_read_valid w key (i : TxnIndex) : inv kind block w -> is_module_path key = true -> valid (data w) i {| access_path := key; read_kind := ReadModule |}.
Proof.
  intros Hw Hm. unfold valid, validate_read. simpl. assert (fetch_data (data w) key i = Err NotFound) as ->; [|done]. rewrite fetch_default. unfold read.
  rewrite below_none; [done|]. intros [j e] Hin. exfalso. apply BTreeMap.get_elem_of in Hin; [|by eapply value_map_ordered].
  assert (entry_at w key j = Some e) as He by (unfold entry_at, entries_of; by destruct (data w !! key)).
  destruct (inv_entries _ _ _ Hw _ _ _ He) as (inc & r & _ & Hfor). unfold entry_for in Hfor. rewrite (proj1 (module_kind key) Hm) in Hfor. by destruct r.
Qed.

Lemma reading_sinv S (i : TxnIndex) inc p p' reads reads' : sinv S -> active (world_of S) !! i = Some (Reading inc p reads) ->
  step block (world_of S) (set_active i (Some (Reading inc p' reads')) (world_of S)) -> fell_back (world_of S) = false ->
  (forall r, r ∈ reads' -> r ∈ reads \/ valid (data (world_of S)) i r) -> sinv (set_world (set_active i (Some (Reading inc p' reads')) (world_of S)) S).
Proof.
  intros Hs Ha Hst Hf Hr. apply (working_sinv S _ i inc); try done.
  - by apply set_active_untouched with (1 := eq_refl).
  - left. eauto.
  - left. eexists _, _. apply active_set.
  - unfold unsettled. by rewrite Ha.
  - intros _ r. unfold live_reads. rewrite active_set, Ha. apply Hr.
Qed.

Lemma turn_read_sinv S (i : TxnIndex) inc key continue reads w' : sinv S -> active (world_of S) !! i = Some (Reading inc (Get key continue) reads) ->
  turn_read (world_of S) i inc key continue reads = Some w' -> fell_back w' = false -> sinv (set_world w' S).
Proof.
  intros Hs Ha Ht Hf. pose proof (turn_read_step block _ _ _ _ _ _ _ Ha Ht) as Hst. destruct (sinv_step _ _ Hs Hst Hf) as (Hw & _ & _). revert Ht.
  assert (forall reads1 r, r ∈ reads ++ [reads1] -> valid (data (world_of S)) i reads1 -> r ∈ reads \/ valid (data (world_of S)) i r) as Hadd.
  { intros d r [?|Hd]%elem_of_app Hv; [by left|]. apply list_elem_of_singleton in Hd as ->. by right. }
  unfold turn_read. destruct (is_module_path key) eqn:Em.
  - destruct (module_answer _ _) as [a|]; simpl; [|done]. intros [= <-]. eapply reading_sinv; try done. intros r Hr. eapply Hadd; [done|]. by apply module_read_valid.
  - destruct (fetch_captured _) as [[res [rk|]]|] eqn:Ef; [| |done].
    + assert (valid (data (world_of S)) i {| access_path := key; read_kind := rk |}) as Hv by (by eapply read_valid).
      destruct res; simpl; try done; intros [= <-]; (eapply reading_sinv; try done; intros r Hr; by eapply Hadd).
    + destruct res; try done. destruct (get_state_value_u128 _ key) as [[v|]|e|]; try done; [|intros [= <-]; eapply reading_sinv; try done; by auto..].
      destruct (set_aggregator_base_value key v _) as [d [[]| |]]; try done. intros [= <-].
      apply (working_sinv S _ i inc); try done; [left; by eauto..|]. intros _ r. by left.
Qed.

Lemma return_sinv S (i : TxnIndex) inc r reads w' : sinv S -> active (world_of S) !! i = Some (Reading inc (Ret r) reads) ->
  w' = set_active i (Some (Updating inc reads r (execution_updates (modified_keys (last_input_output (world_of S)) i) r))) (set_history (i, inc) r (world_of S)) ->
  fell_back w' = false -> sinv (set_world w' S).
Proof.
  intros Hs Ha -> Hf. apply (working_sinv S _ i inc); try done.
  - by apply step_return.
  - intros j Hj. split; try done. by rewrite active_set_ne.
  - left. eauto.
  - right. eexists _, _, _. apply active_set.
  - unfold unsettled. by rewrite Ha.
  - intros _ d. unfold live_reads. rewrite active_set, Ha. by left.
Qed.

Lemma update_sinv S (i : TxnIndex) inc reads r u todo c w' : sinv S -> active (world_of S) !! i = Some (Updating inc reads r (u :: todo)) ->
  perform_update (i, inc) u (cache (world_of S)) = (c, Ok tt) ->
  w' = set_active i (Some (Updating inc reads r todo)) (match u with UModule key _ => set_published key i | _ => id end (set_cache c (world_of S))) ->
  fell_back w' = false -> sinv (set_world w' S).
Proof.
  intros Hs Ha Hp -> Hf. set (w1 := match u with UModule key _ => set_published key i | _ => id end (set_cache c (world_of S))) in *.
  assert (forall j, untouched (world_of S) w1 j /\ commit_idx w1 = commit_idx (world_of S) /\ halted w1 = halted (world_of S)) as Hun by (intros j; by destruct u).
  apply (working_sinv S _ i inc); try done; try (by apply (Hun i)).
  - by apply step_update.
  - intros j Hj. destruct (Hun j) as ([] & _ & _). split; try done. by rewrite active_set_ne.
  - right. eauto.
  - right. eexists _, _, _. apply active_set.
  - unfold unsettled, outside, modified_keys. rewrite active_set, Ha. simpl. by rewrite (un_outputs _ _ _ (proj1 (Hun i))).
  - intros _ d. unfold live_reads. rewrite active_set, Ha. by left.
Qed.

Lemma not_halted S (i : TxnIndex) : sinv S -> Scheduler.done_marker (scheduler S) = false -> Scheduler.status (scheduler S) i <> Scheduler.Halted.
Proof using Type. intros Hs Hd E. pose proof (si_going _ Hs Hd) as Hh. rewrite (si_halted _ Hs ltac:(exists i; by left)) in Hh. done. Qed.

Lemma record_sinv S (i : TxnIndex) inc reads r io o w' : sinv S -> active (world_of S) !! i = Some (Updating inc reads r []) ->
  record i reads (status_of r) (last_input_output (world_of S)) = (io, o) ->
  w' = set_active i None (set_aborted (aborted (world_of S) ∖ {[i]}) (set_io io (world_of S))) -> fell_back w' = false ->
  sinv (set_finishing i (Some (inc, updates_outside (modified_keys (last_input_output (world_of S)) i) r, XLock)) (set_world w' S)).
Proof.
  intros Hs Ha Hrec Ew Hf. assert (step block (world_of S) w') as Hst by (rewrite Ew; by eapply step_record).
  destruct (sinv_step _ _ Hs Hst Hf) as (Hw & _ & _). assert (working (world_of S) i inc) as Hwork by (right; eauto).
  pose proof (working_status _ _ _ (si_link _ Hs i) Hwork) as Hstat. pose proof (inv_active _ _ _ Hw _ _ Ha) as Hi. pose proof (inv_commit _ _ _ Hw) as Hc.
  subst w'. destruct (record_inversion _ _ _ _ _ _ Hrec Hf (inv_modules _ _ _ Hw)) as (Ein & Eout & _).
  apply (sinv_touch S _ i); try done; simpl; try (by left); auto.
  - intros j Hj. rewrite partial_set, bool_decide_eq_false_2 by done. split_and!; try done. split; simpl; try done.
    + by rewrite lookup_partial_alter_ne.
    + by rewrite Eout, lookup_insert_ne.
    + by rewrite Ein, lookup_insert_ne.
    + rewrite elem_of_difference, elem_of_singleton. tauto.
  - destruct Hstat as [E|(Hr & (He & Hn & _) & Hfi)]; [unfold link; simpl; by rewrite E|]. apply (proj2 (runs_link (set_finishing i _ (set_world _ S)) i inc Hr)). split_and!; [done|done|].
    right. split; [eexists; simpl; by rewrite partial_set, bool_decide_eq_true_2|]. split_and!; simpl.
    + lia.
    + by rewrite lookup_partial_alter_eq.
    + rewrite elem_of_difference, elem_of_singleton. tauto.
    + rewrite Eout, lookup_insert_eq. by eexists.
    + rewrite Ein, lookup_insert_eq. by eexists.
  - right. intros x st. rewrite partial_set, bool_decide_eq_true_2 by done. intros [= <- <-]. split; [lia|done].
  - intros Hd Hp. destruct Hstat as [E|(_ & _ & Hfi)]; [by apply not_halted in E|]. unfold pending in *. simpl. rewrite partial_set, bool_decide_eq_true_2 by done.
    rewrite Hfi in Hp. destruct Hp as [Hu|[Hab|(? & ? & ? & _)]]; [|by right; left|done]. right. right. unfold unsettled, outside in Hu. rewrite Ha in Hu. rewrite Hu. by exists inc, XLock.
  - intros Hd _ Hh Htv. destruct Hstat as [E|(Hr & _)]; [by apply not_halted in E|]. apply (tv_keep S); simpl; try done; try (intros; by left).
    + apply good_keep; [|done]. unfold live_reads. simpl. rewrite lookup_partial_alter_eq, Ha, Ein, lookup_insert_eq, bool_decide_eq_false_2; [done|].
      rewrite elem_of_difference, elem_of_singleton. tauto.
    + intros t n _ _. destruct Hr as [->|[->| ->]]; naive_solver.
Qed.

(** ** Aborts *)
Lemma abort_sinv S (i : TxnIndex) inc l S' : sinv S -> Scheduler.status (scheduler S) i = Scheduler.Executed inc -> (forall t, t ∈ l -> t ∈ tasks S) ->
  S' = set_tasks l (set_abort i (Some (inc, AMark)) (set_world (aborted_world (world_of S) i)
    (set_scheduler (Scheduler.set_status i (Scheduler.Aborting inc) (scheduler S)) S))) -> fell_back (world_of S) = false -> sinv S'.
Proof.
  intros Hs Est Hl -> Hf. pose proof (si_link _ Hs i) as Hlk. unfold link in Hlk. rewrite Est in Hlk.
  destruct Hlk as (Hab & Hlate & Hn & (Hc & Ha & Hna & Ho & Hin)). pose proof (inv_commit _ _ _ (sinv_inv _ Hs Hf)) as Hc0.
  apply (sinv_touch S _ i); try done; simpl; auto.
  - by apply step_abort.
  - intros j Hj. rewrite status_set, partial_set, !bool_decide_eq_false_2 by done. split_and!; try done. split; simpl; try done.
    + by rewrite lookup_partial_alter_ne.
    + rewrite elem_of_union, elem_of_singleton. tauto.
  - rewrite status_set, bool_decide_eq_true_2 by done. by rewrite Est.
  - intros n. unfold executed_before. rewrite status_set, bool_decide_eq_true_2, Est by done. done.
  - unfold link. simpl. rewrite status_set, !partial_set, !bool_decide_eq_true_2 by done. split_and!; try done; [apply elem_of_union; left; by apply elem_of_singleton|].
    left. split; [done|]. by eexists.
  - right. intros x st. rewrite partial_set, bool_decide_eq_true_2 by done. intros [= <- <-]. split; [lia|done].
  - intros _ _. right. left. simpl. rewrite partial_set, bool_decide_eq_true_2 by done. by eexists.
  - intros _ _ _ _. apply tv_good.
    + intros r. unfold live_reads. simpl. rewrite lookup_partial_alter_eq. by intros ?%not_elem_of_nil.
    + intros n. simpl. rewrite status_set, bool_decide_eq_true_2 by done. done.
Qed.

Lemma aborting_status S (i : TxnIndex) todo : link S i -> active (world_of S) !! i = Some (Aborting todo) ->
  Scheduler.status (scheduler S) i = Scheduler.Halted \/ exists inc, Scheduler.status (scheduler S) i = Scheduler.Aborting inc /\ aborts S !! i = Some (inc, AMark).
Proof using Type.
  clear module_kind counters_in_storage block_ok. intros Hl Ha. unfold link, running, working, idle_executed in Hl. rewrite Ha in Hl.
  destruct (Scheduler.status (scheduler S) i) as [n []|n|n|n|n|n|]; [naive_solver..| | |by left]; [naive_solver|]. right. exists n. naive_solver.
Qed.

(** A step of an abort: the worker is at its marks, or done with them. *)
Lemma marking_sinv S S' (i : TxnIndex) todo w' a : sinv S -> active (world_of S) !! i = Some (Aborting todo) ->
  step block (world_of S) w' -> fell_back w' = false -> commit_idx w' = commit_idx (world_of S) -> halted w' = halted (world_of S) ->
  (forall j : TxnIndex, j <> i -> untouched (world_of S) w' j) -> next_of w' i = next_of (world_of S) i -> aborted w' = aborted (world_of S) ->
  active w' !! i = a -> (exists inc, (exists todo', a = Some (Aborting todo') /\ S' = set_world w' S) \/
    a = None /\ (exists st, aborts S !! i = Some (inc, st)) /\ S' = set_abort i (Some (inc, ALock)) (set_world w' S)) -> sinv S'.
Proof.
  intros Hs Ha Hst Hf Ec Eh Hoth En Eab Ea (inc & HS). destruct (sinv_step _ _ Hs Hst Hf) as (Hw & _ & _).
  pose proof (aborting_status _ _ _ (si_link _ Hs i) Ha) as Hstat. pose proof (inv_active _ _ _ Hw _ _ Ha) as Hi. pose proof (inv_commit _ _ _ Hw) as Hc.
  pose proof (inv_txn _ _ _ Hw i (proj1 Hi)) as Ht. unfold txn_inv in Ht. rewrite Ha in Ht. destruct Ht as [Hin _].
  assert (world_of S' = w' /\ scheduler S' = scheduler S /\ finishing S' = finishing S /\ tasks S' = tasks S /\ halting S' = halting S /\
    (forall j : TxnIndex, j <> i -> aborts S' !! j = aborts S !! j)) as (E1 & E2 & E3 & E4 & E5 & E6).
  { destruct HS as [(? & _ & ->)|(_ & _ & ->)]; split_and!; try done. intros j Hj. simpl. by rewrite partial_set, bool_decide_eq_false_2. }
  apply (sinv_touch S _ i); rewrite ?E1, ?E2, ?E3, ?E4, ?E5; auto; try done.
  - destruct Hstat as [E|(n & E & En')]; unfold link; rewrite E2, E; [done|]. pose proof (si_link _ Hs i) as Hl. unfold link in Hl. rewrite E in Hl.
    destruct Hl as (Hl1 & Hl2 & _ & Hl3 & _). rewrite E1, E3, En, Ec, Eab, Ea. split_and!; try done.
    destruct HS as [(todo' & -> & ->)|(-> & (st & Hst') & ->)]; [left; simpl; eauto|]. right. simpl. rewrite partial_set, bool_decide_eq_true_2 by done.
    split; [congruence|done].
  - destruct HS as [(todo' & -> & ->)|(-> & _ & ->)]; [by left|]. right. intros x st. simpl. rewrite partial_set, bool_decide_eq_true_2 by done.
    intros [= <- <-]. split; [lia|done].
  - intros Hd _. destruct HS as [(todo' & -> & ->)|(-> & _ & ->)]; [left; unfold unsettled; simpl; by rewrite Ea|]. right. left. simpl.
    rewrite partial_set, bool_decide_eq_true_2 by done. by eexists.
  - intros Hd _ _ _. destruct Hstat as [E|(n & E & _)]; [by apply not_halted in E|]. apply tv_good.
    + intros r. unfold live_reads. rewrite E1, Ea, Eab. destruct HS as [(todo' & -> & _)|(-> & _)]; [by intros ?%not_elem_of_nil|].
      rewrite bool_decide_eq_true_2 by done. by intros ?%not_elem_of_nil.
    + intros n'. rewrite E2, E. done.
Qed.

Lemma record_failed (i : TxnIndex) reads st (io : TxnLastInputOutput) : (record i reads st io).2 <> Ok tt ->
  module_read_write_intersection (record i reads st io).1 = true.
Proof using Type.
  unfold record. destruct (module_read_write_intersection io); [done|]. destruct (append_and_check _ _ _) as [rs []]; [done|].
  destruct (append_and_check _ _ _) as [ws []]; done.
Qed.

Lemma estimate_sinv S (i : TxnIndex) key m todo c w' : sinv S -> active (world_of S) !! i = Some (Aborting ((key, m) :: todo)) ->
  perform_estimate i key m (cache (world_of S)) = (c, Ok tt) -> w' = set_active i (Some (Aborting todo)) (set_cache c (world_of S)) ->
  fell_back w' = false -> sinv (set_world w' S).
Proof.
  intros Hs Ha Hp Ew Hf. eapply (marking_sinv S _ i _ w'); try done; try (by rewrite Ew).
  - rewrite Ew. by eapply step_estimate.
  - intros j Hj. rewrite Ew. split; try done. by rewrite active_set_ne.
  - exists 0. left. exists todo. split; [|done]. by rewrite Ew, active_set.
Qed.

Lemma aborted_sinv S (i : TxnIndex) inc st w' : sinv S -> active (world_of S) !! i = Some (Aborting []) -> aborts S !! i = Some (inc, st) ->
  w' = set_active i None (world_of S) -> fell_back w' = false -> sinv (set_abort i (Some (inc, ALock)) (set_world w' S)).
Proof.
  intros Hs Ha Hab Ew Hf. eapply (marking_sinv S _ i _ w'); try done; try (by rewrite Ew).
  - rewrite Ew. by apply step_aborted.
  - intros j Hj. by eapply set_active_untouched.
  - exists inc. right. split_and!; [by rewrite Ew, active_set|by exists st|done].
Qed.

Lemma execute_sinv S (i : TxnIndex) S' : sinv S -> execute S i = Some S' -> fell_back (world_of S') = false -> sinv S'.
Proof.
  intros Hs. unfold execute, turn. destruct (active (world_of S) !! i) as [[inc [r|key continue] reads|inc reads r [|u todo]|[|[key m] todo]]|] eqn:Ha; [| | | | | |done].
  - intros [= <-] Hf. by eapply return_sinv.
  - destruct (turn_read _ _ _ _ _ _) as [w'|] eqn:Et; [|done]. intros [= <-] Hf. by eapply turn_read_sinv.
  - destruct (record i reads (status_of r) (last_input_output (world_of S))) as [io o] eqn:Er. simpl.
    pose proof (record_failed i reads (status_of r) (last_input_output (world_of S))) as Hfail. rewrite Er in Hfail. simpl in Hfail.
    destruct o as [[]|e|]; intros [= <-] Hf; [by eapply record_sinv| |]; exfalso; revert Hf; unfold halt, fell_back; simpl;
      destruct (Scheduler.done_marker (scheduler S)); simpl; rewrite Hfail; done.
  - destruct (perform_update _ _ _) as [c [[]| |]] eqn:Ep; try done. intros [= <-] Hf. by eapply update_sinv.
  - simpl. destruct (aborts S !! i) as [[inc st]|] eqn:Eab; simpl; [|done]. intros [= <-] Hf. by eapply aborted_sinv.
  - destruct (perform_estimate _ _ _ _) as [c [[]| |]] eqn:Ep; try done. intros [= <-] Hf. by eapply estimate_sinv.
Qed.

Lemma set_condvar_sinv S (i : TxnIndex) : sinv S -> sinv (set_scheduler (Scheduler.set_condvar i None (scheduler S)) S).
Proof using Type. intros Hs. apply (sinv_aside S); simpl; auto. intros j. rewrite partial_set. by case_bool_decide. Qed.

Lemma work_sinv S (i : TxnIndex) S' : sinv S -> work S i = Some S' -> fell_back (world_of S') = false -> sinv S'.
Proof.
  intros Hs. unfold work. destruct (Scheduler.condvars (scheduler S) !! i) as [[]|] eqn:Ecv; [done| | |].
  - intros [= <-] _. by apply set_condvar_sinv.
  - destruct (halt_read _ i) as [w'|] eqn:Eh; simpl; [|done]. intros [= <-] Hf.
    apply (halt_read_sinv (set_scheduler _ S) i w'); [by apply set_condvar_sinv| |done|done]. apply (si_halted _ Hs). exists i. by right.
  - destruct (asking S !! i) as [j|]; [|destruct (meets_dependency _ i); [intros [= <-] _; apply (sinv_aside S); simpl; auto|by apply execute_sinv]].
    unfold Scheduler.wait_for_dependency. destruct (Scheduler.is_executed j true (scheduler S)); [intros [= <-] _; apply (sinv_aside S); simpl; auto|].
    unfold Scheduler.suspend. destruct (Scheduler.status (scheduler S) i) as [| inc| | | | |] eqn:Est; try done.
    + intros [= <-] _. set (S1 := set_scheduler (Scheduler.set_status i (Scheduler.Suspended inc) (scheduler S)) S).
      assert (sinv S1) as Hs1 by (eapply status_move_sinv; [done|done|done|]; exists inc; auto).
      apply (sinv_aside S1); simpl; auto. intros k. rewrite partial_set. by case_bool_decide.
    + destruct (halt_read _ i) as [w'|] eqn:Eh; simpl; [|done]. intros [= <-] Hf. assert (sinv (set_asking i None (set_scheduler (scheduler S) S))) as Hs1.
      { apply (sinv_aside S); simpl; auto. }
      apply (halt_read_sinv _ i w' Hs1); [|done|done]. apply (si_halted _ Hs). exists i. by left.
Qed.

(** ** Validations *)
Lemma set_tasks_sinv S l : sinv S -> (forall t, t ∈ l -> t ∈ tasks S \/
    (forall i inc, version_of t = Some (i, inc) -> executed_before (scheduler S) i inc) /\
    forall i v, task_wave t = Some (i, v) -> passed (scheduler S) i v /\
      (Scheduler.done_marker (scheduler S) = false -> i < num_txns block -> ~ stale (scheduler S) i v -> task_ok S t)) -> sinv (set_tasks l S).
Proof using Type.
  intros Hs Hl. apply (sinv_calm S); simpl; auto; try done.
  - intros i. apply (link_calm S); try done. apply Hs.
  - intros t i inc Hin Hv. destruct (Hl t Hin) as [?|[? _]]; [by eapply si_bound|eauto].
  - apply (waves_step S); simpl; auto; try (by apply Hs); [apply wave_advances_refl|]. intros t i v Hin Hw. destruct (Hl t Hin) as [?|[_ H]]; [by left|right]. by apply H.
  - intros Hd i Hi. apply tv_calm; simpl; try done; auto.
    intros t v Hin Hw. destruct (Hl t Hin) as [?|[_ H]]; [by left|right]. by apply (H i v Hw).
Qed.

Lemma finish_validation_sinv S (i : TxnIndex) wave l : sinv S -> passed (scheduler S) i wave -> (forall t, t ∈ l -> t ∈ tasks S) ->
  (Scheduler.done_marker (scheduler S) = false -> i < num_txns block -> ~ stale (scheduler S) i wave -> good S i) ->
  sinv (set_tasks l (set_scheduler (Scheduler.finish_validation i wave (scheduler S)) S)).
Proof using Type.
  intros Hs Hp Hl Hg. set (s' := Scheduler.finish_validation i wave (scheduler S)).
  assert (forall j, triggered s' j = triggered (scheduler S) j) as Htr by (intros j; unfold triggered, s', Scheduler.finish_validation; rewrite validation_set; by case_bool_decide; subst).
  assert (forall j v, validated s' j = Some v -> validated (scheduler S) j = Some v \/ j = i /\ v = wave) as Hval.
  { intros j v. unfold validated, s', Scheduler.finish_validation. rewrite validation_set. case_bool_decide as E; [subst|by left]. simpl. intros [= <-].
    destruct (Scheduler.maybe_max_validated_wave (Scheduler.validation (scheduler S) i)) as [p|]; [|by right]. destruct (Z.max_spec p wave) as [[_ ->]|[_ ->]]; auto. }
  assert (advances (scheduler S) s') as Ha by (apply advances_index; [done|]; intros j; rewrite Htr; lia).
  assert (forall j v, stale s' j v <-> stale (scheduler S) j v) as Hst by (intros j v; unfold stale; by setoid_rewrite Htr).
  apply (sinv_calm S); simpl; auto; try done.
  - intros j. apply (link_calm S); try done. apply Hs.
  - intros t j inc Hin Hv. by eapply si_bound; [|apply Hl|].
  - apply (waves_step S); simpl; auto; [apply Hs| |].
    + apply (advances_index_ok (scheduler S)); [done| |apply wv_index, si_waves, Hs]. intros j. fold s'. rewrite Htr. lia.
    + intros j v [?|[-> ->]]%Hval; auto.
  - intros _ j Hj. fold s'. by rewrite Htr.
  - intros Hd j Hj. apply tv_calm; simpl; try done.
    + intros v [?|[-> ->]]%Hval; [by left|]. right. intros Hn. apply Hg; try done. by rewrite <-Hst.
    + intros t v Hin _. left. auto.
Qed.

Lemma claim_sinv S (idx : TxnIndex) wave l : sinv S -> Scheduler.validation_idx (scheduler S) = (idx, wave) -> (forall t, t ∈ l -> t ∈ tasks S) ->
  sinv (set_tasks (VClaimed idx wave :: l) (set_scheduler (Scheduler.set_indices (Scheduler.execution_idx (scheduler S)) (idx + 1, wave) (scheduler S)) S)).
Proof using Type.
  intros Hs Ei Hl. pose proof (wv_index _ (si_waves _ Hs)) as (Hi & Hw & Hsrc). rewrite Ei in Hi, Hw, Hsrc. simpl in Hi, Hw, Hsrc.
  set (s' := Scheduler.set_indices _ _ _). assert (advances (scheduler S) s') as Ha.
  { split; [done|]. intros j v. unfold passed. rewrite Ei. simpl. intros [? [?|[-> ?]]]; (split; [done|]); [by left|right; lia]. }
  apply (sinv_calm S); simpl; auto; try done.
  - intros j. apply (link_calm S); try done. apply Hs.
  - intros t j inc [->|Hin]%elem_of_cons Hv; [done|]. by eapply si_bound; [|apply Hl|].
  - apply (waves_step S); simpl; auto; [apply Hs| |].
    + split_and!; simpl; [lia|done|]. destruct Hsrc as [?|(t & ? & ?)]; [by left|]. right. exists t. split; [lia|done].
    + intros t j v [->|Hin]%elem_of_cons Ht; [|auto]. right. simpl in Ht. injection Ht as <- <-. unfold passed. simpl. lia.
  - intros Hd j Hj. apply tv_calm; simpl; try done; auto.
    intros t v [->|Hin]%elem_of_cons _; [by right|auto].
Qed.

Lemma executed_reads S (i : TxnIndex) inc : link S i -> Scheduler.status (scheduler S) i = Scheduler.Executed inc ->
  inputs (last_input_output (world_of S)) !! i = Some (live_reads (world_of S) i).
Proof using Type.
  intros Hl E. unfold link in Hl. rewrite E in Hl. destruct Hl as (_ & _ & _ & (_ & Ha & Hn & _ & [reads Hin])). unfold live_reads.
  by rewrite Ha, bool_decide_eq_false_2, Hin.
Qed.

(** A task in the place of one that was there. *)
Lemma next_stage_sinv S t t' l : sinv S -> t ∈ tasks S -> (forall t, t ∈ l -> t ∈ tasks S) -> task_wave t' = task_wave t ->
  (forall i inc, version_of t' = Some (i, inc) -> version_of t = Some (i, inc) \/ Scheduler.status (scheduler S) i = Scheduler.Executed inc) ->
  (task_ok S t -> task_ok S t') -> sinv (set_tasks (t' :: l) S).
Proof using Type.
  intros Hs Hin Hl Hw Hv Hok. apply set_tasks_sinv; [done|]. intros t0 [->|?]%elem_of_cons; [right|auto]. split.
  - intros i inc Hver. destruct (Hv i inc Hver) as [?|E]; [by eapply si_bound|]. unfold executed_before. by rewrite E.
  - intros i v Hwave. rewrite Hw in Hwave. split; [by eapply wv_tasks; [apply Hs|..]|]. intros Hd Hi Hns. apply Hok. by apply (si_tv _ Hs Hd i Hi) with (v := v).
Qed.

Lemma validate_sinv S t l S' : sinv S -> t ∈ tasks S -> (forall t, t ∈ l -> t ∈ tasks S) -> validate S t l = Some S' -> fell_back (world_of S') = false -> sinv S'.
Proof.
  intros Hs Hin Hl. assert (sinv (set_tasks l S)) as Hdrop by (apply set_tasks_sinv; auto).
  assert (forall i v, task_wave t = Some (i, v) -> passed (scheduler S) i v /\
    (Scheduler.done_marker (scheduler S) = false -> i < num_txns block -> ~ stale (scheduler S) i v -> task_ok S t)) as Ht.
  { intros i v Hw. split; [by eapply wv_tasks; [apply Hs|..]|]. intros Hd Hi Hns. by apply (si_tv _ Hs Hd i Hi) with (v := v). }
  destruct t as [idx wave|idx wave|i inc wave|i inc wave [|r todo]|i inc wave|i wave]; simpl.
  - unfold Scheduler.exchange_validation_idx. case_bool_decide as E; intros [= <-] _; [by apply claim_sinv|done].
  - destruct (Scheduler.is_executed idx false (scheduler S)) as [inc|] eqn:E; intros [= <-] _; [|done].
    assert (Scheduler.status (scheduler S) idx = Scheduler.Executed inc) as Est.
    { unfold Scheduler.is_executed in E. destruct (Scheduler.status (scheduler S) idx); try done. congruence. }
    apply (next_stage_sinv S (VClaimed idx wave)); try done; simpl; [intros ? ? [= <- <-]; by right|]. by rewrite Est.
  - destruct (inputs _ !! i) as [reads|] eqn:Er; simpl; [|done]. intros [= <-] _. apply (next_stage_sinv S (VTask i inc wave)); try done; [by left|].
    simpl. intros Hok. split; [done|]. intros _. exists []. split; [done|]. by intros r ?%not_elem_of_nil.
  - destruct (locked S i); [done|]. intros [= <-] _. destruct (Ht i wave eq_refl) as [Hp Hok]. apply finish_validation_sinv; try done. intros Hd Hi Hns.
    destruct (Hok Hd Hi Hns) as [H1 H2]. destruct (decide (Scheduler.status (scheduler S) i = Scheduler.Executed inc)) as [E|]; [|auto].
    destruct (H2 E) as (checked & Hc & Hh). rewrite (executed_reads _ _ _ (si_link _ Hs i) E), app_nil_r in Hc. injection Hc as Hc. intros r. rewrite Hc. apply Hh.
  - destruct (validate_read _ i r) as [[]| |] eqn:Ev; try done; intros [= <-] _.
    + apply (next_stage_sinv S (VCheck i inc wave (r :: todo))); try done; [by left|]. simpl. intros [H1 H2]. split; [done|]. intros E.
      destruct (H2 E) as (checked & Hc & Hh). exists (checked ++ [r]). rewrite <-app_assoc. split; [done|].
      intros r' [?|Hr']%elem_of_app; [auto|]. apply list_elem_of_singleton in Hr' as ->. by left.
    + apply (next_stage_sinv S (VCheck i inc wave (r :: todo))); try done; [by left|]. by intros [H _].
  - unfold Scheduler.try_abort. destruct (Scheduler.status (scheduler S) i) as [| | |n| | |] eqn:E; [..|destruct (Z.eqb_spec n inc) as [->|]| | |].
    4: { intros [= <-] Hf. by eapply abort_sinv. }
    all: intros [= <-] _; apply (next_stage_sinv S (VInvalid i inc wave)); try done; simpl; intros Hok; apply Hok; rewrite E; congruence.
  - destruct (locked S i); [done|]. intros [= <-] _. destruct (Ht i wave eq_refl) as [Hp Hok]. by apply finish_validation_sinv.
Qed.

(** ** Decreasing the validation index *)

(** All validations above are stale. *)
Definition renewed (s : Scheduler.t) (target : TxnIndex) : Prop :=
  num_txns block <= target \/ forall i v, target <= i -> passed s i v -> stale s i v.

Record decreased (target : TxnIndex) (s s' : Scheduler.t) : Prop := {
  dec_status : Scheduler.execution_status s' = Scheduler.execution_status s;
  dec_num : Scheduler.num_txns s' = Scheduler.num_txns s;
  dec_commit : Scheduler.commit_state s' = Scheduler.commit_state s;
  dec_done : Scheduler.done_marker s' = Scheduler.done_marker s;
  dec_condvars : Scheduler.condvars s' = Scheduler.condvars s;
  dec_validated i : validated s' i = validated s i;
  dec_triggered i : i < target -> triggered s' i = triggered s i;
  dec_advances : advances s s';
  dec_index : index_ok s' }.

Lemma decreased_refl target s : index_ok s -> decreased target s s.
Proof using Type. intros. split; try done. Qed.

Lemma renewed_above s (target : TxnIndex) : index_ok s -> (Scheduler.validation_idx s).1 <= target -> renewed s target.
Proof using Type.
  intros (Hi & Hw & Hsrc) Hle. right. intros i v Hti (Hv & [Hlt|[-> ?]]); [|lia]. destruct Hsrc as [?|(t & ? & ?)]; [lia|]. exists t. lia.
Qed.

Lemma trigger_decreased s (target : TxnIndex) idx wave : index_ok s ->
  decreased target s (Scheduler.trigger_wave target wave s) /\ swapping (Scheduler.trigger_wave target wave s) target (DSwap (idx, wave)).
Proof using Type.
  intros Hi. assert (forall j, triggered (Scheduler.trigger_wave target wave s) j =
    if bool_decide (j = target) then Z.max (triggered s target) (wave + 1) else triggered s j) as Htr.
  { intros j. unfold triggered, Scheduler.trigger_wave. rewrite validation_set. by case_bool_decide. }
  assert (forall j, triggered s j <= triggered (Scheduler.trigger_wave target wave s) j) as Hmono by (intros j; rewrite Htr; case_bool_decide; subst; lia).
  split; [split; try done|].
  - intros j. unfold validated, Scheduler.trigger_wave. rewrite validation_set. by case_bool_decide; subst.
  - intros j Hj. rewrite Htr, bool_decide_eq_false_2; [done|lia].
  - by apply (advances_index_ok s).
  - simpl. rewrite Htr, bool_decide_eq_true_2 by done. lia.
Qed.

Lemma exchange_decreased s (target : TxnIndex) idx wave s' : index_ok s -> 0 <= target -> swapping s target (DSwap (idx, wave)) ->
  Scheduler.exchange_validation_idx (idx, wave) (target, wave + 1) s = Some s' ->
  decreased target s s' /\ renewed s' target /\ passed s' (target - 1) (wave + 1).
Proof using Type.
  intros (Hi & Hw & Hsrc) Ht Hsw. unfold Scheduler.exchange_validation_idx. case_bool_decide as Ei; [|done]. intros [= <-]. rewrite Ei in *. simpl in *.
  split; [split; try done|].
  - split; [done|]. intros j v. unfold passed. rewrite Ei. simpl. lia.
  - split_and!; simpl; [done|lia|]. right. exists target. split; [lia|done].
  - split; [|unfold passed; simpl; lia]. right. intros j v Hj Hp. exists target. split; [lia|]. unfold triggered, passed in *. simpl in *.
    unfold Scheduler.validation in *. simpl. lia.
Qed.

Lemma decrease_decreased b s (target : TxnIndex) d s' res : index_ok s -> Scheduler.num_txns s = num_txns block -> 0 <= target -> swapping s target d ->
  decrease b target d s = Some (s', res) -> decreased target s s' /\
  match res with
  | inl d => swapping s' target d
  | inr wave => renewed s' target /\ forall v, wave = Some v -> passed s' (target - 1) v
  end.
Proof using Type.
  intros Hi En Ht Hsw. destruct d as [|[idx wave]|[idx wave]]; simpl.
  - rewrite En. destruct (Z.leb_spec (num_txns block) target).
    { intros [= <- <-]. split; [by apply decreased_refl|]. split; [by left|done]. }
    destruct (Scheduler.validation_idx s) as [idx wave] eqn:Ei. destruct (Z.ltb_spec target idx).
    + intros [= <- <-]. split; [by apply decreased_refl|done].
    + intros [= <- <-]. split; [by apply decreased_refl|]. split; [|done]. apply renewed_above; [done|]. by rewrite Ei.
  - destruct (negb b && _); [|done]. intros [= <- <-]. by apply trigger_decreased.
  - destruct (Scheduler.exchange_validation_idx _ _ s) as [s1|] eqn:Ex; intros [= <- <-]; [|by split; [apply decreased_refl|]].
    destruct (exchange_decreased _ _ _ _ _ Hi Ht Hsw Ex) as (? & ? & ?). split_and!; try done. by intros v [= <-].
Qed.

(** ** Stages of jobs *)
Lemma stage_sinv S S' (k : TxnIndex) : sinv S -> decreased (k + 1) (scheduler S) (scheduler S') ->
  world_of S' = world_of S -> tasks S' = tasks S -> halting S' = halting S ->
  (forall j : TxnIndex, j <> k -> finishing S' !! j = finishing S !! j /\ aborts S' !! j = aborts S !! j) -> link S' k ->
  (finishing S' !! k = finishing S !! k \/ forall x st, finishing S' !! k = Some (x, st) -> 0 <= k /\ finishing_ok (scheduler S') k st) ->
  (aborts S' !! k = aborts S !! k \/ forall x st, aborts S' !! k = Some (x, st) -> 0 <= k /\ abort_ok (scheduler S') k st) ->
  (Scheduler.done_marker (scheduler S) = false -> commit_idx (world_of S) <= k) ->
  renewed (scheduler S') (k + 1) \/ (pending S k -> pending S' k) -> sinv S'.
Proof using Type.
  intros Hs Hdec Ew Et Eh Hoth Hlk Hkf Hka Hc Hp. destruct Hdec as [Est En Ec Ed Ecv Eval Etr Ha Hi].
  assert (forall i, Scheduler.status (scheduler S') i = Scheduler.status (scheduler S) i) as Hst by (intros i; unfold Scheduler.status; by rewrite Est).
  assert (waves S') as Hwv.
  { apply (waves_step S); try done; [apply Hs| | | |].
    - intros t i v. rewrite Et. by left.
    - intros i v. rewrite Eval. by left.
    - intros i. destruct (decide (i = k)) as [->|Hne]; [done|]. left. by apply Hoth.
    - intros i. destruct (decide (i = k)) as [->|Hne]; [done|]. left. by apply Hoth. }
  apply (sinv_calm S); try done; try (by rewrite Ec).
  - intros i. by rewrite Ecv.
  - intros i. by rewrite Hst.
  - intros i. destruct (decide (i = k)) as [->|Hne]; [done|]. destruct (Hoth i Hne). apply (link_calm S); try done. apply Hs.
  - intros t i inc. rewrite Et. unfold executed_before. rewrite Hst. by apply Hs.
  - intros Hd j Hj Ht. rewrite Ec, Etr; [done|]. specialize (Hc Hd). lia.
  - intros Hd i Hin. assert ((forall v, passed (scheduler S') i v -> stale (scheduler S') i v) \/ forall j : TxnIndex, 0 <= j < i -> pending S j -> pending S' j) as Hor.
    { destruct (decide (k < i)) as [Hlt|Hge].
      - destruct Hp as [[?|Hr]|Hp]; [lia|left; intros v; apply Hr; lia|right]. intros j Hj. destruct (decide (j = k)) as [->|Hne]; [done|].
        destruct (Hoth j Hne). by apply pending_calm.
      - right. intros j Hj. destruct (Hoth j ltac:(lia)). by apply pending_calm. }
    destruct Hor as [Hor|Hor]; [intros _; by apply tv_stale|]. apply tv_calm; try done.
    + intros t inc _ _. by rewrite Hst.
    + intros v. rewrite Eval. by left.
    + intros t v. rewrite Et. by left.
Qed.

(** A stage of [finish_execution] after the status was set. *)
Lemma finishing_sinv S s' (i : TxnIndex) inc suffix st x : sinv S -> finishing S !! i = Some (inc, suffix, st) -> st <> XLock ->
  decreased (i + 1) (scheduler S) s' -> (forall st', x = Some st' -> st' <> XLock /\ finishing_ok s' i st') ->
  renewed s' (i + 1) \/ suffix = false \/ (exists v, st = XRequire v) \/ (exists st', x = Some st' /\ match st' with XRequire _ => False | _ => True end) ->
  sinv (set_finishing i (option_map (pair (inc, suffix)) x) (set_scheduler s' S)).
Proof using Type.
  clear module_kind counters_in_storage block_ok.
  intros Hs Hfi Hst Hdec Hx Hp. pose proof (si_link _ Hs i) as Hl. assert (forall n, late (Some (inc, suffix, st)) n -> late (option_map (pair (inc, suffix)) x) n) as Hlate.
  { intros n [?|(suf & st' & [= -> -> ->] & _)]; [done|]. destruct x as [st''|]; [|by left]. right. exists suf, st''. split; [done|]. by apply Hx. }
  assert (Scheduler.status (scheduler S) i <> Scheduler.Halted -> commit_idx (world_of S) <= i) as Hc.
  { intros Hn. unfold link, running, idle_executed in Hl. rewrite Hfi in Hl. destruct (Scheduler.status (scheduler S) i) as [n []|n|n|n|n|n|]; naive_solver. }
  apply (stage_sinv S _ i); simpl; auto.
  - intros j Hj. by rewrite partial_set, bool_decide_eq_false_2.
  - assert (Scheduler.status s' i = Scheduler.status (scheduler S) i) as E by (unfold Scheduler.status; by rewrite (dec_status _ _ _ Hdec)).
    unfold link, running in *. simpl. rewrite E, partial_set, bool_decide_eq_true_2 by done. rewrite Hfi in Hl.
    destruct (Scheduler.status (scheduler S) i) as [n []|n|n|n|n|n|]; naive_solver.
  - right. intros [] st'. rewrite partial_set, bool_decide_eq_true_2 by done. destruct x as [st''|]; [|done]. intros [= <- <- <-].
    split; [by eapply (wv_finishing _ (si_waves _ Hs))|]. by apply Hx.
  - intros Hd. apply Hc. by apply not_halted.
  - destruct Hp as [?|Hp]; [by left|right]. unfold pending. simpl. rewrite partial_set, bool_decide_eq_true_2, Hfi by done.
    destruct Hp as [->|[(v & ->)|(st' & -> & Hst')]]; [naive_solver..|]. intros [?|[?|(n & st1 & [= -> -> ->] & _)]]; auto. right. right. by exists n, st'.
Qed.

(** A status is set, and the stage of a job with it. *)
Lemma set_stage_sinv S S' (i : TxnIndex) x : sinv S -> Scheduler.status (scheduler S) i <> Scheduler.Halted ->
  scheduler S' = Scheduler.set_status i x (scheduler S) -> x <> Scheduler.Halted -> world_of S' = world_of S -> tasks S' = tasks S -> halting S' = halting S ->
  (forall j : TxnIndex, j <> i -> finishing S' !! j = finishing S !! j /\ aborts S' !! j = aborts S !! j) -> link S' i ->
  (forall n, executed_before (scheduler S) i n -> executed_before (scheduler S') i n) ->
  (forall n, executed_before (scheduler S) i n -> x = Scheduler.Executed n <-> Scheduler.status (scheduler S) i = Scheduler.Executed n) ->
  (finishing S' !! i = finishing S !! i \/ forall y st, finishing S' !! i = Some (y, st) -> 0 <= i /\ finishing_ok (scheduler S') i st) ->
  (aborts S' !! i = aborts S !! i \/ forall y st, aborts S' !! i = Some (y, st) -> 0 <= i /\ abort_ok (scheduler S') i st) ->
  (pending S i -> pending S' i) -> sinv S'.
Proof using Type.
  clear module_kind counters_in_storage block_ok. intros Hs Hnh Es Hx Ew Et Eh Hoth Hlk Hb Hex Hkf Hka Hp.
  assert (forall j, j <> i -> Scheduler.status (scheduler S') j = Scheduler.status (scheduler S) j) as Hst.
  { intros j Hj. by rewrite Es, status_set, bool_decide_eq_false_2. }
  assert (Scheduler.status (scheduler S') i = x) as Hsi by (by rewrite Es, status_set, bool_decide_eq_true_2).
  assert (forall j, pending S j -> pending S' j) as Hpj.
  { intros j. destruct (decide (j = i)) as [->|Hne]; [done|]. destruct (Hoth j Hne). by apply pending_calm. }
  apply (sinv_calm S); try done; try (by rewrite Es).
  - intros j. destruct (decide (j = i)) as [->|Hne]; [by rewrite Hsi|by rewrite Hst].
  - intros j. destruct (decide (j = i)) as [->|Hne]; [done|]. destruct (Hoth j Hne). apply (link_calm S); auto. apply Hs.
  - intros t j n Hin Hv. rewrite Et in Hin. pose proof (si_bound _ Hs _ _ _ Hin Hv) as Hbe. destruct (decide (j = i)) as [->|Hne]; [auto|].
    unfold executed_before in *. by rewrite Hst.
  - apply (waves_step S); try (by rewrite Es); [apply Hs|rewrite Es; apply (wv_index _ (si_waves _ Hs))|..].
    + intros t j v. rewrite Et. by left.
    + intros j v. rewrite Es. by left.
    + intros j. destruct (decide (j = i)) as [->|Hne]; [done|]. left. by apply Hoth.
    + intros j. destruct (decide (j = i)) as [->|Hne]; [done|]. left. by apply Hoth.
  - intros Hd j Hj. apply tv_calm; auto; [by rewrite Es| | |].
    + intros t n Hin Hv. destruct (decide (j = i)) as [->|Hne]; [|by rewrite Hst]. rewrite Hsi. apply Hex. by eapply si_bound.
    + intros v. rewrite Es. by left.
    + intros t v. rewrite Et. by left.
Qed.

Lemma lock_status S (i : TxnIndex) inc suffix : link S i -> finishing S !! i = Some (inc, suffix, XLock) ->
  Scheduler.status (scheduler S) i = Scheduler.Halted \/ runs (Scheduler.status (scheduler S) i) inc /\ running S i inc.
Proof using Type.
  clear module_kind counters_in_storage block_ok. intros Hl Hfi. unfold link, runs, running, late in *. rewrite Hfi in Hl.
  destruct (Scheduler.status (scheduler S) i) as [n []|n|n|n|n|n|]; naive_solver.
Qed.

Lemma executed_sinv S (i : TxnIndex) inc suffix : sinv S -> finishing S !! i = Some (inc, suffix, XLock) -> locked_by_abort S i = false ->
  sinv (set_finishing i (Some (inc, suffix, XTake)) (set_scheduler (Scheduler.set_executed_status i inc (scheduler S)) S)).
Proof using Type.
  intros Hs Hfi Hla. pose proof (wv_finishing _ (si_waves _ Hs) _ _ _ Hfi) as [Hi0 _]. destruct (lock_status _ _ _ _ (si_link _ Hs i) Hfi) as [E|[Hr Hrun]].
  - unfold Scheduler.set_executed_status. rewrite E. apply (stage_sinv S _ i); simpl; auto.
    + apply decreased_refl, (wv_index _ (si_waves _ Hs)).
    + intros j Hj. by rewrite partial_set, bool_decide_eq_false_2.
    + unfold link. simpl. by rewrite E.
    + right. intros y st. rewrite partial_set, bool_decide_eq_true_2 by done. by intros [= <- <-].
    + intros Hd. by apply (not_halted S i Hs) in Hd.
    + right. unfold pending. simpl. rewrite partial_set, bool_decide_eq_true_2, Hfi by done. intros [?|[?|(n & st1 & [= -> -> <-] & _)]]; auto. right. right. by exists n, XTake.
  - assert (Scheduler.set_executed_status i inc (scheduler S) = Scheduler.set_status i (Scheduler.Executed inc) (scheduler S)) as ->.
    { unfold Scheduler.set_executed_status. by destruct Hr as [->|[->| ->]]. }
    apply (set_stage_sinv S _ i (Scheduler.Executed inc)); simpl; auto.
    + by destruct Hr as [->|[->| ->]].
    + intros j Hj. by rewrite partial_set, bool_decide_eq_false_2.
    + destruct Hrun as (He & Hn & [[? _]|(_ & Hidle)]); [congruence|]. unfold link. simpl. rewrite status_set, partial_set, !bool_decide_eq_true_2 by done.
      split_and!; try done; [|right; by exists suffix, XTake]. destruct He as [?|(d & Hd)]; [done|]. unfold locked_by_abort in Hla. by rewrite Hd in Hla.
    + intros n. unfold executed_before. rewrite status_set, bool_decide_eq_true_2 by done. destruct Hr as [->|[->| ->]]; lia.
    + intros n. unfold executed_before. destruct Hr as [->|[->| ->]]; (split; [intros [= ->]; lia|done]).
    + right. intros y st. rewrite partial_set, bool_decide_eq_true_2 by done. by intros [= <- <-].
    + unfold pending. simpl. rewrite partial_set, bool_decide_eq_true_2, Hfi by done. intros [?|[?|(n & st1 & [= -> -> <-] & _)]]; auto. right. right. by exists n, XTake.
Qed.

Lemma require_sinv S (i : TxnIndex) inc suffix wave : sinv S -> finishing S !! i = Some (inc, suffix, XRequire wave) ->
  sinv (set_finishing i None (set_tasks (VTask i inc wave :: tasks S) (set_scheduler (Scheduler.require_wave i wave (scheduler S)) S))).
Proof using Type.
  clear module_kind counters_in_storage block_ok. intros Hs Hfi. set (s' := Scheduler.require_wave i wave (scheduler S)). assert (decreased (i + 1) (scheduler S) s') as Hdec.
  { assert (forall j, triggered s' j = triggered (scheduler S) j) as Htr.
    { intros j. unfold triggered, s', Scheduler.require_wave. rewrite validation_set. by case_bool_decide; subst. }
    split; try done.
    - intros j. unfold validated, s', Scheduler.require_wave. rewrite validation_set. by case_bool_decide; subst.
    - apply advances_index; [done|]. intros j. rewrite Htr. lia.
    - apply (advances_index_ok (scheduler S)); [done| |apply (wv_index _ (si_waves _ Hs))]. intros j. rewrite Htr. lia. }
  pose proof (wv_finishing _ (si_waves _ Hs) _ _ _ Hfi) as [_ Hp]. simpl in Hp.
  assert (sinv (set_finishing i None (set_scheduler s' S))) as Hs1.
  { apply (finishing_sinv S s' i inc suffix (XRequire wave) None); try done. right. right. left. by exists wave. }
  change (sinv (set_tasks (VTask i inc wave :: tasks S) (set_finishing i None (set_scheduler s' S)))).
  apply set_tasks_sinv; [done|]. intros t [->|?]%elem_of_cons; [right|by left]. pose proof (si_link _ Hs i) as Hl. unfold link, running, late in Hl. rewrite Hfi in Hl. split.
  - intros j n [= <- <-]. unfold executed_before. simpl. change (Scheduler.status s' i) with (Scheduler.status (scheduler S) i).
    destruct (Scheduler.status (scheduler S) i) as [n []|n|n|n|n|n|]; naive_solver lia.
  - intros j v [= <- <-]. split; [by apply (adv_passed _ _ (dec_advances _ _ _ Hdec))|]. simpl. intros Hd _ _. change (Scheduler.status s' i) with (Scheduler.status (scheduler S) i).
    intros Hne r. unfold live_reads. simpl. pose proof (not_halted S i Hs Hd).
    assert (active (world_of S) !! i = None \/ (exists todo, active (world_of S) !! i = Some (Aborting todo))) as Hact.
    { destruct (Scheduler.status (scheduler S) i) as [n []|n|n|n|n|n|]; naive_solver. }
    assert (i ∈ aborted (world_of S)) as Hab by (destruct (Scheduler.status (scheduler S) i) as [n []|n|n|n|n|n|]; naive_solver).
    destruct Hact as [->|[todo ->]]; rewrite ?bool_decide_eq_true_2 by done; by intros ?%not_elem_of_nil.
Qed.

Lemma finish_execution_sinv S (i : TxnIndex) S' : sinv S -> finish_execution S i = Some S' -> sinv S'.
Proof using Type.
  intros Hs. unfold finish_execution. destruct (finishing S !! i) as [[[inc suffix] st]|] eqn:Hfi; simpl; [|done].
  pose proof (wv_index _ (si_waves _ Hs)) as Hidx. pose proof (wv_finishing _ (si_waves _ Hs) _ _ _ Hfi) as [Hi0 Hok].
  assert (forall s' st', decreased (i + 1) (scheduler S) s' -> st <> XLock -> st' <> XLock -> finishing_ok s' i st' ->
    renewed s' (i + 1) \/ suffix = false \/ (exists v, st = XRequire v) \/ (exists st1, Some st' = Some st1 /\ match st1 with XRequire _ => False | _ => True end) ->
    sinv (set_finishing i (Some (inc, suffix, st')) (set_scheduler s' S))) as Hgo.
  { intros s' st' Hd H1 H2 H3 H4. apply (finishing_sinv S s' i inc suffix st (Some st')); try done. by intros st1 [= <-]. }
  destruct st as [| |[|dep deps] min_dep| |cur_wave d|wave].
  - destruct (locked_by_abort S i) eqn:El; [done|]. intros [= <-]. by apply executed_sinv.
  - intros [= <-]. apply Hgo; try done. right. right. right. by eexists.
  - intros [= <-]. apply Hgo; try done; [by destruct min_dep|]. right. right. right. by eexists.
  - unfold Scheduler.resume. destruct (Scheduler.status (scheduler S) dep) as [| |n| | | |] eqn:Est; try done.
    + intros [= <-]. set (S1 := set_scheduler (Scheduler.set_status dep (Scheduler.Ready n Scheduler.Wakeup) (scheduler S)) S).
      assert (sinv S1) as Hs1 by (eapply status_move_sinv; [done|done|done|]; exists n; auto).
      apply (finishing_sinv S1 (scheduler S1) i inc suffix (XResume (dep :: deps) min_dep) (Some (XResume deps _))); try done.
      * by intros st1 [= <-].
      * right. right. right. by eexists.
    + intros [= <-]. apply Hgo; try done. right. right. right. by eexists.
  - destruct (Scheduler.validation_idx (scheduler S)) as [cv cur_wave] eqn:Ei. destruct (Z.ltb_spec i cv).
    + intros [= <-]. assert (passed (scheduler S) i cur_wave) as Hp by (destruct Hidx as (? & ? & _); unfold passed; rewrite Ei in *; simpl in *; lia).
      apply Hgo; [by apply decreased_refl|done|by destruct suffix|by destruct suffix|]. right. destruct suffix; [|by left]. right. right. by eexists.
    + intros [= <-]. change (sinv (set_finishing i (option_map (pair (inc, suffix)) None) (set_scheduler (scheduler S) S))).
      apply (finishing_sinv S _ i inc suffix XLoad); try done. left. apply renewed_above; [done|]. rewrite Ei. simpl. lia.
  - destruct Hok as [Hp Hsw]. destruct (decrease _ _ _ _) as [[s' [d'|wave]]|] eqn:Ed; [..|done]; intros [= <-];
      destruct (decrease_decreased _ _ (i + 1) _ _ _ Hidx (si_num _ Hs) ltac:(lia) Hsw Ed) as [Hdec Hres]; pose proof (adv_passed _ _ (dec_advances _ _ _ Hdec) _ _ Hp) as Hp'.
    + apply Hgo; try done. right. right. right. by eexists.
    + destruct Hres as [Hr Hw]. apply Hgo; try done; [|by left]. destruct wave as [v|]; [|done]. simpl. specialize (Hw v eq_refl). by replace (i + 1 - 1) with i in Hw by lia.
  - intros [= <-]. by eapply require_sinv.
Qed.

Lemma unlocked_finish S (i : TxnIndex) n : locked_by_finish S i = false -> late (finishing S !! i) n -> finishing S !! i = None.
Proof using Type. unfold locked_by_finish. intros Hl [?|(suf & st & E & Hst)]; [done|]. rewrite E in Hl. by destruct st. Qed.

Lemma abort_lock_status S (i : TxnIndex) inc : link S i -> aborts S !! i = Some (inc, ALock) ->
  Scheduler.status (scheduler S) i = Scheduler.Halted \/ Scheduler.status (scheduler S) i = Scheduler.Aborting inc.
Proof using Type.
  clear module_kind counters_in_storage block_ok. intros Hl Hab. unfold link, running, earlier in *. rewrite Hab in Hl.
  destruct (Scheduler.status (scheduler S) i) as [n []|n|n|n|n|n|]; naive_solver.
Qed.

Lemma ready_sinv S (i : TxnIndex) inc : sinv S -> aborts S !! i = Some (inc, ALock) -> locked_by_finish S i = false ->
  sinv (set_abort i (Some (inc, ADecrease DLoad)) (set_scheduler (Scheduler.set_aborted_status i inc (scheduler S)) S)).
Proof using Type.
  intros Hs Hab Hlf. pose proof (si_link _ Hs i) as Hl. pose proof (wv_aborts _ (si_waves _ Hs) _ _ _ Hab) as [Hi0 _].
  destruct (abort_lock_status _ _ _ Hl Hab) as [E|E].
  - unfold Scheduler.set_aborted_status. rewrite E. apply (stage_sinv S _ i); simpl; auto.
    + apply decreased_refl, (wv_index _ (si_waves _ Hs)).
    + intros j Hj. by rewrite partial_set, bool_decide_eq_false_2.
    + unfold link. simpl. by rewrite E.
    + right. intros y st. rewrite partial_set, bool_decide_eq_true_2 by done. by intros [= <- <-].
    + intros Hd. by apply (not_halted S i Hs) in Hd.
    + right. intros _. right. left. simpl. rewrite partial_set, bool_decide_eq_true_2 by done. by eexists.
  - unfold link in Hl. rewrite E in Hl. destruct Hl as (Hlate & Hn & Hin & Hc & [[? _]|[_ Ha]]); [congruence|].
    unfold Scheduler.set_aborted_status. rewrite E. apply (set_stage_sinv S _ i (Scheduler.Ready (inc + 1) Scheduler.Execution)); simpl; auto.
    + by rewrite E.
    + intros j Hj. by rewrite partial_set, bool_decide_eq_false_2.
    + unfold link. simpl. rewrite status_set, partial_set, !bool_decide_eq_true_2 by done. split_and!; try done; [by eapply unlocked_finish| |by right].
      right. exists DLoad. do 2 f_equal. lia.
    + intros n. unfold executed_before. rewrite status_set, bool_decide_eq_true_2, E by done. lia.
    + intros n _. by rewrite E.
    + right. intros y st. rewrite partial_set, bool_decide_eq_true_2 by done. by intros [= <- <-].
    + intros _. right. left. simpl. rewrite partial_set, bool_decide_eq_true_2 by done. by eexists.
Qed.

Lemma abort_stage_sinv S s' (i : TxnIndex) inc d x : sinv S -> fell_back (world_of S) = false -> aborts S !! i = Some (inc, ADecrease d) ->
  decreased (i + 1) (scheduler S) s' -> (exists d', x = Some (inc, ADecrease d') /\ swapping s' (i + 1) d') \/ x = None /\ renewed s' (i + 1) ->
  sinv (set_abort i x (set_scheduler s' S)).
Proof.
  intros Hs Hf Hab Hdec Hx. pose proof (si_link _ Hs i) as Hl. pose proof (wv_aborts _ (si_waves _ Hs) _ _ _ Hab) as [Hi0 _].
  assert (forall n, working (world_of S) i n -> commit_idx (world_of S) <= i) as Hwork.
  { intros n [(p & reads & Ha)|(reads & r & todo & Ha)]; apply (inv_active _ _ _ (sinv_inv _ Hs Hf)) in Ha; lia. }
  assert (forall n, earlier (Some (inc, ADecrease d)) n -> earlier x n) as Hear.
  { intros n [?|(d0 & [= -> _])]; [done|]. destruct Hx as [(d' & -> & _)|[-> _]]; [right; by exists d'|by left]. }
  clear module_kind counters_in_storage block_ok. apply (stage_sinv S _ i); simpl; auto.
  - intros j Hj. by rewrite partial_set, bool_decide_eq_false_2.
  - assert (Scheduler.status s' i = Scheduler.status (scheduler S) i) as E by (unfold Scheduler.status; by rewrite (dec_status _ _ _ Hdec)).
    unfold link, running in *. simpl. rewrite E, partial_set, bool_decide_eq_true_2 by done. rewrite Hab in Hl.
    destruct (Scheduler.status (scheduler S) i) as [n []|n|n|n|n|n|]; naive_solver.
  - right. intros y st. rewrite partial_set, bool_decide_eq_true_2 by done. destruct Hx as [(d' & -> & ?)|[-> _]]; [|done]. by intros [= <- <-].
  - intros Hd. pose proof (not_halted S i Hs Hd) as Hn. unfold link, running, idle_executed in Hl. rewrite Hab in Hl.
    destruct (Scheduler.status (scheduler S) i) as [n []|n|n|n|n|n|]; naive_solver.
  - destruct Hx as [(d' & -> & ?)|[-> ?]]; [|by left]. right. intros _. right. left. simpl. rewrite partial_set, bool_decide_eq_true_2 by done. by eexists.
Qed.

Lemma finish_abort_sinv S (i : TxnIndex) S' : sinv S -> finish_abort S i = Some S' -> fell_back (world_of S') = false -> sinv S'.
Proof.
  intros Hs. unfold finish_abort. destruct (aborts S !! i) as [[inc [| |d]]|] eqn:Hab; simpl; try done.
  - destruct (locked_by_finish S i) eqn:El; [done|]. intros [= <-] _. by apply ready_sinv.
  - pose proof (wv_aborts _ (si_waves _ Hs) _ _ _ Hab) as [Hi0 Hsw]. pose proof (wv_index _ (si_waves _ Hs)) as Hidx.
    destruct (decrease _ _ _ _) as [[s' [d'|wave]]|] eqn:Ed; [..|done]; intros [= <-] Hf;
      destruct (decrease_decreased _ _ (i + 1) _ _ _ Hidx (si_num _ Hs) ltac:(lia) Hsw Ed) as [Hdec Hres].
    + eapply abort_stage_sinv; try done. left. by exists d'.
    + assert (sinv (set_abort i None (set_scheduler s' S))) as Hs1 by (eapply abort_stage_sinv; try done; right; by split; [|apply Hres]).
      apply (sinv_aside (set_abort i None (set_scheduler s' S))); simpl; auto.
Qed.

(** ** Commits *)
Lemma committed_below S (j : TxnIndex) : sinv S -> fell_back (world_of S) = false -> Scheduler.done_marker (scheduler S) = false ->
  0 <= j < commit_idx (world_of S) -> ~ pending S j.
Proof.
  intros Hs Hf Hd Hj. pose proof (si_link _ Hs j) as Hl. pose proof (not_halted S j Hs Hd) as Hn.
  assert (forall n, ~ running S j n) as Hrun.
  { intros n (_ & _ & [[_ [(p & reads & Ha)|(reads & r & todo & Ha)]]|[_ (? & _)]]); [..|lia]; apply (inv_active _ _ _ (sinv_inv _ Hs Hf)) in Ha; lia. }
  assert (finishing S !! j = None /\ aborts S !! j = None /\ active (world_of S) !! j = None) as (E1 & E2 & E3).
  { clear module_kind counters_in_storage block_ok. unfold link, idle_executed in Hl. destruct (Scheduler.status (scheduler S) j) as [n []|n|n|n|n|n|]; naive_solver lia. }
  unfold pending, unsettled. rewrite E1, E2, E3. intros [[]|[[? ?]|(? & ? & ? & _)]]; done.
Qed.

Lemma validate_all (d : VersionedData WriteOp.t K) (i : TxnIndex) reads : (forall r, r ∈ reads -> valid d i r) -> validate_reads d i reads = Ok true.
Proof using Type.
  induction reads as [|r reads IH]; intros Hv; simpl; [done|]. rewrite (Hv r ltac:(by left)). simpl. apply IH. intros r' Hr. apply Hv. by right.
Qed.

(** The reads of a transaction are valid once it can be committed. *)
Lemma good_valid S : let c := commit_idx (world_of S) in sinv S -> fell_back (world_of S) = false -> Scheduler.done_marker (scheduler S) = false ->
  good S c -> validate_reads (data (world_of S)) c (live_reads (world_of S) c) = Ok true.
Proof.
  intros c Hs Hf Hd Hg. apply validate_all. intros r Hr. destruct (Hg r Hr) as [?|(j & Hj & Hp)]; [done|]. by apply committed_below in Hp.
Qed.

(** When [try_commit] commits, the last validation is not stale. *)
Lemma try_commit_good S inc validated_wave : let c := commit_idx (world_of S) in sinv S -> Scheduler.done_marker (scheduler S) = false -> c < num_txns block ->
  Scheduler.status (scheduler S) c = Scheduler.Executed inc -> validated (scheduler S) c = Some validated_wave ->
  Z.max (Scheduler.commit_state (scheduler S)).2 (triggered (scheduler S) c) <= validated_wave -> good S c.
Proof using Type.
  intros c Hs Hd Hc Est Hv Hle. apply (proj1 (si_tv _ Hs Hd c Hc) _ Hv). intros (j & Hj & Hlt). destruct (decide (j = c)) as [->|Hne]; [lia|].
  pose proof (si_commit_wave _ Hs Hd j ltac:(lia)). lia.
Qed.

Lemma commit_step_sinv S S' inc output fees output' cw : let w := world_of S in let c := commit_idx w in
  sinv S -> fell_back w = false -> Scheduler.done_marker (scheduler S) = false -> locked S c = false -> c < num_txns block ->
  Scheduler.status (scheduler S) c = Scheduler.Executed inc -> good S c ->
  outputs (last_input_output w) !! c = Some output -> @commit_status _ _ Empty_set (accumulated_fees w) output = Ok (fees, output') ->
  world_of S' = committed_world w c fees output' -> tasks S' = tasks S -> finishing S' = finishing S -> aborts S' = aborts S ->
  Scheduler.execution_status (scheduler S') = <[c := Scheduler.Committed inc]> (Scheduler.execution_status (scheduler S)) ->
  Scheduler.validation_status (scheduler S') = Scheduler.validation_status (scheduler S) ->
  Scheduler.validation_idx (scheduler S') = Scheduler.validation_idx (scheduler S) ->
  Scheduler.condvars (scheduler S') = Scheduler.condvars (scheduler S) -> Scheduler.num_txns (scheduler S') = Scheduler.num_txns (scheduler S) ->
  Scheduler.commit_state (scheduler S') = (c + 1, cw) -> Z.max (Scheduler.commit_state (scheduler S)).2 (triggered (scheduler S) c) <= cw ->
  (Scheduler.done_marker (scheduler S') = false -> block_truncated output' = false) ->
  (Scheduler.done_marker (scheduler S') = true -> c + 1 = num_txns block \/ block_truncated output' = true /\ halting S' = Some (true, 0)) ->
  (halting S' = None \/ halting S' = Some (true, 0) /\ block_truncated output' = true /\ Scheduler.done_marker (scheduler S') = true) -> sinv S'.
Proof.
  intros w c Hs Hf Hd Hlk Hcn Est Hg Ho Hcs Ew Et Ef Ea Ex Ev Ei Ecv En Ecst Hcw Hd1 Hd2 Hh.
  pose proof (si_link _ Hs c) as Hl. unfold link in Hl. rewrite Est in Hl. destruct Hl as (Hab & Hlate & _ & (_ & Hact & Hna & _ & [reads Hin])).
  apply orb_false_iff in Hlk as [Hlf _]. pose proof (unlocked_finish _ _ _ Hlf Hlate) as Hfi.
  assert (step block w (committed_world w c fees output')) as Hst.
  { eapply (step_commit block w (live_reads w c)); try done; [by apply Hs|by eapply executed_reads; [apply Hs|]|by apply good_valid]. }
  destruct (sinv_step S _ Hs Hst ltac:(done)) as (Hw & Hr & He). pose proof (inv_commit _ _ _ Hw) as Hc0. fold w c in Hc0.
  assert (forall i, i <> c -> untouched w (committed_world w c fees output') i) as Hun.
  { intros i Hi. split; try done. simpl. by rewrite lookup_insert_ne. }
  assert (forall i, i <> c -> Scheduler.status (scheduler S') i = Scheduler.status (scheduler S) i) as Hsi.
  { intros i Hi. unfold Scheduler.status. by rewrite Ex, lookup_insert_ne. }
  assert (Scheduler.status (scheduler S') c = Scheduler.Committed inc) as Hsc by (unfold Scheduler.status; by rewrite Ex, lookup_insert_eq).
  assert (forall i, Scheduler.validation (scheduler S') i = Scheduler.validation (scheduler S) i) as Eval by (intros i; unfold Scheduler.validation; by rewrite Ev).
  assert (forall i, triggered (scheduler S') i = triggered (scheduler S) i /\ validated (scheduler S') i = validated (scheduler S) i) as Htr.
  { intros i. unfold triggered, validated. by rewrite Eval. }
  assert (advances (scheduler S) (scheduler S')) as Hadv by (apply advances_index; [done|]; intros j; destruct (Htr j); lia).
  assert (forall j, pending S j -> pending S' j) as Hp.
  { intros j. unfold pending. rewrite Ew, Ef, Ea. intros [Hu|?]; [left|by right]. destruct (decide (j = c)) as [->|Hne]; [|by eapply untouched_unsettled; [apply Hun|]].
    unfold unsettled in Hu. by rewrite Hact in Hu. }
  assert (forall i r, holds S i r -> holds S' i r) as Hhold by (intros i r; apply holds_same; [by rewrite Ew|auto]).
  assert (live_reads (world_of S') c = live_reads w c) as Elc by (by rewrite Ew).
  split; rewrite ?Ew, ?Ecst, ?En; try done; simpl.
  - apply Hs.
  - intros i. destruct (decide (i = c)) as [->|Hne].
    + unfold link. rewrite Hsc, Ew, Ef, Ea. split_and!; try done; simpl; lia.
    + apply (link_frame S); rewrite ?Ew, ?Ef, ?Ea; auto; [| |apply Hs]; simpl; fold w c; lia.
  - intros t i n. rewrite Et. intros H1 H2. pose proof (si_bound _ Hs t i n H1 H2) as Hb. unfold executed_before in *.
    destruct (decide (i = c)) as [->|Hne]; [rewrite Hsc; by rewrite Est in Hb|by rewrite Hsi].
  - apply (waves_step S); rewrite ?Et, ?Ef, ?Ea; auto; [apply Hs| |].
    + apply (advances_index_ok (scheduler S)); [done| |apply (wv_index _ (si_waves _ Hs))]. intros j. destruct (Htr j). lia.
    + intros i v. rewrite (proj2 (Htr i)). by left.
  - intros _ j Hj. rewrite (proj1 (Htr j)). destruct (decide (j = c)) as [->|Hne]; [lia|]. pose proof (si_commit_wave _ Hs Hd j ltac:(fold w c; lia)). lia.
  - intros _ i Hi. destruct (decide (i = c)) as [->|Hne].
    + apply tv_good; [|by rewrite Hsc]. intros r. rewrite Elc. intros Hr'. by apply Hhold, Hg.
    + pose proof (si_tv _ Hs Hd i Hi) as Htv. apply (tv_keep S); try done.
      * apply good_keep; [|auto]. rewrite Ew. by apply untouched_reads, Hun.
      * intros t n _ _. rewrite Ew, Hsi, (un_inputs _ _ _ (Hun i Hne)) by done. naive_solver.
      * intros v. rewrite (proj2 (Htr i)). by left.
      * intros t v. rewrite Et. by left.
  - intros (i & Hhi). pose proof (si_going _ Hs Hd) as Hgo. rewrite (si_halted _ Hs) in Hgo; [done|]. exists i. rewrite Ecv in Hhi. destruct Hhi as [Hhi|?]; [left|by right].
    destruct (decide (i = c)) as [->|Hne]; [by rewrite Hsc in Hhi|by rewrite <-Hsi].
  - intros called n E. rewrite E in Hh. destruct Hh as [?|([= -> ->] & ? & ?)]; [done|]. by split_and!.
  - intros E. destruct (Hd2 E) as [?|[? ?]]; [by left|]. right. split; [done|]. left. exists 0. split; [done|]. lia.
Qed.

Lemma commit_wave_sinv S cw : sinv S -> (Scheduler.commit_state (scheduler S)).2 <= cw ->
  sinv (set_scheduler (Scheduler.set_commit_state ((Scheduler.commit_state (scheduler S)).1, cw) (Scheduler.done_marker (scheduler S)) (scheduler S)) S).
Proof using Type.
  intros Hs Hle. apply (sinv_calm S); simpl; auto; try done.
  - intros i. apply (link_calm S); try done. apply Hs.
  - intros t i inc. apply (si_bound _ Hs).
  - apply (waves_step S); simpl; auto; [apply Hs|by apply advances_index|apply (wv_index _ (si_waves _ Hs))].
  - intros _ j _. simpl. change (triggered (Scheduler.set_commit_state _ _ (scheduler S)) j) with (triggered (scheduler S) j). lia.
Qed.

Lemma commit_sinv S S' : sinv S -> fell_back (world_of S) = false -> commit block S = Some S' -> sinv S'.
Proof.
  intros Hs Hf. unfold commit, Scheduler.try_commit. pose proof (si_commit _ Hs) as Ec. destruct (Scheduler.commit_state (scheduler S)) as [c cw] eqn:Ecs. simpl in Ec |- *.
  subst c. set (c := commit_idx (world_of S)) in *. destruct (_ || _ || _) eqn:Eg; [done|].
  apply orb_false_iff in Eg as [[Hh Hlk]%orb_false_iff Hc%negb_false_iff%Z.ltb_lt].
  destruct (Scheduler.status (scheduler S) c) as [| | |inc| | |] eqn:Est; try solve [intros [= <-]; by apply (sinv_aside S); simpl; auto].
  set (cw' := Z.max cw _). assert (forall b, b = Scheduler.done_marker (scheduler S) -> sinv (set_scheduler (Scheduler.set_commit_state (c, cw') b (scheduler S)) S)) as Hno.
  { intros b ->. pose proof (commit_wave_sinv S cw' Hs) as H. rewrite Ecs in H. apply H. simpl. lia. }
  destruct (Scheduler.maybe_max_validated_wave _) as [v|] eqn:Ev; [|intros [= <-]; by apply Hno]. destruct (Z.leb_spec (Z.max cw' (Scheduler.required_wave (Scheduler.validation (scheduler S) c))) v);
    [|intros [= <-]; by apply Hno].
  assert (Scheduler.done_marker (scheduler S) = false) as Hd.
  { destruct (Scheduler.done_marker (scheduler S)) eqn:Hd; [|done]. pose proof (inv_commit _ _ _ (sinv_inv _ Hs Hf)) as Hc0. fold c in Hc0.
    destruct (si_done _ Hs Hd) as [E|(_ & [(n & E & _)|[_ E]])]; [fold c in E; lia|by rewrite E in Hh|]. rewrite E in Est; [done|lia]. }
  assert (good S c) as Hg by (eapply try_commit_good; try done; rewrite Ecs; unfold triggered; fold c; simpl; lia).
  assert (halting S = None) as Ehl by (destruct (halting S) as [[b n]|] eqn:E; [|done]; destruct (si_halting _ Hs b n E) as (_ & _ & ?); congruence).
  destruct (outputs _ !! c) as [output|] eqn:Eo; simpl; [|done]. destruct (commit_status _ output) as [[fees output']| |] eqn:Ecst; try done.
  rewrite (si_num _ Hs), Hd. intros [= <-]. set (S1 := set_world _ _).
  assert (Scheduler.done_marker (scheduler S1) = (c + 1 =? num_txns block)) as Hd1 by (simpl; by destruct (c + 1 =? num_txns block)).
  unfold halt. rewrite Hd1. assert (Z.max (Scheduler.commit_state (scheduler S)).2 (triggered (scheduler S) c) <= cw') as Hcw by (rewrite Ecs; simpl; unfold triggered; lia).
  destruct (Z.eqb_spec (c + 1) (num_txns block)) as [El|El]; simpl.
  - apply (commit_step_sinv S S1 inc output fees output' cw'); try done; try (by left); try (by right); by rewrite Hd1.
  - destruct (block_truncated output') eqn:Eb.
    + apply (commit_step_sinv S _ inc output fees output' cw'); try done; try (by left); try (by right); by rewrite Hd1.
    + apply (commit_step_sinv S S1 inc output fees output' cw'); try done; try (by left); try (by right); by rewrite Hd1.
Qed.

Lemma halt_step_sinv S S' : sinv S -> halt_step block S = Some S' -> sinv S'.
Proof using Type.
  intros Hs. unfold halt_step. destruct (halting S) as [[b n]|] eqn:Eh; simpl; [|done]. destruct (si_halting _ Hs b n Eh) as (-> & Hhalt & Hd).
  pose proof (si_done _ Hs Hd) as Hdone. destruct (Z.ltb_spec n (num_txns block)).
  - intros [= <-]. set (s' := Scheduler.resolve_condvar n (scheduler S)). assert (forall i, Scheduler.status s' i = if bool_decide (i = n) then Scheduler.Halted else Scheduler.status (scheduler S) i) as Hst.
    { intros i. unfold s', Scheduler.resolve_condvar. rewrite status_set. case_bool_decide; [done|]. by destruct (Scheduler.status (scheduler S) n) as [? []| | | | | |]. }
    assert (Scheduler.num_txns s' = Scheduler.num_txns (scheduler S) /\ Scheduler.commit_state s' = Scheduler.commit_state (scheduler S) /\
      Scheduler.done_marker s' = Scheduler.done_marker (scheduler S) /\ Scheduler.validation_idx s' = Scheduler.validation_idx (scheduler S) /\
      Scheduler.validation_status s' = Scheduler.validation_status (scheduler S)) as (E1 & E2 & E3 & E4 & E5).
    { unfold s', Scheduler.resolve_condvar. by destruct (Scheduler.status (scheduler S) n) as [? []| | | | | |]. }
    assert (forall i, Scheduler.validation s' i = Scheduler.validation (scheduler S) i) as Eval by (intros i; unfold Scheduler.validation; by rewrite E5).
    assert (forall i, triggered s' i <= triggered (scheduler S) i <= triggered s' i) as Htr by (intros i; unfold triggered; rewrite Eval; lia).
    clearbody s'. split; simpl; rewrite ?E1, ?E2, ?E3, ?Hd; try done; try apply Hs.
    + intros i. destruct (decide (i = n)) as [->|Hne]; [unfold link; simpl; by rewrite Hst, bool_decide_eq_true_2|].
      apply (link_calm S); try done; [simpl; by rewrite Hst, bool_decide_eq_false_2|apply Hs].
    + intros t i inc Hin Hv. unfold executed_before. rewrite Hst. case_bool_decide; [done|]. by apply (si_bound _ Hs t).
    + assert (advances (scheduler S) s') as Ha by (apply advances_index; [done|apply Htr]). apply (waves_step S); simpl; auto; [apply Hs| |].
      * apply (advances_index_ok (scheduler S)); [done|apply Htr|apply (wv_index _ (si_waves _ Hs))].
      * intros i v. unfold validated. rewrite Eval. by left.
    + intros b m [= <- <-]. done.
    + intros _. destruct Hdone as [?|(_ & [(m & E & Hm)|[E _]])]; [by left| |congruence]. right. split; [done|]. left. exists (n + 1). split; [done|].
      assert (m = n) as -> by congruence. intros i Hi. rewrite Hst. case_bool_decide; [done|]. apply Hm. lia.
  - intros [= <-]. destruct Hs. split; simpl; try done; [by destruct si_waves0; split|]. intros _. destruct Hdone as [?|(_ & [(m & E & Hm)|[E _]])]; [by left| |congruence]. right. split; [done|].
    right. split; [done|]. assert (m = n) as -> by congruence. intros i Hi. apply Hm. lia.
Qed.

(** ** All steps *)
Lemma make_sinv S m S' : sinv S -> fell_back (world_of S) = false -> make block S m = Some S' -> fell_back (world_of S') = false -> sinv S'.
Proof.
  intros Hs Hf0. destruct m as [|n| |n|n|n|i|i|i| |i|]; simpl; intros Hm Hf.
  - by eapply next_task_sinv.
  - destruct (tasks S !! n) as [t|] eqn:Et; simpl in Hm; [|done]. eapply validate_sinv; [done|by eapply list_elem_of_lookup_2|intros t'; apply others_in|done|done].
  - by eapply claim_index_sinv.
  - destruct (rechecks S !! n) as [i|]; simpl in Hm; [|done]. by eapply recheck_sinv.
  - destruct (picks S !! n) as [i|]; simpl in Hm; [|done]. by eapply incarnate_sinv.
  - destruct (wakes S !! n) as [i|]; simpl in Hm; [|done]. by eapply wake_sinv.
  - by eapply work_sinv.
  - by eapply finish_execution_sinv.
  - by eapply finish_abort_sinv.
  - by eapply commit_sinv.
  - destruct (hook (world_of S) i) as [w'|] eqn:Eh; simpl in Hm; [|done]. injection Hm as <-. by eapply hook_sinv.
  - by eapply halt_step_sinv.
Qed.
End safety.
