(* ===== verification/ScheduledSTM.v ===== *)
(** * Parallel execution under the scheduler is sequential execution

    Every execution under the scheduler is an execution of the transition system of
    [BlockExecutor], and once the scheduler is done its results are those of
    sequential execution.  The block of [Schedules] is executed by workers that abort,
    wait for a dependency and are woken up. *)

From S2P Require Import Prelude Collections Aggregator ChangeSet MVHashMap BlockExecutor SequentialState ParallelInvariant ReadStability BlockSTM Schedules Scheduler ScheduledExecution SchedulerSafety.

Section scheduled_stm.
Context {bcs : Bcs128} {bcs_laws : Bcs128Laws} {types : ExecutorTypes} {config : ExecutorConfig}.
Context (kind : K -> item) (block : list prog).

Lemma start_sinv : sinv kind block (start_system block).
Proof.
  split; simpl; try done.
  - constructor.
  - apply est_start_world.
  - intros i. unfold link, Scheduler.status. simpl. rewrite lookup_empty. simpl. split_and!; try done; by left.
  - intros t i inc Hin. by apply not_elem_of_nil in Hin.
  - split; simpl; try done.
    + split_and!; simpl; [lia|lia|by left].
    + intros t i v Hin. by apply not_elem_of_nil in Hin.
  - intros _ i _. split; simpl; [done|]. intros t v Hin. by apply not_elem_of_nil in Hin.
  - intros (i & [E|E]); done.
Qed.

(** Only a conflict of modules sends a block to sequential execution, for good. *)
Lemma turn_fell_back w i w' : turn w i = Some w' -> fell_back w = true -> fell_back w' = true.
Proof. intros Ht. eapply (step_fell_back block). by eapply turn_step. Qed.

Lemma halt_read_fell_back w i w' : halt_read w i = Some w' -> fell_back w' = fell_back w.
Proof.
  unfold halt_read. destruct (active w !! i) as [[inc [r|key continue] reads| |]|]; try done. simpl. destruct (is_module_path key); [done|]. by intros [= <-].
Qed.

Lemma halt_world b S : world_of (halt b S) = world_of S.
Proof. unfold halt. by destruct (Scheduler.done_marker (scheduler S)). Qed.

Lemma work_fell_back S i S' : work S i = Some S' -> fell_back (world_of S) = true -> fell_back (world_of S') = true.
Proof.
  unfold work. destruct (Scheduler.condvars (scheduler S) !! i) as [[]|]; [done|by intros [= <-]| |].
  - destruct (halt_read _ i) as [w'|] eqn:E; simpl; [|done]. intros [= <-]. simpl. by rewrite (halt_read_fell_back _ _ _ E).
  - destruct (asking S !! i) as [j|].
    + destruct (Scheduler.wait_for_dependency i j (scheduler S)) as [s [[]| |]]; try done; try by intros [= <-].
      destruct (halt_read _ i) as [w'|] eqn:E; simpl; [|done]. intros [= <-]. simpl. by rewrite (halt_read_fell_back _ _ _ E).
    + destruct (meets_dependency _ i); [by intros [= <-]|]. unfold execute. destruct (turn (world_of S) i) as [w'|] eqn:Et; simpl; [|done].
      pose proof (turn_fell_back _ _ _ Et) as Hf. destruct (active (world_of S) !! i) as [[|inc reads r []|[]]|]; try (by intros [= <-]).
      * destruct (record _ _ _ _) as [io []]; intros [= <-]; rewrite ?halt_world; done.
      * destruct (aborts S !! i) as [[inc st]|]; simpl; [|done]. by intros [= <-].
Qed.

Lemma make_fell_back S m S' : make block S m = Some S' -> fell_back (world_of S) = true -> fell_back (world_of S') = true.
Proof.
  destruct m as [|n| |n|n|n|i|i|i| |i|]; simpl.
  - unfold next_task. destruct (Scheduler.done_marker _); [done|]. destruct (Scheduler.prefer_validate _).
    + destruct (Scheduler.validation_idx _). by intros [= <-].
    + destruct (_ <? _); by intros [= <-].
  - destruct (tasks S !! n) as [[| |i inc v|i inc v []|i inc v|]|]; simpl; try done.
    + destruct (Scheduler.exchange_validation_idx _ _ _); by intros [= <-].
    + destruct (Scheduler.is_executed _ _ _); by intros [= <-].
    + destruct (inputs _ !! i); simpl; [|done]. by intros [= <-].
    + destruct (locked S i); [done|]. by intros [= <-].
    + destruct (validate_read _ i _) as [[]| |]; try done; by intros [= <-].
    + destruct (Scheduler.try_abort i inc (scheduler S)) as [s []]; by intros [= <-].
    + destruct (locked S _); [done|]. by intros [= <-].
  - unfold claim. destruct (claims S); [done|]. by intros [= <-].
  - destruct (rechecks S !! n) as [i|]; simpl; [|done]. unfold recheck. intros [= <-]. by destruct (_ <? _).
  - destruct (picks S !! n) as [i|]; simpl; [|done]. unfold incarnate. destruct (Scheduler.try_incarnate i (scheduler S)) as [s [[inc []]|]]; [|by intros [= <-]..].
    destruct (txn block i); simpl; [|done]. by intros [= <-].
  - destruct (wakes S !! n) as [i|]; simpl; [|done]. unfold wake. intros [= <-]. by destruct (Scheduler.condvars (scheduler S) !! i).
  - apply work_fell_back.
  - unfold finish_execution. destruct (finishing S !! i) as [[[inc suffix] [| |[|dep deps] m| |v d|v]]|]; simpl; try done; try (by intros [= <-]).
    + destruct (locked_by_abort S i); [done|]. by intros [= <-].
    + destruct (Scheduler.resume dep (scheduler S)) as [s []]; try done. by intros [= <-].
    + destruct (Scheduler.validation_idx _) as [cv cw]. destruct (i <? cv); by intros [= <-].
    + destruct (decrease _ _ _ _) as [[s []]|]; try done; by intros [= <-].
  - unfold finish_abort. destruct (aborts S !! i) as [[inc [| |d]]|]; simpl; try done.
    + destruct (locked_by_finish S i); [done|]. by intros [= <-].
    + destruct (decrease _ _ _ _) as [[s []]|]; try done; by intros [= <-].
  - unfold commit. destruct (_ || _ || _); [done|]. destruct (Scheduler.try_commit (scheduler S)) as [s [c|]]; [|by intros [= <-]].
    destruct (outputs _ !! c) as [output|]; simpl; [|done]. destruct (commit_status _ output) as [[fees output']| |]; try done. intros [= <-].
    destruct (_ || _); by rewrite ?halt_world.
  - destruct (hook (world_of S) i) as [w'|] eqn:E; simpl; [|done]. intros [= <-]. simpl. eapply (step_fell_back block). by eapply hook_step.
  - unfold halt_step. destruct (halting S) as [[b n]|]; simpl; [|done]. destruct (n <? num_txns block); by intros [= <-].
Qed.

Lemma makes_scheduled S l S' : scheduled block S -> makes block S l = Some S' -> scheduled block S'.
Proof.
  revert S. induction l as [|m l IH]; intros S Hs; simpl; [by intros [= <-]|]. destruct (make block S m) as [S1|] eqn:E; simpl; [|done].
  apply IH. by eapply scheduled_make.
Qed.

Lemma makes_default l : match makes block (start_system block) l with Some _ => true | None => false end = true ->
  scheduled block (default (start_system block) (makes block (start_system block) l)).
Proof. destruct (makes block (start_system block) l) as [S|] eqn:E; [|done]. intros _. simpl. eapply makes_scheduled; [constructor|done]. Qed.

Context (module_kind : forall k, is_module_path k = true <-> kind k = Code).
Context (counters_in_storage : counters_stored kind).

Lemma scheduled_sinv S : (forall p r, p ∈ block -> returns p r -> result_ok kind r) -> scheduled block S -> fell_back (world_of S) = false -> sinv kind block S.
Proof.
  intros Hok. induction 1 as [|S m S' Hs IH Hm]; intros Hf; [apply start_sinv|].
  destruct (fell_back (world_of S)) eqn:E; [by rewrite (make_fell_back _ _ _ Hm E) in Hf|]. by eapply make_sinv; auto.
Qed.

(** The scheduler is done, and so are the commit hooks. *)
Definition all_done (S : system) : Prop := Scheduler.done_marker (scheduler S) = true /\
  forall (i : TxnIndex) s, i < commit_idx (world_of S) -> outputs (last_input_output (world_of S)) !! i = Some s -> output_in s <> None ->
    is_Some (committed_output (world_of S) !! i).

Lemma all_done_finished S : sinv kind block S -> all_done S -> finished block (world_of S).
Proof. intros Hs [Hd Hh]. split; [|done]. destruct (si_done _ _ _ Hs Hd) as [?|[? _]]; [by right|by left]. Qed.

End scheduled_stm.

(** ** Results *)
Section results.
Context {bcs : Bcs128} {bcs_laws : Bcs128Laws} {types : ExecutorTypes} {config : ExecutorConfig}.

(** C3: the scheduler refines the transition system in which a transaction is
    committed when its recorded reads are valid, is executed when it never was or its
    last execution is aborted, and is aborted when it is executed and not committed.
    Whatever the workers do between two accesses to shared data, as long as no module
    was found to be read and written, the shared data is that of a run of this system:
    the commits that [try_commit] allows by comparing waves are commits of valid
    reads.  The side conditions are that keys are modules exactly where
    [is_module_path] says so, that every counter has a value in storage before the
    block, and that the outputs of the block's transactions keep to the kinds of keys. *)
Theorem scheduled_reachable (kind : K -> item) (block : list prog) (S : system) :
  (forall k, is_module_path k = true <-> kind k = Code) ->
  counters_stored kind ->
  (forall p r, p ∈ block -> returns p r -> result_ok kind r) ->
  scheduled block S -> fell_back (world_of S) = false ->
  reachable block (world_of S).
Proof using bcs_laws. intros Hm Hc Hok Hs Hf. by apply (si_reach _ _ _ (scheduled_sinv kind block Hm Hc S Hok Hs Hf)). Qed.

(** C2: when the scheduler is done and the commit hooks have run, parallel execution
    has the results of sequential execution, or none if a module was read and written,
    for every interleaving of the workers and whatever tasks [next_task] gave them.
    The side conditions are that keys are modules exactly where [is_module_path] says
    so; that every counter, a key transactions may add to, has a value in storage
    before the block ([counters_stored]); and that, whatever a transaction of the block
    reads, its output keeps to the kinds of keys, counters being written as 128-bit
    integers, and adds to no counter if it is discarded.  Blocks that create a counter are not covered: for them the conclusion
    can fail, as [created_counter_diverges] shows. *)
Theorem scheduled_is_sequential (kind : K -> item) (block : list prog) (S : system) :
  (forall k, is_module_path k = true <-> kind k = Code) ->
  counters_stored kind ->
  (forall p r, p ∈ block -> returns p r -> result_ok kind r) ->
  scheduled block S -> all_done S ->
  parallel_results block (world_of S) = if fell_back (world_of S) then None else Some (execute_transactions_sequential block).
Proof using bcs_laws.
  intros Hm Hc Hok Hs Hd. unfold parallel_results. fold (fell_back (world_of S)). destruct (fell_back (world_of S)) eqn:E; [done|].
  pose proof (scheduled_sinv kind block Hm Hc S Hok Hs E) as Hi. pose proof (reachable_inv kind block Hm Hc Hok _ (si_reach _ _ _ Hi) E) as Hw.
  by rewrite (finished_sequential kind block Hm Hc _ Hw (all_done_finished kind block S Hi Hd)).
Qed.
End results.

(** ** An example *)
Module ScheduledExample.
Import ChangeSetExample SchedulesExample.

(** The second and the third transaction are executed before the first. *)
Definition executions : list move :=
  replicate 3 NextTask ++ replicate 3 Claim ++ Incarnate 1 :: replicate 5 (Work 1) ++ replicate 4 (FinishExecution 1) ++
  Incarnate 0 :: replicate 4 (Work 2) ++ replicate 4 (FinishExecution 2) ++ Incarnate 0 :: replicate 3 (Work 0) ++ replicate 4 (FinishExecution 0).
(** The first validates; the second does not and is aborted.  The index of the third is
    claimed before, so that its validation is of an earlier wave than is triggered; it
    meets an estimate and the third is aborted too. *)
Definition validations : list move :=
  NextTask :: replicate 4 (Validate 0) ++ NextTask :: replicate 6 (Validate 0) ++ [NextTask; Validate 0] ++
  replicate 2 (Work 1) ++ replicate 4 (FinishAbort 1) ++ Recheck 0 :: replicate 4 (Validate 0) ++ replicate 2 (Work 2) ++ replicate 2 (FinishAbort 2) ++ [Recheck 0].
(** The third waits for the second. *)
Definition waits : list move := Incarnate 0 :: replicate 2 (Work 2).
(** The second is executed and the third woken up. *)
Definition again : list move :=
  Incarnate 0 :: replicate 6 (Work 1) ++ replicate 6 (FinishExecution 1) ++ [NextTask; Claim; Incarnate 0; Wake 0] ++
  replicate 5 (Work 2) ++ replicate 4 (FinishExecution 2).
Definition commits : list move :=
  replicate 4 (Validate 0) ++ NextTask :: replicate 5 (Validate 0) ++ replicate 3 Commit ++ [CommitHook 0; CommitHook 1; CommitHook 2; CommitHook 0; CommitHook 2].

Definition after (l : list move) : system := default (start_system three) (makes three (start_system three) l).
Definition waiting_system : system := after (executions ++ validations ++ waits).
Definition asking_system : system := after (executions ++ validations ++ take 2 waits).
Definition final : system := after (executions ++ validations ++ waits ++ again ++ commits).

Lemma waiting_scheduled : scheduled three waiting_system.
Proof. apply makes_default. by vm_compute. Qed.

Lemma asking_scheduled : scheduled three asking_system.
Proof. apply makes_default. by vm_compute. Qed.

Lemma final_scheduled : scheduled three final.
Proof. apply makes_default. by vm_compute. Qed.

Lemma final_done : all_done final.
Proof. split; [by vm_compute|]. intros i s _ Hs _. eapply hooked_committed; [|done]. by vm_compute. Qed.

Lemma final_kept : fell_back (world_of final) = false.
Proof. by vm_compute. Qed.

Lemma scheduled_reachable_witness : reachable three (world_of waiting_system) /\
  Scheduler.status (scheduler waiting_system) 2 = Scheduler.Suspended 1 /\ Scheduler.validation_idx (scheduler waiting_system) = (2, 1).
Proof.
  split; [|split; vm_compute; reflexivity].
  exact (scheduled_reachable kind_of three waiting_system three_modules three_counters three_ok waiting_scheduled ltac:(vm_compute; reflexivity)).
Defined.

Lemma scheduled_is_sequential_witness : parallel_results three (world_of final) = Some (execute_transactions_sequential three) /\
  exists outs, parallel_results three (world_of final) = Some (Ok outs) /\ length outs = 3%nat.
Proof.
  split.
  - transitivity (if fell_back (world_of final) then None else Some (execute_transactions_sequential three)); [|rewrite final_kept; reflexivity].
    exact (scheduled_is_sequential kind_of three final three_modules three_counters three_ok final_scheduled final_done).
  - eexists. split; [vm_compute; reflexivity|reflexivity].
Defined.
End ScheduledExample.

(** ** A counter that is created in the block *)
Module CreatedCounter.
Import ChangeSetExample SchedulesExample.

(** Neither the counter nor the resource is in storage. *)
Definition without_counter (k : option bool) : result (option StateValue.t) :=
  match k with
  | Some false => Ok (Some (StateValue.Legacy [1]))
  | _ => Ok None
  end.

#[local] Instance empty_config : ExecutorConfig :=
  { key_leb := any_order; is_discarded s := s; should_restart_execution evs := existsb id evs; maybe_block_gas_limit := Some 1000;
    base_view := without_counter; skip_output := nothing_written; is_module_path k := bool_decide (k = Some false) }.

(** The first transaction creates the counter with the value 25, the second adds 30 to
    it and the third writes its first byte to the resource. *)
Definition creator : prog := Ret (inr
  {| change_set := {| resource_write_set := ∅; module_write_set := ∅; aggregator_write_set := {[Some true := WriteOp.Creation (le_bytes 16 25)]};
                      aggregator_delta_set := ∅; events := [false] |};
     fee_statement := FeeStatement.new 5 3 1 1 0; status := false |}).
Definition reader : prog :=
  Get (Some true) (fun a => Ret (inr (output_of {[None := WriteOp.Creation (take 1 (bytes_of a))]} ∅))).
Definition created : list prog := [creator; adder; reader].

(** The second and the third transaction are executed first: the third reads an
    addition to a counter without a value, which fails.  Once the first is executed, all
    are validated and committed. *)
Definition moves : list move :=
  replicate 3 NextTask ++ replicate 3 Claim ++ Incarnate 1 :: replicate 3 (Work 1) ++ replicate 4 (FinishExecution 1) ++
  Incarnate 0 :: replicate 4 (Work 2) ++ replicate 4 (FinishExecution 2) ++ Incarnate 0 :: replicate 3 (Work 0) ++ replicate 4 (FinishExecution 0) ++
  NextTask :: replicate 4 (Validate 0) ++ NextTask :: replicate 4 (Validate 0) ++ NextTask :: replicate 4 (Validate 0) ++
  replicate 3 Commit ++ [CommitHook 0; CommitHook 1; CommitHook 1; CommitHook 2].
Definition end_system : system := default (start_system created) (makes created (start_system created) moves).

(** The value of the resource in the last output. *)
Definition last_resource (r : option (outcome Error (list TransactionOutput))) : option WriteOp.t :=
  match r with
  | Some (Ok outs) => o ← last outs; write_set o !! (None : option bool)
  | _ => None
  end.

Lemma created_ok p r : p ∈ created -> returns p r -> result_ok kind_of r.
Proof.
  unfold created. rewrite !elem_of_cons, elem_of_nil. intros [->|[->|[->|[]]]] Hr.
  - inversion Hr. split_and!; [|intros [[]|] w [= <-]; by vm_compute|done]. split; simpl.
    + by intros k [? ?].
    + by intros k [? ?].
    + intros [[]|]; simpl; [|done..]. split; [by right|done].
  - inversion Hr. apply output_of_ok; [by intros ? [? ?]|]. intros ? ?. by apply delta_add_ok.
  - inversion Hr as [|? ? a ? Hr1]. inversion Hr1. apply output_of_ok; [|done]. by intros ? [? [<- _]%lookup_singleton_Some].
Qed.

(** A block that creates a counter can have other results in parallel than in
    sequence: the failed read is not recorded, so that the transaction that made it is
    valid whatever the counter is, and the block commits an empty resource where
    sequential execution writes the byte 55. *)
Theorem created_counter_diverges :
  (forall k, is_module_path k = true <-> kind_of k = Code) /\
  (forall p r, p ∈ created -> returns p r -> result_ok kind_of r) /\
  scheduled created end_system /\ all_done end_system /\ fell_back (world_of end_system) = false /\
  last_resource (parallel_results created (world_of end_system)) = Some (WriteOp.Creation []) /\
  last_resource (Some (execute_transactions_sequential created)) = Some (WriteOp.Creation [55]).
Proof.
  split_and!; [|exact created_ok|apply makes_default; by vm_compute| |by vm_compute..].
  - intros k. simpl. rewrite bool_decide_eq_true. by destruct k as [[]|].
  - split; [by vm_compute|]. intros i s _ Hs _. eapply hooked_committed; [|done]. by vm_compute.
Qed.
End CreatedCounter.
