(* ===== verification/SchedulerProgress.v ===== *)
(** * Waiting for dependencies

    A read that meets an estimate suspends its transaction until the one it depends on
    is executed.  Here are invariants of the condition variables, the lists of
    dependencies and the execution index: the scheduler meets no status that it takes
    to be unreachable, no wakeup is lost, and when transactions wait then some worker
    is, or will be, at a transaction that does not. *)

From S2P Require Import Prelude Collections Aggregator ChangeSet MVHashMap BlockExecutor SequentialState ParallelInvariant ReadStability BlockSTM Schedules Scheduler ScheduledExecution SchedulerSafety ScheduledSTM.

Section progress.
Context {bcs : Bcs128} {bcs_laws : Bcs128Laws} {types : ExecutorTypes} {config : ExecutorConfig}.
Context (kind : K -> item) (block : list prog).

(** ** Who waits for whom *)

(** What [finish_execution] has taken and not resumed yet. *)
Definition resuming (S : system) (j : TxnIndex) : list TxnIndex :=
  match finishing S !! j with Some (_, XResume deps _) => deps | _ => [] end.
Definition waiters (S : system) (j : TxnIndex) : list TxnIndex := Scheduler.dependencies (scheduler S) j ++ resuming S j.

Definition reading (w : world) (i : TxnIndex) : Prop := exists inc p reads, active w !! i = Some (Reading inc p reads).
Definition busy (w : world) (i : TxnIndex) : Prop :=
  match active w !! i with Some (Reading _ _ _) | Some (Updating _ _ _ _) => True | _ => False end.

(** A worker will try to execute the transaction. *)
Definition handed (S : system) (i : TxnIndex) : Prop :=
  Scheduler.execution_idx (scheduler S) <= i \/ i ∈ picks S \/ i ∈ rechecks S.
(** A worker will lower the execution index to it. *)
Definition lowering (S : system) (i : TxnIndex) : Prop :=
  exists (j : TxnIndex) x deps m, finishing S !! j = Some (x, XResume deps (Some m)) /\ m <= i.

(** ** Invariants of one transaction *)
Record waits_ok (S : system) (i : TxnIndex) : Prop := {
  wo_waiter j : i ∈ waiters S j -> (exists n, Scheduler.status (scheduler S) i = Scheduler.Suspended n) \/ Scheduler.status (scheduler S) i = Scheduler.Halted;
  wo_suspended n : Scheduler.status (scheduler S) i = Scheduler.Suspended n \/ Scheduler.status (scheduler S) i = Scheduler.Ready n Scheduler.Wakeup ->
    Scheduler.condvars (scheduler S) !! i = Some Scheduler.Unresolved /\ i ∉ wakes S;
  wo_wakes : i ∈ wakes S -> Scheduler.condvars (scheduler S) !! i = Some Scheduler.Unresolved;
  wo_asking (j : TxnIndex) : asking S !! i = Some j -> Scheduler.condvars (scheduler S) !! i = None /\ 0 <= j < i /\ reading (world_of S) i;
  wo_waiting : is_Some (Scheduler.condvars (scheduler S) !! i) -> reading (world_of S) i;
  wo_unresolved : Scheduler.condvars (scheduler S) !! i = Some Scheduler.Unresolved ->
    (exists n j, Scheduler.status (scheduler S) i = Scheduler.Suspended n /\ i ∈ waiters S j) \/
    (exists n, Scheduler.status (scheduler S) i = Scheduler.Ready n Scheduler.Wakeup) \/ i ∈ wakes S;
  wo_executed k : k ∈ Scheduler.dependencies (scheduler S) i -> Scheduler.is_executed i true (scheduler S) = None \/ exists x, finishing S !! i = Some (x, XTake);
  wo_finishing : is_Some (finishing S !! i) -> ~ busy (world_of S) i;
  wo_ready n : Scheduler.done_marker (scheduler S) = false -> 0 <= i < num_txns block ->
    Scheduler.status (scheduler S) i = Scheduler.Ready n Scheduler.Execution -> handed S i \/ is_Some (aborts S !! i);
  wo_wakeup n : Scheduler.done_marker (scheduler S) = false -> 0 <= i < num_txns block ->
    Scheduler.status (scheduler S) i = Scheduler.Ready n Scheduler.Wakeup -> handed S i \/ lowering S i }.

(** ** Invariants of the lists *)
Record lists_ok (S : system) : Prop := {
  lo_below i j : i ∈ waiters S j -> 0 <= j < i;
  lo_once j : NoDup (waiters S j);
  lo_unique i j k : i ∈ waiters S j -> i ∈ waiters S k -> j = k;
  lo_wakes : NoDup (wakes S) }.

Definition linv (S : system) : Prop := lists_ok S /\ forall i, waits_ok S i.

(** ** Frames *)

(** What lets a worker get to a transaction is kept. *)
Definition served (S S' : system) (i : TxnIndex) : Prop := Scheduler.done_marker (scheduler S') = false ->
  Scheduler.done_marker (scheduler S) = false /\ (handed S i -> handed S' i) /\ (lowering S i -> handed S' i \/ lowering S' i) /\
  (is_Some (aborts S !! i) -> handed S' i \/ is_Some (aborts S' !! i)).

Lemma waits_frame S S' (i : TxnIndex) : waits_ok S i ->
  Scheduler.status (scheduler S') i = Scheduler.status (scheduler S) i ->
  Scheduler.condvars (scheduler S') !! i = Scheduler.condvars (scheduler S) !! i ->
  asking S' !! i = asking S !! i -> active (world_of S') !! i = active (world_of S) !! i ->
  (forall k, k ∈ Scheduler.dependencies (scheduler S') i -> k ∈ Scheduler.dependencies (scheduler S) i \/ Scheduler.is_executed i true (scheduler S) = None) ->
  (forall x, finishing S !! i = Some (x, XTake) -> finishing S' !! i = Some (x, XTake)) -> (is_Some (finishing S' !! i) -> is_Some (finishing S !! i)) ->
  (forall j, i ∈ waiters S' j <-> i ∈ waiters S j) -> (i ∈ wakes S' <-> i ∈ wakes S) -> served S S' i -> waits_ok S' i.
Proof using Type.
  intros [] Es Ec Ea Ew Ed Hf1 Hf2 Hw Hk Hs. assert (reading (world_of S') i <-> reading (world_of S) i) as Hr by (unfold reading; by rewrite Ew). split.
  - intros j Hj%Hw. rewrite Es. eauto.
  - intros n. rewrite Es, Ec, Hk. apply wo_suspended0.
  - rewrite Hk, Ec. apply wo_wakes0.
  - intros j. rewrite Ea, Ec, Hr. apply wo_asking0.
  - rewrite Ec, Hr. apply wo_waiting0.
  - rewrite Es, Ec, Hk. intros E. destruct (wo_unresolved0 E) as [(n & j & ? & ?)|?]; [|by right]. left. exists n, j. by rewrite Hw.
  - intros k. unfold Scheduler.is_executed in *. rewrite Es. intros [Hin|?]%Ed; [|by left].
    destruct (wo_executed0 k Hin) as [?|[x ?]]; [by left|]. right. exists x. auto.
  - unfold busy in *. rewrite Ew. auto.
  - intros n Hd Hi. rewrite Es. intros E. destruct (Hs Hd) as (Hd0 & H1 & H2 & H3). destruct (wo_ready0 n Hd0 Hi E); [left; auto|auto].
  - intros n Hd Hi. rewrite Es. intros E. destruct (Hs Hd) as (Hd0 & H1 & H2 & H3). destruct (wo_wakeup0 n Hd0 Hi E); [left; auto|auto].
Qed.

Lemma lists_frame S S' : lists_ok S -> (forall j, waiters S' j = waiters S j) -> wakes S' = wakes S -> lists_ok S'.
Proof using Type.
  intros [] E Ew. split; [intros i j; rewrite E; auto|intros j; rewrite E; auto|intros i j k; rewrite !E; eauto|by rewrite Ew].
Qed.

(** One transaction is touched. *)
Lemma linv_at S S' (i : TxnIndex) : linv S -> (forall k, k <> i -> waits_ok S' k) -> waits_ok S' i -> lists_ok S' -> linv S'.
Proof using Type. intros _ Hk Hi Hl. split; [done|]. intros k. destruct (decide (k = i)) as [->|]; auto. Qed.

Lemma served_same S S' (i : TxnIndex) : Scheduler.done_marker (scheduler S') = Scheduler.done_marker (scheduler S) ->
  Scheduler.execution_idx (scheduler S') = Scheduler.execution_idx (scheduler S) -> picks S' = picks S -> rechecks S' = rechecks S ->
  finishing S' = finishing S -> aborts S' = aborts S -> served S S' i.
Proof using Type. intros E1 E2 E3 E4 E5 E6 Hd. unfold handed, lowering. rewrite E2, E3, E4, E5, E6. rewrite E1 in Hd. auto. Qed.

(** Nothing about dependencies has changed. *)
Lemma linv_calm S S' : linv S ->
  Scheduler.execution_status (scheduler S') = Scheduler.execution_status (scheduler S) ->
  Scheduler.txn_dependency (scheduler S') = Scheduler.txn_dependency (scheduler S) ->
  Scheduler.condvars (scheduler S') = Scheduler.condvars (scheduler S) -> asking S' = asking S -> wakes S' = wakes S ->
  (forall i : TxnIndex, active (world_of S') !! i = active (world_of S) !! i) ->
  (forall i : TxnIndex, finishing S' !! i = finishing S !! i \/
    resuming S i = [] /\ resuming S' i = [] /\ (forall x, finishing S !! i <> Some (x, XTake)) /\ (is_Some (finishing S' !! i) -> is_Some (finishing S !! i))) ->
  (forall i, served S S' i) -> linv S'.
Proof using Type.
  intros [Hl Hw] Ex Et Ec Ea Ek Hact Hf Hs.
  assert (forall j, waiters S' j = waiters S j) as Ewt.
  { intros j. unfold waiters, Scheduler.dependencies. rewrite Et. f_equal. destruct (Hf j) as [E|(-> & -> & _)]; [|done]. unfold resuming. by rewrite E. }
  split; [by apply (lists_frame S)|]. intros i. apply (waits_frame S); auto.
  - unfold Scheduler.status. by rewrite Ex.
  - by rewrite Ec.
  - by rewrite Ea.
  - intros k. unfold Scheduler.dependencies. rewrite Et. by left.
  - intros x. destruct (Hf i) as [->|(_ & _ & Hn & _)]; [done|]. by intros ?%Hn.
  - by destruct (Hf i) as [->|(_ & _ & _ & ?)].
  - intros j. by rewrite Ewt.
  - by rewrite Ek.
Qed.

Lemma served_mono S S' (i : TxnIndex) : (Scheduler.done_marker (scheduler S') = false -> Scheduler.done_marker (scheduler S) = false) ->
  (handed S i -> handed S' i) -> (forall j : TxnIndex, finishing S' !! j = finishing S !! j \/ forall x deps m, finishing S !! j <> Some (x, XResume deps m)) ->
  (is_Some (aborts S !! i) -> handed S' i \/ is_Some (aborts S' !! i)) -> served S S' i.
Proof using Type.
  intros Hd Hh Hf Ha Hd'. split_and!; auto. intros (j & x & deps & m & E & Hm). right. exists j, x, deps, m. split; [|done].
  destruct (Hf j) as [->|Hn]; [done|]. by apply Hn in E.
Qed.

Lemma others_split {A} (n : nat) (l : list A) x y : l !! n = Some y -> x ∈ l -> x = y \/ x ∈ others n l.
Proof using Type.
  intros Hn Hx. rewrite <-(take_drop_middle l n y Hn) in Hx. unfold others. apply elem_of_app in Hx as [?|[->|?]%elem_of_cons]; [right|by left|right]; apply elem_of_app; auto.
Qed.

Lemma others_NoDup {A} (n : nat) (l : list A) y : l !! n = Some y -> NoDup l -> NoDup (others n l) /\ y ∉ others n l.
Proof using Type.
  intros Hn Hl. rewrite <-(take_drop_middle l n y Hn) in Hl. unfold others. apply NoDup_app in Hl as (H1 & H2 & [H3 H4]%NoDup_cons). split.
  - apply NoDup_app. split_and!; [done| |done]. intros x Hx Hx'. apply (H2 x Hx). by right.
  - intros [Hy|Hy]%elem_of_app; [|done]. apply (H2 y Hy). by left.
Qed.

(** ** Steps that are not about dependencies *)
Lemma next_task_linv S S' : linv S -> next_task block S = Some S' -> linv S'.
Proof using Type.
  intros Hs. unfold next_task. destruct (Scheduler.done_marker (scheduler S)) eqn:Ed; [done|]. destruct (Scheduler.prefer_validate (scheduler S)).
  - destruct (Scheduler.validation_idx (scheduler S)) as [idx wave]. intros [= <-]. apply (linv_calm S); auto. intros i. by apply served_same.
  - destruct (_ <? _); intros [= <-]; [|done]. apply (linv_calm S); auto. intros i. by apply served_same.
Qed.

Lemma claim_linv S S' : linv S -> claim S = Some S' -> linv S'.
Proof using Type.
  intros Hs. unfold claim. destruct (claims S); [done|]. intros [= <-]. apply (linv_calm S); auto. intros i. apply served_mono; simpl; auto.
  unfold handed. simpl. intros [Hle|[?|?]]; [|right; left; by right|auto]. destruct (decide (i = Scheduler.execution_idx (scheduler S))) as [->|]; [right; left; by left|left; lia].
Qed.

Lemma recheck_linv S n (i : TxnIndex) S' : linv S -> rechecks S !! n = Some i -> recheck S i (others n (rechecks S)) = Some S' -> linv S'.
Proof using Type.
  intros Hs Hn. unfold recheck. intros [= <-]. destruct (Z.ltb_spec i (Scheduler.execution_idx (scheduler S))); apply (linv_calm S); auto; intros k;
    (apply served_mono; simpl; auto); unfold handed; simpl; (intros [?|[?|Hk]]; [auto|right; left; try by right|]); try done;
    destruct (others_split _ _ _ _ Hn Hk) as [->|?]; auto. right. left. by left.
Qed.

Lemma hook_active w i w' : hook w i = Some w' -> active w' = active w.
Proof using Type.
  unfold hook. destruct (committing w !! i) as [[[|key keys] writes]|]; [| |done].
  - destruct (outputs _ !! i) as [[o| |o]|]; try done; destruct (into_transaction_output_with_materialized_deltas o writes); try done; by intros [= <-].
  - destruct (commit_delta _ _ _) as [d [v| |]]; try done. by intros [= <-].
Qed.

Lemma hook_linv S i w' : linv S -> hook (world_of S) i = Some w' -> linv (set_world w' S).
Proof using Type.
  intros Hs Hk. apply (linv_calm S); auto; simpl.
  - intros j. by rewrite (hook_active _ _ _ Hk).
  - intros j. by apply served_same.
Qed.

(** ** Steps of one transaction *)
Lemma linv_touch S S' (i : TxnIndex) : linv S ->
  (forall k, k <> i -> Scheduler.status (scheduler S') k = Scheduler.status (scheduler S) k) ->
  Scheduler.txn_dependency (scheduler S') = Scheduler.txn_dependency (scheduler S) ->
  (forall k : TxnIndex, k <> i -> Scheduler.condvars (scheduler S') !! k = Scheduler.condvars (scheduler S) !! k) ->
  (forall k : TxnIndex, k <> i -> asking S' !! k = asking S !! k) -> (forall k, k <> i -> k ∈ wakes S' <-> k ∈ wakes S) -> NoDup (wakes S') ->
  (forall k : TxnIndex, k <> i -> active (world_of S') !! k = active (world_of S) !! k) ->
  (forall k : TxnIndex, k <> i -> finishing S' !! k = finishing S !! k) -> resuming S' i = resuming S i ->
  (forall k, k <> i -> served S S' k) -> waits_ok S' i -> linv S'.
Proof using Type.
  intros [Hl Hw] Est Et Ec Ea Hk Hn Hact Hf Hr Hs Hi. assert (forall j, waiters S' j = waiters S j) as Ewt.
  { intros j. unfold waiters, Scheduler.dependencies. rewrite Et. f_equal. destruct (decide (j = i)) as [->|Hne]; [done|]. unfold resuming. by rewrite Hf. }
  split.
  - destruct Hl. split; [intros k j; rewrite Ewt; auto|intros j; rewrite Ewt; auto|intros k j m; rewrite !Ewt; eauto|done].
  - intros k. destruct (decide (k = i)) as [->|Hne]; [done|]. apply (waits_frame S); auto.
    + intros x. unfold Scheduler.dependencies. rewrite Et. by left.
    + intros x. by rewrite Hf.
    + by rewrite Hf.
    + intros j. by rewrite Ewt.
Qed.

(** The worker at a transaction goes on with it. *)
Lemma linv_act S S' (i : TxnIndex) : linv S -> Scheduler.condvars (scheduler S) !! i = None -> asking S !! i = None ->
  scheduler S' = scheduler S -> wakes S' = wakes S -> asking S' = asking S -> picks S' = picks S -> rechecks S' = rechecks S ->
  (forall k : TxnIndex, k <> i -> active (world_of S') !! k = active (world_of S) !! k /\ finishing S' !! k = finishing S !! k) ->
  (forall k : TxnIndex, is_Some (aborts S !! k) -> is_Some (aborts S' !! k)) ->
  (finishing S' !! i = finishing S !! i \/ finishing S !! i = None /\ exists x, finishing S' !! i = Some (x, XLock)) ->
  (is_Some (finishing S' !! i) -> ~ busy (world_of S') i) -> linv S'.
Proof using Type.
  intros Hs Hc Has Es Ek Ea Ep Er Hoth Hab Hf Hb. destruct Hs as [Hl Hw]. pose proof (Hw i) as Hi.
  assert (forall k, served S S' k) as Hserved.
  { intros k. apply served_mono; rewrite ?Es; auto; unfold handed; rewrite ?Es, ?Ep, ?Er; auto. intros j. destruct (decide (j = i)) as [->|Hne]; [|left; by apply Hoth].
    destruct Hf as [?|[E _]]; [by left|right]. intros x deps m. by rewrite E. }
  assert (resuming S' i = resuming S i) as Er' by (unfold resuming; destruct Hf as [->|[-> [x ->]]]; done).
  assert (forall j, waiters S' j = waiters S j) as Ewt.
  { intros j. unfold waiters. rewrite Es. f_equal. destruct (decide (j = i)) as [->|Hne]; [done|]. unfold resuming. by rewrite (proj2 (Hoth j Hne)). }
  apply (linv_touch S S' i); rewrite ?Es, ?Ek, ?Ea; try done; try (intros k Hk; by apply Hoth); [by apply Hl|].
  destruct Hi. split; rewrite ?Es, ?Ek, ?Ea, ?Hc, ?Has; try done.
  - intros j. rewrite Ewt. apply wo_waiter0.
  - intros n Hn. destruct (wo_suspended0 n Hn). congruence.
  - intros Hin. specialize (wo_wakes0 Hin). congruence.
  - intros k Hk. destruct (wo_executed0 k Hk) as [?|[x E]]; [by left|]. right. exists x. destruct Hf as [->|[E' _]]; [done|congruence].
  - intros n Hd Hr Hst. destruct (Hserved i) as (Hd0 & H1 & _ & H3); [by rewrite Es|]. destruct (wo_ready0 n Hd0 Hr Hst); auto.
  - intros n Hd Hr Hst. destruct (Hserved i) as (Hd0 & H1 & H2 & _); [by rewrite Es|]. destruct (wo_wakeup0 n Hd0 Hr Hst); auto.
Qed.

(** ** Validations and aborts *)
Lemma set_status_linv S S' (i : TxnIndex) x y : linv S -> Scheduler.status (scheduler S) i = x -> Scheduler.status (scheduler S') i = y ->
  (forall k, k <> i -> Scheduler.status (scheduler S') k = Scheduler.status (scheduler S) k) ->
  (forall n, x <> Scheduler.Suspended n /\ y <> Scheduler.Suspended n /\ x <> Scheduler.Ready n Scheduler.Wakeup /\ y <> Scheduler.Ready n Scheduler.Wakeup) ->
  x <> Scheduler.Halted ->
  Scheduler.txn_dependency (scheduler S') = Scheduler.txn_dependency (scheduler S) -> Scheduler.condvars (scheduler S') = Scheduler.condvars (scheduler S) ->
  asking S' = asking S -> wakes S' = wakes S ->
  (forall k : TxnIndex, k <> i -> active (world_of S') !! k = active (world_of S) !! k /\ finishing S' !! k = finishing S !! k) ->
  (finishing S' !! i = finishing S !! i \/ resuming S i = [] /\ resuming S' i = []) -> (reading (world_of S) i -> reading (world_of S') i) ->
  (forall k, served S S' k \/ k = i) ->
  (forall k, k ∈ Scheduler.dependencies (scheduler S) i -> Scheduler.is_executed i true (scheduler S') = None \/ exists x, finishing S' !! i = Some (x, XTake)) ->
  (is_Some (finishing S' !! i) -> ~ busy (world_of S') i) ->
  (forall n, Scheduler.done_marker (scheduler S') = false -> 0 <= i < num_txns block -> y = Scheduler.Ready n Scheduler.Execution -> handed S' i \/ is_Some (aborts S' !! i)) ->
  linv S'.
Proof using Type.
  intros Hs Ex Ey Est Hxy Hnh Et Ec Ea Ek Hoth Hf Hread Hserved Hexec Hb Hready. pose proof Hs as [Hl Hw].
  assert (resuming S' i = resuming S i) as Er by (destruct Hf as [E|[-> ->]]; [unfold resuming; by rewrite E|done]).
  assert (forall j, waiters S' j = waiters S j) as Ewt.
  { intros j. unfold waiters, Scheduler.dependencies. rewrite Et. f_equal. destruct (decide (j = i)) as [->|Hne]; [done|]. unfold resuming. by rewrite (proj2 (Hoth j Hne)). }
  apply (linv_touch S S' i); rewrite ?Ec, ?Ea, ?Ek; try done; try (intros k Hk; by apply Hoth); [by apply Hl|intros k Hk; by destruct (Hserved k)|].
  destruct (Hw i). split; rewrite ?Ey, ?Ec, ?Ea, ?Ek; try done.
  - intros j. rewrite Ewt. intros Hj. destruct (wo_waiter0 j Hj) as [[n E]|E]; [|congruence]. destruct (Hxy n). congruence.
  - intros n [E|E]; destruct (Hxy n) as (_ & ? & _ & ?); congruence.
  - intros j Hj. destruct (wo_asking0 j Hj) as (? & ? & ?). auto.
  - auto.
  - intros E. destruct (wo_unresolved0 E) as [(n & _ & Hn & _)|[(n & Hn)|?]]; [..|auto]; destruct (Hxy n) as (? & _ & ? & _); congruence.
  - intros k. unfold Scheduler.dependencies. rewrite Et. apply Hexec.
  - intros n _ _ E. destruct (Hxy n) as (_ & _ & _ & ?). congruence.
Qed.

Lemma abort_linv S (i : TxnIndex) inc l S' : linv S -> sinv kind block S -> Scheduler.status (scheduler S) i = Scheduler.Executed inc ->
  S' = set_tasks l (set_abort i (Some (inc, AMark)) (set_world (aborted_world (world_of S) i)
    (set_scheduler (Scheduler.set_status i (Scheduler.Aborting inc) (scheduler S)) S))) -> linv S'.
Proof using Type.
  intros Hs Hsi Est ->. pose proof (si_link _ _ _ Hsi i) as Hl. unfold link in Hl. rewrite Est in Hl. destruct Hl as (_ & _ & _ & (_ & Ha & _)).
  assert (forall k, handed S k -> handed (set_tasks l (set_abort i (Some (inc, AMark)) (set_world (aborted_world (world_of S) i)
    (set_scheduler (Scheduler.set_status i (Scheduler.Aborting inc) (scheduler S)) S)))) k) as Hh by done.
  apply (set_status_linv S _ i (Scheduler.Executed inc) (Scheduler.Aborting inc)); simpl; auto.
  - by rewrite status_set, bool_decide_eq_true_2.
  - intros k Hk. by rewrite status_set, bool_decide_eq_false_2.
  - intros k Hk. by rewrite lookup_partial_alter_ne.
  - intros (n & p & reads & E). congruence.
  - intros k. destruct (decide (k = i)) as [->|Hne]; [by right|left]. apply served_mono; simpl; auto. rewrite partial_set, bool_decide_eq_false_2 by done. auto.
  - intros k _. left. unfold Scheduler.is_executed. by rewrite status_set, bool_decide_eq_true_2.
  - intros _. unfold busy. simpl. rewrite lookup_partial_alter_eq. auto.
  - done.
Qed.

Lemma validate_linv S t l S' : linv S -> sinv kind block S -> validate S t l = Some S' -> linv S'.
Proof using Type.
  intros Hs Hsi. assert (forall s' l', Scheduler.execution_status s' = Scheduler.execution_status (scheduler S) -> Scheduler.txn_dependency s' = Scheduler.txn_dependency (scheduler S) ->
    Scheduler.condvars s' = Scheduler.condvars (scheduler S) -> Scheduler.done_marker s' = Scheduler.done_marker (scheduler S) ->
    Scheduler.execution_idx s' = Scheduler.execution_idx (scheduler S) -> linv (set_tasks l' (set_scheduler s' S))) as Hcalm.
  { intros s' l' E1 E2 E3 E4 E5. apply (linv_calm S); auto. intros i. by apply served_same. }
  assert (forall l', linv (set_tasks l' S)) as Htasks by (intros l'; by apply (Hcalm (scheduler S) l')).
  destruct t as [idx wave|idx wave|i inc wave|i inc wave [|r todo]|i inc wave|i wave]; simpl.
  - unfold Scheduler.exchange_validation_idx. case_bool_decide; intros [= <-]; [by apply Hcalm|done].
  - destruct (Scheduler.is_executed idx false (scheduler S)); by intros [= <-].
  - destruct (inputs _ !! i); simpl; [|done]. by intros [= <-].
  - destruct (locked S i); [done|]. intros [= <-]. by apply Hcalm.
  - destruct (validate_read _ i r) as [[]| |]; try done; by intros [= <-].
  - unfold Scheduler.try_abort. destruct (Scheduler.status (scheduler S) i) as [| | |n| | |] eqn:E; try (by intros [= <-]).
    destruct (Z.eqb_spec n inc) as [->|]; [|by intros [= <-]]. intros [= <-]. by eapply abort_linv.
  - destruct (locked S i); [done|]. intros [= <-]. by apply Hcalm.
Qed.

(** ** Tasks *)
Lemma picked_served S S' n (i k : TxnIndex) : picks S !! n = Some i -> k <> i -> picks S' = others n (picks S) -> rechecks S' = rechecks S ->
  Scheduler.execution_idx (scheduler S') = Scheduler.execution_idx (scheduler S) -> Scheduler.done_marker (scheduler S') = Scheduler.done_marker (scheduler S) ->
  finishing S' = finishing S -> aborts S' = aborts S -> served S S' k.
Proof using Type.
  intros Hn Hk Ep Er Ei Ed Ef Ea. apply served_mono; rewrite ?Ed, ?Ea, ?Ef; auto. unfold handed. rewrite Ep, Er, Ei.
  intros [?|[Hp|?]]; auto. destruct (others_split _ _ _ _ Hn Hp); auto. done.
Qed.

Lemma incarnate_linv S n (i : TxnIndex) S' : linv S -> sinv kind block S -> picks S !! n = Some i -> incarnate block S i (others n (picks S)) = Some S' -> linv S'.
Proof using Type.
  intros Hs Hsi Hn. pose proof Hs as [Hl Hw]. unfold incarnate, Scheduler.try_incarnate. rewrite (si_num _ _ _ Hsi). set (l := others n (picks S)).
  assert ((0 <= i < num_txns block -> forall inc t, Scheduler.status (scheduler S) i <> Scheduler.Ready inc t) -> linv (set_picks l S)) as Hnone.
  { intros Hno. apply (linv_touch S _ i); simpl; auto; [apply Hl|intros k Hk; by apply (picked_served _ _ n i)|]. destruct (Hw i). split; simpl; auto.
    - intros m _ Hi E. by apply (Hno Hi) in E.
    - intros m _ Hi E. by apply (Hno Hi) in E. }
  destruct (_ || _) eqn:Ern; [intros [= <-]; apply Hnone; lia|]. pose proof (si_link _ _ _ Hsi i) as Hlk. unfold link in Hlk.
  destruct (Scheduler.status (scheduler S) i) as [inc []| | | | | |] eqn:Est; try (intros [= <-]; by apply Hnone).
  - destruct (txn block i) as [p|]; simpl; [|done]. intros [= <-]. destruct Hlk as (Ha & Hfi & _).
    apply (set_status_linv S _ i (Scheduler.Ready inc Scheduler.Execution) (Scheduler.Executing inc)); simpl; auto.
    + by rewrite status_set, bool_decide_eq_true_2.
    + intros k Hk. by rewrite status_set, bool_decide_eq_false_2.
    + intros k Hk. by rewrite lookup_partial_alter_ne.
    + intros (m & q & reads & E). congruence.
    + intros k. destruct (decide (k = i)) as [->|Hne]; [by right|left]. by apply (picked_served _ _ n i).
    + intros k _. left. unfold Scheduler.is_executed. by rewrite status_set, bool_decide_eq_true_2.
    + rewrite Hfi. by intros [? ?].
    + done.
  - intros [= <-]. destruct (Hw i). destruct (wo_suspended0 inc ltac:(by right)) as [Hc Hnw].
    assert (Scheduler.status (Scheduler.set_status i (Scheduler.Executing inc) (scheduler S)) i = Scheduler.Executing inc) as E by (by rewrite status_set, bool_decide_eq_true_2).
    apply (linv_touch S _ i); simpl; auto.
    + intros k Hk. by rewrite status_set, bool_decide_eq_false_2.
    + intros k Hk. rewrite elem_of_cons. tauto.
    + apply NoDup_cons. split; [done|apply Hl].
    + intros k Hk. by apply (picked_served _ _ n i).
    + split; simpl; rewrite ?E; auto; try done.
      * intros j Hj. destruct (wo_waiter0 j Hj) as [[m ?]|?]; congruence.
      * intros m [?|?]; congruence.
      * intros _. right. right. by left.
      * intros k _. left. unfold Scheduler.is_executed. by rewrite E.
Qed.

Lemma wake_linv S n (i : TxnIndex) S' : linv S -> wakes S !! n = Some i -> wake S i (others n (wakes S)) = Some S' -> linv S'.
Proof using Type.
  intros Hs Hn. pose proof Hs as [Hl Hw]. unfold wake. assert (i ∈ wakes S) as Hin by (by eapply list_elem_of_lookup_2). destruct (Hw i).
  pose proof (wo_wakes0 Hin) as Hc. rewrite Hc. intros [= <-]. destruct (others_NoDup _ _ _ Hn (lo_wakes _ Hl)) as [Hnd Hni]. apply (linv_touch S _ i); simpl; auto.
  - intros k Hk. by rewrite partial_set, bool_decide_eq_false_2.
  - intros k Hk. split; [by apply others_in|]. intros Hk'. by destruct (others_split _ _ _ _ Hn Hk').
  - intros k Hk. by apply served_same.
  - split; simpl; rewrite ?partial_set, ?bool_decide_eq_true_2 by done; auto; try done.
    + intros m Hm. by destruct (wo_suspended0 m Hm).
    + intros j Hj. destruct (wo_asking0 j Hj). congruence.
Qed.

(** ** Reads that wait *)
Lemma apply_accumulated_independent acc v (j : TxnIndex) : apply_accumulated (V:=WriteOp.t) acc v <> Err (Dependency j).
Proof using Type. unfold apply_accumulated. destruct acc as [a|]; [|done]. by destruct (DeltaOp.apply_to a v). Qed.

Lemma read_loop_dependency base (l : list (TxnIndex * Entry WriteOp.t)) a (j : TxnIndex) : read_loop base l a = Err (Dependency j) -> exists e, (j, e) ∈ l.
Proof using Type.
  revert a. induction l as [|[k e] l IH]; intros a; cbn [read_loop].
  - destruct a as [[a|]|]; try done. destruct base; [|done]. by intros ?%apply_accumulated_independent.
  - case_bool_decide; [intros [= <-]; exists e; by left|]. intros Hr. enough (exists e, (j, e) ∈ l) as [e' ?] by (exists e'; by right).
    destruct (cell e) as [inc w|d [x|]]; destruct a as [acc|]; try done; try (by apply apply_accumulated_independent in Hr); try (by eapply IH).
    + destruct (from_write w) as [[v|]| |] eqn:Ew; simpl in Hr; try done; [by apply apply_accumulated_independent in Hr|].
      unfold from_write in Ew. destruct (extract_raw_bytes w) as [bytes|]; [|done]. by destruct (from_bytes bytes).
    + destruct acc as [acc|]; [|by eapply IH]. destruct (DeltaOp.merge_with_previous_delta acc d); try done; by eapply IH.
Qed.

Lemma dependency_below w key (i j : TxnIndex) : inv kind block w -> fetch_data (cache w).1 key i = Err (Dependency j) -> 0 <= j < i.
Proof using Type.
  intros Hw. change (cache w).1 with (data w). rewrite fetch_default. unfold read. intros (e & He)%read_loop_dependency. rewrite elem_of_reverse in He.
  unfold below in He. apply list_elem_of_In, filter_In in He as [He Hlt%Z.ltb_lt]. simpl in Hlt. split; [|done]. apply list_elem_of_In, BTreeMap.get_elem_of in He; [|by eapply value_map_ordered].
  assert (entry_at w key j = Some e) as Hen by (unfold entry_at, entries_of; by destruct (data w !! key)).
  destruct (inv_entries _ _ _ Hw _ _ _ Hen) as (inc & r & Hr & _). by apply (inv_history _ _ _ Hw) in Hr as [? _].
Qed.

Lemma meets_below w (i j : TxnIndex) : inv kind block w -> meets_dependency w i = Some j -> 0 <= j < i /\ reading w i.
Proof using Type.
  intros Hw. unfold meets_dependency, reading. destruct (active w !! i) as [[inc [r|key continue] reads| |]|]; try done.
  destruct (is_module_path key); [done|]. destruct (fetch_data _ key i) as [|[]|] eqn:E; try done. intros [= <-]. split; [by eapply dependency_below|eauto].
Qed.

(** The worker is not waiting any more, or has not begun to. *)
Lemma linv_released S S' (i : TxnIndex) : linv S -> Scheduler.condvars (scheduler S) !! i <> Some Scheduler.Unresolved ->
  (reading (world_of S) i -> reading (world_of S') i) -> (is_Some (finishing S !! i) -> ~ busy (world_of S') i) ->
  Scheduler.execution_status (scheduler S') = Scheduler.execution_status (scheduler S) ->
  Scheduler.txn_dependency (scheduler S') = Scheduler.txn_dependency (scheduler S) ->
  (forall k : TxnIndex, k <> i -> Scheduler.condvars (scheduler S') !! k = Scheduler.condvars (scheduler S) !! k /\ asking S' !! k = asking S !! k /\
    active (world_of S') !! k = active (world_of S) !! k) ->
  Scheduler.condvars (scheduler S') !! i = None -> (forall j : TxnIndex, asking S' !! i = Some j -> 0 <= j < i /\ reading (world_of S') i) ->
  wakes S' = wakes S -> finishing S' = finishing S -> (forall k, served S S' k) -> linv S'.
Proof using Type.
  intros Hs Hc Hread Hb Ex Et Hoth Ec Has Ek Ef Hserved. pose proof Hs as [Hl Hw]. assert (forall k, Scheduler.status (scheduler S') k = Scheduler.status (scheduler S) k) as Est.
  { intros k. unfold Scheduler.status. by rewrite Ex. }
  assert (forall j, waiters S' j = waiters S j) as Ewt by (intros j; unfold waiters, Scheduler.dependencies, resuming; by rewrite Et, Ef).
  apply (linv_touch S S' i); rewrite ?Ek, ?Ef; auto; try (intros k Hk; by apply Hoth).
  - apply Hl.
  - unfold resuming. by rewrite Ef.
  - destruct (Hw i). split; rewrite ?Est, ?Ec, ?Ek, ?Ef; auto; try done.
    + intros j. rewrite Ewt. apply wo_waiter0.
    + intros n Hn. destruct (wo_suspended0 n Hn). done.
    + intros Hin. by destruct Hc; apply wo_wakes0.
    + intros k. unfold Scheduler.dependencies, Scheduler.is_executed in *. rewrite Et, Est. apply wo_executed0.
    + intros n Hd Hr Hn. destruct (Hserved i Hd) as (Hd0 & H1 & _ & H3). destruct (wo_ready0 n Hd0 Hr Hn); auto.
    + intros n Hd Hr Hn. destruct (wo_suspended0 n ltac:(by right)). done.
Qed.

Lemma halt_read_reading w (i : TxnIndex) w' : halt_read w i = Some w' -> reading w i /\ reading w' i /\ forall k : TxnIndex, k <> i -> active w' !! k = active w !! k.
Proof using Type.
  unfold halt_read, reading. destruct (active w !! i) as [[inc [r|key continue] reads| |]|]; try done. simpl. destruct (is_module_path key); [done|].
  intros [= <-]. split_and!; [eauto|eexists _, _, _; apply active_set|]. intros k Hk. by apply active_set_ne.
Qed.

Lemma reading_busy w (i : TxnIndex) : reading w i -> busy w i.
Proof using Type. intros (inc & p & reads & E). unfold busy. by rewrite E. Qed.

Lemma suspend_linv S (i j : TxnIndex) inc S' : linv S -> asking S !! i = Some j -> Scheduler.status (scheduler S) i = Scheduler.Executing inc ->
  Scheduler.is_executed j true (scheduler S) = None ->
  S' = set_asking i None (set_scheduler (Scheduler.set_dependencies j (Scheduler.dependencies (scheduler S) j ++ [i])
    (Scheduler.set_condvar i (Some Scheduler.Unresolved) (Scheduler.set_status i (Scheduler.Suspended inc) (scheduler S)))) S) -> linv S'.
Proof using Type.
  intros Hs Has Est Hex ->. pose proof Hs as [Hl Hw]. set (s' := Scheduler.set_dependencies _ _ _). set (S' := set_asking _ _ _).
  assert (forall k, Scheduler.dependencies s' k = if bool_decide (k = j) then Scheduler.dependencies (scheduler S) j ++ [i] else Scheduler.dependencies (scheduler S) k) as Hdep.
  { intros k. unfold Scheduler.dependencies at 1. simpl. case_bool_decide; [subst; by rewrite lookup_insert_eq|by rewrite lookup_insert_ne]. }
  assert (forall k, waiters S' k ≡ₚ (if bool_decide (k = j) then i :: waiters S k else waiters S k)) as Hwt.
  { intros k. unfold waiters. change (resuming S' k) with (resuming S k). change (scheduler S') with s'. rewrite Hdep. case_bool_decide as E; [|done]. subst k.
    by rewrite <-app_assoc, (Permutation_app_comm _ ([i] ++ _)), <-app_assoc, (Permutation_app_comm (resuming S j)). }
  assert (forall x k, x ∈ waiters S' k <-> x ∈ waiters S k \/ k = j /\ x = i) as Hin.
  { intros x k. rewrite Hwt. case_bool_decide; [rewrite elem_of_cons; tauto|tauto]. }
  assert (forall k, Scheduler.status s' k = if bool_decide (k = i) then Scheduler.Suspended inc else Scheduler.status (scheduler S) k) as Hst.
  { intros k. change (Scheduler.status s' k) with (Scheduler.status (Scheduler.set_status i (Scheduler.Suspended inc) (scheduler S)) k). apply status_set. }
  assert (forall k, i ∉ waiters S k) as Hno by (intros k Hk; destruct (wo_waiter _ _ (Hw i) k Hk) as [[n E]|E]; congruence).
  destruct (wo_asking _ _ (Hw i) j Has) as (Hc & Hj & Hread). apply (linv_at S S' i); [done| | |].
  - intros k Hk. apply (waits_frame S); simpl; auto.
    + fold s'. by rewrite Hst, bool_decide_eq_false_2.
    + by rewrite partial_set, bool_decide_eq_false_2.
    + by rewrite partial_set, bool_decide_eq_false_2.
    + intros x. fold s'. rewrite Hdep. case_bool_decide; [subst; auto|auto].
    + intros x. rewrite Hin. naive_solver.
    + by apply served_same.
  - destruct (Hw i). split; simpl; fold s'; rewrite ?Hst, ?partial_set, ?bool_decide_eq_true_2 by done; auto; try done.
    + intros. left. eauto.
    + intros n _. split; [done|]. intros Hk. specialize (wo_wakes0 Hk). congruence.
    + intros _. left. exists inc, j. split; [done|]. apply Hin. auto.
    + intros k. unfold Scheduler.is_executed. rewrite Hst, bool_decide_eq_true_2 by done. by left.
  - destruct Hl. split.
    + intros x k [?|[-> ->]]%Hin; [eauto|done].
    + intros k. rewrite Hwt. case_bool_decide; [|done]. apply NoDup_cons. split; [apply Hno|done].
    + intros x k m [H1|[-> ->]]%Hin [H2|[-> E]]%Hin; subst; eauto; by apply Hno in H1 || by apply Hno in H2.
    + done.
Qed.

Lemma execute_linv S (i : TxnIndex) S' : linv S -> sinv kind block S -> Scheduler.condvars (scheduler S) !! i = None -> asking S !! i = None ->
  execute S i = Some S' -> fell_back (world_of S') = false -> linv S'.
Proof using Type.
  intros Hs Hsi Hc Has. pose proof (wo_finishing _ _ (proj2 Hs i)) as Hfb. unfold execute, turn. destruct (active (world_of S) !! i) as [[inc [r|key continue] reads|inc reads r [|u todo]|[|[key m] todo]]|] eqn:Ha; [| | | | | |done].
  - intros [= <-] _. apply (linv_act S _ i); simpl; auto.
    + intros k Hk. by rewrite lookup_partial_alter_ne.
    + intros Hf. destruct (Hfb Hf). unfold busy. by rewrite Ha.
  - destruct (turn_read _ _ _ _ _ _) as [w'|] eqn:Et; [|done]. intros [= <-] _. apply (linv_act S _ i); simpl; auto.
    + intros k Hk. split; [|done]. revert Et. unfold turn_read. destruct (is_module_path key).
      * destruct (module_answer _ _); simpl; [|done]. intros [= <-]. by apply active_set_ne.
      * destruct (fetch_captured _) as [[res [rk|]]|]; [| |done]; [destruct res; simpl; try done; intros [= <-]; by apply active_set_ne|].
        destruct res; try done. destruct (get_state_value_u128 _ key) as [[v|]|e|]; try done; [|intros [= <-]; by apply active_set_ne..].
        destruct (set_aggregator_base_value key v _) as [d [[]| |]]; try done. by intros [= <-].
    + intros Hf. destruct (Hfb Hf). unfold busy. by rewrite Ha.
  - destruct (record i reads (status_of r) (last_input_output (world_of S))) as [io o] eqn:Er. simpl.
    pose proof (record_failed i reads (status_of r) (last_input_output (world_of S))) as Hfail. rewrite Er in Hfail. simpl in Hfail.
    destruct o as [[]|e|]; intros [= <-] Hf; [|exfalso; revert Hf; unfold halt, fell_back; simpl; destruct (Scheduler.done_marker (scheduler S)); simpl; rewrite Hfail; done..].
    assert (finishing S !! i = None) as Hnone by (destruct (finishing S !! i) eqn:E; [|done]; destruct Hfb; [by eexists|unfold busy; by rewrite Ha]).
    apply (linv_act S _ i); simpl; auto.
    + intros k Hk. by rewrite lookup_partial_alter_ne, partial_set, bool_decide_eq_false_2.
    + right. split; [done|]. eexists. by rewrite partial_set, bool_decide_eq_true_2.
    + intros _. unfold busy. simpl. rewrite lookup_partial_alter_eq. auto.
  - destruct (perform_update _ _ _) as [c [[]| |]] eqn:Ep; try done. intros [= <-] _. apply (linv_act S _ i); simpl; auto.
    + intros k Hk. rewrite lookup_partial_alter_ne by done. by destruct u.
    + intros Hf. destruct (Hfb Hf). unfold busy. by rewrite Ha.
  - simpl. destruct (aborts S !! i) as [[inc st]|] eqn:Eab; simpl; [|done]. intros [= <-] _. apply (linv_act S _ i); simpl; auto.
    + intros k Hk. by rewrite lookup_partial_alter_ne.
    + intros k. rewrite partial_set. case_bool_decide; [|done]. intros _. by eexists.
    + intros _. unfold busy. simpl. rewrite lookup_partial_alter_eq. auto.
  - destruct (perform_estimate _ _ _ _) as [c [[]| |]] eqn:Ep; try done. intros [= <-] _. apply (linv_act S _ i); simpl; auto.
    + intros k Hk. by rewrite lookup_partial_alter_ne.
    + intros _. unfold busy. simpl. rewrite lookup_partial_alter_eq. auto.
Qed.

Lemma work_linv S (i : TxnIndex) S' : linv S -> sinv kind block S -> inv kind block (world_of S) -> work S i = Some S' -> fell_back (world_of S') = false -> linv S'.
Proof using Type.
  intros Hs Hsi Hinv. pose proof Hs as [Hl Hw]. destruct (Hw i) as [? ? ? Hask Hwait _ _ Hfb _ _]. unfold work.
  destruct (Scheduler.condvars (scheduler S) !! i) as [[]|] eqn:Ecv; [done| | |].
  - intros [= <-] _. apply (linv_released S _ i); simpl; auto; try congruence.
    + intros k Hk. by rewrite partial_set, bool_decide_eq_false_2.
    + by rewrite partial_set, bool_decide_eq_true_2.
    + intros j Hj. destruct (Hask j Hj). congruence.
    + intros k. by apply served_same.
  - destruct (halt_read _ i) as [w'|] eqn:Eh; simpl; [|done]. intros [= <-] _. destruct (halt_read_reading _ _ _ Eh) as (Hr & Hr' & Hoth).
    apply (linv_released S _ i); simpl; auto; try congruence.
    + intros Hf. destruct (Hfb Hf). by apply reading_busy.
    + intros k Hk. by rewrite partial_set, bool_decide_eq_false_2, Hoth.
    + by rewrite partial_set, bool_decide_eq_true_2.
    + intros j Hj. destruct (Hask j Hj). congruence.
    + intros k. by apply served_same.
  - assert (forall S1, scheduler S1 = scheduler S -> wakes S1 = wakes S -> finishing S1 = finishing S -> aborts S1 = aborts S -> picks S1 = picks S -> rechecks S1 = rechecks S ->
      (forall k : TxnIndex, k <> i -> asking S1 !! k = asking S !! k /\ active (world_of S1) !! k = active (world_of S) !! k) ->
      (reading (world_of S) i -> reading (world_of S1) i) -> (is_Some (finishing S !! i) -> ~ busy (world_of S1) i) ->
      (forall j : TxnIndex, asking S1 !! i = Some j -> 0 <= j < i /\ reading (world_of S1) i) -> linv S1) as Hgo.
    { intros S1 E1 E2 E3 E4 E5 E6 H1 H2 H3 H4. apply (linv_released S _ i); rewrite ?E1; auto; try congruence.
      intros k. apply served_same; by rewrite ?E1. }
    destruct (asking S !! i) as [j|] eqn:Eas.
    + destruct (Hask j eq_refl) as (_ & Hj & Hread). unfold Scheduler.wait_for_dependency. destruct (Scheduler.is_executed j true (scheduler S)) eqn:Ex.
      * intros [= <-] _. apply Hgo; simpl; auto.
        -- intros k Hk. by rewrite partial_set, bool_decide_eq_false_2.
        -- rewrite partial_set, bool_decide_eq_true_2 by done. done.
      * unfold Scheduler.suspend. destruct (Scheduler.status (scheduler S) i) as [|inc| | | | |] eqn:Est; try done.
        -- intros [= <-] _. by eapply (suspend_linv S i j inc).
        -- destruct (halt_read _ i) as [w'|] eqn:Eh; simpl; [|done]. intros [= <-] _. destruct (halt_read_reading _ _ _ Eh) as (Hr & Hr' & Hoth). apply Hgo; simpl; auto.
           ++ intros k Hk. by rewrite partial_set, bool_decide_eq_false_2, Hoth.
           ++ intros Hf. destruct (Hfb Hf). by apply reading_busy.
           ++ intros j'. by rewrite partial_set, bool_decide_eq_true_2.
    + destruct (meets_dependency _ i) as [j|] eqn:Em; [|intros; by eapply execute_linv]. intros [= <-] _. destruct (meets_below _ _ _ Hinv Em) as [Hj Hread]. apply Hgo; simpl; auto.
      * intros k Hk. by rewrite partial_set, bool_decide_eq_false_2.
      * intros j'. rewrite partial_set, bool_decide_eq_true_2 by done. intros [= <-]. done.
Qed.

(** ** [finish_execution] *)
Lemma decrease_keeps b target d s s' res : decrease b target d s = Some (s', res) ->
  Scheduler.txn_dependency s' = Scheduler.txn_dependency s /\ Scheduler.execution_idx s' = Scheduler.execution_idx s.
Proof using Type.
  destruct d as [|[idx wave]|[idx wave]]; simpl.
  - destruct (_ <=? _); [by intros [= <- <-]|]. destruct (Scheduler.validation_idx s) as [idx wave]. destruct (_ <? _); by intros [= <- <-].
  - destruct (_ && _); [|done]. by intros [= <- <-].
  - unfold Scheduler.exchange_validation_idx. case_bool_decide; by intros [= <- <-].
Qed.

(** A transaction whose execution is recorded does not wait: its status is [Executing]. *)
Lemma lock_executing S (i : TxnIndex) inc suffix : linv S -> sinv kind block S -> finishing S !! i = Some (inc, suffix, XLock) ->
  Scheduler.status (scheduler S) i = Scheduler.Halted \/ Scheduler.status (scheduler S) i = Scheduler.Executing inc.
Proof using Type.
  intros [_ Hw] Hsi Hfi. destruct (Hw i). destruct (lock_status _ _ _ _ (si_link _ _ _ Hsi i) Hfi) as [?|[Hr _]]; [by left|]. right.
  assert (forall n, Scheduler.status (scheduler S) i = Scheduler.Suspended n \/ Scheduler.status (scheduler S) i = Scheduler.Ready n Scheduler.Wakeup -> False) as Hno.
  { intros n Hn. destruct (wo_suspended0 n Hn) as [Hc _]. apply wo_finishing0; [rewrite Hfi; by eexists|]. apply reading_busy, wo_waiting0. rewrite Hc. by eexists. }
  destruct Hr as [E|[E|E]]; [|done|]; exfalso; eapply Hno; eauto.
Qed.

(** A stage without dependencies. *)
Lemma finishing_linv S S' (i : TxnIndex) inc suffix st : linv S -> finishing S !! i = Some (inc, suffix, st) ->
  match st with XTake | XResume _ _ => False | _ => True end ->
  Scheduler.execution_status (scheduler S') = Scheduler.execution_status (scheduler S) ->
  Scheduler.txn_dependency (scheduler S') = Scheduler.txn_dependency (scheduler S) -> Scheduler.condvars (scheduler S') = Scheduler.condvars (scheduler S) ->
  Scheduler.done_marker (scheduler S') = Scheduler.done_marker (scheduler S) -> Scheduler.execution_idx (scheduler S') = Scheduler.execution_idx (scheduler S) ->
  asking S' = asking S -> wakes S' = wakes S -> world_of S' = world_of S -> picks S' = picks S -> rechecks S' = rechecks S -> aborts S' = aborts S ->
  (forall k : TxnIndex, k <> i -> finishing S' !! k = finishing S !! k) ->
  (forall x st', finishing S' !! i = Some (x, st') -> match st' with XResume _ _ => False | _ => True end) -> linv S'.
Proof using Type.
  intros Hs Hfi Hst E1 E2 E3 E4 E5 E6 E7 E8 E9 E10 E11 Hoth Hst'. apply (linv_calm S); auto.
  - by rewrite E8.
  - intros k. destruct (decide (k = i)) as [->|Hne]; [right|left; auto]. split_and!.
    + unfold resuming. rewrite Hfi. by destruct st.
    + unfold resuming. destruct (finishing S' !! i) as [[x st']|] eqn:E; [|done]. specialize (Hst' x st' eq_refl). by destruct st'.
    + intros x. rewrite Hfi. by destruct st.
    + intros _. rewrite Hfi. by eexists.
  - intros k. apply served_mono; [by rewrite E4|unfold handed; by rewrite E5, E9, E10| |rewrite E11; auto].
    intros j. destruct (decide (j = i)) as [->|Hne]; [right|left; auto]. intros x deps m. rewrite Hfi. by destruct st.
Qed.

Lemma take_linv S (i : TxnIndex) inc suffix : linv S -> finishing S !! i = Some (inc, suffix, XTake) ->
  linv (set_finishing i (Some (inc, suffix, XResume (Scheduler.dependencies (scheduler S) i) None)) (set_scheduler (Scheduler.set_dependencies i [] (scheduler S)) S)).
Proof using Type.
  intros Hs Hfi. pose proof Hs as [Hl Hw]. set (S' := set_finishing _ _ _).
  assert (forall k, Scheduler.dependencies (scheduler S') k = if bool_decide (k = i) then [] else Scheduler.dependencies (scheduler S) k) as Hdep.
  { intros k. unfold Scheduler.dependencies. simpl. case_bool_decide; [subst; by rewrite lookup_insert_eq|by rewrite lookup_insert_ne]. }
  assert (forall k, waiters S' k = waiters S k) as Ewt.
  { intros k. unfold waiters. rewrite Hdep. unfold resuming. simpl. rewrite partial_set. case_bool_decide; [subst; by rewrite Hfi, app_nil_r|done]. }
  assert (forall k, served S S' k) as Hserved.
  { intros k. apply served_mono; simpl; auto. intros j. rewrite partial_set. case_bool_decide; [subst; right; by rewrite Hfi|by left]. }
  apply (linv_at S S' i); [done| | |by apply (lists_frame S)].
  - intros k Hk. apply (waits_frame S); auto; simpl; rewrite ?partial_set, ?bool_decide_eq_false_2 by done; auto.
    + intros x. rewrite Hdep, bool_decide_eq_false_2 by done. by left.
    + intros j. by rewrite Ewt.
  - destruct (Hw i). split; simpl; rewrite ?partial_set, ?bool_decide_eq_true_2 by done; auto.
    + intros j. rewrite Ewt. apply wo_waiter0.
    + intros E. destruct (wo_unresolved0 E) as [(n & j & ? & ?)|?]; [|by right]. left. exists n, j. by rewrite Ewt.
    + intros k. pose proof (Hdep i) as E. simpl in E. rewrite E, bool_decide_eq_true_2 by done. by intros ?%not_elem_of_nil.
    + intros n Hd Hr E. destruct (Hserved i Hd) as (Hd0 & H1 & H2 & _). destruct (wo_wakeup0 n Hd0 Hr E); auto.
Qed.

(** What is resumed is not in a list any more, and nothing else changes. *)
Lemma resume_waiters S S' (i dep : TxnIndex) deps x m m' : lists_ok S -> finishing S !! i = Some (x, XResume (dep :: deps) m) ->
  Scheduler.txn_dependency (scheduler S') = Scheduler.txn_dependency (scheduler S) ->
  finishing S' = partial_alter (fun _ => Some (x, XResume deps m')) i (finishing S) -> wakes S' = wakes S ->
  i < dep /\ lists_ok S' /\ (forall j, dep ∉ waiters S' j) /\ forall y j, y <> dep -> y ∈ waiters S' j <-> y ∈ waiters S j.
Proof using Type.
  intros Hl Hfi Et Ef Ek. assert (forall j, j <> i -> waiters S' j = waiters S j) as Ewj.
  { intros j Hj. unfold waiters, resuming, Scheduler.dependencies. by rewrite Et, Ef, partial_set, bool_decide_eq_false_2. }
  assert (waiters S i = Scheduler.dependencies (scheduler S) i ++ dep :: deps) as Ewi by (unfold waiters, resuming; by rewrite Hfi).
  assert (waiters S' i = Scheduler.dependencies (scheduler S) i ++ deps) as Ewi'.
  { unfold waiters, resuming, Scheduler.dependencies. by rewrite Et, Ef, partial_set, bool_decide_eq_true_2. }
  assert (dep ∈ waiters S i) as Hdi by (rewrite Ewi; apply elem_of_app; right; by left).
  assert (NoDup (waiters S' i) /\ dep ∉ waiters S' i /\ forall y, y <> dep -> y ∈ waiters S' i <-> y ∈ waiters S i) as (Hnd & Hni & Hxi).
  { pose proof (lo_once _ Hl i) as Hn. rewrite Ewi, <-Permutation_middle in Hn. apply NoDup_cons in Hn as [Hn1 Hn2]. rewrite Ewi, Ewi'. split_and!; try done.
    intros y Hy. rewrite !elem_of_app, elem_of_cons. tauto. }
  assert (forall j, dep ∉ waiters S' j) as Hnj.
  { intros j. destruct (decide (j = i)) as [->|Hne]; [done|]. rewrite Ewj by done. intros Hin. by destruct Hne; eapply lo_unique. }
  assert (forall y j, y <> dep -> y ∈ waiters S' j <-> y ∈ waiters S j) as Hy.
  { intros y j Hyd. destruct (decide (j = i)) as [->|Hne]; [auto|by rewrite Ewj]. }
  split_and!; try done; [by destruct (lo_below _ Hl _ _ Hdi)|].
  split; [|intros j; destruct (decide (j = i)) as [->|Hne]; [done|rewrite Ewj by done; apply Hl]| |rewrite Ek; apply Hl].
  - intros y j Hin. destruct (decide (y = dep)) as [->|Hne]; [by apply Hnj in Hin|]. rewrite Hy in Hin by done. by apply Hl.
  - intros y j k H1 H2. destruct (decide (y = dep)) as [->|Hne]; [by apply Hnj in H1|]. rewrite Hy in H1, H2 by done. by eapply lo_unique.
Qed.

Lemma resume_linv S (i dep : TxnIndex) deps inc suffix m m' s' S' : linv S -> finishing S !! i = Some (inc, suffix, XResume (dep :: deps) m) ->
  m' = match m with Some m => Z.min m dep | None => dep end ->
  (exists n, Scheduler.status (scheduler S) dep = Scheduler.Suspended n /\ s' = Scheduler.set_status dep (Scheduler.Ready n Scheduler.Wakeup) (scheduler S)) \/
    Scheduler.status (scheduler S) dep = Scheduler.Halted /\ s' = scheduler S ->
  S' = set_finishing i (Some (inc, suffix, XResume deps (Some m'))) (set_scheduler s' S) -> linv S'.
Proof using Type.
  intros Hs Hfi Em Hs' ->. pose proof Hs as [Hl Hw]. set (S' := set_finishing _ _ _).
  assert (scheduler S' = s') as Esch by done.
  assert (Scheduler.txn_dependency s' = Scheduler.txn_dependency (scheduler S) /\ Scheduler.condvars s' = Scheduler.condvars (scheduler S) /\
    Scheduler.done_marker s' = Scheduler.done_marker (scheduler S) /\ Scheduler.execution_idx s' = Scheduler.execution_idx (scheduler S)) as (E1 & E2 & E3 & E4).
  { by destruct Hs' as [(n & _ & ->)|[_ ->]]. }
  assert (forall k, k <> dep -> Scheduler.status s' k = Scheduler.status (scheduler S) k) as Est.
  { intros k Hk. destruct Hs' as [(n & _ & ->)|[_ ->]]; [|done]. by rewrite status_set, bool_decide_eq_false_2. }
  destruct (resume_waiters S S' i dep deps (inc, suffix) m (Some m') Hl Hfi E1 eq_refl eq_refl) as (Hbelow & Hl' & Hnj & Hx).
  assert (lowering S' dep) as Hlow.
  { exists i, (inc, suffix), deps, m'. simpl. rewrite partial_set, bool_decide_eq_true_2 by done. split; [done|]. subst m'. destruct m; lia. }
  assert (forall k, served S S' k) as Hserved.
  { intros k Hd. rewrite Esch, E3 in Hd. unfold handed. rewrite Esch, E4. split_and!; auto. intros (j & x & ds & m0 & E & Hle). right.
    destruct (decide (j = i)) as [->|Hne].
    - exists i, (inc, suffix), deps, m'. simpl. rewrite partial_set, bool_decide_eq_true_2 by done. split; [done|]. rewrite Hfi in E. injection E as _ _ ->. subst m'. lia.
    - exists j, x, ds, m0. simpl. by rewrite partial_set, bool_decide_eq_false_2. }
  apply (linv_at S S' dep); [done| | |done].
  - intros k Hk. apply (waits_frame S); rewrite ?Esch, ?E2; auto; simpl; rewrite ?partial_set.
    + unfold Scheduler.dependencies. rewrite E1. by left.
    + intros x. case_bool_decide as E; [by rewrite E, Hfi|done].
    + case_bool_decide as E; [intros _; rewrite E, Hfi; by eexists|done].
  - destruct (Hw dep). split; rewrite ?Esch, ?E2; auto.
    + intros j Hin. by apply Hnj in Hin.
    + intros n Hn. destruct Hs' as [(n0 & E & ->)|[E ->]]; [by apply (wo_suspended0 n0); left|by apply (wo_suspended0 n)].
    + intros E. destruct Hs' as [(n0 & Ed & ->)|[Ed ->]].
      * right. left. exists n0. by rewrite status_set, bool_decide_eq_true_2.
      * destruct (wo_unresolved0 E) as [(n & j & ? & _)|[(n & ?)|?]]; [congruence..|auto].
    + intros k _. left. unfold Scheduler.is_executed. destruct Hs' as [(n0 & Ed & ->)|[Ed ->]]; [by rewrite status_set, bool_decide_eq_true_2|by rewrite Ed].
    + simpl. rewrite partial_set, bool_decide_eq_false_2 by lia. done.
    + intros n _ _ E. exfalso. destruct Hs' as [(n0 & Ed & ->)|[Ed ->]]; [by rewrite status_set, bool_decide_eq_true_2 in E|congruence].
Qed.

Lemma executed_linv S (i : TxnIndex) inc suffix : linv S -> sinv kind block S -> finishing S !! i = Some (inc, suffix, XLock) ->
  linv (set_finishing i (Some (inc, suffix, XTake)) (set_scheduler (Scheduler.set_executed_status i inc (scheduler S)) S)).
Proof using Type.
  intros Hs Hsi Hfi. pose proof (wo_finishing _ _ (proj2 Hs i)) as Hfb. rewrite Hfi in Hfb. specialize (Hfb ltac:(by eexists)).
  unfold Scheduler.set_executed_status. destruct (lock_executing _ _ _ _ Hs Hsi Hfi) as [E|E]; rewrite E.
  - apply (finishing_linv S _ i inc suffix XLock); simpl; auto.
    + intros k Hk. by rewrite partial_set, bool_decide_eq_false_2.
    + intros x st'. rewrite partial_set, bool_decide_eq_true_2 by done. by intros [= <- <-].
  - apply (set_status_linv S _ i (Scheduler.Executing inc) (Scheduler.Executed inc)); simpl; auto; try done.
    + by rewrite status_set, bool_decide_eq_true_2.
    + intros k Hk. by rewrite status_set, bool_decide_eq_false_2.
    + intros k Hk. by rewrite partial_set, bool_decide_eq_false_2.
    + right. unfold resuming. simpl. by rewrite Hfi, partial_set, bool_decide_eq_true_2.
    + intros k. left. apply served_mono; simpl; auto. intros j. rewrite partial_set. case_bool_decide as Ej; [right|by left]. intros x deps m. by rewrite Ej, Hfi.
    + intros k _. right. eexists. by rewrite partial_set, bool_decide_eq_true_2.
Qed.

Lemma lower_linv S (i : TxnIndex) inc suffix m S' : linv S -> finishing S !! i = Some (inc, suffix, XResume [] m) ->
  S' = set_finishing i (Some (inc, suffix, XLoad)) (set_scheduler match m with
    | Some target => Scheduler.set_indices (Z.min (Scheduler.execution_idx (scheduler S)) target) (Scheduler.validation_idx (scheduler S)) (scheduler S)
    | None => scheduler S end S) -> linv S'.
Proof using Type.
  intros Hs Hfi ES. assert (Scheduler.execution_idx (scheduler S') <= Scheduler.execution_idx (scheduler S) /\
    forall t, m = Some t -> Scheduler.execution_idx (scheduler S') <= t) as [Hle Hm].
  { subst S'. destruct m as [t|]; simpl; [|done]. split; [lia|]. intros ? [= ->]. lia. }
  assert (finishing S' = partial_alter (fun _ => Some (inc, suffix, XLoad)) i (finishing S)) as Ef by (by subst S').
  assert (picks S' = picks S /\ rechecks S' = rechecks S /\ aborts S' = aborts S /\ Scheduler.done_marker (scheduler S') = Scheduler.done_marker (scheduler S)) as (E1 & E2 & E3 & E4).
  { subst S'. by destruct m. }
  apply (linv_calm S); try (by subst S'; destruct m).
  - intros k. rewrite Ef, partial_set. case_bool_decide as E; [subst k; right|by left]. unfold resuming. rewrite Ef, partial_set, bool_decide_eq_true_2, Hfi by done.
    by split_and!.
  - intros k Hd. unfold handed, lowering. rewrite E1, E2, E3, Ef. rewrite E4 in Hd. split_and!; auto.
    + intros [?|?]; [left; lia|auto].
    + intros (j & x & deps & m0 & E & Hk). destruct (decide (j = i)) as [->|Hne].
      * left. left. rewrite Hfi in E. injection E as _ _ ->. specialize (Hm m0 eq_refl). lia.
      * right. exists j, x, deps, m0. by rewrite partial_set, bool_decide_eq_false_2.
Qed.

Lemma finish_execution_linv S (i : TxnIndex) S' : linv S -> sinv kind block S -> finish_execution S i = Some S' -> linv S'.
Proof using Type.
  intros Hs Hsi. unfold finish_execution. destruct (finishing S !! i) as [[[inc suffix] st]|] eqn:Hfi; simpl; [|done].
  assert (forall s' x, match st with XTake | XResume _ _ => False | _ => True end -> decreased (i + 1) (scheduler S) s' ->
    Scheduler.txn_dependency s' = Scheduler.txn_dependency (scheduler S) -> Scheduler.execution_idx s' = Scheduler.execution_idx (scheduler S) ->
    (forall st', x = Some (inc, suffix, st') -> match st' with XResume _ _ => False | _ => True end) -> (forall y, x = Some y -> y.1 = (inc, suffix)) ->
    linv (set_finishing i x (set_scheduler s' S))) as Hgo.
  { intros s' x Hst [] E1 E2 Hx1 Hx2. apply (finishing_linv S _ i inc suffix st); simpl; auto.
    - intros k Hk. by rewrite partial_set, bool_decide_eq_false_2.
    - intros y st'. rewrite partial_set, bool_decide_eq_true_2 by done. intros E. pose proof (Hx2 _ E) as Ey. simpl in Ey. subst y. by apply Hx1. }
  pose proof (wv_index _ (si_waves _ _ _ Hsi)) as Hidx. pose proof (wv_finishing _ (si_waves _ _ _ Hsi) _ _ _ Hfi) as [Hi0 Hok].
  destruct st as [| |[|dep deps] m| |cur_wave d|wave].
  - destruct (locked_by_abort S i); [done|]. intros [= <-]. by apply executed_linv.
  - intros [= <-]. by apply take_linv.
  - intros [= <-]. by eapply lower_linv.
  - unfold Scheduler.resume. destruct (Scheduler.status (scheduler S) dep) as [| |n| | | |] eqn:Est; try done; intros [= <-]; eapply resume_linv; eauto.
  - destruct (Scheduler.validation_idx (scheduler S)) as [cv cw]. destruct (i <? cv); intros [= <-].
    + apply Hgo; try done; try (by apply decreased_refl); [intros st' [= <-]; by destruct suffix|by intros y [= <-]].
    + change (set_finishing i None S) with (set_finishing i None (set_scheduler (scheduler S) S)). apply Hgo; try done; by apply decreased_refl.
  - destruct Hok as [_ Hsw]. destruct (decrease _ _ _ _) as [[s' res]|] eqn:Ed; [|done].
    destruct (decrease_decreased _ _ _ (i + 1) _ _ _ Hidx (si_num _ _ _ Hsi) ltac:(lia) Hsw Ed) as [Hdec _].
    assert (Scheduler.txn_dependency s' = Scheduler.txn_dependency (scheduler S) /\ Scheduler.execution_idx s' = Scheduler.execution_idx (scheduler S)) as [E1 E2] by (by eapply decrease_keeps).
    destruct res as [d'|wave]; intros [= <-]; apply Hgo; try done; try (by intros st' [= <-]); by intros y [= <-].
  - intros [= <-]. apply (finishing_linv S _ i inc suffix (XRequire wave)); simpl; auto.
    + intros k Hk. by rewrite partial_set, bool_decide_eq_false_2.
    + intros x st'. by rewrite partial_set, bool_decide_eq_true_2.
Qed.

(** ** [finish_abort] *)
Lemma finish_abort_linv S (i : TxnIndex) S' : linv S -> sinv kind block S -> finish_abort S i = Some S' -> linv S'.
Proof using Type.
  intros Hs Hsi. unfold finish_abort. destruct (aborts S !! i) as [[inc [| |d]]|] eqn:Hab; simpl; try done.
  - destruct (locked_by_finish S i); [done|]. intros [= <-]. unfold Scheduler.set_aborted_status.
    assert (forall s' k, Scheduler.execution_idx s' = Scheduler.execution_idx (scheduler S) -> Scheduler.done_marker s' = Scheduler.done_marker (scheduler S) ->
      served S (set_abort i (Some (inc, ADecrease DLoad)) (set_scheduler s' S)) k) as Hserved.
    { intros s' k E1 E2. apply served_mono; simpl; auto; [by rewrite E2|unfold handed; simpl; by rewrite E1|]. rewrite partial_set. case_bool_decide; [|auto]. intros _. right. by eexists. }
    destruct (abort_lock_status _ _ _ (si_link _ _ _ Hsi i) Hab) as [E|E]; rewrite E.
    + apply (linv_calm S); simpl; auto.
    + apply (set_status_linv S _ i (Scheduler.Aborting inc) (Scheduler.Ready (inc + 1) Scheduler.Execution)); simpl; auto; try done.
      * by rewrite status_set, bool_decide_eq_true_2.
      * intros k Hk. by rewrite status_set, bool_decide_eq_false_2.
      * intros k _. left. unfold Scheduler.is_executed. by rewrite status_set, bool_decide_eq_true_2.
      * apply (proj2 Hs i).
      * intros n _ _ _. right. rewrite partial_set, bool_decide_eq_true_2 by done. by eexists.
  - pose proof (wv_aborts _ (si_waves _ _ _ Hsi) _ _ _ Hab) as [Hi0 Hsw]. pose proof (wv_index _ (si_waves _ _ _ Hsi)) as Hidx.
    destruct (decrease _ _ _ _) as [[s' res]|] eqn:Ed; [|done]. destruct (decrease_keeps _ _ _ _ _ _ Ed) as [E1 E2].
    destruct (decrease_decreased _ _ _ (i + 1) _ _ _ Hidx (si_num _ _ _ Hsi) ltac:(lia) Hsw Ed) as [[] _].
    destruct res as [d'|wave]; intros [= <-]; (apply (linv_calm S); simpl; auto); intros k; (apply served_mono; simpl; auto); unfold handed; simpl; rewrite ?E2, ?dec_done; auto.
    + rewrite partial_set. case_bool_decide; [|auto]. intros _. right. by eexists.
    + intros [?|[?|?]]; auto. right. right. by right.
    + rewrite partial_set. case_bool_decide as Ek; [|auto]. intros _. left. right. right. subst k. by left.
Qed.

(** ** Commits *)
Lemma commit_linv S S' : linv S -> sinv kind block S -> commit block S = Some S' -> linv S'.
Proof using Type.
  intros Hs Hsi. unfold commit, Scheduler.try_commit. destruct (Scheduler.commit_state (scheduler S)) as [c cw]. simpl.
  destruct (_ || _ || _) eqn:Eg; [done|]. apply orb_false_iff in Eg as [[_ Hlk]%orb_false_iff _]. apply orb_false_iff in Hlk as [Hlf _].
  assert (forall x b, linv (set_scheduler (Scheduler.set_commit_state x b (scheduler S)) S) \/ b <> Scheduler.done_marker (scheduler S)) as Hno.
  { intros x b. destruct (decide (b = Scheduler.done_marker (scheduler S))) as [->|]; [left|by right]. apply (linv_calm S); auto. intros k. by apply served_same. }
  assert (linv (set_scheduler (scheduler S) S)) as Hsame by (apply (linv_calm S); auto; intros k; by apply served_same).
  destruct (Scheduler.status (scheduler S) c) as [| | |inc| | |] eqn:Est; try (by intros [= <-]). set (cw' := Z.max cw _).
  assert (linv (set_scheduler (Scheduler.set_commit_state (c, cw') (Scheduler.done_marker (scheduler S)) (scheduler S)) S)) as Hwave by (destruct (Hno (c, cw') (Scheduler.done_marker (scheduler S))); done).
  destruct (Scheduler.maybe_max_validated_wave _) as [v|]; [|by intros [= <-]]. destruct (_ <=? v); [|by intros [= <-]].
  destruct (outputs _ !! c) as [output|]; simpl; [|done]. destruct (commit_status _ output) as [[fees output']| |]; try done. intros [= <-]. set (S1 := set_world _ _).
  assert (forall S2, world_of S2 = world_of S1 -> (forall k, Scheduler.status (scheduler S2) k = Scheduler.status (scheduler S1) k) ->
    Scheduler.txn_dependency (scheduler S2) = Scheduler.txn_dependency (scheduler S) -> Scheduler.condvars (scheduler S2) = Scheduler.condvars (scheduler S) ->
    Scheduler.execution_idx (scheduler S2) = Scheduler.execution_idx (scheduler S) -> (Scheduler.done_marker (scheduler S2) = false -> Scheduler.done_marker (scheduler S) = false) ->
    asking S2 = asking S -> wakes S2 = wakes S -> picks S2 = picks S -> rechecks S2 = rechecks S -> finishing S2 = finishing S -> aborts S2 = aborts S -> linv S2) as Hgo.
  { intros S2 E1 E2 E3 E4 E5 E6 E7 E8 E9 E10 E11 E12.
    assert (forall k, Scheduler.status (scheduler S1) k = if bool_decide (k = c) then Scheduler.Committed inc else Scheduler.status (scheduler S) k) as Hst.
    { intros k. apply (status_set (scheduler S) c (Scheduler.Committed inc) k). }
    apply (set_status_linv S S2 c (Scheduler.Executed inc) (Scheduler.Committed inc)); auto; rewrite ?E1, ?E11; auto; try done.
    - by rewrite E2, Hst, bool_decide_eq_true_2.
    - intros k Hk. by rewrite E2, Hst, bool_decide_eq_false_2.
    - intros k. left. apply served_mono; auto; [unfold handed; by rewrite E5, E9, E10|intros j; left; by rewrite E11|rewrite E12; auto].
    - intros k Hk. destruct (wo_executed _ _ (proj2 Hs c) k Hk) as [E|[x E]]; [unfold Scheduler.is_executed in E; by rewrite Est in E|].
      unfold locked_by_finish in Hlf. by rewrite E in Hlf.
    - apply (proj2 Hs c). }
  unfold halt. destruct (_ || _); [destruct (Scheduler.done_marker (scheduler S1)) eqn:Ed|]; apply Hgo; simpl; auto; try done.
  all: destruct (_ =? _); auto; done.
Qed.

(** ** Halting *)
Lemma halt_step_linv S S' : linv S -> sinv kind block S -> halt_step block S = Some S' -> linv S'.
Proof using Type.
  intros Hs Hsi. unfold halt_step. destruct (halting S) as [[b n]|] eqn:Eh; simpl; [|done]. destruct (si_halting _ _ _ Hsi b n Eh) as (_ & _ & Hd).
  destruct (n <? num_txns block); intros [= <-]; [|apply (linv_calm S); auto; intros k; by apply served_same].
  set (s' := Scheduler.resolve_condvar n (scheduler S)).
  assert (forall i, Scheduler.status s' i = if bool_decide (i = n) then Scheduler.Halted else Scheduler.status (scheduler S) i) as Hst.
  { intros i. unfold s', Scheduler.resolve_condvar. rewrite status_set. case_bool_decide; [done|]. by destruct (Scheduler.status (scheduler S) n) as [? []| | | | | |]. }
  destruct (proj2 Hs n) as [H1 H2 H3 H4 H5 H6 H7 H8 _ _].
  assert (Scheduler.condvars s' = Scheduler.condvars (scheduler S) /\ (forall m, Scheduler.status (scheduler S) n <> Scheduler.Suspended m /\ Scheduler.status (scheduler S) n <> Scheduler.Ready m Scheduler.Wakeup) \/
    Scheduler.condvars s' = <[n := Scheduler.ExecutionHalted]> (Scheduler.condvars (scheduler S)) /\ Scheduler.condvars (scheduler S) !! n = Some Scheduler.Unresolved /\ n ∉ wakes S) as Hc.
  { unfold s', Scheduler.resolve_condvar. destruct (Scheduler.status (scheduler S) n) as [m []| |m| | | |] eqn:E; try (by left); right; (split; [done|]); apply (H2 m); auto. }
  assert (Scheduler.txn_dependency s' = Scheduler.txn_dependency (scheduler S) /\ Scheduler.done_marker s' = Scheduler.done_marker (scheduler S)) as [Et Ed].
  { unfold s', Scheduler.resolve_condvar. by destruct (Scheduler.status (scheduler S) n) as [m []| |m| | | |]. }
  clearbody s'. apply (linv_touch S _ n); auto; simpl.
  - intros k Hk. by rewrite Hst, bool_decide_eq_false_2.
  - intros k Hk. destruct Hc as [[-> _]|(-> & _)]; [done|by rewrite lookup_insert_ne].
  - apply Hs.
  - intros k _ E. exfalso. simpl in E. congruence.
  - assert (forall j, waiters (set_halting (Some (b, n + 1)) (set_scheduler s' S)) j = waiters S j) as Ewt.
    { intros j. unfold waiters, Scheduler.dependencies. simpl. by rewrite Et. }
    split; simpl; rewrite ?Hst, ?bool_decide_eq_true_2 by done; auto; try done.
    + by intros m [?|?].
    + intros Hin. destruct Hc as [[-> _]|(_ & _ & ?)]; [auto|done].
    + intros j Hj. destruct (H4 j Hj) as [E ?]. destruct Hc as [[-> _]|(_ & ? & _)]; [done|congruence].
    + intros Hin. apply H5. destruct Hc as [[<- _]|(_ & E & _)]; [done|]. rewrite E. by eexists.
    + destruct Hc as [[-> Hn]|(-> & _)]; [|by rewrite lookup_insert_eq]. intros E. destruct (H6 E) as [(m & _ & Em & _)|[(m & Em)|?]]; [..|auto]; by destruct (Hn m).
    + intros k _. left. unfold Scheduler.is_executed. by rewrite Hst, bool_decide_eq_true_2.
Qed.

Context (module_kind : forall k, is_module_path k = true <-> kind k = Code).
Context (counters_in_storage : counters_stored kind).
Context (block_ok : forall p r, p ∈ block -> returns p r -> result_ok kind r).

Lemma make_linv S m S' : linv S -> sinv kind block S -> fell_back (world_of S) = false -> make block S m = Some S' -> fell_back (world_of S') = false -> linv S'.
Proof.
  intros Hs Hsi Hf0. assert (inv kind block (world_of S)) as Hw by (by apply sinv_inv). destruct m as [|n| |n|n|n|i|i|i| |i|]; simpl; intros Hm Hf.
  - by eapply next_task_linv.
  - destruct (tasks S !! n) as [t|]; simpl in Hm; [|done]. by eapply validate_linv.
  - by eapply claim_linv.
  - destruct (rechecks S !! n) as [i|] eqn:E; simpl in Hm; [|done]. by eapply recheck_linv.
  - destruct (picks S !! n) as [i|] eqn:E; simpl in Hm; [|done]. by eapply incarnate_linv.
  - destruct (wakes S !! n) as [i|] eqn:E; simpl in Hm; [|done]. by eapply wake_linv.
  - by eapply work_linv.
  - by eapply finish_execution_linv.
  - by eapply finish_abort_linv.
  - by eapply commit_linv.
  - destruct (hook (world_of S) i) as [w'|] eqn:Eh; simpl in Hm; [|done]. injection Hm as <-. by eapply hook_linv.
  - by eapply halt_step_linv.
Qed.

Lemma start_linv : linv (start_system block).
Proof using Type.
  assert (forall j, waiters (start_system block) j = []) as E by (intros j; done). split.
  - split; [intros i j; rewrite E; by intros ?%not_elem_of_nil|intros j; rewrite E; constructor|intros i j k; rewrite E; by intros ?%not_elem_of_nil|constructor].
  - intros i. split; simpl; try done.
    + intros j. rewrite E. by intros ?%not_elem_of_nil.
    + intros n. unfold Scheduler.status. simpl. rewrite lookup_empty. simpl. by intros [?|?].
    + by intros ?%not_elem_of_nil.
    + rewrite lookup_empty. by intros [? ?].
    + intros k. by intros ?%not_elem_of_nil.
    + rewrite lookup_empty. by intros [? ?].
    + intros n _ Hi _. left. left. simpl. lia.
Qed.

Lemma scheduled_linv S : scheduled block S -> fell_back (world_of S) = false -> sinv kind block S /\ linv S.
Proof.
  intros Hs Hf. split; [by apply scheduled_sinv|]. revert Hf. induction Hs as [|S m S' Hs IH Hm]; intros Hf; [apply start_linv|].
  assert (fell_back (world_of S) = false) as Hf0 by (destruct (fell_back (world_of S)) eqn:E; [|done]; by rewrite (make_fell_back _ _ _ _ Hm E) in Hf).
  eapply make_linv; eauto. by apply scheduled_sinv.
Qed.

(** ** Unreachable statuses *)

(** A step in which the scheduler meets a status that it takes to be impossible: in
    [suspend] and [resume], which panic, and in the assertions of
    [set_executed_status] and [set_aborted_status]; or in which the last transaction is
    committed and there is an execution or a wakeup left to do, which
    [coordinator_commit_hook] asserts of its own task. *)
Definition unreachable_status (S : system) (m : move) : Prop :=
  let s := scheduler S in
  match m with
  | Work i => exists j, Scheduler.condvars s !! i = None /\ asking S !! i = Some j /\ (Scheduler.wait_for_dependency i j s).2 = Panic
  | FinishExecution i =>
      match finishing S !! i with
      | Some (inc, _, XLock) => Scheduler.status s i <> Scheduler.Halted /\ Scheduler.status s i <> Scheduler.Executing inc
      | Some (_, _, XResume (dep :: _) _) => (Scheduler.resume dep s).2 = Panic
      | _ => False
      end
  | FinishAbort i =>
      match aborts S !! i with
      | Some (inc, ALock) => Scheduler.status s i <> Scheduler.Halted /\ Scheduler.status s i <> Scheduler.Aborting inc
      | _ => False
      end
  | Commit => exists S' i, make block S Commit = Some S' /\ commit_idx (world_of S') = num_txns block /\ (i ∈ wakes S' \/ busy (world_of S') i)
  | _ => False
  end.

Lemma asking_executing S (i j : TxnIndex) : linv S -> sinv kind block S -> asking S !! i = Some j ->
  Scheduler.status (scheduler S) i = Scheduler.Halted \/ exists inc, Scheduler.status (scheduler S) i = Scheduler.Executing inc.
Proof using Type.
  intros [_ Hw] Hsi Has. destruct (Hw i). destruct (wo_asking0 j Has) as (Hc & _ & (inc & p & reads & Ha)).
  destruct (working_status _ _ inc (si_link _ _ _ Hsi i) ltac:(left; eauto)) as [?|(Hr & _)]; [by left|]. right. exists inc.
  destruct Hr as [E|[E|E]]; [|done|]; destruct (wo_suspended0 inc ltac:(auto)); congruence.
Qed.

(** ** Transactions that are attended to *)

Definition waiting (S : system) (i : TxnIndex) : Prop := Scheduler.condvars (scheduler S) !! i = Some Scheduler.Unresolved.

(** Some worker is about to wake up the transaction, is aborting it, is at the end of
    its execution, or executes it and does not wait; or the transaction is ready, and
    its index is still to be taken, or was taken, or will be again. *)
Definition attended (S : system) (k : TxnIndex) : Prop :=
  k ∈ wakes S \/ is_Some (aborts S !! k) \/ is_Some (finishing S !! k) \/ busy (world_of S) k /\ ~ waiting S k \/
  (exists n task, Scheduler.status (scheduler S) k = Scheduler.Ready n task) /\ (handed S k \/ lowering S k).

(** Whom a transaction waits for is attended to or waits itself. *)
Lemma dependency_attended S (j : TxnIndex) : linv S -> sinv kind block S -> Scheduler.done_marker (scheduler S) = false -> 0 <= j < num_txns block ->
  Scheduler.is_executed j true (scheduler S) = None -> attended S j \/ waiting S j.
Proof using Type.
  intros [_ Hw] Hsi Hd Hj Hex. destruct (Hw j). pose proof (si_link _ _ _ Hsi j) as Hl. unfold attended, waiting. unfold Scheduler.is_executed in Hex. unfold link in Hl.
  assert (forall n, running S j n -> is_Some (finishing S !! j) \/ busy (world_of S) j) as Hrun.
  { intros n (_ & _ & [[_ Hwk]|[[suf E] _]]); [|left; rewrite E; by eexists]. right. unfold busy. by destruct Hwk as [(p & reads & ->)|(reads & r & todo & ->)]. }
  destruct (Scheduler.status (scheduler S) j) as [n []|n|n|n|n|n|] eqn:Est; try done.
  - left. destruct (wo_ready0 n Hd Hj eq_refl); [do 4 right; split; [by eexists _, _|by left]|auto].
  - right. by apply (wo_suspended0 n); right.
  - destruct (Hrun n Hl) as [?|?]; [left; tauto|]. destruct (decide (Scheduler.condvars (scheduler S) !! j = Some Scheduler.Unresolved)); [by right|left; tauto].
  - right. by apply (wo_suspended0 n); left.
  - destruct Hl as (_ & _ & _ & _ & [[E _]|[E _]]); left; rewrite E; unfold is_Some; eauto 8.
  - by apply (not_halted kind block S j Hsi Hd) in Est.
Qed.

Lemma waiting_attended S (i : TxnIndex) : linv S -> sinv kind block S -> inv kind block (world_of S) -> Scheduler.done_marker (scheduler S) = false -> waiting S i ->
  exists k, 0 <= k <= i /\ attended S k.
Proof using Type.
  intros Hs Hsi Hinv Hd. assert (forall i, waiting S i -> 0 <= i < num_txns block) as Hrange.
  { intros k Hk. destruct (wo_waiting _ _ (proj2 Hs k)) as (inc & p & reads & Ha); [by eexists|]. apply (inv_active _ _ _ Hinv) in Ha.
    pose proof (inv_commit _ _ _ Hinv). lia. }
  intros Hi. pose proof (Hrange i Hi) as Hr. revert Hi Hr. assert (0 <= i < num_txns block -> waiting S i -> exists k, 0 <= k <= i /\ attended S k) as Hgoal; [|auto].
  induction (Z.lt_wf 0 i) as [i _ IH]. intros Hr Hi. destruct (wo_unresolved _ _ (proj2 Hs i) Hi) as [(n & j & Est & Hin)|[(n & Est)|Hk]].
  - pose proof (lo_below _ (proj1 Hs) _ _ Hin) as Hji. unfold waiters in Hin. apply elem_of_app in Hin as [Hin|Hin].
    + assert (attended S j \/ waiting S j) as [Ha|Hwj].
      { destruct (wo_executed _ _ (proj2 Hs j) i Hin) as [Hex|[x E]]; [apply dependency_attended; auto; lia|]. left. right. right. left. rewrite E. by eexists. }
      * exists j. split; [lia|done].
      * destruct (IH j ltac:(lia) ltac:(lia) Hwj) as (k & Hk & Hak). exists k. split; [lia|done].
    + exists j. split; [lia|]. right. right. left. unfold resuming in Hin. destruct (finishing S !! j); [by eexists|by apply not_elem_of_nil in Hin].
  - exists i. split; [lia|]. destruct (wo_wakeup _ _ (proj2 Hs i) n Hd Hr Est); [do 4 right; split; [by eexists _, _|by left]|do 4 right; split; [by eexists _, _|by right]].
  - exists i. split; [lia|by left].
Qed.

(** Nothing is executed when all is committed. *)
Lemma commit_last S S' (i : TxnIndex) : scheduled block S -> fell_back (world_of S) = false -> make block S Commit = Some S' -> commit_idx (world_of S') = num_txns block ->
  i ∈ wakes S' \/ busy (world_of S') i -> False.
Proof.
  intros Hs Hf Hm Hend Hi. assert (fell_back (world_of S') = false) as Hf'.
  { simpl in Hm. unfold commit in Hm. destruct (_ || _ || _); [done|]. destruct (Scheduler.try_commit (scheduler S)) as [s [c|]]; [|by injection Hm as <-].
    destruct (outputs _ !! c) as [output|]; simpl in Hm; [|done]. destruct (commit_status _ output) as [[fees output']| |]; try done. injection Hm as <-.
    destruct (_ || _); by rewrite ?halt_world. }
  destruct (scheduled_linv S') as [Hsi Hl]; [by eapply scheduled_make|done|]. pose proof (sinv_inv _ _ module_kind counters_in_storage block_ok S' Hsi Hf') as Hinv.
  assert (busy (world_of S') i) as Hb.
  { destruct Hi as [Hi|?]; [|done]. destruct (proj2 Hl i). apply reading_busy, wo_waiting0. rewrite (wo_wakes0 Hi). by eexists. }
  unfold busy in Hb. destruct (active (world_of S') !! i) as [a|] eqn:Ha; [|done]. apply (inv_active _ _ _ Hinv) in Ha. lia.
Qed.

(** C5: the scheduler does not reach what it takes to be unreachable.  A transaction
    that asks to wait for a dependency is executing, or the execution is halted; one
    that is resumed is suspended, once for each time it was suspended; and when an
    execution or an abort is finished the status is that of this execution or abort.
    When the last transaction is committed, none is executed or to be woken up.  This
    holds in every interleaving as long as no module was found to be read and written,
    for blocks of which every counter is in storage and whose outputs keep to the kinds
    of keys. *)
Theorem statuses_as_expected S m : scheduled block S -> fell_back (world_of S) = false -> ~ unreachable_status S m.
Proof.
  intros Hs Hf. destruct (scheduled_linv S Hs Hf) as [Hsi Hl]. destruct m as [|n| |n|n|n|i|i|i| |i|]; simpl; auto.
  - intros (j & Hc & Has & Hp). unfold Scheduler.wait_for_dependency, Scheduler.suspend in Hp. destruct (Scheduler.is_executed j true (scheduler S)); [done|].
    by destruct (asking_executing _ _ _ Hl Hsi Has) as [E|[inc E]]; rewrite E in Hp.
  - destruct (finishing S !! i) as [[[inc suffix] [| |[|dep deps] m| | |]]|] eqn:Hfi; auto.
    + intros [H1 H2]. by destruct (lock_executing _ _ _ _ Hl Hsi Hfi).
    + unfold Scheduler.resume. assert (dep ∈ waiters S i) as Hin.
      { unfold waiters, resuming. rewrite Hfi. apply elem_of_app. right. by left. }
      by destruct (wo_waiter _ _ (proj2 Hl dep) i Hin) as [[n ->]| ->].
  - destruct (aborts S !! i) as [[inc []]|] eqn:Hab; auto. intros [H1 H2]. by destruct (abort_lock_status _ _ _ (si_link _ _ _ Hsi i) Hab).
  - intros (S' & i & Hm & Hend & Hi). eapply (commit_last S S'); eauto.
Qed.

(** C4: there is no deadlock of waiting workers and no wakeup is lost.  When a
    transaction waits for a dependency and the scheduler is not done, then it or a
    lower transaction is attended to: a worker that does not wait is at it, or it is
    ready and a worker that asks for a task gets to it.  As above, no module was found to
    be read and written, every counter is in storage and outputs keep to the kinds of
    keys. *)
Theorem waiting_is_attended S i : scheduled block S -> fell_back (world_of S) = false -> Scheduler.done_marker (scheduler S) = false -> waiting S i ->
  exists k, 0 <= k <= i /\ attended S k.
Proof. intros Hs Hf Hd Hi. destruct (scheduled_linv S Hs Hf) as [Hsi Hl]. eapply waiting_attended; eauto. by apply sinv_inv. Qed.
End progress.

(** ** The example *)
Module ProgressExample.
Import ChangeSetExample SchedulesExample ScheduledExample.

(** The third transaction has met an estimate of the second and is about to wait. *)
Lemma statuses_as_expected_witness : asking asking_system !! 2 = Some 1 /\ ~ unreachable_status three asking_system (Work 2).
Proof.
  split; [vm_compute; reflexivity|].
  exact (statuses_as_expected kind_of three three_modules three_counters three_ok asking_system (Work 2) asking_scheduled ltac:(vm_compute; reflexivity)).
Defined.

(** Now it waits; the second is ready and was picked. *)
Lemma waiting_is_attended_witness : exists k, 0 <= k <= 2 /\ attended waiting_system k.
Proof.
  exact (waiting_is_attended kind_of three three_modules three_counters three_ok waiting_system 2 waiting_scheduled ltac:(vm_compute; reflexivity)
    ltac:(vm_compute; reflexivity) ltac:(vm_compute; reflexivity)).
Defined.
End ProgressExample.
