(* ===== verification/Subnet.v ===== *)
(** * The subnet virtual machine: blocks and their states

    Model of [subnet/src/block/mod.rs], [subnet/src/state/mod.rs] and the block
    and transaction handling of [subnet/src/vm/mod.rs]: the Snowman virtual
    machine that builds, verifies, accepts and rejects blocks and hands accepted
    ones to the executor.

    A [State] of the code holds references ([Arc]) to a database and to a map of
    verified blocks, and possibly one to the virtual machine; every block carries
    a [State].  The model keeps the stores in a heap: a state is a location of the
    heap and whether the reference to the machine is set, so that blocks that
    share a store see each other's writes and a block with a state of its own does
    not.  Identifiers, databases, JSON, the executor and the mempool are
    parameters.  The texts of errors are those of the code without the values
    formatted into them. *)

From S2P Require Import Prelude Collections Merkle InMemoryAccumulator BitVec ValidatorVerifier LedgerInfo.
From S2P Require Import TrustedState AccumulatorProofs QuorumCert Timeout2Chain ConsensusBlock.

Abbreviation bytes := (list Z).

(** [std::io::Error]. *)
Inductive ErrorKind := NotFound | InvalidData | Unsupported | Other.
Record IoError := io_error { kind : ErrorKind; text : string }.

(** What is used of the crate [avalanche_types]: identifiers and the status of
    blocks. *)
Class Avalanche := {
  Id : Type;
  Id_eq_dec :: EqDecision Id;
  Id_countable :: Countable Id;
  Id_empty : Id;
  sha256 : bytes -> Id;
  Id_to_vec : Id -> bytes;
  Id_from_slice : bytes -> Id;
  Status : Type;
  Status_eq_dec :: EqDecision Status;
  Status_default : Status;
  Processing : Status;
  Accepted : Status;
  Rejected : Status;
}.

(** [serde_json::to_vec] and [serde_json::from_slice]. *)
Class Json (A : Type) := {
  to_vec : A -> outcome string bytes;
  from_slice : bytes -> outcome string A;
}.

(** The result of executing a block. *)
Section results.
Context `{CryptoTypes}.
Record StateComputeResult := compute_result {
  root_hash : HashValue;
  version : Z;
  epoch_state : option EpochState.t;
}.

End results.

(** The services the virtual machine uses. *)
Class Services `{CryptoTypes} `{!Transactions} := {
  (* the trait [subnet::rpc::database::Database], and [memdb::Database::new] *)
  Db : Type;
  db_new : Db;
  db_get : bytes -> Db -> outcome IoError bytes;
  db_has : bytes -> Db -> outcome IoError bool;
  db_put : bytes -> bytes -> action Db IoError unit;
  is_not_found : IoError -> bool;
  (* [BlockExecutor<AptosVM>] with its database *)
  Exec : Type;
  committed_block_id : Exec -> HashValue;
  execute_block : HashValue -> list Transaction.t -> HashValue -> action Exec string StateComputeResult;
  commit_blocks : list HashValue -> LedgerInfoWithSignatures.t -> action Exec string unit;
  get_latest_ledger_info : Exec -> outcome string LedgerInfoWithSignatures.t;
  (* [CoreMempool] *)
  Pool : Type;
  add_txn : SignedTransaction -> Z -> Z -> Pool -> Pool;
  get_batch : Z -> Z -> Pool -> list SignedTransaction;
  commit_transaction : AccountAddress -> Z -> Pool -> Pool;
  (* the channel to the consensus engine and [AppSenderClient] *)
  Channel : Type;
  send_pending_txs : action Channel IoError unit;
  AppSender : Type;
  send_app_gossip : bytes -> action AppSender IoError unit;
  (* the decoding of submitted transactions *)
  bcs_transaction : bytes -> outcome string SignedTransaction;
  bcs_transactions : bytes -> outcome string (list SignedTransaction);
}.

(** The bytes of a string literal. *)
Definition bytes_of_string (s : string) : bytes :=
  (fun c => Z.of_N (Ascii.N_of_ascii c)) <$> String.list_ascii_of_string s.

(** ** The world *)

(** A state: a store of the heap and whether [vm] is set. *)
Record state := mk_state { loc : nat; vm : bool }.

Section data.
Context `{CryptoTypes} `{!Avalanche}.

(** The serialized fields of a block, and a block. *)
Record fields := mk_fields {
  f_parent_id : Id;
  f_height : Z;
  f_timestamp : Z;
  f_data : bytes;
}.

Record block := mk_block {
  parent_id : Id;
  height : Z;
  timestamp : Z;
  data : bytes;
  status : Status;
  encoded : bytes;
  id : Id;
  state_of : state;
}.

(** The data of a block of the chain of the executor. *)
Record AptosData := aptos_data {
  block_info : bytes;
  data_block_id : HashValue;
  data_parent_id : HashValue;
  next_epoch : Z;
  data_ts : Z;
}.

Record BlockWithStatus := block_with_status {
  block_bytes : bytes;
  block_status : Status;
}.

End data.

Section world.
Context `{CryptoTypes} `{!Transactions} `{!PrivateKeys} `{!Avalanche} `{!Services}.

Record store := mk_store {
  db : Db;
  verified_blocks : gmap Id block;
}.

(** The fields of [Vm] and [VmState], and the heap of stores. *)
Record world := mk_world {
  heap : list store;
  vm_state : option state;
  preferred : Id;
  bootstrapped : bool;
  executor : option Exec;
  core_mempool : option Pool;
  signer : option ValidatorSigner.t;
  to_engine : option Channel;
  app_sender : option AppSender;
  build_status : Z;
  has_pending_tx : bool;
}.

Definition set_heap (w : world) h : world :=
  mk_world h (vm_state w) (preferred w) (bootstrapped w) (executor w) (core_mempool w) (signer w)
    (to_engine w) (app_sender w) (build_status w) (has_pending_tx w).
Definition set_vm_state (w : world) s : world :=
  mk_world (heap w) s (preferred w) (bootstrapped w) (executor w) (core_mempool w) (signer w)
    (to_engine w) (app_sender w) (build_status w) (has_pending_tx w).
Definition set_preferred (w : world) p : world :=
  mk_world (heap w) (vm_state w) p (bootstrapped w) (executor w) (core_mempool w) (signer w)
    (to_engine w) (app_sender w) (build_status w) (has_pending_tx w).
Definition set_bootstrapped (w : world) b : world :=
  mk_world (heap w) (vm_state w) (preferred w) b (executor w) (core_mempool w) (signer w)
    (to_engine w) (app_sender w) (build_status w) (has_pending_tx w).
Definition set_executor (w : world) e : world :=
  mk_world (heap w) (vm_state w) (preferred w) (bootstrapped w) e (core_mempool w) (signer w)
    (to_engine w) (app_sender w) (build_status w) (has_pending_tx w).
Definition set_core_mempool (w : world) p : world :=
  mk_world (heap w) (vm_state w) (preferred w) (bootstrapped w) (executor w) p (signer w)
    (to_engine w) (app_sender w) (build_status w) (has_pending_tx w).
Definition set_to_engine (w : world) c : world :=
  mk_world (heap w) (vm_state w) (preferred w) (bootstrapped w) (executor w) (core_mempool w) (signer w)
    c (app_sender w) (build_status w) (has_pending_tx w).
Definition set_app_sender (w : world) a : world :=
  mk_world (heap w) (vm_state w) (preferred w) (bootstrapped w) (executor w) (core_mempool w) (signer w)
    (to_engine w) a (build_status w) (has_pending_tx w).
Definition set_build_status (w : world) s : world :=
  mk_world (heap w) (vm_state w) (preferred w) (bootstrapped w) (executor w) (core_mempool w) (signer w)
    (to_engine w) (app_sender w) s (has_pending_tx w).
Definition set_has_pending_tx (w : world) b : world :=
  mk_world (heap w) (vm_state w) (preferred w) (bootstrapped w) (executor w) (core_mempool w) (signer w)
    (to_engine w) (app_sender w) (build_status w) b.

Abbreviation M := (action world IoError).

(** [o.unwrap()] of an outcome with any error type. *)
Definition or_panic {E A} (o : outcome E A) : outcome IoError A :=
  match o with
  | Ok a => Ok a
  | _ => Panic
  end.

(** [as_ref().unwrap()] of a field of [Vm], and a method of it whose error is
    turned to a panic or returned. *)
Definition service {A} (get : world -> option A) : M A := fun w => (w, expect (get w)).

(** The store of a state. *)
Definition deref (s : state) : M store := fun w => (w, expect (heap w !! loc s)).
Definition update_store (s : state) (st : store) : M unit :=
  modify (fun w => set_heap w (<[loc s := st]> (heap w))).

(** [State::default]: a store of its own. *)
Definition default_state : M state :=
  fun w => (set_heap w (heap w ++ [mk_store db_new ∅]), Ok (mk_state (length (heap w)) false)).
End world.

(** ** Blocks *)
Module Block.
Section definitions.
Context `{CryptoTypes} `{!Transactions} `{!PrivateKeys} `{!Avalanche} `{!Services} `{!Json fields}.
Abbreviation M := (action world IoError).

Definition set_status (status : Status) (b : block) : block :=
  mk_block (parent_id b) (height b) (timestamp b) (data b) status (encoded b) (id b) (state_of b).

Definition set_state (state : state) (b : block) : block :=
  mk_block (parent_id b) (height b) (timestamp b) (data b) (status b) (encoded b) (id b) state.

Definition to_fields (b : block) : fields := mk_fields (parent_id b) (height b) (timestamp b) (data b).

Definition to_slice (self : block) : outcome IoError bytes :=
  map_err (fun _ => io_error Other "failed to serialize Block to JSON bytes") (to_vec (to_fields self)).

Definition new (parent_id : Id) (height timestamp : Z) (data : bytes) (status : Status) : M block :=
  state ← default_state;
  let b := mk_block parent_id height timestamp data status [] Id_empty state in
  encoded ← lift (to_slice b);
  mret (mk_block parent_id height timestamp data status encoded (sha256 encoded) state).

Definition from_slice (d : bytes) : M block :=
  f ← lift (map_err (fun _ => io_error Other "failed to deserialize Block from JSON") (from_slice d));
  state ← default_state;
  mret (mk_block (f_parent_id f) (f_height f) (f_timestamp f) (f_data f) Status_default d (sha256 d) state).
End definitions.
End Block.

(** ** States *)
Module State.
Section definitions.
Context `{CryptoTypes} `{!Transactions} `{!PrivateKeys} `{!Avalanche} `{!Services}
  `{!Json fields} `{!Json BlockWithStatus}.
Abbreviation M := (action world IoError).

Definition LAST_ACCEPTED_BLOCK_KEY : bytes := bytes_of_string "last_accepted_block".
Definition STATUS_PREFIX : Z := 0.
Definition DELIMITER : Z := 47.

Definition block_with_status_key (blk_id : Id) : bytes := [STATUS_PREFIX; DELIMITER] ++ Id_to_vec blk_id.

Definition encode (self : BlockWithStatus) : outcome IoError bytes :=
  map_err (fun _ => io_error Other "failed to serialize BlockStatus to JSON bytes") (to_vec self).

Definition status_from_slice (d : bytes) : outcome IoError BlockWithStatus :=
  map_err (fun _ => io_error Other "failed to deserialize BlockStatus from JSON") (from_slice d).

(** [db.put] on the database of a state. *)
Definition put (self : state) (key value : bytes) (e : string) : M unit :=
  st ← deref self;
  let '(db', o) := db_put key value (db st) in
  update_store self (mk_store db' (verified_blocks st));;
  lift (map_err (fun _ => io_error Other e) o).

Definition set_last_accepted_block (self : state) (blk_id : Id) : M unit :=
  put self LAST_ACCEPTED_BLOCK_KEY (Id_to_vec blk_id) "failed to put last accepted block".

Definition set_vm (self : state) : state := mk_state (loc self) true.

Definition has_last_accepted_block (self : state) : M bool :=
  st ← deref self;
  lift (map_err (fun _ => io_error Other "failed to load last accepted block")
          (db_has LAST_ACCEPTED_BLOCK_KEY (db st))).

Definition get_last_accepted_block_id (self : state) : M Id :=
  st ← deref self;
  match db_get LAST_ACCEPTED_BLOCK_KEY (db st) with
  | Ok d => mret (Id_from_slice d)
  | Err e => if is_not_found e then mret Id_empty else lift (Err e)
  | Panic => lift Panic
  end.

Definition add_verified (self : state) (b : block) : M unit :=
  st ← deref self;
  update_store self (mk_store (db st) (<[id b := b]> (verified_blocks st))).

Definition remove_verified (self : state) (blk_id : Id) : M unit :=
  st ← deref self;
  update_store self (mk_store (db st) (delete blk_id (verified_blocks st))).

Definition has_verified (self : state) (blk_id : Id) : M bool :=
  st ← deref self;
  mret (bool_decide (is_Some (verified_blocks st !! blk_id))).

Definition write_block (self : state) (b : block) : M unit :=
  blk_bytes ← lift (Block.to_slice b);
  blk_status_bytes ← lift (encode (block_with_status blk_bytes (status b)));
  put self (block_with_status_key (id b)) blk_status_bytes "failed to put block".

Definition get_block (self : state) (blk_id : Id) : M block :=
  st ← deref self;
  match verified_blocks st !! blk_id with
  | Some b => mret b
  | None =>
      blk_status_bytes ← lift (db_get (block_with_status_key blk_id) (db st));
      blk_status ← lift (status_from_slice blk_status_bytes);
      blk ← Block.from_slice (block_bytes blk_status);
      mret (Block.set_status (block_status blk_status) blk)
  end.
End definitions.
End State.

(** ** The virtual machine and the executor *)
Module Vm.
Section definitions.
Context `{CryptoTypes} `{!Transactions} `{!PrivateKeys} `{!BlsAggregate} `{!BlsSign LedgerInfo.t}
  `{!Avalanche} `{!Services} `{!Json fields} `{!Json BlockWithStatus} `{!Json AptosData}
  `{!Json (list Transaction.t)} `{!Json SignedTransaction}.
Abbreviation M := (action world IoError).

(** [generate_validator_verifier]. *)
Definition generate_validator_verifier (validators : list ValidatorSigner.t) :
    outcome IoError ValidatorVerifier.t :=
  or_panic (ValidatorVerifier.new_with_quorum_voting_power
    ((fun signer => ValidatorConsensusInfo.new (ValidatorSigner.author signer)
                      (ValidatorSigner.public_key signer) 1) <$> validators)
    (Z.of_nat (length validators) / 2)).

(** [generate_ledger_info_with_sig]. *)
Fixpoint sign_all (validators : list ValidatorSigner.t) (li : LedgerInfo.t)
    (signatures : list (AccountAddress * Signature)) : outcome IoError (list (AccountAddress * Signature)) :=
  match validators with
  | [] => Ok signatures
  | signer :: validators =>
      signature ← or_panic (ValidatorSigner.sign signer li);
      sign_all validators li (BTreeMap.insert signatures (ValidatorSigner.author signer) signature)
  end.

Definition generate_ledger_info_with_sig (validators : list ValidatorSigner.t) (ledger_info : LedgerInfo.t) :
    outcome IoError LedgerInfoWithSignatures.t :=
  signatures ← sign_all validators ledger_info [];
  validator_verifier ← generate_validator_verifier validators;
  aggregated ← or_panic (ValidatorVerifier.aggregate_signatures validator_verifier (PartialSignatures.new signatures));
  Ok (LedgerInfoWithSignatures.new ledger_info aggregated).

Definition update_build_block_status (s : Z) : M unit :=
  modify (fun w => if build_status w =? s then w else set_build_status w s).

Definition update_pending_tx_flag (n : bool) : M unit :=
  modify (fun w => if eqb (has_pending_tx w) n then w else set_has_pending_tx w n).

(** A method of the executor. *)
Definition in_executor {A} (m : action Exec string A) : M (outcome string A) :=
  executor ← service executor;
  let '(executor', o) := m executor in
  modify (fun w => set_executor w (Some executor'));;
  mret o.

(** [core_pool.commit_transaction] for the user transactions of a block. *)
Definition commit_to_pool (block_tx : list Transaction.t) (pool : Pool) : Pool :=
  foldl (fun pool t =>
    match t with
    | Transaction.UserTransaction t => commit_transaction (txn_sender t) (txn_sequence_number t) pool
    | _ => pool
    end) pool block_tx.

Definition inner_build_block (data : bytes) : M unit :=
  executor ← service executor;
  aptos_data ← lift (or_panic (from_slice data));
  block_tx ← lift (or_panic (from_slice (block_info aptos_data)));
  first ← lift (expect (head block_tx));
  block_meta ← lift (match first with Transaction.BlockMetadata m => Ok m | _ => Panic end);
  let block_id := BlockMetadata.id block_meta in
  let parent_block_id := committed_block_id executor in
  let next_epoch := next_epoch aptos_data in
  let ts := data_ts aptos_data in
  executed ← in_executor (execute_block block_id block_tx parent_block_id);
  match executed with
  | Ok output =>
      let ledger_info :=
        LedgerInfo.new (BlockInfo.new next_epoch 0 block_id (root_hash output) (version output) ts
          (epoch_state output)) HashValue_zero in
      signer ← service signer;
      li ← lift (generate_ledger_info_with_sig [signer] ledger_info);
      committed ← in_executor (commit_blocks [block_id] li);
      lift (or_panic committed)
  | Err _ => mret tt
  | Panic => lift Panic
  end;;
  core_pool ← service core_mempool;
  modify (fun w => set_core_mempool w (Some (commit_to_pool block_tx core_pool)));;
  update_build_block_status 0.

Definition add_pool (signed_transaction : SignedTransaction) : M unit :=
  core_pool ← service core_mempool;
  modify (fun w => set_core_mempool w (Some (add_txn signed_transaction 0
    (txn_sequence_number signed_transaction) core_pool))).

Definition get_pending_tx (count : Z) : M (list SignedTransaction) :=
  core_pool ← service core_mempool;
  mret (get_batch count (1024 * 5 * 1000) core_pool).

(** [unix_now_micro] and the two random hashes are what the clock and the random
    generator return. *)
Definition build_block_data (unix_now_micro : Z) (block_id checkpoint_id : HashValue) : M bytes :=
  tx_arr ← get_pending_tx 500;
  executor ← service executor;
  signer ← service signer;
  latest_ledger_info ← lift (or_panic (get_latest_ledger_info executor));
  let next_epoch := LedgerInfo.next_block_epoch (LedgerInfoWithSignatures.ledger_info latest_ledger_info) in
  let block_meta := Transaction.BlockMetadata
    (BlockMetadata.new block_id next_epoch 0 (ValidatorSigner.author signer) [] [] unix_now_micro) in
  let block_tx := [block_meta] ++ (Transaction.UserTransaction <$> tx_arr) ++
                  [Transaction.StateCheckpoint checkpoint_id] in
  let parent_block_id := committed_block_id executor in
  block_tx_bytes ← lift (or_panic (to_vec block_tx));
  lift (or_panic (to_vec (aptos_data block_tx_bytes block_id parent_block_id next_epoch unix_now_micro))).

Definition notify_block_ready2 : M unit :=
  self ← gets (fun w => w);
  match to_engine self with
  | Some to_engine =>
      let '(to_engine', send_result) := send_pending_txs to_engine in
      modify (fun w => set_to_engine w (Some to_engine'));;
      match send_result with
      | Ok _ => update_build_block_status 1
      | Err _ => mret tt
      | Panic => lift Panic
      end
  | None => mret tt
  end.

Definition notify_block_ready : M unit :=
  self ← gets (fun w => w);
  if build_status self =? 1 then
    if has_pending_tx self then mret tt else update_pending_tx_flag true
  else if build_status self =? 0 then notify_block_ready2
  else mret tt.

(** One round of the loop of [check_pending_tx].  The locks may be taken, so that
    [try_read] fails; [now] is what the clock returns. *)
Definition check_pending_tx (status_free pending_free : bool) (now last_check_build_time : Z) : M Z :=
  if status_free then
    self ← gets (fun w => w);
    if build_status self =? 0 then
      (if pending_free && has_pending_tx self
       then update_pending_tx_flag false;; notify_block_ready2
       else mret tt);;
      mret now
    else
      elapsed ← lift (u64_sub now last_check_build_time);
      if 120 <? elapsed then update_build_block_status 0;; mret now
      else mret last_check_build_time
  else mret last_check_build_time.

(** What the API answers to a submission: an error, or that the transactions were
    accepted but for those with the indices in the list. *)
Definition submit_transaction (answer : outcome string unit) (data : bytes)
    (unix_now_micro : Z) (block_id checkpoint_id : HashValue) : M unit :=
  match answer with
  | Err _ => mret tt
  | Panic => lift Panic
  | Ok _ =>
      signed_transaction ← lift (or_panic (bcs_transaction data));
      gossip ← lift (or_panic (to_vec signed_transaction));
      sender ← service app_sender;
      let '(sender', sent) := send_app_gossip gossip sender in
      modify (fun w => set_app_sender w (Some sender'));;
      lift (or_panic sent);;
      add_pool signed_transaction;;
      if 50 * 1024 <=? Z.of_nat (length data) then
        data ← build_block_data unix_now_micro block_id checkpoint_id;
        catch (inner_build_block data) (fun o => lift (or_panic o))
      else notify_block_ready
  end.

(** The loop over the transactions of a batch, with [exist_count]. *)
Fixpoint submit_batch_loop (failed_index : list Z) (i : Z) (txns : list SignedTransaction)
    (exist_count : Z) : M Z :=
  match txns with
  | [] => mret exist_count
  | signed_transaction :: txns =>
      if bool_decide (i ∈ failed_index) then
        exist_count ← lift (if exist_count + 1 <? 2 ^ 31 then Ok (exist_count + 1) else Panic);
        submit_batch_loop failed_index (i + 1) txns exist_count
      else
        gossip ← lift (or_panic (to_vec signed_transaction));
        sender ← service app_sender;
        let '(sender', sent) := send_app_gossip gossip sender in
        modify (fun w => set_app_sender w (Some sender'));;
        lift (or_panic sent);;
        add_pool signed_transaction;;
        submit_batch_loop failed_index (i + 1) txns exist_count
  end.

Definition submit_transaction_batch (answer : outcome string (list Z)) (data : bytes) : M unit :=
  match answer with
  | Err _ => mret tt
  | Panic => lift Panic
  | Ok failed_index =>
      signed_transactions ← lift (or_panic (bcs_transactions data));
      service app_sender;;
      exist_count ← submit_batch_loop failed_index 0 signed_transactions 0;
      if 0 <? exist_count then notify_block_ready else mret tt
  end.

Definition app_gossip (msg : bytes) : M unit :=
  match from_slice msg : outcome string SignedTransaction with
  | Ok s => add_pool s
  | Err _ => mret tt
  | Panic => lift Panic
  end.
End definitions.
End Vm.

(** ** Verifying and deciding blocks *)
Module Snowman.
Section definitions.
Context `{CryptoTypes} `{!Transactions} `{!PrivateKeys} `{!BlsAggregate} `{!BlsSign LedgerInfo.t}
  `{!Avalanche} `{!Services} `{!Json fields} `{!Json BlockWithStatus} `{!Json AptosData}
  `{!Json (list Transaction.t)} `{!Json SignedTransaction}.
Abbreviation M := (action world IoError).

(** [now] is the local time in seconds. *)
Definition verify (now : Z) (self : block) : M unit :=
  if (height self =? 0) && bool_decide (parent_id self = Id_empty) then
    State.add_verified (state_of self) self
  else
    catch (State.get_block (state_of self) (id self)) (fun o =>
      match o with
      | Ok _ => mret tt
      | Panic => lift Panic
      | Err _ =>
          prnt_blk ← State.get_block (state_of self) (parent_id self);
          before ← lift (u64_sub (height self) 1);
          lift (ensure (height prnt_blk =? before)
            (io_error InvalidData "parent block height != current block height - 1"));;
          lift (ensure (timestamp prnt_blk <=? timestamp self)
            (io_error InvalidData "parent block timestamp > current block timestamp"));;
          lift (ensure (timestamp self <? (now + 3600) `mod` 2 ^ 64)
            (io_error InvalidData "block timestamp is more than 1 hour ahead of local time"));;
          State.add_verified (state_of self) self
      end).

Definition inner_build (self : block) : M unit :=
  if vm (state_of self) then Vm.inner_build_block (data self) else mret tt.

(** The block after it was accepted. *)
Definition accept (self : block) : M block :=
  inner_build self;;
  let self := Block.set_status Accepted self in
  State.write_block (state_of self) self;;
  State.set_last_accepted_block (state_of self) (id self);;
  State.remove_verified (state_of self) (id self);;
  mret self.

Definition reject (self : block) : M block :=
  let self := Block.set_status Rejected self in
  State.write_block (state_of self) self;;
  State.remove_verified (state_of self) (id self);;
  mret self.
End definitions.
End Snowman.

(** ** The interface to the consensus engine *)
Module ChainVm.
Section definitions.
Context `{CryptoTypes} `{!Transactions} `{!PrivateKeys} `{!BlsAggregate} `{!BlsSign LedgerInfo.t}
  `{!Avalanche} `{!Services} `{!Json fields} `{!Json BlockWithStatus} `{!Json AptosData}
  `{!Json (list Transaction.t)} `{!Json SignedTransaction}.
Abbreviation M := (action world IoError).

(** [snow::State]. *)
Inductive snow_state := Initializing | StateSyncing | Bootstrapping | NormalOp.

Definition set_state (s : snow_state) : M unit :=
  match s with
  | Initializing | Bootstrapping => modify (fun w => set_bootstrapped w false)
  | StateSyncing => lift (Err (io_error Other "state sync is not supported"))
  | NormalOp => modify (fun w => set_bootstrapped w true)
  end.

Definition set_preference (id : Id) : M unit := modify (fun w => set_preferred w id).

Definition last_accepted : M Id :=
  w ← gets (fun w => w);
  match vm_state w with
  | Some state => State.get_last_accepted_block_id state
  | None => lift (Err (io_error NotFound "state manager not found"))
  end.

Definition get_block (blk_id : Id) : M block :=
  w ← gets (fun w => w);
  match vm_state w with
  | Some state =>
      b ← State.get_block state blk_id;
      mret (Block.set_state (State.set_vm state) b)
  | None => lift (Err (io_error NotFound "state manager not found"))
  end.

Definition parse_block (encoded : bytes) : M block :=
  w ← gets (fun w => w);
  match vm_state w with
  | Some state =>
      new_block ← Block.from_slice encoded;
      let new_block := Block.set_state (State.set_vm state) (Block.set_status Processing new_block) in
      catch (State.get_block state (id new_block)) (fun o =>
        match o with
        | Ok prev => mret prev
        | Err _ => mret new_block
        | Panic => lift Panic
        end)
  | None => lift (Err (io_error NotFound "state manager not found"))
  end.

(** A method whose error is unwrapped. *)
Definition unwrapped {A} (m : M A) : M A := catch m (fun o => lift (or_panic o)).

Definition build_block (unix_now unix_now_micro : Z) (block_id checkpoint_id : HashValue) : M block :=
  w ← gets (fun w => w);
  match vm_state w with
  | Some state_b =>
      prnt_blk ← unwrapped (State.get_block state_b (preferred w));
      data ← unwrapped (Vm.build_block_data unix_now_micro block_id checkpoint_id);
      height ← lift (u64_add (height prnt_blk) 1);
      block_ ← unwrapped (Block.new (id prnt_blk) height (unix_now `mod` 2 ^ 64) data Processing);
      let block_ := Block.set_state state_b block_ in
      unwrapped (Snowman.verify unix_now block_);;
      mret block_
  | None => lift (Err (io_error Other "not implement"))
  end.

(** [initialize], with the database of the chain, the channel and the sender it is
    given; [init_aptos] sets up the executor, the mempool and the signer. *)
Definition initialize (current : Db) (channel : Channel) (sender : AppSender)
    (init_aptos : Exec * Pool * ValidatorSigner.t) : M unit :=
  w ← gets (fun w => w);
  let state := mk_state (length (heap w)) false in
  modify (fun w => set_heap w (heap w ++ [mk_store current ∅]));;
  modify (fun w => set_vm_state w (Some state));;
  modify (fun w => set_to_engine w (Some channel));;
  modify (fun w => set_app_sender w (Some sender));;
  let '(executor, pool, signer) := init_aptos in
  modify (fun w => mk_world (heap w) (vm_state w) (preferred w) (bootstrapped w) (Some executor) (Some pool)
    (Some signer) (to_engine w) (app_sender w) (build_status w) (has_pending_tx w));;
  has_last_accepted ← State.has_last_accepted_block state;
  if has_last_accepted : bool then
    last_accepted_blk_id ← State.get_last_accepted_block_id state;
    modify (fun w => set_preferred w last_accepted_blk_id)
  else
    data ← lift (or_panic (to_vec (aptos_data (bytes_of_string "hello world") HashValue_zero HashValue_zero 0 0)));
    genesis_block ← unwrapped (Block.new Id_empty 0 0 data Status_default);
    genesis_block ← Snowman.accept (Block.set_state state genesis_block);
    modify (fun w => set_preferred w (id genesis_block)).
End definitions.
End ChainVm.

(** ** What is relied on *)

(** JSON reads back what it wrote, the identifiers of a block and their bytes do
    not collide, and a database returns what was put. *)
Class JsonLaws (A : Type) `{!Json A} : Prop :=
  json_roundtrip (x : A) (d : bytes) : to_vec x = Ok d -> from_slice d = Ok x.
Class AvalancheLaws `{Avalanche} : Prop := {
  sha256_inj : Inj (=) (=) sha256;
  Id_to_vec_inj : Inj (=) (=) Id_to_vec;
  Id_roundtrip i : Id_from_slice (Id_to_vec i) = i;
}.
Class DatabaseLaws `{CryptoTypes} `{!Transactions} `{!Services} : Prop := {
  db_get_put k v d d' : db_put k v d = (d', Ok tt) -> db_get k d' = Ok v;
  db_get_put_fails k v d d' o : db_put k v d = (d', o) -> db_get k d' = Ok v \/ db_get k d' = db_get k d;
  db_get_put_ne k k' v d d' o : k <> k' -> db_put k v d = (d', o) -> db_get k' d' = db_get k' d;
}.
