(* ===== verification/SubnetExample.v ===== *)
(** * Concrete services for the subnet

    Instances of the parameters of [Subnet] at which its theorems are exercised: a
    serialization of the data to lists of numbers, identifiers that are the bytes
    they are computed from, a database that is a finite map, and an executor, a
    mempool and channels that log what they are given. *)

From S2P Require Import Prelude Collections Merkle InMemoryAccumulator BitVec ValidatorVerifier LedgerInfo.
From S2P Require Import TrustedState AccumulatorProofs QuorumCert Timeout2Chain ConsensusBlock Subnet.

(** ** Serialization *)
Class Codec (A : Type) := {
  emit : A -> bytes;
  read : bytes -> option (A * bytes);
  read_emit x r : read (emit x ++ r) = Some (x, r);
}.

#[export] Instance Z_codec : Codec Z := {|
  emit z := [z];
  read d := match d with z :: r => Some (z, r) | [] => None end;
  read_emit x r := eq_refl;
|}.

#[export, refine] Instance prod_codec {A B} `{!Codec A} `{!Codec B} : Codec (A * B) := {|
  emit p := emit p.1 ++ emit p.2;
  read d := match read d with
            | Some (a, r) => match read r with Some (b, r) => Some ((a, b), r) | None => None end
            | None => None
            end;
|}.
Proof. intros [a b] r. cbn. by rewrite <-app_assoc, !read_emit. Defined.

#[export, refine] Instance sum_codec {A B} `{!Codec A} `{!Codec B} : Codec (A + B) := {|
  emit x := match x with inl a => 0 :: emit a | inr b => 1 :: emit b end;
  read d := match d with
            | 0 :: r => match read r with Some (a, r) => Some (inl a, r) | None => None end
            | 1 :: r => match read r with Some (b, r) => Some (inr b, r) | None => None end
            | _ => None
            end;
|}.
Proof. intros [a|b] r; cbn; by rewrite read_emit. Defined.

(** Lists with their length in front. *)
Fixpoint read_many {A} `{!Codec A} (n : nat) (d : bytes) : option (list A * bytes) :=
  match n with
  | O => Some ([], d)
  | S n => match read d with
           | Some (a, r) => match read_many n r with Some (l, r) => Some (a :: l, r) | None => None end
           | None => None
           end
  end.

Lemma read_many_emit {A} `{!Codec A} (l : list A) r : read_many (length l) (concat (emit <$> l) ++ r) = Some (l, r).
Proof. induction l as [|x l IH]; [done|]. cbn. by rewrite <-app_assoc, read_emit, IH. Qed.

#[export, refine] Instance list_codec {A} `{!Codec A} : Codec (list A) := {|
  emit l := Z.of_nat (length l) :: concat (emit <$> l);
  read d := match d with n :: r => read_many (Z.to_nat n) r | [] => None end;
|}.
Proof. intros l r. cbn. rewrite Nat2Z.id. apply read_many_emit. Defined.

(** Along an isomorphism. *)
Program Definition codec_of {A B} `{!Codec B} (f : A -> B) (g : B -> A) (Hgf : forall a, g (f a) = a) : Codec A := {|
  emit a := emit (f a);
  read d := match read d with Some (b, r) => Some (g b, r) | None => None end;
|}.
Next Obligation. intros A B ? f g Hgf a r. cbn. by rewrite read_emit, Hgf. Defined.

Definition json_of {A} `{!Codec A} : Json A := {|
  to_vec a := Ok (emit a);
  from_slice d := match read d with Some (a, []) => Ok a | _ => Err "expected value"%string end;
|}.

Lemma json_of_laws {A} `{!Codec A} : @JsonLaws A json_of.
Proof. intros x d [= <-]. cbn. generalize (read_emit x []). rewrite app_nil_r. by intros ->. Qed.

(** ** Types *)
#[export] Instance subnet_crypto : CryptoTypes := {| HashValue := Z; HashValue_zero := 0; PublicKey := Z; Signature := Z |}.
#[export] Instance subnet_aggregate : @BlsAggregate subnet_crypto := {|
  aggregate_sigs := fun sigs => Some (foldr Z.lor 0 (sigs : list Z));
  aggregate_keys := fun keys => Some (foldr Z.lor 0 (keys : list Z));
|}.
#[export] Instance subnet_keys : @PrivateKeys subnet_crypto := {| PrivateKey := Z; public_key_of := fun k => k |}.
#[export] Instance subnet_sign (M : Type) : @BlsSign subnet_crypto subnet_keys M := fun key _ => Ok key.

(** A transaction: its sender and its sequence number. *)
#[export] Instance subnet_transactions : Transactions := {|
  SignedTransaction := Z * Z;
  txn_sender := fst;
  txn_sequence_number := snd;
  raw_txn_bytes_len _ := 1;
  WriteSetPayload := Z;
|}.

#[export] Instance subnet_ids : Avalanche := {|
  Id := list Z;
  Id_empty := [];
  sha256 d := d;
  Id_to_vec i := i;
  Id_from_slice d := d;
  Status := Z;
  Status_default := 0;
  Processing := 1;
  Accepted := 2;
  Rejected := 3;
|}.

#[export] Instance subnet_ids_laws : @AvalancheLaws subnet_ids.
Proof. split; [by intros ? ?..|done]. Qed.

#[export] Instance metadata_codec : Codec (@BlockMetadata.t subnet_crypto).
Proof.
  refine (codec_of (B:=Z * (Z * (Z * (Z * (list Z * (list Z * Z))))))
    (fun m => (BlockMetadata.id m, (BlockMetadata.epoch m, (BlockMetadata.round m, (BlockMetadata.proposer m,
       (BlockMetadata.previous_block_votes_bitvec m, (BlockMetadata.failed_proposer_indices m,
        BlockMetadata.timestamp_usecs m)))))))
    (fun '(i, (e, (r, (p, (v, (f, t)))))) => BlockMetadata.new (i : @HashValue subnet_crypto) e r p v f t) _).
  by intros [].
Defined.

#[export] Instance transaction_codec : Codec (@Transaction.t subnet_crypto subnet_transactions).
Proof.
  refine (codec_of (B:=(Z * Z) + (Z + (BlockMetadata.t + Z)))
    (fun t => match t with
              | Transaction.UserTransaction x => inl x
              | Transaction.GenesisTransaction p => inr (inl p)
              | Transaction.BlockMetadata m => inr (inr (inl m))
              | Transaction.StateCheckpoint i => inr (inr (inr i))
              end)
    (fun x => match x with
              | inl x => Transaction.UserTransaction (x : @SignedTransaction subnet_transactions)
              | inr (inl p) => Transaction.GenesisTransaction (p : @WriteSetPayload subnet_transactions)
              | inr (inr (inl m)) => Transaction.BlockMetadata m
              | inr (inr (inr i)) => Transaction.StateCheckpoint (i : @HashValue subnet_crypto)
              end) _).
  by intros [].
Defined.

#[export] Instance aptos_data_codec : Codec (@AptosData subnet_crypto).
Proof.
  refine (codec_of (B:=list Z * (Z * (Z * (Z * Z))))
    (fun a => (block_info a, (data_block_id a, (data_parent_id a, (next_epoch a, data_ts a)))))
    (fun '(b, (i, (p, (e, t)))) => aptos_data b (i : @HashValue subnet_crypto) p e t) _).
  by intros [].
Defined.

#[export] Instance fields_codec : Codec (@fields subnet_ids).
Proof.
  refine (codec_of (B:=list Z * (Z * (Z * list Z)))
    (fun f => (f_parent_id f, (f_height f, (f_timestamp f, f_data f))))
    (fun '(p, (h, (t, d))) => mk_fields (p : @Id subnet_ids) h t d) _).
  by intros [].
Defined.

#[export] Instance block_with_status_codec : Codec (@BlockWithStatus subnet_ids).
Proof.
  refine (codec_of (B:=list Z * Z) (fun b => (block_bytes b, block_status b))
    (fun '(b, s) => block_with_status b (s : @Status subnet_ids)) _).
  by intros [].
Defined.

(** ** Serializations: those of blocks may be preceded by white space. *)
Fixpoint skip_spaces (d : bytes) : bytes := match d with -32 :: d => skip_spaces d | _ => d end.

#[export] Instance fields_json : Json (@fields subnet_ids) := {|
  to_vec f := Ok (emit f);
  from_slice d := match read (skip_spaces d) with Some (f, []) => Ok f | _ => Err "expected value"%string end;
|}.
#[export] Instance block_with_status_json : Json (@BlockWithStatus subnet_ids) := json_of.
#[export] Instance aptos_data_json : Json (@AptosData subnet_crypto) := json_of.
#[export] Instance transactions_json : Json (list (@Transaction.t subnet_crypto subnet_transactions)) := json_of.
#[export] Instance transaction_json : Json (@SignedTransaction subnet_transactions) := json_of (A:=Z * Z).

#[export] Instance fields_json_laws : JsonLaws (@fields subnet_ids).
Proof.
  intros x d Hd. assert (d = emit x) as -> by (change (@Ok string _ (emit x) = Ok d) in Hd; congruence). cbn [from_slice fields_json].
  assert (skip_spaces (emit x) = emit x) as -> by (cbn; by destruct (length (f_parent_id x))).
  generalize (read_emit x []). rewrite app_nil_r. by intros ->.
Qed.
#[export] Instance block_with_status_json_laws : JsonLaws (@BlockWithStatus subnet_ids) := json_of_laws.
#[export] Instance aptos_data_json_laws : JsonLaws (@AptosData subnet_crypto) := json_of_laws.
#[export] Instance transactions_json_laws : JsonLaws (list (@Transaction.t subnet_crypto subnet_transactions)) := json_of_laws.

(** ** Services *)

(** The executor: the blocks it committed, the last one first, and those executed. *)
Record log := mk_log {
  committed : list Z;
  executed : list (Z * list (@Transaction.t subnet_crypto subnet_transactions));
}.

#[export] Instance subnet_services : @Services subnet_crypto subnet_transactions := {|
  Db := gmap (list Z) (list Z);
  db_new := ∅;
  db_get k d := match d !! k with Some v => Ok v | None => Err (io_error NotFound "not found") end;
  db_has k d := Ok (bool_decide (is_Some (d !! k)));
  db_put k v d := (<[k := v]> d, Ok tt);
  is_not_found e := match kind e with NotFound => true | _ => false end;
  Exec := log;
  committed_block_id e := default 0 (head (committed e));
  execute_block i txs parent e := (mk_log (committed e) ((i, txs) :: executed e),
    Ok (compute_result (1000 + Z.of_nat (length (executed e)) : @HashValue subnet_crypto)
          (Z.of_nat (length txs)) None));
  commit_blocks ids _ e := (mk_log (reverse ids ++ committed e) (executed e), Ok tt);
  get_latest_ledger_info e := Ok (LedgerInfoWithSignatures.new
    (LedgerInfo.new (BlockInfo.new 1 0 (default 0 (head (committed e)) : @HashValue subnet_crypto) 0 0 0 None) 0)
    (AggregateSignature.new (BitVec.mk []) None));
  Pool := list (Z * Z);
  add_txn t _ _ p := p ++ [t];
  get_batch n _ p := firstn (Z.to_nat n) p;
  commit_transaction a s p := filter (fun t => t <> (a, s)) p;
  Channel := nat;
  send_pending_txs n := (S n, Ok tt);
  AppSender := list bytes;
  send_app_gossip m l := (l ++ [m], Ok tt);
  bcs_transaction d := match d with a :: s :: _ => Ok (a, s) | _ => Err "unexpected end of input"%string end;
  bcs_transactions d := match read d with Some (l, _) => Ok l | None => Err "unexpected end of input"%string end;
|}.

#[export] Instance subnet_database_laws : @DatabaseLaws subnet_crypto subnet_transactions subnet_services.
Proof.
  split; cbn.
  - intros k v d d' [= <-]. by rewrite lookup_insert_eq.
  - intros k v d d' o [= <- _]. left. by rewrite lookup_insert_eq.
  - intros k k' v d d' o Hne [= <- _]. by rewrite lookup_insert_ne.
Qed.
