(* ===== verification/SubnetChain.v ===== *)
(** * The chain of blocks of the subnet

    What the calls of the consensus engine do to the blocks the virtual machine of
    [subnet/src] knows, verified in memory or decided in the database: the known
    blocks always form chains down to genesis with consecutive heights; accepting
    a block executes its data and records it as the last accepted one.  The last
    part shows behaviour that departs from this: blocks executed without being
    accepted, batches that are never announced, and identifiers that change. *)

From S2P Require Import Prelude Collections Merkle InMemoryAccumulator BitVec ValidatorVerifier LedgerInfo.
From S2P Require Import TrustedState AccumulatorProofs QuorumCert Timeout2Chain ConsensusBlock Subnet SubnetExample.

(** ** Operations and the worlds they leave *)
Create HintDb chain.

Section keeps.
Context `{CryptoTypes} `{!Transactions} `{!PrivateKeys} `{!Avalanche} `{!Services}.

(** An operation that relates the world it is called in to the one it leaves. *)
Definition keeps (R : relation world) {A} (m : action world IoError A) : Prop := forall w, R w (m w).1.

Context (R : relation world) `{!PreOrder R}.

Lemma keeps_bind {A B} (m : action world IoError A) (k : A -> action world IoError B) :
  keeps R m -> (forall a, keeps R (k a)) -> keeps R (m ≫= k).
Proof using PreOrder0.
  intros Hm Hk w. unfold mbind, action_bind. specialize (Hm w).
  destruct (m w) as [w1 [a|e|]]; [|done..]. by etransitivity; [|apply Hk].
Qed.
Lemma keeps_catch {A B} (m : action world IoError A) (k : outcome IoError A -> action world IoError B) :
  keeps R m -> (forall o, keeps R (k o)) -> keeps R (catch m k).
Proof using PreOrder0.
  intros Hm Hk w. unfold catch. specialize (Hm w). destruct (m w) as [w1 o]. by etransitivity; [|apply Hk].
Qed.
Lemma keeps_ret {A} (a : A) : keeps R (mret a).
Proof using PreOrder0. intros w. cbn. reflexivity. Qed.
Lemma keeps_lift {A} (o : outcome IoError A) : keeps R (lift o).
Proof using PreOrder0. intros w. cbn. reflexivity. Qed.
Lemma keeps_gets {A} (g : world -> A) : keeps R (gets g).
Proof using PreOrder0. intros w. cbn. reflexivity. Qed.
Lemma keeps_service {A} (g : world -> option A) : keeps R (service g).
Proof using PreOrder0. intros w. cbn. reflexivity. Qed.
Lemma keeps_deref s : keeps R (deref s).
Proof using PreOrder0. intros w. cbn. reflexivity. Qed.
Lemma keeps_modify (g : world -> world) : (forall w, R w (g w)) -> keeps R (modify g).
Proof using Type. intros Hg w. apply Hg. Qed.
End keeps.

Ltac keeps_step :=
  match goal with
  | |- keeps _ (_ ≫= _) => apply keeps_bind; [apply _| |intros ?; cbv beta]
  | |- keeps _ (catch _ _) => apply keeps_catch; [apply _| |intros ?; cbv beta]
  | |- keeps _ (mret _) => apply keeps_ret, _
  | |- keeps _ (lift _) => apply keeps_lift, _
  | |- keeps _ (gets _) => apply keeps_gets, _
  | |- keeps _ (service _) => apply keeps_service, _
  | |- keeps _ (deref _) => apply keeps_deref, _
  | |- keeps _ (modify _) => apply keeps_modify; intros ?; repeat case_match; first [done | intro; done]
  | |- keeps _ (match ?x with _ => _ end) => destruct x
  | |- keeps _ (let '(_, _) := ?x in _) => destruct x
  end.
Ltac keeps := intros; repeat (keeps_step || solve [auto with chain]).

Section chain.
Context `{CryptoTypes} `{!Transactions} `{!PrivateKeys} `{!BlsAggregate} `{!BlsSign LedgerInfo.t}
  `{!Avalanche} `{!Services} `{!Json fields} `{!Json BlockWithStatus} `{!Json AptosData}
  `{!Json (list Transaction.t)} `{!Json SignedTransaction}
  `{!AvalancheLaws} `{!DatabaseLaws} `{!JsonLaws fields} `{!JsonLaws BlockWithStatus}.
Implicit Types (w : world) (b : block) (f : fields) (S : store) (i : Id).

(** The record of a decided block. *)
Definition decided S i f (st : Status) : Prop := exists d bs,
  db_get (State.block_with_status_key i) (db S) = Ok d /\ from_slice d = Ok bs /\
  from_slice (block_bytes bs) = Ok f /\ block_status bs = st.

(** The block with identifier [i] is known and has the fields [f]. *)
Definition known S i f : Prop :=
  (exists b, verified_blocks S !! i = Some b /\ Block.to_fields b = f) \/
  verified_blocks S !! i = None /\ exists st, decided S i f st.

(** Known blocks link to genesis, a block of height 0 without a parent, heights
    counting the links. *)
Inductive linked S : Id -> fields -> Prop :=
  | linked_genesis i f : known S i f -> f_height f = 0 -> f_parent_id f = Id_empty -> linked S i f
  | linked_child i f p : known S i f -> linked S (f_parent_id f) p ->
      f_height f = f_height p + 1 -> f_timestamp p <= f_timestamp f -> linked S i f.

(** An identifier with fields it is computed from. *)
Definition identifies i f : Prop := exists d, sha256 d = i /\ from_slice d = Ok f.

(** The store of the machine, at location [l]. *)
Record store_ok (l : nat) S : Prop := {
  ok_verified i b : verified_blocks S !! i = Some b -> id b = i /\ loc (state_of b) = l;
  ok_identifies i f : known S i f -> identifies i f;
  ok_linked i f : known S i f -> linked S i f;
}.

(** ** Reading blocks *)
Lemma from_slice_run d w w' o : Block.from_slice d w = (w', o) ->
  (w' = w /\ (exists e, o = Err e \/ o = Panic) /\ forall f, from_slice d <> Ok f) \/
  exists f, from_slice d = Ok f /\ w' = set_heap w (heap w ++ [mk_store db_new ∅]) /\
    o = Ok (mk_block (f_parent_id f) (f_height f) (f_timestamp f) (f_data f) Status_default d (sha256 d)
              (mk_state (length (heap w)) false)).
Proof using Type.
  unfold Block.from_slice, lift, mbind, action_bind. destruct (from_slice d) as [f|e|] eqn:Ef; cbn; intros [= <- <-].
  - right. by exists f.
  - left. split_and!; [done| |done]. eexists. by left.
  - left. split_and!; [done| |done]. exists (io_error Other EmptyString). by right.
Qed.

Lemma decided_fun S i f f' st st' : decided S i f st -> decided S i f' st' -> f = f' /\ st = st'.
Proof using Type. intros (d & bs & ? & ? & ? & ?) (d' & bs' & ? & ? & ? & ?). simplify_eq. split; congruence. Qed.

(** What [get_block] does: it may make a store for the block it returns. *)
Lemma get_block_run s i w w' o : State.get_block s i w = (w', o) ->
  (exists extra, w' = set_heap w (heap w ++ extra) /\ Forall (eq (mk_store db_new ∅)) extra) /\
  (forall b, o = Ok b -> exists S, heap w !! loc s = Some S /\ known S i (Block.to_fields b) /\
     (verified_blocks S !! i = Some b \/
      id b = sha256 (encoded b) /\ from_slice (encoded b) = Ok (Block.to_fields b) /\
      state_of b = mk_state (length (heap w)) false /\ verified_blocks S !! i = None)) /\
  (forall e, o = Err e -> exists S, heap w !! loc s = Some S /\ forall f, ~ known S i f).
Proof using Type.
  intros Hr. unfold State.get_block, deref, mbind, action_bind in Hr.
  assert (exists extra, w = set_heap w (heap w ++ extra) /\ Forall (eq (mk_store db_new ∅)) extra) as Hid.
  { exists []. rewrite app_nil_r. split; [by destruct w|done]. }
  destruct (heap w !! loc s) as [S|] eqn:ES; cbn in Hr; [|injection Hr as <- <-; by split_and!].
  destruct (verified_blocks S !! i) as [b|] eqn:Ev.
  { injection Hr as <- <-. split_and!; [done| |done]. intros b' [= <-]. exists S. split_and!; [done| |by left].
    left. by exists b. }
  assert (forall f, known S i f -> exists d bs, db_get (State.block_with_status_key i) (db S) = Ok d /\
    from_slice d = Ok bs /\ from_slice (block_bytes bs) = Ok f) as Hk.
  { intros f [(b & ? & _)|(_ & st & d & bs & ? & ? & ? & _)]; [congruence|by exists d, bs]. }
  destruct (db_get _ _) as [d|e|] eqn:Ed; cbn in Hr; cycle 1.
  { injection Hr as <- <-. split_and!; [done..|]. intros e' _. exists S. split; [done|].
    intros f (d & bs & ? & _)%Hk. congruence. }
  { injection Hr as <- <-. by split_and!. }
  unfold State.status_from_slice in Hr. destruct (from_slice d) as [bs|e|] eqn:Ebs; cbn in Hr; cycle 1.
  { injection Hr as <- <-. split_and!; [done..|]. intros e' _. exists S. split; [done|].
    intros f (d' & bs & ? & ? & _)%Hk. congruence. }
  { injection Hr as <- <-. by split_and!. }
  destruct (Block.from_slice (block_bytes bs) w) as [w1 o1] eqn:Ef.
  apply from_slice_run in Ef as [(-> & (e & He) & Hno)|(f & Hf & -> & ->)].
  { assert (w' = w /\ (o = Err e \/ o = Panic)) as [-> Ho] by (destruct He as [->| ->]; injection Hr as <- <-; auto).
    split_and!; [done|by destruct Ho as [->| ->]|]. intros e' _. exists S. split; [done|].
    intros f (d' & bs' & [= <-] & ? & ?)%Hk. apply (Hno f). congruence. }
  injection Hr as <- <-. split_and!; [exists [mk_store db_new ∅]; split; [done|by repeat constructor]| |done].
  intros b [= <-]. exists S. split_and!; [done| |right; by destruct f]. right. split; [done|].
  exists (block_status bs), d, bs. by destruct f.
Qed.

Lemma set_heap_nil w : w = set_heap w (heap w ++ []).
Proof using Type. rewrite app_nil_r. by destruct w. Qed.

(** ** Writing *)
Lemma put_run s k v e w w' o S : heap w !! loc s = Some S -> State.put s k v e w = (w', o) ->
  exists d', w' = set_heap w (<[loc s := mk_store d' (verified_blocks S)]> (heap w)) /\
    (db_get k d' = Ok v \/ db_get k d' = db_get k (db S)) /\ (o = Ok tt -> db_get k d' = Ok v) /\
    forall k', k <> k' -> db_get k' d' = db_get k' (db S).
Proof.
  intros HS Hr. unfold State.put, deref, mbind, action_bind in Hr. rewrite HS in Hr. cbn in Hr.
  destruct (db_put k v (db S)) as [d' o'] eqn:Ep. injection Hr as <- <-. exists d'. split_and!; [done| | |].
  - by eapply db_get_put_fails.
  - intros Ho. destruct o' as [[]|e'|]; cbn in Ho; [|done..]. by eapply db_get_put.
  - intros k' Hne. by eapply db_get_put_ne.
Qed.

Lemma block_key_inj i i' : State.block_with_status_key i = State.block_with_status_key i' -> i = i'.
Proof. intros [= E]. by apply Id_to_vec_inj. Qed.

Lemma block_key_last i : State.block_with_status_key i <> State.LAST_ACCEPTED_BLOCK_KEY.
Proof using Type. done. Qed.

(** ** Stores *)
Lemma identifies_fun i f f' : identifies i f -> identifies i f' -> f = f'.
Proof. intros (d & <- & Hf) (d' & E & Hf'). apply sha256_inj in E. congruence. Qed.

Lemma linked_mono S S' i f : (forall i f, known S i f -> known S' i f) -> linked S i f -> linked S' i f.
Proof using Type.
  intros Hk. induction 1 as [i f Hf H0' Hp|i f p Hf Hp IH Hh Ht].
  - apply linked_genesis; auto.
  - eapply linked_child; eauto.
Qed.

Lemma linked_known S i f : linked S i f -> known S i f.
Proof using Type. by destruct 1. Qed.

(** Fields a block may be added with: those of genesis, or of a child of a known
    block. *)
Definition may_follow S f : Prop :=
  f_height f = 0 /\ f_parent_id f = Id_empty \/
  exists p, known S (f_parent_id f) p /\ f_height f = f_height p + 1 /\ f_timestamp p <= f_timestamp f.

Lemma linked_may_follow S i f : linked S i f -> may_follow S f.
Proof using Type. intros [? ? _ ? ?|? ? p _ Hp ? ?]; [by left|right]. exists p. by split; [apply linked_known|]. Qed.

(** A store that knows all that another knows, and possibly blocks that may follow. *)
Lemma store_ok_extends l S S' : store_ok l S ->
  (forall i b, verified_blocks S' !! i = Some b -> id b = i /\ loc (state_of b) = l) ->
  (forall i f, known S i f -> known S' i f) ->
  (forall i f, known S' i f -> known S i f \/ identifies i f /\ may_follow S f) ->
  store_ok l S'.
Proof using Type.
  intros [_ Hid Hlink] Hv Hmono Hnew. split; [done| |].
  - intros i f [Hf|[Hf _]]%Hnew; auto.
  - intros i f Hf. destruct (Hnew i f Hf) as [Hold|[_ [[H0' Hp]|(p & Hp & Hh & Ht)]]].
    + by eapply linked_mono, Hlink.
    + by apply linked_genesis.
    + eapply linked_child; [done| |done|done]. by eapply linked_mono, Hlink.
Qed.

Lemma add_verified_ok l S b : store_ok l S -> loc (state_of b) = l -> identifies (id b) (Block.to_fields b) ->
  may_follow S (Block.to_fields b) -> store_ok l (mk_store (db S) (<[id b := b]> (verified_blocks S))).
Proof.
  intros Hok Hl Hid Hf. set (S' := mk_store _ _).
  assert (known S' (id b) (Block.to_fields b)) as Hb.
  { left. exists b. cbn. by rewrite lookup_insert_eq. }
  assert (forall i f, i <> id b -> known S' i f <-> known S i f) as Hne.
  { intros i f Hi. unfold known, decided, S'. cbn. by rewrite lookup_insert_ne. }
  apply (store_ok_extends l S); [done|..].
  - intros i b'. cbn. rewrite lookup_insert_Some. intros [[<- <-]|[_ Hi]]; [done|]. by apply Hok.
  - intros i f Hi. destruct (decide (i = id b)) as [->|Hne']; [|by apply Hne].
    by rewrite (identifies_fun (id b) f (Block.to_fields b)) by (done || by apply Hok).
  - intros i f Hi. destruct (decide (i = id b)) as [->|Hne']; [right|left; by apply Hne].
    destruct Hi as [(b' & Hb' & <-)|[Hb' _]]; cbn in Hb'; rewrite lookup_insert_eq in Hb'; [|done].
    by injection Hb' as <-.
Qed.

(** Recording the decision on a block, and then forgetting that it was verified. *)
Lemma decide_ok l S S' b st : store_ok l S -> identifies (id b) (Block.to_fields b) ->
  may_follow S (Block.to_fields b) ->
  (forall i, i <> id b ->
     db_get (State.block_with_status_key i) (db S') = db_get (State.block_with_status_key i) (db S)) ->
  decided S' (id b) (Block.to_fields b) st /\
    (verified_blocks S' = verified_blocks S \/ verified_blocks S' = delete (id b) (verified_blocks S)) \/
  db_get (State.block_with_status_key (id b)) (db S') = db_get (State.block_with_status_key (id b)) (db S) /\
    verified_blocks S' = verified_blocks S ->
  store_ok l S'.
Proof.
  intros Hok Hid Hf Hdb Hcase.
  assert (forall i f, i <> id b -> known S' i f <-> known S i f) as Hne.
  { intros i f Hi. unfold known, decided. rewrite Hdb by done.
    destruct Hcase as [[_ [->| ->]]|[_ ->]]; rewrite ?lookup_delete_ne by done; done. }
  assert (forall f, known S (id b) f -> f = Block.to_fields b) as Hfun.
  { intros f Hk. eapply identifies_fun; [by apply Hok|done]. }
  assert (forall f, known S' (id b) f -> f = Block.to_fields b) as Hfun'.
  { intros f Hk. destruct Hcase as [[Hd Hv]|[Hd Hv]].
    - destruct Hk as [(b' & Hb' & <-)|[_ (st' & Hd')]]; [|by eapply decided_fun].
      destruct Hv as [Hv|Hv]; rewrite Hv in Hb'; [apply Hfun; left; by exists b'|by rewrite lookup_delete_eq in Hb'].
    - apply Hfun. unfold known, decided in *. by rewrite <-Hd, <-Hv. }
  apply (store_ok_extends l S); [done|..].
  - intros i b' Hb'. apply Hok. destruct Hcase as [[_ [Hv|Hv]]|[_ Hv]]; rewrite Hv in Hb'; [done| |done].
    by apply lookup_delete_Some in Hb' as [_ ?].
  - intros i f Hi. destruct (decide (i = id b)) as [->|Hn]; [|by apply Hne].
    destruct Hcase as [[Hd Hv]|[Hd Hv]]; [|unfold known, decided in *; by rewrite Hd, Hv].
    rewrite (Hfun f Hi). destruct (verified_blocks S' !! id b) as [b'|] eqn:Eb; [|right; split; [done|by exists st]].
    left. exists b'. split; [done|]. destruct Hv as [Hv|Hv]; rewrite Hv in Eb; [|by rewrite lookup_delete_eq in Eb].
    apply Hfun. left. by exists b'.
  - intros i f Hi. destruct (decide (i = id b)) as [->|Hn]; [right|left; by apply Hne]. by rewrite (Hfun' f Hi).
Qed.

(** *** Writing blocks *)
Lemma set_heap_same w l S : heap w !! l = Some S -> set_heap w (<[l := S]> (heap w)) = w.
Proof using Type. intros HS. rewrite list_insert_id by done. by destruct w. Qed.

Lemma write_block_run s b w w' o S : heap w !! loc s = Some S -> State.write_block s b w = (w', o) ->
  exists d', w' = set_heap w (<[loc s := mk_store d' (verified_blocks S)]> (heap w)) /\
    (forall k, k <> State.block_with_status_key (id b) -> db_get k d' = db_get k (db S)) /\
    (decided (mk_store d' (verified_blocks S)) (id b) (Block.to_fields b) (status b) \/
     db_get (State.block_with_status_key (id b)) d' = db_get (State.block_with_status_key (id b)) (db S) /\ o <> Ok tt).
Proof.
  intros HS Hr. unfold State.write_block, Block.to_slice, State.encode, lift in Hr. unfold mbind, action_bind in Hr.
  destruct (to_vec (Block.to_fields b)) as [d1|e|] eqn:E1; cbn in Hr; cycle 1.
  { injection Hr as <- <-. exists (db S). rewrite set_heap_same by (by destruct S). by split_and!; [| |right]. }
  { injection Hr as <- <-. exists (db S). rewrite set_heap_same by (by destruct S). by split_and!; [| |right]. }
  destruct (to_vec (block_with_status d1 (status b))) as [d2|e|] eqn:E2; cbn in Hr; cycle 1.
  { injection Hr as <- <-. exists (db S). rewrite set_heap_same by (by destruct S). by split_and!; [| |right]. }
  { injection Hr as <- <-. exists (db S). rewrite set_heap_same by (by destruct S). by split_and!; [| |right]. }
  destruct (put_run _ _ _ _ _ _ _ _ HS Hr) as (d' & -> & Hk & Hok & Hne). exists d'. split_and!; [done|by intros; apply Hne|].
  assert (db_get (State.block_with_status_key (id b)) d' = Ok d2 ->
    decided (mk_store d' (verified_blocks S)) (id b) (Block.to_fields b) (status b)) as Hd.
  { intros Hg. exists d2, (block_with_status d1 (status b)). apply json_roundtrip in E1, E2. done. }
  destruct Hk as [Hk|Hk]; [left; by apply Hd|]. destruct o as [[]|e|]; [left; by apply Hd, Hok|by right..].
Qed.

(** ** The machine *)

(** The machine is set up and the store of its state is well formed. *)
Definition chain_ok w : Prop := exists st S,
  vm_state w = Some st /\ heap w !! loc st = Some S /\ store_ok (loc st) S.

(** The stores and the state of the machine are left alone. *)
Definition same_stores w w' : Prop := heap w' = heap w /\ vm_state w' = vm_state w.
#[local] Instance same_stores_preorder : PreOrder same_stores.
Proof using Type. split; [done|]. intros w1 w2 w3 [? ?] [? ?]. split; congruence. Qed.
Abbreviation quiet := (keeps same_stores).

(** An operation that keeps the machine well formed. *)
Definition preserves {A} (m : action world IoError A) : Prop := forall w, chain_ok w -> chain_ok (m w).1.

Lemma update_build_block_status_quiet z : quiet (Vm.update_build_block_status z).
Proof using Type. unfold Vm.update_build_block_status. keeps. Qed.
Lemma update_pending_tx_flag_quiet z : quiet (Vm.update_pending_tx_flag z).
Proof using Type. unfold Vm.update_pending_tx_flag. keeps. Qed.
Lemma in_executor_quiet {A} (m : action Exec string A) : quiet (Vm.in_executor m).
Proof using Type. unfold Vm.in_executor. keeps. Qed.
Lemma add_pool_quiet t : quiet (Vm.add_pool t).
Proof using Type. unfold Vm.add_pool. keeps. Qed.
Lemma get_pending_tx_quiet n : quiet (Vm.get_pending_tx n).
Proof using Type. unfold Vm.get_pending_tx. keeps. Qed.
#[local] Hint Resolve update_build_block_status_quiet update_pending_tx_flag_quiet in_executor_quiet
  add_pool_quiet get_pending_tx_quiet : chain.

Lemma inner_build_block_quiet d : quiet (Vm.inner_build_block d).
Proof using Type. unfold Vm.inner_build_block. keeps. Qed.
Lemma build_block_data_quiet t h c : quiet (Vm.build_block_data t h c).
Proof using Type. unfold Vm.build_block_data. keeps. Qed.
Lemma notify_block_ready2_quiet : quiet Vm.notify_block_ready2.
Proof using Type. unfold Vm.notify_block_ready2. keeps. Qed.
#[local] Hint Resolve inner_build_block_quiet build_block_data_quiet notify_block_ready2_quiet : chain.

Lemma notify_block_ready_quiet : quiet Vm.notify_block_ready.
Proof using Type. unfold Vm.notify_block_ready. keeps. Qed.
#[local] Hint Resolve notify_block_ready_quiet : chain.
Lemma check_pending_tx_quiet sf pf now last : quiet (Vm.check_pending_tx sf pf now last).
Proof using Type. unfold Vm.check_pending_tx. keeps. Qed.
Lemma submit_transaction_quiet a d t h c : quiet (Vm.submit_transaction a d t h c).
Proof using Type. unfold Vm.submit_transaction. keeps. Qed.
Lemma submit_batch_loop_quiet fi k l n : quiet (Vm.submit_batch_loop fi k l n).
Proof using Type. revert k n. induction l; intros; cbn [Vm.submit_batch_loop]; keeps. Qed.
#[local] Hint Resolve submit_batch_loop_quiet : chain.
Lemma submit_transaction_batch_quiet a d : quiet (Vm.submit_transaction_batch a d).
Proof using Type. unfold Vm.submit_transaction_batch. keeps. Qed.
Lemma app_gossip_quiet d : quiet (Vm.app_gossip d).
Proof using Type. unfold Vm.app_gossip. keeps. Qed.
Lemma set_state_quiet s : quiet (ChainVm.set_state s).
Proof using Type. unfold ChainVm.set_state. keeps. Qed.
Lemma set_preference_quiet i : quiet (ChainVm.set_preference i).
Proof using Type. unfold ChainVm.set_preference. keeps. Qed.
Lemma inner_build_quiet b : quiet (Snowman.inner_build b).
Proof using Type. unfold Snowman.inner_build. keeps. Qed.
#[local] Hint Resolve check_pending_tx_quiet submit_transaction_quiet submit_transaction_batch_quiet
  app_gossip_quiet set_state_quiet set_preference_quiet inner_build_quiet : chain.

Lemma quiet_preserves {A} (m : action world IoError A) : quiet m -> preserves m.
Proof using Type. intros Hm w (st & S & ? & ? & ?). destruct (Hm w). exists st, S. split_and!; congruence. Qed.

(** The stores that exist stay as they are; others may be made. *)
Definition grows w w' : Prop :=
  vm_state w' = vm_state w /\ forall l S, heap w !! l = Some S -> heap w' !! l = Some S.

Lemma grows_refl w : grows w w.
Proof using Type. done. Qed.
Lemma grows_trans w1 w2 w3 : grows w1 w2 -> grows w2 w3 -> grows w1 w3.
Proof using Type. intros [? ?] [? ?]. split; [congruence|auto]. Qed.
Lemma grows_app w extra : grows w (set_heap w (heap w ++ extra)).
Proof using Type. split; [done|]. intros l S Hl. cbn. by apply lookup_app_l_Some. Qed.
Lemma grows_ok w w' : grows w w' -> chain_ok w -> chain_ok w'.
Proof using Type. intros [? Hg] (st & S & ? & ? & ?). exists st, S. split_and!; [congruence|auto|done]. Qed.
Lemma quiet_grows {A} (m : action world IoError A) w w' o : quiet m -> m w = (w', o) -> grows w w'.
Proof using Type.
  intros Hm Hr. destruct (Hm w) as [Hh Hv]. rewrite Hr in Hh, Hv. cbn in Hh, Hv. split; [done|]. intros l S Hl. by rewrite Hh.
Qed.
Lemma get_block_grows s i w w' o : State.get_block s i w = (w', o) -> grows w w'.
Proof using Type. intros ((extra & -> & _) & _)%get_block_run. apply grows_app. Qed.
Lemma from_slice_grows d w w' o : Block.from_slice d w = (w', o) -> grows w w'.
Proof using Type. intros [(-> & _)|(f & _ & -> & _)]%from_slice_run; [done|apply grows_app]. Qed.

(** A write to a store of the heap. *)
Lemma write_ok w l S S' : chain_ok w -> heap w !! l = Some S -> (store_ok l S -> store_ok l S') ->
  chain_ok (set_heap w (<[l := S']> (heap w))).
Proof using Type.
  intros (st & T & Hst & HT & Hok) HS HS'. destruct (decide (loc st = l)) as [<-|Hne].
  - assert (T = S) as -> by congruence. exists st, S'. split_and!; [done| |auto]. cbn.
    rewrite list_lookup_insert_eq; [done|by eapply lookup_lt_Some].
  - exists st, T. split_and!; [done| |done]. cbn. by rewrite list_lookup_insert_ne.
Qed.

(** *** Verification *)
Lemma add_verified_run s b w w' o : State.add_verified s b w = (w', o) ->
  w' = w \/ exists S, heap w !! loc s = Some S /\ o = Ok tt /\
    w' = set_heap w (<[loc s := mk_store (db S) (<[id b := b]> (verified_blocks S))]> (heap w)).
Proof using Type.
  unfold State.add_verified, deref, mbind, action_bind. destruct (heap w !! loc s) as [S|]; cbn; intros [= <- <-]; [|by left].
  right. by exists S.
Qed.

Lemma verify_run now b w w' o : Snowman.verify now b w = (w', o) ->
  grows w w' \/ exists w1 S, grows w w1 /\ heap w1 !! loc (state_of b) = Some S /\ o = Ok tt /\
    may_follow S (Block.to_fields b) /\
    w' = set_heap w1 (<[loc (state_of b) := mk_store (db S) (<[id b := b]> (verified_blocks S))]> (heap w1)).
Proof using Type.
  intros Hr. unfold Snowman.verify in Hr. destruct ((height b =? 0) && _) eqn:Eg.
  { apply andb_true_iff in Eg as [Hh%Z.eqb_eq Hp%bool_decide_eq_true].
    apply add_verified_run in Hr as [->|(S & HS & -> & ->)]; [by left|right]. exists w, S. split_and!; try done. by left. }
  unfold catch in Hr. destruct (State.get_block (state_of b) (id b) w) as [w1 o1] eqn:E1. pose proof (get_block_grows _ _ _ _ _ E1) as G1.
  destruct o1 as [?|e|]; [injection Hr as <- <-; by left| |injection Hr as <- <-; by left].
  apply action_bind_inv in Hr as [(w2 & p & Hp & Hr)|[(e' & Hp & ->)|[Hp ->]]]; cycle 1.
  1,2: left; eapply grows_trans, get_block_grows; done.
  pose proof (grows_trans _ _ _ G1 (get_block_grows _ _ _ _ _ Hp)) as G2.
  apply get_block_run in Hp as ((extra & -> & _) & Hp & _). destruct (Hp p eq_refl) as (S & HS & Hk & _).
  unfold lift, ensure, mbind, action_bind, u64_sub in Hr.
  destruct (1 <=? height b) eqn:E0; [|injection Hr as <- <-; by left].
  destruct (height p =? height b - 1) eqn:Eh; [|injection Hr as <- <-; by left].
  destruct (timestamp p <=? timestamp b) eqn:Et; [|injection Hr as <- <-; by left].
  destruct (timestamp b <? _) eqn:En; [|injection Hr as <- <-; by left].
  apply add_verified_run in Hr as [->|(S' & HS' & -> & ->)]; [by left|right].
  eexists _, S'. split_and!; [exact G2|done..| |done]. apply (grows_app w1 extra) in HS. assert (S' = S) as -> by congruence.
  right. exists (Block.to_fields p). split; [done|]. cbn. lia.
Qed.

Lemma verify_preserves now b : identifies (id b) (Block.to_fields b) -> preserves (Snowman.verify now b).
Proof.
  intros Hid w Hok. destruct (Snowman.verify now b w) as [w' o] eqn:Hr. cbn.
  apply verify_run in Hr as [Hg|(w1 & S & Hg & HS & _ & Hf & ->)]; [by eapply grows_ok|].
  eapply write_ok; [by eapply grows_ok|done|]. intros. by apply add_verified_ok.
Qed.

(** *** Decisions *)
Lemma set_heap_insert w l (S S' : store) :
  set_heap (set_heap w (<[l := S]> (heap w))) (<[l := S']> (<[l := S]> (heap w))) = set_heap w (<[l := S']> (heap w)).
Proof using Type. unfold set_heap. cbn. by rewrite list_insert_insert_eq. Qed.

(** The records of the blocks are the same in two databases. *)
Definition same_blocks (d d' : Db) : Prop :=
  forall i, db_get (State.block_with_status_key i) d' = db_get (State.block_with_status_key i) d.

(** An operation on a store that leaves the blocks alone. *)
Definition keeps_blocks l (k : action world IoError unit) : Prop := forall w w' o S,
  heap w !! l = Some S -> k w = (w', o) -> exists d,
  w' = set_heap w (<[l := mk_store d (verified_blocks S)]> (heap w)) /\ same_blocks (db S) d.

Lemma ret_keeps_blocks l : keeps_blocks l (mret tt).
Proof using Type. intros w w' o S HS [= <- <-]. exists (db S). rewrite set_heap_same by (by destruct S). done. Qed.

Lemma set_last_accepted_keeps_blocks s i : keeps_blocks (loc s) (State.set_last_accepted_block s i).
Proof.
  intros w w' o S HS Hr. destruct (put_run _ _ _ _ _ _ _ _ HS Hr) as (d & -> & _ & _ & Hne).
  exists d. split; [done|]. intros i'. by apply Hne, not_eq_sym, block_key_last.
Qed.

(** What deciding a block does to the store of its state. *)
Record decision S b S' : Prop := {
  others i : i <> id b ->
    db_get (State.block_with_status_key i) (db S') = db_get (State.block_with_status_key i) (db S);
  recorded : decided S' (id b) (Block.to_fields b) (status b) /\
      (verified_blocks S' = verified_blocks S \/ verified_blocks S' = delete (id b) (verified_blocks S)) \/
    db_get (State.block_with_status_key (id b)) (db S') = db_get (State.block_with_status_key (id b)) (db S) /\
      verified_blocks S' = verified_blocks S;
}.

Lemma decision_run b k w w' o S : heap w !! loc (state_of b) = Some S -> keeps_blocks (loc (state_of b)) k ->
  (State.write_block (state_of b) b;; k;; State.remove_verified (state_of b) (id b);; mret b) w = (w', o) ->
  exists S', w' = set_heap w (<[loc (state_of b) := S']> (heap w)) /\ decision S b S' /\
    forall b', o = Ok b' -> b' = b /\ decided S' (id b) (Block.to_fields b) (status b) /\
      verified_blocks S' = delete (id b) (verified_blocks S).
Proof.
  intros HS Hk Hr. pose proof (lookup_lt_Some _ _ _ HS) as Hlt.
  destruct (State.write_block (state_of b) b w) as [w1 o1] eqn:E1. pose proof E1 as E1'.
  apply (write_block_run _ _ _ _ _ S) in E1' as (d1 & -> & Hne & Hd); [|done]. set (S1 := mk_store d1 _) in *.
  assert (forall i, i <> id b -> db_get (State.block_with_status_key i) d1 = db_get (State.block_with_status_key i) (db S)) as Hne1.
  { intros i Hi. apply Hne. by intros ?%block_key_inj. }
  apply action_bind_inv in Hr as [(w2 & [] & Hw & Hr)|Hfail]; rewrite E1 in *; cycle 1.
  { exists S1. split_and!; [destruct Hfail as [(e & [= <- _] & ->)|[[= <- _] ->]]; done| |].
    - split; [done|]. destruct Hd as [Hd|[Hd _]]; [left; split; [done|by left]|by right].
    - intros b' ->. by destruct Hfail as [(e & _ & ?)|[_ ?]]. }
  injection Hw as <- ->. destruct Hd as [Hd|[_ []]]; [|done].
  assert (forall d, same_blocks d1 d -> forall v, decided (mk_store d v) (id b) (Block.to_fields b) (status b)) as Hdec.
  { intros d Hs v. unfold decided in *. cbn [db] in *. by rewrite (Hs (id b)). }
  assert (heap (set_heap w (<[loc (state_of b) := S1]> (heap w))) !! loc (state_of b) = Some S1) as HS1.
  { cbn. by rewrite list_lookup_insert_eq. }
  apply action_bind_inv in Hr as [(w2 & [] & Hw & Hr)|Hfail].
  - destruct (Hk _ _ _ _ HS1 Hw) as (d2 & -> & Hs). cbn [heap set_heap] in *. rewrite set_heap_insert in Hr.
    unfold State.remove_verified, deref, mbind, action_bind in Hr. cbn in Hr. rewrite list_lookup_insert_eq in Hr by done.
    cbn in Hr. rewrite set_heap_insert in Hr. injection Hr as <- <-. eexists. split_and!; [done| |].
    + split; [|left; split; [by apply Hdec|by right]]. intros i Hi. cbn [db]. by rewrite (Hs i), <-Hne1.
    + intros b' [= <-]. split_and!; [done|by apply Hdec|done].
  - assert (exists o2, k (set_heap w (<[loc (state_of b) := S1]> (heap w))) = (w', o2) /\ forall b', o <> Ok b') as (o2 & Hw & Ho).
    { destruct Hfail as [(e & ? & ->)|[? ->]]; by eexists. }
    destruct (Hk _ _ _ _ HS1 Hw) as (d2 & -> & Hs). cbn [heap set_heap] in *. rewrite set_heap_insert. eexists. split_and!; [done| |].
    + split; [|left; split; [by apply Hdec|by left]]. intros i Hi. cbn [db]. by rewrite (Hs i), <-Hne1.
    + intros b' ->. by destruct (Ho b').
Qed.

(** A block the machine may decide in a world: it is in the machine's store, is
    identified by its fields and may follow the known blocks. *)
Record decidable_block w b : Prop := {
  decidable_loc st : vm_state w = Some st -> loc (state_of b) = loc st;
  decidable_identifies : identifies (id b) (Block.to_fields b);
  decidable_follows S : heap w !! loc (state_of b) = Some S -> may_follow S (Block.to_fields b);
}.

Lemma decidable_grows w w' b : chain_ok w -> grows w w' -> decidable_block w b -> decidable_block w' b.
Proof using Type.
  intros (st & S & Hst & HS & _) [Hv Hg] [Hl Hid Hk]. split; [|done|].
  - intros st' Hst'. apply Hl. congruence.
  - intros S'. specialize (Hl _ Hst). rewrite Hl, (Hg _ _ HS) in *. intros [= <-]. by apply Hk.
Qed.

Lemma decision_preserves b k w : chain_ok w -> decidable_block w b -> keeps_blocks (loc (state_of b)) k ->
  chain_ok ((State.write_block (state_of b) b;; k;; State.remove_verified (state_of b) (id b);; mret b) w).1.
Proof.
  intros Hok [Hl Hid Hk] Hkeep. match goal with |- chain_ok (?r).1 => destruct r as [w' o] eqn:Hr end. cbn. pose proof Hok as (st & S & Hst & HS & HokS).
  rewrite <-(Hl _ Hst) in HS, HokS. destruct (decision_run _ _ _ _ _ _ HS Hkeep Hr) as (S' & -> & [Ho Hrec] & _).
  eapply write_ok; [done..|]. intros _. eapply decide_ok; [done..|by apply Hk|exact Ho|exact Hrec].
Qed.

Lemma set_status_decidable w b st : decidable_block w b -> decidable_block w (Block.set_status st b).
Proof using Type. by intros []. Qed.

Lemma bind_preserves {A B} (m : action world IoError A) (k : A -> action world IoError B) w :
  chain_ok (m w).1 -> (forall w' a, m w = (w', Ok a) -> chain_ok w' -> chain_ok (k a w').1) -> chain_ok ((m ≫= k) w).1.
Proof using Type.
  intros Hm Hk. unfold mbind, action_bind. destruct (m w) as [w' [a|e|]]; [by apply Hk|done..].
Qed.

Lemma accept_preserves b w : chain_ok w -> decidable_block w b -> chain_ok (Snowman.accept b w).1.
Proof.
  intros Hok Hb. unfold Snowman.accept. apply bind_preserves; [by apply quiet_preserves; auto with chain|].
  intros w' [] Hw Hok'. apply quiet_grows in Hw; [|auto with chain].
  apply (decision_preserves (Block.set_status Accepted b)); [done| |apply set_last_accepted_keeps_blocks].
  apply set_status_decidable. by apply (decidable_grows w).
Qed.

Lemma reject_preserves b w : chain_ok w -> decidable_block w b -> chain_ok (Snowman.reject b w).1.
Proof.
  intros Hok Hb. pose proof (decision_preserves (Block.set_status Rejected b) (mret tt) w Hok) as Hr.
  apply Hr; [by apply set_status_decidable|apply ret_keeps_blocks].
Qed.

(** *** Calls of the engine *)
Lemma chain_get_block_run i w w' o : ChainVm.get_block i w = (w', o) ->
  grows w w' /\ (chain_ok w -> forall b, o = Ok b -> decidable_block w' b).
Proof using Type.
  intros Hr. unfold ChainVm.get_block, gets, mbind, action_bind in Hr. destruct (vm_state w) as [st|] eqn:Est; cycle 1.
  { injection Hr as <- <-. by split. }
  destruct (State.get_block st i w) as [w1 o1] eqn:Eg. pose proof (get_block_grows _ _ _ _ _ Eg) as Hg.
  destruct o1 as [b|e|]; injection Hr as <- <-; [|by split..]. split; [done|]. intros Hok b' [= <-].
  apply get_block_run in Eg as (_ & Hb & _). destruct (Hb b eq_refl) as (S & HS & Hk & Hid).
  assert (store_ok (loc st) S) as HokS by (destruct Hok as (st' & S' & ? & ? & ?); naive_solver congruence).
  split; cbn.
  - intros st'. rewrite (proj1 Hg), Est. by intros [= <-].
  - destruct Hid as [Hv|(-> & Hf & _)]; [|by eexists].
    destruct (ok_verified _ _ HokS _ _ Hv) as [-> _]. by apply HokS.
  - intros S'. rewrite (proj2 Hg _ _ HS). intros [= <-]. by eapply linked_may_follow, HokS.
Qed.

Lemma parse_block_run d w w' o : ChainVm.parse_block d w = (w', o) ->
  grows w w' /\ (chain_ok w -> forall b, o = Ok b -> identifies (id b) (Block.to_fields b)).
Proof using Type.
  intros Hr. unfold ChainVm.parse_block, gets, mbind, action_bind in Hr. destruct (vm_state w) as [st|] eqn:Est; cycle 1.
  { injection Hr as <- <-. by split. }
  destruct (Block.from_slice d w) as [w1 o1] eqn:Ef. pose proof (from_slice_grows _ _ _ _ Ef) as Hg.
  apply from_slice_run in Ef as [(-> & (e & He) & _)|(f & Hf & -> & ->)].
  { destruct He as [-> | ->]; injection Hr as <- <-; by split. }
  unfold catch in Hr. cbn in Hr. destruct (State.get_block st (sha256 d) _) as [w2 o2] eqn:Eg.
  pose proof (grows_trans _ _ _ Hg (get_block_grows _ _ _ _ _ Eg)) as Hg2.
  destruct o2 as [b|e|]; injection Hr as <- <-; (split; [done|]); intros Hok b' [= <-].
  - apply get_block_run in Eg as (_ & Hb & _). destruct (Hb b eq_refl) as (S & HS & Hk & Hid).
    apply (grows_ok _ _ Hg) in Hok as (st' & S' & Hst' & HS' & HokS). cbn in Hst'.
    assert (st' = st) as -> by congruence. assert (S' = S) as -> by congruence.
    destruct Hid as [Hv|(-> & Hf' & _)]; [|by eexists].
    destruct (ok_verified _ _ HokS _ _ Hv) as [-> _]. by apply HokS.
  - exists d. split; [done|]. cbn. by destruct f.
Qed.

Lemma unwrapped_run {A} (m : action world IoError A) w w' o : ChainVm.unwrapped m w = (w', o) ->
  exists o', m w = (w', o') /\ o = or_panic o'.
Proof using Type.
  unfold ChainVm.unwrapped, catch. destruct (m w) as [w1 o1]. intros [= <- <-]. by exists o1.
Qed.

Lemma unwrapped_Ok {A} (m : action world IoError A) w w' a : ChainVm.unwrapped m w = (w', Ok a) -> m w = (w', Ok a).
Proof using Type.
  unfold ChainVm.unwrapped, catch. destruct (m w) as [w1 [a'|e|]]; cbn; intros [=]; simplify_eq; done.
Qed.

Lemma unwrapped_fst {A} (m : action world IoError A) w : (ChainVm.unwrapped m w).1 = (m w).1.
Proof using Type. unfold ChainVm.unwrapped, catch. by destruct (m w). Qed.

Lemma new_grows p h t d st w : grows w (Block.new p h t d st w).1.
Proof using Type.
  unfold Block.new, default_state, lift, mbind, action_bind. cbn.
  destruct (Block.to_slice _); cbn; apply grows_app.
Qed.

Lemma new_run p h t d st w w' b : Block.new p h t d st w = (w', Ok b) ->
  Block.to_fields b = mk_fields p h t d /\ status b = st /\ identifies (id b) (Block.to_fields b).
Proof.
  unfold Block.new, default_state, lift, mbind, action_bind. cbn. unfold Block.to_slice, Block.to_fields. cbn.
  destruct (to_vec (mk_fields p h t d)) as [enc|e|] eqn:E; cbn; intros [= <- <-]. split_and!; [done..|].
  exists enc. split; [done|]. by apply json_roundtrip.
Qed.

Lemma build_block_preserves t tm h c : preserves (ChainVm.build_block t tm h c).
Proof.
  intros w Hok. unfold ChainVm.build_block. apply bind_preserves; [done|]. intros w' w0 [= <- <-] _.
  destruct (vm_state w) as [st|] eqn:Est; [|done].
  apply bind_preserves; [|intros w1 p _ H1'].
  { rewrite unwrapped_fst. destruct (State.get_block _ _ w) as [w1 o1] eqn:Eg. by eapply grows_ok, Hok; eapply get_block_grows. }
  apply bind_preserves; [|intros w2 d _ H2'].
  { rewrite unwrapped_fst. by apply quiet_preserves; [auto with chain|]. }
  apply bind_preserves; [done|intros w3 hh [= <- _] _].
  apply bind_preserves; [|intros w3 b Hb H3'].
  { rewrite unwrapped_fst. eapply grows_ok, H2'. apply new_grows. }
  apply unwrapped_Ok, new_run in Hb as (_ & _ & Hid).
  apply bind_preserves; [|done]. rewrite unwrapped_fst. by apply verify_preserves.
Qed.

(** The calls the machine serves: those of the consensus engine on blocks, which it
    names by their bytes or their identifiers, and those of clients and peers. *)
Inductive call :=
  | Verify (d : bytes) (now : Z)
  | Accept (blk_id : Id)
  | Reject (blk_id : Id)
  | Build (unix_now unix_now_micro : Z) (block_id checkpoint_id : HashValue)
  | Prefer (blk_id : Id)
  | SetState (s : ChainVm.snow_state)
  | Submit (answer : outcome string unit) (d : bytes) (unix_now_micro : Z) (block_id checkpoint_id : HashValue)
  | SubmitBatch (answer : outcome string (list Z)) (d : bytes)
  | Gossip (msg : bytes)
  | Tick (status_free pending_free : bool) (now last_check : Z).

Definition serve (c : call) : action world IoError unit :=
  match c with
  | Verify d now => b ← ChainVm.parse_block d; Snowman.verify now b
  | Accept i => b ← ChainVm.get_block i; Snowman.accept b;; mret tt
  | Reject i => b ← ChainVm.get_block i; Snowman.reject b;; mret tt
  | Build t tm h cp => ChainVm.build_block t tm h cp;; mret tt
  | Prefer i => ChainVm.set_preference i
  | SetState s => ChainVm.set_state s
  | Submit a d tm h cp => Vm.submit_transaction a d tm h cp
  | SubmitBatch a d => Vm.submit_transaction_batch a d
  | Gossip m => Vm.app_gossip m
  | Tick sf pf now last => Vm.check_pending_tx sf pf now last;; mret tt
  end.

(** Serving calls one after the other, also after errors and panics. *)
Definition serve_all (cs : list call) w : world := foldl (fun w c => (serve c w).1) w cs.

Lemma serve_preserves c : preserves (serve c).
Proof.
  intros w Hok. destruct c as [d now|i|i| | | | | | |]; cbn [serve].
  - destruct (ChainVm.parse_block d w) as [w1 o1] eqn:E. destruct (parse_block_run _ _ _ _ E) as [Hg Hid].
    apply bind_preserves; rewrite E; [by eapply grows_ok|]. intros w' b [= <- ->] Hok'.
    by apply verify_preserves; [apply Hid|].
  - destruct (ChainVm.get_block i w) as [w1 o1] eqn:E. destruct (chain_get_block_run _ _ _ _ E) as [Hg Hb].
    apply bind_preserves; rewrite E; [by eapply grows_ok|]. intros w' b [= <- ->] Hok'.
    apply bind_preserves; [|done]. by apply accept_preserves; [|apply Hb].
  - destruct (ChainVm.get_block i w) as [w1 o1] eqn:E. destruct (chain_get_block_run _ _ _ _ E) as [Hg Hb].
    apply bind_preserves; rewrite E; [by eapply grows_ok|]. intros w' b [= <- ->] Hok'.
    apply bind_preserves; [|done]. by apply reject_preserves; [|apply Hb].
  - apply bind_preserves; [|done]. by apply build_block_preserves.
  - by apply quiet_preserves; [auto with chain|].
  - by apply quiet_preserves; [auto with chain|].
  - by apply quiet_preserves; [auto with chain|].
  - by apply quiet_preserves; [auto with chain|].
  - by apply quiet_preserves; [auto with chain|].
  - apply bind_preserves; [|done]. by apply quiet_preserves; [auto with chain|].
Qed.

Lemma serve_all_preserves cs w : chain_ok w -> chain_ok (serve_all cs w).
Proof. revert w. induction cs as [|c cs IH]; intros w Hw; [done|]. cbn. apply IH. by apply serve_preserves. Qed.

Lemma initialize_ok current channel sender aptos w :
  store_ok (length (heap w)) (mk_store current ∅) ->
  chain_ok (ChainVm.initialize current channel sender aptos w).1.
Proof.
  intros Hok. destruct aptos as [[e p] sg]. unfold ChainVm.initialize, gets, modify. unfold mbind at 1 2 3 4 5 6, action_bind.
  cbn [heap set_heap set_vm_state set_to_engine set_app_sender].
  set (st := mk_state (length (heap w)) false). set (w1 := mk_world _ _ _ _ _ _ _ _ _ _ _).
  assert (heap w1 !! loc st = Some (mk_store current ∅)) as HS by (by apply list_lookup_middle).
  assert (chain_ok w1) as H1' by (exists st; by eexists).
  assert (vm_state w1 = Some st) as Hst by done. clearbody w1.
  apply bind_preserves; [unfold State.has_last_accepted_block, deref, mbind, action_bind; by rewrite HS|].
  intros w2 has Hw _. assert (w2 = w1) as ->.
  { unfold State.has_last_accepted_block, deref, mbind, action_bind in Hw. rewrite HS in Hw. by injection Hw. }
  destruct has.
  - apply bind_preserves; [|intros w2 i _ H2'; exact H2'].
    unfold State.get_last_accepted_block_id, deref, mbind, action_bind. rewrite HS. cbn. by repeat case_match.
  - apply bind_preserves; [done|]. intros w2 d [= <- _] _.
    apply bind_preserves; [rewrite unwrapped_fst; eapply grows_ok, H1'; apply new_grows|]. intros w2 b Hb H2'.
    pose proof (new_grows Id_empty 0 0 d Status_default w1) as Hg. apply unwrapped_Ok in Hb. rewrite Hb in Hg.
    apply new_run in Hb as (Hf & _ & Hid).
    apply bind_preserves; [|intros w3 b' _ H3'; exact H3'].
    apply accept_preserves; [done|]. split; [|done|].
    + intros st' Hst'. destruct Hg as [Hv _]. cbn [fst] in Hv. assert (st' = st) as -> by congruence. done.
    + intros S _. left. change (Block.to_fields _) with (Block.to_fields b). by rewrite Hf.
Qed.

(** ** The chain *)

(** C30: start the machine on a database in which every decided block is identified by
    its fields and linked to genesis, such as an empty one, and let it serve any
    calls whatever their outcomes.  Then the blocks it knows, verified or decided,
    have the fields their identifiers were computed from, and each is genesis or
    the child of a known block, one higher and not older, down to genesis.  Genesis is
    any block of height 0 whose parent is the empty identifier, and SHA-256 is taken
    to be injective on the serialized blocks ([AvalancheLaws]). *)
Theorem known_blocks_linked current channel sender aptos w cs st S i f :
  (forall i f, known (mk_store current ∅) i f -> identifies i f /\ linked (mk_store current ∅) i f) ->
  vm_state (serve_all cs (ChainVm.initialize current channel sender aptos w).1) = Some st ->
  heap (serve_all cs (ChainVm.initialize current channel sender aptos w).1) !! loc st = Some S ->
  known S i f -> identifies i f /\ linked S i f.
Proof.
  intros Hcur Hst HS Hk. destruct (serve_all_preserves cs _ (initialize_ok current channel sender aptos w
    ltac:(split; [done|apply Hcur|apply Hcur]))) as (st' & S' & ? & ? & Hok).
  assert (st' = st) as -> by congruence. assert (S' = S) as -> by congruence. by split; apply Hok.
Qed.

Lemma put_Ok s k v e w S d : heap w !! loc s = Some S -> db_put k v (db S) = (d, Ok tt) ->
  State.put s k v e w = (set_heap w (<[loc s := mk_store d (verified_blocks S)]> (heap w)), Ok tt).
Proof using Type. intros HS Hp. unfold State.put, deref, mbind, action_bind. rewrite HS. cbn. by rewrite Hp. Qed.

(** Accepting a block when the writes succeed. *)
Lemma accept_Ok b w w1 S blk_bytes record d1 d2 :
  Snowman.inner_build b w = (w1, Ok tt) -> heap w1 !! loc (state_of b) = Some S ->
  to_vec (Block.to_fields b) = Ok blk_bytes -> to_vec (block_with_status blk_bytes Accepted) = Ok record ->
  db_put (State.block_with_status_key (id b)) record (db S) = (d1, Ok tt) ->
  db_put State.LAST_ACCEPTED_BLOCK_KEY (Id_to_vec (id b)) d1 = (d2, Ok tt) ->
  Snowman.accept b w = (set_heap w1 (<[loc (state_of b) := mk_store d2 (delete (id b) (verified_blocks S))]> (heap w1)),
    Ok (Block.set_status Accepted b)).
Proof using Type.
  intros Hx HS E1 E2 P1 P2. pose proof (lookup_lt_Some _ _ _ HS) as Hlt.
  unfold Snowman.accept, State.write_block, State.encode, Block.to_slice, State.set_last_accepted_block, lift.
  unfold mbind, action_bind. rewrite Hx. change (Block.to_fields (Block.set_status Accepted b)) with (Block.to_fields b).
  rewrite E1. cbn [map_err status Block.set_status]. rewrite E2. cbn [map_err]. cbn [state_of id Block.set_status].
  erewrite put_Ok by done. cbn [heap set_heap].
  erewrite put_Ok; [|cbn; by rewrite list_lookup_insert_eq|done]. cbn [heap set_heap]. rewrite set_heap_insert.
  unfold State.remove_verified, deref, mbind, action_bind. cbn. rewrite list_lookup_insert_eq by done. cbn.
  by rewrite set_heap_insert.
Qed.

(** C31: accepting a verified block whose data the executor executes and commits, with
    writes that succeed, returns; it runs the executor once, on the data of the
    block, records the block as accepted and as the last accepted one, removes it
    from the verified blocks and changes no other block. *)
Theorem accept_executes i b w w1 st S blk_bytes record d1 d2 :
  vm_state w = Some st -> heap w !! loc st = Some S -> verified_blocks S !! i = Some b -> id b = i ->
  Vm.inner_build_block (data b) w = (w1, Ok tt) ->
  to_vec (Block.to_fields b) = Ok blk_bytes -> to_vec (block_with_status blk_bytes Accepted) = Ok record ->
  db_put (State.block_with_status_key i) record (db S) = (d1, Ok tt) ->
  db_put State.LAST_ACCEPTED_BLOCK_KEY (Id_to_vec i) d1 = (d2, Ok tt) ->
  exists w' S', serve (Accept i) w = (w', Ok tt) /\ w' = set_heap w1 (<[loc st := S']> (heap w)) /\
    decided S' i (Block.to_fields b) Accepted /\ verified_blocks S' = delete i (verified_blocks S) /\
    ChainVm.last_accepted w' = (w', Ok i) /\
    (forall j f, j <> i -> known S' j f <-> known S j f).
Proof.
  intros Hst HS Hv Hid Hx E1 E2 P1 P2. pose proof (inner_build_block_quiet (data b) w) as [Hh Hs].
  rewrite Hx in Hh, Hs. cbn in Hh, Hs. pose proof (lookup_lt_Some _ _ _ HS) as Hlt.
  set (S' := mk_store d2 (delete i (verified_blocks S))). exists (set_heap w1 (<[loc st := S']> (heap w))), S'.
  assert (forall j, db_get (State.block_with_status_key j) d2 = db_get (State.block_with_status_key j) d1) as G2.
  { intros j. by eapply db_get_put_ne, P2; apply not_eq_sym, block_key_last. }
  split_and!; [|done| |done| |].
  - cbn [serve]. unfold ChainVm.get_block, State.get_block, deref, gets, mbind, action_bind.
    rewrite Hst, HS. cbn [expect fst]. rewrite Hv. unfold mret, action_ret. subst i.
    erewrite (accept_Ok (Block.set_state (State.set_vm st) b)); [by cbn; rewrite Hh|exact Hx| |done..].
    cbn. by rewrite Hh.
  - exists record, (block_with_status blk_bytes Accepted). cbn [db]. rewrite G2, (db_get_put _ _ _ _ P1).
    apply json_roundtrip in E1, E2. done.
  - unfold ChainVm.last_accepted, State.get_last_accepted_block_id, deref, gets, mbind, action_bind.
    cbn [vm_state heap set_heap]. rewrite Hs, Hst. cbn [heap set_heap].
    rewrite list_lookup_insert_eq by done. cbn [expect db S'].
    by rewrite (db_get_put _ _ _ _ P2), Id_roundtrip.
  - intros j f Hj. unfold known, decided. cbn [db verified_blocks S']. rewrite lookup_delete_ne, G2 by done.
    erewrite (db_get_put_ne _ (State.block_with_status_key j)); [done| |exact P1]. by intros ?%block_key_inj.
Qed.

(** A block that is written and no longer in memory is read back with its fields
    and its status.  Its identifier is computed from the bytes that were written, so
    it is the one it is stored under exactly if the block's own bytes were the ones
    its fields serialize to. *)
Theorem written_block_reads_back s b w w1 S blk_bytes :
  heap w !! loc s = Some S -> verified_blocks S !! id b = None -> id b = sha256 (encoded b) ->
  to_vec (Block.to_fields b) = Ok blk_bytes -> State.write_block s b w = (w1, Ok tt) ->
  exists w2 b', State.get_block s (id b) w1 = (w2, Ok b') /\ grows w1 w2 /\
    Block.to_fields b' = Block.to_fields b /\ status b' = status b /\ (id b' = id b <-> encoded b = blk_bytes).
Proof.
  intros HS Hv Hid E1 Hw. pose proof (lookup_lt_Some _ _ _ HS) as Hlt.
  unfold State.write_block, State.encode, Block.to_slice, lift, mbind, action_bind in Hw. rewrite E1 in Hw. cbn [map_err] in Hw.
  destruct (to_vec (block_with_status _ _)) as [record|?|] eqn:E2; cbn [map_err] in Hw; [|done..].
  destruct (put_run _ _ _ _ _ _ _ _ HS Hw) as (d & -> & _ & Hd & _). specialize (Hd eq_refl). apply json_roundtrip in E1, E2.
  unfold State.get_block, deref, lift, mbind, action_bind. cbn [heap set_heap]. rewrite list_lookup_insert_eq by done.
  cbn [expect verified_blocks db]. rewrite Hv, Hd. unfold State.status_from_slice. rewrite E2. cbn [map_err block_bytes block_status].
  unfold Block.from_slice, lift, default_state, mbind, action_bind. rewrite E1. cbn [map_err heap set_heap].
  eexists _, _. split; [done|]. split_and!; [apply (grows_app (set_heap w _))|by destruct b|done|]. cbn. rewrite Hid.
  split; [intros E; by apply sha256_inj in E|congruence].
Qed.
End chain.

(** ** A run of the machine *)
Definition new_world : world := mk_world [] None Id_empty false None None None None None 0 false.
Definition start_services : Exec * Pool * ValidatorSigner.t := (mk_log [] [], [(7, 1); (7, 2)], ValidatorSigner.new 1 1).
Definition empty_db : @Db _ _ subnet_services := (∅ : gmap (list Z) (list Z)).
Definition started : world := (ChainVm.initialize empty_db 0%nat [] start_services new_world).1.
Definition machine_store (w : world) : store := default (mk_store empty_db ∅) (heap w !! 0%nat).
(** The bytes and the data of the block the machine verified, when there is one. *)
Definition verified_bytes (w : world) : list Z :=
  match map_to_list (verified_blocks (machine_store w)) with (_, b) :: _ => encoded b | [] => [] end.
Definition verified_data (w : world) : list Z :=
  match map_to_list (verified_blocks (machine_store w)) with (_, b) :: _ => data b | [] => [] end.

(** The machine builds a block with two transactions, which is accepted; a child of
    it is built, and a block that claims to be two higher is refused. *)
Definition id0 : Id := Eval vm_compute in (preferred started : list Z).
Definition built : world := (serve (Build 100 100000 41 42) started).1.
Definition id1 : Id := Eval vm_compute in verified_bytes built.
Definition data1 : bytes := Eval vm_compute in verified_data built.
Definition block1 : block := mk_block id0 1 100 data1 Processing id1 id1 (mk_state 0 false).
Definition block3 : bytes := Eval vm_compute in emit (mk_fields id1 3 180 []).
Definition run_calls : list call :=
  [Build 100 100000 41 42; Accept id1; Prefer id1; Submit (Ok tt) [7; 3] 0 0 0; Build 160 160000 51 52; Verify block3 200].
Definition final : world := serve_all run_calls started.
Definition id2 : Id := Eval vm_compute in verified_bytes final.
Definition data2 : bytes := Eval vm_compute in verified_data final.
Definition block2 : block := mk_block id1 2 160 data2 Processing id2 id2 (mk_state 0 false).

(** The databases the machine starts with and gets to. *)
Definition insert_db (k v : bytes) (d : gmap (list Z) (list Z)) : gmap (list Z) (list Z) := <[k := v]> d.
Definition record (i : Id) : bytes := emit (block_with_status i Accepted).
Definition db0 : @Db _ _ subnet_services :=
  insert_db State.LAST_ACCEPTED_BLOCK_KEY id0 (insert_db (State.block_with_status_key id0) (record id0) ∅).
Definition db1 : @Db _ _ subnet_services := insert_db (State.block_with_status_key id1) (record id1) db0.
Definition db2 : @Db _ _ subnet_services := insert_db State.LAST_ACCEPTED_BLOCK_KEY id1 db1.
Definition store1 : store := mk_store db0 {[ id1 := block1 ]}.
Definition store2 : store := mk_store db2 {[ id2 := block2 ]}.

Lemma known_blocks_linked_witness :
  known store2 id2 (Block.to_fields block2) /\ height block2 = 2 /\ (forall f, ~ known store2 block3 f) /\
  identifies id2 (Block.to_fields block2) /\ linked store2 id2 (Block.to_fields block2).
Proof.
  assert (known store2 id2 (Block.to_fields block2)) as Hk by (left; exists block2; split; vm_refl).
  split; [exact Hk|]. split; [vm_refl|]. split.
  { assert (verified_blocks store2 !! block3 = None) as E1 by vm_refl.
    assert (db_get (State.block_with_status_key block3) (db store2) = Err (io_error NotFound "not found")) as E2 by vm_refl.
    intros f [(b & Hb & _)|(_ & ? & d & bs & Hd & _)]; [apply (eq_trans (eq_sym E1)) in Hb; discriminate Hb|].
    apply (eq_trans (eq_sym E2)) in Hd. discriminate Hd. }
  apply (known_blocks_linked empty_db 0%nat [] start_services new_world run_calls (mk_state 0 false)
    store2 id2 (Block.to_fields block2)); [|vm_refl..|exact Hk].
  intros i f [(b & Hb & _)|(_ & ? & d & bs & Hd & _)]; [discriminate Hb|].
  change (Err (io_error NotFound "not found") = Ok d) in Hd. discriminate Hd.
Defined.

(** What executing the block leaves. *)
Definition executed1 : world := (Vm.inner_build_block data1 built).1.

Lemma accept_executes_witness : exists w' S', serve (Accept id1) built = (w', Ok tt) /\
  w' = set_heap executed1 (<[0%nat := S']> (heap built)) /\
  decided S' id1 (Block.to_fields block1) Accepted /\
  verified_blocks S' = delete id1 (verified_blocks store1) /\
  ChainVm.last_accepted w' = (w', Ok id1) /\
  (forall j f, j <> id1 -> known S' j f <-> known store1 j f).
Proof.
  apply (accept_executes id1 block1 built executed1 (mk_state 0 false) store1 id1 (record id1) db1 db2); vm_refl.
Defined.

(** A block whose bytes start with white space. *)
Definition spaced : block := mk_block id0 1 100 data1 Accepted (-32 :: id1) (-32 :: id1) (mk_state 0 true).
Definition written : world := set_heap started (<[0%nat := mk_store (insert_db (State.block_with_status_key (-32 :: id1)) (record id1) db0) ∅]> (heap started)).

Lemma written_block_reads_back_witness : exists w2 b',
  State.get_block (mk_state 0 true) (-32 :: id1) written = (w2, Ok b') /\ grows written w2 /\
  Block.to_fields b' = Block.to_fields spaced /\ status b' = status spaced /\
  (id b' = -32 :: id1 <-> -32 :: id1 = id1).
Proof.
  apply (written_block_reads_back (mk_state 0 true) spaced started written (mk_store db0 ∅) id1); vm_refl.
Defined.
