(* ===== verification/SubnetPool.v ===== *)
(** * Transactions of the subnet

    How transactions get from submissions into blocks and from blocks into the
    executor ([subnet/src/vm/mod.rs]): the data a machine builds is executed as it
    was proposed, submissions that arrive while a block is being built are
    announced later.  Large submissions are executed without consensus, and
    batches without a failed transaction are never announced. *)

From S2P Require Import Prelude Collections Merkle InMemoryAccumulator BitVec ValidatorVerifier LedgerInfo.
From S2P Require Import TrustedState AccumulatorProofs QuorumCert Timeout2Chain ConsensusBlock Subnet SubnetExample SubnetChain.

Section pool.
Context `{CryptoTypes} `{!Transactions} `{!PrivateKeys} `{!BlsAggregate} `{!BlsSign LedgerInfo.t}
  `{!Avalanche} `{!Services} `{!Json fields} `{!Json BlockWithStatus} `{!Json AptosData}
  `{!Json (list Transaction.t)} `{!Json SignedTransaction}.
Implicit Types (w : world) (b : block) (S : store) (i : Id).

(** ** Building and executing *)
Lemma update_build_block_status_run z w : Vm.update_build_block_status z w = (set_build_status w z, Ok tt).
Proof using Type.
  unfold Vm.update_build_block_status, modify. destruct (build_status w =? z) eqn:E; [|done].
  apply Z.eqb_eq in E as <-. by destruct w.
Qed.

Lemma service_Ok {A} (f : world -> option A) w w1 x : service f w = (w1, Ok x) -> w1 = w /\ f w = Some x.
Proof using Type. unfold service. destruct (f w); [by intros [= <- <-]|done]. Qed.

(** The transactions of the block the machine proposes. *)
Definition proposal (author : AccountAddress) (next_epoch : Z) (pool : Pool) (t : Z) (h c : HashValue) :
    list Transaction.t :=
  [Transaction.BlockMetadata (BlockMetadata.new h next_epoch 0 author [] [] t)] ++
  (Transaction.UserTransaction <$> get_batch 500 (1024 * 5 * 1000) pool) ++ [Transaction.StateCheckpoint c].

Lemma build_block_data_run t h c w w1 d e p sg li :
  executor w = Some e -> core_mempool w = Some p -> signer w = Some sg -> get_latest_ledger_info e = Ok li ->
  Vm.build_block_data t h c w = (w1, Ok d) ->
  let next_epoch := LedgerInfo.next_block_epoch (LedgerInfoWithSignatures.ledger_info li) in
  w1 = w /\ exists txs_bytes, to_vec (proposal (ValidatorSigner.author sg) next_epoch p t h c) = Ok txs_bytes /\
    to_vec (aptos_data txs_bytes h (committed_block_id e) next_epoch t) = Ok d.
Proof using Type.
  intros He Hp Hsg Hli Hb ne. unfold Vm.build_block_data, Vm.get_pending_tx, service, lift, mbind, action_bind in Hb.
  rewrite Hp in Hb. cbn in Hb. rewrite He in Hb. cbn in Hb. rewrite Hsg in Hb. cbn in Hb. rewrite Hli in Hb. cbn in Hb.
  fold ne in Hb. change (_ :: _ ++ _) with (proposal (ValidatorSigner.author sg) ne p t h c) in Hb.
  destruct (to_vec (proposal _ _ _ _ _ _)) as [txb|?|]; cbn in Hb; [|done..].
  destruct (to_vec (aptos_data _ _ _ _ _)) as [d'|?|] eqn:E; cbn in Hb; [|done..]. injection Hb as <- <-.
  split; [done|]. by exists txb.
Qed.

Lemma build_block_data_inv t h c w w1 d : Vm.build_block_data t h c w = (w1, Ok d) ->
  exists e p sg li, executor w = Some e /\ core_mempool w = Some p /\ signer w = Some sg /\
    get_latest_ledger_info e = Ok li.
Proof using Type.
  unfold Vm.build_block_data, Vm.get_pending_tx. intros Hb.
  apply action_bind_Ok in Hb as (? & ? & (? & p & [-> Hp]%service_Ok & [= <- _])%action_bind_Ok & Hb).
  apply action_bind_Ok in Hb as (? & e & [-> He]%service_Ok & Hb).
  apply action_bind_Ok in Hb as (? & sg & [-> Hsg]%service_Ok & Hb).
  apply action_bind_Ok in Hb as (? & li & [= _ Hli] & _). exists e, p, sg, li.
  split_and!; [done..|]. by destruct (get_latest_ledger_info e) as [?|?|]; cbn in Hli; simplify_eq.
Qed.

(** Executing the data of a block whose execution and commit succeed. *)
Lemma inner_build_block_Ok d ad m rest w e p sg e1 output li e2 :
  from_slice d = Ok ad -> from_slice (block_info ad) = Ok (Transaction.BlockMetadata m :: rest) ->
  executor w = Some e -> core_mempool w = Some p -> signer w = Some sg ->
  execute_block (BlockMetadata.id m) (Transaction.BlockMetadata m :: rest) (committed_block_id e) e = (e1, Ok output) ->
  Vm.generate_ledger_info_with_sig [sg] (LedgerInfo.new (BlockInfo.new (next_epoch ad) 0 (BlockMetadata.id m)
    (root_hash output) (version output) (data_ts ad) (epoch_state output)) HashValue_zero) = Ok li ->
  commit_blocks [BlockMetadata.id m] li e1 = (e2, Ok tt) ->
  Vm.inner_build_block d w = (set_build_status (set_core_mempool (set_executor w (Some e2))
    (Some (Vm.commit_to_pool (Transaction.BlockMetadata m :: rest) p))) 0, Ok tt).
Proof using Type.
  intros Hd Hb He Hp Hsg X1 X2 X3. unfold Vm.inner_build_block, Vm.in_executor, service, lift, mbind, action_bind.
  rewrite He. cbn [expect or_panic]. rewrite Hd. cbn [or_panic]. rewrite Hb. cbn [or_panic head expect].
  cbn [executor]. rewrite X1. cbn -[Vm.generate_ledger_info_with_sig Vm.update_build_block_status Vm.commit_to_pool].
  rewrite Hsg. cbn -[Vm.generate_ledger_info_with_sig Vm.update_build_block_status Vm.commit_to_pool].
  rewrite X2, X3. cbn [mret action_ret or_panic core_mempool set_executor]. rewrite Hp. cbn [expect].
  apply update_build_block_status_run.
Qed.

Lemma in_executor_Ok {A} (m : action Exec string A) w w1 r : Vm.in_executor m w = (w1, Ok r) ->
  exists e e1, executor w = Some e /\ m e = (e1, r) /\ w1 = set_executor w (Some e1).
Proof using Type.
  intros (w2 & e & [-> He]%service_Ok & Hr)%action_bind_Ok. exists e. destruct (m e) as [e1 o].
  exists e1. by injection Hr as <- <-.
Qed.

(** What executing the data of a block did when it returned: the block was executed
    and, if that succeeded, committed; either way its transactions leave the
    mempool. *)
Lemma inner_build_block_inv d ad m rest w w' :
  from_slice d = Ok ad -> from_slice (block_info ad) = Ok (Transaction.BlockMetadata m :: rest) ->
  Vm.inner_build_block d w = (w', Ok tt) ->
  exists e p e1 r, executor w = Some e /\ core_mempool w = Some p /\
    execute_block (BlockMetadata.id m) (Transaction.BlockMetadata m :: rest) (committed_block_id e) e = (e1, r) /\
    core_mempool w' = Some (Vm.commit_to_pool (Transaction.BlockMetadata m :: rest) p) /\
    match r with
    | Ok output => exists sg li e2, signer w = Some sg /\
        Vm.generate_ledger_info_with_sig [sg] (LedgerInfo.new (BlockInfo.new (next_epoch ad) 0 (BlockMetadata.id m)
          (root_hash output) (version output) (data_ts ad) (epoch_state output)) HashValue_zero) = Ok li /\
        commit_blocks [BlockMetadata.id m] li e1 = (e2, Ok tt) /\ executor w' = Some e2
    | Err _ => executor w' = Some e1
    | Panic => False
    end.
Proof using Type.
  intros Hd Hb Hr. unfold Vm.inner_build_block in Hr.
  apply action_bind_Ok in Hr as (w1 & e & [-> He]%service_Ok & Hr). rewrite Hd in Hr.
  apply action_bind_Ok in Hr as (? & ? & [= <- <-] & Hr). rewrite Hb in Hr.
  do 3 apply action_bind_Ok in Hr as (? & ? & [= <- <-] & Hr). cbn zeta in Hr.
  apply action_bind_Ok in Hr as (w1 & r & (e' & e1 & He' & X1 & ->)%in_executor_Ok & Hr).
  rewrite He in He'. injection He' as <-. apply action_bind_Ok in Hr as (w2 & [] & Hr1 & Hr).
  apply action_bind_Ok in Hr as (w3 & p & [-> Hp]%service_Ok & Hr).
  apply action_bind_Ok in Hr as (w3 & [] & [= <-] & Hr). rewrite update_build_block_status_run in Hr. injection Hr as <-.
  exists e, p, e1, r. destruct r as [output|?|]; [|by injection Hr1 as <-|done].
  apply action_bind_Ok in Hr1 as (w3 & sg & [-> Hsg]%service_Ok & Hr1).
  apply action_bind_Ok in Hr1 as (w3 & li & [= <- X2] & Hr1).
  apply action_bind_Ok in Hr1 as (w3 & o & (e' & e2 & He' & X3 & ->)%in_executor_Ok & Hr1).
  injection He' as <-. injection Hr1 as <- Ho. destruct o as [[]|?|]; [|done..].
  split_and!; [done..|]. by exists sg, li, e2.
Qed.

Lemma commit_to_pool_proposal author ne pool t h c p : Vm.commit_to_pool (proposal author ne pool t h c) p =
  foldl (fun pool x => commit_transaction (txn_sender x) (txn_sequence_number x) pool) p
    (get_batch 500 (1024 * 5 * 1000) pool).
Proof using Type.
  unfold Vm.commit_to_pool, proposal. rewrite !foldl_app. cbn [foldl].
  generalize (get_batch 500 (1024 * 5 * 1000) pool). intros l. revert p. induction l as [|x l IH]; intros p; [done|]. apply IH.
Qed.

(** C32: the data a machine with executor, mempool and signer builds, executed by any
    machine, its own or a peer's, is exactly the proposal of the first: it executes
    the metadata, the batch of the builder's mempool in its order and the checkpoint
    under the chosen block identifier on top of the block committed last, commits
    that block with the results of execution, removes the transactions of the batch
    from the mempool and lets the next block be built. *)
Theorem built_data_executes `{!JsonLaws AptosData} `{!JsonLaws (list Transaction.t)} t h c w w1 d e p sg li
    txs next_epoch w2 e2 p2 sg2 e3 output li2 e4 :
  executor w = Some e -> core_mempool w = Some p -> signer w = Some sg -> get_latest_ledger_info e = Ok li ->
  Vm.build_block_data t h c w = (w1, Ok d) ->
  next_epoch = LedgerInfo.next_block_epoch (LedgerInfoWithSignatures.ledger_info li) ->
  txs = proposal (ValidatorSigner.author sg) next_epoch p t h c ->
  executor w2 = Some e2 -> core_mempool w2 = Some p2 -> signer w2 = Some sg2 ->
  execute_block h txs (committed_block_id e2) e2 = (e3, Ok output) ->
  Vm.generate_ledger_info_with_sig [sg2] (LedgerInfo.new
    (BlockInfo.new next_epoch 0 h (root_hash output) (version output) t (epoch_state output)) HashValue_zero) = Ok li2 ->
  commit_blocks [h] li2 e3 = (e4, Ok tt) ->
  w1 = w /\ Vm.inner_build_block d w2 =
    (set_build_status (set_core_mempool (set_executor w2 (Some e4))
       (Some (foldl (fun pool x => commit_transaction (txn_sender x) (txn_sequence_number x) pool) p2
                (get_batch 500 (1024 * 5 * 1000) p)))) 0, Ok tt).
Proof using Type.
  intros He Hp Hsg Hli Hb Hne -> He2 Hp2 Hsg2 X1 X2 X3.
  destruct (build_block_data_run _ _ _ _ _ _ _ _ _ _ He Hp Hsg Hli Hb) as [-> (txb & T1 & T2)]. split; [done|].
  rewrite <-Hne in T1, T2. apply json_roundtrip in T1, T2.
  erewrite inner_build_block_Ok; [|exact T2|exact T1|done..]. by rewrite <-(commit_to_pool_proposal (ValidatorSigner.author sg) next_epoch p t h c).
Qed.

(** ** Announcing transactions *)

(** The flag for pending transactions stays set. *)
Definition pending_kept w w' : Prop := has_pending_tx w = true -> has_pending_tx w' = true.
#[local] Instance pending_kept_preorder : PreOrder pending_kept.
Proof using Type. split; [by intros ? ?|]. intros w1 w2 w3 ? ? ?. unfold pending_kept in *. auto. Qed.
Abbreviation pending := (keeps pending_kept).

Lemma default_state_pending : pending default_state.
Proof using Type. by intros w Hw. Qed.
Lemma update_store_pending s S : pending (update_store s S).
Proof using Type. unfold update_store. keeps. Qed.
Lemma update_pending_true : pending (Vm.update_pending_tx_flag true).
Proof using Type. apply keeps_modify. intros w Hw. by destruct (eqb _ _). Qed.
#[local] Hint Resolve default_state_pending update_store_pending update_pending_true : chain.

Lemma from_slice_pending d : pending (Block.from_slice d).
Proof using Type. unfold Block.from_slice. keeps. Qed.
Lemma new_pending p h t d st : pending (Block.new p h t d st).
Proof using Type. unfold Block.new. keeps. Qed.
Lemma put_pending s k v e : pending (State.put s k v e).
Proof using Type. unfold State.put. keeps. Qed.
#[local] Hint Resolve from_slice_pending new_pending put_pending : chain.
Lemma get_block_pending s i : pending (State.get_block s i).
Proof using Type. unfold State.get_block. keeps. Qed.
#[local] Hint Resolve get_block_pending : chain.
Lemma verify_pending now b : pending (Snowman.verify now b).
Proof using Type. unfold Snowman.verify, State.add_verified. keeps. Qed.
Lemma inner_build_block_pending d : pending (Vm.inner_build_block d).
Proof using Type. unfold Vm.inner_build_block, Vm.in_executor, Vm.update_build_block_status. keeps. Qed.
Lemma build_block_data_pending t h c : pending (Vm.build_block_data t h c).
Proof using Type. unfold Vm.build_block_data, Vm.get_pending_tx. keeps. Qed.
Lemma add_pool_pending t : pending (Vm.add_pool t).
Proof using Type. unfold Vm.add_pool. keeps. Qed.
Lemma notify_block_ready2_pending : pending Vm.notify_block_ready2.
Proof using Type. unfold Vm.notify_block_ready2, Vm.update_build_block_status. keeps. Qed.
#[local] Hint Resolve verify_pending inner_build_block_pending build_block_data_pending add_pool_pending
  notify_block_ready2_pending : chain.
Lemma notify_block_ready_pending : pending Vm.notify_block_ready.
Proof using Type. unfold Vm.notify_block_ready. keeps. Qed.
#[local] Hint Resolve notify_block_ready_pending : chain.
Lemma submit_batch_loop_pending fi k l n : pending (Vm.submit_batch_loop fi k l n).
Proof using Type. revert k n. induction l; intros; cbn [Vm.submit_batch_loop]; keeps. Qed.
#[local] Hint Resolve submit_batch_loop_pending : chain.

(** Only [check_pending_tx] takes the flag back. *)
Definition is_tick (c : call) : bool := match c with Tick _ _ _ _ => true | _ => false end.

Lemma serve_pending c : is_tick c = false -> pending (serve c).
Proof using Type.
  destruct c; intros Hc; try done; cbn [serve];
    unfold ChainVm.parse_block, ChainVm.get_block, ChainVm.build_block, ChainVm.unwrapped, ChainVm.set_preference,
      ChainVm.set_state, Snowman.accept, Snowman.reject, Snowman.inner_build, State.write_block,
      State.set_last_accepted_block, State.remove_verified, Vm.submit_transaction, Vm.submit_transaction_batch,
      Vm.app_gossip; keeps.
Qed.

Lemma serve_all_pending cs w : Forall (fun c => is_tick c = false) cs -> has_pending_tx w = true ->
  has_pending_tx (serve_all cs w) = true.
Proof using Type.
  intros Hcs. revert w. induction Hcs as [|c cs Hc Hcs IH]; intros w Hw; [done|]. cbn. by apply IH, serve_pending.
Qed.

Lemma notify_block_ready2_run w ch ch' : to_engine w = Some ch -> send_pending_txs ch = (ch', Ok tt) ->
  Vm.notify_block_ready2 w = (set_build_status (set_to_engine w (Some ch')) 1, Ok tt).
Proof using Type.
  intros Hch Hs. unfold Vm.notify_block_ready2, gets, mbind, action_bind. rewrite Hch, Hs.
  cbn [modify]. apply update_build_block_status_run.
Qed.

Lemma update_pending_tx_flag_run n w : Vm.update_pending_tx_flag n w = (set_has_pending_tx w n, Ok tt).
Proof using Type.
  unfold Vm.update_pending_tx_flag, modify. destruct (eqb (has_pending_tx w) n) eqn:E; [|done].
  apply eqb_prop in E as <-. by destruct w.
Qed.

(** A tick that finds a free machine with pending transactions announces them. *)
Lemma tick_announces now last w ch ch' : build_status w = 0 -> has_pending_tx w = true ->
  to_engine w = Some ch -> send_pending_txs ch = (ch', Ok tt) ->
  (serve (Tick true true now last) w).1 = set_build_status (set_to_engine (set_has_pending_tx w false) (Some ch')) 1.
Proof using Type.
  intros Hs Hp Hch Hsend. cbn [serve]. unfold Vm.check_pending_tx, gets, mbind, action_bind.
  rewrite Hs, Hp. cbn [Z.eqb andb]. by rewrite update_pending_tx_flag_run, (notify_block_ready2_run _ ch ch').
Qed.

(** A tick that finds a build of more than two minutes gives it up. *)
Lemma tick_frees now last w : build_status w <> 0 -> 120 < now - last ->
  (serve (Tick true true now last) w).1 = set_build_status w 0.
Proof using Type.
  intros Hs Ht. cbn [serve]. unfold Vm.check_pending_tx, gets, lift, mbind, action_bind.
  rewrite (proj2 (Z.eqb_neq _ _)), u64_sub_Ok by lia. rewrite (proj2 (Z.ltb_lt _ _)) by lia.
  by rewrite update_build_block_status_run.
Qed.

(** A tick changes nothing else than the build status when no transactions are pending. *)
Lemma tick_not_pending sf pf now last w : has_pending_tx w = false ->
  to_engine (serve (Tick sf pf now last) w).1 = to_engine w.
Proof using Type.
  intros Hp. cbn [serve]. unfold Vm.check_pending_tx, gets, lift, mbind, action_bind.
  destruct sf; [|done]. rewrite Hp, andb_false_r. destruct (build_status w =? 0); [done|].
  unfold u64_sub. destruct (last <=? now); [|done]. destruct (120 <? now - last); [|done].
  by rewrite update_build_block_status_run.
Qed.

(** The world after a transaction was gossiped and put into the mempool. *)
Definition submitted (t : SignedTransaction) (p : Pool) (sd : AppSender) w : world :=
  set_core_mempool (set_app_sender w (Some sd)) (Some (add_txn t 0 (txn_sequence_number t) p)).

Lemma submit_transaction_inv d tm h c w w' : Vm.submit_transaction (Ok tt) d tm h c w = (w', Ok tt) ->
  exists t p sd, bcs_transaction d = Ok t /\ core_mempool w = Some p /\
    (if 50 * 1024 <=? Z.of_nat (length d)
     then exists data, Vm.build_block_data tm h c (submitted t p sd w) = (submitted t p sd w, Ok data) /\
       Vm.inner_build_block data (submitted t p sd w) = (w', Ok tt)
     else Vm.notify_block_ready (submitted t p sd w) = (w', Ok tt)).
Proof using Type.
  intros Hr. unfold Vm.submit_transaction, lift, service in Hr. apply action_bind_Ok in Hr as (w1 & t & Ht & Hr).
  injection Ht as <- Ht. apply action_bind_Ok in Hr as (w2 & g & Hg & Hr). injection Hg as <- Hg.
  apply action_bind_Ok in Hr as (w3 & sd & Hsd & Hr). injection Hsd as <- Hsd.
  destruct (send_app_gossip g sd) as [sd' sent]. unfold modify, Vm.add_pool, service, mbind, action_bind in Hr. cbn in Hr.
  destruct sent as [[]|?|]; cbn in Hr; [|done..]. destruct (core_mempool w) as [p|] eqn:Ep; cbn in Hr; [|done].
  exists t, p, sd'. split_and!; [by destruct (bcs_transaction d); cbn in Ht; simplify_eq|done|].
  change (set_core_mempool _ _) with (submitted t p sd' w) in Hr. destruct (50 * 1024 <=? _); [|done].
  destruct (Vm.build_block_data tm h c _) as [w1 [data|?|]] eqn:Eb; cbn in Hr; [|done..].
  assert (w1 = submitted t p sd' w) as ->.
  { unfold Vm.build_block_data, Vm.get_pending_tx, service, lift in Eb.
    repeat (apply action_bind_Ok in Eb as (? & ? & [= <- _] & Eb)). by injection Eb as <- _. }
  exists data. split; [done|]. unfold catch in Hr. destruct (Vm.inner_build_block data _) as [w2 o]. cbn in Hr.
  destruct o as [[]|?|]; by simplify_eq.
Qed.

Lemma notify_block_ready_busy w w' : build_status w = 1 -> Vm.notify_block_ready w = (w', Ok tt) ->
  has_pending_tx w' = true /\ core_mempool w' = core_mempool w.
Proof using Type.
  intros Hb. unfold Vm.notify_block_ready, gets, mbind, action_bind. rewrite Hb. cbn [Z.eqb].
  destruct (has_pending_tx w) eqn:Ep; [by intros [= <-]|]. cbn -[Vm.update_pending_tx_flag]. rewrite update_pending_tx_flag_run. by intros [= <-].
Qed.

(** A transaction of less than 50 KiB that is submitted while a block is being
    built is put into the mempool and is not forgotten: whatever calls come next,
    two rounds of the background task, the first more than two minutes after it
    last saw the machine free, send exactly one message to the engine. *)
Theorem submission_announced d tm h c w0 w cs ch ch' now last now' :
  Z.of_nat (length d) < 50 * 1024 -> build_status w0 = 1 ->
  serve (Submit (Ok tt) d tm h c) w0 = (w, Ok tt) ->
  Forall (fun c => is_tick c = false) cs -> to_engine (serve_all cs w) = Some ch ->
  send_pending_txs ch = (ch', Ok tt) -> 120 < now - last ->
  (exists t p, bcs_transaction d = Ok t /\ core_mempool w0 = Some p /\
     core_mempool w = Some (add_txn t 0 (txn_sequence_number t) p)) /\
  to_engine (serve_all [Tick true true now last; Tick true true now' now] (serve_all cs w)) = Some ch'.
Proof using Type.
  intros Hd Hb (t & p & sd & Ht & Hp & Hr)%submit_transaction_inv Hcs Hch Hs Hnow.
  rewrite (proj2 (Z.leb_gt _ _)) in Hr by lia. apply notify_block_ready_busy in Hr as [Hw Hpool]; [|done].
  split; [by exists t, p|]. apply (serve_all_pending cs) in Hw; [|done]. set (w1 := serve_all cs w) in *. clearbody w1.
  unfold serve_all. cbn [foldl]. destruct (decide (build_status w1 = 0)) as [E|E].
  - by rewrite tick_not_pending; erewrite (tick_announces now last) by done.
  - by rewrite (tick_frees now last), (tick_announces now' now _ ch ch').
Qed.

(** What the engine is told, and what is remembered of it. *)
Definition same_announcements w w' : Prop :=
  to_engine w' = to_engine w /\ build_status w' = build_status w /\ has_pending_tx w' = has_pending_tx w.

Definition same_engine w w' : Prop := to_engine w' = to_engine w.
#[local] Instance same_engine_preorder : PreOrder same_engine.
Proof using Type. split; [done|]. intros w1 w2 w3 ? ?. unfold same_engine in *. congruence. Qed.

Lemma inner_build_block_engine d w w' o : Vm.inner_build_block d w = (w', o) -> to_engine w' = to_engine w.
Proof using Type.
  intros Hr. assert (keeps same_engine (Vm.inner_build_block d)) as Hk.
  { unfold Vm.inner_build_block, Vm.in_executor, Vm.update_build_block_status. keeps. }
  specialize (Hk w). by rewrite Hr in Hk.
Qed.

Lemma submit_batch_loop_clean k ts n n' w w' p : core_mempool w = Some p ->
  Vm.submit_batch_loop [] k ts n w = (w', Ok n') -> n' = n /\ same_announcements w w' /\
  core_mempool w' = Some (foldl (fun p t => add_txn t 0 (txn_sequence_number t) p) p ts).
Proof using Type.
  revert k n w p. induction ts as [|t ts IH]; intros k n w p Hp Hr; cbn [Vm.submit_batch_loop] in Hr; [by injection Hr as <- <-|].
  rewrite bool_decide_eq_false_2 in Hr by apply not_elem_of_nil. unfold lift, service in Hr.
  apply action_bind_Ok in Hr as (w2 & g & [= <- Hg] & Hr). apply action_bind_Ok in Hr as (w3 & sd & [= <- Hsd] & Hr).
  destruct (send_app_gossip g sd) as [sd' sent]. unfold modify, Vm.add_pool, service, mbind, action_bind in Hr. cbn in Hr.
  destruct sent as [[]|?|]; cbn in Hr; [|done..]. rewrite Hp in Hr. cbn in Hr.
  by apply (IH _ _ _ (add_txn t 0 (txn_sequence_number t) p)) in Hr.
Qed.

(** C40: a submission of 50 KiB or more that succeeds bypasses the engine.  The machine
    puts the transaction into its mempool, proposes a block from the mempool and
    executes it at once on top of the block committed last.  If the execution
    succeeds, the block is committed with its results; if it fails, nothing is
    committed and the submission succeeds all the same.  Either way the proposed
    transactions leave the mempool, no block, verified or accepted, is recorded, the
    engine is not told, and the blocks the machine knows and the last accepted one
    stay what they were. *)
Theorem large_submission_bypasses_engine `{!JsonLaws AptosData} `{!JsonLaws (list Transaction.t)} d tm h c w w' :
  50 * 1024 <= Z.of_nat (length d) -> serve (Submit (Ok tt) d tm h c) w = (w', Ok tt) ->
  heap w' = heap w /\ vm_state w' = vm_state w /\ to_engine w' = to_engine w /\
  exists t p e sg li next_epoch e1 executed, bcs_transaction d = Ok t /\ core_mempool w = Some p /\
    executor w = Some e /\ signer w = Some sg /\ get_latest_ledger_info e = Ok li /\
    next_epoch = LedgerInfo.next_block_epoch (LedgerInfoWithSignatures.ledger_info li) /\
    let p1 := add_txn t 0 (txn_sequence_number t) p in
    execute_block h (proposal (ValidatorSigner.author sg) next_epoch p1 tm h c) (committed_block_id e) e = (e1, executed) /\
    core_mempool w' = Some (foldl (fun pool x => commit_transaction (txn_sender x) (txn_sequence_number x) pool) p1
      (get_batch 500 (1024 * 5 * 1000) p1)) /\
    match executed with
    | Ok output => exists li1 e2,
        Vm.generate_ledger_info_with_sig [sg] (LedgerInfo.new
          (BlockInfo.new next_epoch 0 h (root_hash output) (version output) tm (epoch_state output)) HashValue_zero) = Ok li1 /\
        commit_blocks [h] li1 e1 = (e2, Ok tt) /\ executor w' = Some e2
    | Err _ => executor w' = Some e1
    | Panic => False
    end.
Proof using Type.
  intros Hd Hr. pose proof (submit_transaction_quiet (Ok tt) d tm h c w) as [Hh Hv]. cbn [serve] in Hr.
  rewrite Hr in Hh, Hv. apply submit_transaction_inv in Hr as (t & p & sd & Ht & Hp & Hr).
  rewrite (proj2 (Z.leb_le _ _)) in Hr by lia. destruct Hr as (data & Hb & Hr).
  split_and!; [done..|by apply inner_build_block_engine in Hr|].
  destruct (build_block_data_inv _ _ _ _ _ _ Hb) as (e & p1 & sg & li & He & Hp1 & Hsg & Hli).
  destruct (build_block_data_run _ _ _ _ _ _ _ _ _ _ He Hp1 Hsg Hli Hb) as (_ & txb & T1 & T2).
  apply json_roundtrip in T1, T2. injection Hp1 as <-.
  destruct (inner_build_block_inv _ _ _ _ _ _ T2 T1 Hr) as (e' & p2 & e1 & r & He' & Hp2 & X1 & Hp' & Hx).
  rewrite He in He'. injection He' as <-. injection Hp2 as <-.
  exists t, p, e, sg, li, (LedgerInfo.next_block_epoch (LedgerInfoWithSignatures.ledger_info li)), e1, r.
  do 6 (split; [done|]). cbn zeta. split; [done|]. split.
  - rewrite Hp'. f_equal. by rewrite <-(commit_to_pool_proposal (ValidatorSigner.author sg)
      (LedgerInfo.next_block_epoch (LedgerInfoWithSignatures.ledger_info li)) _ tm h c).
  - destruct r as [output|?|]; [|done..]. destruct Hx as (sg' & li1 & e2 & Hsg' & X2 & X3 & X4).
    rewrite Hsg in Hsg'. injection Hsg' as <-. by exists li1, e2.
Qed.

(** A batch in which no transaction failed puts its transactions into the mempool in
    their order and announces nothing: neither is a message sent to the engine nor
    the flag for pending transactions set. *)
Theorem clean_batch_not_announced d w w' p :
  core_mempool w = Some p -> serve (SubmitBatch (Ok []) d) w = (w', Ok tt) ->
  to_engine w' = to_engine w /\ build_status w' = build_status w /\ has_pending_tx w' = has_pending_tx w /\
  exists ts, bcs_transactions d = Ok ts /\
    core_mempool w' = Some (foldl (fun p t => add_txn t 0 (txn_sequence_number t) p) p ts).
Proof using Type.
  intros Hp Hr. cbn [serve] in Hr. unfold Vm.submit_transaction_batch, lift in Hr.
  apply action_bind_Ok in Hr as (w1 & ts & Hts & Hr). injection Hts as <- Hts.
  apply action_bind_Ok in Hr as (? & ? & [= <- _] & Hr).
  apply action_bind_Ok in Hr as (w1 & n & Hl & Hr). apply (submit_batch_loop_clean _ _ _ _ _ _ p) in Hl as (-> & He & Hm); [|done].
  injection Hr as <-. split_and!; [by apply He..|]. exists ts. split; [|done]. by destruct (bcs_transactions d); cbn in Hts; simplify_eq.
Qed.
End pool.

(** ** Examples *)
Definition h41 : @HashValue subnet_crypto := 41.
Definition h42 : @HashValue subnet_crypto := 42.
Definition log0 : @Exec _ _ subnet_services := mk_log [] [].
Definition pool0 : @Pool _ _ subnet_services := [(7, 1); (7, 2)].
Definition signer0 : @ValidatorSigner.t subnet_crypto subnet_keys := ValidatorSigner.new 1 1.
Definition li0 : @LedgerInfoWithSignatures.t subnet_crypto :=
  match get_latest_ledger_info log0 with Ok li => li | _ => LedgerInfoWithSignatures.new
    (LedgerInfo.new (BlockInfo.new 0 0 0 0 0 0 None) 0) AggregateSignature.empty end.
Definition data0 : bytes := match (Vm.build_block_data 100000 h41 h42 started).2 with Ok d => d | _ => [] end.
Definition txs0 : list Transaction.t := proposal 1 1 pool0 100000 h41 h42.
(** A peer that has another transaction in its mempool and committed another block. *)
Definition peer : world := set_core_mempool (set_executor started (Some (mk_log [33] []))) (Some [(8, 5); (7, 2)]).
Definition output0 : StateComputeResult := compute_result (1000 : @HashValue subnet_crypto) 4 None.
Definition commit0 : LedgerInfo.t :=
  LedgerInfo.new (BlockInfo.new 1 0 h41 (root_hash output0) (version output0) 100000 (epoch_state output0)) HashValue_zero.
Definition signed0 : LedgerInfoWithSignatures.t :=
  match Vm.generate_ledger_info_with_sig [signer0] commit0 with Ok li => li | _ => li0 end.

Lemma built_data_executes_witness : started = started /\ Vm.inner_build_block data0 peer =
  (set_build_status (set_core_mempool (set_executor peer (Some (mk_log [41; 33] [(41, txs0)]))) (Some [(8, 5)])) 0, Ok tt).
Proof.
  apply (built_data_executes 100000 h41 h42 started started data0 log0 pool0 signer0 li0 txs0 1
    peer (mk_log [33] [] : @Exec _ _ subnet_services) ([(8, 5); (7, 2)] : @Pool _ _ subnet_services) signer0
    (mk_log [33] [(41, txs0)] : @Exec _ _ subnet_services) output0 signed0
    (mk_log [41; 33] [(41, txs0)] : @Exec _ _ subnet_services)); vm_refl.
Defined.

(** A submission while a block is being built, a call in between, and two rounds. *)
Definition busy : world := set_build_status started 1.
Definition waiting : world := (serve (Submit (Ok tt) [7; 3] 0 h41 h42) busy).1.

Lemma submission_announced_witness :
  (exists t p, bcs_transaction [7; 3] = Ok t /\ core_mempool busy = Some p /\
     core_mempool waiting = Some (add_txn t 0 (txn_sequence_number t) p)) /\
  to_engine (serve_all [Tick true true 500 300; Tick true true 501 500] (serve_all [Prefer Id_empty] waiting)) =
    Some 1%nat.
Proof.
  apply (submission_announced [7; 3] 0 h41 h42 busy waiting [Prefer Id_empty] 0%nat 1%nat 500 300 501);
    [cbn; lia|vm_refl|vm_refl|repeat constructor|vm_refl|vm_refl|lia].
Defined.

Definition large : bytes := 7 :: 9 :: replicate 51200 0.

Lemma large_submission_bypasses_engine_witness :
  50 * 1024 <= Z.of_nat (length large) /\
  heap (serve (Submit (Ok tt) large 0 h41 h42) started).1 = heap started /\
  to_engine (serve (Submit (Ok tt) large 0 h41 h42) started).1 = to_engine started.
Proof.
  split; [by vm_compute|].
  destruct (large_submission_bypasses_engine large 0 h41 h42 started
    (serve (Submit (Ok tt) large 0 h41 h42) started).1) as (Hh & _ & He & _); [by vm_compute|vm_refl|]. by split.
Defined.

Definition batch : bytes := [2; 7; 3; 7; 4].

Lemma clean_batch_not_announced_witness :
  to_engine (serve (SubmitBatch (Ok []) batch) started).1 = to_engine started /\
  build_status (serve (SubmitBatch (Ok []) batch) started).1 = build_status started /\
  has_pending_tx (serve (SubmitBatch (Ok []) batch) started).1 = has_pending_tx started /\
  exists ts, bcs_transactions batch = Ok ts /\ core_mempool (serve (SubmitBatch (Ok []) batch) started).1 =
    Some (foldl (fun p t => add_txn t 0 (txn_sequence_number t) p) pool0 ts).
Proof.
  apply (clean_batch_not_announced batch started _ pool0); vm_refl.
Defined.
